(** * Constraint expansion of the CP-SAT presolver

    A shallow embedding of [ortools/sat/cp_model_expand.cc].  The expander
    rewrites high-level constraints (reservoir, int_mod, int_prod, element,
    inverse, automaton, table, all_different, linear) of a [CpModelProto]
    into clauses and small linear constraints, through a [PresolveContext]
    that owns the working model, the variable domains and the cache of
    value-encoding literals.

    Conventions.  C++ [int] and [int64_t] values are modelled by [Z]; signed
    overflow is undefined behaviour in the source and is excluded by model
    validation, the saturating helpers [CapAdd] and [CapSub] are written out.
    A [ConstraintProto*] into the working model is modelled by the index of
    the constraint, so that [ct->Clear()] and [add_constraints()] act on the
    same store.  Hash maps and hash sets are [gmap]s and lists; protocol
    buffer messages are records. *)

From stdpp Require Import gmap list strings pretty sorting.
From Stdlib Require Import ZArith Lia.

Local Open Scope Z_scope.

(** ** Variable references ([cp_model_utils.h]) *)

Definition NegatedRef (ref : Z) : Z := - ref - 1.

Definition RefIsPositive (ref : Z) : bool := 0 <=? ref.

Definition PositiveRef (ref : Z) : Z := Z.max ref (NegatedRef ref).

(** ** Saturated arithmetic ([saturated_arithmetic.h]) *)

Definition kint64min : Z := - 2 ^ 63.
Definition kint64max : Z := 2 ^ 63 - 1.

Definition saturate (x : Z) : Z := Z.max kint64min (Z.min kint64max x).

(** Modelled from the spec: [CapAdd] and [CapSub] of
    [ortools/util/saturated_arithmetic.h], the saturating add and subtract
    used "at every domain-arithmetic boundary". *)
Definition CapAdd (x y : Z) : Z := saturate (x + y).
Definition CapSub (x y : Z) : Z := saturate (x - y).

(** ** Domains: sorted lists of disjoint closed intervals *)

Module Domain.

(** Modelled from the spec: the [Domain] class of
    [ortools/util/sorted_interval_list.h], "a finite union of closed integer
    intervals", kept sorted, disjoint and non-adjacent. *)
Definition t : Type := list (Z * Z).

Definition kDomainComplexityLimit : Z := 100.

Definition in_interval (i : Z * Z) (v : Z) : bool := (i.1 <=? v) && (v <=? i.2).

Definition Contains (d : t) (v : Z) : bool := existsb (fun i => in_interval i v) d.

(** Inserts a non-empty interval in a sorted list, merging what it touches. *)
Fixpoint insert_interval (i : Z * Z) (d : t) : t :=
  match d with
  | [] => [i]
  | j :: d' =>
      if i.2 + 1 <? j.1 then i :: j :: d'
      else if j.2 + 1 <? i.1 then j :: insert_interval i d'
      else insert_interval (Z.min i.1 j.1, Z.max i.2 j.2) d'
  end.

Definition normalise (l : list (Z * Z)) : t :=
  foldr (fun i acc => if i.1 <=? i.2 then insert_interval i acc else acc) [] l.

Definition Empty : t := [].
Definition Value (v : Z) : t := [(v, v)].
Definition Range (lo hi : Z) : t := if lo <=? hi then [(lo, hi)] else [].
Definition AllValues : t := [(kint64min, kint64max)].
Definition FromValues (vs : list Z) : t := normalise (map (fun v => (v, v)) vs).

Definition IsEmpty (d : t) : bool := match d with [] => true | _ => false end.
Definition NumIntervals (d : t) : Z := Z.of_nat (length d).

Definition Min (d : t) : Z := match d with [] => 0 | i :: _ => i.1 end.
Definition Max (d : t) : Z := match last d with None => 0 | Some i => i.2 end.

Definition IsFixed (d : t) : bool :=
  match d with [] => false | _ => Min d =? Max d end.
Definition FixedValue (d : t) : Z := Min d.

Definition Size (d : t) : Z :=
  Z.min kint64max (foldr (fun i acc => (i.2 - i.1 + 1) + acc) 0 d).

Definition Values (d : t) : list Z :=
  flat_map (fun i => seqZ i.1 (i.2 - i.1 + 1)) d.

Fixpoint complement_from (lo : Z) (d : t) : t :=
  match d with
  | [] => if lo <=? kint64max then [(lo, kint64max)] else []
  | i :: d' =>
      (if lo <? i.1 then [(lo, i.1 - 1)] else []) ++ complement_from (i.2 + 1) d'
  end.

Definition Complement (d : t) : t := complement_from kint64min d.

Definition Negation (d : t) : t := reverse (map (fun i => (- i.2, - i.1)) d).

Definition IntersectionWith (a b : t) : t :=
  normalise (flat_map (fun i => map (fun j => (Z.max i.1 j.1, Z.min i.2 j.2)) b) a).

Definition UnionWith (a b : t) : t := normalise (a ++ b).

Definition AdditionWith (a b : t) : t :=
  normalise (flat_map (fun i => map (fun j => (CapAdd i.1 j.1, CapAdd i.2 j.2)) b) a).

Definition scale_interval (c : Z) (i : Z * Z) : Z * Z :=
  if 0 <=? c then (i.1 * c, i.2 * c) else (i.2 * c, i.1 * c).

Definition ContinuousMultiplicationBy (c : Z) (d : t) : t :=
  normalise (map (scale_interval c) d).

Definition MultiplicationBy (c : Z) (d : t) : t :=
  if IsEmpty d then []
  else if c =? 0 then Value 0
  else if kDomainComplexityLimit <? (if 1 <? Z.abs c then Size d else 0)
       then ContinuousMultiplicationBy c d
       else FromValues (map (fun v => v * c) (Values d)).

(** Hull of the products of two domains. *)
Definition ContinuousMultiplicationByDomain (a b : t) : t :=
  if IsEmpty a || IsEmpty b then []
  else
    let p1 := Min a * Min b in
    let p2 := Min a * Max b in
    let p3 := Max a * Min b in
    let p4 := Max a * Max b in
    Range (Z.min (Z.min p1 p2) (Z.min p3 p4)) (Z.max (Z.max p1 p2) (Z.max p3 p4)).

(** The values [z] with [c * z] in the domain. *)
Definition InverseMultiplicationBy (c : Z) (d : t) : t :=
  if c =? 0 then (if Contains d 0 then AllValues else [])
  else
    let a := Z.abs c in
    let r := normalise (map (fun i => (- ((- i.1) / a), i.2 / a)) d) in
    if c <? 0 then Negation r else r.

Definition RelaxIfTooComplex (d : t) : t :=
  if NumIntervals d <=? kDomainComplexityLimit then d else Range (Min d) (Max d).

(** Superset of [{ x mod m }] (truncated remainder) for a positive modulus. *)
Definition PositiveModuloBySuperset (d modulo : t) : t :=
  if IsEmpty d then []
  else
    let max_mod := Max modulo - 1 in
    let hi := Z.min (Max d) max_mod in
    let lo := if Min d <? 0 then Z.max (Min d) (- max_mod) else 0 in
    Range lo hi.

(** Superset of [{ x / y }] (truncated quotient) for a positive divisor. *)
Definition PositiveDivisionBySuperset (d divisor : t) : t :=
  if IsEmpty d then []
  else
    Range (Z.min (Z.quot (Min d) (Max divisor)) (Z.quot (Min d) (Min divisor)))
          (Z.max (Z.quot (Max d) (Min divisor)) (Z.quot (Max d) (Max divisor))).

End Domain.

(** ** Protocol buffer messages ([cp_model.proto], [sat_parameters.proto]) *)

Module LinearExpressionProto.
Record t : Type := mk { vars : list Z; coeffs : list Z; offset : Z }.
#[global] Instance eq_dec : EqDecision t.
Proof. solve_decision. Defined.
End LinearExpressionProto.

Module LinearConstraintProto.
Record t : Type := mk { vars : list Z; coeffs : list Z; domain : list Z }.
Definition empty : t := mk [] [] [].
End LinearConstraintProto.

Module LinearArgumentProto.
Record t : Type :=
  mk { target : LinearExpressionProto.t; exprs : list LinearExpressionProto.t }.
End LinearArgumentProto.

Module ElementConstraintProto.
Record t : Type := mk { index : Z; target : Z; vars : list Z }.
End ElementConstraintProto.

Module InverseConstraintProto.
Record t : Type := mk { f_direct : list Z; f_inverse : list Z }.
End InverseConstraintProto.

Module AutomatonConstraintProto.
Record t : Type :=
  mk { starting_state : Z;
       final_states : list Z;
       transition_tail : list Z;
       transition_head : list Z;
       transition_label : list Z;
       vars : list Z }.
End AutomatonConstraintProto.

Module TableConstraintProto.
Record t : Type := mk { vars : list Z; values : list Z; negated : bool }.
End TableConstraintProto.

Module ReservoirConstraintProto.
Record t : Type :=
  mk { min_level : Z;
       max_level : Z;
       time_exprs : list LinearExpressionProto.t;
       level_changes : list LinearExpressionProto.t;
       active_literals : list Z }.
End ReservoirConstraintProto.

Module IntervalConstraintProto.
Record t : Type :=
  mk { start : LinearExpressionProto.t;
       size : LinearExpressionProto.t;
       end_ : LinearExpressionProto.t }.
End IntervalConstraintProto.

(** The [oneof constraint] of a [ConstraintProto].  The payload of the kinds
    the expander never opens is reduced to the references they hold. *)
Inductive Constraint : Type :=
  | CONSTRAINT_NOT_SET
  | kBoolOr (literals : list Z)
  | kBoolAnd (literals : list Z)
  | kAtMostOne (literals : list Z)
  | kExactlyOne (literals : list Z)
  | kBoolXor (literals : list Z)
  | kIntDiv (arg : LinearArgumentProto.t)
  | kIntMod (arg : LinearArgumentProto.t)
  | kIntProd (arg : LinearArgumentProto.t)
  | kLinMax (arg : LinearArgumentProto.t)
  | kLinear (arg : LinearConstraintProto.t)
  | kAllDiff (exprs : list LinearExpressionProto.t)
  | kElement (arg : ElementConstraintProto.t)
  | kCircuit (literals : list Z)
  | kRoutes (literals : list Z)
  | kTable (arg : TableConstraintProto.t)
  | kAutomaton (arg : AutomatonConstraintProto.t)
  | kInverse (arg : InverseConstraintProto.t)
  | kReservoir (arg : ReservoirConstraintProto.t)
  | kInterval (arg : IntervalConstraintProto.t)
  | kNoOverlap (intervals : list Z)
  | kNoOverlap2D (x_intervals y_intervals : list Z)
  | kCumulative (capacity : LinearExpressionProto.t) (intervals : list Z)
                (demands : list LinearExpressionProto.t)
  | kDummyConstraint (vars : list Z).

Module ConstraintProto.
Record t : Type := mk { enforcement_literal : list Z; constraint : Constraint }.
(** The state after [Clear()]. *)
Definition cleared : t := mk [] CONSTRAINT_NOT_SET.
Definition is_cleared (ct : t) : bool :=
  match constraint ct with CONSTRAINT_NOT_SET => true | _ => false end.
(** [mutable_linear()] et al.: the payload when the case matches, the default
    message otherwise. *)
Definition linear (ct : t) : LinearConstraintProto.t :=
  match constraint ct with kLinear l => l | _ => LinearConstraintProto.empty end.
End ConstraintProto.

Module IntegerVariableProto.
Record t : Type := mk { name : string; domain : list Z }.
End IntegerVariableProto.

Module CpModelProto.
Record t : Type :=
  mk { variables : list IntegerVariableProto.t;
       constraints : list ConstraintProto.t }.
End CpModelProto.

Module SatParameters.
Record t : Type :=
  mk { disable_constraint_expansion : bool;
       expand_reservoir_constraints : bool;
       expand_alldiff_constraints : bool;
       detect_table_with_cost : bool;
       table_compression_level : Z;
       encode_complex_linear_constraint_with_integer : bool;
       cp_model_presolve : bool;
       enumerate_all_solutions : bool }.
End SatParameters.

(** ** Helpers of [cp_model_utils.h] *)

Fixpoint pair_up (l : list Z) : list (Z * Z) :=
  match l with
  | lo :: hi :: l' => (lo, hi) :: pair_up l'
  | _ => []
  end.

(** Modelled from the spec: [ReadDomainFromProto] and [FillDomainInProto] of
    [cp_model_utils.h], which convert between a [Domain] and the flattened
    list of interval bounds of a proto. *)
Definition ReadDomainFromProto (bounds : list Z) : Domain.t :=
  Domain.normalise (pair_up bounds).

Definition FillDomainInProto (d : Domain.t) : list Z :=
  flat_map (fun i => [i.1; i.2]) d.

(** Modelled from the spec: [AddLinearExpressionToLinearConstraint] of
    [cp_model_utils.h]: appends [coefficient * expr] to a linear constraint
    and moves the constant term into the bounds. *)
Definition AddLinearExpressionToLinearConstraint
    (expr : LinearExpressionProto.t) (coefficient : Z)
    (linear : LinearConstraintProto.t) : LinearConstraintProto.t :=
  let shift := coefficient * LinearExpressionProto.offset expr in
  LinearConstraintProto.mk
    (LinearConstraintProto.vars linear ++ LinearExpressionProto.vars expr)
    (LinearConstraintProto.coeffs linear
       ++ map (fun c => c * coefficient) (LinearExpressionProto.coeffs expr))
    (map (fun d => d - shift) (LinearConstraintProto.domain linear)).

(** ** The presolve context

    [PresolveContext] is an external collaborator of the expander; only its
    interface is visible from [cp_model_expand.cc]. *)

Definition PrecedenceKey : Type :=
  (LinearExpressionProto.t * LinearExpressionProto.t * Z * Z)%type.

(** Modelled from the spec: the state of [PresolveContext]
    ([ortools/sat/presolve_context.h]): the working model, the domain store,
    the cache of [(var, value) -> literal] encodings, the stored Boolean
    equalities, the cache of reified precedences, the constraint-usage graph,
    the rule statistics and the infeasible and expanded flags. *)
Record PresolveContext : Type := mkContext {
  working_model : CpModelProto.t;
  params : SatParameters.t;
  domains : list Domain.t;
  encoding : gmap (Z * Z) Z;
  equalities : list (Z * Z);
  reified_precedences_cache : list (PrecedenceKey * Z);
  true_literal : option Z;
  constraint_to_vars : list (list Z);
  is_unsat : bool;
  model_is_expanded : bool;
  rule_stats : list string }.

Definition with_working_model (m : CpModelProto.t) (c : PresolveContext) :=
  mkContext m (params c) (domains c) (encoding c) (equalities c)
    (reified_precedences_cache c) (true_literal c) (constraint_to_vars c)
    (is_unsat c) (model_is_expanded c) (rule_stats c).

Definition with_domains (d : list Domain.t) (c : PresolveContext) :=
  mkContext (working_model c) (params c) d (encoding c) (equalities c)
    (reified_precedences_cache c) (true_literal c) (constraint_to_vars c)
    (is_unsat c) (model_is_expanded c) (rule_stats c).

Definition with_encoding (e : gmap (Z * Z) Z) (c : PresolveContext) :=
  mkContext (working_model c) (params c) (domains c) e (equalities c)
    (reified_precedences_cache c) (true_literal c) (constraint_to_vars c)
    (is_unsat c) (model_is_expanded c) (rule_stats c).

Definition with_equalities (e : list (Z * Z)) (c : PresolveContext) :=
  mkContext (working_model c) (params c) (domains c) (encoding c) e
    (reified_precedences_cache c) (true_literal c) (constraint_to_vars c)
    (is_unsat c) (model_is_expanded c) (rule_stats c).

Definition with_reified_precedences_cache
    (p : list (PrecedenceKey * Z)) (c : PresolveContext) :=
  mkContext (working_model c) (params c) (domains c) (encoding c) (equalities c)
    p (true_literal c) (constraint_to_vars c)
    (is_unsat c) (model_is_expanded c) (rule_stats c).

Definition with_true_literal (l : option Z) (c : PresolveContext) :=
  mkContext (working_model c) (params c) (domains c) (encoding c) (equalities c)
    (reified_precedences_cache c) l (constraint_to_vars c)
    (is_unsat c) (model_is_expanded c) (rule_stats c).

Definition with_constraint_to_vars (g : list (list Z)) (c : PresolveContext) :=
  mkContext (working_model c) (params c) (domains c) (encoding c) (equalities c)
    (reified_precedences_cache c) (true_literal c) g
    (is_unsat c) (model_is_expanded c) (rule_stats c).

Definition with_is_unsat (b : bool) (c : PresolveContext) :=
  mkContext (working_model c) (params c) (domains c) (encoding c) (equalities c)
    (reified_precedences_cache c) (true_literal c) (constraint_to_vars c)
    b (model_is_expanded c) (rule_stats c).

Definition with_model_is_expanded (b : bool) (c : PresolveContext) :=
  mkContext (working_model c) (params c) (domains c) (encoding c) (equalities c)
    (reified_precedences_cache c) (true_literal c) (constraint_to_vars c)
    (is_unsat c) b (rule_stats c).

Definition with_rule_stats (s : list string) (c : PresolveContext) :=
  mkContext (working_model c) (params c) (domains c) (encoding c) (equalities c)
    (reified_precedences_cache c) (true_literal c) (constraint_to_vars c)
    (is_unsat c) (model_is_expanded c) s.

(** *** The working model *)

Definition variables (c : PresolveContext) : list IntegerVariableProto.t :=
  CpModelProto.variables (working_model c).

Definition constraints (c : PresolveContext) : list ConstraintProto.t :=
  CpModelProto.constraints (working_model c).

Definition with_variables (v : list IntegerVariableProto.t) (c : PresolveContext) :=
  with_working_model (CpModelProto.mk v (constraints c)) c.

Definition with_constraints (l : list ConstraintProto.t) (c : PresolveContext) :=
  with_working_model (CpModelProto.mk (variables c) l) c.

Definition variables_size (c : PresolveContext) : Z := Z.of_nat (length (variables c)).

Definition constraints_size (c : PresolveContext) : nat := length (constraints c).

(** [working_model->constraints(i)]. *)
Definition constraint_at (i : nat) (c : PresolveContext) : ConstraintProto.t :=
  default ConstraintProto.cleared (constraints c !! i).

(** Assignment through [working_model->mutable_constraints(i)]. *)
Definition set_constraint (i : nat) (ct : ConstraintProto.t) (c : PresolveContext) :=
  with_constraints (<[i := ct]> (constraints c)) c.

(** [ct->Clear()] for the constraint of index [i]. *)
Definition Clear (i : nat) (c : PresolveContext) : PresolveContext :=
  set_constraint i ConstraintProto.cleared c.

(** [working_model->add_constraints()], with the new constraint filled in. *)
Definition add_constraints (ct : ConstraintProto.t) (c : PresolveContext) :=
  with_constraints (constraints c ++ [ct]) c.

(** A constraint without enforcement literals. *)
Definition plain (k : Constraint) : ConstraintProto.t := ConstraintProto.mk [] k.

(** [add_literals] on the Boolean argument of the constraint of index [i]. *)
Definition add_literals (i : nat) (lit : Z) (c : PresolveContext) :=
  match constraints c !! i with
  | Some (ConstraintProto.mk enf k) =>
      match k with
      | kBoolOr lits => set_constraint i (ConstraintProto.mk enf (kBoolOr (lits ++ [lit]))) c
      | kBoolAnd lits => set_constraint i (ConstraintProto.mk enf (kBoolAnd (lits ++ [lit]))) c
      | kAtMostOne lits =>
          set_constraint i (ConstraintProto.mk enf (kAtMostOne (lits ++ [lit]))) c
      | kExactlyOne lits =>
          set_constraint i (ConstraintProto.mk enf (kExactlyOne (lits ++ [lit]))) c
      | _ => c
      end
  | None => c
  end.

(** Control flow of a loop body that may [return] from its function. *)
Inductive flow (S : Type) : Type :=
  | Continue (s : S)
  | Return (s : S).
Arguments Continue {S} s.
Arguments Return {S} s.

Definition flow_state {S : Type} (f : flow S) : S :=
  match f with Continue s | Return s => s end.

Fixpoint for_each {A S : Type} (body : A -> S -> flow S) (l : list A) (s : S) : flow S :=
  match l with
  | [] => Continue s
  | x :: l' =>
      match body x s with
      | Continue s' => for_each body l' s'
      | Return s' => Return s'
      end
  end.

Definition set_name (var : Z) (name : string) (c : PresolveContext) :=
  if 0 <=? var then
    with_variables
      (alter (fun v => IntegerVariableProto.mk name (IntegerVariableProto.domain v))
             (Z.to_nat var) (variables c)) c
  else c.

(** *** Model bookkeeping *)

(** Modelled from the spec: the bookkeeping interface of [PresolveContext]
    ([UpdateRuleStats], [NotifyThatModelIsUnsat], [ModelIsUnsat],
    [NotifyThatModelIsExpanded], [ModelIsExpanded], [ClearPrecedenceCache],
    [InitializeNewDomains]). *)
Definition UpdateRuleStats (name : string) (c : PresolveContext) :=
  with_rule_stats (rule_stats c ++ [name]) c.

Definition NotifyThatModelIsUnsat (c : PresolveContext) := with_is_unsat true c.

Definition ModelIsUnsat (c : PresolveContext) : bool := is_unsat c.

Definition NotifyThatModelIsExpanded (c : PresolveContext) :=
  with_model_is_expanded true c.

Definition ModelIsExpanded (c : PresolveContext) : bool := model_is_expanded c.

Definition ClearPrecedenceCache (c : PresolveContext) :=
  with_reified_precedences_cache [] c.

Definition InitializeNewDomains (c : PresolveContext) :=
  with_domains
    (domains c
       ++ map (fun v => ReadDomainFromProto (IntegerVariableProto.domain v))
              (drop (length (domains c)) (variables c))) c.

(** *** Domain queries *)

Definition domain_of_var (c : PresolveContext) (var : Z) : Domain.t :=
  if 0 <=? var then default Domain.Empty (domains c !! Z.to_nat var) else Domain.Empty.

(** Modelled from the spec: the domain queries of [PresolveContext], on a
    reference ([DomainOf], [MinOf], [MaxOf], [IsFixed], [FixedValue],
    [DomainContains], [LiteralIsFalse], [LiteralIsTrue]) and on an affine
    expression ([IsFixed], [FixedValue], [DomainSuperSetOf], [DomainContains],
    [ExpressionIsALiteral]).  A negative reference stands for the opposite of
    its variable. *)
Definition DomainOf (c : PresolveContext) (ref : Z) : Domain.t :=
  if RefIsPositive ref then domain_of_var c ref
  else Domain.Negation (domain_of_var c (PositiveRef ref)).

Definition MinOf (c : PresolveContext) (ref : Z) : Z :=
  if RefIsPositive ref then Domain.Min (domain_of_var c ref)
  else - Domain.Max (domain_of_var c (PositiveRef ref)).

Definition MaxOf (c : PresolveContext) (ref : Z) : Z :=
  if RefIsPositive ref then Domain.Max (domain_of_var c ref)
  else - Domain.Min (domain_of_var c (PositiveRef ref)).

Definition IsFixed (c : PresolveContext) (ref : Z) : bool :=
  Domain.IsFixed (domain_of_var c (PositiveRef ref)).

Definition FixedValue (c : PresolveContext) (ref : Z) : Z := MinOf c ref.

Definition DomainContains (c : PresolveContext) (ref : Z) (value : Z) : bool :=
  if RefIsPositive ref then Domain.Contains (domain_of_var c ref) value
  else Domain.Contains (domain_of_var c (PositiveRef ref)) (- value).

Definition LiteralIsTrue (c : PresolveContext) (lit : Z) : bool :=
  if RefIsPositive lit then Domain.Min (domain_of_var c lit) =? 1
  else Domain.Max (domain_of_var c (PositiveRef lit)) =? 0.

Definition LiteralIsFalse (c : PresolveContext) (lit : Z) : bool :=
  if RefIsPositive lit then Domain.Max (domain_of_var c lit) =? 0
  else Domain.Min (domain_of_var c (PositiveRef lit)) =? 1.

Definition terms (e : LinearExpressionProto.t) : list (Z * Z) :=
  zip (LinearExpressionProto.vars e) (LinearExpressionProto.coeffs e).

Definition IsFixedExpr (c : PresolveContext) (e : LinearExpressionProto.t) : bool :=
  forallb (fun vc => (vc.2 =? 0) || IsFixed c vc.1) (terms e).

Definition FixedValueExpr (c : PresolveContext) (e : LinearExpressionProto.t) : Z :=
  foldl (fun acc vc => if vc.2 =? 0 then acc else acc + vc.2 * FixedValue c vc.1)
        (LinearExpressionProto.offset e) (terms e).

Definition DomainSuperSetOf (c : PresolveContext) (e : LinearExpressionProto.t) : Domain.t :=
  foldl (fun acc vc =>
           Domain.RelaxIfTooComplex
             (Domain.AdditionWith acc (Domain.MultiplicationBy vc.2 (DomainOf c vc.1))))
        (Domain.Value (LinearExpressionProto.offset e)) (terms e).

Definition DomainContainsExpr (c : PresolveContext) (e : LinearExpressionProto.t)
    (value : Z) : bool :=
  if IsFixedExpr c e then FixedValueExpr c e =? value
  else
    match terms e with
    | [(var, coeff)] =>
        let r := value - LinearExpressionProto.offset e in
        (Z.rem r coeff =? 0) && DomainContains c var (Z.quot r coeff)
    | _ => false
    end.

Definition ExpressionIsALiteral (c : PresolveContext) (e : LinearExpressionProto.t)
    : option Z :=
  match terms e with
  | [(ref, coeff)] =>
      let var := PositiveRef ref in
      if (MinOf c var <? 0) || (1 <? MaxOf c var) then None
      else if (LinearExpressionProto.offset e =? 0) && (coeff =? 1) && RefIsPositive ref
           then Some ref
      else if (LinearExpressionProto.offset e =? 1) && (coeff =? -1) && RefIsPositive ref
           then Some (NegatedRef ref)
      else None
  | _ => None
  end.

(** *** Domain mutation *)

(** Modelled from the spec: [IntersectDomainWith(ref, Domain, out changed?)],
    which returns [false] when the domain becomes empty and the model is
    infeasible.  The result is [(ok, changed, context)]. *)
Definition IntersectDomainWith (ref : Z) (d : Domain.t) (c : PresolveContext)
    : bool * bool * PresolveContext :=
  let var := PositiveRef ref in
  let old := domain_of_var c var in
  let new := Domain.IntersectionWith old (if RefIsPositive ref then d else Domain.Negation d) in
  if decide (new = old) then (true, false, c)
  else
    let c' := with_domains (<[Z.to_nat var := new]> (domains c)) c in
    if Domain.IsEmpty new then (false, true, NotifyThatModelIsUnsat c')
    else (true, true, c').

Definition IntersectDomainWithExpr (e : LinearExpressionProto.t) (d : Domain.t)
    (c : PresolveContext) : bool * bool * PresolveContext :=
  match terms e with
  | [] =>
      if Domain.Contains d (LinearExpressionProto.offset e) then (true, false, c)
      else (false, false, NotifyThatModelIsUnsat c)
  | [(var, coeff)] =>
      IntersectDomainWith var
        (Domain.InverseMultiplicationBy coeff
           (Domain.AdditionWith d (Domain.Value (- LinearExpressionProto.offset e)))) c
  | _ => (true, false, c)
  end.

Definition SetLiteralToFalse (lit : Z) (c : PresolveContext) : bool * PresolveContext :=
  let r := IntersectDomainWith (PositiveRef lit)
             (Domain.Value (if RefIsPositive lit then 0 else 1)) c in
  (r.1.1, r.2).

(** *** Variable and literal factory *)

(** Modelled from the spec: [NewIntVar(Domain)], [NewBoolVar()] and
    [GetTrueLiteral()].  A new variable is appended to the working model and
    its domain initialized; the result is its index. *)
Definition NewIntVar (d : Domain.t) (c : PresolveContext) : Z * PresolveContext :=
  let c' :=
    InitializeNewDomains
      (with_variables (variables c ++ [IntegerVariableProto.mk "" (FillDomainInProto d)]) c) in
  (variables_size c' - 1, c').

Definition NewBoolVar (c : PresolveContext) : Z * PresolveContext :=
  NewIntVar (Domain.Range 0 1) c.

Definition GetTrueLiteral (c : PresolveContext) : Z * PresolveContext :=
  match true_literal c with
  | Some l => (l, c)
  | None =>
      let (l, c') := NewIntVar (Domain.Value 1) c in
      (l, with_true_literal (Some l) c')
  end.

Definition GetFalseLiteral (c : PresolveContext) : Z * PresolveContext :=
  let (l, c') := GetTrueLiteral c in (NegatedRef l, c').

(** *** Encoding cache *)

Definition encoding_key (ref value : Z) : Z * Z :=
  if RefIsPositive ref then (ref, value) else (PositiveRef ref, - value).

(** Modelled from the spec: the encoding cache, which "maps
    [(var, value) -> literal] with [IsVar==value] semantics; creates a fresh
    literal on miss" and guarantees at most one literal per pair
    ([HasVarValueEncoding], [GetOrCreateVarValueEncoding],
    [InsertVarValueEncoding], [IsFullyEncoded],
    [GetOrCreateAffineValueEncoding], [StoreBooleanEqualityRelation]). *)
Definition HasVarValueEncoding (c : PresolveContext) (ref value : Z) : option Z :=
  encoding c !! encoding_key ref value.

Definition GetOrCreateVarValueEncoding (ref value : Z) (c : PresolveContext)
    : Z * PresolveContext :=
  match encoding c !! encoding_key ref value with
  | Some lit => (lit, c)
  | None =>
      let (lit, c') := NewBoolVar c in
      (lit, with_encoding (<[encoding_key ref value := lit]> (encoding c')) c')
  end.

Definition StoreBooleanEqualityRelation (a b : Z) (c : PresolveContext) :=
  with_equalities (equalities c ++ [(a, b)]) c.

Definition InsertVarValueEncoding (lit ref value : Z) (c : PresolveContext) :=
  match encoding c !! encoding_key ref value with
  | Some previous =>
      if decide (previous = lit) then c else StoreBooleanEqualityRelation lit previous c
  | None => with_encoding (<[encoding_key ref value := lit]> (encoding c)) c
  end.

Definition IsFullyEncoded (c : PresolveContext) (ref : Z) : bool :=
  let var := PositiveRef ref in
  forallb (fun v => bool_decide (is_Some (encoding c !! (var, v))))
          (Domain.Values (domain_of_var c var)).

Definition IsFullyEncodedExpr (c : PresolveContext) (e : LinearExpressionProto.t) : bool :=
  if IsFixedExpr c e then true
  else match terms e with
       | (var, _) :: _ => IsFullyEncoded c var
       | [] => true
       end.

Definition GetOrCreateAffineValueEncoding (e : LinearExpressionProto.t) (value : Z)
    (c : PresolveContext) : Z * PresolveContext :=
  if IsFixedExpr c e then
    if FixedValueExpr c e =? value then GetTrueLiteral c else GetFalseLiteral c
  else
    match terms e with
    | (var, coeff) :: _ =>
        let r := value - LinearExpressionProto.offset e in
        if Z.rem r coeff =? 0 then GetOrCreateVarValueEncoding var (Z.quot r coeff) c
        else GetFalseLiteral c
    | [] => GetFalseLiteral c
    end.

(** *** Reified precedences *)

(** Modelled from the spec: [GetOrCreateReifiedPrecedenceLiteral], the cache
    of literals equivalent to
    [time_i <= time_j /\ active_i /\ active_j], with a fresh Boolean on miss. *)
Definition lookup_precedence (k : PrecedenceKey) (c : PresolveContext) : option Z :=
  (fun e => e.2.2) <$> list_find (fun e => e.1 = k) (reified_precedences_cache c).

Definition GetOrCreateReifiedPrecedenceLiteral
    (time_i time_j : LinearExpressionProto.t) (active_i active_j : Z)
    (c : PresolveContext) : Z * PresolveContext :=
  let k := (time_i, time_j, active_i, active_j) in
  match lookup_precedence k c with
  | Some lit => (lit, c)
  | None =>
      let (lit, c') := NewBoolVar c in
      (lit, with_reified_precedences_cache (reified_precedences_cache c' ++ [(k, lit)]) c')
  end.

(** *** Boolean algebra *)

(** Modelled from the spec: [AddImplication(a, b)], the constraint
    [a => b], and [AddImplyInDomain(lit, var, Domain)], the constraint
    [lit => var in Domain]. *)
Definition AddImplication (a b : Z) (c : PresolveContext) :=
  add_constraints (ConstraintProto.mk [a] (kBoolAnd [b])) c.

Definition AddImplyInDomain (b x : Z) (d : Domain.t) (c : PresolveContext) :=
  add_constraints
    (ConstraintProto.mk [b]
       (kLinear (LinearConstraintProto.mk [x] [1] (FillDomainInProto d)))) c.

(** *** The variable-constraint graph *)

Definition expr_refs (e : LinearExpressionProto.t) : list Z :=
  LinearExpressionProto.vars e.

Definition arg_refs (a : LinearArgumentProto.t) : list Z :=
  expr_refs (LinearArgumentProto.target a)
    ++ flat_map expr_refs (LinearArgumentProto.exprs a).

(** Modelled from the spec: [UsedVariables] of [cp_model_utils.h]: the
    variables a constraint refers to, enforcement literals included. *)
Definition UsedVariables (ct : ConstraintProto.t) : list Z :=
  map PositiveRef
    (ConstraintProto.enforcement_literal ct ++
     match ConstraintProto.constraint ct with
     | CONSTRAINT_NOT_SET => []
     | kBoolOr l | kBoolAnd l | kAtMostOne l | kExactlyOne l | kBoolXor l => l
     | kIntDiv a | kIntMod a | kIntProd a | kLinMax a => arg_refs a
     | kLinear l => LinearConstraintProto.vars l
     | kAllDiff es => flat_map expr_refs es
     | kElement e =>
         ElementConstraintProto.index e :: ElementConstraintProto.target e
           :: ElementConstraintProto.vars e
     | kCircuit l | kRoutes l => l
     | kTable t => TableConstraintProto.vars t
     | kAutomaton a => AutomatonConstraintProto.vars a
     | kInverse i => InverseConstraintProto.f_direct i ++ InverseConstraintProto.f_inverse i
     | kReservoir r =>
         flat_map expr_refs (ReservoirConstraintProto.time_exprs r)
           ++ flat_map expr_refs (ReservoirConstraintProto.level_changes r)
           ++ ReservoirConstraintProto.active_literals r
     | kInterval i =>
         expr_refs (IntervalConstraintProto.start i)
           ++ expr_refs (IntervalConstraintProto.size i)
           ++ expr_refs (IntervalConstraintProto.end_ i)
     | kNoOverlap _ | kNoOverlap2D _ _ => []
     | kCumulative cap _ ds => expr_refs cap ++ flat_map expr_refs ds
     | kDummyConstraint vs => vs
     end).

(** Modelled from the spec: [UpdateNewConstraintsVariableUsage],
    [UpdateConstraintVariableUsage(c)] and [VarToConstraints(var)]: the graph
    records, per constraint already seen, the variables it uses. *)
Definition UpdateNewConstraintsVariableUsage (c : PresolveContext) :=
  with_constraint_to_vars
    (constraint_to_vars c
       ++ map UsedVariables (drop (length (constraint_to_vars c)) (constraints c))) c.

Definition UpdateConstraintVariableUsage (i : nat) (c : PresolveContext) :=
  with_constraint_to_vars
    (<[i := UsedVariables (constraint_at i c)]> (constraint_to_vars c)) c.

Definition VarToConstraints (c : PresolveContext) (var : Z) : list Z :=
  map (fun p => Z.of_nat p.1)
      (filter (fun p => var ∈ p.2) (imap (fun i vs => (i, vs)) (constraint_to_vars c))).

(** ** The expanders *)

(** Accessors [ct->reservoir()], [ct->int_mod()], ...: the payload when the
    constraint has that case, the default message otherwise. *)
Definition default_expr : LinearExpressionProto.t := LinearExpressionProto.mk [] [] 0.

Definition default_arg : LinearArgumentProto.t := LinearArgumentProto.mk default_expr [].

Definition reservoir_of (ct : ConstraintProto.t) : ReservoirConstraintProto.t :=
  match ConstraintProto.constraint ct with
  | kReservoir r => r
  | _ => ReservoirConstraintProto.mk 0 0 [] [] []
  end.

Definition int_mod_of (ct : ConstraintProto.t) : LinearArgumentProto.t :=
  match ConstraintProto.constraint ct with kIntMod a => a | _ => default_arg end.

Definition int_prod_of (ct : ConstraintProto.t) : LinearArgumentProto.t :=
  match ConstraintProto.constraint ct with kIntProd a => a | _ => default_arg end.

Definition expr_at (l : list LinearExpressionProto.t) (i : nat) : LinearExpressionProto.t :=
  default default_expr (l !! i).

Definition ref_at (l : list Z) (i : nat) : Z := default 0 (l !! i).

(** *** Reservoir *)

Definition is_active_literal (reservoir : ReservoirConstraintProto.t)
    (true_literal : Z) (index : nat) : Z :=
  match ReservoirConstraintProto.active_literals reservoir with
  | [] => true_literal
  | lits => ref_at lits index
  end.

(** Body of the inner loop creating the two precedence literals of [i], [j]. *)
Definition reservoir_link (reservoir : ReservoirConstraintProto.t) (true_literal : Z)
    (i : nat) (st : gmap (nat * nat) Z * PresolveContext) (j : nat)
    : gmap (nat * nat) Z * PresolveContext :=
  let '(precedence_cache, context) := st in
  let active_i := is_active_literal reservoir true_literal i in
  let time_i := expr_at (ReservoirConstraintProto.time_exprs reservoir) i in
  let active_j := is_active_literal reservoir true_literal j in
  if LiteralIsFalse context active_j then st
  else
    let time_j := expr_at (ReservoirConstraintProto.time_exprs reservoir) j in
    let '(i_lesseq_j, context) :=
      GetOrCreateReifiedPrecedenceLiteral time_i time_j active_i active_j context in
    let context := set_name i_lesseq_j (pretty i +:+ " before " +:+ pretty j) context in
    let precedence_cache := <[(i, j) := i_lesseq_j]> precedence_cache in
    let '(j_lesseq_i, context) :=
      GetOrCreateReifiedPrecedenceLiteral time_j time_i active_j active_i context in
    let context := set_name j_lesseq_i (pretty j +:+ " before " +:+ pretty i) context in
    (<[(j, i) := j_lesseq_i]> precedence_cache, context).

Definition reservoir_precedences (reservoir : ReservoirConstraintProto.t)
    (true_literal : Z) (num_events : nat)
    (st : gmap (nat * nat) Z * PresolveContext) (i : nat)
    : gmap (nat * nat) Z * PresolveContext :=
  if LiteralIsFalse st.2 (is_active_literal reservoir true_literal i) then st
  else foldl (reservoir_link reservoir true_literal i) st
             (seq (S i) (num_events - S i)).

(** Contribution of event [j] to the level constraint of event [i]:
    the state is [(vars, coeffs, offset)]. *)
Definition reservoir_contribution (reservoir : ReservoirConstraintProto.t)
    (true_literal : Z) (precedence_cache : gmap (nat * nat) Z)
    (context : PresolveContext) (i : nat)
    (acc : list Z * list Z * Z) (j : nat) : list Z * list Z * Z :=
  let '(vars, coeffs, offset) := acc in
  if decide (i = j) then acc
  else if LiteralIsFalse context (is_active_literal reservoir true_literal j) then acc
  else
    let prec_lit := default 0 (precedence_cache !! (j, i)) in
    let demand :=
      FixedValueExpr context (expr_at (ReservoirConstraintProto.level_changes reservoir) j) in
    if RefIsPositive prec_lit
    then (vars ++ [prec_lit], coeffs ++ [demand], offset)
    else (vars ++ [prec_lit], coeffs ++ [- demand], offset - demand).

Definition reservoir_level (reservoir : ReservoirConstraintProto.t)
    (true_literal : Z) (precedence_cache : gmap (nat * nat) Z) (num_events : nat)
    (context : PresolveContext) (i : nat) : PresolveContext :=
  let active_i := is_active_literal reservoir true_literal i in
  if LiteralIsFalse context active_i then context
  else
    let '(vars, coeffs, offset) :=
      foldl (reservoir_contribution reservoir true_literal precedence_cache context i)
            ([], [], 0) (seq 0 num_events) in
    let demand_i :=
      FixedValueExpr context (expr_at (ReservoirConstraintProto.level_changes reservoir) i) in
    add_constraints
      (ConstraintProto.mk [active_i]
         (kLinear (LinearConstraintProto.mk vars coeffs
            [CapAdd (CapSub (ReservoirConstraintProto.min_level reservoir) demand_i) offset;
             CapAdd (CapSub (ReservoirConstraintProto.max_level reservoir) demand_i) offset])))
      context.

Definition ExpandReservoir (c : nat) (context : PresolveContext) : PresolveContext :=
  let reservoir := reservoir_of (constraint_at c context) in
  if ReservoirConstraintProto.max_level reservoir
       <? ReservoirConstraintProto.min_level reservoir
  then NotifyThatModelIsUnsat context
  else
    let num_events := length (ReservoirConstraintProto.time_exprs reservoir) in
    let '(true_literal, context) := GetTrueLiteral context in
    let demands :=
      map (FixedValueExpr context) (ReservoirConstraintProto.level_changes reservoir) in
    let num_positives := length (filter (fun d => 0 < d) demands) in
    let num_negatives := length (filter (fun d => d < 0) demands) in
    let context :=
      if (0 <? num_positives)%nat && (0 <? num_negatives)%nat then
        let '(precedence_cache, context) :=
          foldl (reservoir_precedences reservoir true_literal num_events)
                (∅, context) (seq 0 (num_events - 1)) in
        foldl (reservoir_level reservoir true_literal precedence_cache num_events)
              context (seq 0 num_events)
      else
        add_constraints
          (plain (kLinear (LinearConstraintProto.mk
             (map (is_active_literal reservoir true_literal) (seq 0 num_events))
             (map (fun i => FixedValueExpr context
                     (expr_at (ReservoirConstraintProto.level_changes reservoir) i))
                  (seq 0 num_events))
             [ReservoirConstraintProto.min_level reservoir;
              ReservoirConstraintProto.max_level reservoir])))
          context in
    UpdateRuleStats "reservoir: expanded" (Clear c context).

(** *** Integer modulo *)

Definition single_var_expr (var : Z) : LinearExpressionProto.t :=
  LinearExpressionProto.mk [var] [1] 0.

Definition ExpandIntMod (c : nat) (context : PresolveContext) : PresolveContext :=
  let ct := constraint_at c context in
  let int_mod := int_mod_of ct in
  let mod_expr := expr_at (LinearArgumentProto.exprs int_mod) 1 in
  if IsFixedExpr context mod_expr then context
  else
    let expr := expr_at (LinearArgumentProto.exprs int_mod) 0 in
    let target_expr := LinearArgumentProto.target int_mod in
    let '(ok, _, context) :=
      IntersectDomainWithExpr target_expr
        (Domain.PositiveModuloBySuperset (DomainSuperSetOf context expr)
           (DomainSuperSetOf context mod_expr)) context in
    if negb ok then context
    else
      let new_enforced_constraint (k : Constraint) :=
        ConstraintProto.mk (ConstraintProto.enforcement_literal ct) k in
      let '(div_var, context) :=
        NewIntVar
          (Domain.PositiveDivisionBySuperset (DomainSuperSetOf context expr)
             (DomainSuperSetOf context mod_expr)) context in
      let div_expr := single_var_expr div_var in
      let context :=
        add_constraints
          (new_enforced_constraint
             (kIntDiv (LinearArgumentProto.mk div_expr [expr; mod_expr]))) context in
      let prod_domain :=
        Domain.IntersectionWith
          (Domain.ContinuousMultiplicationByDomain (DomainOf context div_var)
             (DomainSuperSetOf context mod_expr))
          (Domain.AdditionWith (DomainSuperSetOf context expr)
             (Domain.Negation (DomainSuperSetOf context target_expr))) in
      let '(prod_var, context) := NewIntVar prod_domain context in
      let prod_expr := single_var_expr prod_var in
      let context :=
        add_constraints
          (new_enforced_constraint
             (kIntProd (LinearArgumentProto.mk prod_expr [div_expr; mod_expr]))) context in
      let lin :=
        AddLinearExpressionToLinearConstraint target_expr (-1)
          (AddLinearExpressionToLinearConstraint prod_expr (-1)
             (AddLinearExpressionToLinearConstraint expr 1
                (LinearConstraintProto.mk [] [] [0; 0]))) in
      let context := add_constraints (new_enforced_constraint (kLinear lin)) context in
      UpdateRuleStats "int_mod: expanded" (Clear c context).

(** *** Integer product *)

Definition ExpandIntProdWithBoolean (bool_ref : Z)
    (int_expr product_expr : LinearExpressionProto.t)
    (context : PresolveContext) : PresolveContext :=
  let one :=
    ConstraintProto.mk [bool_ref]
      (kLinear
         (AddLinearExpressionToLinearConstraint product_expr (-1)
            (AddLinearExpressionToLinearConstraint int_expr 1
               (LinearConstraintProto.mk [] [] [0; 0])))) in
  let context := add_constraints one context in
  let zero :=
    ConstraintProto.mk [NegatedRef bool_ref]
      (kLinear
         (AddLinearExpressionToLinearConstraint product_expr 1
            (LinearConstraintProto.mk [] [] [0; 0]))) in
  add_constraints zero context.

Definition ExpandIntProd (c : nat) (context : PresolveContext) : PresolveContext :=
  let int_prod := int_prod_of (constraint_at c context) in
  if negb (length (LinearArgumentProto.exprs int_prod) =? 2)%nat then context
  else
    let a := expr_at (LinearArgumentProto.exprs int_prod) 0 in
    let b := expr_at (LinearArgumentProto.exprs int_prod) 1 in
    let p := LinearArgumentProto.target int_prod in
    (* [literal] is written by each successful call, the second call last. *)
    let a_is_literal := ExpressionIsALiteral context a in
    let b_is_literal := ExpressionIsALiteral context b in
    match a_is_literal, b_is_literal with
    | Some literal, None =>
        UpdateRuleStats "int_prod: expanded product with Boolean var"
          (Clear c (ExpandIntProdWithBoolean literal b p context))
    | _, Some literal =>
        UpdateRuleStats "int_prod: expanded product with Boolean var"
          (Clear c (ExpandIntProdWithBoolean literal a p context))
    | None, None => context
    end.

(** *** Inverse *)

Definition inverse_of (ct : ConstraintProto.t) : InverseConstraintProto.t :=
  match ConstraintProto.constraint ct with
  | kInverse i => i
  | _ => InverseConstraintProto.mk [] []
  end.

Definition element_of (ct : ConstraintProto.t) : ElementConstraintProto.t :=
  match ConstraintProto.constraint ct with
  | kElement e => e
  | _ => ElementConstraintProto.mk 0 0 []
  end.

(** [if (!context->IntersectDomainWith(ref, d)) return;] as a loop body. *)
Definition intersect_or_return (ref : Z) (d : Domain.t) (context : PresolveContext)
    : flow PresolveContext :=
  let '(ok, _, context) := IntersectDomainWith ref d context in
  if ok then Continue context else Return context.

(** Propagates from the [inverse] vector to the [direct] vector. *)
Definition filter_inverse_domain (n : nat) (direct inverse : list Z)
    (context : PresolveContext) : flow PresolveContext :=
  for_each
    (fun i context =>
       let domain := DomainOf context (ref_at direct i) in
       let possible_values :=
         filter (fun j => Domain.Contains (DomainOf context (ref_at inverse (Z.to_nat j)))
                            (Z.of_nat i) = true)
                (Domain.Values domain) in
       let removed_value := negb (length possible_values =? length (Domain.Values domain))%nat in
       if removed_value
       then intersect_or_return (ref_at direct i) (Domain.FromValues possible_values) context
       else Continue context)
    (seq 0 n) context.

Definition inverse_share_literal (f_direct f_inverse : list Z) (i : nat)
    (context : PresolveContext) (j : Z) : PresolveContext :=
  let f_i := ref_at f_direct i in
  let r_j := ref_at f_inverse (Z.to_nat j) in
  match HasVarValueEncoding context r_j (Z.of_nat i) with
  | Some r_j_i => InsertVarValueEncoding r_j_i f_i j context
  | None =>
      let '(f_i_j, context) := GetOrCreateVarValueEncoding f_i j context in
      InsertVarValueEncoding f_i_j r_j (Z.of_nat i) context
  end.

Definition ExpandInverse (c : nat) (context : PresolveContext) : PresolveContext :=
  let f_direct := InverseConstraintProto.f_direct (inverse_of (constraint_at c context)) in
  let f_inverse := InverseConstraintProto.f_inverse (inverse_of (constraint_at c context)) in
  let n := length f_direct in
  let bounds := Domain.Range 0 (Z.of_nat n - 1) in
  let used_variables : gset Z := list_to_set (map PositiveRef (f_direct ++ f_inverse)) in
  match for_each (fun ref => intersect_or_return ref bounds) (f_direct ++ f_inverse) context with
  | Return context => context
  | Continue context =>
      let duplicates :=
        if decide (size used_variables = (2 * n)%nat) then Continue context
        else
          for_each
            (fun ij context =>
               let '(i, j) := ij in
               if negb (PositiveRef (ref_at f_direct i) =? PositiveRef (ref_at f_inverse j))
               then Continue context
               else if decide (i = j) then Continue context
               else
                 intersect_or_return (ref_at f_direct i)
                   (Domain.Complement (Domain.FromValues [Z.of_nat i; Z.of_nat j])) context)
            (i ← seq 0 n; j ← seq 0 n; [(i, j)]) context in
      match duplicates with
      | Return context => context
      | Continue context =>
          match filter_inverse_domain n f_direct f_inverse context with
          | Return context => context
          | Continue context =>
              match filter_inverse_domain n f_inverse f_direct context with
              | Return context => context
              | Continue context =>
                  let context :=
                    foldl
                      (fun context i =>
                         foldl (inverse_share_literal f_direct f_inverse i) context
                               (Domain.Values (DomainOf context (ref_at f_direct i))))
                      context (seq 0 n) in
                  UpdateRuleStats "inverse: expanded" (Clear c context)
              end
          end
      end
  end.

(** *** Element *)

Definition element_var (element : ElementConstraintProto.t) (v : Z) : Z :=
  ref_at (ElementConstraintProto.vars element) (Z.to_nat v).

(** [A[V] == V] means: for all [i], [V == i => A_i == i]. *)
Definition ExpandElementWithTargetEqualIndex (c : nat) (context : PresolveContext)
    : PresolveContext :=
  let element := element_of (constraint_at c context) in
  let index_ref := ElementConstraintProto.index element in
  let valid_indices :=
    filter (fun v => DomainContains context (element_var element v) v = true)
           (Domain.Values (DomainOf context index_ref)) in
  let reduced :=
    if Z.of_nat (length valid_indices) <? Domain.Size (DomainOf context index_ref) then
      let '(ok, _, context) :=
        IntersectDomainWith index_ref (Domain.FromValues valid_indices) context in
      if ok then Continue (UpdateRuleStats "element: reduced index domain" context)
      else Return context
    else Continue context in
  match reduced with
  | Return context => context
  | Continue context =>
      let context :=
        foldl
          (fun context v =>
             let var := element_var element v in
             if (MinOf context var =? v) && (MaxOf context var =? v) then context
             else
               let '(lit, context) := GetOrCreateVarValueEncoding index_ref v context in
               AddImplyInDomain lit var (Domain.Value v) context)
          context (Domain.Values (DomainOf context index_ref)) in
      Clear c (UpdateRuleStats "element: expanded with special case target = index" context)
  end.

(** First loop of [ExpandConstantArrayElement]: the state is the usage count
    of each array value, the index of the [bool_or] created for each value
    reached twice, and the context. *)
Definition constant_array_support (element : ElementConstraintProto.t)
    (st : gmap Z nat * gmap Z nat * PresolveContext) (v : Z)
    : gmap Z nat * gmap Z nat * PresolveContext :=
  let '(constant_var_values_usage, supports, context) := st in
  let value := MinOf context (element_var element v) in
  let usage := S (default 0%nat (constant_var_values_usage !! value)) in
  let constant_var_values_usage := <[value := usage]> constant_var_values_usage in
  if decide (usage = 2%nat) then
    let support := constraints_size context in
    let context := add_constraints (plain (kBoolOr [])) context in
    let '(target_literal, context) :=
      GetOrCreateVarValueEncoding (ElementConstraintProto.target element) value context in
    let context := add_literals support (NegatedRef target_literal) context in
    (constant_var_values_usage, <[value := support]> supports, context)
  else (constant_var_values_usage, supports, context).

(** Second loop of [ExpandConstantArrayElement]. *)
Definition constant_array_link (element : ElementConstraintProto.t)
    (supports : gmap Z nat) (exactly_one : nat)
    (context : PresolveContext) (v : Z) : PresolveContext :=
  let index_ref := ElementConstraintProto.index element in
  let target_ref := ElementConstraintProto.target element in
  let '(index_literal, context) := GetOrCreateVarValueEncoding index_ref v context in
  let context := add_literals exactly_one index_literal context in
  let value := MinOf context (element_var element v) in
  match supports !! value with
  | Some support =>
      let '(target_literal, context) :=
        GetOrCreateVarValueEncoding target_ref value context in
      let context := AddImplication index_literal target_literal context in
      add_literals support index_literal context
  | None => InsertVarValueEncoding index_literal target_ref value context
  end.

(** Special case if the array of the element is filled with constant values. *)
Definition ExpandConstantArrayElement (c : nat) (context : PresolveContext)
    : PresolveContext :=
  let element := element_of (constraint_at c context) in
  let index_domain := DomainOf context (ElementConstraintProto.index element) in
  let '(_, supports, context) :=
    foldl (constant_array_support element) (∅, ∅, context) (Domain.Values index_domain) in
  let exactly_one := constraints_size context in
  let context := add_constraints (plain (kExactlyOne [])) context in
  let context :=
    foldl (constant_array_link element supports exactly_one) context
          (Domain.Values index_domain) in
  Clear c (UpdateRuleStats "element: expanded value element" context).

(** Body of the loop of [ExpandVariableElement] for the index value [v];
    [exactly_one] is the index of the constraint on the index literals. *)
Definition variable_element_step (element : ElementConstraintProto.t) (exactly_one : nat)
    (context : PresolveContext) (v : Z) : PresolveContext :=
  let index_ref := ElementConstraintProto.index element in
  let target_ref := ElementConstraintProto.target element in
  let var := element_var element v in
  let var_domain := DomainOf context var in
  let '(index_lit, context) := GetOrCreateVarValueEncoding index_ref v context in
  let context := add_literals exactly_one index_lit context in
  if Domain.IsFixed var_domain
  then AddImplyInDomain index_lit target_ref var_domain context
  else
    add_constraints
      (ConstraintProto.mk [index_lit]
         (kLinear (LinearConstraintProto.mk [var; target_ref] [1; -1] [0; 0])))
      context.

(** General element when the array contains non fixed variables. *)
Definition ExpandVariableElement (c : nat) (context : PresolveContext) : PresolveContext :=
  let element := element_of (constraint_at c context) in
  let index_ref := ElementConstraintProto.index element in
  let index_domain := DomainOf context index_ref in
  let exactly_one := constraints_size context in
  let context := add_constraints (plain (kExactlyOne [])) context in
  let context :=
    foldl (variable_element_step element exactly_one) context
          (Domain.Values index_domain) in
  Clear c (UpdateRuleStats "element: expanded" context).

Definition ExpandElement (c : nat) (context : PresolveContext) : PresolveContext :=
  let element := element_of (constraint_at c context) in
  let index_ref := ElementConstraintProto.index element in
  let target_ref := ElementConstraintProto.target element in
  let size := Z.of_nat (length (ElementConstraintProto.vars element)) in
  let '(ok, _, context) :=
    IntersectDomainWith index_ref (Domain.Range 0 (size - 1)) context in
  if negb ok then context
  else if decide (index_ref = target_ref) then ExpandElementWithTargetEqualIndex c context
  else
    let index_domain := DomainOf context index_ref in
    let target_domain := DomainOf context target_ref in
    let '(all_constants, valid_indices, reached_domain) :=
      foldl
        (fun (acc : bool * list Z * Domain.t) v =>
           let '(all_constants, valid_indices, reached_domain) := acc in
           let var_domain := DomainOf context (element_var element v) in
           if Domain.IsEmpty (Domain.IntersectionWith var_domain target_domain) then acc
           else
             (all_constants && (Domain.Min var_domain =? Domain.Max var_domain),
              valid_indices ++ [v],
              Domain.UnionWith reached_domain var_domain))
        (true, [], Domain.Empty) (Domain.Values index_domain) in
    let reduced :=
      if Z.of_nat (length valid_indices) <? Domain.Size index_domain then
        let '(ok, _, context) :=
          IntersectDomainWith index_ref (Domain.FromValues valid_indices) context in
        if ok then Continue (UpdateRuleStats "element: reduced index domain" context)
        else Return context
      else Continue context in
    match reduced with
    | Return context => context
    | Continue context =>
        let '(ok, target_domain_changed, context) :=
          IntersectDomainWith target_ref reached_domain context in
        if negb ok then context
        else
          let context :=
            if target_domain_changed
            then UpdateRuleStats "element: reduced target domain" context
            else context in
          if all_constants then ExpandConstantArrayElement c context
          else ExpandVariableElement c context
    end.

(** *** Shared helpers of the automaton expansion *)

(** [gtl::STLSortAndRemoveDuplicates]. *)
Definition STLSortAndRemoveDuplicates (l : list Z) : list Z :=
  remove_dups (merge_sort Z.le l).

(** Iteration over a map: [absl::btree_map] iterates in increasing key
    order; for [absl::flat_hash_map], whose order is unspecified, the model
    fixes the same order. *)
Definition key_le {V : Type} (a b : Z * V) : Prop := a.1 <= b.1.

#[global] Instance key_le_dec {V : Type} (a b : Z * V) : Decision (key_le a b).
Proof. unfold key_le. apply _. Defined.

Definition entries {V : Type} (m : gmap Z V) : list (Z * V) :=
  merge_sort key_le (map_to_list m).

(** [m.at(k)]. *)
Definition at_ (m : gmap Z Z) (k : Z) : Z := default 0 (m !! k).

(** [m[k]] on a map of literals: reads the entry, inserting the default
    value [0] when the key is absent. *)
Definition subscript (m : gmap Z Z) (k : Z) : Z * gmap Z Z :=
  match m !! k with
  | Some v => (v, m)
  | None => (0, <[k := 0]> m)
  end.

(** [m[k]++] and [m[k]] on a map of counters. *)
Definition count_of (m : gmap Z nat) (k : Z) : nat := default 0%nat (m !! k).

Definition increment (m : gmap Z nat) (k : Z) : gmap Z nat := <[k := S (count_of m k)]> m.

(** [m[k].push_back(v)]. *)
Definition push_back {V : Type} (m : gmap Z (list V)) (k : Z) (v : V) : gmap Z (list V) :=
  <[k := default [] (m !! k) ++ [v]]> m.

(** Adds clauses so that [literals[i]] true <=> [encoding[values[i]]] true. *)
Definition LinkLiteralsAndValues (literals : list Z) (values : list Z)
    (encoding : gmap Z Z) (context : PresolveContext) : PresolveContext :=
  let encoding_lit_to_support : gmap Z (list Z) :=
    foldl (fun m vl => push_back m (at_ encoding vl.1) vl.2) ∅ (zip values literals) in
  foldl
    (fun context entry =>
       let '(encoding_lit, support) := entry in
       match support with
       | [lit] => StoreBooleanEqualityRelation encoding_lit lit context
       | _ =>
           let context :=
             add_constraints (plain (kBoolOr (NegatedRef encoding_lit :: support))) context in
           foldl (fun context lit => AddImplication lit encoding_lit context) context support
       end)
    context (entries encoding_lit_to_support).

(** Adds the constraint [literal => one_of(encoding[v])], for [v] in
    [reachable_values]. *)
Definition AddImplyInReachableValues (literal : Z) (reachable_values : list Z)
    (encoding : gmap Z Z) (context : PresolveContext) : PresolveContext :=
  let reachable_values := STLSortAndRemoveDuplicates reachable_values in
  if (length reachable_values =? size encoding)%nat then context
  else if (length reachable_values <=? size encoding / 2)%nat then
    add_constraints
      (ConstraintProto.mk [literal] (kBoolOr (map (at_ encoding) reachable_values)))
      context
  else
    add_constraints
      (ConstraintProto.mk [literal]
         (kBoolAnd
            (map (fun e => NegatedRef e.2)
                 (filter (fun e => e.1 ∉ reachable_values) (entries encoding)))))
      context.

(** *** Automaton *)

Definition automaton_of (ct : ConstraintProto.t) : AutomatonConstraintProto.t :=
  match ConstraintProto.constraint ct with
  | kAutomaton a => a
  | _ => AutomatonConstraintProto.mk 0 [] [] [] [] []
  end.

(** The transitions [(tail, label, head)] of an automaton. *)
Definition transitions (proto : AutomatonConstraintProto.t) : list (Z * Z * Z) :=
  zip (zip (AutomatonConstraintProto.transition_tail proto)
           (AutomatonConstraintProto.transition_label proto))
      (AutomatonConstraintProto.transition_head proto).

Definition set_at (l : list (gset Z)) (i : nat) : gset Z := default ∅ (l !! i).

Definition propagate_forward (proto : AutomatonConstraintProto.t)
    (context : PresolveContext) (n : nat)
    (st : list (gset Z) * list (gset Z)) (time : nat) : list (gset Z) * list (gset Z) :=
  foldl
    (fun (st : list (gset Z) * list (gset Z)) tr =>
       let '(states, labels) := st in
       let '(tail, label, head) := tr in
       if negb (bool_decide (tail ∈ set_at states time)) then st
       else if negb (DomainContains context
                       (ref_at (AutomatonConstraintProto.vars proto) time) label) then st
       else if bool_decide (time = (n - 1)%nat)
                && negb (bool_decide (head ∈ AutomatonConstraintProto.final_states proto))
       then st
       else (alter (fun s => {[head]} ∪ s) (S time) states,
             alter (fun s => {[label]} ∪ s) time labels))
    st (transitions proto).

Definition propagate_backward (proto : AutomatonConstraintProto.t)
    (st : list (gset Z) * list (gset Z)) (time : nat) : list (gset Z) * list (gset Z) :=
  let '(states, labels) := st in
  let '(new_states, new_labels) :=
    foldl
      (fun (acc : gset Z * gset Z) tr =>
         let '(new_states, new_labels) := acc in
         let '(tail, label, head) := tr in
         if negb (bool_decide (tail ∈ set_at states time)) then acc
         else if negb (bool_decide (label ∈ set_at labels time)) then acc
         else if negb (bool_decide (head ∈ set_at states (S time))) then acc
         else ({[tail]} ∪ new_states, {[label]} ∪ new_labels))
      (∅, ∅) (transitions proto) in
  (<[time := new_states]> states, <[time := new_labels]> labels).

(** Returns [(states, labels)]: the states reachable at each of the [n + 1]
    time points and the labels usable at each of the [n] steps. *)
Definition PropagateAutomaton (proto : AutomatonConstraintProto.t)
    (context : PresolveContext) : list (gset Z) * list (gset Z) :=
  let n := length (AutomatonConstraintProto.vars proto) in
  let states : list (gset Z) :=
    <[0%nat := {[AutomatonConstraintProto.starting_state proto]}]> (replicate (S n) ∅) in
  let labels : list (gset Z) := replicate n ∅ in
  let forward := foldl (propagate_forward proto context n) (states, labels) (seq 0 n) in
  foldl (propagate_backward proto) forward (reverse (seq 0 n)).

(** The rows [(in_state, label, out_state)] usable at step [time]. *)
Definition automaton_rows (proto : AutomatonConstraintProto.t)
    (reachable_states : list (gset Z)) (context : PresolveContext) (n time : nat)
    : list (Z * Z * Z) :=
  map (fun tr : Z * Z * Z =>
         let '(tail, label, head) := tr in
         (tail, label, if decide (S time = n) then 0 else head))
      (filter
         (fun tr : Z * Z * Z =>
            let '(tail, label, head) := tr in
            tail ∈ set_at reachable_states time
            ∧ head ∈ set_at reachable_states (S time)
            ∧ DomainContains context (ref_at (AutomatonConstraintProto.vars proto) time) label
              = true)
         (transitions proto)).

(** The local struct [UniqueDetector]. *)
Record UniqueDetector : Type :=
  mkUniqueDetector { is_set : bool; is_unique : bool; value : Z }.

Definition UniqueDetector_Set (v : Z) (d : UniqueDetector) : UniqueDetector :=
  if negb (is_unique d) then d
  else if is_set d then
    (if negb (v =? value d) then mkUniqueDetector (is_set d) false (value d) else d)
  else mkUniqueDetector true true v.

Definition detector_of (m : gmap Z UniqueDetector) (k : Z) : UniqueDetector :=
  default (mkUniqueDetector false true 0) (m !! k).

Definition detect (m : gmap Z UniqueDetector) (k v : Z) : gmap Z UniqueDetector :=
  <[k := UniqueDetector_Set v (detector_of m k)]> m.

(** The state carried from one time step to the next. *)
Record automaton_state : Type :=
  mkAutomatonState {
    as_in_encoding : gmap Z Z;
    as_removed_values : bool;
    as_context : PresolveContext }.

(** What a time step did: the single-row shortcut, an early return on an
    empty domain, the light encoding or the heavy encoding with tuple
    literals. *)
Inductive step_encoding : Type :=
  SingleTuple | InfeasibleStep | LightEncoding | HeavyEncoding.

(** For each possible out state, create one Boolean variable: the state is
    [(in_encoding, encoding, out_encoding, context)]. *)
Definition automaton_out_encoding (in_states labels out_states : list Z)
    (in_count transition_count out_count : gmap Z nat)
    (in_encoding encoding : gmap Z Z) (context : PresolveContext)
    : gmap Z Z * gmap Z Z * gmap Z Z * PresolveContext :=
  let states := STLSortAndRemoveDuplicates out_states in
  match states with
  | [s0; s1] =>
      let '(var, context) := NewBoolVar context in
      (in_encoding, encoding, <[s1 := NegatedRef var]> (<[s0 := var]> ∅), context)
  | _ :: _ :: _ :: _ =>
      let out_to_in :=
        foldl (fun m oi => detect m oi.1 oi.2) ∅ (zip out_states in_states) in
      let out_to_transition :=
        foldl (fun m ol => detect m ol.1 ol.2) ∅ (zip out_states labels) in
      foldl
        (fun (st : gmap Z Z * gmap Z Z * gmap Z Z * PresolveContext) state =>
           let '(in_encoding, encoding, out_encoding, context) := st in
           let unique_in := value (detector_of out_to_in state) in
           let unique_transition := value (detector_of out_to_transition state) in
           if negb (bool_decide (in_encoding = ∅))
              && is_unique (detector_of out_to_in state)
              && bool_decide (count_of in_count unique_in = count_of out_count state)
           then
             let '(lit, in_encoding) := subscript in_encoding unique_in in
             (in_encoding, encoding, <[state := lit]> out_encoding, context)
           else if negb (bool_decide (encoding = ∅))
                   && is_unique (detector_of out_to_transition state)
                   && bool_decide (count_of transition_count unique_transition
                                   = count_of out_count state)
           then
             let '(lit, encoding) := subscript encoding unique_transition in
             (in_encoding, encoding, <[state := lit]> out_encoding, context)
           else
             let '(lit, context) := NewBoolVar context in
             (in_encoding, encoding, <[state := lit]> out_encoding, context))
        (in_encoding, encoding, ∅, context) states
  | _ => (in_encoding, encoding, ∅, context)
  end.

(** Creation of the tuple literals of the heavy encoding. *)
Definition automaton_tuple_literals (rows : list (Z * Z * Z))
    (in_count transition_count out_count : gmap Z nat)
    (in_encoding encoding out_encoding : gmap Z Z) (context : PresolveContext)
    : list Z * (gmap Z Z * gmap Z Z * gmap Z Z * PresolveContext) :=
  if decide (length rows = 2%nat) then
    let '(bool_var, context) := NewBoolVar context in
    ([bool_var; NegatedRef bool_var], (in_encoding, encoding, out_encoding, context))
  else
    let exactly_one := constraints_size context in
    let context := add_constraints (plain (kExactlyOne [])) context in
    foldl
      (fun (acc : list Z * (gmap Z Z * gmap Z Z * gmap Z Z * PresolveContext))
           (row : Z * Z * Z) =>
         let '(tuple_literals, (in_encoding, encoding, out_encoding, context)) := acc in
         let '(in_state, label, out_state) := row in
         let '(tuple_literal, (in_encoding, encoding, out_encoding, context)) :=
           if bool_decide (count_of in_count in_state = 1%nat)
              && negb (bool_decide (in_encoding = ∅))
           then
             let '(lit, in_encoding) := subscript in_encoding in_state in
             (lit, (in_encoding, encoding, out_encoding, context))
           else if bool_decide (count_of transition_count label = 1%nat)
                   && negb (bool_decide (encoding = ∅))
           then
             let '(lit, encoding) := subscript encoding label in
             (lit, (in_encoding, encoding, out_encoding, context))
           else if bool_decide (count_of out_count out_state = 1%nat)
                   && negb (bool_decide (out_encoding = ∅))
           then
             let '(lit, out_encoding) := subscript out_encoding out_state in
             (lit, (in_encoding, encoding, out_encoding, context))
           else
             let '(lit, context) := NewBoolVar context in
             (lit, (in_encoding, encoding, out_encoding, context)) in
         (tuple_literals ++ [tuple_literal],
          (in_encoding, encoding, out_encoding,
           add_literals exactly_one tuple_literal context)))
      ([], (in_encoding, encoding, out_encoding, context)) rows.

(** The 3-clause [(in_state, label) => out_state] of a row. *)
Definition row_clause (in_encoding encoding out_encoding : gmap Z Z) (row : Z * Z * Z)
    : ConstraintProto.t :=
  let '(in_state, label, out_state) := row in
  plain (kBoolOr [NegatedRef (at_ in_encoding in_state);
                  NegatedRef (at_ encoding label);
                  at_ out_encoding out_state]).

(** Part 1 of the light encoding, for one in-state: if it is selected,
    restrict the set of possible labels and the set of possible out states. *)
Definition light_encoding_in_state (in_to_label in_to_out : gmap Z (list Z))
    (encoding out_encoding : gmap Z Z) (context : PresolveContext) (entry : Z * Z)
    : PresolveContext :=
  let '(in_value, in_literal) := entry in
  let context :=
    AddImplyInReachableValues in_literal (default [] (in_to_label !! in_value))
      encoding context in
  AddImplyInReachableValues in_literal (default [] (in_to_out !! in_value))
    out_encoding context.

(** The light encoding: restriction of the labels and out states of each in
    state, then one 3-clause per row. *)
Definition automaton_light_encoding (rows : list (Z * Z * Z))
    (in_encoding encoding out_encoding : gmap Z Z) (context : PresolveContext)
    : PresolveContext :=
  let in_to_label : gmap Z (list Z) :=
    foldl (fun m (row : Z * Z * Z) => push_back m row.1.1 row.1.2) ∅ rows in
  let in_to_out : gmap Z (list Z) :=
    foldl (fun m (row : Z * Z * Z) => push_back m row.1.1 row.2) ∅ rows in
  let context :=
    foldl (light_encoding_in_state in_to_label in_to_out encoding out_encoding)
          context (entries in_encoding) in
  foldl
    (fun context (row : Z * Z * Z) =>
       add_constraints (row_clause in_encoding encoding out_encoding row) context)
    context rows.

(** The rows of a step, by column. *)
Definition in_states_of (rows : list (Z * Z * Z)) : list Z :=
  map (fun r : Z * Z * Z => r.1.1) rows.

Definition labels_of (rows : list (Z * Z * Z)) : list Z :=
  map (fun r : Z * Z * Z => r.1.2) rows.

Definition out_states_of (rows : list (Z * Z * Z)) : list Z :=
  map (fun r : Z * Z * Z => r.2) rows.

(** The encodings of a step with several rows: the result of the
    intersection of the domain of [var] with the labels, and then
    [(in_encoding, encoding, out_encoding, context)]. *)
Definition automaton_encodings (var : Z) (rows : list (Z * Z * Z))
    (in_encoding : gmap Z Z) (context : PresolveContext)
    : bool * bool * (gmap Z Z * gmap Z Z * gmap Z Z * PresolveContext) :=
  (* Fully encode vars[time]. *)
  let transitions := STLSortAndRemoveDuplicates (labels_of rows) in
  let '(ok, changed, context) :=
    IntersectDomainWith var (Domain.FromValues transitions) context in
  if negb ok then (ok, changed, (in_encoding, ∅, ∅, context))
  else
    let '(encoding, context) :=
      if IsFixed context var then (∅, context)
      else
        foldl
          (fun (acc : gmap Z Z * PresolveContext) v =>
             let '(lit, context) := GetOrCreateVarValueEncoding var v acc.2 in
             (<[v := lit]> acc.1, context))
          (∅, context) (Domain.Values (DomainOf context var)) in
    (* Count how many time each value appear. *)
    let in_count := foldl increment ∅ (in_states_of rows) in
    let transition_count := foldl increment ∅ (labels_of rows) in
    let out_count := foldl increment ∅ (out_states_of rows) in
    (ok, changed,
     automaton_out_encoding (in_states_of rows) (labels_of rows) (out_states_of rows)
       in_count transition_count out_count in_encoding encoding context).

(** The heavy encoding: tuple literals linked to the three encodings. *)
Definition automaton_heavy_encoding (rows : list (Z * Z * Z))
    (in_encoding encoding out_encoding : gmap Z Z) (context : PresolveContext)
    : gmap Z Z * PresolveContext :=
  let in_count := foldl increment ∅ (in_states_of rows) in
  let transition_count := foldl increment ∅ (labels_of rows) in
  let out_count := foldl increment ∅ (out_states_of rows) in
  let '(tuple_literals, (in_encoding, encoding, out_encoding, context)) :=
    automaton_tuple_literals rows in_count transition_count out_count
      in_encoding encoding out_encoding context in
  let context :=
    if negb (bool_decide (in_encoding = ∅))
    then LinkLiteralsAndValues tuple_literals (in_states_of rows) in_encoding context
    else context in
  let context :=
    if negb (bool_decide (encoding = ∅))
    then LinkLiteralsAndValues tuple_literals (labels_of rows) encoding context
    else context in
  let context :=
    if negb (bool_decide (out_encoding = ∅))
    then LinkLiteralsAndValues tuple_literals (out_states_of rows) out_encoding context
    else context in
  (out_encoding, context).

(** Deal with single tuple. *)
Definition automaton_single_tuple (var : Z) (row : Z * Z * Z) (st : automaton_state)
    : flow automaton_state :=
  let in_encoding := as_in_encoding st in
  let removed_values := as_removed_values st in
  let '(ok, _, context) :=
    IntersectDomainWith var (Domain.Value row.1.2) (as_context st) in
  if negb ok then Return (mkAutomatonState in_encoding removed_values context)
  else
    let at_false :=
      map snd (filter (fun e : Z * Z => e.1 ≠ row.1.1) (entries in_encoding)) in
    match
      for_each
        (fun literal context =>
           let '(ok, context) := SetLiteralToFalse literal context in
           if ok then Continue context else Return context)
        at_false context
    with
    | Return context => Return (mkAutomatonState in_encoding removed_values context)
    | Continue context => Continue (mkAutomatonState ∅ removed_values context)
    end.

(** One iteration of the loop over the time steps of [ExpandAutomaton],
    with the encoding it used. *)
Definition automaton_step (proto : AutomatonConstraintProto.t)
    (reachable_states : list (gset Z)) (n : nat) (time : nat) (st : automaton_state)
    : step_encoding * flow automaton_state :=
  let var := ref_at (AutomatonConstraintProto.vars proto) time in
  let rows := automaton_rows proto reachable_states (as_context st) n time in
  let num_tuples := length rows in
  match rows with
  | [row] => (SingleTuple, automaton_single_tuple var row st)
  | _ =>
      let '(ok, changed, (in_encoding, encoding, out_encoding, context)) :=
        automaton_encodings var rows (as_in_encoding st) (as_context st) in
      let removed_values := as_removed_values st || changed in
      if negb ok
      then (InfeasibleStep,
            Return (mkAutomatonState (as_in_encoding st) removed_values context))
      else
        let num_involved_variables :=
          (size in_encoding + size encoding + size out_encoding)%nat in
        let use_light_encoding := (num_involved_variables <? num_tuples)%nat in
        if use_light_encoding
           && negb (bool_decide (in_encoding = ∅))
           && negb (bool_decide (encoding = ∅))
           && negb (bool_decide (out_encoding = ∅))
        then
          (LightEncoding,
           Continue
             (mkAutomatonState out_encoding removed_values
                (automaton_light_encoding rows in_encoding encoding out_encoding context)))
        else
          (HeavyEncoding,
           let '(out_encoding, context) :=
             automaton_heavy_encoding rows in_encoding encoding out_encoding context in
           Continue (mkAutomatonState out_encoding removed_values context))
  end.

Definition ExpandAutomaton (c : nat) (context : PresolveContext) : PresolveContext :=
  let proto := automaton_of (constraint_at c context) in
  if decide (length (AutomatonConstraintProto.vars proto) = 0%nat) then
    if existsb (fun final_state => AutomatonConstraintProto.starting_state proto =? final_state)
               (AutomatonConstraintProto.final_states proto)
    then Clear c (UpdateRuleStats "automaton: empty and trivially feasible" context)
    else NotifyThatModelIsUnsat context
  else if decide (length (AutomatonConstraintProto.transition_label proto) = 0%nat) then
    NotifyThatModelIsUnsat context
  else
    let '(reachable_states, reachable_labels) := PropagateAutomaton proto context in
    let n := length (AutomatonConstraintProto.vars proto) in
    match
      for_each (fun time st => (automaton_step proto reachable_states n time st).2)
               (seq 0 n) (mkAutomatonState ∅ false context)
    with
    | Return st => as_context st
    | Continue st =>
        let context := as_context st in
        let context :=
          if as_removed_values st
          then UpdateRuleStats "automaton: reduced variable domains" context
          else context in
        Clear c (UpdateRuleStats "automaton: expanded" context)
    end.

(** *** All-different: the size test *)

Definition all_diff_of (ct : ConstraintProto.t) : list LinearExpressionProto.t :=
  match ConstraintProto.constraint ct with kAllDiff es => es | _ => [] end.

Definition AllDiffShouldBeExpanded (union_of_domains : Domain.t) (c : nat)
    (context : PresolveContext) : bool :=
  let exprs := all_diff_of (constraint_at c context) in
  let num_exprs := length exprs in
  let num_fully_encoded :=
    length (filter (fun e => IsFullyEncodedExpr context e = true) exprs) in
  if (Domain.Size union_of_domains <=? 2 * Z.of_nat (length exprs))
     || (Domain.Size union_of_domains <=? 32)
  then true
  else if bool_decide (num_fully_encoded = num_exprs)
          && (Domain.Size union_of_domains <? 256)
  then true
  else false.

(** *** Linear constraints [a x + b y != cte] *)

(** Modelled from the spec: [SolveDiophantineEquationOfSizeTwo] of
    [ortools/sat/util.h], which solves [a * x0 + b * y0 = cte] after dividing
    the three numbers by [gcd(a, b)], and fails when there is no solution.
    The result is the reduced [(a, b, cte)] with a solution [(x0, y0)], where
    [x0] is of the sign of [cte] and of absolute value below [|b|]. *)
Definition SolveDiophantineEquationOfSizeTwo (a b cte : Z) : option (Z * Z * Z * Z * Z) :=
  let gcd := Z.gcd a b in
  if negb (Z.rem cte gcd =? 0) then None
  else
    let a := a / gcd in
    let b := b / gcd in
    let cte := cte / gcd in
    if cte =? 0 then Some (a, b, cte, 0, 0)
    else
      match List.find (fun x => (cte - a * x) mod b =? 0) (seqZ 0 (Z.abs b)) with
      | None => None
      | Some x0 =>
          let x0 := if (cte <? 0) && negb (x0 =? 0) then x0 - Z.abs b else x0 in
          Some (a, b, cte, x0, (cte - a * x0) / b)
      end.

(** The values of [coeff1 * var1 + coeff2 * var2] that the domains allow
    and the constraint forbids. *)
Definition infeasible_reachable_values (context : PresolveContext)
    (arg : LinearConstraintProto.t) : Domain.t :=
  let var1 := ref_at (LinearConstraintProto.vars arg) 0 in
  let var2 := ref_at (LinearConstraintProto.vars arg) 1 in
  let coeff1 := ref_at (LinearConstraintProto.coeffs arg) 0 in
  let coeff2 := ref_at (LinearConstraintProto.coeffs arg) 1 in
  let reachable_rhs_superset :=
    Domain.AdditionWith
      (Domain.RelaxIfTooComplex (Domain.MultiplicationBy coeff1 (DomainOf context var1)))
      (Domain.RelaxIfTooComplex (Domain.MultiplicationBy coeff2 (DomainOf context var2))) in
  Domain.IntersectionWith reachable_rhs_superset
    (Domain.Complement (ReadDomainFromProto (LinearConstraintProto.domain arg))).

(** The parameters [z] for which [(x0 + b * z, y0 - a * z)] lies in the
    domains of [var1] and [var2]. *)
Definition reduced_domain (context : PresolveContext) (var1 var2 a b x0 y0 : Z) : Domain.t :=
  Domain.IntersectionWith
    (Domain.InverseMultiplicationBy b
       (Domain.AdditionWith (DomainOf context var1) (Domain.Value (- x0))))
    (Domain.InverseMultiplicationBy (- a)
       (Domain.AdditionWith (DomainOf context var2) (Domain.Value (- y0)))).

(** The clause that forbids [var1 == value1 /\ var2 == value2] when the
    constraint is enforced. *)
Definition forbid_pair (enforcement_literal : list Z) (lit1 lit2 : Z) : ConstraintProto.t :=
  plain (kBoolOr (NegatedRef lit1 :: NegatedRef lit2 :: map NegatedRef enforcement_literal)).

(** Replaces a constraint [literal => ax + by != cte] by a set of clauses. *)
Definition ExpandSomeLinearOfSizeTwo (c : nat) (context : PresolveContext)
    : PresolveContext :=
  let ct := constraint_at c context in
  let arg := ConstraintProto.linear ct in
  if negb (length (LinearConstraintProto.vars arg) =? 2)%nat then context
  else
    let var1 := ref_at (LinearConstraintProto.vars arg) 0 in
    let var2 := ref_at (LinearConstraintProto.vars arg) 1 in
    if IsFixed context var1 || IsFixed context var2 then context
    else
      let coeff1 := ref_at (LinearConstraintProto.coeffs arg) 0 in
      let coeff2 := ref_at (LinearConstraintProto.coeffs arg) 1 in
      let infeasible_reachable_values := infeasible_reachable_values context arg in
      (* We only deal with != cte constraints. *)
      if negb (Domain.Size infeasible_reachable_values =? 1) then context
      else
        match SolveDiophantineEquationOfSizeTwo coeff1 coeff2
                (Domain.FixedValue infeasible_reachable_values) with
        | None =>
            Clear c (UpdateRuleStats "linear: expand always feasible ax + by != cte" context)
        | Some (a, b, cte, x0, y0) =>
            let reduced_domain := reduced_domain context var1 var2 a b x0 y0 in
            if 16 <? Domain.Size reduced_domain then context
            else
              (* Check if all the needed values are encoded. *)
              let size1 := Domain.Size (DomainOf context var1) in
              let size2 := Domain.Size (DomainOf context var2) in
              if existsb
                   (fun z =>
                      let value1 := x0 + b * z in
                      let value2 := y0 - a * z in
                      (negb (bool_decide (is_Some (HasVarValueEncoding context var1 value1)))
                       || (size1 =? 2))
                      || (negb (bool_decide (is_Some (HasVarValueEncoding context var2 value2)))
                          || (size2 =? 2)))
                   (Domain.Values reduced_domain)
              then context
              else
                let context :=
                  foldl
                    (fun context z =>
                       let value1 := x0 + b * z in
                       let value2 := y0 - a * z in
                       let '(lit1, context) := GetOrCreateVarValueEncoding var1 value1 context in
                       let '(lit2, context) := GetOrCreateVarValueEncoding var2 value2 context in
                       add_constraints
                         (forbid_pair (ConstraintProto.enforcement_literal ct) lit1 lit2)
                         context)
                    context (Domain.Values reduced_domain) in
                Clear c (UpdateRuleStats "linear: expand small ax + by != cte" context)
        end.

(** *** Linear constraints with a complex right-hand side *)

(** One turn of the loop over the intervals of the right-hand side: the
    literal of the interval, and a copy of the constraint enforced by it. *)
Definition complex_linear_subdomain (linear : LinearConstraintProto.t)
    (clause : option nat) (single_bool : Z)
    (acc : list Z * PresolveContext) (ib : nat * (Z * Z)) : list Z * PresolveContext :=
  let '(domain_literals, context) := acc in
  let '(i, (lb, ub)) := ib in
  let '(subdomain_literal, domain_literals, context) :=
    match clause with
    | Some clause =>
        let '(lit, context) := NewBoolVar context in
        (lit, domain_literals ++ [lit], add_literals clause lit context)
    | None =>
        (if decide (i = 0%nat) then single_bool else NegatedRef single_bool,
         if decide (i = 0%nat) then domain_literals ++ [single_bool]
         else domain_literals,
         context)
    end in
  let new_ct :=
    ConstraintProto.mk [subdomain_literal]
      (kLinear (LinearConstraintProto.mk
         (LinearConstraintProto.vars linear)
         (LinearConstraintProto.coeffs linear)
         (FillDomainInProto (Domain.Range lb ub)))) in
  (domain_literals, add_constraints new_ct context).

(** [linear_is_enforced], which is the enforcement literal when there is
    one only and a new Boolean maintained equal to their conjunction
    otherwise. *)
Definition complex_linear_is_enforced (enforcement_literals : list Z)
    (context : PresolveContext) : Z * PresolveContext :=
  match enforcement_literals with
  | [e] => (e, context)
  | _ =>
      let '(linear_is_enforced, context) := NewBoolVar context in
      let maintain := constraints_size context in
      let context := add_constraints (plain (kBoolOr [])) context in
      let context :=
        foldl
          (fun context e_lit =>
             add_literals maintain (NegatedRef e_lit)
               (AddImplication (NegatedRef e_lit)
                  (NegatedRef linear_is_enforced) context))
          context enforcement_literals in
      (linear_is_enforced, add_literals maintain linear_is_enforced context)
  end.

Definition ExpandComplexLinearConstraint (c : nat) (context : PresolveContext)
    : PresolveContext :=
  let ct := constraint_at c context in
  let linear := ConstraintProto.linear ct in
  if (length (LinearConstraintProto.domain linear) <=? 2)%nat then context
  else if (length (LinearConstraintProto.vars linear) =? 1)%nat then context
  else
    let context :=
      if SatParameters.encode_complex_linear_constraint_with_integer (params context) then
        (* Integer encoding: expr in rhs becomes expr - slack = 0. *)
        let rhs := ReadDomainFromProto (LinearConstraintProto.domain linear) in
        let '(slack, context) := NewIntVar rhs context in
        set_constraint c
          (ConstraintProto.mk (ConstraintProto.enforcement_literal ct)
             (kLinear (LinearConstraintProto.mk
                (LinearConstraintProto.vars linear ++ [slack])
                (LinearConstraintProto.coeffs linear ++ [-1])
                [0; 0])))
          context
      else
        (* Boolean encoding. *)
        let enforcement_literals := ConstraintProto.enforcement_literal ct in
        let single :=
          bool_decide (enforcement_literals = [])
          && (length (LinearConstraintProto.domain linear) =? 4)%nat in
        let '(single_bool, clause, context) :=
          if single then
            let '(var, context) := NewBoolVar context in (var, None, context)
          else
            (0, Some (constraints_size context),
             add_constraints (plain (kBoolOr (map NegatedRef enforcement_literals))) context) in
        (* The enforcement literals are cleared before the copies are made. *)
        let ct := ConstraintProto.mk [] (ConstraintProto.constraint ct) in
        let context := set_constraint c ct context in
        let '(domain_literals, context) :=
          foldl (complex_linear_subdomain linear clause single_bool) ([], context)
            (imap (fun i b => (i, b)) (pair_up (LinearConstraintProto.domain linear))) in
        (* Make sure all booleans are tights when enumerating all solutions. *)
        let context :=
          if SatParameters.enumerate_all_solutions (params context)
             && negb (bool_decide (enforcement_literals = []))
          then
            let '(linear_is_enforced, context) :=
              complex_linear_is_enforced enforcement_literals context in
            foldl
              (fun context lit =>
                 AddImplication (NegatedRef linear_is_enforced) (NegatedRef lit) context)
              context domain_literals
          else context in
        Clear c context in
    UpdateConstraintVariableUsage c
      (UpdateNewConstraintsVariableUsage
         (InitializeNewDomains
            (UpdateRuleStats "linear: expanded complex rhs" context))).

(** *** All-different: the usage scanner *)

Definition IsVarEqOrNeqValue (context : PresolveContext) (lin : LinearConstraintProto.t)
    : bool :=
  if negb (length (LinearConstraintProto.vars lin) =? 1)%nat then false
  else
    let rhs := ReadDomainFromProto (LinearConstraintProto.domain lin) in
    if Domain.IsFixed rhs then true
    else
      Domain.IsFixed
        (Domain.IntersectionWith
           (Domain.Complement
              (Domain.InverseMultiplicationBy (ref_at (LinearConstraintProto.coeffs lin) 0) rhs))
           (DomainOf context (ref_at (LinearConstraintProto.vars lin) 0))).

(** The [switch] on one constraint [other_ct] that uses [var]; the state is
    [(domain_is_used, bounds_are_used)]. *)
Definition scan_constraint (context : PresolveContext) (var : Z)
    (other_ct : ConstraintProto.t) (used : bool * bool) : bool * bool :=
  let '(domain_is_used, bounds_are_used) := used in
  match ConstraintProto.constraint other_ct with
  | kLinMax _ => (domain_is_used, true)
  | kLinear lin =>
      if IsVarEqOrNeqValue context lin
         && bool_decide (var = ref_at (LinearConstraintProto.vars lin) 0)
      then (true, bounds_are_used)
      else if (2 <? length (LinearConstraintProto.vars lin))%nat
              && (length (LinearConstraintProto.domain lin) =? 2)%nat
              && (ref_at (LinearConstraintProto.domain lin) 0
                  =? ref_at (LinearConstraintProto.domain lin) 1)
      then (domain_is_used, true)
      else used
  | kElement e =>
      if bool_decide (ElementConstraintProto.index e = var) then (true, bounds_are_used)
      else used
  | kInverse _ => (true, bounds_are_used)
  | kTable _ => (true, bounds_are_used)
  | kAutomaton _ => (true, bounds_are_used)
  | kInterval _ => (domain_is_used, true)
  | _ => used
  end.

(** The caches shared by the scans of pass 2. *)
Record scan_caches : Type :=
  mkScanCaches {
    domain_of_var_is_used : gset Z;
    bounds_of_var_are_used : gset Z;
    processed_variables : gset Z }.

(** The loop over the constraints of [var], left as soon as both uses are
    found. *)
Definition scan_variable (context : PresolveContext) (var : Z) : bool * bool :=
  flow_state
    (for_each
       (fun ct_index (used : bool * bool) =>
          if ct_index <? 0 then Continue used
          else
            let used :=
              scan_constraint context var (constraint_at (Z.to_nat ct_index) context) used in
            if used.1 && used.2 then Return used else Continue used)
       (VarToConstraints context var) (false, false)).

(** Returns the updated caches and the outputs [expand] and [keep]. *)
Definition ScanModelAndDecideAllDiffExpansion (c : nat) (context : PresolveContext)
    (caches : scan_caches) : scan_caches * bool * bool :=
  let at_least_one_var_domain_is_used := false in
  let at_least_one_var_bound_is_used := false in
  let caches :=
    flow_state
      (for_each
         (fun expr caches =>
            match LinearExpressionProto.vars expr with
            | [] => Continue caches
            | var :: _ =>
                if IsFixed context var then Continue caches
                else
                  (* These two declarations of the loop body shadow the
                     flags of the function. *)
                  let at_least_one_var_domain_is_used := false in
                  let at_least_one_var_bound_is_used := false in
                  let '(caches, at_least_one_var_domain_is_used,
                        at_least_one_var_bound_is_used) :=
                    if bool_decide (var ∈ processed_variables caches) then
                      (caches,
                       bool_decide (var ∈ bounds_of_var_are_used caches),
                       bool_decide (var ∈ domain_of_var_is_used caches))
                    else
                      let '(domain_is_used, bounds_are_used) := scan_variable context var in
                      (mkScanCaches
                         (if domain_is_used then {[var]} ∪ domain_of_var_is_used caches
                          else domain_of_var_is_used caches)
                         (if bounds_are_used then {[var]} ∪ bounds_of_var_are_used caches
                          else bounds_of_var_are_used caches)
                         ({[var]} ∪ processed_variables caches),
                       at_least_one_var_domain_is_used || domain_is_used,
                       at_least_one_var_bound_is_used || bounds_are_used) in
                  if at_least_one_var_domain_is_used && at_least_one_var_bound_is_used
                  then Return caches
                  else Continue caches
            end)
         (all_diff_of (constraint_at c context)) caches) in
  (caches, at_least_one_var_domain_is_used, at_least_one_var_bound_is_used).

(** *** All-different: the expansion *)

(** The decision of [MaybeExpandAllDiff], from the parameter and the outputs
    of the size test and of the scanner. *)
Definition should_expand (expand_all_diff_from_parameters expand_all_diff_from_size
    expand_all_diff_from_usage keep_after_expansion : bool) : bool :=
  expand_all_diff_from_parameters
  || (expand_all_diff_from_size
      && (expand_all_diff_from_usage || negb keep_after_expansion)).

Definition union_of_expr_domains (context : PresolveContext)
    (exprs : list LinearExpressionProto.t) : Domain.t :=
  match exprs with
  | [] => Domain.Empty
  | e :: es =>
      foldl (fun d e => Domain.UnionWith d (DomainSuperSetOf context e))
            (DomainSuperSetOf context e) es
  end.

(** One value [v] of the union: propagation of a fixed expression, then the
    [exactly_one] or [at_most_one] over the literals [expr == v]. *)
Definition all_diff_value (exprs : list LinearExpressionProto.t) (is_a_permutation : bool)
    (v : Z) (context : PresolveContext) : flow PresolveContext :=
  let possible_exprs := filter (fun e => DomainContainsExpr context e v = true) exprs in
  let fixed_expression_count :=
    length (filter (fun e => IsFixedExpr context e = true) possible_exprs) in
  let propagated :=
    if (1 <? fixed_expression_count)%nat then Return (NotifyThatModelIsUnsat context)
    else if decide (fixed_expression_count = 1%nat) then
      for_each
        (fun expr context =>
           if IsFixedExpr context expr then Continue context
           else
             let '(ok, _, context) :=
               IntersectDomainWithExpr expr (Domain.Complement (Domain.Value v)) context in
             if ok then Continue context else Return context)
        possible_exprs context
    else Continue context in
  match propagated with
  | Return context => Return context
  | Continue context =>
      let at_most_or_equal_one := constraints_size context in
      let context :=
        add_constraints
          (plain (if is_a_permutation then kExactlyOne [] else kAtMostOne [])) context in
      Continue
        (foldl
           (fun context expr =>
              if negb (DomainContainsExpr context expr v) then context
              else
                let '(encoding, context) := GetOrCreateAffineValueEncoding expr v context in
                add_literals at_most_or_equal_one encoding context)
           context possible_exprs)
  end.

(** What [MaybeExpandAllDiff] decided: not to expand, or to expand, and then
    whether the constraint is kept. *)
Record all_diff_decision : Type :=
  mkAllDiffDecision { ad_expand : bool; ad_keep : bool }.

Definition MaybeExpandAllDiff (c : nat) (context : PresolveContext) (caches : scan_caches)
    : all_diff_decision * scan_caches * PresolveContext :=
  let expand_all_diff_from_parameters :=
    SatParameters.expand_alldiff_constraints (params context) in
  let exprs := all_diff_of (constraint_at c context) in
  if (length exprs <=? 1)%nat then (mkAllDiffDecision false false, caches, context)
  else
    let '(caches, expand_all_diff_from_usage, keep_after_expansion) :=
      ScanModelAndDecideAllDiffExpansion c context caches in
    let num_exprs := length exprs in
    let union_of_domains := union_of_expr_domains context exprs in
    let expand_all_diff_from_size := AllDiffShouldBeExpanded union_of_domains c context in
    if negb (should_expand expand_all_diff_from_parameters expand_all_diff_from_size
               expand_all_diff_from_usage keep_after_expansion)
    then (mkAllDiffDecision false keep_after_expansion, caches, context)
    else
      let is_a_permutation := Z.of_nat num_exprs =? Domain.Size union_of_domains in
      (mkAllDiffDecision true keep_after_expansion, caches,
       match
         for_each (all_diff_value exprs is_a_permutation)
                  (Domain.Values union_of_domains) context
       with
       | Return context => context
       | Continue context =>
           let context :=
             UpdateRuleStats
               ("all_diff:" +:+ (if is_a_permutation then " permutation" else "")
                  +:+ " expanded" +:+ (if keep_after_expansion then " and kept" else ""))
               context in
           if negb keep_after_expansion then Clear c context else context
       end).

(** ** The orchestrator *)

Section Orchestrator.

(** The two table expanders ([ExpandNegativeTable], [ExpandPositiveTable])
    rest on the tuple compressor and on the objective and postsolve
    interface of the context; the orchestrator is stated for any
    implementation of them. *)
Variable ExpandNegativeTable : nat -> PresolveContext -> PresolveContext.
Variable ExpandPositiveTable : nat -> PresolveContext -> PresolveContext.

(** The [switch] of the first pass on the constraint of index [c]: the
    result is [(skip, context)]. *)
Definition first_pass_dispatch (c : nat) (context : PresolveContext)
    : bool * PresolveContext :=
  let ct := constraint_at c context in
  match ConstraintProto.constraint ct with
  | kLinear lin =>
      if (2 <? length (LinearConstraintProto.domain lin))%nat
         && negb (SatParameters.cp_model_presolve (params context))
      then (false, ExpandComplexLinearConstraint c context)
      else (false, context)
  | kReservoir r =>
      if SatParameters.expand_reservoir_constraints (params context) then
        if existsb (fun demand_expr => negb (IsFixedExpr context demand_expr))
                   (ReservoirConstraintProto.level_changes r)
        then
          (true,
           UpdateRuleStats
             "reservoir: expansion is not supported with  variable level changes" context)
        else (false, ExpandReservoir c context)
      else (false, context)
  | kIntMod _ => (false, ExpandIntMod c context)
  | kIntProd _ => (false, ExpandIntProd c context)
  | kElement _ => (false, ExpandElement c context)
  | kInverse _ => (false, ExpandInverse c context)
  | kAutomaton _ => (false, ExpandAutomaton c context)
  | kTable t =>
      if TableConstraintProto.negated t then (false, ExpandNegativeTable c context)
      else (false, ExpandPositiveTable c context)
  | kAllDiff _ => (true, context)
  | _ => (true, context)
  end.

(** The end of the body of both loops: update of the variable-constraint
    graph, and early exit if the model is unsat. *)
Definition after_expansion (c : nat) (context : PresolveContext) : flow PresolveContext :=
  let context := UpdateNewConstraintsVariableUsage context in
  let context :=
    if ConstraintProto.is_cleared (constraint_at c context)
    then UpdateConstraintVariableUsage c context
    else context in
  if ModelIsUnsat context then Return context else Continue context.

(** First pass, from the constraint of index [c].  The bound of the loop is
    the current number of constraints, which the expanders increase; [fuel]
    bounds the number of iterations, and [None] stands for a loop that has
    not ended within it. *)
Fixpoint first_pass (fuel : nat) (c : nat) (context : PresolveContext)
    : option (flow PresolveContext) :=
  match fuel with
  | O => None
  | S fuel =>
      if (c <? constraints_size context)%nat then
        let '(skip, context) := first_pass_dispatch c context in
        if skip then first_pass fuel (S c) context
        else
          match after_expansion c context with
          | Return context => Some (Return context)
          | Continue context => first_pass fuel (S c) context
          end
      else Some (Continue context)
  end.

Definition second_pass_dispatch (i : nat) (caches : scan_caches) (context : PresolveContext)
    : bool * scan_caches * PresolveContext :=
  match ConstraintProto.constraint (constraint_at i context) with
  | kAllDiff _ =>
      let '(_, caches, context) := MaybeExpandAllDiff i context caches in
      (false, caches, context)
  | kLinear _ => (false, caches, ExpandSomeLinearOfSizeTwo i context)
  | _ => (true, caches, context)
  end.

Fixpoint second_pass (fuel : nat) (i : nat) (caches : scan_caches)
    (context : PresolveContext) : option (flow PresolveContext) :=
  match fuel with
  | O => None
  | S fuel =>
      if (i <? constraints_size context)%nat then
        let '(skip, caches, context) := second_pass_dispatch i caches context in
        if skip then second_pass fuel (S i) caches context
        else
          match after_expansion i context with
          | Return context => Some (Return context)
          | Continue context => second_pass fuel (S i) caches context
          end
      else Some (Continue context)
  end.

(** Update any changed domain from the context. *)
Definition fill_domains_in_proto (context : PresolveContext) : PresolveContext :=
  with_variables
    (imap (fun i v =>
             IntegerVariableProto.mk (IntegerVariableProto.name v)
               (FillDomainInProto (DomainOf context (Z.of_nat i))))
          (variables context))
    context.

Definition ExpandCpModel (fuel : nat) (context : PresolveContext)
    : option PresolveContext :=
  if SatParameters.disable_constraint_expansion (params context) then Some context
  else if ModelIsUnsat context then Some context
  else if ModelIsExpanded context then Some context
  else
    let context := InitializeNewDomains context in
    let context := ClearPrecedenceCache context in
    match first_pass fuel 0 context with
    | None => None
    | Some (Return context) => Some context
    | Some (Continue context) =>
        match second_pass fuel 0 (mkScanCaches ∅ ∅ ∅) context with
        | None => None
        | Some (Return context) => Some context
        | Some (Continue context) =>
            let context := ClearPrecedenceCache context in
            let context := InitializeNewDomains context in
            let context := fill_domains_in_proto context in
            Some (NotifyThatModelIsExpanded context)
        end
    end.

End Orchestrator.

Fixpoint final_pass (fuel : nat) (c : nat) (context : PresolveContext)
    : option PresolveContext :=
  match fuel with
  | O => None
  | S fuel =>
      if (c <? constraints_size context)%nat then
        let context :=
          match ConstraintProto.constraint (constraint_at c context) with
          | kLinear lin =>
              if (2 <? length (LinearConstraintProto.domain lin))%nat
              then ExpandComplexLinearConstraint c context
              else context
          | _ => context
          end in
        final_pass fuel (S c) context
      else Some context
  end.

Definition FinalExpansionForLinearConstraint (fuel : nat) (context : PresolveContext)
    : option PresolveContext :=
  if SatParameters.disable_constraint_expansion (params context) then Some context
  else if ModelIsUnsat context then Some context
  else final_pass fuel 0 context.

(** ** Tables *)

Definition table_of (ct : ConstraintProto.t) : TableConstraintProto.t :=
  match ConstraintProto.constraint ct with
  | kTable t => t
  | _ => TableConstraintProto.mk [] [] false
  end.

(** The flat array of the values of a table, read as
    [values_size / num_vars] tuples of [num_vars] values.  A table without
    variables, for which the source divides by zero, has no tuple here. *)
Definition table_tuples (table : TableConstraintProto.t) : list (list Z) :=
  let num_vars := length (TableConstraintProto.vars table) in
  let num_original_tuples := (length (TableConstraintProto.values table) / num_vars)%nat in
  map (fun i => take num_vars (drop (i * num_vars) (TableConstraintProto.values table)))
      (seq 0 num_original_tuples).

Section NegativeTable.

(** [CompressTuples] of [util.h], which the expansion of a negated table
    calls on the sizes of the domains and on the tuples: the expansion is
    stated for any implementation of it. *)
Variable CompressTuples : list Z -> list (list Z) -> list (list Z).

(** [kTableAnyValue] of [util.h]: the sentinel with which the compressor
    marks a column of a tuple whose value does not matter. *)
Variable kTableAnyValue : Z.

(** The literal of the column [i] of a tuple, added to the clause unless the
    value is the wildcard. *)
Definition negated_tuple_literal (vars tuple : list Z)
    (acc : list Z * PresolveContext) (i : nat) : list Z * PresolveContext :=
  let '(clause, context) := acc in
  let value := ref_at tuple i in
  if value =? kTableAnyValue then acc
  else
    let '(literal, context) := GetOrCreateVarValueEncoding (ref_at vars i) value context in
    (clause ++ [NegatedRef literal], context).

(** For one tuple, forbid the variables values to be this tuple. *)
Definition forbid_tuple (vars : list Z) (context : PresolveContext) (tuple : list Z)
    : PresolveContext :=
  let '(clause, context) :=
    foldl (negated_tuple_literal vars tuple) ([], context) (seq 0 (length vars)) in
  add_constraints (plain (kBoolOr clause)) context.

Definition ExpandNegativeTable (c : nat) (context : PresolveContext) : PresolveContext :=
  let table := table_of (constraint_at c context) in
  let vars := TableConstraintProto.vars table in
  let tuples := table_tuples table in
  match tuples with
  | [] => Clear c (UpdateRuleStats "table: empty negated constraint" context)
  | _ =>
      let domain_sizes := map (fun var => Domain.Size (DomainOf context var)) vars in
      let tuples := CompressTuples domain_sizes tuples in
      let context := foldl (forbid_tuple vars) context tuples in
      Clear c (UpdateRuleStats "table: expanded negated constraint" context)
  end.

End NegativeTable.

(** The order of [std::sort] on pairs. *)
Definition pair_le (a b : Z * Z) : Prop := a.1 < b.1 \/ (a.1 = b.1 /\ a.2 <= b.2).

#[global] Instance pair_le_dec (a b : Z * Z) : Decision (pair_le a b).
Proof. unfold pair_le. apply _. Defined.

(** The runs of pairs with the same first component, each with the list of
    its second components. *)
Fixpoint group_by_value (pairs : list (Z * Z)) : list (Z * list Z) :=
  match pairs with
  | [] => []
  | (value, lit) :: rest =>
      match group_by_value rest with
      | (value', selected) :: groups =>
          if value =? value' then (value, lit :: selected) :: groups
          else (value, [lit]) :: (value', selected) :: groups
      | [] => [(value, [lit])]
      end
  end.

(** First loop of [ProcessOneCompressedColumn] on the row [i]: the state is
    [(pairs, any_values_literals, context)]. *)
Definition compressed_column_row (variable : Z)
    (st : list (Z * Z) * list Z * PresolveContext) (row : list Z * Z)
    : list (Z * Z) * list Z * PresolveContext :=
  let '(pairs, any_values_literals, context) := st in
  let '(values_i, tuple_literal) := row in
  match values_i with
  | [] => (pairs, any_values_literals ++ [tuple_literal], context)
  | _ =>
      let clause := constraints_size context in
      let context := add_constraints (ConstraintProto.mk [tuple_literal] (kBoolOr [])) context in
      let '(pairs, context) :=
        foldl
          (fun (acc : list (Z * Z) * PresolveContext) v =>
             let '(pairs, context) := acc in
             let '(literal, context) := GetOrCreateVarValueEncoding variable v context in
             (pairs ++ [(v, tuple_literal)], add_literals clause literal context))
          (pairs, context) values_i in
      (pairs, any_values_literals, context)
  end.

(** Second loop: the clause of a value, if all the tuples containing it are
    false, then it is false too. *)
Definition compressed_column_no_support (variable : Z) (any_values_literals : list Z)
    (context : PresolveContext) (group : Z * list Z) : PresolveContext :=
  let '(value, selected) := group in
  let no_support := constraints_size context in
  let context :=
    add_constraints (plain (kBoolOr (selected ++ any_values_literals))) context in
  let '(value_literal, context) := GetOrCreateVarValueEncoding variable value context in
  add_literals no_support (NegatedRef value_literal) context.

(** Adds the implications and clauses to link one variable (one column) of
    a table to the literals controlling if the tuples are possible or not;
    an empty list of values encodes any value. *)
Definition ProcessOneCompressedColumn (variable : Z) (tuple_literals : list Z)
    (values : list (list Z)) (context : PresolveContext) : PresolveContext :=
  let '(pairs, any_values_literals, context) :=
    foldl (compressed_column_row variable) ([], [], context) (zip values tuple_literals) in
  foldl (compressed_column_no_support variable any_values_literals) context
        (group_by_value (merge_sort pair_le pairs)).

(** The lambda [add_support_constraint] of [AddSizeTwoTable]. *)
Definition add_support_constraint (lit : Z) (support_literals : list Z)
    (max_support_size : nat) (context : PresolveContext) : PresolveContext :=
  if (length support_literals =? max_support_size)%nat then context
  else
    match support_literals with
    | [support_literal] => AddImplication lit support_literal context
    | _ => add_constraints (plain (kBoolOr (support_literals ++ [NegatedRef lit]))) context
    end.

(** First loop of [AddSizeTwoTable]: the state is
    [(left_to_right, right_to_left, context)]. *)
Definition size_two_supports (left_var right_var : Z)
    (st : gmap Z (list Z) * gmap Z (list Z) * PresolveContext) (tuple : list Z)
    : gmap Z (list Z) * gmap Z (list Z) * PresolveContext :=
  let '(left_to_right, right_to_left, context) := st in
  let left_value := ref_at tuple 0 in
  let right_value := ref_at tuple 1 in
  let '(left_literal, context) :=
    GetOrCreateVarValueEncoding left_var left_value context in
  let '(right_literal, context) :=
    GetOrCreateVarValueEncoding right_var right_value context in
  (push_back left_to_right left_literal right_literal,
   push_back right_to_left right_literal left_literal,
   context).

(** Simpler encoding for table constraints with 2 variables. *)
Definition AddSizeTwoTable (vars : list Z) (tuples : list (list Z))
    (values_per_var : list (gset Z)) (context : PresolveContext) : PresolveContext :=
  let left_var := ref_at vars 0 in
  let right_var := ref_at vars 1 in
  if Domain.IsFixed (DomainOf context left_var)
     || Domain.IsFixed (DomainOf context right_var)
  then context
  else
    let '(left_to_right, right_to_left, context) :=
      foldl (size_two_supports left_var right_var) (∅, ∅, context) tuples in
    let context :=
      foldl (fun context (it : Z * list Z) =>
               add_support_constraint it.1 it.2 (size (set_at values_per_var 1)) context)
            context (entries left_to_right) in
    foldl (fun context (it : Z * list Z) =>
             add_support_constraint it.1 it.2 (size (set_at values_per_var 0)) context)
          context (entries right_to_left).

Section PositiveTable.

(** The two functions that the expansion of a table of more than two
    variables calls, which work on the objective and on the compressor of
    [util.h]: the expansion is stated for any implementation of them.  The
    first returns its result, the new variables, the new tuples and the
    context. *)
Variable ReduceTableInPresenceOfUniqueVariableWithCosts :
  list Z -> list (list Z) -> PresolveContext ->
  bool * list Z * list (list Z) * PresolveContext.
Variable CompressAndExpandPositiveTable :
  bool -> list Z -> list (list Z) -> PresolveContext -> PresolveContext.

(** Every value of the tuple is in the domain of its variable. *)
Definition keep_tuple (context : PresolveContext) (vars tuple : list Z) : bool :=
  forallb (fun var_index =>
             DomainContains context (ref_at vars var_index) (ref_at tuple var_index))
          (seq 0 (length vars)).

(** The loop that computes the set of possible values of each variable and
    removes the invalid tuples: the state is [(values_per_var, tuples)], with
    the tuples kept so far. *)
Definition collect_tuple (context : PresolveContext) (vars : list Z)
    (st : list (gset Z) * list (list Z)) (tuple : list Z)
    : list (gset Z) * list (list Z) :=
  let '(values_per_var, tuples) := st in
  if keep_tuple context vars tuple
  then (imap (fun var_index (values : gset Z) => values ∪ {[ref_at tuple var_index]})
             values_per_var,
        tuples ++ [tuple])
  else st.

(** The loop that updates the domains and counts the fixed variables: the
    state is [(num_fixed_variables, context)], and [None] when the [CHECK] on
    the result of [IntersectDomainWith] fails. *)
Definition reduce_domain (vars : list Z) (values_per_var : list (gset Z))
    (st : option (nat * PresolveContext)) (var_index : nat)
    : option (nat * PresolveContext) :=
  match st with
  | None => None
  | Some (num_fixed_variables, context) =>
      let '(ok, _, context) :=
        IntersectDomainWith (ref_at vars var_index)
          (Domain.FromValues (elements (set_at values_per_var var_index))) context in
      if ok
      then Some (if Domain.IsFixed (DomainOf context (ref_at vars var_index))
                 then S num_fixed_variables else num_fixed_variables,
                 context)
      else None
  end.

(** The expansion of a table that is not negated; [None] when a [CHECK]
    fails. *)
Definition ExpandPositiveTable (c : nat) (context : PresolveContext)
    : option PresolveContext :=
  let table := table_of (constraint_at c context) in
  let vars := TableConstraintProto.vars table in
  let num_vars := length vars in
  let '(values_per_var, tuples) :=
    foldl (collect_tuple context vars) (replicate num_vars ∅, []) (table_tuples table) in
  match tuples with
  | [] => Some (NotifyThatModelIsUnsat (UpdateRuleStats "table: empty" context))
  | _ =>
      match foldl (reduce_domain vars values_per_var) (Some (O, context)) (seq 0 num_vars) with
      | None => None
      | Some (num_fixed_variables, context) =>
          if Z.of_nat num_fixed_variables =? Z.of_nat num_vars - 1
          then Some (Clear c (UpdateRuleStats "table: one variable not fixed" context))
          else if (num_fixed_variables =? num_vars)%nat
          then Some (Clear c (UpdateRuleStats "table: all variables fixed" context))
          else if (num_vars =? 2)%nat
                  && negb (SatParameters.detect_table_with_cost (params context))
          then
            let context := AddSizeTwoTable vars tuples values_per_var context in
            Some (Clear c
                    (UpdateRuleStats
                       "table: expanded positive constraint with two variables" context))
          else
            let '(last_column_is_cost, vars, tuples, context) :=
              if SatParameters.detect_table_with_cost (params context)
              then ReduceTableInPresenceOfUniqueVariableWithCosts vars tuples context
              else (false, vars, tuples, context) in
            Some (Clear c
                    (CompressAndExpandPositiveTable last_column_is_cost vars tuples context))
      end
  end.

End PositiveTable.

(** ** Concrete models *)

Definition default_params : SatParameters.t :=
  SatParameters.mk false true false false 2 false true false.

(** The context of a model given by the domains of its variables and by its
    constraints, before any presolve. *)
Definition context_of_model (p : SatParameters.t) (vars : list (list Z))
    (cts : list ConstraintProto.t) : PresolveContext :=
  InitializeNewDomains
    (mkContext (CpModelProto.mk (map (IntegerVariableProto.mk "") vars) cts)
       p [] ∅ [] [] None [] false false []).

(** A reservoir with an empty level domain: [min_level = 1 > 0 = max_level]. *)
Definition empty_level_reservoir : ReservoirConstraintProto.t :=
  ReservoirConstraintProto.mk 1 0
    [single_var_expr 0; single_var_expr 1]
    [LinearExpressionProto.mk [] [] 1; LinearExpressionProto.mk [] [] (-1)]
    [].

Definition empty_level_context : PresolveContext :=
  context_of_model default_params [[0; 10]; [0; 10]] [plain (kReservoir empty_level_reservoir)].

(** An automaton without variables whose starting state is final. *)
Definition empty_automaton : AutomatonConstraintProto.t :=
  AutomatonConstraintProto.mk 3 [1; 3] [0] [0] [0] [].

Definition empty_automaton_context : PresolveContext :=
  context_of_model default_params [[0; 1]] [plain (kAutomaton empty_automaton)].

(** An [int_prod] whose two factors are the Boolean variables 1 and 2. *)
Definition literal_product : LinearArgumentProto.t :=
  LinearArgumentProto.mk (single_var_expr 0) [single_var_expr 1; single_var_expr 2].

Definition literal_product_context : PresolveContext :=
  context_of_model default_params [[0; 1]; [0; 1]; [0; 1]] [plain (kIntProd literal_product)].

(** [x2 == x0 mod x1] with [x0] in [0, 10], [x1] in [2, 3]: with [x2] in
    [0, 5] the expansion goes through, with [x2] in [5, 9] the tightening of
    the target empties its domain. *)
Definition modulo_argument : LinearArgumentProto.t :=
  LinearArgumentProto.mk (single_var_expr 2) [single_var_expr 0; single_var_expr 1].

Definition modulo_context : PresolveContext :=
  context_of_model default_params [[0; 10]; [2; 3]; [0; 5]]
    [ConstraintProto.mk [] (kIntMod modulo_argument)].

Definition infeasible_modulo_context : PresolveContext :=
  context_of_model default_params [[0; 10]; [2; 3]; [5; 9]]
    [ConstraintProto.mk [] (kIntMod modulo_argument)].

(** A model with one clause, and table expanders that do nothing. *)
Definition clause_context : PresolveContext :=
  context_of_model default_params [[0; 1]; [0; 1]] [plain (kBoolOr [0; 1])].

Definition no_table_expansion (c : nat) (context : PresolveContext) : PresolveContext :=
  context.

Definition expanded_clause_context : PresolveContext :=
  Eval vm_compute in
    default clause_context
      (ExpandCpModel no_table_expansion no_table_expansion 5 clause_context).

(** A two-step automaton from state 0: the first step has the six rows
    [(0, l, h)] for the labels [l] in [{0, 1}] and the states [h] in
    [{1, 2, 3}], and each of these states goes to the final state 9 by
    label 0. *)
Definition wide_automaton : AutomatonConstraintProto.t :=
  AutomatonConstraintProto.mk 0 [9]
    [0; 0; 0; 0; 0; 0; 1; 2; 3] [1; 2; 3; 1; 2; 3; 9; 9; 9] [0; 0; 0; 1; 1; 1; 0; 0; 0]
    [0; 1].

Definition wide_automaton_context : PresolveContext :=
  context_of_model default_params [[0; 1]; [0; 1]] [plain (kAutomaton wide_automaton)].

(** A three-step automaton whose second step has eleven rows over three
    in-states, three labels and three out-states. *)
Definition dense_automaton : AutomatonConstraintProto.t :=
  AutomatonConstraintProto.mk 0 [9]
    [0; 0; 0; 1; 1; 1; 2; 2; 2; 3; 3; 3; 1; 2; 4; 5; 6]
    [1; 2; 3; 4; 5; 6; 4; 5; 6; 4; 5; 6; 5; 6; 9; 9; 9]
    [0; 1; 2; 0; 1; 2; 1; 2; 0; 2; 0; 1; 0; 1; 0; 0; 0]
    [0; 1; 2].

Definition dense_automaton_context : PresolveContext :=
  context_of_model default_params [[0; 2]; [0; 2]; [0; 2]]
    [plain (kAutomaton dense_automaton)].

(** The state of the loop of [ExpandAutomaton] before step 1 of the dense
    automaton. *)
Definition dense_automaton_state : automaton_state :=
  Eval vm_compute in
    flow_state
      (automaton_step dense_automaton
         (PropagateAutomaton dense_automaton dense_automaton_context).1 3 0
         (mkAutomatonState ∅ false dense_automaton_context)).2.

(** An all-different over two variables of domain [0, 3], alone in its model. *)
Definition lonely_all_diff : list LinearExpressionProto.t :=
  [single_var_expr 0; single_var_expr 1].

Definition lonely_all_diff_context : PresolveContext :=
  UpdateNewConstraintsVariableUsage
    (context_of_model default_params [[0; 3]; [0; 3]] [plain (kAllDiff lonely_all_diff)]).

(** [2 x + 3 y != 12] with [x] in [0, 5] and [y] in [0, 4], both fully
    encoded: the literal of [x == v] is [2 + v], the literal of [y == v] is
    [8 + v]. *)
Definition not_equal_12 : LinearConstraintProto.t :=
  LinearConstraintProto.mk [0; 1] [2; 3] [kint64min; 11; 13; kint64max].

Definition fully_encode (var : Z) (context : PresolveContext) : PresolveContext :=
  foldl (fun context v => (GetOrCreateVarValueEncoding var v context).2) context
        (Domain.Values (DomainOf context var)).

Definition not_equal_12_context : PresolveContext :=
  fully_encode 1
    (fully_encode 0
       (context_of_model default_params [[0; 5]; [0; 4]] [plain (kLinear not_equal_12)])).

(** [x + y != 1] with [x] Boolean and [y] in [0, 2], both fully encoded. *)
Definition not_equal_1 : LinearConstraintProto.t :=
  LinearConstraintProto.mk [0; 1] [1; 1] [kint64min; 0; 2; kint64max].

Definition not_equal_1_context : PresolveContext :=
  fully_encode 1
    (fully_encode 0
       (context_of_model default_params [[0; 1]; [0; 2]] [plain (kLinear not_equal_1)])).

(** [target = [7, 7, 9][index]]: the index is variable 0 in [0, 2], the target
    variable 1 in [7, 9], and the array is made of the fixed variables 2, 3
    and 4. *)
Definition constant_element : ElementConstraintProto.t :=
  ElementConstraintProto.mk 0 1 [2; 3; 4].

Definition constant_element_context : PresolveContext :=
  context_of_model default_params [[0; 2]; [7; 9]; [7; 7]; [7; 7]; [9; 9]]
    [plain (kElement constant_element)].

(** The context in which [ExpandElement] calls [ExpandConstantArrayElement]:
    the target has lost the value 8. *)
Definition reduced_element_context : PresolveContext :=
  UpdateRuleStats "element: reduced target domain"
    (IntersectDomainWith 1 [(7, 7); (9, 9)] constant_element_context).2.

(** ** Predicates used in the statements *)

(** A domain is well formed when its intervals are non-empty, sorted and
    separated by at least one value. *)
Fixpoint above (lo : Z) (d : Domain.t) : Prop :=
  match d with
  | [] => True
  | i :: d' => lo < i.1 /\ i.1 <= i.2 /\ above (i.2 + 1) d'
  end.

Definition valid_domain (d : Domain.t) : Prop :=
  match d with
  | [] => True
  | i :: d' => i.1 <= i.2 /\ above (i.2 + 1) d'
  end.


(** Adding [k] to the bounds of the (non-empty) intervals of a domain stays
    within the 64-bit integers. *)
Definition shift_fits (k : Z) (d : Domain.t) : bool :=
  forallb (fun i => (i.1 <=? i.2) && (kint64min <=? i.1 + k) && (i.2 + k <=? kint64max)) d.

(** A context is initialized when every variable of the working model has
    its domain in the domain store. *)
Definition initialized (context : PresolveContext) : Prop :=
  length (domains context) = length (variables context).

(** The outcome of a completed expansion of [target == expr mod mod_expr]:
    the constraint of index [c] is cleared and three constraints with the
    enforcement literals [enforcement] are appended, over the fresh variables
    [div_var] and [prod_var]. *)
Definition int_mod_expansion (c : nat) (enforcement : list Z)
    (target_expr expr mod_expr : LinearExpressionProto.t) (div_var prod_var : Z)
    (before : list ConstraintProto.t) : list ConstraintProto.t :=
  <[c := ConstraintProto.cleared]> before
  ++ [ConstraintProto.mk enforcement
        (kIntDiv (LinearArgumentProto.mk (single_var_expr div_var) [expr; mod_expr]));
      ConstraintProto.mk enforcement
        (kIntProd (LinearArgumentProto.mk (single_var_expr prod_var)
                     [single_var_expr div_var; mod_expr]));
      ConstraintProto.mk enforcement
        (kLinear (AddLinearExpressionToLinearConstraint target_expr (-1)
                    (AddLinearExpressionToLinearConstraint (single_var_expr prod_var) (-1)
                       (AddLinearExpressionToLinearConstraint expr 1
                          (LinearConstraintProto.mk [] [] [0; 0])))))].

(** The tightening of the target of an [int_mod] constraint. *)
Definition int_mod_tightening (context : PresolveContext)
    (target_expr expr mod_expr : LinearExpressionProto.t) : bool * bool * PresolveContext :=
  IntersectDomainWithExpr target_expr
    (Domain.PositiveModuloBySuperset (DomainSuperSetOf context expr)
       (DomainSuperSetOf context mod_expr)) context.


(** A constraint [lit => bool_or(...)] or [lit => bool_and(...)] whose
    enforcement literal [lit] encodes an in-state. *)
Definition is_reachability_implication (in_encoding : gmap Z Z) (ct : ConstraintProto.t)
    : Prop :=
  exists in_value in_literal lits,
    in_encoding !! in_value = Some in_literal
    /\ ConstraintProto.enforcement_literal ct = [in_literal]
    /\ (ConstraintProto.constraint ct = kBoolOr lits
        \/ ConstraintProto.constraint ct = kBoolAnd lits).

(** The size test of the all-different expansion, as a proposition. *)
Definition all_diff_size_test (context : PresolveContext)
    (exprs : list LinearExpressionProto.t) : Prop :=
  let union_size := Domain.Size (union_of_expr_domains context exprs) in
  union_size <= Z.max 32 (2 * Z.of_nat (length exprs))
  \/ (Forall (fun e => IsFullyEncodedExpr context e = true) exprs /\ union_size < 256).

(** The constraints of index below [k] are the same in both contexts, which
    have at least [k] constraints. *)
Definition same_constraints_below (k : nat) (context context' : PresolveContext) : Prop :=
  take k (constraints context') = take k (constraints context)
  /\ (k <= length (constraints context))%nat
  /\ (k <= length (constraints context'))%nat.

(** The literal of [ref == value] in the encoding cache ([0] if absent). *)
Definition existing_literal (context : PresolveContext) (ref value : Z) : Z :=
  default 0 (HasVarValueEncoding context ref value).

(** The clause emitted for the parameter [z] of a forbidden pair. *)
Definition forbidden_pair_clause (context : PresolveContext) (enforcement_literal : list Z)
    (var1 var2 a b x0 y0 : Z) (z : Z) : ConstraintProto.t :=
  forbid_pair enforcement_literal
    (existing_literal context var1 (x0 + b * z))
    (existing_literal context var2 (y0 - a * z)).

(** Every literal [var1 == x0 + b z] and [var2 == y0 - a z] needed for the
    parameters [zs] exists. *)
Definition literals_exist (context : PresolveContext) (var1 var2 a b x0 y0 : Z)
    (zs : list Z) : bool :=
  forallb
    (fun z =>
       bool_decide (is_Some (HasVarValueEncoding context var1 (x0 + b * z)))
       && bool_decide (is_Some (HasVarValueEncoding context var2 (y0 - a * z))))
    zs.

(** Every entry of the encoding cache of [context] is kept by [context']. *)
Definition encoding_stable (context context' : PresolveContext) : Prop :=
  forall key lit, encoding context !! key = Some lit -> encoding context' !! key = Some lit.

(** The domain store of [context'] extends the one of [context]. *)
Definition domains_prefix (context context' : PresolveContext) : Prop :=
  exists extra, domains context' = domains context ++ extra.

(** The constant of the array of an element constraint at index [v]. *)
Definition array_value (context : PresolveContext) (element : ElementConstraintProto.t)
    (v : Z) : Z :=
  MinOf context (element_var element v).

(** The indices of [vs] whose array value is [w]. *)
Definition indices_of_value (context : PresolveContext) (element : ElementConstraintProto.t)
    (w : Z) (vs : list Z) : list Z :=
  filter (fun v => array_value context element v = w) vs.

(** Invariant of the first loop of [ExpandConstantArrayElement], after the
    indices [p]: the usage counts, the supports of the values met twice, each
    with its clause [not (target == w)], and what is left untouched. *)
Definition supports_invariant (context0 : PresolveContext)
    (element : ElementConstraintProto.t) (p : list Z)
    (st : gmap Z nat * gmap Z nat * PresolveContext) : Prop :=
  let '(usage, supports, context) := st in
  let target := ElementConstraintProto.target element in
  (forall w, count_of usage w = length (indices_of_value context0 element w p))
  /\ (forall w, is_Some (supports !! w)
                <-> (2 <= length (indices_of_value context0 element w p))%nat)
  /\ (forall w k, supports !! w = Some k ->
        (length (constraints context0) <= k < length (constraints context))%nat
        /\ exists T, encoding context !! encoding_key target w = Some T
                     /\ constraints context !! k = Some (plain (kBoolOr [NegatedRef T])))
  /\ (forall w w' k, supports !! w = Some k -> supports !! w' = Some k -> w = w')
  /\ same_constraints_below (length (constraints context0)) context0 context
  /\ encoding_stable context0 context
  /\ domains_prefix context0 context
  /\ equalities context = equalities context0
  /\ (forall key lit, encoding context !! key = Some lit ->
        encoding context0 !! key = Some lit
        \/ exists w, key = encoding_key target w /\ is_Some (supports !! w)).

(** The literals [lits], index by index along [p], of the indices whose array
    value is [w]. *)
Definition literals_of_value (context : PresolveContext) (element : ElementConstraintProto.t)
    (w : Z) (p lits : list Z) : list Z :=
  map snd (filter (fun vl : Z * Z => array_value context element vl.1 = w) (zip p lits)).

(** Invariant of the second loop of [ExpandConstantArrayElement], after the
    indices [p], whose literals are [lits]: [context1] is the context at the
    start of the loop, [supports] the result of the first loop and
    [exactly_one] the index of the exactly-one constraint. *)
Definition link_invariant (context0 context1 : PresolveContext)
    (element : ElementConstraintProto.t) (supports : gmap Z nat) (exactly_one : nat)
    (p lits : list Z) (context : PresolveContext) : Prop :=
  let index := ElementConstraintProto.index element in
  let target := ElementConstraintProto.target element in
  Forall2 (fun v l => encoding context !! encoding_key index v = Some l) p lits
  /\ constraints context !! exactly_one = Some (plain (kExactlyOne lits))
  /\ (forall w k, supports !! w = Some k ->
        exists T, encoding context !! encoding_key target w = Some T
                  /\ constraints context !! k
                     = Some (plain (kBoolOr (NegatedRef T
                                               :: literals_of_value context0 element w p lits)))
                  /\ forall l, l ∈ literals_of_value context0 element w p lits ->
                               ConstraintProto.mk [l] (kBoolAnd [T]) ∈ constraints context)
  /\ (forall w, supports !! w = None ->
        match indices_of_value context0 element w p with
        | [] => encoding context !! encoding_key target w
                = encoding context1 !! encoding_key target w
        | [v] =>
            exists l, encoding context !! encoding_key index v = Some l
                      /\ match encoding context1 !! encoding_key target w with
                         | None => encoding context !! encoding_key target w = Some l
                         | Some T0 => T0 = l \/ (l, T0) ∈ equalities context
                         end
        | _ => True
        end)
  /\ same_constraints_below (length (constraints context0)) context0 context
  /\ encoding_stable context1 context
  /\ domains_prefix context0 context
  /\ (length (constraints context1) < length (constraints context))%nat.

(** * The solutions of a model *)

(** Modelled from the spec: the meaning of a model, which is not in the
    expansion code.  An assignment gives a value to every variable index.
    A negative reference stands for the opposite of its variable as an
    integer and for the negation of its variable as a literal; "the
    constraint is active iff all [its enforcement literals] are true"; an
    encoding literal is "a Boolean literal l with l <=> (var == value)". *)

Definition assignment : Type := Z -> Z.

Definition ref_value (s : assignment) (ref : Z) : Z :=
  if RefIsPositive ref then s ref else - s (PositiveRef ref).

Definition literal_value (s : assignment) (lit : Z) : bool :=
  if RefIsPositive lit then s lit =? 1 else negb (s (PositiveRef lit) =? 1).

Definition sum_terms (s : assignment) (vars coeffs : list Z) : Z :=
  foldr Z.add 0 (zip_with (fun v c => c * ref_value s v) vars coeffs).

Definition expr_value (s : assignment) (e : LinearExpressionProto.t) : Z :=
  sum_terms s (LinearExpressionProto.vars e) (LinearExpressionProto.coeffs e)
  + LinearExpressionProto.offset e.

Definition linear_holds (s : assignment) (lin : LinearConstraintProto.t) : bool :=
  Domain.Contains (ReadDomainFromProto (LinearConstraintProto.domain lin))
    (sum_terms s (LinearConstraintProto.vars lin) (LinearConstraintProto.coeffs lin)).

Definition count_true (s : assignment) (lits : list Z) : nat :=
  length (List.filter (literal_value s) lits).

(** Two assignments agree on the variables below [n]. *)
Definition agree (n : Z) (s s' : assignment) : Prop :=
  forall v, 0 <= v < n -> s v = s' v.

(** [override s n vs] gives the values [vs] to the variables [n], [n + 1],
    ... and is [s] elsewhere. *)
Definition override (s : assignment) (n : Z) (vs : list Z) : assignment :=
  fun v => if v <? n then s v else default (s v) (vs !! Z.to_nat (v - n)).

(** The references of a constraint, of the cache and of the stored
    equalities are variables below [n]. *)
Definition refs_below (n : Z) (ct : ConstraintProto.t) : bool :=
  forallb (fun v => v <? n) (UsedVariables ct).

Definition cache_below (n : Z) (context : PresolveContext) : bool :=
  forallb (fun kl : Z * Z * Z => (0 <=? kl.1.1) && (kl.1.1 <? n) && (PositiveRef kl.2 <? n))
          (map_to_list (encoding context))
  && forallb (fun ab : Z * Z => (PositiveRef ab.1 <? n) && (PositiveRef ab.2 <? n))
             (equalities context).

Section Semantics.

(** The meaning of the constraints that are left without one below. *)
Variable other_holds : assignment -> Constraint -> bool.

(** Modelled from the spec: the meaning of the Boolean, linear, integer
    division, remainder and product, all-different and element constraints
    of [cp_model.proto]; division and remainder are truncated. *)
Definition constraint_holds (s : assignment) (k : Constraint) : bool :=
  match k with
  | CONSTRAINT_NOT_SET => true
  | kBoolOr lits => existsb (literal_value s) lits
  | kBoolAnd lits => forallb (literal_value s) lits
  | kAtMostOne lits => (count_true s lits <=? 1)%nat
  | kExactlyOne lits => (count_true s lits =? 1)%nat
  | kBoolXor lits => Nat.odd (count_true s lits)
  | kIntDiv a =>
      let x := expr_value s (expr_at (LinearArgumentProto.exprs a) 0) in
      let y := expr_value s (expr_at (LinearArgumentProto.exprs a) 1) in
      negb (y =? 0) && (expr_value s (LinearArgumentProto.target a) =? Z.quot x y)
  | kIntMod a =>
      let x := expr_value s (expr_at (LinearArgumentProto.exprs a) 0) in
      let y := expr_value s (expr_at (LinearArgumentProto.exprs a) 1) in
      negb (y =? 0) && (expr_value s (LinearArgumentProto.target a) =? Z.rem x y)
  | kIntProd a =>
      expr_value s (LinearArgumentProto.target a)
      =? foldr Z.mul 1 (map (expr_value s) (LinearArgumentProto.exprs a))
  | kLinear lin => linear_holds s lin
  | kAllDiff exprs => bool_decide (NoDup (map (expr_value s) exprs))
  | kElement e =>
      let i := ref_value s (ElementConstraintProto.index e) in
      (0 <=? i) && (i <? Z.of_nat (length (ElementConstraintProto.vars e)))
      && (ref_value s (ref_at (ElementConstraintProto.vars e) (Z.to_nat i))
          =? ref_value s (ElementConstraintProto.target e))
  | _ => other_holds s k
  end.

(** A constraint holds when one of its enforcement literals is false or its
    body holds. *)
Definition holds (s : assignment) (ct : ConstraintProto.t) : bool :=
  implb (forallb (literal_value s) (ConstraintProto.enforcement_literal ct))
        (constraint_holds s (ConstraintProto.constraint ct)).

Definition domains_hold (s : assignment) (ds : list Domain.t) : bool :=
  forallb (fun vd : nat * Domain.t => Domain.Contains vd.2 (s (Z.of_nat vd.1)))
          (imap pair ds).

(** Every literal of the cache is true exactly when its variable has its
    value. *)
Definition encoding_holds (s : assignment) (e : gmap (Z * Z) Z) : bool :=
  forallb (fun kl : Z * Z * Z => Bool.eqb (literal_value s kl.2) (s kl.1.1 =? kl.1.2))
          (map_to_list e).

Definition equalities_hold (s : assignment) (q : list (Z * Z)) : bool :=
  forallb (fun ab : Z * Z => Bool.eqb (literal_value s ab.1) (literal_value s ab.2)) q.

(** Modelled from the spec: the solutions of the model of a context.  The
    values are in the domains of the context, the constraints hold, and the
    encoding literals and the stored equalities mean what they say.  An
    infeasible context has no solution. *)
Definition solution (s : assignment) (context : PresolveContext) : bool :=
  negb (is_unsat context)
  && domains_hold s (domains context)
  && forallb (holds s) (constraints context)
  && encoding_holds s (encoding context)
  && equalities_hold s (equalities context).

(** Every constraint of the model depends on the variables of the model
    only. *)
Definition closed_model (context : PresolveContext) : Prop :=
  forall s s', agree (variables_size context) s s' ->
    forall ct, ct ∈ constraints context -> holds s ct = holds s' ct.

(** The expansion [context'] of [context] keeps the solutions: a solution
    after the expansion is a solution before it, and a solution before the
    expansion can be extended to the new variables into a solution after
    it. *)
Definition preserves_solutions (context context' : PresolveContext) : Prop :=
  (forall s, solution s context' = true -> solution s context = true)
  /\ (forall s, solution s context = true ->
        exists s', agree (variables_size context) s s' /\ solution s' context' = true).

(** The new variables of [context'] are functionally determined: two
    solutions that agree on the variables of [context] agree everywhere. *)
Definition determines_new_variables (context context' : PresolveContext) : Prop :=
  forall s1 s2,
    solution s1 context' = true -> solution s2 context' = true ->
    agree (variables_size context) s1 s2 -> agree (variables_size context') s1 s2.

(** What is assumed of a model and of its constraint [ct] of index [c]. *)
Definition well_formed_input (context : PresolveContext) (c : nat)
    (ct : ConstraintProto.t) : Prop :=
  constraints context !! c = Some ct
  /\ initialized context
  /\ closed_model context
  /\ cache_below (variables_size context) context = true
  /\ refs_below (variables_size context) ct = true.

End Semantics.

(** The intervals of a right-hand side are not empty, increasing and
    disjoint. *)
Fixpoint sorted_intervals (d : list (Z * Z)) : bool :=
  match d with
  | [] => true
  | i :: d' =>
      (i.1 <=? i.2)
      && match d' with [] => true | j :: _ => i.2 <? j.1 end
      && sorted_intervals d'
  end.

(** The shape of an expansion of the constraint of index [c]: it is replaced
    by [ct'], the constraints [news] are appended, the domains of the
    variables shrink, new variables are appended, and the cache and the
    stored equalities grow. *)
Definition expansion_shape (context context' : PresolveContext) (c : nat)
    (ct' : ConstraintProto.t) (news : list ConstraintProto.t) : Prop :=
  (forall i d, domains context !! i = Some d ->
     exists d', domains context' !! i = Some d'
                /\ forall v, Domain.Contains d' v = true -> Domain.Contains d v = true)
  /\ constraints context' = <[c := ct']> (constraints context) ++ news
  /\ (forall key lit, encoding context !! key = Some lit ->
                      encoding context' !! key = Some lit)
  /\ (forall ab, ab ∈ equalities context -> ab ∈ equalities context')
  /\ (is_unsat context' = false -> is_unsat context = false).

(** The simple case: nothing changes but the constraints, and the variables
    of domains [new_domains] are appended. *)
Definition simple_expansion (context context' : PresolveContext) (c : nat)
    (ct' : ConstraintProto.t) (new_domains : list Domain.t)
    (news : list ConstraintProto.t) : Prop :=
  domains context' = domains context ++ new_domains
  /\ variables_size context' = variables_size context + Z.of_nat (length new_domains)
  /\ constraints context' = <[c := ct']> (constraints context) ++ news
  /\ encoding context' = encoding context
  /\ equalities context' = equalities context
  /\ is_unsat context' = is_unsat context.

(** The cache, the equalities, the status and the parameters are the same
    in two contexts. *)
Definition same_store (context context' : PresolveContext) : Prop :=
  encoding context' = encoding context
  /\ equalities context' = equalities context
  /\ is_unsat context' = is_unsat context
  /\ params context' = params context.

(** The variables [n], [n + 1], ..., [n + m - 1]. *)
Fixpoint new_vars (n : Z) (m : nat) : list Z :=
  match m with
  | O => []
  | S m => n :: new_vars (n + 1) m
  end.

Definition bool_domain : Domain.t := [(0, 1)].

(** The copy of a linear constraint on one interval of its right-hand side,
    enforced by the literal of the interval. *)
Definition subdomain_constraint (linear : LinearConstraintProto.t) (lit : Z) (i : Z * Z)
    : ConstraintProto.t :=
  ConstraintProto.mk [lit]
    (kLinear (LinearConstraintProto.mk
       (LinearConstraintProto.vars linear)
       (LinearConstraintProto.coeffs linear)
       (FillDomainInProto (Domain.Range i.1 i.2)))).

Definition implication (a b : Z) : ConstraintProto.t :=
  ConstraintProto.mk [a] (kBoolAnd [b]).

(** The constraints that tie the literals of the intervals to the
    enforcement literals [enforcement] when all solutions are enumerated,
    and the domains of the variables they need; [n] is the first free
    variable. *)
Definition complex_linear_tight (enforcement lits : list Z) (n : Z)
    : list Domain.t * list ConstraintProto.t :=
  match enforcement with
  | [e] => ([], map (fun lit => implication (NegatedRef e) (NegatedRef lit)) lits)
  | _ =>
      ([bool_domain],
       plain (kBoolOr (map NegatedRef enforcement ++ [n]))
         :: map (fun e => implication (NegatedRef e) (NegatedRef n)) enforcement
         ++ map (fun lit => implication (NegatedRef n) (NegatedRef lit)) lits)
  end.

(** The new variables and the new constraints of the Boolean encoding of a
    linear constraint with a complex right-hand side; [n] is the number of
    variables before the expansion. *)
Definition complex_linear_boolean (enumerate : bool) (enforcement : list Z)
    (linear : LinearConstraintProto.t) (n : Z)
    : list Domain.t * list ConstraintProto.t :=
  let intervals := pair_up (LinearConstraintProto.domain linear) in
  let m := length intervals in
  if bool_decide (enforcement = [])
     && (length (LinearConstraintProto.domain linear) =? 4)%nat
  then
    ([bool_domain],
     zip_with (subdomain_constraint linear) [n; NegatedRef n] intervals)
  else
    let tight :=
      if enumerate && negb (bool_decide (enforcement = []))
      then complex_linear_tight enforcement (new_vars n m) (n + Z.of_nat m)
      else ([], []) in
    (replicate m bool_domain ++ tight.1,
     plain (kBoolOr (map NegatedRef enforcement ++ new_vars n m))
       :: zip_with (subdomain_constraint linear) (new_vars n m) intervals
       ++ tight.2).

(** Nothing changes but the constraints. *)
Definition only_constraints (context context' : PresolveContext) : Prop :=
  domains context' = domains context
  /\ variables context' = variables context
  /\ same_store context context'.

(** The values of the new variables of the Boolean encoding in a solution:
    the literal of an interval is true when the constraint is enforced and
    the linear expression falls in the interval; the last value is for the
    literal [linear_is_enforced]. *)
Definition complex_linear_values (enforcement : list Z) (linear : LinearConstraintProto.t)
    (s : assignment) : list Z :=
  let enforced := forallb (literal_value s) enforcement in
  let value :=
    sum_terms s (LinearConstraintProto.vars linear) (LinearConstraintProto.coeffs linear) in
  map (fun i => Z.b2z (enforced && Domain.in_interval i value))
      (pair_up (LinearConstraintProto.domain linear))
  ++ [Z.b2z enforced].


(** The bounds of the intervals of a domain are 64-bit integers. *)
Definition in_int64 (d : Domain.t) : bool :=
  forallb (fun i : Z * Z => (kint64min <=? i.1) && (i.2 <=? kint64max)) d.

(** The largest absolute value of a bound of a domain. *)
Definition magnitude (d : Domain.t) : Z :=
  Z.max (Z.abs (Domain.Min d)) (Z.abs (Domain.Max d)).

(** [coeff1 * var1 + coeff2 * var2] is a 64-bit integer whatever the values
    of the two variables in their domains. *)
Definition linear2_fits (context : PresolveContext) (var1 var2 coeff1 coeff2 : Z) : bool :=
  Z.abs coeff1 * magnitude (DomainOf context var1)
  + Z.abs coeff2 * magnitude (DomainOf context var2) <=? kint64max.

(** The constraint that [ExpandVariableElement] adds for the index [v], whose
    literal is [lit]: the target is in the domain of the variable of the
    array when this one is fixed, and is equal to it otherwise. *)
Definition element_link (context : PresolveContext) (element : ElementConstraintProto.t)
    (v lit : Z) : ConstraintProto.t :=
  let var := element_var element v in
  let var_domain := DomainOf context var in
  if Domain.IsFixed var_domain
  then ConstraintProto.mk [lit]
         (kLinear (LinearConstraintProto.mk [ElementConstraintProto.target element] [1]
                     (FillDomainInProto var_domain)))
  else ConstraintProto.mk [lit]
         (kLinear (LinearConstraintProto.mk
                     [var; ElementConstraintProto.target element] [1; -1] [0; 0])).

(** The variables and the cache of [context'] are those of [context] and
    one Boolean variable for each key of [created], in this order, which is
    the literal of its key in the cache. *)
Definition encoding_growth (context context' : PresolveContext)
    (created : list (Z * Z)) : Prop :=
  let n := variables_size context in
  domains context' = domains context ++ replicate (length created) bool_domain
  /\ variables_size context' = n + Z.of_nat (length created)
  /\ (forall j key, created !! j = Some key ->
        encoding context' !! key = Some (n + Z.of_nat j) /\ 0 <= key.1 < n)
  /\ (forall key lit, encoding context' !! key = Some lit ->
        encoding context !! key = Some lit
        \/ exists j, created !! j = Some key /\ lit = n + Z.of_nat j)
  /\ encoding_stable context context'
  /\ equalities context' = equalities context
  /\ is_unsat context' = is_unsat context.

(** An expansion that creates encoding literals: the constraint of index
    [c] is replaced by [ct'] and the constraints [news] are appended. *)
Definition encoding_expansion (context context' : PresolveContext) (c : nat)
    (ct' : ConstraintProto.t) (created : list (Z * Z))
    (news : list ConstraintProto.t) : Prop :=
  encoding_growth context context' created
  /\ constraints context' = <[c := ct']> (constraints context) ++ news.

(** The values of the created literals in the extension of [s]. *)
Definition created_values (s : assignment) (created : list (Z * Z)) : list Z :=
  map (fun key : Z * Z => Z.b2z (s key.1 =? key.2)) created.

(** Invariant of the loop of [ExpandVariableElement] after the indices [p],
    whose literals are [lits]. *)
Definition variable_element_invariant (context0 : PresolveContext)
    (element : ElementConstraintProto.t) (p lits : list Z) (created : list (Z * Z))
    (context : PresolveContext) : Prop :=
  Forall2 (fun v l => encoding context !! encoding_key (ElementConstraintProto.index element) v
                      = Some l) p lits
  /\ constraints context
     = constraints context0 ++ plain (kExactlyOne lits)
         :: zip_with (element_link context0 element) p lits
  /\ initialized context
  /\ encoding_growth context0 context created.

(** ** Examples of models and of assignments *)

(** Parameters of a run without presolve: the expansion of the linear
    constraints with a complex right-hand side is part of [ExpandCpModel]. *)
Definition expansion_only_params : SatParameters.t :=
  SatParameters.mk false true false false 2 false false false.

(** [b => x + y in {0} U {2}] over a Boolean [b] and [x], [y] in [0, 2]. *)
Definition enforced_linear : ConstraintProto.t :=
  ConstraintProto.mk [0] (kLinear (LinearConstraintProto.mk [1; 2] [1; 1] [0; 0; 2; 2])).

Definition enforced_linear_context : PresolveContext :=
  context_of_model expansion_only_params [[0; 1]; [0; 2]; [0; 2]] [enforced_linear].

(** Two assignments that differ on the variable 3 only. *)
Definition all_zero : assignment := fun _ => 0.

Definition one_at_3 : assignment := fun v => if v =? 3 then 1 else 0.

(** [x + y in {0} U {2} U {4}] over [x], [y] in [0, 2], without enforcement
    literal. *)
Definition even_sum : LinearConstraintProto.t :=
  LinearConstraintProto.mk [0; 1] [1; 1] [0; 0; 2; 2; 4; 4].

Definition even_sum_context : PresolveContext :=
  context_of_model expansion_only_params [[0; 2]; [0; 2]] [plain (kLinear even_sum)].

(** The semantics in which the constraints that the expansion never opens
    always hold. *)
Definition no_other_constraint : assignment -> Constraint -> bool := fun _ _ => true.

(** [e => p == l * x] over the Booleans [e] and [l] and over [p] and [x] in
    [0, 5] (variables 0, 2, 1 and 3), and an assignment in which the product
    is not enforced. *)
Definition enforced_product : ConstraintProto.t :=
  ConstraintProto.mk [0]
    (kIntProd (LinearArgumentProto.mk (single_var_expr 1)
                 [single_var_expr 2; single_var_expr 3])).

Definition enforced_product_context : PresolveContext :=
  context_of_model default_params [[0; 1]; [0; 5]; [0; 1]; [0; 5]] [enforced_product].

Definition product_not_enforced : assignment :=
  fun v => if v =? 1 then 3 else if v =? 2 then 1 else if v =? 3 then 2 else 0.

(** [t == a[i]] over [i] in [0, 1], [t] in [0, 5] and the array of the
    variables 2, in [0, 3], and 3, fixed to 4. *)
Definition variable_element : ElementConstraintProto.t :=
  ElementConstraintProto.mk 0 1 [2; 3].

Definition variable_element_context : PresolveContext :=
  context_of_model default_params [[0; 1]; [0; 5]; [0; 3]; [4; 4]]
    [plain (kElement variable_element)].

(** ** Predicates on the automaton propagation *)

(** A run of the automaton over the word [ws]: the states [qs] start at the
    starting state, follow transitions whose labels are in the domains of
    the variables, and end in a final state. *)
Definition automaton_run (proto : AutomatonConstraintProto.t) (context : PresolveContext)
    (qs ws : list Z) : Prop :=
  let n := length (AutomatonConstraintProto.vars proto) in
  length ws = n
  /\ length qs = S n
  /\ qs !! 0%nat = Some (AutomatonConstraintProto.starting_state proto)
  /\ (forall t q w q', qs !! t = Some q -> ws !! t = Some w -> qs !! S t = Some q' ->
        (q, w, q') ∈ transitions proto
        /\ DomainContains context (ref_at (AutomatonConstraintProto.vars proto) t) w = true)
  /\ (forall q, qs !! n = Some q -> q ∈ AutomatonConstraintProto.final_states proto).

(** The test of the forward pass on a transition at step [time]. *)
Definition forward_allowed (proto : AutomatonConstraintProto.t) (context : PresolveContext)
    (n : nat) (states : list (gset Z)) (time : nat) (tr : Z * Z * Z) : Prop :=
  tr.1.1 ∈ set_at states time
  /\ DomainContains context (ref_at (AutomatonConstraintProto.vars proto) time) tr.1.2 = true
  /\ (time = (n - 1)%nat -> tr.2 ∈ AutomatonConstraintProto.final_states proto).

(** The test of the backward pass on a transition at step [time]. *)
Definition backward_allowed (states labels : list (gset Z)) (time : nat)
    (tr : Z * Z * Z) : Prop :=
  tr.1.1 ∈ set_at states time
  /\ tr.1.2 ∈ set_at labels time
  /\ tr.2 ∈ set_at states (S time).

(** The sets of states and of labels have the sizes of the automaton, the
    labels are in the domains of the variables, the first state is the
    starting state and the last one is final. *)
Definition automaton_sets_bounded (proto : AutomatonConstraintProto.t)
    (context : PresolveContext) (st : list (gset Z) * list (gset Z)) : Prop :=
  let n := length (AutomatonConstraintProto.vars proto) in
  length st.1 = S n
  /\ length st.2 = n
  /\ (forall t w, w ∈ set_at st.2 t ->
        DomainContains context (ref_at (AutomatonConstraintProto.vars proto) t) w = true)
  /\ (forall q, q ∈ set_at st.1 0 -> q = AutomatonConstraintProto.starting_state proto)
  /\ ((1 <= n)%nat -> forall q, q ∈ set_at st.1 n ->
        q ∈ AutomatonConstraintProto.final_states proto).

(** From the step [k] on, every state and every label that is kept is the
    tail or the label of a transition between kept states with a kept
    label. *)
Definition automaton_supported_from (proto : AutomatonConstraintProto.t) (k : nat)
    (st : list (gset Z) * list (gset Z)) : Prop :=
  let n := length (AutomatonConstraintProto.vars proto) in
  forall t, (k <= t < n)%nat ->
    (forall w, w ∈ set_at st.2 t ->
       exists tail head, (tail, w, head) ∈ transitions proto
                         /\ tail ∈ set_at st.1 t /\ head ∈ set_at st.1 (S t))
    /\ (forall q, q ∈ set_at st.1 t ->
          exists label head, (q, label, head) ∈ transitions proto
                             /\ label ∈ set_at st.2 t /\ head ∈ set_at st.1 (S t)).

(** The sets contain the states and the labels of a run. *)
Definition automaton_contains_run (qs ws : list Z) (st : list (gset Z) * list (gset Z))
    : Prop :=
  (forall t q, qs !! t = Some q -> q ∈ set_at st.1 t)
  /\ (forall t w, ws !! t = Some w -> w ∈ set_at st.2 t).

(** An automaton over two variables in [5, 6]: from the state 0 the label 5
    leads to the state 1, from which the label 6 leads to the final state
    2. *)
Definition two_step_automaton : AutomatonConstraintProto.t :=
  AutomatonConstraintProto.mk 0 [2] [0; 1] [1; 2] [5; 6] [0; 1].

Definition two_step_context : PresolveContext :=
  context_of_model default_params [[5; 6]; [5; 6]] [plain (kAutomaton two_step_automaton)].

(** ** Examples for the links between literals and values *)

(** The encoding of the values 5 and 6 by the literals 1 and 2, and an
    assignment in which the value is 5. *)
Definition two_values_encoding : gmap Z Z := <[5 := 1]> (<[6 := 2]> ∅).

Definition value_is_5 : assignment := fun v => if v =? 1 then 1 else 0.

(** The literals [literals[i]] whose value [values[i]] is encoded by the
    literal [e]. *)
Definition support_of (encoding : gmap Z Z) (values literals : list Z) (e : Z) : list Z :=
  map snd (filter (fun vl : Z * Z => at_ encoding vl.1 = e) (zip values literals)).

(** What [LinkLiteralsAndValues] adds for one encoding literal and its
    support: constraints, and stored equalities. *)
Definition link_constraints (entry : Z * list Z) : list ConstraintProto.t :=
  match entry.2 with
  | [_] => []
  | support =>
      plain (kBoolOr (NegatedRef entry.1 :: support))
        :: map (fun lit => ConstraintProto.mk [lit] (kBoolAnd [entry.1])) support
  end.

Definition link_equalities (entry : Z * list Z) : list (Z * Z) :=
  match entry.2 with
  | [lit] => [(entry.1, lit)]
  | _ => []
  end.

(** ** Predicates on the expansion of an inverse constraint *)

(** The literals of [ref1 == value1] and of [ref2 == value2] both exist and
    are the same literal, or literals stored as equal. *)
Definition literals_shared (context : PresolveContext) (ref1 value1 ref2 value2 : Z) : Prop :=
  exists l1 l2,
    HasVarValueEncoding context ref1 value1 = Some l1
    /\ HasVarValueEncoding context ref2 value2 = Some l2
    /\ (l1 = l2 \/ (l1, l2) ∈ equalities context \/ (l2, l1) ∈ equalities context).

(** [context'] has the constraints of [context], its domains and possibly
    more, its encoding literals and possibly more, and its stored equalities
    and possibly more. *)
Definition context_grows (context context' : PresolveContext) : Prop :=
  encoding_stable context context'
  /\ (forall ab, ab ∈ equalities context -> ab ∈ equalities context')
  /\ domains_prefix context context'
  /\ constraints context' = constraints context.

(** [context'] has the constraints of [context] and as many domains. *)
Definition only_domains (context context' : PresolveContext) : Prop :=
  constraints context' = constraints context
  /\ length (domains context') = length (domains context).

(** A step that only narrows domains: it keeps the constraints and the
    number of domains, and it returns early only with an infeasible
    model. *)
Definition domains_stage (context : PresolveContext) (f : flow PresolveContext) : Prop :=
  only_domains context (flow_state f)
  /\ match f with
     | Return context' => ModelIsUnsat context' = true
     | Continue _ => True
     end.

(** The inverse constraint between the variables 0, 1 and the variables
    2, 3, all in [0, 1]. *)
Definition two_inverse : InverseConstraintProto.t := InverseConstraintProto.mk [0; 1] [2; 3].

Definition two_inverse_context : PresolveContext :=
  context_of_model default_params [[0; 1]; [0; 1]; [0; 1]; [0; 1]]
    [plain (kInverse two_inverse)].

(** ** Predicates on the final expansion of the linear constraints *)

(** A constraint that [ExpandComplexLinearConstraint] leaves as it is: not
    linear, or linear with a right-hand side of at most one interval or with
    one variable only. *)
Definition simple_linear (ct : ConstraintProto.t) : bool :=
  match ConstraintProto.constraint ct with
  | kLinear lin =>
      (length (LinearConstraintProto.domain lin) <=? 2)%nat
      || (length (LinearConstraintProto.vars lin) =? 1)%nat
  | _ => true
  end.

(** ** Predicates on the expansion of a table *)

(** The two values of a tuple of a table with two variables. *)
Definition tuple_pair (tuple : list Z) : Z * Z := (ref_at tuple 0, ref_at tuple 1).

(** The constraint that [add_support_constraint] adds for a literal and its
    supports, if any. *)
Definition support_constraints (max_support_size : nat) (it : Z * list Z)
    : list ConstraintProto.t :=
  if (length it.2 =? max_support_size)%nat then []
  else
    match it.2 with
    | [support_literal] => [implication it.1 support_literal]
    | _ => [plain (kBoolOr (it.2 ++ [NegatedRef it.1]))]
    end.

(** The supports of the literals of the first components of [lits]. *)
Definition supports_of (lits : list (Z * Z)) : gmap Z (list Z) :=
  foldl (fun (m : gmap Z (list Z)) lr => push_back m lr.1 lr.2) ∅ lits.

Definition swap_pair (lr : Z * Z) : Z * Z := (lr.2, lr.1).

(** A table on the variables 0 and 1, both in [0, 2], with the tuples
    (0, 1), (1, 2), (2, 0) and (0, 0). *)
Definition cycle_tuples : list (list Z) := [[0; 1]; [1; 2]; [2; 0]; [0; 0]].

Definition cycle_context : PresolveContext :=
  context_of_model default_params [[0; 2]; [0; 2]]
    [plain (kTable (TableConstraintProto.mk [0; 1] [0; 1; 1; 2; 2; 0; 0; 0] false))].

Definition cycle_values : list (gset Z) := [{[0; 1; 2]}; {[0; 1; 2]}].

(** The same table with every tuple written twice: [(0, 0), (0, 0), (1, 1),
    (1, 1)] on two Boolean variables. *)
Definition repeated_tuples : list (list Z) := [[0; 0]; [0; 0]; [1; 1]; [1; 1]].

Definition repeated_context : PresolveContext :=
  context_of_model default_params [[0; 1]; [0; 1]]
    [plain (kTable (TableConstraintProto.mk [0; 1] [0; 0; 0; 0; 1; 1; 1; 1] false))].

(** The assignment matches a compressed tuple: every column is the wildcard
    [any] or the value of its variable. *)
Definition matches_tuple (any : Z) (s : assignment) (vars tuple : list Z) : Prop :=
  forall i, (i < length vars)%nat ->
    ref_at tuple i = any \/ ref_value s (ref_at vars i) = ref_at tuple i.

(** The tuples that the expansion of a negated table forbids. *)
Definition forbidden_tuples (CompressTuples : list Z -> list (list Z) -> list (list Z))
    (context : PresolveContext) (table : TableConstraintProto.t) : list (list Z) :=
  match table_tuples table with
  | [] => []
  | tuples =>
      CompressTuples
        (map (fun var => Domain.Size (DomainOf context var)) (TableConstraintProto.vars table))
        tuples
  end.

(** The columns of a tuple that are not the wildcard [any], among the first
    [n]. *)
Definition concrete_columns (any : Z) (tuple : list Z) (n : nat) : list nat :=
  filter (fun i => ref_at tuple i <> any) (seq 0 n).

(** The negated table on the variables 0 and 1, both in [0, 2], that
    forbids the tuples (0, 1), (1, 2), (2, 0) and (0, 0). *)
Definition negated_cycle_context : PresolveContext :=
  context_of_model default_params [[0; 2]; [0; 2]]
    [plain (kTable (TableConstraintProto.mk [0; 1] [0; 1; 1; 2; 2; 0; 0; 0] true))].

(** A compressor that leaves the tuples as they are. *)
Definition no_compression (domain_sizes : list Z) (tuples : list (list Z)) : list (list Z) :=
  tuples.

(** The pairs of a value and of the literal of a tuple that lists it. *)
Definition column_pairs (rows : list (list Z * Z)) : list (Z * Z) :=
  flat_map (fun row : list Z * Z => map (fun v => (v, row.2)) row.1) rows.

(** The literals of the tuples that allow any value. *)
Definition column_any (rows : list (list Z * Z)) : list Z :=
  map snd (filter (fun row : list Z * Z => row.1 = []) rows).

(** Three tuples on one column: the first allows 0 or 1, the second any
    value, the third 1; their literals are the variables 1, 2 and 3. *)
Definition column_context : PresolveContext :=
  context_of_model default_params [[0; 2]; [0; 1]; [0; 1]; [0; 1]] [].

(** What the clause of a tuple says: its literal implies that the variable
    has one of its values. *)
Definition row_clause_meaning (other_holds : assignment -> Constraint -> bool)
    (variable : Z) (context : PresolveContext) (row : list Z * Z)
    (ct : ConstraintProto.t) : Prop :=
  forall s, encoding_holds s (encoding context) = true ->
    holds other_holds s ct = true
    <-> (literal_value s row.2 = true -> ref_value s variable ∈ row.1).

(** What the clause of a value says: when the variable has this value, one
    of the literals of the tuples that list it or allow any value is true. *)
Definition value_clause_meaning (other_holds : assignment -> Constraint -> bool)
    (variable : Z) (any_values_literals : list Z) (context : PresolveContext)
    (group : Z * list Z) (ct : ConstraintProto.t) : Prop :=
  forall s, encoding_holds s (encoding context) = true ->
    holds other_holds s ct = true
    <-> (ref_value s variable = group.1 ->
         exists l, l ∈ group.2 ++ any_values_literals /\ literal_value s l = true).

(** Modelled from the spec: the meaning of a table constraint of
    [cp_model.proto]: the values of the variables are one of the tuples, or
    none of them when the table is negated. *)
Definition table_holds (s : assignment) (table : TableConstraintProto.t) : bool :=
  xorb (TableConstraintProto.negated table)
       (bool_decide (map (ref_value s) (TableConstraintProto.vars table)
                     ∈ table_tuples table)).

(** The meaning of the constraints in a model with tables. *)
Definition table_semantics (s : assignment) (k : Constraint) : bool :=
  match k with
  | kTable table => table_holds s table
  | _ => true
  end.

(** The two functions of the expansion of larger tables, not called on a
    table of two variables. *)
Definition no_cost_reduction (vars : list Z) (tuples : list (list Z))
    (context : PresolveContext) : bool * list Z * list (list Z) * PresolveContext :=
  (false, vars, tuples, context).

Definition no_tuple_literals (last_column_is_cost : bool) (vars : list Z)
    (tuples : list (list Z)) (context : PresolveContext) : PresolveContext :=
  context.

(** The columns of the tuples kept by the expansion of a table. *)
Definition kept_tuples (context : PresolveContext) (vars : list Z)
    (tuples : list (list Z)) : list (list Z) :=
  filter (fun tuple => keep_tuple context vars tuple = true) tuples.

Definition column_values (tuples : list (list Z)) (var_index : nat) : gset Z :=
  list_to_set (map (fun tuple => ref_at tuple var_index) tuples).

(** A table on the variable 0 twice, in [0, 2], with the tuple (1, 2). *)
Definition repeated_variable_context : PresolveContext :=
  context_of_model default_params [[0; 2]]
    [plain (kTable (TableConstraintProto.mk [0; 0] [1; 2] false))].

(** ** Predicates on the solutions across the steps of an expansion *)

(** Two contexts over the same variables with the same solutions. *)
Definition same_solutions (other_holds : assignment -> Constraint -> bool)
    (context context' : PresolveContext) : Prop :=
  variables_size context' = variables_size context
  /\ forall s, solution other_holds s context' = solution other_holds s context.

(** What is assumed of a model and of its constraint [ct] of index [c]
    before an expansion that reads the domains. *)
Definition expansion_input (other_holds : assignment -> Constraint -> bool)
    (context : PresolveContext) (c : nat) (ct : ConstraintProto.t) : Prop :=
  well_formed_input other_holds context c ct
  /\ forallb sorted_intervals (domains context) = true.

(** The constraint of [AddImplyInDomain]. *)
Definition imply_in_domain (b x : Z) (d : Domain.t) : ConstraintProto.t :=
  ConstraintProto.mk [b]
    (kLinear (LinearConstraintProto.mk [x] [1] (FillDomainInProto d))).

(** The domain has at most one value. *)
Definition at_most_one_value (d : Domain.t) : Prop :=
  forall x y, Domain.Contains d x = true -> Domain.Contains d y = true -> x = y.

(** The element constraint [vars[index] == index] on the index 0 in [0, 2]
    and the array of the variables 1 in [0, 5], 2 fixed at 1 and 3 fixed
    at 4. *)
Definition self_element : ElementConstraintProto.t := ElementConstraintProto.mk 0 0 [1; 2; 3].

Definition self_element_context : PresolveContext :=
  context_of_model default_params [[0; 2]; [0; 5]; [1; 1]; [4; 4]]
    [plain (kElement self_element)].

(** ** The expansion of an element constraint on an array of constants *)

(** The variables of [context'] are those of [context] and one Boolean
    variable for each key of [created], in this order, which is the literal
    of its key in the cache; the cache keeps its entries. *)
Definition literal_growth (context context' : PresolveContext)
    (created : list (Z * Z)) : Prop :=
  let n := variables_size context in
  domains context' = domains context ++ replicate (length created) bool_domain
  /\ variables_size context' = n + Z.of_nat (length created)
  /\ (forall j key, created !! j = Some key ->
        encoding context' !! key = Some (n + Z.of_nat j) /\ 0 <= key.1 < n)
  /\ encoding_stable context context'
  /\ is_unsat context' = is_unsat context
  /\ initialized context'.

(** The clause of the array value [wt.1], whose target literal is [wt.2],
    after the indices [p] of literals [lits]. *)
Definition support_clause (context : PresolveContext) (element : ElementConstraintProto.t)
    (p lits : list Z) (wt : Z * Z) : ConstraintProto.t :=
  plain (kBoolOr (NegatedRef wt.2 :: literals_of_value context element wt.1 p lits)).

(** The supports [supports] are the clauses of the values [sup], in this
    order, after the constraints [base]. *)
Definition supports_of_clauses (base : list ConstraintProto.t) (sup : list (Z * Z))
    (supports : gmap Z nat) : Prop :=
  (forall w k, supports !! w = Some k
               <-> exists j T, sup !! j = Some (w, T) /\ k = (length base + j)%nat)
  /\ NoDup sup.*1.

(** Invariant of the first loop of [ExpandConstantArrayElement], after the
    indices [p]: the whole of the constraints, of the variables and of the
    cache.  [sup] lists the values met twice with their target literals and
    [created] the keys of the literals created. *)
Definition constant_support_invariant (context0 : PresolveContext)
    (element : ElementConstraintProto.t) (p : list Z) (sup created : list (Z * Z))
    (st : gmap Z nat * gmap Z nat * PresolveContext) : Prop :=
  let '(usage, supports, context) := st in
  let target := ElementConstraintProto.target element in
  (forall w, count_of usage w = length (indices_of_value context0 element w p))
  /\ supports_of_clauses (constraints context0) sup supports
  /\ (forall w, w ∈ sup.*1 <-> (2 <= length (indices_of_value context0 element w p))%nat)
  /\ Forall (fun wt : Z * Z => encoding context !! encoding_key target wt.1 = Some wt.2) sup
  /\ constraints context
     = constraints context0 ++ map (support_clause context0 element [] []) sup
  /\ encoding_growth context0 context created
  /\ initialized context.

(** Invariant of the second loop of [ExpandConstantArrayElement], after the
    indices [p], whose literals are [lits]: the whole of the constraints
    (the clauses of the supports, the exactly-one and the implications
    [imps], after the constraints [base]), of the variables, of the cache
    and of the stored equalities. *)
Definition constant_link_invariant (context0 : PresolveContext)
    (element : ElementConstraintProto.t) (supports : gmap Z nat) (sup : list (Z * Z))
    (base : list ConstraintProto.t) (p lits : list Z) (created : list (Z * Z))
    (imps : list ConstraintProto.t) (context : PresolveContext) : Prop :=
  let index := ElementConstraintProto.index element in
  let target := ElementConstraintProto.target element in
  let n := variables_size context0 in
  let value := array_value context0 element in
  Forall2 (fun v l => encoding context !! encoding_key index v = Some l) p lits
  /\ constraints context
     = base ++ map (support_clause context0 element p lits) sup
         ++ plain (kExactlyOne lits) :: imps
  /\ literal_growth context0 context created
  /\ Forall (fun wt : Z * Z => encoding context !! encoding_key target wt.1 = Some wt.2) sup
  /\ (forall key lit, encoding context !! key = Some lit ->
        encoding context0 !! key = Some lit
        \/ (exists j, created !! j = Some key /\ lit = n + Z.of_nat j)
        \/ (exists k v, p !! k = Some v /\ lits !! k = Some lit
                        /\ key = encoding_key target (value v)
                        /\ supports !! value v = None))
  /\ (forall ab, ab ∈ equalities context0 -> ab ∈ equalities context)
  /\ (forall l b, (l, b) ∈ equalities context ->
        (l, b) ∈ equalities context0
        \/ (exists k v, p !! k = Some v /\ lits !! k = Some l
                        /\ supports !! value v = None
                        /\ encoding context !! encoding_key target (value v) = Some b))
  /\ (forall k v l, p !! k = Some v -> lits !! k = Some l ->
        exists b, encoding context !! encoding_key target (value v) = Some b
                  /\ match supports !! value v with
                     | Some _ => implication l b ∈ imps
                     | None => b = l \/ (l, b) ∈ equalities context
                     end)
  /\ (forall ct, ct ∈ imps ->
        exists k v l T, p !! k = Some v /\ lits !! k = Some l
                        /\ encoding context !! encoding_key target (value v) = Some T
                        /\ ct = implication l T).

(** ** Negated tables *)

(** The compressed tuples stand for the tuples of the table: an assignment
    within the domains matches one of them exactly when the values of the
    variables are a tuple of the table. *)
Definition exact_compression (CompressTuples : list Z -> list (list Z) -> list (list Z))
    (any : Z) (context : PresolveContext) (table : TableConstraintProto.t) : Prop :=
  forall s, domains_hold s (domains context) = true ->
    (exists tuple, tuple ∈ forbidden_tuples CompressTuples context table
                   /\ matches_tuple any s (TableConstraintProto.vars table) tuple)
    <-> map (ref_value s) (TableConstraintProto.vars table) ∈ table_tuples table.

(** ** The solutions of an inverse constraint *)

(** Every entry of [a] is a position of [b] whose entry is its position. *)
Definition inverse_points (s : assignment) (a b : list Z) : bool :=
  forallb (fun i : nat =>
             let v := ref_value s (ref_at a i) in
             (0 <=? v) && (v <? Z.of_nat (length a))
             && (ref_value s (ref_at b (Z.to_nat v)) =? Z.of_nat i))
          (seq 0 (length a)).

(** Modelled from the spec: the meaning of an inverse constraint of
    [cp_model.proto], "both length n, meaning f_inverse[f_direct[i]] == i",
    and "vice versa". *)
Definition inverse_holds (s : assignment) (inverse : InverseConstraintProto.t) : bool :=
  inverse_points s (InverseConstraintProto.f_direct inverse)
    (InverseConstraintProto.f_inverse inverse)
  && inverse_points s (InverseConstraintProto.f_inverse inverse)
       (InverseConstraintProto.f_direct inverse).

(** The meaning of the constraints in a model with inverse constraints. *)
Definition inverse_semantics (s : assignment) (k : Constraint) : bool :=
  match k with
  | kInverse inverse => inverse_holds s inverse
  | _ => true
  end.

(** The values of the references [refs] in a context are positions below
    [n]. *)
Definition positions_below (n : nat) (refs : list Z) (context : PresolveContext) : Prop :=
  forall ref v, ref ∈ refs -> Domain.Contains (DomainOf context ref) v = true ->
                0 <= v < Z.of_nat n.

(** The domains of [direct] in [context'] are those of [context] without the
    values [j] such that [i] is not a value of [inverse[j]]; the other
    domains are the same. *)
Definition inverse_filtered (direct inverse : list Z) (context context' : PresolveContext)
    : Prop :=
  (forall i j, (i < length direct)%nat ->
     Domain.Contains (DomainOf context' (ref_at direct i)) j = true
     <-> Domain.Contains (DomainOf context (ref_at direct i)) j = true
         /\ Domain.Contains (DomainOf context (ref_at inverse (Z.to_nat j))) (Z.of_nat i)
            = true)
  /\ (forall ref, PositiveRef ref ∉ map PositiveRef direct ->
                  DomainOf context' ref = DomainOf context ref).

(** The cache and the stored equalities of a context mean what they say. *)
Definition cache_holds (s : assignment) (context : PresolveContext) : Prop :=
  encoding_holds s (encoding context) = true
  /\ equalities_hold s (equalities context) = true.

(** Invariant of the last loop of [ExpandInverse], after the pairs [pairs]
    of an index and of a value: the variables and the cache grow by the
    literals of the keys [created], the literals of the two sides of every
    pair are shared, and the cache and the stored equalities mean what they
    say in every extension of an assignment [s] for which they did and in
    which the two sides of every pair are equivalent. *)
Definition inverse_share_invariant (context0 : PresolveContext) (f_direct f_inverse : list Z)
    (pairs : list (nat * Z)) (created : list (Z * Z)) (context : PresolveContext) : Prop :=
  literal_growth context0 context created
  /\ constraints context = constraints context0
  /\ (forall ab, ab ∈ equalities context0 -> ab ∈ equalities context)
  /\ (forall i j, (i, j) ∈ pairs ->
        literals_shared context (ref_at f_direct i) j
          (ref_at f_inverse (Z.to_nat j)) (Z.of_nat i))
  /\ (forall s,
        cache_holds s context0 ->
        (forall i j, (i, j) ∈ pairs ->
           ref_value s (ref_at f_direct i) = j
           <-> ref_value s (ref_at f_inverse (Z.to_nat j)) = Z.of_nat i) ->
        forall rest,
          cache_holds
            (override s (variables_size context0) (created_values s (created ++ rest)))
            context).

(** A context reached from [context] by reductions of domains that keep
    the solutions, on which the expansion of the constraint [ct] of index
    [c] goes on. *)
Definition reduced_model (other_holds : assignment -> Constraint -> bool)
    (c : nat) (ct : ConstraintProto.t) (context ctx : PresolveContext) : Prop :=
  same_solutions other_holds context ctx /\ expansion_input other_holds ctx c ct.

(** A context reached from [context], which had no solution, and declared
    infeasible. *)
Definition infeasible_model (other_holds : assignment -> Constraint -> bool)
    (context ctx : PresolveContext) : Prop :=
  same_solutions other_holds context ctx /\ is_unsat ctx = true.

(** The pairs of an index of [f_direct] and of a value of its domain. *)
Definition inverse_pairs (context : PresolveContext) (f_direct : list Z)
    (indices : list nat) : list (nat * Z) :=
  flat_map (fun i => map (pair i) (Domain.Values (DomainOf context (ref_at f_direct i))))
           indices.

(** ** The solutions of an all-different constraint *)

(** An expression with one term at most. *)
Definition affine (e : LinearExpressionProto.t) : Prop :=
  (length (LinearExpressionProto.vars e) <= 1)%nat
  /\ length (LinearExpressionProto.coeffs e) = length (LinearExpressionProto.vars e).

(** The offset, the term and the value of an expression are 64-bit integers
    whatever the value of its variable in its domain. *)
Definition expr_in_int64 (context : PresolveContext) (e : LinearExpressionProto.t) : Prop :=
  kint64min <= LinearExpressionProto.offset e <= kint64max
  /\ forall var coeff x, terms e = [(var, coeff)] ->
       Domain.Contains (DomainOf context var) x = true ->
       kint64min <= coeff * x <= kint64max
       /\ kint64min <= coeff * x + LinearExpressionProto.offset e <= kint64max.

(** The literal [true_literal] of a context, when there is one, is a
    variable of the model whose only value is 1. *)
Definition true_literal_valid (context : PresolveContext) : Prop :=
  forall l, true_literal context = Some l ->
    0 <= l < variables_size context
    /\ forall x, Domain.Contains (domain_of_var context l) x = true -> x = 1.

(** The part of a solution that is not the constraints: the context is
    feasible, the values are in the domains, and the cache and the stored
    equalities mean what they say. *)
Definition store_holds (s : assignment) (context : PresolveContext) : bool :=
  negb (is_unsat context)
  && domains_hold s (domains context)
  && encoding_holds s (encoding context)
  && equalities_hold s (equalities context).

(** A solution of the model but for the constraint of index [c]. *)
Definition solution_but (other_holds : assignment -> Constraint -> bool) (c : nat)
    (s : assignment) (context : PresolveContext) : Prop :=
  store_holds s context = true
  /\ forall i ct, i <> c -> constraints context !! i = Some ct ->
       holds other_holds s ct = true.

(** The value of a variable created by [GetOrCreateAffineValueEncoding]:
    the literal of the key [key] of the cache, or the true literal. *)
Definition new_value (s : assignment) (d : option (Z * Z)) : Z :=
  match d with Some key => Z.b2z (s key.1 =? key.2) | None => 1 end.

(** The variables [n], [n + 1], ... have the values of [news]. *)
Definition news_right (n : Z) (news : list (option (Z * Z))) (s : assignment) : Prop :=
  forall j d, news !! j = Some d -> s (n + Z.of_nat j) = new_value s d.

Definition keys_below (n : Z) (news : list (option (Z * Z))) : Prop :=
  forall key, Some key ∈ news -> 0 <= key.1 < n.

(** The number of the expressions of value [v]. *)
Definition value_count (s : assignment) (exprs : list LinearExpressionProto.t) (v : Z) : nat :=
  length (filter (fun e => expr_value s e = v) exprs).

(** The variables and the store of [context'] are those of [context] and
    the variables [news], with their meaning. *)
Definition store_growth (context context' : PresolveContext)
    (news : list (option (Z * Z))) : Prop :=
  variables_size context' = variables_size context + Z.of_nat (length news)
  /\ initialized context'
  /\ domains_prefix context context'
  /\ forallb sorted_intervals (domains context') = true
  /\ true_literal_valid context'
  /\ forall s, store_holds s context' = true
               <-> store_holds s context = true
                   /\ news_right (variables_size context) news s.

(** Invariant of the loop of [MaybeExpandAllDiff] on the all-different
    constraint of index [c] of [context0] over [exprs], after the values
    [done]: the variables [news] were created, a solution of [context0] with
    the right values of [news] is a solution of [context], and what
    satisfies [context] but for the constraint [c] satisfies [context0] but
    for it, gives [news] their values and gives each value of [done] to one
    expression at most. *)
Definition all_diff_invariant (other_holds : assignment -> Constraint -> bool) (c : nat)
    (context0 : PresolveContext) (exprs : list LinearExpressionProto.t)
    (done : list Z) (news : list (option (Z * Z))) (context : PresolveContext) : Prop :=
  variables_size context = variables_size context0 + Z.of_nat (length news)
  /\ initialized context
  /\ forallb sorted_intervals (domains context) = true
  /\ (exists added, constraints context = constraints context0 ++ added)
  /\ keys_below (variables_size context0) news
  /\ true_literal_valid context
  /\ (forall s, solution other_holds s context0 = true ->
                news_right (variables_size context0) news s ->
                solution other_holds s context = true)
  /\ (forall s, solution_but other_holds c s context ->
        solution_but other_holds c s context0
        /\ news_right (variables_size context0) news s
        /\ forall v, v ∈ done -> (value_count s exprs v <= 1)%nat).

(** A failed expansion: the model is declared infeasible and [context0] had
    no solution. *)
Definition all_diff_failure (other_holds : assignment -> Constraint -> bool)
    (context0 context : PresolveContext) : Prop :=
  is_unsat context = true /\ forall s, solution other_holds s context0 = false.

(** The constraint of one value: [exactly_one] on a permutation and
    [at_most_one] otherwise. *)
Definition one_value_constraint (is_a_permutation : bool) (lits : list Z) : ConstraintProto.t :=
  plain (if is_a_permutation then kExactlyOne lits else kAtMostOne lits).

(** A context reached from [context1] in the propagation of a fixed
    expression: the invariant holds, the store is smaller and the fixed
    expressions are still fixed. *)
Definition all_diff_reduced (other_holds : assignment -> Constraint -> bool) (c : nat)
    (context0 : PresolveContext) (exprs : list LinearExpressionProto.t)
    (done : list Z) (news : list (option (Z * Z))) (context1 context : PresolveContext)
    : Prop :=
  all_diff_invariant other_holds c context0 exprs done news context
  /\ (forall s, store_holds s context = true -> store_holds s context1 = true)
  /\ (forall e, IsFixedExpr context1 e = true -> IsFixedExpr context e = true).

(** An all-different over three variables, the second one fixed at 1, whose
    values are a permutation of [0, 2]. *)
Definition permutation_all_diff : list LinearExpressionProto.t :=
  [single_var_expr 0; single_var_expr 1; single_var_expr 2].

Definition permutation_all_diff_context : PresolveContext :=
  UpdateNewConstraintsVariableUsage
    (context_of_model default_params [[0; 2]; [1; 1]; [0; 2]]
       [plain (kAllDiff permutation_all_diff)]).

(** ** The solutions of an integer modulo *)

(** The variables of the two expressions are different. *)
Definition other_variables (e e' : LinearExpressionProto.t) : Prop :=
  forall ref ref', ref ∈ expr_refs e -> ref' ∈ expr_refs e' ->
    PositiveRef ref <> PositiveRef ref'.

Definition nonzero_coeffs (e : LinearExpressionProto.t) : Prop :=
  Forall (fun coeff => coeff <> 0) (LinearExpressionProto.coeffs e).

(** [t == x mod m] over [t] in [0, 5], [x] in [0, 9] and [m] in [2, 3]
    (variables 0, 1 and 2). *)
Definition small_int_mod : LinearArgumentProto.t :=
  LinearArgumentProto.mk (single_var_expr 0) [single_var_expr 1; single_var_expr 2].

Definition small_int_mod_context : PresolveContext :=
  context_of_model default_params [[0; 5]; [0; 9]; [2; 3]] [plain (kIntMod small_int_mod)].

(** [b => t == x mod m] over [b] in [0, 1], [x] in [0, 10], [m] in [2, 3]
    and [t] in [5, 9] (variables 0 to 3), and an assignment in which the
    constraint is not enforced. *)
Definition enforced_modulo_context : PresolveContext :=
  context_of_model default_params [[0; 1]; [0; 10]; [2; 3]; [5; 9]]
    [ConstraintProto.mk [0]
       (kIntMod (LinearArgumentProto.mk (single_var_expr 3)
                   [single_var_expr 1; single_var_expr 2]))].

Definition modulo_not_enforced : assignment :=
  fun v => if v =? 2 then 2 else if v =? 3 then 5 else 0.

(** [t == x mod m] over [t] in [-2, 0], [x] in [-5, -3] and [m] in [2, 3]
    (variables 0, 1 and 2), and the solution [-2 == -5 mod 3]. *)
Definition negative_modulo_context : PresolveContext :=
  context_of_model default_params [[-2; 0]; [-5; -3]; [2; 3]] [plain (kIntMod small_int_mod)].

Definition negative_modulo_solution : assignment :=
  fun v => if v =? 0 then -2 else if v =? 1 then -5 else 3.

(** ** The solutions of a reservoir *)

Definition sum_over {A : Type} (f : A -> Z) (l : list A) : Z :=
  foldr Z.add 0 (map f l).

Definition event_active (s : assignment) (r : ReservoirConstraintProto.t) (i : nat) : bool :=
  match ReservoirConstraintProto.active_literals r with
  | [] => true
  | lits => literal_value s (ref_at lits i)
  end.

Definition event_time (s : assignment) (r : ReservoirConstraintProto.t) (i : nat) : Z :=
  expr_value s (expr_at (ReservoirConstraintProto.time_exprs r) i).

Definition event_change (s : assignment) (r : ReservoirConstraintProto.t) (i : nat) : Z :=
  expr_value s (expr_at (ReservoirConstraintProto.level_changes r) i).

(** The level of the reservoir at time [t]: the sum of the level changes of
    the active events whose time is [t] at most. *)
Definition level_at (s : assignment) (r : ReservoirConstraintProto.t) (t : Z) : Z :=
  sum_over (fun j => if event_active s r j && (event_time s r j <=? t)
                     then event_change s r j else 0)
           (seq 0 (length (ReservoirConstraintProto.time_exprs r))).

(** The sum of the level changes of the active events. *)
Definition total_change (s : assignment) (r : ReservoirConstraintProto.t) : Z :=
  sum_over (fun j => if event_active s r j then event_change s r j else 0)
           (seq 0 (length (ReservoirConstraintProto.time_exprs r))).

(** Modelled from the spec: the meaning of a reservoir constraint, "the
    running level just after" each active event, which counts every active
    event that is not later, is "bounded to [min_level, max_level]"; the
    events of a same time take place together. *)
Definition reservoir_holds (s : assignment) (r : ReservoirConstraintProto.t) : bool :=
  forallb (fun i =>
             implb (event_active s r i)
                   ((ReservoirConstraintProto.min_level r <=? level_at s r (event_time s r i))
                    && (level_at s r (event_time s r i)
                        <=? ReservoirConstraintProto.max_level r)))
          (seq 0 (length (ReservoirConstraintProto.time_exprs r))).

(** Modelled from the spec: the meaning of the cache of reified
    precedences, whose literals "satisfy
    [P(i,j) <=> (time[i] <= time[j] /\ active[i] /\ active[j])]". *)
Definition precedence_value (s : assignment) (k : PrecedenceKey) : bool :=
  (expr_value s k.1.1.1 <=? expr_value s k.1.1.2)
  && literal_value s k.1.2 && literal_value s k.2.

Definition precedences_hold (s : assignment) (cache : list (PrecedenceKey * Z)) : bool :=
  forallb (fun e : PrecedenceKey * Z =>
             Bool.eqb (literal_value s e.2) (precedence_value s e.1)) cache.

(** A solution of the model in which the literals of the cache of
    precedences mean what they say. *)
Definition precedence_solution (other_holds : assignment -> Constraint -> bool)
    (s : assignment) (context : PresolveContext) : bool :=
  solution other_holds s context
  && precedences_hold s (reified_precedences_cache context).

(** [preserves_solutions] and [determines_new_variables] for these
    solutions. *)
Definition preserves_precedence_solutions
    (other_holds : assignment -> Constraint -> bool)
    (context context' : PresolveContext) : Prop :=
  (forall s, precedence_solution other_holds s context' = true ->
             precedence_solution other_holds s context = true)
  /\ (forall s, precedence_solution other_holds s context = true ->
        exists s', agree (variables_size context) s s'
                   /\ precedence_solution other_holds s' context' = true).

Definition determines_precedence_variables
    (other_holds : assignment -> Constraint -> bool)
    (context context' : PresolveContext) : Prop :=
  forall s1 s2,
    precedence_solution other_holds s1 context' = true ->
    precedence_solution other_holds s2 context' = true ->
    agree (variables_size context) s1 s2 -> agree (variables_size context') s1 s2.

(** The only values of the variable of a literal are 0 and 1. *)
Definition boolean_literal (context : PresolveContext) (lit : Z) : Prop :=
  forall x, Domain.Contains (domain_of_var context (PositiveRef lit)) x = true ->
            x = 0 \/ x = 1.

Definition key_below (n : Z) (k : PrecedenceKey) : Prop :=
  Forall (fun ref => PositiveRef ref < n)
         (expr_refs k.1.1.1 ++ expr_refs k.1.1.2 ++ [k.1.2; k.2]).

(** The literals of the cache of precedences are Boolean variables of the
    model, and so are the variables of their keys. *)
Definition precedence_cache_valid (context : PresolveContext) : Prop :=
  forall k lit, (k, lit) ∈ reified_precedences_cache context ->
    0 <= lit < variables_size context
    /\ boolean_literal context lit
    /\ key_below (variables_size context) k.

(** The test of [ExpandReservoir]: level changes of both signs. *)
Definition mixed_signs (context : PresolveContext) (r : ReservoirConstraintProto.t) : bool :=
  let demands := map (FixedValueExpr context) (ReservoirConstraintProto.level_changes r) in
  let num_positives := length (filter (fun d => 0 < d) demands) in
  let num_negatives := length (filter (fun d => d < 0) demands) in
  (0 <? num_positives)%nat && (0 <? num_negatives)%nat.

(** A reservoir that [ExpandCpModel] expands: as many level changes as
    times, and as many active literals or none; the level 0 is allowed; the
    level changes are fixed; the active literals are Boolean; the bounds of
    the level less a level change are 64-bit integers. *)
Definition valid_reservoir (context : PresolveContext) (r : ReservoirConstraintProto.t)
    : Prop :=
  length (ReservoirConstraintProto.level_changes r)
  = length (ReservoirConstraintProto.time_exprs r)
  /\ (ReservoirConstraintProto.active_literals r = []
      \/ length (ReservoirConstraintProto.active_literals r)
         = length (ReservoirConstraintProto.time_exprs r))
  /\ ReservoirConstraintProto.min_level r <= 0 <= ReservoirConstraintProto.max_level r
  /\ Forall (fun e => IsFixedExpr context e = true) (ReservoirConstraintProto.level_changes r)
  /\ Forall (boolean_literal context) (ReservoirConstraintProto.active_literals r)
  /\ Forall (fun e =>
               kint64min <= ReservoirConstraintProto.min_level r - FixedValueExpr context e
                         <= kint64max
               /\ kint64min <= ReservoirConstraintProto.max_level r - FixedValueExpr context e
                            <= kint64max)
            (ReservoirConstraintProto.level_changes r).

(** The key of the precedence of the event [i] over the event [j]. *)
Definition precedence_key (r : ReservoirConstraintProto.t) (true_literal : Z) (i j : nat)
    : PrecedenceKey :=
  (expr_at (ReservoirConstraintProto.time_exprs r) i,
   expr_at (ReservoirConstraintProto.time_exprs r) j,
   is_active_literal r true_literal i,
   is_active_literal r true_literal j).

(** The variables and the cache of [context'] are those of [context] and
    one Boolean variable for each key of [created], in this order, which is
    the literal of its key in the cache of precedences. *)
Definition precedence_growth (context context' : PresolveContext)
    (created : list PrecedenceKey) : Prop :=
  domains context' = domains context ++ replicate (length created) bool_domain
  /\ variables_size context' = variables_size context + Z.of_nat (length created)
  /\ initialized context'
  /\ constraints context' = constraints context
  /\ encoding context' = encoding context
  /\ equalities context' = equalities context
  /\ is_unsat context' = is_unsat context
  /\ reified_precedences_cache context'
     = reified_precedences_cache context
       ++ imap (fun j k => (k, variables_size context + Z.of_nat j)) created
  /\ Forall (key_below (variables_size context)) created.

(** The level constraint of the event [i]. *)
Definition level_constraint (r : ReservoirConstraintProto.t) (true_literal : Z)
    (precedence_cache : gmap (nat * nat) Z) (context : PresolveContext) (i : nat)
    : ConstraintProto.t :=
  let '(vars, coeffs, offset) :=
    foldl (reservoir_contribution r true_literal precedence_cache context i)
          ([], [], 0) (seq 0 (length (ReservoirConstraintProto.time_exprs r))) in
  let demand_i :=
    FixedValueExpr context (expr_at (ReservoirConstraintProto.level_changes r) i) in
  ConstraintProto.mk [is_active_literal r true_literal i]
    (kLinear (LinearConstraintProto.mk vars coeffs
       [CapAdd (CapSub (ReservoirConstraintProto.min_level r) demand_i) offset;
        CapAdd (CapSub (ReservoirConstraintProto.max_level r) demand_i) offset])).

(** The literals of the local cache of [ExpandReservoir] are in the cache
    of precedences of the context, under the keys of their events. *)
Definition precedences_cached (r : ReservoirConstraintProto.t) (true_literal : Z)
    (precedence_cache : gmap (nat * nat) Z) (context : PresolveContext) : Prop :=
  forall i j lit, precedence_cache !! (i, j) = Some lit ->
    (precedence_key r true_literal i j, lit) ∈ reified_precedences_cache context.

(** Invariant of the loops of [ExpandReservoir] that create the literals. *)
Definition reservoir_invariant (r : ReservoirConstraintProto.t) (true_literal : Z)
    (context1 : PresolveContext) (st : gmap (nat * nat) Z * PresolveContext) : Prop :=
  (exists created, precedence_growth context1 st.2 created)
  /\ precedences_cached r true_literal st.1 st.2.

(** The outcome of [ExpandReservoir] on the reservoir [r] of index [c]: the
    variables of domains [extra] (the true literal when it is created) and one
    Boolean variable for each key of [created] are appended, the constraint
    is cleared, and the constraints [news], which mean that the reservoir
    holds, are appended. *)
Definition reservoir_expansion (other_holds : assignment -> Constraint -> bool)
    (context context' : PresolveContext) (c : nat) (r : ReservoirConstraintProto.t)
    (extra : list Domain.t) (created : list PrecedenceKey)
    (news : list ConstraintProto.t) : Prop :=
  let n1 := variables_size context + Z.of_nat (length extra) in
  (extra = [] \/ extra = [Domain.Value 1])
  /\ domains context' = domains context ++ extra ++ replicate (length created) bool_domain
  /\ variables_size context' = n1 + Z.of_nat (length created)
  /\ constraints context' = <[c := ConstraintProto.cleared]> (constraints context) ++ news
  /\ encoding context' = encoding context
  /\ equalities context' = equalities context
  /\ is_unsat context' = is_unsat context
  /\ reified_precedences_cache context'
     = reified_precedences_cache context
       ++ imap (fun j k => (k, n1 + Z.of_nat j)) created
  /\ Forall (key_below n1) created
  /\ forall s, domains_hold s (domains context') = true ->
       precedences_hold s (reified_precedences_cache context') = true ->
       ((forall ct, ct ∈ news -> holds other_holds s ct = true)
        <-> reservoir_holds s r = true).

(** The meaning of the constraints in a model with reservoirs. *)
Definition reservoir_semantics (s : assignment) (k : Constraint) : bool :=
  match k with
  | kReservoir r => reservoir_holds s r
  | _ => true
  end.

(** Two events at the times of the variables 0 and 1, in [0, 2], that
    change the level by +1 and by -1, and a level in [0, 1]. *)
Definition fill_and_drain : ReservoirConstraintProto.t :=
  ReservoirConstraintProto.mk 0 1 [single_var_expr 0; single_var_expr 1]
    [LinearExpressionProto.mk [] [] 1; LinearExpressionProto.mk [] [] (-1)] [].

Definition fill_and_drain_context : PresolveContext :=
  context_of_model default_params [[0; 2]; [0; 2]] [plain (kReservoir fill_and_drain)].

(** One event at time 0 that changes the level by +1, active when the
    Boolean variable 0 is false, a level in [0, 1], and the solution in
    which the event is not active. *)
Definition negated_event : ReservoirConstraintProto.t :=
  ReservoirConstraintProto.mk 0 1 [LinearExpressionProto.mk [] [] 0]
    [LinearExpressionProto.mk [] [] 1] [NegatedRef 0].

Definition negated_event_context : PresolveContext :=
  context_of_model default_params [[0; 1]] [plain (kReservoir negated_event)].

Definition event_not_active : assignment := fun _ => 1.

(** * Properties of the model *)

(** ** Domains *)

Module DomainFacts.
Import Domain.

Lemma above_weaken (lo lo' : Z) (d : t) : lo' <= lo -> above lo d -> above lo' d.
Proof. destruct d as [|i d]; simpl; [done|]. intros ? (? & ? & ?). repeat split; auto; lia. Qed.

Lemma above_valid (lo : Z) (d : t) : above lo d -> valid_domain d.
Proof. destruct d as [|i d]; simpl; [done|]. tauto. Qed.

Lemma above_not_Contains (lo v : Z) (d : t) : above lo d -> v <= lo -> Contains d v = false.
Proof.
  revert lo. induction d as [|i d IH]; intros lo; simpl; [done|].
  intros (Hlo & Hi & Hd) Hv. unfold in_interval at 1.
  rewrite (IH (i.2 + 1)) by (auto; lia).
  destruct (Z.leb_spec i.1 v); simpl; [lia | done].
Qed.

Lemma above_insert_interval (lo : Z) (i : Z * Z) (d : t) :
  i.1 <= i.2 -> lo < i.1 -> above lo d -> above lo (insert_interval i d).
Proof.
  revert lo i. induction d as [|j d IH]; intros lo i Hi Hlo; simpl.
  - auto.
  - intros (Hj1 & Hj & Hd).
    destruct (Z.ltb_spec (i.2 + 1) j.1).
    + simpl. repeat split; auto; lia.
    + destruct (Z.ltb_spec (j.2 + 1) i.1).
      * simpl. repeat split; auto; try lia.
      * apply IH; simpl; try lia.
        eapply above_weaken; [|exact Hd]. lia.
Qed.

Lemma valid_insert_interval (i : Z * Z) (d : t) :
  i.1 <= i.2 -> valid_domain d -> valid_domain (insert_interval i d).
Proof.
  intros Hi Hd. apply (above_valid (Z.min i.1 (Min d) - 1)).
  apply above_insert_interval; [done | lia |].
  destruct d as [|j d]; simpl in *; [done|].
  destruct Hd. repeat split; auto. lia.
Qed.

Lemma Contains_insert_interval (i : Z * Z) (d : t) (v : Z) :
  i.1 <= i.2 -> valid_domain d ->
  Contains (insert_interval i d) v = in_interval i v || Contains d v.
Proof.
  revert i. induction d as [|j d IH]; intros i Hi Hd; simpl.
  - reflexivity.
  - destruct Hd as (Hj & Hd).
    destruct (Z.ltb_spec (i.2 + 1) j.1); [reflexivity|].
    destruct (Z.ltb_spec (j.2 + 1) i.1).
    + simpl. rewrite IH by (auto; eapply above_valid; eauto).
      destruct (in_interval i v), (in_interval j v); reflexivity.
    + rewrite IH by (simpl; try lia; eapply above_valid; eauto).
      unfold in_interval. simpl.
      destruct (Z.leb_spec (Z.min i.1 j.1) v), (Z.leb_spec v (Z.max i.2 j.2)),
        (Z.leb_spec i.1 v), (Z.leb_spec v i.2), (Z.leb_spec j.1 v), (Z.leb_spec v j.2);
        simpl; try reflexivity; try lia.
Qed.

Lemma valid_normalise (l : list (Z * Z)) : valid_domain (normalise l).
Proof.
  induction l as [|i l IH]; simpl; [done|].
  destruct (Z.leb_spec i.1 i.2); [|done]. by apply valid_insert_interval.
Qed.

Lemma Contains_normalise (l : list (Z * Z)) (v : Z) :
  Contains (normalise l) v = existsb (fun i => in_interval i v) l.
Proof.
  induction l as [|i l IH]; simpl; [done|].
  destruct (Z.leb_spec i.1 i.2).
  - rewrite Contains_insert_interval by (auto using valid_normalise). by rewrite IH.
  - rewrite IH. unfold in_interval at 2.
    destruct (Z.leb_spec i.1 v), (Z.leb_spec v i.2); simpl; try reflexivity; lia.
Qed.

Lemma normalise_valid (d : t) : valid_domain d -> normalise d = d.
Proof.
  induction d as [|i d IH]; simpl; [done|].
  intros (Hi & Hd). rewrite IH by (eapply above_valid; eauto).
  destruct (Z.leb_spec i.1 i.2); [|lia].
  destruct d as [|j d]; simpl; [done|].
  destruct Hd as (Hj & _). destruct (Z.ltb_spec (i.2 + 1) j.1); [done | lia].
Qed.

Lemma pair_up_FillDomainInProto (d : t) : pair_up (FillDomainInProto d) = d.
Proof. induction d as [|[lo hi] d IH]; simpl; [done|]. by rewrite IH. Qed.

Lemma ReadDomainFromProto_FillDomainInProto (d : t) :
  valid_domain d -> ReadDomainFromProto (FillDomainInProto d) = d.
Proof.
  intros Hd. unfold ReadDomainFromProto. rewrite pair_up_FillDomainInProto.
  by apply normalise_valid.
Qed.

Lemma valid_Range (lo hi : Z) : valid_domain (Range lo hi).
Proof. unfold Range. destruct (Z.leb_spec lo hi); simpl; auto. Qed.

Lemma valid_Value (v : Z) : valid_domain (Value v).
Proof. simpl. split; [lia | done]. Qed.

Lemma Contains_Range (lo hi v : Z) :
  Contains (Range lo hi) v = (lo <=? v) && (v <=? hi).
Proof.
  unfold Range. destruct (Z.leb_spec lo hi); simpl.
  - unfold in_interval. simpl. by rewrite orb_false_r.
  - destruct (Z.leb_spec lo v), (Z.leb_spec v hi); simpl; try reflexivity; lia.
Qed.

Lemma Contains_Value (x v : Z) : Contains (Value x) v = (x =? v).
Proof.
  simpl. unfold in_interval. simpl. rewrite orb_false_r.
  destruct (Z.leb_spec x v), (Z.leb_spec v x), (Z.eqb_spec x v); simpl; try reflexivity; lia.
Qed.

Lemma valid_IntersectionWith (a b : t) : valid_domain (IntersectionWith a b).
Proof. apply valid_normalise. Qed.

Lemma valid_UnionWith (a b : t) : valid_domain (UnionWith a b).
Proof. apply valid_normalise. Qed.

Lemma valid_AdditionWith (a b : t) : valid_domain (AdditionWith a b).
Proof. apply valid_normalise. Qed.

Lemma valid_FromValues (vs : list Z) : valid_domain (FromValues vs).
Proof. apply valid_normalise. Qed.

Lemma existsb_flat_map {A B : Type} (f : B -> bool) (g : A -> list B) (l : list A) :
  existsb f (flat_map g l) = existsb (fun x => existsb f (g x)) l.
Proof.
  induction l as [|x l IH]; simpl; [done|]. by rewrite existsb_app, IH.
Qed.

Lemma existsb_map {A B : Type} (f : B -> bool) (g : A -> B) (l : list A) :
  existsb f (map g l) = existsb (fun x => f (g x)) l.
Proof. induction l as [|x l IH]; simpl; [done|]. by rewrite IH. Qed.

Lemma existsb_ext_in {A : Type} (f g : A -> bool) (l : list A) :
  (forall x, f x = g x) -> existsb f l = existsb g l.
Proof. intros H. induction l as [|x l IH]; simpl; [done|]. by rewrite H, IH. Qed.

Lemma existsb_andb_const {A : Type} (b : bool) (f : A -> bool) (l : list A) :
  existsb (fun x => b && f x) l = b && existsb f l.
Proof.
  induction l as [|x l IH]; simpl; [by rewrite andb_false_r|].
  rewrite IH. destruct b, (f x); reflexivity.
Qed.

Lemma Contains_IntersectionWith (a b : t) (v : Z) :
  Contains (IntersectionWith a b) v = Contains a v && Contains b v.
Proof.
  unfold IntersectionWith. rewrite Contains_normalise, existsb_flat_map.
  unfold Contains at 2.
  induction a as [|i a IH]; simpl; [done|].
  rewrite IH, existsb_map. rewrite andb_orb_distrib_l. f_equal.
  rewrite <- existsb_andb_const. apply existsb_ext_in. intros j.
  unfold in_interval. simpl.
  destruct (Z.leb_spec (Z.max i.1 j.1) v), (Z.leb_spec v (Z.min i.2 j.2)),
    (Z.leb_spec i.1 v), (Z.leb_spec v i.2), (Z.leb_spec j.1 v), (Z.leb_spec v j.2);
    simpl; try reflexivity; lia.
Qed.

Lemma Contains_UnionWith (a b : t) (v : Z) :
  Contains (UnionWith a b) v = Contains a v || Contains b v.
Proof. unfold UnionWith. rewrite Contains_normalise. apply existsb_app. Qed.

Lemma Contains_FromValues (vs : list Z) (v : Z) :
  Contains (FromValues vs) v = true <-> v ∈ vs.
Proof.
  unfold FromValues. rewrite Contains_normalise, existsb_map, existsb_exists.
  rewrite list_elem_of_In. split.
  - intros (x & Hin & Hx). unfold in_interval in Hx. simpl in Hx.
    assert (x = v) by lia. by subst.
  - intros Hin. exists v. split; [done|]. unfold in_interval. simpl. lia.
Qed.

Lemma elem_of_Values (d : t) (v : Z) : v ∈ Values d <-> Contains d v = true.
Proof.
  unfold Values, Contains. induction d as [|i d IH]; simpl.
  - rewrite elem_of_nil. split; [done | discriminate].
  - rewrite elem_of_app, IH, elem_of_seqZ, orb_true_iff. unfold in_interval.
    rewrite andb_true_iff, !Z.leb_le. split; intros [?|?]; auto; left; lia.
Qed.

Lemma Values_above (lo : Z) (d : t) :
  above lo d -> NoDup (Values d) /\ forall v, v ∈ Values d -> lo < v.
Proof.
  revert lo. induction d as [|i d IH]; intros lo; simpl.
  - intros _. split; [constructor | intros v Hv; by apply elem_of_nil in Hv].
  - intros (Hlo & Hi & Hd). destruct (IH _ Hd) as [Hnd Hgt].
    unfold Values. simpl. fold (Values d). split.
    + apply NoDup_app. split; [apply NoDup_seqZ|]. split; [|done].
      intros v Hv Hv'. apply elem_of_seqZ in Hv. apply Hgt in Hv'. lia.
    + intros v Hv. apply elem_of_app in Hv as [Hv|Hv].
      * apply elem_of_seqZ in Hv. lia.
      * apply Hgt in Hv. lia.
Qed.

Lemma NoDup_Values (d : t) : valid_domain d -> NoDup (Values d).
Proof.
  destruct d as [|i d]; [intros _; constructor|].
  intros (Hi & Hd). apply (Values_above (i.1 - 1)). simpl. repeat split; auto; lia.
Qed.

Lemma Contains_Negation (d : t) (v : Z) : Contains (Negation d) v = Contains d (- v).
Proof.
  unfold Negation, Contains.
  assert (H : forall l : list (Z * Z),
             existsb (fun i => in_interval i v) (reverse l)
             = existsb (fun i => in_interval i v) l).
  { intros l. apply eq_true_iff_eq. rewrite !existsb_exists.
    split; intros (x & Hx & Hv); exists x; (split; [|done]).
    - apply (proj1 (list_elem_of_In _ _)), (proj1 (elem_of_reverse _ _)).
      by apply (proj2 (list_elem_of_In _ _)).
    - apply (proj1 (list_elem_of_In _ _)), (proj2 (elem_of_reverse _ _)).
      by apply (proj2 (list_elem_of_In _ _)). }
  rewrite H, existsb_map. apply existsb_ext_in. intros i.
  unfold in_interval. simpl.
  destruct (Z.leb_spec (- i.2) v), (Z.leb_spec v (- i.1)),
    (Z.leb_spec i.1 (- v)), (Z.leb_spec (- v) i.2); simpl; try reflexivity; lia.
Qed.

Lemma existsb_ext_Forall {A : Type} (f g : A -> bool) (l : list A) :
  Forall (fun x => f x = g x) l -> existsb f l = existsb g l.
Proof. induction 1 as [|x l Hx _ IH]; simpl; [done|]. by rewrite Hx, IH. Qed.

(** Shifting a domain by [k] without saturation. *)
Lemma Contains_AdditionWith_Value (d : t) (k v : Z) :
  shift_fits k d = true ->
  Contains (AdditionWith d (Value k)) v = Contains d (v - k).
Proof.
  intros Hfit. unfold AdditionWith. rewrite Contains_normalise, existsb_flat_map.
  unfold Contains. apply existsb_ext_Forall.
  unfold shift_fits in Hfit. rewrite forallb_forall in Hfit. apply Forall_forall.
  intros i Hi. apply list_elem_of_In, Hfit in Hi.
  rewrite !andb_true_iff, !Z.leb_le in Hi. destruct Hi as [[Hne Hlo] Hhi]. simpl.
  rewrite orb_false_r.
  unfold in_interval, CapAdd, saturate. simpl.
  rewrite !Z.max_r, !Z.min_r by (unfold kint64min, kint64max in *; lia).
  destruct (Z.leb_spec (i.1 + k) v), (Z.leb_spec v (i.2 + k)),
    (Z.leb_spec i.1 (v - k)), (Z.leb_spec (v - k) i.2); simpl; try reflexivity; lia.
Qed.

Lemma Contains_InverseMultiplicationBy (c : Z) (d : t) (z : Z) :
  c <> 0 -> Contains (InverseMultiplicationBy c d) z = Contains d (c * z).
Proof.
  intros Hc. unfold InverseMultiplicationBy.
  destruct (Z.eqb_spec c 0); [done|].
  assert (Habs : forall a w, 0 < a ->
            Contains (normalise (map (fun i => (- (- i.1 / a), i.2 / a)) d)) w
            = Contains d (a * w)).
  { intros a w Ha. rewrite Contains_normalise, existsb_map. unfold Contains.
    apply existsb_ext_in. intros i. unfold in_interval. simpl.
    apply eq_true_iff_eq. rewrite !andb_true_iff, !Z.leb_le.
    pose proof (Z.div_mod (- i.1) a ltac:(lia)).
    pose proof (Z.mod_pos_bound (- i.1) a Ha).
    pose proof (Z.div_mod i.2 a ltac:(lia)).
    pose proof (Z.mod_pos_bound i.2 a Ha).
    split; intros [? ?]; split; nia. }
  destruct (Z.ltb_spec c 0).
  - rewrite Contains_Negation, Habs by lia. f_equal. lia.
  - rewrite Habs by lia. f_equal. lia.
Qed.

End DomainFacts.

(** ** Frame properties of the context operations *)

Lemma IntersectDomainWith_working_model (ref : Z) (d : Domain.t) (context : PresolveContext) :
  working_model (IntersectDomainWith ref d context).2 = working_model context.
Proof.
  unfold IntersectDomainWith. destruct (decide _); [done|].
  destruct (Domain.IsEmpty _); reflexivity.
Qed.

Lemma IntersectDomainWith_length_domains (ref : Z) (d : Domain.t) (context : PresolveContext) :
  length (domains (IntersectDomainWith ref d context).2) = length (domains context).
Proof.
  unfold IntersectDomainWith. destruct (decide _); [done|].
  destruct (Domain.IsEmpty _); simpl; by rewrite length_insert.
Qed.

Lemma IntersectDomainWith_unsat (ref : Z) (d : Domain.t) (context : PresolveContext) :
  (IntersectDomainWith ref d context).1.1 = false ->
  ModelIsUnsat (IntersectDomainWith ref d context).2 = true.
Proof.
  unfold IntersectDomainWith. destruct (decide _); [done|].
  destruct (Domain.IsEmpty _); simpl; done.
Qed.

Lemma IntersectDomainWith_still_unsat (ref : Z) (d : Domain.t) (context : PresolveContext) :
  ModelIsUnsat context = true ->
  ModelIsUnsat (IntersectDomainWith ref d context).2 = true.
Proof.
  unfold IntersectDomainWith. destruct (decide _); [done|].
  destruct (Domain.IsEmpty _); simpl; done.
Qed.

Lemma IntersectDomainWith_sat (ref : Z) (d : Domain.t) (context : PresolveContext) :
  (IntersectDomainWith ref d context).1.1 = true ->
  ModelIsUnsat (IntersectDomainWith ref d context).2 = ModelIsUnsat context.
Proof.
  unfold IntersectDomainWith. destruct (decide _); [done|].
  destruct (Domain.IsEmpty _); simpl; done.
Qed.

Lemma IntersectDomainWithExpr_working_model (e : LinearExpressionProto.t) (d : Domain.t)
    (context : PresolveContext) :
  working_model (IntersectDomainWithExpr e d context).2 = working_model context.
Proof.
  unfold IntersectDomainWithExpr. destruct (terms e) as [|[var coeff] [|? ?]]; simpl.
  - by destruct (Domain.Contains _ _).
  - apply IntersectDomainWith_working_model.
  - reflexivity.
Qed.

Lemma IntersectDomainWithExpr_length_domains (e : LinearExpressionProto.t) (d : Domain.t)
    (context : PresolveContext) :
  length (domains (IntersectDomainWithExpr e d context).2) = length (domains context).
Proof.
  unfold IntersectDomainWithExpr. destruct (terms e) as [|[var coeff] [|? ?]]; simpl.
  - by destruct (Domain.Contains _ _).
  - apply IntersectDomainWith_length_domains.
  - reflexivity.
Qed.

Lemma IntersectDomainWithExpr_unsat (e : LinearExpressionProto.t) (d : Domain.t)
    (context : PresolveContext) :
  (IntersectDomainWithExpr e d context).1.1 = false ->
  ModelIsUnsat (IntersectDomainWithExpr e d context).2 = true.
Proof.
  unfold IntersectDomainWithExpr. destruct (terms e) as [|[var coeff] [|? ?]]; simpl.
  - by destruct (Domain.Contains _ _).
  - apply IntersectDomainWith_unsat.
  - done.
Qed.

Lemma IntersectDomainWithExpr_sat (e : LinearExpressionProto.t) (d : Domain.t)
    (context : PresolveContext) :
  (IntersectDomainWithExpr e d context).1.1 = true ->
  ModelIsUnsat (IntersectDomainWithExpr e d context).2 = ModelIsUnsat context.
Proof.
  unfold IntersectDomainWithExpr. destruct (terms e) as [|[var coeff] [|? ?]]; simpl.
  - by destruct (Domain.Contains _ _).
  - apply IntersectDomainWith_sat.
  - done.
Qed.

Lemma insert_app_lt {A : Type} (l k : list A) (i : nat) (x : A) :
  (i < length l)%nat -> <[i := x]> (l ++ k) = <[i := x]> l ++ k.
Proof. intros H. by rewrite insert_app_l. Qed.

(** The domain store after [NewIntVar] in an initialized context. *)
Lemma NewIntVar_domains (d : Domain.t) (context : PresolveContext) :
  initialized context ->
  domains (NewIntVar d context).2
  = domains context ++ [ReadDomainFromProto (FillDomainInProto d)].
Proof.
  unfold initialized, NewIntVar, InitializeNewDomains, variables. simpl.
  intros Hinit. rewrite Hinit, drop_app_length. reflexivity.
Qed.

Lemma NewIntVar_index (d : Domain.t) (context : PresolveContext) :
  (NewIntVar d context).1 = variables_size context.
Proof.
  unfold NewIntVar, variables_size, variables. simpl. rewrite length_app. simpl. lia.
Qed.

Lemma NewIntVar_initialized (d : Domain.t) (context : PresolveContext) :
  initialized context -> initialized (NewIntVar d context).2.
Proof.
  intros Hinit. unfold initialized. rewrite NewIntVar_domains by done.
  unfold NewIntVar, variables. simpl. rewrite !length_app. simpl.
  unfold initialized, variables in Hinit. lia.
Qed.

Lemma NewIntVar_constraints (d : Domain.t) (context : PresolveContext) :
  constraints (NewIntVar d context).2 = constraints context.
Proof. reflexivity. Qed.

Lemma NewIntVar_variables (d : Domain.t) (context : PresolveContext) :
  variables (NewIntVar d context).2
  = variables context ++ [IntegerVariableProto.mk "" (FillDomainInProto d)].
Proof. reflexivity. Qed.

Lemma NewIntVar_variables_size (d : Domain.t) (context : PresolveContext) :
  variables_size (NewIntVar d context).2 = variables_size context + 1.
Proof. unfold variables_size. rewrite NewIntVar_variables, length_app. simpl. lia. Qed.

Lemma NewIntVar_is_unsat (d : Domain.t) (context : PresolveContext) :
  is_unsat (NewIntVar d context).2 = is_unsat context.
Proof. reflexivity. Qed.

Lemma add_constraints_initialized (ct : ConstraintProto.t) (context : PresolveContext) :
  initialized context -> initialized (add_constraints ct context).
Proof. done. Qed.

Lemma constraints_UpdateRuleStats (s : string) (context : PresolveContext) :
  constraints (UpdateRuleStats s context) = constraints context.
Proof. reflexivity. Qed.

Lemma constraints_Clear (i : nat) (context : PresolveContext) :
  constraints (Clear i context) = <[i := ConstraintProto.cleared]> (constraints context).
Proof. reflexivity. Qed.

Lemma constraints_set_constraint (i : nat) (ct : ConstraintProto.t) (context : PresolveContext) :
  constraints (set_constraint i ct context) = <[i := ct]> (constraints context).
Proof. reflexivity. Qed.

Lemma constraints_add_constraints (ct : ConstraintProto.t) (context : PresolveContext) :
  constraints (add_constraints ct context) = constraints context ++ [ct].
Proof. reflexivity. Qed.

Lemma variables_add_constraints (ct : ConstraintProto.t) (context : PresolveContext) :
  variables (add_constraints ct context) = variables context.
Proof. reflexivity. Qed.

Lemma variables_size_add_constraints (ct : ConstraintProto.t) (context : PresolveContext) :
  variables_size (add_constraints ct context) = variables_size context.
Proof. reflexivity. Qed.

Lemma domains_add_constraints (ct : ConstraintProto.t) (context : PresolveContext) :
  domains (add_constraints ct context) = domains context.
Proof. reflexivity. Qed.

Create Rewrite HintDb ctx.

#[global] Hint Rewrite constraints_UpdateRuleStats constraints_Clear
  constraints_set_constraint constraints_add_constraints variables_add_constraints
  variables_size_add_constraints domains_add_constraints : ctx.

Lemma variables_size_UpdateRuleStats (s : string) (context : PresolveContext) :
  variables_size (UpdateRuleStats s context) = variables_size context.
Proof. reflexivity. Qed.

Lemma variables_size_Clear (i : nat) (context : PresolveContext) :
  variables_size (Clear i context) = variables_size context.
Proof. reflexivity. Qed.

Lemma domains_UpdateRuleStats (s : string) (context : PresolveContext) :
  domains (UpdateRuleStats s context) = domains context.
Proof. reflexivity. Qed.

Lemma domains_Clear (i : nat) (context : PresolveContext) :
  domains (Clear i context) = domains context.
Proof. reflexivity. Qed.

#[global] Hint Rewrite variables_size_UpdateRuleStats variables_size_Clear
  domains_UpdateRuleStats domains_Clear : ctx.

(** ** Constraints that an expansion leaves in place *)

Lemma same_constraints_below_refl (k : nat) (context : PresolveContext) :
  (k <= length (constraints context))%nat -> same_constraints_below k context context.
Proof. by split. Qed.

Lemma same_constraints_below_trans (k : nat) (c1 c2 c3 : PresolveContext) :
  same_constraints_below k c1 c2 -> same_constraints_below k c2 c3 ->
  same_constraints_below k c1 c3.
Proof. intros (E1 & ? & ?) (E2 & ? & ?). split; [congruence | done]. Qed.

Lemma same_constraints_below_eq (k : nat) (c1 c2 c3 : PresolveContext) :
  same_constraints_below k c1 c2 -> constraints c3 = constraints c2 ->
  same_constraints_below k c1 c3.
Proof. intros (E1 & ? & ?) E. unfold same_constraints_below. by rewrite E. Qed.

Lemma same_constraints_below_add (k : nat) (ct : ConstraintProto.t) (c1 c2 : PresolveContext) :
  same_constraints_below k c1 c2 -> same_constraints_below k c1 (add_constraints ct c2).
Proof.
  intros (E1 & ? & ?). unfold same_constraints_below.
  rewrite constraints_add_constraints, take_app_le, length_app by done.
  split; [done | lia].
Qed.

Lemma constraints_add_literals (i : nat) (lit : Z) (context : PresolveContext) :
  constraints (add_literals i lit context) = constraints context
  \/ exists ct, constraints (add_literals i lit context) = <[i := ct]> (constraints context).
Proof.
  unfold add_literals. destruct (constraints context !! i) as [[enf k]|]; [|by left].
  destruct k; try (by left); right; eexists; reflexivity.
Qed.

Lemma length_constraints_add_literals (i : nat) (lit : Z) (context : PresolveContext) :
  length (constraints (add_literals i lit context)) = length (constraints context).
Proof.
  destruct (constraints_add_literals i lit context) as [-> | [ct ->]]; [done|].
  apply length_insert.
Qed.

Lemma same_constraints_below_add_literals (k i : nat) (lit : Z) (c1 c2 : PresolveContext) :
  (k <= i)%nat ->
  same_constraints_below k c1 c2 -> same_constraints_below k c1 (add_literals i lit c2).
Proof.
  intros Hi (E1 & ? & ?). unfold same_constraints_below.
  rewrite length_constraints_add_literals.
  destruct (constraints_add_literals i lit c2) as [-> | [ct ->]]; [done|].
  by rewrite take_insert_ge.
Qed.

Lemma same_constraints_below_lookup (k i : nat) (c1 c2 : PresolveContext) :
  same_constraints_below k c1 c2 -> (i < k)%nat ->
  constraints c2 !! i = constraints c1 !! i.
Proof.
  intros (E & _ & _) Hi.
  rewrite <- (lookup_take_lt (constraints c2) k i), <- (lookup_take_lt (constraints c1) k i)
    by done.
  by rewrite E.
Qed.

Lemma same_constraints_below_le (k k' : nat) (c1 c2 : PresolveContext) :
  same_constraints_below k c1 c2 -> (k' <= k)%nat -> same_constraints_below k' c1 c2.
Proof.
  intros (E & ? & ?) Hk. split; [|lia].
  replace k' with (k' `min` k)%nat by lia.
  rewrite <- (take_take (constraints c2)), <- (take_take (constraints c1)).
  by rewrite E.
Qed.

Lemma constraints_IntersectDomainWith (ref : Z) (d : Domain.t) (context : PresolveContext) :
  constraints (IntersectDomainWith ref d context).2 = constraints context.
Proof. unfold constraints. by rewrite IntersectDomainWith_working_model. Qed.

Lemma constraints_IntersectDomainWithExpr (e : LinearExpressionProto.t) (d : Domain.t)
    (context : PresolveContext) :
  constraints (IntersectDomainWithExpr e d context).2 = constraints context.
Proof. unfold constraints. by rewrite IntersectDomainWithExpr_working_model. Qed.

Lemma constraints_GetOrCreateVarValueEncoding (ref value : Z) (context : PresolveContext) :
  constraints (GetOrCreateVarValueEncoding ref value context).2 = constraints context.
Proof. unfold GetOrCreateVarValueEncoding. by destruct (encoding context !! _). Qed.

Lemma constraints_GetTrueLiteral (context : PresolveContext) :
  constraints (GetTrueLiteral context).2 = constraints context.
Proof. unfold GetTrueLiteral. by destruct (true_literal context). Qed.

Lemma constraints_GetFalseLiteral (context : PresolveContext) :
  constraints (GetFalseLiteral context).2 = constraints context.
Proof.
  unfold GetFalseLiteral. pose proof (constraints_GetTrueLiteral context).
  by destruct (GetTrueLiteral context).
Qed.

Lemma constraints_GetOrCreateAffineValueEncoding (e : LinearExpressionProto.t) (value : Z)
    (context : PresolveContext) :
  constraints (GetOrCreateAffineValueEncoding e value context).2 = constraints context.
Proof.
  unfold GetOrCreateAffineValueEncoding.
  destruct (IsFixedExpr context e).
  - destruct (_ =? _); [apply constraints_GetTrueLiteral | apply constraints_GetFalseLiteral].
  - destruct (terms e) as [|[var coeff] ?]; [apply constraints_GetFalseLiteral|].
    destruct (_ =? _); [apply constraints_GetOrCreateVarValueEncoding
                       | apply constraints_GetFalseLiteral].
Qed.

Lemma for_each_same_constraints_below {A : Type} (k : nat)
    (body : A -> PresolveContext -> flow PresolveContext) (l : list A)
    (c0 context : PresolveContext) :
  (forall x c, same_constraints_below k c0 c ->
               same_constraints_below k c0 (flow_state (body x c))) ->
  same_constraints_below k c0 context ->
  same_constraints_below k c0 (flow_state (for_each body l context)).
Proof.
  intros Hbody. revert context. induction l as [|x l IH]; intros context H; simpl; [done|].
  pose proof (Hbody x context H) as Hx.
  destruct (body x context) as [c'|c']; simpl in Hx; [by apply IH | done].
Qed.

Lemma foldl_same_constraints_below {A : Type} (k : nat)
    (body : PresolveContext -> A -> PresolveContext) (l : list A)
    (c0 context : PresolveContext) :
  (forall x c, same_constraints_below k c0 c -> same_constraints_below k c0 (body c x)) ->
  same_constraints_below k c0 context ->
  same_constraints_below k c0 (foldl body context l).
Proof.
  intros Hbody. revert context. induction l as [|x l IH]; intros context H; simpl; [done|].
  apply IH. by apply Hbody.
Qed.

(** * Facts on assignments and solutions *)

Lemma agree_refl (n : Z) (s : assignment) : agree n s s.
Proof. by intros v _. Qed.

Lemma agree_sym (n : Z) (s s' : assignment) : agree n s s' -> agree n s' s.
Proof. intros H v Hv. symmetry. by apply H. Qed.

Lemma agree_trans (n : Z) (s1 s2 s3 : assignment) :
  agree n s1 s2 -> agree n s2 s3 -> agree n s1 s3.
Proof. intros H1 H2 v Hv. rewrite H1 by done. by apply H2. Qed.

Lemma agree_le (n m : Z) (s s' : assignment) : m <= n -> agree n s s' -> agree m s s'.
Proof. intros Hm H v Hv. apply H. lia. Qed.

Lemma PositiveRef_nonnegative (ref : Z) : 0 <= PositiveRef ref.
Proof. unfold PositiveRef, NegatedRef. lia. Qed.

Lemma PositiveRef_NegatedRef (ref : Z) : PositiveRef (NegatedRef ref) = PositiveRef ref.
Proof.
  unfold PositiveRef, NegatedRef. lia.
Qed.

Lemma literal_value_NegatedRef (s : assignment) (lit : Z) :
  literal_value s (NegatedRef lit) = negb (literal_value s lit).
Proof.
  unfold literal_value, PositiveRef, RefIsPositive, NegatedRef.
  destruct (Z.leb_spec 0 lit), (Z.leb_spec 0 (- lit - 1)); try lia.
  - by replace (Z.max (- lit - 1) (- (- lit - 1) - 1)) with lit by lia.
  - replace (Z.max lit (- lit - 1)) with (- lit - 1) by lia.
    by rewrite negb_involutive.
Qed.

Lemma literal_value_positive (s : assignment) (var : Z) :
  0 <= var -> literal_value s var = (s var =? 1).
Proof. intros H. unfold literal_value, RefIsPositive. by destruct (Z.leb_spec 0 var); [|lia]. Qed.

Lemma ref_value_agree (n : Z) (s s' : assignment) (ref : Z) :
  agree n s s' -> PositiveRef ref < n -> ref_value s ref = ref_value s' ref.
Proof.
  intros H Hr. unfold ref_value.
  destruct (RefIsPositive ref) eqn:E.
  - apply H. unfold PositiveRef, NegatedRef in Hr. unfold RefIsPositive in E. lia.
  - f_equal. apply H. split; [apply PositiveRef_nonnegative | done].
Qed.

Lemma literal_value_agree (n : Z) (s s' : assignment) (lit : Z) :
  agree n s s' -> PositiveRef lit < n -> literal_value s lit = literal_value s' lit.
Proof.
  intros H Hr. unfold literal_value.
  destruct (RefIsPositive lit) eqn:E.
  - f_equal. apply H. unfold PositiveRef, NegatedRef in Hr. unfold RefIsPositive in E. lia.
  - do 2 f_equal. apply H. split; [apply PositiveRef_nonnegative | done].
Qed.

Lemma sum_terms_agree (n : Z) (s s' : assignment) (vars coeffs : list Z) :
  agree n s s' -> Forall (fun v => PositiveRef v < n) vars ->
  sum_terms s vars coeffs = sum_terms s' vars coeffs.
Proof.
  intros H Hvars. unfold sum_terms. revert coeffs.
  induction Hvars as [|v vars Hv _ IH]; intros [|c coeffs]; simpl; try done.
  by rewrite IH, (ref_value_agree n s s' v).
Qed.

Lemma sum_terms_app (s : assignment) (vars vars' coeffs coeffs' : list Z) :
  length vars = length coeffs ->
  sum_terms s (vars ++ vars') (coeffs ++ coeffs')
  = sum_terms s vars coeffs + sum_terms s vars' coeffs'.
Proof.
  unfold sum_terms. revert coeffs.
  induction vars as [|v vars IH]; intros [|c coeffs]; simpl; try done.
  intros [= Hlen]. rewrite IH by done. lia.
Qed.

Lemma forallb_literal_value_agree (n : Z) (s s' : assignment) (lits : list Z) :
  agree n s s' -> Forall (fun v => PositiveRef v < n) lits ->
  forallb (literal_value s) lits = forallb (literal_value s') lits.
Proof.
  intros H Hlits. induction Hlits as [|l lits Hl _ IH]; simpl; [done|].
  by rewrite IH, (literal_value_agree n s s' l).
Qed.

Lemma override_below (s : assignment) (n : Z) (vs : list Z) (v : Z) :
  v < n -> override s n vs v = s v.
Proof. intros H. unfold override. by destruct (Z.ltb_spec v n); [|lia]. Qed.

Lemma override_agree (s : assignment) (n : Z) (vs : list Z) : agree n s (override s n vs).
Proof. intros v Hv. symmetry. apply override_below. lia. Qed.

Lemma override_new (s : assignment) (n : Z) (vs : list Z) (i : nat) (x : Z) :
  vs !! i = Some x -> override s n vs (n + Z.of_nat i) = x.
Proof.
  intros H. unfold override. destruct (Z.ltb_spec (n + Z.of_nat i) n); [lia|].
  replace (Z.to_nat (n + Z.of_nat i - n)) with i by lia. by rewrite H.
Qed.

Lemma domains_hold_spec (s : assignment) (ds : list Domain.t) :
  domains_hold s ds = true
  <-> forall i d, ds !! i = Some d -> Domain.Contains d (s (Z.of_nat i)) = true.
Proof.
  unfold domains_hold. rewrite forallb_forall. split.
  - intros H i d Hd. apply (H (i, d)). apply list_elem_of_In, elem_of_lookup_imap. eauto.
  - intros H [i d] Hin. apply list_elem_of_In, elem_of_lookup_imap in Hin as (i' & d' & E & Hd).
    injection E as -> ->. simpl. by apply H.
Qed.

Lemma encoding_holds_spec (s : assignment) (e : gmap (Z * Z) Z) :
  encoding_holds s e = true
  <-> forall key lit, e !! key = Some lit -> literal_value s lit = (s key.1 =? key.2).
Proof.
  unfold encoding_holds. rewrite forallb_forall. split.
  - intros H key lit Hk. apply Bool.eqb_prop. apply (H (key, lit)).
    by apply list_elem_of_In, elem_of_map_to_list.
  - intros H [key lit] Hin. apply list_elem_of_In, elem_of_map_to_list in Hin. simpl.
    rewrite (H key lit Hin). apply Bool.eqb_reflx.
Qed.

Lemma equalities_hold_spec (s : assignment) (q : list (Z * Z)) :
  equalities_hold s q = true
  <-> forall a b, (a, b) ∈ q -> literal_value s a = literal_value s b.
Proof.
  unfold equalities_hold. rewrite forallb_forall. split.
  - intros H a b Hab. apply Bool.eqb_prop. apply (H (a, b)). by apply list_elem_of_In.
  - intros H [a b] Hin. apply list_elem_of_In in Hin. simpl.
    rewrite (H a b Hin). apply Bool.eqb_reflx.
Qed.

Lemma solution_spec (other_holds : assignment -> Constraint -> bool)
    (s : assignment) (context : PresolveContext) :
  solution other_holds s context = true
  <-> is_unsat context = false
      /\ domains_hold s (domains context) = true
      /\ (forall ct, ct ∈ constraints context -> holds other_holds s ct = true)
      /\ encoding_holds s (encoding context) = true
      /\ equalities_hold s (equalities context) = true.
Proof.
  unfold solution. rewrite !andb_true_iff, negb_true_iff, forallb_forall.
  setoid_rewrite <- list_elem_of_In. tauto.
Qed.

Lemma cache_below_spec (n : Z) (context : PresolveContext) :
  cache_below n context = true
  <-> (forall key lit, encoding context !! key = Some lit ->
         0 <= key.1 < n /\ PositiveRef lit < n)
      /\ (forall a b, (a, b) ∈ equalities context -> PositiveRef a < n /\ PositiveRef b < n).
Proof.
  unfold cache_below. rewrite andb_true_iff, !forallb_forall. split.
  - intros [He Hq]. split.
    + intros key lit Hk. specialize (He (key, lit)). simpl in He.
      rewrite <- list_elem_of_In, elem_of_map_to_list in He. specialize (He Hk).
      rewrite !andb_true_iff in He. lia.
    + intros a b Hab. specialize (Hq (a, b)). rewrite <- list_elem_of_In in Hq.
      specialize (Hq Hab). simpl in Hq. rewrite andb_true_iff in Hq. lia.
  - intros [He Hq]. split.
    + intros [key lit] Hin. apply list_elem_of_In, elem_of_map_to_list in Hin.
      destruct (He key lit Hin). simpl. rewrite !andb_true_iff. lia.
    + intros [a b] Hin. apply list_elem_of_In in Hin. destruct (Hq a b Hin).
      simpl. rewrite andb_true_iff. lia.
Qed.

(** The cache and the equalities of a context mean the same for two
    assignments that agree on the variables they mention. *)
Lemma cache_holds_agree (n : Z) (s s' : assignment) (context : PresolveContext) :
  agree n s s' -> cache_below n context = true ->
  encoding_holds s (encoding context) = true ->
  equalities_hold s (equalities context) = true ->
  encoding_holds s' (encoding context) = true
  /\ equalities_hold s' (equalities context) = true.
Proof.
  intros H Hbelow He Hq. apply cache_below_spec in Hbelow as [Hbe Hbq].
  rewrite encoding_holds_spec in *. rewrite equalities_hold_spec in *. split.
  - intros key lit Hk. destruct (Hbe key lit Hk).
    rewrite <- (literal_value_agree n s s') by done. rewrite <- (H key.1) by done. by apply He.
  - intros a b Hab. destruct (Hbq a b Hab).
    rewrite <- !(literal_value_agree n s s') by done. by apply Hq.
Qed.

Lemma elem_of_list_insert_inv {A : Type} (l : list A) (i : nat) (x y : A) :
  x ∈ <[i := y]> l -> x = y \/ x ∈ l.
Proof.
  intros Hx. apply list_elem_of_lookup in Hx as [j Hj].
  destruct (decide (i = j)) as [->|Hne].
  - assert (Hlt : (j < length l)%nat).
    { apply lookup_lt_Some in Hj. by rewrite length_insert in Hj. }
    rewrite list_lookup_insert_eq in Hj by done. left. congruence.
  - rewrite list_lookup_insert_ne in Hj by done. right. by eapply list_elem_of_lookup_2.
Qed.

Lemma elem_of_list_insert_other {A : Type} (l : list A) (i j : nat) (x y : A) :
  l !! j = Some x -> i <> j -> x ∈ <[i := y]> l.
Proof.
  intros Hj Hne. apply (list_elem_of_lookup_2 _ j). by rewrite list_lookup_insert_ne.
Qed.

Lemma simple_expansion_shape (context context' : PresolveContext) (c : nat)
    (ct' : ConstraintProto.t) (new_domains : list Domain.t)
    (news : list ConstraintProto.t) :
  simple_expansion context context' c ct' new_domains news ->
  expansion_shape context context' c ct' news.
Proof.
  intros (Hd & _ & Hc & He & Hq & Hu). repeat split.
  - intros i d Hi. exists d. split; [|done]. rewrite Hd. by apply lookup_app_l_Some.
  - done.
  - intros key lit. by rewrite He.
  - intros ab. by rewrite Hq.
  - by rewrite Hu.
Qed.

Section SolutionFacts.

Variable other_holds : assignment -> Constraint -> bool.

(** Projection: a solution after the expansion is a solution before it as
    soon as it satisfies the original constraint. *)
Lemma expansion_projection (context context' : PresolveContext) (c : nat)
    (ct ct' : ConstraintProto.t) (news : list ConstraintProto.t) (s : assignment) :
  expansion_shape context context' c ct' news ->
  constraints context !! c = Some ct ->
  solution other_holds s context' = true ->
  holds other_holds s ct = true ->
  solution other_holds s context = true.
Proof.
  intros (Hd & Hc & He & Hq & Hu) Hct Hs Hholds.
  apply solution_spec in Hs as (Hunsat & Hdom & Hcons & Henc & Heq).
  apply solution_spec. split; [by apply Hu|]. split; [|split; [|split]].
  - apply domains_hold_spec. intros i d Hi. destruct (Hd i d Hi) as (d' & Hi' & Hsub).
    apply Hsub. by apply (proj1 (domains_hold_spec _ _) Hdom i).
  - intros ct0 Hin. apply list_elem_of_lookup in Hin as [j Hj].
    destruct (decide (j = c)) as [->|Hne]; [congruence|].
    apply Hcons. rewrite Hc. apply elem_of_app. left.
    by apply (elem_of_list_insert_other _ c j).
  - apply encoding_holds_spec. intros key lit Hk.
    by apply (proj1 (encoding_holds_spec _ _) Henc), He.
  - apply equalities_hold_spec. intros a b Hab.
    by apply (proj1 (equalities_hold_spec _ _) Heq), Hq.
Qed.

(** Extension, in the simple case: an assignment that agrees with a
    solution on the variables of the model, whose new values are in the new
    domains and which satisfies the new constraints, is a solution after the
    expansion. *)
Lemma simple_expansion_extension (context context' : PresolveContext) (c : nat)
    (ct' : ConstraintProto.t) (new_domains : list Domain.t)
    (news : list ConstraintProto.t) (s s' : assignment) :
  simple_expansion context context' c ct' new_domains news ->
  initialized context ->
  closed_model other_holds context ->
  cache_below (variables_size context) context = true ->
  solution other_holds s context = true ->
  agree (variables_size context) s s' ->
  (forall i d, new_domains !! i = Some d ->
               Domain.Contains d (s' (variables_size context + Z.of_nat i)) = true) ->
  holds other_holds s' ct' = true ->
  (forall ct, ct ∈ news -> holds other_holds s' ct = true) ->
  solution other_holds s' context' = true.
Proof.
  intros (Hd & Hn & Hc & He & Hq & Hu) Hinit Hclosed Hbelow Hs Hagree Hnew Hct' Hnews.
  apply solution_spec in Hs as (Hunsat & Hdom & Hcons & Henc & Heq).
  destruct (cache_holds_agree _ s s' context Hagree Hbelow Henc Heq) as [Henc' Heq'].
  assert (Hlen : Z.of_nat (length (domains context)) = variables_size context).
  { unfold initialized in Hinit. unfold variables_size. by rewrite Hinit. }
  apply solution_spec. split; [congruence|]. split; [|split; [|split]].
  - apply domains_hold_spec. intros i d. rewrite Hd. intros Hi.
    apply lookup_app_Some in Hi as [Hi | [Hge Hi]].
    + rewrite <- Hagree by (apply lookup_lt_Some in Hi; lia).
      by apply (proj1 (domains_hold_spec _ _) Hdom i).
    + specialize (Hnew _ _ Hi).
      by replace (variables_size context + Z.of_nat (i - length (domains context)))
        with (Z.of_nat i) in Hnew by lia.
  - intros ct0. rewrite Hc. intros Hin. apply elem_of_app in Hin as [Hin | Hin]; [|by apply Hnews].
    apply elem_of_list_insert_inv in Hin as [-> | Hin]; [done|].
    rewrite <- (Hclosed s s' Hagree ct0 Hin). by apply Hcons.
  - by rewrite He.
  - by rewrite Hq.
Qed.

End SolutionFacts.

(** * Properties of the expanders *)

(** ** Reservoir with an empty level domain *)

(** C8.  For a reservoir constraint with [min_level > max_level],
    [ExpandReservoir] only notifies that the model is unsat: the working
    model (no new variable, no new constraint, the reservoir constraint still
    in place), the domains, the encoding cache, the stored equalities, the
    precedence cache and the rule statistics are those of the input. *)
Theorem ExpandReservoir_empty_level_domain
    (c : nat) (context : PresolveContext) (ct : ConstraintProto.t)
    (reservoir : ReservoirConstraintProto.t) :
  constraints context !! c = Some ct ->
  ConstraintProto.constraint ct = kReservoir reservoir ->
  ReservoirConstraintProto.min_level reservoir > ReservoirConstraintProto.max_level reservoir ->
  let context' := ExpandReservoir c context in
  context' = NotifyThatModelIsUnsat context
  /\ ModelIsUnsat context' = true
  /\ working_model context' = working_model context
  /\ constraints context' !! c = Some ct
  /\ domains context' = domains context
  /\ encoding context' = encoding context
  /\ equalities context' = equalities context
  /\ reified_precedences_cache context' = reified_precedences_cache context
  /\ true_literal context' = true_literal context
  /\ rule_stats context' = rule_stats context.
Proof.
  intros Hct Hkind Hlevel context'.
  assert (Heq : context' = NotifyThatModelIsUnsat context).
  { subst context'. unfold ExpandReservoir, constraint_at, reservoir_of.
    rewrite Hct. simpl. rewrite Hkind.
    destruct (Z.ltb_spec (ReservoirConstraintProto.max_level reservoir)
                         (ReservoirConstraintProto.min_level reservoir)) as [_|Hge].
    - reflexivity.
    - lia. }
  rewrite Heq. repeat split; try reflexivity. exact Hct.
Qed.

Lemma ExpandReservoir_empty_level_domain_witness :
  ReservoirConstraintProto.min_level empty_level_reservoir
    > ReservoirConstraintProto.max_level empty_level_reservoir
  /\ ExpandReservoir 0 empty_level_context = NotifyThatModelIsUnsat empty_level_context
  /\ working_model (ExpandReservoir 0 empty_level_context)
     = working_model empty_level_context.
Proof.
  split; [reflexivity|].
  pose proof (ExpandReservoir_empty_level_domain 0 empty_level_context
                (plain (kReservoir empty_level_reservoir)) empty_level_reservoir
                eq_refl eq_refl eq_refl) as H.
  split; [exact (proj1 H) | exact (proj1 (proj2 (proj2 H)))].
Defined.

(** ** Automaton without variables or without transitions *)

Lemma existsb_eqb_elem_of (x : Z) (l : list Z) :
  existsb (fun y => x =? y) l = true <-> x ∈ l.
Proof.
  rewrite existsb_exists. split.
  - intros (y & Hin & Heq). apply Z.eqb_eq in Heq. subst y.
    by apply list_elem_of_In.
  - intros Hin. exists x. split; [by apply list_elem_of_In | apply Z.eqb_refl].
Qed.

(** C10.  For an automaton constraint without variables, [ExpandAutomaton]
    clears the constraint (rule "empty and trivially feasible") when the
    starting state is one of the final states and notifies that the model is
    unsat otherwise; for an automaton constraint with variables and without
    transition, it notifies that the model is unsat. *)
Theorem ExpandAutomaton_degenerate
    (c : nat) (context : PresolveContext) (ct : ConstraintProto.t)
    (proto : AutomatonConstraintProto.t) :
  constraints context !! c = Some ct ->
  ConstraintProto.constraint ct = kAutomaton proto ->
  (AutomatonConstraintProto.vars proto = [] ->
   AutomatonConstraintProto.starting_state proto ∈ AutomatonConstraintProto.final_states proto ->
   ExpandAutomaton c context
   = Clear c (UpdateRuleStats "automaton: empty and trivially feasible" context)
   /\ constraints (ExpandAutomaton c context) !! c = Some ConstraintProto.cleared
   /\ ModelIsUnsat (ExpandAutomaton c context) = ModelIsUnsat context)
  /\ (AutomatonConstraintProto.vars proto = [] ->
      AutomatonConstraintProto.starting_state proto
        ∉ AutomatonConstraintProto.final_states proto ->
      ExpandAutomaton c context = NotifyThatModelIsUnsat context)
  /\ (AutomatonConstraintProto.vars proto <> [] ->
      AutomatonConstraintProto.transition_label proto = [] ->
      ExpandAutomaton c context = NotifyThatModelIsUnsat context).
Proof.
  intros Hct Hkind.
  assert (Hproto : automaton_of (constraint_at c context) = proto).
  { unfold constraint_at, automaton_of. rewrite Hct. simpl. by rewrite Hkind. }
  unfold ExpandAutomaton. rewrite Hproto.
  split; [|split].
  - intros Hvars Hfinal. rewrite Hvars. simpl.
    apply existsb_eqb_elem_of in Hfinal. rewrite Hfinal.
    split; [reflexivity|]. split; [|reflexivity].
    unfold Clear, set_constraint, constraints. simpl.
    apply list_lookup_insert_eq. by eapply lookup_lt_Some.
  - intros Hvars Hfinal. rewrite Hvars. simpl.
    destruct (existsb _ _) eqn:E; [|reflexivity].
    apply existsb_eqb_elem_of in E. contradiction.
  - intros Hvars Hlabels.
    destruct (decide (length (AutomatonConstraintProto.vars proto) = 0%nat)) as [Hlen|_].
    + apply length_zero_iff_nil in Hlen. contradiction.
    + rewrite Hlabels. reflexivity.
Qed.

Lemma ExpandAutomaton_degenerate_witness :
  ExpandAutomaton 0 empty_automaton_context
  = Clear 0 (UpdateRuleStats "automaton: empty and trivially feasible"
               empty_automaton_context).
Proof.
  refine (proj1 (proj1 (ExpandAutomaton_degenerate 0 empty_automaton_context
                          (plain (kAutomaton empty_automaton)) empty_automaton
                          eq_refl eq_refl) eq_refl _)).
  apply existsb_eqb_elem_of. reflexivity.
Defined.

(** ** Product of two literals *)

(** C6 (what the code does).  When both factors of an [int_prod] are
    literals, the second branch of [ExpandIntProd] is taken: the product is
    expanded on the literal of the second factor and the constraint is
    cleared, against the comment "If both are literals, it will be presolved
    into a better version". *)
Theorem ExpandIntProd_two_literals
    (c : nat) (context : PresolveContext) (ct : ConstraintProto.t)
    (p a b : LinearExpressionProto.t) (la lb : Z) :
  constraints context !! c = Some ct ->
  ConstraintProto.constraint ct = kIntProd (LinearArgumentProto.mk p [a; b]) ->
  ExpressionIsALiteral context a = Some la ->
  ExpressionIsALiteral context b = Some lb ->
  ExpandIntProd c context
  = UpdateRuleStats "int_prod: expanded product with Boolean var"
      (Clear c (ExpandIntProdWithBoolean lb a p context))
  /\ constraints (ExpandIntProd c context) !! c = Some ConstraintProto.cleared
  /\ length (constraints (ExpandIntProd c context)) = (length (constraints context) + 2)%nat.
Proof.
  intros Hct Hkind Ha Hb.
  assert (Heq : ExpandIntProd c context
                = UpdateRuleStats "int_prod: expanded product with Boolean var"
                    (Clear c (ExpandIntProdWithBoolean lb a p context))).
  { unfold ExpandIntProd, constraint_at, int_prod_of. rewrite Hct. simpl.
    rewrite Hkind. simpl. unfold expr_at. simpl. rewrite Ha, Hb. reflexivity. }
  rewrite Heq. split; [reflexivity|].
  apply lookup_lt_Some in Hct.
  unfold UpdateRuleStats, Clear, set_constraint, ExpandIntProdWithBoolean,
    add_constraints, constraints. simpl. split.
  - apply list_lookup_insert_eq. rewrite !length_app. simpl.
    unfold constraints in Hct. lia.
  - rewrite length_insert, !length_app. simpl. lia.
Qed.

Lemma ExpandIntProd_two_literals_witness :
  ExpressionIsALiteral literal_product_context (single_var_expr 1) = Some 1
  /\ ExpressionIsALiteral literal_product_context (single_var_expr 2) = Some 2
  /\ constraints (ExpandIntProd 0 literal_product_context) !! 0%nat
     = Some ConstraintProto.cleared
  /\ length (constraints (ExpandIntProd 0 literal_product_context)) = 3%nat.
Proof.
  split; [reflexivity|]. split; [reflexivity|].
  exact (proj2 (ExpandIntProd_two_literals 0 literal_product_context
                  (plain (kIntProd literal_product))
                  (single_var_expr 0) (single_var_expr 1) (single_var_expr 2) 1 2
                  eq_refl eq_refl eq_refl eq_refl)).
Defined.

(** ** Integer modulo *)




(** ** Integer modulo *)

(** C5, amended.  For an [int_mod] constraint whose modulus is not fixed,
    the target is first intersected with the positive-modulo image.  If this
    leaves an empty domain, the expansion stops there: the model is unsat,
    nothing is added and the constraint is not cleared.  Otherwise two
    variables are created, [div_var] over the positive-division image and
    [prod_var], the constraint is cleared and exactly three constraints are
    appended, [div_var == expr div mod], [prod_var == div_var * mod] and
    [expr - prod_var - target == 0], each under the enforcement literals of
    the original constraint. *)
Theorem ExpandIntMod_non_fixed_modulus
    (c : nat) (context : PresolveContext) (ct : ConstraintProto.t)
    (target_expr expr mod_expr : LinearExpressionProto.t) :
  initialized context ->
  constraints context !! c = Some ct ->
  ConstraintProto.constraint ct
  = kIntMod (LinearArgumentProto.mk target_expr [expr; mod_expr]) ->
  IsFixedExpr context mod_expr = false ->
  let tightened := int_mod_tightening context target_expr expr mod_expr in
  let context' := ExpandIntMod c context in
  (tightened.1.1 = true ->
    let div_var := variables_size context in
    let prod_var := variables_size context + 1 in
    constraints context'
    = int_mod_expansion c (ConstraintProto.enforcement_literal ct)
        target_expr expr mod_expr div_var prod_var (constraints context)
    /\ variables_size context' = variables_size context + 2
    /\ take (length (domains context)) (domains context') = domains tightened.2
    /\ domains context' !! Z.to_nat div_var
       = Some (Domain.PositiveDivisionBySuperset (DomainSuperSetOf tightened.2 expr)
                 (DomainSuperSetOf tightened.2 mod_expr))
    /\ ModelIsUnsat context' = ModelIsUnsat context)
  /\ (tightened.1.1 = false ->
      context' = tightened.2
      /\ ModelIsUnsat context' = true
      /\ working_model context' = working_model context).
Proof.
  intros Hinit Hct Hkind Hmod tightened context'.
  Opaque NewIntVar.
  assert (Hc : (c < length (constraints context))%nat) by (by eapply lookup_lt_Some).
  subst context'. unfold ExpandIntMod, constraint_at, int_mod_of.
  rewrite Hct. simpl. rewrite Hkind. simpl. unfold expr_at. simpl. rewrite Hmod.
  fold (int_mod_tightening context target_expr expr mod_expr). fold tightened.
  pose proof (IntersectDomainWithExpr_working_model target_expr
    (Domain.PositiveModuloBySuperset (DomainSuperSetOf context expr)
       (DomainSuperSetOf context mod_expr)) context) as Hwm.
  pose proof (IntersectDomainWithExpr_length_domains target_expr
    (Domain.PositiveModuloBySuperset (DomainSuperSetOf context expr)
       (DomainSuperSetOf context mod_expr)) context) as Hlen.
  pose proof (IntersectDomainWithExpr_unsat target_expr
    (Domain.PositiveModuloBySuperset (DomainSuperSetOf context expr)
       (DomainSuperSetOf context mod_expr)) context) as Hunsat.
  pose proof (IntersectDomainWithExpr_sat target_expr
    (Domain.PositiveModuloBySuperset (DomainSuperSetOf context expr)
       (DomainSuperSetOf context mod_expr)) context) as Hsat.
  fold (int_mod_tightening context target_expr expr mod_expr) in Hwm, Hlen, Hunsat, Hsat.
  fold tightened in Hwm, Hlen, Hunsat, Hsat.
  destruct tightened as [[ok changed] context1]. simpl in *.
  destruct ok; cbv beta iota; simpl negb; cbv iota;
    (split; [intros Hok; try discriminate Hok | intros Hko; try discriminate Hko]).
  - assert (Hinit1 : initialized context1).
    { unfold initialized, variables in *. rewrite Hlen, Hwm. exact Hinit. }
    pose proof (NewIntVar_index (Domain.PositiveDivisionBySuperset
      (DomainSuperSetOf context1 expr) (DomainSuperSetOf context1 mod_expr)) context1) as Hq.
    pose proof (NewIntVar_domains (Domain.PositiveDivisionBySuperset
      (DomainSuperSetOf context1 expr) (DomainSuperSetOf context1 mod_expr)) context1 Hinit1)
      as Hqd.
    pose proof (NewIntVar_initialized (Domain.PositiveDivisionBySuperset
      (DomainSuperSetOf context1 expr) (DomainSuperSetOf context1 mod_expr)) context1 Hinit1)
      as Hqi.
    pose proof (NewIntVar_constraints (Domain.PositiveDivisionBySuperset
      (DomainSuperSetOf context1 expr) (DomainSuperSetOf context1 mod_expr)) context1) as Hqc.
    pose proof (NewIntVar_variables_size (Domain.PositiveDivisionBySuperset
      (DomainSuperSetOf context1 expr) (DomainSuperSetOf context1 mod_expr)) context1) as Hqs.
    pose proof (NewIntVar_is_unsat (Domain.PositiveDivisionBySuperset
      (DomainSuperSetOf context1 expr) (DomainSuperSetOf context1 mod_expr)) context1) as Hqu.
    destruct (NewIntVar _ context1) as [div_var context2]. simpl in Hq, Hqd, Hqi, Hqc, Hqs, Hqu.
    cbv beta iota.
    match goal with
    | |- context [NewIntVar ?d ?c3] =>
        pose proof (NewIntVar_index d c3) as Hp;
        pose proof (NewIntVar_domains d c3 (add_constraints_initialized _ _ Hqi)) as Hpd;
        pose proof (NewIntVar_constraints d c3) as Hpc;
        pose proof (NewIntVar_variables_size d c3) as Hps;
        pose proof (NewIntVar_is_unsat d c3) as Hpu;
        destruct (NewIntVar d c3) as [prod_var context4]
    end.
    cbv beta iota. simpl fst in *. simpl snd in *.
    autorewrite with ctx in Hp, Hpd, Hpc, Hps.
    assert (Hvs : variables_size context1 = variables_size context).
    { unfold variables_size, variables. by rewrite Hwm. }
    assert (Hcs : constraints context1 = constraints context).
    { unfold constraints. by rewrite Hwm. }
    simpl in Hp, Hpd, Hpc, Hps, Hpu. subst div_var prod_var.
    split; [|split; [|split; [|split]]].
    + autorewrite with ctx. rewrite Hpc, Hqc, Hcs, Hqs, Hvs.
      unfold int_mod_expansion. rewrite <- !app_assoc. simpl.
      by rewrite insert_app_l.
    + autorewrite with ctx. lia.
    + autorewrite with ctx. rewrite Hpd. autorewrite with ctx. rewrite Hqd.
      rewrite <- Hlen, <- !app_assoc. by rewrite take_app_length.
    + autorewrite with ctx. rewrite Hpd. autorewrite with ctx. rewrite Hqd, Hvs.
      unfold variables_size. rewrite Nat2Z.id. unfold initialized in Hinit.
      rewrite <- Hinit, <- Hlen, <- !app_assoc. rewrite lookup_app_r by done.
      rewrite Nat.sub_diag. simpl. f_equal.
      apply DomainFacts.ReadDomainFromProto_FillDomainInProto.
      unfold Domain.PositiveDivisionBySuperset.
      destruct (Domain.IsEmpty _); [done | apply DomainFacts.valid_Range].
    + unfold ModelIsUnsat in *. 
      change (is_unsat context4 = is_unsat context). rewrite Hpu. 
      change (is_unsat context2 = is_unsat context). rewrite Hqu. by apply Hsat.
  - split; [done|]. split; [by apply Hunsat | done].
Qed.

Transparent NewIntVar.

Lemma ExpandIntMod_non_fixed_modulus_witness :
  IsFixedExpr modulo_context (single_var_expr 1) = false
  /\ constraints (ExpandIntMod 0 modulo_context)
     = int_mod_expansion 0 [] (single_var_expr 2) (single_var_expr 0) (single_var_expr 1)
         (variables_size modulo_context) (variables_size modulo_context + 1)
         (constraints modulo_context).
Proof.
  split; [vm_compute; reflexivity|].
  refine (proj1 (proj1 (ExpandIntMod_non_fixed_modulus 0 modulo_context
                          (ConstraintProto.mk [] (kIntMod modulo_argument))
                          (single_var_expr 2) (single_var_expr 0) (single_var_expr 1)
                          _ _ _ _) _)); vm_compute; reflexivity.
Defined.

(** C5, as stated, fails when the tightening of the target leaves an empty
    domain: with [x0] in [0, 10], [x1] in [2, 3] and [x2] in [5, 9], the
    modulus of [x2 == x0 mod x1] is not fixed, and [ExpandIntMod] adds no
    constraint and does not clear the constraint. *)
Lemma ExpandIntMod_empty_target_counterexample :
  IsFixedExpr infeasible_modulo_context (single_var_expr 1) = false
  /\ constraints (ExpandIntMod 0 infeasible_modulo_context)
     = constraints infeasible_modulo_context
  /\ ~ (exists div_var prod_var,
          constraints (ExpandIntMod 0 infeasible_modulo_context)
          = int_mod_expansion 0 [] (single_var_expr 2) (single_var_expr 0)
              (single_var_expr 1) div_var prod_var
              (constraints infeasible_modulo_context)).
Proof.
  split; [vm_compute; reflexivity|]. split; [vm_compute; reflexivity|].
  intros (div_var & prod_var & H). vm_compute in H. discriminate H.
Qed.

(** ** The orchestrator runs once *)

Section OrchestratorFacts.

Variable ExpandNegativeTable : nat -> PresolveContext -> PresolveContext.
Variable ExpandPositiveTable : nat -> PresolveContext -> PresolveContext.

Lemma after_expansion_Return (c : nat) (context context' : PresolveContext) :
  after_expansion c context = Return context' -> ModelIsUnsat context' = true.
Proof.
  unfold after_expansion.
  destruct (ModelIsUnsat _) eqn:E; [|discriminate].
  intros [= <-]. exact E.
Qed.

Lemma first_pass_Return (fuel c : nat) (context context' : PresolveContext) :
  first_pass ExpandNegativeTable ExpandPositiveTable fuel c context = Some (Return context') ->
  ModelIsUnsat context' = true.
Proof.
  revert c context. induction fuel as [|fuel IH]; intros c context; simpl; [discriminate|].
  destruct (c <? constraints_size context)%nat; [|discriminate].
  destruct (first_pass_dispatch _ _ c context) as [skip context1].
  destruct skip; [apply IH|].
  destruct (after_expansion c context1) as [context2|context2] eqn:E; [apply IH|].
  intros [= <-]. by eapply after_expansion_Return.
Qed.

Lemma second_pass_Return (fuel i : nat) (caches : scan_caches)
    (context context' : PresolveContext) :
  second_pass fuel i caches context = Some (Return context') ->
  ModelIsUnsat context' = true.
Proof.
  revert i caches context.
  induction fuel as [|fuel IH]; intros i caches context; simpl; [discriminate|].
  destruct (i <? constraints_size context)%nat; [|discriminate].
  destruct (second_pass_dispatch i caches context) as [[skip caches1] context1].
  destruct skip; [apply IH|].
  destruct (after_expansion i context1) as [context2|context2] eqn:E; [apply IH|].
  intros [= <-]. by eapply after_expansion_Return.
Qed.

(** A call on a context that is unsat, or marked as expanded, or whose
    parameters disable the expansion, returns at once, whatever the fuel. *)
Lemma ExpandCpModel_guard (fuel : nat) (context : PresolveContext) :
  SatParameters.disable_constraint_expansion (params context) = true
  \/ ModelIsUnsat context = true \/ ModelIsExpanded context = true ->
  ExpandCpModel ExpandNegativeTable ExpandPositiveTable fuel context = Some context.
Proof.
  unfold ExpandCpModel. intros H.
  destruct (SatParameters.disable_constraint_expansion (params context)); [done|].
  destruct (ModelIsUnsat context); [done|].
  destruct (ModelIsExpanded context); [done|].
  destruct H as [H | [H | H]]; discriminate H.
Qed.

(** C9.  [ExpandCpModel] is idempotent.  If a first call returns the context
    [context'], a second call on [context'] returns [context'] itself at
    once (with any fuel, zero included): working model, domains and every
    other field are unchanged.  A call that ran to its end has marked the
    context as expanded, and a call on a context marked as expanded
    returns it unchanged. *)
Theorem ExpandCpModel_idempotent (fuel fuel' : nat) (context context' : PresolveContext) :
  ExpandCpModel ExpandNegativeTable ExpandPositiveTable fuel context = Some context' ->
  ExpandCpModel ExpandNegativeTable ExpandPositiveTable fuel' context' = Some context'
  /\ (SatParameters.disable_constraint_expansion (params context) = false ->
      ModelIsUnsat context' = false -> ModelIsExpanded context' = true)
  /\ (ModelIsExpanded context = true -> context' = context).
Proof.
  intros Hrun.
  assert (Hcases :
    (context' = context
     /\ (SatParameters.disable_constraint_expansion (params context) = true
         \/ ModelIsUnsat context = true \/ ModelIsExpanded context = true))
    \/ (ModelIsExpanded context = false
        /\ (ModelIsUnsat context' = true \/ ModelIsExpanded context' = true))).
  { unfold ExpandCpModel in Hrun.
    destruct (SatParameters.disable_constraint_expansion (params context)) eqn:Hd.
    { injection Hrun as <-. left. auto. }
    destruct (ModelIsUnsat context) eqn:Hu.
    { injection Hrun as <-. left. auto. }
    destruct (ModelIsExpanded context) eqn:He.
    { injection Hrun as <-. left. auto. }
    right. split; [done|].
    destruct (first_pass _ _ fuel 0 _) as [[context1|context1]|] eqn:H1; [| |discriminate].
    - destruct (second_pass fuel 0 _ context1) as [[context2|context2]|] eqn:H2;
        [| |discriminate].
      + injection Hrun as <-. right. reflexivity.
      + injection Hrun as <-. left. by eapply second_pass_Return.
    - injection Hrun as <-. left. by eapply first_pass_Return. }
  destruct Hcases as [[-> Hguard] | [Hne Hguard]].
  - split; [by apply ExpandCpModel_guard|]. split; [|done].
    intros Hd Hu. destruct Hguard as [H | [H | H]]; congruence.
  - split; [apply ExpandCpModel_guard; tauto|]. split; [|congruence].
    intros _ Hu. destruct Hguard as [H | H]; congruence.
Qed.

End OrchestratorFacts.

Lemma ExpandCpModel_idempotent_witness :
  ExpandCpModel no_table_expansion no_table_expansion 5 clause_context
  = Some expanded_clause_context
  /\ ExpandCpModel no_table_expansion no_table_expansion 0 expanded_clause_context
     = Some expanded_clause_context
  /\ ModelIsExpanded expanded_clause_context = true.
Proof.
  split; [vm_compute; reflexivity|].
  destruct (ExpandCpModel_idempotent no_table_expansion no_table_expansion
              5 0 clause_context expanded_clause_context) as (H1 & H2 & _);
    [vm_compute; reflexivity|].
  split; [exact H1 | apply H2; vm_compute; reflexivity].
Defined.

(** ** Automaton: the choice between the light and the heavy encoding *)

Lemma elem_of_entries {V : Type} (m : gmap Z V) (k : Z) (v : V) :
  (k, v) ∈ entries m <-> m !! k = Some v.
Proof.
  unfold entries. rewrite merge_sort_Permutation. apply elem_of_map_to_list.
Qed.

Lemma length_entries {V : Type} (m : gmap Z V) : length (entries m) = size m.
Proof.
  unfold entries. rewrite merge_sort_Permutation. apply length_map_to_list.
Qed.

Lemma AddImplyInReachableValues_constraints (literal : Z) (reachable_values : list Z)
    (encoding : gmap Z Z) (context : PresolveContext) :
  exists added,
    constraints (AddImplyInReachableValues literal reachable_values encoding context)
    = constraints context ++ added
    /\ (length added <= 1)%nat
    /\ Forall (fun ct => ConstraintProto.enforcement_literal ct = [literal]
                         /\ exists lits, ConstraintProto.constraint ct = kBoolOr lits
                                         \/ ConstraintProto.constraint ct = kBoolAnd lits)
              added.
Proof.
  unfold AddImplyInReachableValues.
  destruct (_ =? _)%nat.
  - exists []. rewrite app_nil_r. repeat split; auto.
  - destruct (_ <=? _)%nat; eexists [_]; (split; [reflexivity|]); (split; [simpl; lia|]);
      repeat constructor; eexists; eauto.
Qed.

Lemma light_encoding_rows (in_encoding encoding out_encoding : gmap Z Z)
    (rows : list (Z * Z * Z)) (context : PresolveContext) :
  constraints
    (foldl (fun context row =>
              add_constraints (row_clause in_encoding encoding out_encoding row) context)
           context rows)
  = constraints context ++ map (row_clause in_encoding encoding out_encoding) rows.
Proof.
  revert context. induction rows as [|row rows IH]; intros context; simpl.
  - by rewrite app_nil_r.
  - rewrite IH, constraints_add_constraints, <- app_assoc. reflexivity.
Qed.

Lemma light_encoding_implications (in_encoding encoding out_encoding : gmap Z Z)
    (in_to_label in_to_out : gmap Z (list Z)) (l : list (Z * Z)) (context : PresolveContext) :
  (forall e, e ∈ l -> in_encoding !! e.1 = Some e.2) ->
  exists implied,
    constraints
      (foldl (light_encoding_in_state in_to_label in_to_out encoding out_encoding) context l)
    = constraints context ++ implied
    /\ (length implied <= 2 * length l)%nat
    /\ Forall (is_reachability_implication in_encoding) implied.
Proof.
  revert context. induction l as [|[in_value in_literal] l IH]; intros context Hl; cbn [foldl].
  - exists []. rewrite app_nil_r. repeat split; auto.
  - destruct (IH (light_encoding_in_state in_to_label in_to_out encoding out_encoding
                    context (in_value, in_literal))) as (a3 & E3 & L3 & F3).
    { intros e He. apply Hl. by right. }
    rewrite E3. unfold light_encoding_in_state.
    destruct (AddImplyInReachableValues_constraints in_literal
                (default [] (in_to_label !! in_value)) encoding context)
      as (a1 & E1 & L1 & F1).
    destruct (AddImplyInReachableValues_constraints in_literal
                (default [] (in_to_out !! in_value)) out_encoding
                (AddImplyInReachableValues in_literal
                   (default [] (in_to_label !! in_value)) encoding context))
      as (a2 & E2 & L2 & F2).
    exists (a1 ++ a2 ++ a3). split; [|split].
    + rewrite E2, E1, <- !app_assoc. reflexivity.
    + rewrite !length_app. simpl. lia.
    + assert (Hin : in_encoding !! in_value = Some in_literal)
        by (apply (Hl (in_value, in_literal)); by left).
      rewrite !Forall_app. repeat split; [| |exact F3].
      * eapply Forall_impl; [exact F1|]. intros ct (Henf & lits & Hk).
        exists in_value, in_literal, lits. auto.
      * eapply Forall_impl; [exact F2|]. intros ct (Henf & lits & Hk).
        exists in_value, in_literal, lits. auto.
Qed.

Lemma automaton_light_encoding_constraints (rows : list (Z * Z * Z))
    (in_encoding encoding out_encoding : gmap Z Z) (context : PresolveContext) :
  exists implied,
    constraints (automaton_light_encoding rows in_encoding encoding out_encoding context)
    = constraints context ++ implied
        ++ map (row_clause in_encoding encoding out_encoding) rows
    /\ (length implied <= 2 * size in_encoding)%nat
    /\ Forall (is_reachability_implication in_encoding) implied.
Proof.
  unfold automaton_light_encoding. cbv zeta. rewrite light_encoding_rows.
  match goal with
  | |- context [foldl (light_encoding_in_state ?m1 ?m2 _ _) _ _] =>
      destruct (light_encoding_implications in_encoding encoding out_encoding
                  m1 m2 (entries in_encoding) context) as (implied & E & L & F)
  end.
  { intros [k v] He. by apply elem_of_entries. }
  exists implied. rewrite E, <- app_assoc, <- length_entries. auto.
Qed.




(** ** All-different: when it is expanded and when it is kept *)

Lemma length_filter_all {A : Type} (P : A -> Prop) `{!forall x, Decision (P x)} (l : list A) :
  length (filter P l) = length l <-> Forall P l.
Proof.
  induction l as [|x l IH]; simpl.
  - split; auto.
  - rewrite filter_cons. destruct (decide (P x)) as [HP|HP]; simpl.
    + rewrite Forall_cons. split.
      * intros [= Hl]. split; [done | by apply IH].
      * intros [_ Hl]. f_equal. by apply IH.
    + split.
      * intros Hl. pose proof (length_filter P l). lia.
      * intros Hl. apply Forall_cons in Hl. tauto.
Qed.

Lemma AllDiffShouldBeExpanded_spec (c : nat) (context : PresolveContext)
    (ct : ConstraintProto.t) (exprs : list LinearExpressionProto.t) :
  constraints context !! c = Some ct ->
  ConstraintProto.constraint ct = kAllDiff exprs ->
  AllDiffShouldBeExpanded (union_of_expr_domains context exprs) c context = true
  <-> all_diff_size_test context exprs.
Proof.
  intros Hct Hkind. unfold AllDiffShouldBeExpanded, all_diff_size_test, constraint_at, all_diff_of.
  rewrite Hct. simpl. rewrite Hkind.
  set (s := Domain.Size (union_of_expr_domains context exprs)).
  destruct (Z.leb_spec s (2 * Z.of_nat (length exprs))); simpl; [split; auto; lia|].
  destruct (Z.leb_spec s 32); simpl; [split; auto; lia|].
  destruct (decide (length (filter (fun e => IsFullyEncodedExpr context e = true) exprs)
                    = length exprs)) as [Hall|Hall].
  - rewrite bool_decide_eq_true_2 by done. simpl.
    destruct (Z.ltb_spec s 256).
    + split; [|done]. intros _. right. split; [|done].
      eapply length_filter_all. exact Hall.
    + split; [discriminate|]. intros [? | [_ ?]]; lia.
  - rewrite bool_decide_eq_false_2 by done. simpl. split; [done|].
    intros [? | [Hf _]]; [lia|]. exfalso. apply Hall. eapply length_filter_all. exact Hf.
Qed.

(** The outputs of the usage scanner are those of the two flags declared at
    the top of [ScanModelAndDecideAllDiffExpansion], which the loop never
    writes: the declarations of the loop body shadow them. *)
Lemma ScanModelAndDecideAllDiffExpansion_flags (c : nat) (context : PresolveContext)
    (caches : scan_caches) :
  (ScanModelAndDecideAllDiffExpansion c context caches).1.2 = false
  /\ (ScanModelAndDecideAllDiffExpansion c context caches).2 = false.
Proof. split; reflexivity. Qed.

Lemma all_diff_value_frame (exprs : list LinearExpressionProto.t) (is_a_permutation : bool)
    (v : Z) (k : nat) (c0 context : PresolveContext) :
  same_constraints_below k c0 context ->
  same_constraints_below k c0 (flow_state (all_diff_value exprs is_a_permutation v context)).
Proof.
  intros H. unfold all_diff_value.
  set (possible_exprs := filter _ exprs).
  set (propagated :=
         if (1 <? _)%nat then Return (NotifyThatModelIsUnsat context) else _).
  assert (Hprop : same_constraints_below k c0 (flow_state propagated)).
  { subst propagated. destruct (1 <? _)%nat; [done|].
    destruct (decide _); [|done].
    apply for_each_same_constraints_below; [|done].
    intros expr c Hc. destruct (IsFixedExpr c expr); [done|].
    pose proof (constraints_IntersectDomainWithExpr expr
                  (Domain.Complement (Domain.Value v)) c) as E.
    destruct (IntersectDomainWithExpr _ _ c) as [[ok ch] c']. simpl in E.
    destruct ok; simpl; by eapply same_constraints_below_eq. }
  destruct propagated as [c1|c1]; simpl in Hprop; [|done]. simpl.
  apply foldl_same_constraints_below.
  - intros expr c Hc. destruct (negb _); [done|].
    pose proof (constraints_GetOrCreateAffineValueEncoding expr v c) as E.
    destruct (GetOrCreateAffineValueEncoding expr v c) as [lit c']. simpl in E.
    apply same_constraints_below_add_literals.
    + destruct Hprop as (_ & _ & ?). unfold constraints_size. lia.
    + by eapply same_constraints_below_eq.
  - by apply same_constraints_below_add.
Qed.

(** C2, amended.  For an all-different constraint with at least two
    expressions, [MaybeExpandAllDiff] expands it if and only if the parameter
    [expand_alldiff_constraints] is set, or the size test passes (the union
    of the expression domains has at most [max(32, 2 * |exprs|)] values, or
    all expressions are fully encoded and the union has less than 256
    values) and the usage scanner either reports the expansion as useful or
    does not ask to keep the constraint.  Without expansion the context is
    unchanged.  When the expansion runs to its end, the constraint is left
    in place if the scanner asks to keep it and cleared otherwise. *)
Theorem MaybeExpandAllDiff_decision
    (c : nat) (context : PresolveContext) (caches : scan_caches)
    (ct : ConstraintProto.t) (exprs : list LinearExpressionProto.t) :
  constraints context !! c = Some ct ->
  ConstraintProto.constraint ct = kAllDiff exprs ->
  (2 <= length exprs)%nat ->
  let scan := ScanModelAndDecideAllDiffExpansion c context caches in
  let expand_from_usage := scan.1.2 in
  let keep := scan.2 in
  let union_of_domains := union_of_expr_domains context exprs in
  let result := MaybeExpandAllDiff c context caches in
  (ad_expand result.1.1 = true
   <-> SatParameters.expand_alldiff_constraints (params context) = true
       \/ (all_diff_size_test context exprs /\ (expand_from_usage = true \/ keep = false)))
  /\ ad_keep result.1.1 = keep
  /\ (ad_expand result.1.1 = false -> result.2 = context)
  /\ (ad_expand result.1.1 = true ->
      forall context',
        for_each (all_diff_value exprs (Z.of_nat (length exprs) =? Domain.Size union_of_domains))
                 (Domain.Values union_of_domains) context
        = Continue context' ->
        constraints result.2 !! c = Some (if keep then ct else ConstraintProto.cleared)).
Proof.
  intros Hct Hkind Hlen scan expand_from_usage keep union_of_domains result.
  assert (Hc : (c < length (constraints context))%nat) by (by eapply lookup_lt_Some).
  pose proof (AllDiffShouldBeExpanded_spec c context ct exprs Hct Hkind) as Hsize.
  subst result. unfold MaybeExpandAllDiff.
  assert (Hexprs : all_diff_of (constraint_at c context) = exprs).
  { unfold constraint_at, all_diff_of. rewrite Hct. simpl. by rewrite Hkind. }
  rewrite Hexprs.
  destruct (Nat.leb_spec (length exprs) 1); [lia|].
  fold scan. fold union_of_domains.
  assert (Hscan : scan = (scan.1.1, expand_from_usage, keep)).
  { subst expand_from_usage keep. by destruct scan as [[? ?] ?]. }
  rewrite Hscan. cbv beta iota.
  fold union_of_domains in Hsize.
  unfold should_expand.
  destruct (SatParameters.expand_alldiff_constraints (params context)) eqn:Hp;
    destruct (AllDiffShouldBeExpanded union_of_domains c context) eqn:Hs;
    destruct expand_from_usage eqn:Hu; destruct keep eqn:Hk; simpl.
  all: repeat match goal with
       | |- _ /\ _ => split
       | |- _ <-> _ => split
       end; try done; try tauto.
  all: try (intros [? | [Hsz ?]]; try done;
            first [ apply Hsize in Hsz; done | tauto ]).
  all: try (intros _; right; split; [by apply Hsize | tauto]).
  all: intros _ context' Hrun; rewrite Hrun; simpl.
  all: pose proof (for_each_same_constraints_below (S c)
         (all_diff_value exprs (Z.of_nat (length exprs) =? Domain.Size union_of_domains))
         (Domain.Values union_of_domains) context context
         (fun x c1 H1 => all_diff_value_frame exprs _ x (S c) context c1 H1)
         (same_constraints_below_refl (S c) context ltac:(lia))) as Hframe.
  all: rewrite Hrun in Hframe; simpl in Hframe.
  all: try (rewrite constraints_UpdateRuleStats;
            rewrite (same_constraints_below_lookup (S c) c context context' Hframe) by lia;
            exact Hct).
  all: rewrite constraints_Clear, constraints_UpdateRuleStats;
       apply list_lookup_insert_eq; destruct Hframe as (_ & _ & ?); lia.
Qed.

Lemma MaybeExpandAllDiff_decision_witness :
  let result := MaybeExpandAllDiff 0 lonely_all_diff_context (mkScanCaches ∅ ∅ ∅) in
  ad_expand result.1.1 = true /\ ad_keep result.1.1 = false.
Proof.
  pose proof (MaybeExpandAllDiff_decision 0 lonely_all_diff_context (mkScanCaches ∅ ∅ ∅)
                (plain (kAllDiff lonely_all_diff)) lonely_all_diff
                eq_refl eq_refl ltac:(simpl; lia)) as (Hexpand & Hkeep & _).
  split; [|exact Hkeep].
  apply Hexpand. right. split; [|right; reflexivity].
  left. vm_compute. discriminate.
Defined.

(** C2, as stated, fails on an all-different that is alone in its model:
    the scanner classifies no variable as domain-used, and the constraint is
    expanded all the same (and cleared), because its domains are small and
    nothing asks to keep it. *)
Lemma MaybeExpandAllDiff_unused_counterexample :
  let scan :=
    ScanModelAndDecideAllDiffExpansion 0 lonely_all_diff_context (mkScanCaches ∅ ∅ ∅) in
  let result := MaybeExpandAllDiff 0 lonely_all_diff_context (mkScanCaches ∅ ∅ ∅) in
  domain_of_var_is_used scan.1.1 = ∅
  /\ SatParameters.expand_alldiff_constraints (params lonely_all_diff_context) = false
  /\ ad_expand result.1.1 = true
  /\ constraints result.2
     = [ConstraintProto.cleared;
        plain (kAtMostOne [2; 3]); plain (kAtMostOne [4; 5]);
        plain (kAtMostOne [6; 7]); plain (kAtMostOne [8; 9])].
Proof. vm_compute. repeat split. Qed.

(** ** The equation [a x + b y = cte] *)

Lemma SolveDiophantineEquationOfSizeTwo_Some (c1 c2 c a b cte x0 y0 : Z) :
  c1 <> 0 -> c2 <> 0 ->
  SolveDiophantineEquationOfSizeTwo c1 c2 c = Some (a, b, cte, x0, y0) ->
  exists g, 0 < g /\ c1 = g * a /\ c2 = g * b /\ c = g * cte
            /\ Z.gcd a b = 1 /\ a * x0 + b * y0 = cte.
Proof.
  intros Hc1 Hc2. unfold SolveDiophantineEquationOfSizeTwo.
  set (g := Z.gcd c1 c2).
  assert (Hg : 0 < g).
  { pose proof (Z.gcd_nonneg c1 c2). destruct (Z.eq_dec g 0) as [E|E]; [|lia].
    apply Z.gcd_eq_0_l in E. contradiction. }
  destruct (Z.eqb_spec (Z.rem c g) 0) as [Hrem|Hrem]; [|discriminate]. simpl.
  assert (Ec : c = g * (c / g)).
  { apply Z.rem_divide in Hrem; [|lia]. destruct Hrem as [q ->].
    rewrite Z.div_mul by lia. lia. }
  assert (E1 : c1 = g * (c1 / g)).
  { destruct (Z.gcd_divide_l c1 c2) as [q Hq]. fold g in Hq.
    rewrite Hq at 2. rewrite Z.div_mul by lia. lia. }
  assert (E2 : c2 = g * (c2 / g)).
  { destruct (Z.gcd_divide_r c1 c2) as [q Hq]. fold g in Hq.
    rewrite Hq at 2. rewrite Z.div_mul by lia. lia. }
  assert (Hcop : Z.gcd (c1 / g) (c2 / g) = 1).
  { apply Z.gcd_div_gcd; [lia | reflexivity]. }
  assert (Hb : c2 / g <> 0) by nia.
  destruct (Z.eqb_spec (c / g) 0) as [Hz|Hz].
  - intros [= <- <- <- <- <-]. exists g. repeat split; auto. lia.
  - destruct (List.find _ _) as [x|] eqn:Hfind; [|discriminate].
    intros [= <- <- <- <- <-]. exists g. repeat split; auto.
    apply List.find_some in Hfind as [_ Hx]. apply Z.eqb_eq in Hx.
    set (x0 := if (c / g <? 0) && negb (x =? 0) then x - Z.abs (c2 / g) else x).
    assert (Hdiv : (c2 / g | c / g - c1 / g * x0)).
    { apply Z.mod_divide in Hx; [|done]. subst x0.
      destruct ((c / g <? 0) && negb (x =? 0)); [|done].
      replace (c / g - c1 / g * (x - Z.abs (c2 / g)))
        with ((c / g - c1 / g * x) + c1 / g * Z.abs (c2 / g)) by lia.
      apply Z.divide_add_r; [done|]. apply Z.divide_mul_r.
      apply Z.divide_abs_r. reflexivity. }
    destruct Hdiv as [q Hq]. rewrite Hq, Z.div_mul by done. lia.
Qed.

Lemma SolveDiophantineEquationOfSizeTwo_None (c1 c2 c : Z) :
  c1 <> 0 -> c2 <> 0 ->
  SolveDiophantineEquationOfSizeTwo c1 c2 c = None ->
  forall x y, c1 * x + c2 * y <> c.
Proof.
  intros Hc1 Hc2. unfold SolveDiophantineEquationOfSizeTwo.
  set (g := Z.gcd c1 c2).
  assert (Hg : 0 < g).
  { pose proof (Z.gcd_nonneg c1 c2). destruct (Z.eq_dec g 0) as [E|E]; [|lia].
    apply Z.gcd_eq_0_l in E. contradiction. }
  destruct (Z.gcd_divide_l c1 c2) as [q1 Hq1]. fold g in Hq1.
  destruct (Z.gcd_divide_r c1 c2) as [q2 Hq2]. fold g in Hq2.
  destruct (Z.eqb_spec (Z.rem c g) 0) as [Hrem|Hrem]; simpl.
  - apply Z.rem_divide in Hrem; [|lia]. destruct Hrem as [q Hq].
    assert (E1 : c1 / g = q1) by (rewrite Hq1; apply Z.div_mul; lia).
    assert (E2 : c2 / g = q2) by (rewrite Hq2; apply Z.div_mul; lia).
    assert (Ec : c / g = q) by (rewrite Hq; apply Z.div_mul; lia).
    rewrite E1, E2, Ec.
    destruct (Z.eqb_spec q 0); [discriminate|].
    destruct (List.find _ _) as [x|] eqn:Hfind; [discriminate|].
    intros _ x y Hxy.
    assert (Hq2' : q2 <> 0) by nia.
    assert (Heq : q1 * x + q2 * y = q) by nia.
    pose proof (List.find_none _ _ Hfind (x mod Z.abs q2)) as Hnone.
    assert (Hin : In (x mod Z.abs q2) (seqZ 0 (Z.abs q2))).
    { apply list_elem_of_In, elem_of_seqZ.
      pose proof (Z.mod_pos_bound x (Z.abs q2) ltac:(lia)). lia. }
    specialize (Hnone Hin). apply Z.eqb_neq in Hnone. apply Hnone.
    apply Z.mod_divide; [done|].
    pose proof (Z.div_mod x (Z.abs q2) ltac:(lia)) as Hdm.
    replace (q - q1 * (x mod Z.abs q2))
      with (q2 * y + q1 * (Z.abs q2 * (x / Z.abs q2))) by lia.
    apply Z.divide_add_r; [by apply Z.divide_mul_l|].
    apply Z.divide_mul_r, Z.divide_mul_l, Z.divide_abs_r. reflexivity.
  - intros _ x y Hxy. apply Hrem. apply Z.rem_divide; [lia|].
    exists (q1 * x + q2 * y). nia.
Qed.

(** All the solutions of [a x + b y = cte] from one of them, for coprime
    [a] and [b]. *)
Lemma diophantine_solutions (a b cte x0 y0 v1 v2 : Z) :
  Z.gcd a b = 1 -> b <> 0 ->
  a * x0 + b * y0 = cte ->
  (a * v1 + b * v2 = cte <-> exists z, v1 = x0 + b * z /\ v2 = y0 - a * z).
Proof.
  intros Hcop Hb H0. split.
  - intros Hv.
    assert (Hdiv : (b | v1 - x0)).
    { apply (Z.gauss b a); [|by rewrite Z.gcd_comm].
      exists (y0 - v2). lia. }
    destruct Hdiv as [z Hz]. exists z. split; [lia|]. nia.
  - intros (z & -> & ->). lia.
Qed.

Lemma reduced_domain_spec (context : PresolveContext) (var1 var2 a b x0 y0 z : Z) :
  a <> 0 -> b <> 0 ->
  shift_fits (- x0) (DomainOf context var1) = true ->
  shift_fits (- y0) (DomainOf context var2) = true ->
  z ∈ Domain.Values (reduced_domain context var1 var2 a b x0 y0)
  <-> Domain.Contains (DomainOf context var1) (x0 + b * z) = true
      /\ Domain.Contains (DomainOf context var2) (y0 - a * z) = true.
Proof.
  intros Ha Hb H1 H2. unfold reduced_domain.
  rewrite DomainFacts.elem_of_Values, DomainFacts.Contains_IntersectionWith, andb_true_iff.
  rewrite !DomainFacts.Contains_InverseMultiplicationBy by lia.
  rewrite !DomainFacts.Contains_AdditionWith_Value by done.
  replace (b * z - - x0) with (x0 + b * z) by lia.
  replace (- a * z - - y0) with (y0 - a * z) by lia.
  reflexivity.
Qed.

(** The parameters of the range are the forbidden pairs of the domains. *)
Lemma forbidden_pairs_spec (context : PresolveContext)
    (var1 var2 coeff1 coeff2 c a b cte x0 y0 : Z) :
  coeff1 <> 0 -> coeff2 <> 0 ->
  SolveDiophantineEquationOfSizeTwo coeff1 coeff2 c = Some (a, b, cte, x0, y0) ->
  shift_fits (- x0) (DomainOf context var1) = true ->
  shift_fits (- y0) (DomainOf context var2) = true ->
  NoDup (Domain.Values (reduced_domain context var1 var2 a b x0 y0))
  /\ forall v1 v2,
       Domain.Contains (DomainOf context var1) v1 = true ->
       Domain.Contains (DomainOf context var2) v2 = true ->
       (coeff1 * v1 + coeff2 * v2 = c
        <-> exists z, z ∈ Domain.Values (reduced_domain context var1 var2 a b x0 y0)
                      /\ v1 = x0 + b * z /\ v2 = y0 - a * z).
Proof.
  intros Hc1 Hc2 Hsolve H1 H2.
  destruct (SolveDiophantineEquationOfSizeTwo_Some _ _ _ _ _ _ _ _ Hc1 Hc2 Hsolve)
    as (g & Hg & -> & -> & -> & Hcop & H0).
  assert (Ha : a <> 0) by nia. assert (Hb : b <> 0) by nia.
  split.
  - apply DomainFacts.NoDup_Values, DomainFacts.valid_IntersectionWith.
  - intros v1 v2 Hv1 Hv2.
    transitivity (a * v1 + b * v2 = cte); [split; nia|].
    rewrite (diophantine_solutions a b cte x0 y0 v1 v2 Hcop Hb H0).
    split; intros (z & Hz); exists z.
    + destruct Hz as [-> ->]. split; [|done]. by apply reduced_domain_spec.
    + tauto.
Qed.

(** ** Linear constraints [a x + b y != cte] *)

Lemma with_constraints_add_constraints (ct : ConstraintProto.t) (l : list ConstraintProto.t)
    (context : PresolveContext) :
  add_constraints ct (with_constraints l context) = with_constraints (l ++ [ct]) context.
Proof. reflexivity. Qed.

Lemma GetOrCreateVarValueEncoding_existing (ref value lit : Z) (context : PresolveContext) :
  HasVarValueEncoding context ref value = Some lit ->
  GetOrCreateVarValueEncoding ref value context = (lit, context).
Proof. unfold HasVarValueEncoding, GetOrCreateVarValueEncoding. by intros ->. Qed.

Lemma forbidden_pairs_fold (enforcement_literal : list Z) (var1 var2 a b x0 y0 : Z)
    (zs : list Z) (context : PresolveContext) (added : list ConstraintProto.t) :
  literals_exist context var1 var2 a b x0 y0 zs = true ->
  foldl
    (fun context z =>
       let value1 := x0 + b * z in
       let value2 := y0 - a * z in
       let '(lit1, context) := GetOrCreateVarValueEncoding var1 value1 context in
       let '(lit2, context) := GetOrCreateVarValueEncoding var2 value2 context in
       add_constraints (forbid_pair enforcement_literal lit1 lit2) context)
    (with_constraints (constraints context ++ added) context) zs
  = with_constraints
      (constraints context ++ added
         ++ map (forbidden_pair_clause context enforcement_literal var1 var2 a b x0 y0) zs)
      context.
Proof.
  revert added. induction zs as [|z zs IH]; intros added Hall; simpl.
  - by rewrite app_nil_r.
  - simpl in Hall. apply andb_prop in Hall as [Hz Hall].
    apply andb_prop in Hz as [H1 H2].
    apply bool_decide_eq_true_1 in H1 as [lit1 H1].
    apply bool_decide_eq_true_1 in H2 as [lit2 H2].
    rewrite (GetOrCreateVarValueEncoding_existing var1 _ lit1) by exact H1.
    rewrite (GetOrCreateVarValueEncoding_existing var2 _ lit2) by exact H2.
    rewrite with_constraints_add_constraints, <- app_assoc.
    rewrite IH by exact Hall.
    unfold forbidden_pair_clause at 2, existing_literal.
    rewrite H1, H2. simpl. by rewrite <- app_assoc.
Qed.

Lemma with_constraints_same (context : PresolveContext) :
  with_constraints (constraints context) context = context.
Proof. by destruct context as [[? ?] ? ? ? ? ? ? ? ? ? ?]. Qed.

(** The test "all the needed values are encoded" of the expansion. *)
Lemma size_two_check (context : PresolveContext) (var1 var2 a b x0 y0 : Z) (zs : list Z) :
  existsb
    (fun z =>
       (negb (bool_decide (is_Some (HasVarValueEncoding context var1 (x0 + b * z))))
        || (Domain.Size (DomainOf context var1) =? 2))
       || (negb (bool_decide (is_Some (HasVarValueEncoding context var2 (y0 - a * z))))
           || (Domain.Size (DomainOf context var2) =? 2)))
    zs
  = negb (literals_exist context var1 var2 a b x0 y0 zs)
    || (negb (bool_decide (zs = []))
        && ((Domain.Size (DomainOf context var1) =? 2)
            || (Domain.Size (DomainOf context var2) =? 2))).
Proof.
  induction zs as [|z zs IH]; simpl; [done|].
  rewrite IH. unfold literals_exist.
  destruct (bool_decide (is_Some (HasVarValueEncoding context var1 _))),
    (bool_decide (is_Some (HasVarValueEncoding context var2 _))),
    (Domain.Size (DomainOf context var1) =? 2), (Domain.Size (DomainOf context var2) =? 2),
    (forallb _ zs); simpl; try reflexivity;
    destruct (bool_decide (zs = [])); reflexivity.
Qed.

(** The expansion, once the tests on the constraint have passed. *)
Lemma ExpandSomeLinearOfSizeTwo_unfold
    (c : nat) (context : PresolveContext) (ct : ConstraintProto.t)
    (var1 var2 coeff1 coeff2 : Z) (rhs : list Z) (a b cte x0 y0 : Z) :
  let arg := LinearConstraintProto.mk [var1; var2] [coeff1; coeff2] rhs in
  let forbidden := infeasible_reachable_values context arg in
  let range := reduced_domain context var1 var2 a b x0 y0 in
  constraints context !! c = Some ct ->
  ConstraintProto.constraint ct = kLinear arg ->
  IsFixed context var1 = false ->
  IsFixed context var2 = false ->
  Domain.Size forbidden = 1 ->
  SolveDiophantineEquationOfSizeTwo coeff1 coeff2 (Domain.FixedValue forbidden)
  = Some (a, b, cte, x0, y0) ->
  Domain.Size range <= 16 ->
  literals_exist context var1 var2 a b x0 y0 (Domain.Values range) = true ->
  ExpandSomeLinearOfSizeTwo c context
  = if negb (bool_decide (Domain.Values range = []))
       && ((Domain.Size (DomainOf context var1) =? 2)
           || (Domain.Size (DomainOf context var2) =? 2))
    then context
    else
      Clear c
        (UpdateRuleStats "linear: expand small ax + by != cte"
           (with_constraints
              (constraints context
                 ++ map (forbidden_pair_clause context
                           (ConstraintProto.enforcement_literal ct) var1 var2 a b x0 y0)
                        (Domain.Values range))
              context)).
Proof.
  intros arg forbidden range Hct Hkind Hf1 Hf2 Hsize Hsolve Hrange Hlits.
  unfold ExpandSomeLinearOfSizeTwo, constraint_at.
  rewrite Hct. simpl. unfold ConstraintProto.linear. rewrite Hkind. simpl.
  unfold ref_at. simpl. rewrite Hf1, Hf2. simpl.
  fold arg. fold forbidden. rewrite Hsize. simpl. rewrite Hsolve.
  fold range. destruct (Z.ltb_spec 16 (Domain.Size range)); [lia|].
  rewrite size_two_check, Hlits. simpl.
  destruct (negb _ && _); [reflexivity|].
  pose proof (forbidden_pairs_fold (ConstraintProto.enforcement_literal ct)
                var1 var2 a b x0 y0 (Domain.Values range) context [] Hlits) as Hfold.
  rewrite app_nil_r, with_constraints_same in Hfold. simpl in Hfold.
  rewrite Hfold. reflexivity.
Qed.

(** C4, amended.  For a linear constraint over two non-fixed variables whose
    domain excludes exactly one reachable value, when the equation
    [a x0 + b y0 = cte] has a solution, the parameter range has at most 16
    values and every literal [var1 == x0 + b z], [var2 == y0 - a z] of the
    range exists: if neither variable has a domain of size two (or the range
    is empty), the expansion clears the constraint and appends exactly one
    clause per parameter [z], made of the negation of the two literals and
    of the negations of the enforcement literals, and creates no literal;
    if one of the two variables has a domain of size two and the range is
    not empty, the expansion does nothing.  When the coefficients are not
    zero and the domains can be shifted by [- x0] and [- y0] within the
    64-bit integers, the parameters of the range are distinct and stand for
    the forbidden pairs: the pairs [(x0 + b z, y0 - a z)] are the values of
    the two domains on which the linear expression takes the excluded
    value. *)
Theorem ExpandSomeLinearOfSizeTwo_clauses
    (c : nat) (context : PresolveContext) (ct : ConstraintProto.t)
    (var1 var2 coeff1 coeff2 : Z) (rhs : list Z) (a b cte x0 y0 : Z) :
  let arg := LinearConstraintProto.mk [var1; var2] [coeff1; coeff2] rhs in
  let forbidden := infeasible_reachable_values context arg in
  let range := reduced_domain context var1 var2 a b x0 y0 in
  let context' := ExpandSomeLinearOfSizeTwo c context in
  constraints context !! c = Some ct ->
  ConstraintProto.constraint ct = kLinear arg ->
  IsFixed context var1 = false ->
  IsFixed context var2 = false ->
  Domain.Size forbidden = 1 ->
  SolveDiophantineEquationOfSizeTwo coeff1 coeff2 (Domain.FixedValue forbidden)
  = Some (a, b, cte, x0, y0) ->
  Domain.Size range <= 16 ->
  literals_exist context var1 var2 a b x0 y0 (Domain.Values range) = true ->
  (Domain.Values range = []
   \/ (Domain.Size (DomainOf context var1) <> 2 /\ Domain.Size (DomainOf context var2) <> 2) ->
   constraints context'
   = <[c := ConstraintProto.cleared]> (constraints context)
     ++ map (forbidden_pair_clause context (ConstraintProto.enforcement_literal ct)
               var1 var2 a b x0 y0)
            (Domain.Values range)
   /\ variables context' = variables context
   /\ encoding context' = encoding context
   /\ domains context' = domains context)
  /\ (Domain.Values range <> [] ->
      Domain.Size (DomainOf context var1) = 2 \/ Domain.Size (DomainOf context var2) = 2 ->
      context' = context)
  /\ (coeff1 <> 0 -> coeff2 <> 0 ->
      shift_fits (- x0) (DomainOf context var1) = true ->
      shift_fits (- y0) (DomainOf context var2) = true ->
      NoDup (Domain.Values range)
      /\ forall v1 v2,
           Domain.Contains (DomainOf context var1) v1 = true ->
           Domain.Contains (DomainOf context var2) v2 = true ->
           (coeff1 * v1 + coeff2 * v2 = Domain.FixedValue forbidden
            <-> exists z, z ∈ Domain.Values range /\ v1 = x0 + b * z /\ v2 = y0 - a * z)).
Proof.
  intros arg forbidden range context' Hct Hkind Hf1 Hf2 Hsize Hsolve Hrange Hlits.
  assert (Hc : (c < length (constraints context))%nat) by (by eapply lookup_lt_Some).
  assert (Hunfold := ExpandSomeLinearOfSizeTwo_unfold c context ct var1 var2 coeff1 coeff2
                      rhs a b cte x0 y0 Hct Hkind Hf1 Hf2 Hsize Hsolve Hrange Hlits).
  cbv zeta in Hunfold. fold range in Hunfold. subst context'.
  rewrite Hunfold. clear Hunfold. split; [|split].
  - intros Hcase.
    assert (Hguard : negb (bool_decide (Domain.Values range = []))
                     && ((Domain.Size (DomainOf context var1) =? 2)
                         || (Domain.Size (DomainOf context var2) =? 2)) = false).
    { destruct Hcase as [Hnil | [H1 H2]].
      - by rewrite bool_decide_eq_true_2.
      - apply Z.eqb_neq in H1, H2. rewrite H1, H2. simpl. apply andb_false_r. }
    rewrite Hguard. rewrite constraints_Clear, constraints_UpdateRuleStats.
    split; [|done].
    unfold with_constraints, constraints. simpl. by rewrite insert_app_l.
  - intros Hne [H1 | H2].
    + rewrite bool_decide_eq_false_2 by done. apply Z.eqb_eq in H1. by rewrite H1.
    + rewrite bool_decide_eq_false_2 by done. apply Z.eqb_eq in H2. rewrite H2.
      by rewrite orb_true_r.
  - intros Hc1 Hc2 Hs1 Hs2. by eapply forbidden_pairs_spec.
Qed.

Lemma ExpandSomeLinearOfSizeTwo_clauses_witness :
  constraints (ExpandSomeLinearOfSizeTwo 0 not_equal_12_context)
  = <[0%nat := ConstraintProto.cleared]> (constraints not_equal_12_context)
    ++ map (forbidden_pair_clause not_equal_12_context [] 0 1 2 3 0 4)
           (Domain.Values (reduced_domain not_equal_12_context 0 1 2 3 0 4))
  /\ map (forbidden_pair_clause not_equal_12_context [] 0 1 2 3 0 4)
         (Domain.Values (reduced_domain not_equal_12_context 0 1 2 3 0 4))
     = [plain (kBoolOr [NegatedRef 2; NegatedRef 12]);
        plain (kBoolOr [NegatedRef 5; NegatedRef 10])]
  /\ HasVarValueEncoding not_equal_12_context 0 0 = Some 2
  /\ HasVarValueEncoding not_equal_12_context 1 4 = Some 12
  /\ HasVarValueEncoding not_equal_12_context 0 3 = Some 5
  /\ HasVarValueEncoding not_equal_12_context 1 2 = Some 10.
Proof.
  split; [|vm_compute; repeat split].
  refine (proj1 (proj1 (ExpandSomeLinearOfSizeTwo_clauses 0 not_equal_12_context
                          (plain (kLinear not_equal_12)) 0 1 2 3
                          [kint64min; 11; 13; kint64max] 2 3 12 0 4
                          _ _ _ _ _ _ _ _) _)).
  1-6, 8: vm_compute; reflexivity.
  - vm_compute. discriminate.
  - right. split; vm_compute; discriminate.
Defined.

(** C4, as stated, fails when one of the variables has a domain of size
    two: for [x + y != 1], with [x] Boolean and [y] in [0, 2] both fully
    encoded, the parameter range [{0, 1}] is small and every literal exists,
    and the expansion leaves the constraint as it is. *)
Lemma ExpandSomeLinearOfSizeTwo_boolean_counterexample :
  Domain.Size (infeasible_reachable_values not_equal_1_context not_equal_1) = 1
  /\ SolveDiophantineEquationOfSizeTwo 1 1 1 = Some (1, 1, 1, 0, 1)
  /\ Domain.Values (reduced_domain not_equal_1_context 0 1 1 1 0 1) = [0; 1]
  /\ literals_exist not_equal_1_context 0 1 1 1 0 1 [0; 1] = true
  /\ ExpandSomeLinearOfSizeTwo 0 not_equal_1_context = not_equal_1_context.
Proof. vm_compute. repeat split. Qed.


(** ** Element over a constant array *)

Lemma encoding_stable_refl (context : PresolveContext) : encoding_stable context context.
Proof. by intros ? ?. Qed.

Lemma encoding_stable_trans (c1 c2 c3 : PresolveContext) :
  encoding_stable c1 c2 -> encoding_stable c2 c3 -> encoding_stable c1 c3.
Proof. intros H12 H23 key lit H. by apply H23, H12. Qed.

Lemma domains_prefix_refl (context : PresolveContext) : domains_prefix context context.
Proof. exists []. by rewrite app_nil_r. Qed.

Lemma domains_prefix_trans (c1 c2 c3 : PresolveContext) :
  domains_prefix c1 c2 -> domains_prefix c2 c3 -> domains_prefix c1 c3.
Proof. intros [e1 H1] [e2 H2]. exists (e1 ++ e2). by rewrite H2, H1, app_assoc. Qed.

Lemma domain_of_var_prefix (c1 c2 : PresolveContext) (var : Z) :
  domains_prefix c1 c2 -> 0 <= var < Z.of_nat (length (domains c1)) ->
  domain_of_var c2 var = domain_of_var c1 var.
Proof.
  intros [extra H] Hvar. unfold domain_of_var. rewrite H.
  destruct (Z.leb_spec 0 var); [|lia]. by rewrite lookup_app_l by lia.
Qed.

Lemma PositiveRef_nonneg (ref : Z) : 0 <= PositiveRef ref.
Proof. unfold PositiveRef, NegatedRef. lia. Qed.

Lemma PositiveRef_positive (ref : Z) : RefIsPositive ref = true -> PositiveRef ref = ref.
Proof. unfold RefIsPositive, PositiveRef, NegatedRef. intros H. apply Z.leb_le in H. lia. Qed.

Lemma MinOf_prefix (c1 c2 : PresolveContext) (ref : Z) :
  domains_prefix c1 c2 -> PositiveRef ref < Z.of_nat (length (domains c1)) ->
  MinOf c2 ref = MinOf c1 ref.
Proof.
  intros Hpre Hvar. unfold MinOf.
  destruct (RefIsPositive ref) eqn:E.
  - rewrite (domain_of_var_prefix c1 c2); [done | done |].
    rewrite <- (PositiveRef_positive ref E) at 1. pose proof (PositiveRef_nonneg ref).
    rewrite (PositiveRef_positive ref E) in *. lia.
  - rewrite (domain_of_var_prefix c1 c2); [done | done |].
    pose proof (PositiveRef_nonneg ref). lia.
Qed.

Lemma encoding_key_fst (ref value : Z) : (encoding_key ref value).1 = PositiveRef ref.
Proof.
  unfold encoding_key. destruct (RefIsPositive ref) eqn:E; simpl; [|done].
  by rewrite PositiveRef_positive.
Qed.

Lemma encoding_key_inj (ref v w : Z) : encoding_key ref v = encoding_key ref w -> v = w.
Proof. unfold encoding_key. destruct (RefIsPositive ref); intros [= H]; lia. Qed.

Lemma NewIntVar_domains_prefix (d : Domain.t) (context : PresolveContext) :
  domains_prefix context (NewIntVar d context).2.
Proof. eexists. reflexivity. Qed.

(** [GetOrCreateVarValueEncoding]: the result is the entry of the key, every
    other entry is untouched. *)
Lemma GetOrCreateVarValueEncoding_spec (ref value : Z) (context : PresolveContext) :
  let r := GetOrCreateVarValueEncoding ref value context in
  encoding r.2 !! encoding_key ref value = Some r.1
  /\ (forall key, key <> encoding_key ref value -> encoding r.2 !! key = encoding context !! key)
  /\ encoding_stable context r.2
  /\ domains_prefix context r.2
  /\ constraints r.2 = constraints context
  /\ equalities r.2 = equalities context.
Proof.
  unfold GetOrCreateVarValueEncoding.
  destruct (encoding context !! encoding_key ref value) as [lit|] eqn:E; simpl.
  - repeat split; auto using encoding_stable_refl, domains_prefix_refl.
  - unfold NewBoolVar, NewIntVar. simpl.
    split; [apply lookup_insert_eq|]. split; [|split; [|split; [|done]]].
    + intros key Hkey. by apply lookup_insert_ne.
    + intros key lit H. simpl. rewrite lookup_insert_ne; [done|]. intros <-. congruence.
    + eexists. reflexivity.
Qed.

Lemma InsertVarValueEncoding_spec (lit ref value : Z) (context : PresolveContext) :
  let context' := InsertVarValueEncoding lit ref value context in
  (encoding context !! encoding_key ref value = None ->
   encoding context' !! encoding_key ref value = Some lit
   /\ equalities context' = equalities context)
  /\ (forall previous, encoding context !! encoding_key ref value = Some previous ->
      encoding context' = encoding context
      /\ (previous = lit \/ (lit, previous) ∈ equalities context'))
  /\ (forall key, key <> encoding_key ref value ->
      encoding context' !! key = encoding context !! key)
  /\ encoding_stable context context'
  /\ domains context' = domains context
  /\ constraints context' = constraints context.
Proof.
  unfold InsertVarValueEncoding.
  destruct (encoding context !! encoding_key ref value) as [previous|] eqn:E; simpl.
  - split; [done|]. split.
    + intros ? [= <-]. destruct (decide (previous = lit)); [auto|].
      split; [done|]. right. simpl. apply elem_of_app. right. by left.
    + destruct (decide (previous = lit)); repeat split; auto; by intros ? ?.
  - split; [intros _; split; [apply lookup_insert_eq | done]|].
    split; [done|]. split; [|split; [|done]].
    + intros key Hkey. by apply lookup_insert_ne.
    + intros key l H. simpl. rewrite lookup_insert_ne; [done | congruence].
Qed.

Lemma add_literals_bool_or (k : nat) (lit : Z) (enf lits : list Z) (context : PresolveContext) :
  constraints context !! k = Some (ConstraintProto.mk enf (kBoolOr lits)) ->
  add_literals k lit context
  = set_constraint k (ConstraintProto.mk enf (kBoolOr (lits ++ [lit]))) context.
Proof. unfold add_literals. by intros ->. Qed.

Lemma add_literals_exactly_one (k : nat) (lit : Z) (enf lits : list Z)
    (context : PresolveContext) :
  constraints context !! k = Some (ConstraintProto.mk enf (kExactlyOne lits)) ->
  add_literals k lit context
  = set_constraint k (ConstraintProto.mk enf (kExactlyOne (lits ++ [lit]))) context.
Proof. unfold add_literals. by intros ->. Qed.

Lemma indices_of_value_snoc (context : PresolveContext) (element : ElementConstraintProto.t)
    (w : Z) (p : list Z) (v : Z) :
  indices_of_value context element w (p ++ [v])
  = indices_of_value context element w p
    ++ (if decide (array_value context element v = w) then [v] else []).
Proof.
  unfold indices_of_value. by rewrite filter_app.
Qed.

Lemma same_constraints_below_set (k i : nat) (ct : ConstraintProto.t) (c1 c2 : PresolveContext) :
  (k <= i)%nat ->
  same_constraints_below k c1 c2 -> same_constraints_below k c1 (set_constraint i ct c2).
Proof.
  intros Hi (E1 & ? & ?). unfold same_constraints_below.
  rewrite constraints_set_constraint, length_insert, take_insert_ge by done. done.
Qed.

Lemma supports_invariant_step (context0 : PresolveContext)
    (element : ElementConstraintProto.t) (p : list Z) (v : Z)
    (st : gmap Z nat * gmap Z nat * PresolveContext) :
  PositiveRef (element_var element v) < Z.of_nat (length (domains context0)) ->
  supports_invariant context0 element p st ->
  supports_invariant context0 element (p ++ [v]) (constant_array_support element st v).
Proof.
  destruct st as [[usage supports] context].
  intros Hrange (Hcount & Hsup & Hclause & Hinj & Hsame & Hstable & Hprefix & Heq & Hnew).
  unfold constant_array_support.
  assert (Hvalue : MinOf context (element_var element v) = array_value context0 element v).
  { by apply MinOf_prefix. }
  rewrite Hvalue. set (w0 := array_value context0 element v) in *.
  assert (Hcount' : forall w,
            count_of (<[w0 := S (default 0%nat (usage !! w0))]> usage) w
            = length (indices_of_value context0 element w (p ++ [v]))).
  { intros w. rewrite indices_of_value_snoc, length_app. fold w0.
    unfold count_of. destruct (decide (w0 = w)) as [<-|Hne].
    - rewrite lookup_insert_eq. simpl. specialize (Hcount w0). unfold count_of in Hcount. lia.
    - rewrite lookup_insert_ne by done. specialize (Hcount w). unfold count_of in Hcount.
      simpl. lia. }
  pose proof (Hcount w0) as Hw0. unfold count_of in Hw0.
  destruct (decide (S (default 0%nat (usage !! w0)) = 2%nat)) as [Htwo|Htwo].
  - (* The value is met for the second time. *)
    set (k := constraints_size context).
    set (context_a := add_constraints (plain (kBoolOr [])) context).
    pose proof (GetOrCreateVarValueEncoding_spec
                  (ElementConstraintProto.target element) w0 context_a)
      as (HT & Hother & HstableT & HprefixT & HconsT & HeqT).
    destruct (GetOrCreateVarValueEncoding (ElementConstraintProto.target element) w0 context_a)
      as [T context_b]. simpl in HT, Hother, HstableT, HprefixT, HconsT, HeqT.
    assert (Hk : constraints context_b !! k = Some (plain (kBoolOr []))).
    { rewrite HconsT. subst context_a. rewrite constraints_add_constraints.
      rewrite lookup_app_r by (unfold k, constraints_size; lia).
      unfold k, constraints_size. by rewrite Nat.sub_diag. }
    rewrite (add_literals_bool_or k _ [] []) by exact Hk. simpl.
    assert (Hlen : length (constraints context_b) = S (length (constraints context))).
    { rewrite HconsT. subst context_a. rewrite constraints_add_constraints, length_app.
      simpl. lia. }
    assert (Hnotin : supports !! w0 = None).
    { destruct (supports !! w0) eqn:E; [|done].
      assert (Hs : is_Some (supports !! w0)) by (rewrite E; eauto).
      apply Hsup in Hs. lia. }
    destruct Hsame as (Htake & Hlen0 & Hlen1).
    split; [exact Hcount'|]. split; [|split; [|split; [|split; [|split; [|split; [|split]]]]]].
    + intros w. rewrite <- Hcount'. unfold count_of.
      destruct (decide (w0 = w)) as [<-|Hne].
      * rewrite !lookup_insert_eq. simpl. split; [lia | eauto].
      * rewrite !lookup_insert_ne by done. rewrite Hsup, <- Hcount. done.
    + intros w k' Hk'. rewrite constraints_set_constraint, length_insert.
      destruct (decide (w0 = w)) as [<-|Hne].
      * rewrite lookup_insert_eq in Hk'. injection Hk' as <-.
        split; [unfold k, constraints_size in *; lia|].
        exists T. split; [done|]. rewrite list_lookup_insert_eq; [done|].
        unfold k, constraints_size. lia.
      * rewrite lookup_insert_ne in Hk' by done.
        destruct (Hclause w k' Hk') as (Hrange' & T' & HT' & Hc').
        split; [lia|]. exists T'. split.
        -- apply HstableT. exact HT'.
        -- rewrite list_lookup_insert_ne by (unfold k, constraints_size; lia).
           rewrite HconsT. subst context_a. rewrite constraints_add_constraints.
           by rewrite lookup_app_l by lia.
    + intros w w' k'. destruct (decide (w0 = w)) as [<-|Hne], (decide (w0 = w')) as [<-|Hne'];
        rewrite ?lookup_insert_eq, ?lookup_insert_ne by done; try done.
      * intros [= <-] Hk'. apply Hclause in Hk'. unfold k, constraints_size in Hk'. lia.
      * intros Hk' [= <-]. apply Hclause in Hk'. unfold k, constraints_size in Hk'. lia.
      * apply Hinj.
    + apply same_constraints_below_set; [unfold k, constraints_size; lia|].
      eapply same_constraints_below_eq; [|exact HconsT].
      apply same_constraints_below_add. by split.
    + intros key lit Hkey. simpl. apply HstableT. simpl. by apply Hstable.
    + eapply domains_prefix_trans; [exact Hprefix|]. exact HprefixT.
    + simpl. rewrite HeqT. exact Heq.
    + intros key lit Hkey. simpl in Hkey.
      destruct (decide (key = encoding_key (ElementConstraintProto.target element) w0))
        as [->|Hne].
      * right. exists w0. split; [done|]. rewrite lookup_insert_eq. eauto.
      * rewrite Hother in Hkey by done. simpl in Hkey.
        destruct (Hnew key lit Hkey) as [?|(w & -> & Hw)]; [by left|].
        right. exists w. split; [done|].
        destruct (decide (w0 = w)) as [<-|?]; [rewrite lookup_insert_eq; eauto|].
        by rewrite lookup_insert_ne.
  - (* Any other time: nothing is created. *)
    split; [exact Hcount'|]. split; [|done].
    intros w. rewrite <- Hcount'. unfold count_of.
    destruct (decide (w0 = w)) as [<-|Hne].
    + rewrite lookup_insert_eq. simpl. rewrite Hsup. lia.
    + rewrite lookup_insert_ne by done. rewrite Hsup, <- Hcount. done.
Qed.

Lemma foldl_invariant {A S : Type} (Inv : list A -> S -> Prop) (P : A -> Prop)
    (f : S -> A -> S) (l : list A) :
  (forall p x s, P x -> Inv p s -> Inv (p ++ [x]) (f s x)) ->
  Forall P l ->
  forall p s, Inv p s -> Inv (p ++ l) (foldl f s l).
Proof.
  intros Hstep HP. induction HP as [|x l Hx _ IH]; intros p s Hinv; simpl.
  - by rewrite app_nil_r.
  - replace (p ++ x :: l) with ((p ++ [x]) ++ l) by (by rewrite <- app_assoc).
    apply IH. by apply Hstep.
Qed.

Lemma elem_of_insert_other {A : Type} (l : list A) (i : nat) (x y z : A) :
  x ∈ l -> l !! i = Some y -> x <> y -> x ∈ <[i := z]> l.
Proof.
  intros Hx Hy Hne. apply list_elem_of_lookup in Hx as [j Hj].
  apply list_elem_of_lookup. exists j. rewrite list_lookup_insert_ne; [done|].
  intros <-. congruence.
Qed.

Lemma literals_of_value_snoc (context : PresolveContext) (element : ElementConstraintProto.t)
    (w : Z) (p lits : list Z) (v l : Z) :
  length p = length lits ->
  literals_of_value context element w (p ++ [v]) (lits ++ [l])
  = literals_of_value context element w p lits
    ++ (if decide (array_value context element v = w) then [l] else []).
Proof.
  intros Hlen. unfold literals_of_value.
  rewrite zip_with_app by done. rewrite filter_app, map_app. f_equal.
  simpl. rewrite filter_cons, filter_nil. simpl. by destruct (decide _).
Qed.

Lemma link_invariant_step (context0 context1 : PresolveContext)
    (element : ElementConstraintProto.t) (supports : gmap Z nat) (exactly_one : nat)
    (p lits : list Z) (v : Z) (context : PresolveContext) :
  PositiveRef (ElementConstraintProto.index element)
    <> PositiveRef (ElementConstraintProto.target element) ->
  PositiveRef (element_var element v) < Z.of_nat (length (domains context0)) ->
  (forall w k, supports !! w = Some k ->
               (length (constraints context0) <= k < exactly_one)%nat) ->
  (forall w w' k, supports !! w = Some k -> supports !! w' = Some k -> w = w') ->
  (length (constraints context0) <= exactly_one)%nat ->
  link_invariant context0 context1 element supports exactly_one p lits context ->
  exists l,
    link_invariant context0 context1 element supports exactly_one (p ++ [v]) (lits ++ [l])
      (constant_array_link element supports exactly_one context v).
Proof.
  intros Hdistinct Hrange Hks Hinj He
    (Hlits & Hexactly & Hclauses & Honce & Hsame & Hstable & Hprefix & Hlen).
  set (index := ElementConstraintProto.index element) in *.
  set (target := ElementConstraintProto.target element) in *.
  assert (Hkeys : forall x y, encoding_key index x <> encoding_key target y).
  { intros x y E. apply (f_equal fst) in E. rewrite !encoding_key_fst in E. done. }
  assert (Hlength : length p = length lits) by (by eapply Forall2_length).
  assert (Helt : (exactly_one < length (constraints context))%nat)
    by (by eapply lookup_lt_Some).
  unfold constant_array_link. cbv zeta. fold index. fold target.
  pose proof (GetOrCreateVarValueEncoding_spec index v context)
    as (HI & HotherI & HstableI & HprefixI & HconsI & HeqI).
  destruct (GetOrCreateVarValueEncoding index v context) as [I context_a].
  simpl in HI, HotherI, HstableI, HprefixI, HconsI, HeqI.
  cbv beta iota. exists I.
  assert (Hexactly_a : constraints context_a !! exactly_one = Some (plain (kExactlyOne lits)))
    by (by rewrite HconsI).
  rewrite (add_literals_exactly_one exactly_one I [] lits) by exact Hexactly_a.
  set (context_b := set_constraint exactly_one _ context_a).
  assert (Hvalue : MinOf context_b (element_var element v) = array_value context0 element v).
  { apply MinOf_prefix; [|done]. eapply domains_prefix_trans; [exact Hprefix|]. exact HprefixI. }
  rewrite Hvalue. set (w0 := array_value context0 element v) in *.
  assert (Hcons_b : constraints context_b
                    = <[exactly_one := plain (kExactlyOne (lits ++ [I]))]> (constraints context))
    by (subst context_b; by rewrite constraints_set_constraint, HconsI).
  assert (Hlits' : Forall2 (fun v l => encoding context_a !! encoding_key index v = Some l)
                     (p ++ [v]) (lits ++ [I])).
  { apply Forall2_app; [|by repeat constructor].
    eapply Forall2_impl; [exact Hlits|]. intros x y Hxy. by apply HstableI. }
  destruct (supports !! w0) as [k|] eqn:Hsupport.
  - (* The value has a support clause. *)
    destruct (Hclauses w0 k Hsupport) as (T & HT & Hk & Himp).
    destruct (Hks w0 k Hsupport) as [Hk0 Hke].
    assert (HT_b : HasVarValueEncoding context_b target w0 = Some T).
    { unfold HasVarValueEncoding. subst context_b. simpl. by apply HstableI. }
    rewrite (GetOrCreateVarValueEncoding_existing target w0 T context_b HT_b).
    set (context_d := AddImplication I T context_b).
    assert (Hcons_d : constraints context_d
                      = <[exactly_one := plain (kExactlyOne (lits ++ [I]))]>
                          (constraints context)
                        ++ [ConstraintProto.mk [I] (kBoolAnd [T])]).
    { subst context_d. unfold AddImplication. by rewrite constraints_add_constraints, Hcons_b. }
    assert (Hk_d : constraints context_d !! k
                   = Some (plain (kBoolOr (NegatedRef T
                                             :: literals_of_value context0 element w0 p lits)))).
    { rewrite Hcons_d, lookup_app_l by (rewrite length_insert; lia).
      rewrite list_lookup_insert_ne by lia. exact Hk. }
    rewrite (add_literals_bool_or k I [] _) by exact Hk_d.
    set (clause := plain (kBoolOr ((NegatedRef T :: literals_of_value context0 element w0 p lits)
                                     ++ [I]))).
    set (context_e := set_constraint k _ context_d).
    assert (Hcons_e : constraints context_e
                      = <[k := clause]>
                          (<[exactly_one := plain (kExactlyOne (lits ++ [I]))]>
                             (constraints context)
                           ++ [ConstraintProto.mk [I] (kBoolAnd [T])])).
    { subst context_e. by rewrite constraints_set_constraint, Hcons_d. }
    unfold link_invariant. cbv zeta. fold index. fold target.
    split; [exact Hlits'|]. split; [|split; [|split; [|split; [|split; [|split]]]]].
    + rewrite Hcons_e, list_lookup_insert_ne by lia.
      rewrite lookup_app_l by (rewrite length_insert; lia).
      by rewrite list_lookup_insert_eq.
    + intros w k' Hw. rewrite literals_of_value_snoc by done. fold w0.
      destruct (Hclauses w k' Hw) as (T' & HT' & Hk' & Himp').
      destruct (Hks w k' Hw) as [Hk0' Hke'].
      exists T'. split; [by apply HstableI|].
      destruct (decide (w0 = w)) as [<-|Hne].
      * assert (k' = k) by congruence. subst k'.
        assert (T' = T) by congruence. subst T'.
        split.
        -- rewrite Hcons_e, list_lookup_insert_eq; [done|].
           rewrite length_app, length_insert. lia.
        -- intros l Hl. rewrite Hcons_e. apply elem_of_app in Hl as [Hl|Hl].
           ++ apply (elem_of_insert_other _ k _
                       (plain (kBoolOr (NegatedRef T
                                          :: literals_of_value context0 element w0 p lits))));
                [| |done].
              ** apply elem_of_app. left.
                 apply (elem_of_insert_other _ exactly_one _ (plain (kExactlyOne lits)));
                   [by apply Himp | done | done].
              ** rewrite lookup_app_l by (rewrite length_insert; lia).
                 by rewrite list_lookup_insert_ne by lia.
           ++ apply list_elem_of_singleton in Hl as ->.
              apply (elem_of_insert_other _ k _
                       (plain (kBoolOr (NegatedRef T
                                          :: literals_of_value context0 element w0 p lits))));
                [| |done].
              ** apply elem_of_app. right. by left.
              ** rewrite lookup_app_l by (rewrite length_insert; lia).
                 by rewrite list_lookup_insert_ne by lia.
      * rewrite app_nil_r.
        assert (k' <> k) by (intros ->; apply Hne; by eapply Hinj).
        split.
        -- rewrite Hcons_e, list_lookup_insert_ne by done.
           rewrite lookup_app_l by (rewrite length_insert; apply lookup_lt_Some in Hk'; lia).
           by rewrite list_lookup_insert_ne by lia.
        -- intros l Hl. rewrite Hcons_e.
           apply (elem_of_insert_other _ k _
                    (plain (kBoolOr (NegatedRef T
                                       :: literals_of_value context0 element w0 p lits))));
             [| |done].
           ++ apply elem_of_app. left.
              apply (elem_of_insert_other _ exactly_one _ (plain (kExactlyOne lits)));
                [by apply Himp' | done | done].
           ++ rewrite lookup_app_l by (rewrite length_insert; lia).
              by rewrite list_lookup_insert_ne by lia.
    + intros w Hw. rewrite indices_of_value_snoc. fold w0.
      destruct (decide (w0 = w)) as [<-|Hne]; [congruence|]. rewrite app_nil_r.
      specialize (Honce w Hw).
      destruct (indices_of_value context0 element w p) as [|v' [|? ?]]; [| |done].
      * simpl. rewrite HotherI by apply not_eq_sym, Hkeys. exact Honce.
      * destruct Honce as (l & Hl & Hmatch). exists l. split; [by apply HstableI|].
        destruct (encoding context1 !! encoding_key target w).
        -- destruct Hmatch as [?|Hin]; [by left|]. right. simpl. by rewrite HeqI.
        -- by apply HstableI.
    + apply same_constraints_below_set; [lia|].
      unfold context_d, AddImplication. apply same_constraints_below_add.
      apply same_constraints_below_set; [lia|].
      by eapply same_constraints_below_eq.
    + intros key lit Hkey. simpl. by apply HstableI, Hstable.
    + eapply domains_prefix_trans; [exact Hprefix|]. exact HprefixI.
    + rewrite Hcons_e, length_insert, length_app, length_insert. lia.
  - (* The value is met once: the index literal becomes its target literal. *)
    pose proof (InsertVarValueEncoding_spec I target w0 context_b)
      as (Hnone & Hsome & HotherT & HstableT & HdomT & HconsT).
    set (context_c := InsertVarValueEncoding I target w0 context_b) in *.
    assert (Henc_b : encoding context_b = encoding context_a) by done.
    unfold link_invariant. cbv zeta. fold index. fold target.
    split; [|split; [|split; [|split; [|split; [|split; [|split]]]]]].
    + eapply Forall2_impl; [exact Hlits'|]. intros x y Hxy.
      apply HstableT. by rewrite Henc_b.
    + rewrite HconsT, Hcons_b. by rewrite list_lookup_insert_eq.
    + intros w k' Hw. rewrite literals_of_value_snoc by done. fold w0.
      destruct (decide (w0 = w)) as [<-|Hne]; [congruence|]. rewrite app_nil_r.
      destruct (Hclauses w k' Hw) as (T' & HT' & Hk' & Himp').
      destruct (Hks w k' Hw) as [Hk0' Hke'].
      exists T'. split; [apply HstableT; rewrite Henc_b; by apply HstableI|].
      split.
      * rewrite HconsT, Hcons_b. by rewrite list_lookup_insert_ne by lia.
      * intros l Hl. rewrite HconsT, Hcons_b.
        apply (elem_of_insert_other _ exactly_one _ (plain (kExactlyOne lits)));
          [by apply Himp' | done | done].
    + intros w Hw. rewrite indices_of_value_snoc. fold w0.
      specialize (Honce w Hw).
      destruct (decide (w0 = w)) as [<-|Hne].
      * destruct (indices_of_value context0 element w0 p) as [|v' [|? ?]]; simpl; [|done|done].
        exists I. split; [apply HstableT; by rewrite Henc_b|].
        assert (Hkey_b : encoding context_b !! encoding_key target w0
                         = encoding context1 !! encoding_key target w0).
        { rewrite Henc_b, HotherI by apply not_eq_sym, Hkeys. exact Honce. }
        destruct (encoding context1 !! encoding_key target w0) as [T0|].
        -- destruct (Hsome T0 Hkey_b) as [_ Hor]. exact Hor.
        -- by destruct (Hnone Hkey_b).
      * rewrite app_nil_r.
        assert (Hkey_ne : encoding_key target w <> encoding_key target w0).
        { intros E. apply encoding_key_inj in E. congruence. }
        destruct (indices_of_value context0 element w p) as [|v' [|? ?]]; [| |done].
        -- rewrite HotherT by done. rewrite Henc_b, HotherI by apply not_eq_sym, Hkeys.
           exact Honce.
        -- destruct Honce as (l & Hl & Hmatch). exists l.
           split; [apply HstableT; rewrite Henc_b; by apply HstableI|].
           destruct (encoding context1 !! encoding_key target w).
           ++ destruct Hmatch as [?|Hin]; [by left|]. right.
              assert (Hmono : forall x, x ∈ equalities context_b -> x ∈ equalities context_c).
              { intros x Hx. subst context_c. unfold InsertVarValueEncoding.
                destruct (encoding context_b !! encoding_key target w0); [|done].
                destruct (decide _); [done|]. simpl. apply elem_of_app. by left. }
              apply Hmono. simpl. by rewrite HeqI.
           ++ apply HstableT. rewrite Henc_b. by apply HstableI.
    + eapply same_constraints_below_eq; [|exact HconsT].
      apply same_constraints_below_set; [lia|]. by eapply same_constraints_below_eq.
    + intros key lit Hkey. apply HstableT. rewrite Henc_b. by apply HstableI, Hstable.
    + destruct Hprefix as [e1 H1]. destruct HprefixI as [e2 H2].
      exists (e1 ++ e2). rewrite HdomT. simpl. by rewrite H2, H1, app_assoc.
    + rewrite HconsT, Hcons_b, length_insert. lia.
Qed.

Lemma supports_invariant_fold (context0 : PresolveContext)
    (element : ElementConstraintProto.t) (vs : list Z) :
  Forall (fun v => PositiveRef (element_var element v)
                   < Z.of_nat (length (domains context0))) vs ->
  supports_invariant context0 element vs
    (foldl (constant_array_support element) (∅, ∅, context0) vs).
Proof.
  intros Hvs.
  apply (foldl_invariant (supports_invariant context0 element) _ _ vs
           (supports_invariant_step context0 element) Hvs []).
  unfold supports_invariant, count_of, indices_of_value. simpl.
  split; [done|]. split.
  { intros w. split; [|lia]. intros [? H]. by rewrite lookup_empty in H. }
  split; [done|]. split; [done|].
  split; [by apply same_constraints_below_refl|].
  split; [apply encoding_stable_refl|].
  split; [apply domains_prefix_refl|].
  split; [done|by left].
Qed.

Lemma link_invariant_fold (context0 context1 : PresolveContext)
    (element : ElementConstraintProto.t) (supports : gmap Z nat) (exactly_one : nat)
    (vs : list Z) (context : PresolveContext) :
  PositiveRef (ElementConstraintProto.index element)
    <> PositiveRef (ElementConstraintProto.target element) ->
  Forall (fun v => PositiveRef (element_var element v)
                   < Z.of_nat (length (domains context0))) vs ->
  (forall w k, supports !! w = Some k ->
               (length (constraints context0) <= k < exactly_one)%nat) ->
  (forall w w' k, supports !! w = Some k -> supports !! w' = Some k -> w = w') ->
  (length (constraints context0) <= exactly_one)%nat ->
  link_invariant context0 context1 element supports exactly_one [] [] context ->
  exists lits,
    link_invariant context0 context1 element supports exactly_one vs lits
      (foldl (constant_array_link element supports exactly_one) context vs).
Proof.
  intros Hdistinct Hvs Hks Hinj He Hinit.
  apply (foldl_invariant
           (fun p s => exists lits,
                link_invariant context0 context1 element supports exactly_one p lits s)
           (fun v => PositiveRef (element_var element v)
                     < Z.of_nat (length (domains context0)))
           _ vs) with (p := []); [|exact Hvs|by exists []].
  intros p x s Hx [lits Hinv].
  destruct (link_invariant_step context0 context1 element supports exactly_one p lits x s)
    as [l Hl]; try done.
  by exists (lits ++ [l]).
Qed.

Lemma ExpandConstantArrayElement_spec (c : nat) (context : PresolveContext)
    (ct : ConstraintProto.t) (element : ElementConstraintProto.t) :
  let index := ElementConstraintProto.index element in
  let target := ElementConstraintProto.target element in
  let vs := Domain.Values (DomainOf context index) in
  let context' := ExpandConstantArrayElement c context in
  constraints context !! c = Some ct ->
  ConstraintProto.constraint ct = kElement element ->
  PositiveRef index <> PositiveRef target ->
  Forall (fun v => PositiveRef (element_var element v)
                   < Z.of_nat (length (domains context))) vs ->
  exists (lits : list Z) (exactly_one : nat),
    Forall2 (fun v l => encoding context' !! encoding_key index v = Some l) vs lits
    /\ constraints context' !! exactly_one = Some (plain (kExactlyOne lits))
    /\ (forall w, (2 <= length (indices_of_value context element w vs))%nat ->
          exists (T : Z) (k : nat),
            encoding context' !! encoding_key target w = Some T
            /\ constraints context' !! k
               = Some (plain (kBoolOr (NegatedRef T
                                         :: literals_of_value context element w vs lits)))
            /\ forall l, l ∈ literals_of_value context element w vs lits ->
                         ConstraintProto.mk [l] (kBoolAnd [T]) ∈ constraints context')
    /\ (forall w v, indices_of_value context element w vs = [v] ->
          exists l, encoding context' !! encoding_key index v = Some l
                    /\ match encoding context !! encoding_key target w with
                       | None => encoding context' !! encoding_key target w = Some l
                       | Some T0 => T0 = l \/ (l, T0) ∈ equalities context'
                       end)
    /\ constraints context' !! c = Some ConstraintProto.cleared
    /\ (forall i, (i < length (constraints context))%nat -> i <> c ->
                  constraints context' !! i = constraints context !! i).
Proof.
  intros index target vs context' Hc Hct Hdistinct Hvs.
  assert (Helement : element_of (constraint_at c context) = element).
  { unfold element_of, constraint_at. rewrite Hc. simpl. by rewrite Hct. }
  assert (Hclt : (c < length (constraints context))%nat) by (by eapply lookup_lt_Some).
  subst context'. unfold ExpandConstantArrayElement. cbv zeta. rewrite Helement.
  fold index. fold vs.
  pose proof (supports_invariant_fold context element vs Hvs) as Hinv1.
  destruct (foldl (constant_array_support element) (∅, ∅, context) vs)
    as [[usage supports] context1].
  destruct Hinv1 as (Hcount & Hsup & Hclause & Hinj & Hsame & Hstable & Hprefix & Heq & Hnew).
  fold target in Hclause, Hnew.
  set (exactly_one := constraints_size context1).
  set (context2 := add_constraints (plain (kExactlyOne [])) context1).
  destruct (link_invariant_fold context context1 element supports exactly_one vs context2)
    as [lits (Hlits & Hexactly & Hclauses & Honce & Hsame3 & Hstable3 & Hprefix3 & Hlen3)];
    try done.
  - intros w k Hk. destruct (Hclause w k Hk) as [? _]. unfold exactly_one, constraints_size. lia.
  - destruct Hsame as (_ & _ & ?). done.
  - split; [constructor|]. split.
    { subst context2. rewrite constraints_add_constraints.
      unfold exactly_one, constraints_size. by rewrite list_lookup_middle. }
    split.
    { intros w k Hk. destruct (Hclause w k Hk) as [Hlt (T & HT & Hlookup)].
      exists T. split; [done|]. split.
      - subst context2. rewrite constraints_add_constraints, lookup_app_l by lia. done.
      - intros l Hl. by apply elem_of_nil in Hl. }
    split; [done|].
    split; [by apply same_constraints_below_add|].
    split; [by intros ? ?|]. split; [done|].
    subst context2. rewrite constraints_add_constraints, length_app. simpl. lia.
  - fold index in Hlits, Honce. fold target in Hclauses, Honce.
    set (context3 := foldl (constant_array_link element supports exactly_one) context2 vs) in *.
    assert (He : (length (constraints context) <= exactly_one)%nat)
      by (destruct Hsame as (_ & _ & ?); done).
    assert (Hc3 : constraints context3 !! c = Some ct).
    { by rewrite (same_constraints_below_lookup _ c _ _ Hsame3). }
    exists lits, exactly_one.
    rewrite constraints_Clear, constraints_UpdateRuleStats.
    split; [exact Hlits|].
    split; [by rewrite list_lookup_insert_ne by lia|].
    split.
    { intros w Hw. apply Hsup in Hw as [k Hk].
      destruct (Hclauses w k Hk) as (T & HT & Hlookup & Himp).
      destruct (Hclause w k Hk) as [Hlt _].
      exists T, k. split; [done|]. split; [by rewrite list_lookup_insert_ne by lia|].
      intros l Hl. apply (elem_of_insert_other _ c _ ct); [by apply Himp | done |].
      intros E. rewrite <- E in Hct. discriminate. }
    split.
    { intros w v Hw.
      assert (Hnone : supports !! w = None).
      { destruct (supports !! w) eqn:E; [|done].
        assert (Hsome : is_Some (supports !! w)) by (rewrite E; eauto).
        apply Hsup in Hsome. rewrite Hw in Hsome. simpl in Hsome. lia. }
      specialize (Honce w Hnone). rewrite Hw in Honce.
      assert (Hsame_key : encoding context1 !! encoding_key target w
                          = encoding context !! encoding_key target w).
      { destruct (encoding context1 !! encoding_key target w) as [T0|] eqn:E1.
        - destruct (Hnew _ _ E1) as [?|(w' & Hkey & Hw')]; [done|].
          apply encoding_key_inj in Hkey as <-. rewrite Hnone in Hw'. by destruct Hw'.
        - destruct (encoding context !! encoding_key target w) as [T0|] eqn:E0; [|done].
          apply Hstable in E0. congruence. }
      rewrite Hsame_key in Honce. exact Honce. }
    split; [by apply list_lookup_insert_eq; eapply lookup_lt_Some|].
    intros i Hi Hne. rewrite list_lookup_insert_ne by done.
    by rewrite (same_constraints_below_lookup _ i _ _ Hsame3).
Qed.

(** C7. In [ExpandConstantArrayElement], on an element constraint whose index
    and target are different variables and whose array variables exist, every
    index value gets its index literal and these literals form the
    exactly-one; a value met at least twice in the array gets the clause
    [not (target == value)] or the index literals of its positions, each of
    which implies [target == value]; a value met once has its index literal
    stored as the literal of [target == value] (when the target already had
    one, both are the same or are recorded as equal); the element constraint
    is cleared and the other constraints are kept.  On the array [7, 7, 9]
    with the index in [0, 2] and the target in [7, 9], [ExpandElement]
    reduces the target to 7 or 9, [index == 2] and [target == 9] share the
    literal 8 among the 9 variables of the result, and the clause is
    [not (target == 7)] or [index == 0] or [index == 1]. *)
Theorem ExpandElement_constant_array :
  (forall (c : nat) (context : PresolveContext) (ct : ConstraintProto.t)
          (element : ElementConstraintProto.t),
      let index := ElementConstraintProto.index element in
      let target := ElementConstraintProto.target element in
      let vs := Domain.Values (DomainOf context index) in
      let context' := ExpandConstantArrayElement c context in
      constraints context !! c = Some ct ->
      ConstraintProto.constraint ct = kElement element ->
      PositiveRef index <> PositiveRef target ->
      forallb (fun v => PositiveRef (element_var element v)
                        <? Z.of_nat (length (domains context))) vs = true ->
      exists (lits : list Z) (exactly_one : nat),
        Forall2 (fun v l => HasVarValueEncoding context' index v = Some l) vs lits
        /\ constraints context' !! exactly_one = Some (plain (kExactlyOne lits))
        /\ (forall w, (2 <= length (indices_of_value context element w vs))%nat ->
              exists (T : Z) (k : nat),
                HasVarValueEncoding context' target w = Some T
                /\ constraints context' !! k
                   = Some (plain (kBoolOr (NegatedRef T
                                             :: literals_of_value context element w vs lits)))
                /\ forall l, l ∈ literals_of_value context element w vs lits ->
                             ConstraintProto.mk [l] (kBoolAnd [T]) ∈ constraints context')
        /\ (forall w v, indices_of_value context element w vs = [v] ->
              exists l, HasVarValueEncoding context' index v = Some l
                        /\ match HasVarValueEncoding context target w with
                           | None => HasVarValueEncoding context' target w = Some l
                           | Some T0 => T0 = l \/ (l, T0) ∈ equalities context'
                           end)
        /\ constraints context' !! c = Some ConstraintProto.cleared
        /\ (forall i, (i < length (constraints context))%nat -> i <> c ->
                      constraints context' !! i = constraints context !! i))
  /\ (let context' := ExpandElement 0 constant_element_context in
      context' = ExpandConstantArrayElement 0 reduced_element_context
      /\ DomainOf context' 1 = [(7, 7); (9, 9)]
      /\ variables_size context' = 9
      /\ HasVarValueEncoding context' 0 0 = Some 6
      /\ HasVarValueEncoding context' 0 1 = Some 7
      /\ HasVarValueEncoding context' 0 2 = Some 8
      /\ HasVarValueEncoding context' 1 7 = Some 5
      /\ HasVarValueEncoding context' 1 9 = Some 8
      /\ constraints context'
         = [ConstraintProto.cleared;
            plain (kBoolOr [NegatedRef 5; 6; 7]);
            plain (kExactlyOne [6; 7; 8]);
            ConstraintProto.mk [6] (kBoolAnd [5]);
            ConstraintProto.mk [7] (kBoolAnd [5])]).
Proof.
  split.
  - intros c context ct element index target vs context' Hc Hct Hdistinct Hvs.
    apply (ExpandConstantArrayElement_spec c context ct element Hc Hct Hdistinct).
    apply Forall_forall. intros v Hv.
    rewrite forallb_forall in Hvs. apply Z.ltb_lt, Hvs. by apply list_elem_of_In.
  - vm_compute. repeat split; reflexivity.
Qed.

Lemma ExpandElement_constant_array_witness :
  let context := reduced_element_context in
  let element := constant_element in
  let vs : list Z := [0; 1; 2] in
  let context' := ExpandConstantArrayElement 0 context in
  exists (lits : list Z) (exactly_one : nat),
    Forall2 (fun v l => HasVarValueEncoding context' 0 v = Some l) vs lits
    /\ constraints context' !! exactly_one = Some (plain (kExactlyOne lits))
    /\ (forall w, (2 <= length (indices_of_value context element w vs))%nat ->
          exists (T : Z) (k : nat),
            HasVarValueEncoding context' 1 w = Some T
            /\ constraints context' !! k
               = Some (plain (kBoolOr (NegatedRef T
                                         :: literals_of_value context element w vs
                                              lits)))
            /\ forall l, l ∈ literals_of_value context element w vs lits ->
                         ConstraintProto.mk [l] (kBoolAnd [T]) ∈ constraints context')
    /\ (forall w v, indices_of_value context element w vs = [v] ->
          exists l, HasVarValueEncoding context' 0 v = Some l
                    /\ match HasVarValueEncoding context 1 w with
                       | None => HasVarValueEncoding context' 1 w = Some l
                       | Some T0 => T0 = l \/ (l, T0) ∈ equalities context'
                       end)
    /\ constraints context' !! 0%nat = Some ConstraintProto.cleared
    /\ (forall i, (i < length (constraints context))%nat -> i <> 0%nat ->
                  constraints context' !! i = constraints context !! i).
Proof.
  refine (proj1 ExpandElement_constant_array 0%nat reduced_element_context
            (plain (kElement constant_element)) constant_element _ _ _ _).
  - vm_compute; reflexivity.
  - reflexivity.
  - vm_compute; lia.
  - vm_compute; reflexivity.
Defined.

(** * Linear constraints with a complex right-hand side: the constraints of
    the expansion *)

Lemma same_store_refl (context : PresolveContext) : same_store context context.
Proof. by repeat split. Qed.

Lemma same_store_trans (c1 c2 c3 : PresolveContext) :
  same_store c1 c2 -> same_store c2 c3 -> same_store c1 c3.
Proof. intros (? & ? & ? & ?) (? & ? & ? & ?). repeat split; congruence. Qed.

Lemma new_vars_snoc (n : Z) (m : nat) :
  new_vars n (S m) = new_vars n m ++ [n + Z.of_nat m].
Proof.
  revert n. induction m as [|m IH]; intros n.
  - simpl. f_equal. lia.
  - change (new_vars n (S (S m))) with (n :: new_vars (n + 1) (S m)).
    rewrite IH. simpl. do 3 f_equal. lia.
Qed.

Lemma length_new_vars (n : Z) (m : nat) : length (new_vars n m) = m.
Proof. revert n. induction m as [|m IH]; intros n; simpl; [done|]. by rewrite IH. Qed.

Lemma lookup_new_vars (n : Z) (m i : nat) :
  (i < m)%nat -> new_vars n m !! i = Some (n + Z.of_nat i).
Proof.
  revert n i. induction m as [|m IH]; intros n i Hi; [lia|].
  destruct i as [|i]; simpl.
  - f_equal. lia.
  - rewrite IH by lia. f_equal. lia.
Qed.

Lemma elem_of_new_vars (n : Z) (m : nat) (v : Z) :
  v ∈ new_vars n m <-> n <= v < n + Z.of_nat m.
Proof.
  revert n. induction m as [|m IH]; intros n; simpl.
  - rewrite elem_of_nil. lia.
  - rewrite elem_of_cons, IH. lia.
Qed.

Lemma complex_linear_subdomain_clause (linear : LinearConstraintProto.t) (K : nat)
    (single_bool : Z) (lits0 pre : list Z) (context : PresolveContext)
    (i : nat) (b : Z * Z) :
  initialized context ->
  constraints context !! K = Some (plain (kBoolOr pre)) ->
  let r := complex_linear_subdomain linear (Some K) single_bool (lits0, context) (i, b) in
  let n := variables_size context in
  r.1 = lits0 ++ [n]
  /\ initialized r.2
  /\ domains r.2 = domains context ++ [bool_domain]
  /\ variables_size r.2 = n + 1
  /\ constraints r.2
     = <[K := plain (kBoolOr (pre ++ [n]))]> (constraints context)
       ++ [subdomain_constraint linear n b]
  /\ same_store context r.2.
Proof.
  intros Hinit HK. destruct b as [lb ub]. unfold complex_linear_subdomain, NewBoolVar.
  pose proof (NewIntVar_index (Domain.Range 0 1) context) as Hindex.
  pose proof (NewIntVar_initialized (Domain.Range 0 1) context Hinit) as Hinit1.
  pose proof (NewIntVar_domains (Domain.Range 0 1) context Hinit) as Hdom1.
  pose proof (NewIntVar_variables_size (Domain.Range 0 1) context) as Hsize1.
  pose proof (NewIntVar_constraints (Domain.Range 0 1) context) as Hcons1.
  assert (Hstore1 : same_store context (NewIntVar (Domain.Range 0 1) context).2)
    by (by repeat split).
  destruct (NewIntVar (Domain.Range 0 1) context) as [lit context1].
  cbn [fst snd] in Hindex, Hinit1, Hdom1, Hsize1, Hcons1, Hstore1. subst lit.
  cbv beta iota zeta.
  rewrite (add_literals_bool_or K _ [] pre context1) by (by rewrite Hcons1).
  cbn [fst snd].
  split; [done|]. split; [done|]. split; [done|]. split; [done|].
  split; [|done].
  by rewrite constraints_add_constraints, constraints_set_constraint, Hcons1.
Qed.

(** The loop over the intervals when the literals go to a clause: one new
    Boolean and one constraint per interval. *)
Lemma complex_linear_clause_loop (linear : LinearConstraintProto.t) (K : nat)
    (single_bool : Z) (intervals : list (Z * Z)) :
  forall (g : nat -> nat) (lits0 pre : list Z) (context : PresolveContext),
    initialized context ->
    constraints context !! K = Some (plain (kBoolOr pre)) ->
    let r := foldl (complex_linear_subdomain linear (Some K) single_bool) (lits0, context)
               (imap (fun i b => (g i, b)) intervals) in
    let n := variables_size context in
    let m := length intervals in
    r.1 = lits0 ++ new_vars n m
    /\ initialized r.2
    /\ domains r.2 = domains context ++ replicate m bool_domain
    /\ variables_size r.2 = n + Z.of_nat m
    /\ constraints r.2
       = <[K := plain (kBoolOr (pre ++ new_vars n m))]> (constraints context)
         ++ zip_with (subdomain_constraint linear) (new_vars n m) intervals
    /\ same_store context r.2.
Proof.
  induction intervals as [|b intervals IH]; intros g lits0 pre context Hinit HK.
  - simpl. rewrite !app_nil_r. rewrite list_insert_id by done.
    repeat split; try done. lia.
  - cbn [imap foldl length new_vars replicate zip_with].
    change (imap ((fun i b => (g i, b)) ∘ S) intervals)
      with (imap (fun i b => (g (S i), b)) intervals).
    destruct (complex_linear_subdomain_clause linear K single_bool lits0 pre context
                (g 0%nat) b Hinit HK) as (Hlits1 & Hinit1 & Hdom1 & Hsize1 & Hcons1 & Hstore1).
    destruct (complex_linear_subdomain linear (Some K) single_bool (lits0, context) (g 0%nat, b))
      as [lits1 context1].
    cbn [fst snd] in Hlits1, Hinit1, Hdom1, Hsize1, Hcons1, Hstore1.
    assert (HK' : (K < length (constraints context))%nat) by (by eapply lookup_lt_Some).
    destruct (IH (fun i => g (S i)) lits1 (pre ++ [variables_size context]) context1)
      as (Hlits & Hinit' & Hdom' & Hsize' & Hcons' & Hstore').
    { done. }
    { rewrite Hcons1, lookup_app_l by (rewrite length_insert; lia).
      by rewrite list_lookup_insert_eq. }
    cbv zeta. rewrite Hsize1 in *.
    split; [by rewrite Hlits, Hlits1, <- app_assoc|].
    split; [done|].
    split; [rewrite Hdom', Hdom1, <- app_assoc; done|].
    split; [lia|].
    split.
    + rewrite Hcons', Hcons1. rewrite insert_app_l by (rewrite length_insert; lia).
      rewrite list_insert_insert_eq, <- !app_assoc. done.
    + eapply same_store_trans; [exact Hstore1|]. exact Hstore'.
Qed.

Lemma only_constraints_refl (context : PresolveContext) : only_constraints context context.
Proof. split; [done|]. split; [done|]. apply same_store_refl. Qed.

Lemma only_constraints_trans (c1 c2 c3 : PresolveContext) :
  only_constraints c1 c2 -> only_constraints c2 c3 -> only_constraints c1 c3.
Proof.
  intros (? & ? & ?) (? & ? & ?). split; [congruence|]. split; [congruence|].
  by eapply same_store_trans.
Qed.

Lemma only_constraints_add (ct : ConstraintProto.t) (context : PresolveContext) :
  only_constraints context (add_constraints ct context).
Proof. by repeat split. Qed.

Lemma only_constraints_set (i : nat) (ct : ConstraintProto.t) (context : PresolveContext) :
  only_constraints context (set_constraint i ct context).
Proof. by repeat split. Qed.

Lemma only_constraints_initialized (context context' : PresolveContext) :
  only_constraints context context' -> initialized context -> initialized context'.
Proof. intros (Hd & Hv & _). unfold initialized. by rewrite Hd, Hv. Qed.

Lemma only_constraints_variables_size (context context' : PresolveContext) :
  only_constraints context context' -> variables_size context' = variables_size context.
Proof. intros (_ & Hv & _). unfold variables_size. by rewrite Hv. Qed.

(** A loop that appends one constraint per element and one literal to the
    clause of index [K]. *)
Lemma clause_and_constraints_loop {A : Type} (K : nat) (f : A -> Z)
    (h : A -> ConstraintProto.t) (l : list A) :
  forall (pre : list Z) (context : PresolveContext),
    constraints context !! K = Some (plain (kBoolOr pre)) ->
    let context' :=
      foldl (fun context x => add_literals K (f x) (add_constraints (h x) context))
            context l in
    constraints context'
    = <[K := plain (kBoolOr (pre ++ map f l))]> (constraints context) ++ map h l
    /\ only_constraints context context'.
Proof.
  induction l as [|x l IH]; intros pre context HK; cbn [foldl map].
  - rewrite !app_nil_r, list_insert_id by done. split; [done|]. apply only_constraints_refl.
  - assert (HK' : (K < length (constraints context))%nat) by (by eapply lookup_lt_Some).
    rewrite (add_literals_bool_or K (f x) [] pre (add_constraints (h x) context))
      by (by rewrite constraints_add_constraints, lookup_app_l).
    set (context1 := set_constraint K _ (add_constraints (h x) context)).
    assert (Hcons1 : constraints context1
                     = <[K := plain (kBoolOr (pre ++ [f x]))]> (constraints context) ++ [h x]).
    { subst context1.
      by rewrite constraints_set_constraint, constraints_add_constraints, insert_app_l. }
    destruct (IH (pre ++ [f x]) context1) as [Hcons Honly].
    { rewrite Hcons1, lookup_app_l by (rewrite length_insert; lia).
      by rewrite list_lookup_insert_eq. }
    split.
    + rewrite Hcons, Hcons1. rewrite insert_app_l by (rewrite length_insert; lia).
      by rewrite list_insert_insert_eq, <- !app_assoc.
    + eapply only_constraints_trans; [|exact Honly].
      subst context1. eapply only_constraints_trans;
        [apply only_constraints_add | apply only_constraints_set].
Qed.

(** A loop that appends one constraint per element. *)
Lemma constraints_loop {A : Type} (h : A -> ConstraintProto.t) (l : list A) :
  forall context : PresolveContext,
    let context' := foldl (fun context x => add_constraints (h x) context) context l in
    constraints context' = constraints context ++ map h l
    /\ only_constraints context context'.
Proof.
  induction l as [|x l IH]; intros context; cbn [foldl map].
  - rewrite app_nil_r. split; [done|]. apply only_constraints_refl.
  - destruct (IH (add_constraints (h x) context)) as [Hcons Honly]. split.
    + by rewrite Hcons, constraints_add_constraints, <- app_assoc.
    + eapply only_constraints_trans; [apply only_constraints_add | exact Honly].
Qed.

Lemma implications_loop (a : Z) (lits : list Z) (context : PresolveContext) :
  let context' :=
    foldl (fun context lit => AddImplication a (NegatedRef lit) context) context lits in
  constraints context' = constraints context ++ map (fun lit => implication a (NegatedRef lit)) lits
  /\ only_constraints context context'.
Proof. exact (constraints_loop (fun lit => implication a (NegatedRef lit)) lits context). Qed.

Lemma insert_length_app {A : Type} (l k : list A) (x y : A) :
  <[length l := y]> (l ++ x :: k) = l ++ y :: k.
Proof. by rewrite insert_app_r_alt, Nat.sub_diag by lia. Qed.

(** The constraints added when all solutions are enumerated. *)
Lemma complex_linear_tight_spec (enforcement lits : list Z) (context : PresolveContext) :
  initialized context ->
  enforcement <> [] ->
  let r := complex_linear_is_enforced enforcement context in
  let context' :=
    foldl (fun context lit => AddImplication (NegatedRef r.1) (NegatedRef lit) context)
          r.2 lits in
  let t := complex_linear_tight enforcement lits (variables_size context) in
  domains context' = domains context ++ t.1
  /\ variables_size context' = variables_size context + Z.of_nat (length t.1)
  /\ constraints context' = constraints context ++ t.2
  /\ same_store context context'
  /\ initialized context'.
Proof.
  intros Hinit Hne.
  assert (Hcases : (exists e, enforcement = [e])
                   \/ (complex_linear_is_enforced enforcement context
                       = (let '(linear_is_enforced, context) := NewBoolVar context in
                          let maintain := constraints_size context in
                          let context := add_constraints (plain (kBoolOr [])) context in
                          let context :=
                            foldl
                              (fun context e_lit =>
                                 add_literals maintain (NegatedRef e_lit)
                                   (AddImplication (NegatedRef e_lit)
                                      (NegatedRef linear_is_enforced) context))
                              context enforcement in
                          (linear_is_enforced,
                           add_literals maintain linear_is_enforced context))
                       /\ complex_linear_tight enforcement lits (variables_size context)
                          = ([bool_domain],
                             plain (kBoolOr (map NegatedRef enforcement
                                               ++ [variables_size context]))
                               :: map (fun e => implication (NegatedRef e)
                                                  (NegatedRef (variables_size context)))
                                      enforcement
                               ++ map (fun lit => implication
                                                    (NegatedRef (variables_size context))
                                                    (NegatedRef lit)) lits))).
  { destruct enforcement as [|e [|e' enforcement]]; [done | left; eauto | right; done]. }
  destruct Hcases as [[e ->] | [Hr Ht]].
  - cbn [complex_linear_is_enforced complex_linear_tight fst snd length].
    destruct (implications_loop (NegatedRef e) lits context)
      as [Hcons (Hd & Hv & Hstore)].
    cbv zeta in Hcons, Hd, Hv, Hstore.
    split; [by rewrite app_nil_r|]. split; [unfold variables_size; rewrite Hv; lia|].
    split; [exact Hcons|]. split; [exact Hstore|].
    unfold initialized. by rewrite Hd, Hv.
  - cbv zeta. rewrite Hr, Ht. clear Hr Ht. unfold NewBoolVar.
    pose proof (NewIntVar_index (Domain.Range 0 1) context) as Hindex.
    pose proof (NewIntVar_initialized (Domain.Range 0 1) context Hinit) as Hinit1.
    pose proof (NewIntVar_domains (Domain.Range 0 1) context Hinit) as Hdom1.
    pose proof (NewIntVar_variables_size (Domain.Range 0 1) context) as Hsize1.
    pose proof (NewIntVar_constraints (Domain.Range 0 1) context) as Hcons1.
    assert (Hstore1 : same_store context (NewIntVar (Domain.Range 0 1) context).2)
      by (by repeat split).
    destruct (NewIntVar (Domain.Range 0 1) context) as [le context1].
    cbn [fst snd] in Hindex, Hinit1, Hdom1, Hsize1, Hcons1, Hstore1. subst le.
    cbv beta iota zeta. cbn [fst snd length].
    set (n := variables_size context) in *.
    set (K := constraints_size context1).
    set (context2 := add_constraints (plain (kBoolOr [])) context1).
    assert (HK : K = length (constraints context)) by (unfold K, constraints_size; by rewrite Hcons1).
    destruct (clause_and_constraints_loop K NegatedRef
                (fun e => implication (NegatedRef e) (NegatedRef n)) enforcement [] context2)
      as [Hcons3 Honly3].
    { subst context2. rewrite constraints_add_constraints, Hcons1, HK.
      by rewrite list_lookup_middle. }
    cbv zeta in Hcons3, Honly3.
    set (context3 := foldl _ context2 enforcement) in *.
    assert (Hcons3' : constraints context3
                      = constraints context
                        ++ plain (kBoolOr (map NegatedRef enforcement))
                        :: map (fun e => implication (NegatedRef e) (NegatedRef n)) enforcement).
    { rewrite Hcons3. subst context2. rewrite constraints_add_constraints, Hcons1, HK.
      rewrite insert_length_app. by rewrite <- app_assoc. }
    rewrite (add_literals_bool_or K n [] (map NegatedRef enforcement) context3)
      by (by rewrite Hcons3', HK, list_lookup_middle).
    set (context4 := set_constraint K _ context3).
    assert (Honly4 : only_constraints context1 context4).
    { eapply only_constraints_trans; [apply (only_constraints_add (plain (kBoolOr [])))|].
      eapply only_constraints_trans; [exact Honly3|]. apply only_constraints_set. }
    destruct (implications_loop (NegatedRef n) lits context4) as [Hcons5 Honly5].
    cbv zeta in Hcons5, Honly5.
    assert (Honly : only_constraints context1
                      (foldl (fun context lit =>
                                AddImplication (NegatedRef n) (NegatedRef lit) context)
                             context4 lits))
      by (by eapply only_constraints_trans).
    destruct Honly as (Hd & Hv & Hstore).
    split; [rewrite Hd, Hdom1; reflexivity|].
    split; [unfold variables_size in *; rewrite Hv; lia|].
    split.
    + etransitivity; [exact Hcons5|]. subst context4.
      rewrite constraints_set_constraint, Hcons3', HK, insert_length_app.
      by rewrite <- app_assoc.
    + split; [by eapply same_store_trans|]. unfold initialized. rewrite Hd, Hv. exact Hinit1.
Qed.

Lemma InitializeNewDomains_initialized (context : PresolveContext) :
  initialized context -> domains (InitializeNewDomains context) = domains context.
Proof.
  unfold initialized, InitializeNewDomains. intros H. simpl.
  rewrite drop_ge by lia. simpl. by rewrite app_nil_r.
Qed.

(** The bookkeeping at the end of [ExpandComplexLinearConstraint] leaves the
    model as it is. *)
Lemma complex_linear_bookkeeping (c : nat) (name : string) (context : PresolveContext) :
  initialized context ->
  let context' :=
    UpdateConstraintVariableUsage c
      (UpdateNewConstraintsVariableUsage
         (InitializeNewDomains (UpdateRuleStats name context))) in
  domains context' = domains context
  /\ variables_size context' = variables_size context
  /\ constraints context' = constraints context
  /\ same_store context context'.
Proof.
  intros Hinit. cbv zeta.
  split; [|by repeat split].
  change (domains (InitializeNewDomains (UpdateRuleStats name context)) = domains context).
  by rewrite InitializeNewDomains_initialized.
Qed.

Lemma complex_linear_single_loop (linear : LinearConstraintProto.t) (single_bool : Z)
    (context : PresolveContext) (i j : Z * Z) :
  foldl (complex_linear_subdomain linear None single_bool) ([], context)
        (imap (fun i b => (i, b)) [i; j])
  = ([single_bool],
     add_constraints (subdomain_constraint linear (NegatedRef single_bool) j)
       (add_constraints (subdomain_constraint linear single_bool i) context)).
Proof. by destruct i, j. Qed.

(** The Boolean encoding, as a simple expansion. *)
Lemma ExpandComplexLinearConstraint_boolean (c : nat) (context : PresolveContext)
    (ct : ConstraintProto.t) (linear : LinearConstraintProto.t) :
  constraints context !! c = Some ct ->
  ConstraintProto.constraint ct = kLinear linear ->
  (2 < length (LinearConstraintProto.domain linear))%nat ->
  length (LinearConstraintProto.vars linear) <> 1%nat ->
  SatParameters.encode_complex_linear_constraint_with_integer (params context) = false ->
  initialized context ->
  let out :=
    complex_linear_boolean (SatParameters.enumerate_all_solutions (params context))
      (ConstraintProto.enforcement_literal ct) linear (variables_size context) in
  simple_expansion context (ExpandComplexLinearConstraint c context) c
    ConstraintProto.cleared out.1 out.2.
Proof.
  intros Hc Hkind Hdomain Hvars Hinteger Hinit out.
  assert (Hclt : (c < length (constraints context))%nat) by (by eapply lookup_lt_Some).
  unfold ExpandComplexLinearConstraint.
  assert (Hat : constraint_at c context = ct) by (unfold constraint_at; by rewrite Hc).
  rewrite Hat.
  assert (Hlin : ConstraintProto.linear ct = linear)
    by (unfold ConstraintProto.linear; by rewrite Hkind).
  cbv zeta. rewrite Hlin, Hinteger.
  destruct (Nat.leb_spec (length (LinearConstraintProto.domain linear)) 2) as [?|_]; [lia|].
  destruct (Nat.eqb_spec (length (LinearConstraintProto.vars linear)) 1) as [?|_]; [done|].
  subst out. unfold complex_linear_boolean.
  set (enforcement := ConstraintProto.enforcement_literal ct).
  set (n := variables_size context).
  destruct (bool_decide (enforcement = [])
            && (length (LinearConstraintProto.domain linear) =? 4)%nat) eqn:Hsingle.
  - (* One Boolean for the two intervals. *)
    apply andb_true_iff in Hsingle as [Henf Hfour].
    apply bool_decide_eq_true_1 in Henf. apply Nat.eqb_eq in Hfour.
    destruct (LinearConstraintProto.domain linear) as [|a [|b [|a' [|b' [|? ?]]]]] eqn:Hd;
      try discriminate Hfour.
    unfold NewBoolVar.
    pose proof (NewIntVar_index (Domain.Range 0 1) context) as Hindex.
    pose proof (NewIntVar_initialized (Domain.Range 0 1) context Hinit) as Hinit1.
    pose proof (NewIntVar_domains (Domain.Range 0 1) context Hinit) as Hdom1.
    pose proof (NewIntVar_variables_size (Domain.Range 0 1) context) as Hsize1.
    pose proof (NewIntVar_constraints (Domain.Range 0 1) context) as Hcons1.
    assert (Hstore1 : same_store context (NewIntVar (Domain.Range 0 1) context).2)
      by (by repeat split).
    destruct (NewIntVar (Domain.Range 0 1) context) as [lit context1].
    cbn [fst snd] in Hindex, Hinit1, Hdom1, Hsize1, Hcons1, Hstore1. subst lit.
    cbv beta iota zeta. cbn [pair_up]. rewrite complex_linear_single_loop.
    destruct Hstore1 as (He1 & Hq1 & Hu1 & Hp1).
    rewrite (bool_decide_eq_true_2 (enforcement = []) Henf).
    cbn [negb]. rewrite andb_false_r.
    match goal with
    | |- simple_expansion _ (UpdateConstraintVariableUsage c
           (UpdateNewConstraintsVariableUsage
              (InitializeNewDomains (UpdateRuleStats ?name ?X)))) _ _ _ _ =>
        destruct (complex_linear_bookkeeping c name X) as (Hbd & Hbv & Hbc & Hbs);
        [exact Hinit1|]
    end.
    cbv zeta in Hbd, Hbv, Hbc, Hbs. destruct Hbs as (Hbe & Hbq & Hbu & Hbp).
    unfold simple_expansion. rewrite Hbd, Hbc, Hbe, Hbq, Hbu, Hbv.
    cbn [fst snd length zip_with].
    change (variables_size (Clear c _)) with (variables_size context1).
    change (domains (Clear c _)) with (domains context1).
    change (encoding (Clear c _)) with (encoding context1).
    change (equalities (Clear c _)) with (equalities context1).
    change (is_unsat (Clear c _)) with (is_unsat context1).
    split; [exact Hdom1|]. split; [fold n; lia|].
    split; [|by repeat split].
    rewrite constraints_Clear, !constraints_add_constraints, constraints_set_constraint, Hcons1.
    rewrite !insert_app_l by (rewrite ?length_app, length_insert; lia).
    rewrite list_insert_insert_eq, <- app_assoc. reflexivity.
  - (* One Boolean per interval, in a clause. *)
    set (clause := plain (kBoolOr (map NegatedRef enforcement))).
    set (K := constraints_size context).
    set (context2 := set_constraint c _ (add_constraints clause context)).
    set (intervals := pair_up (LinearConstraintProto.domain linear)).
    destruct (complex_linear_clause_loop linear K 0 intervals (fun i => i) []
                (map NegatedRef enforcement) context2)
      as (Hlits & Hinit3 & Hdom3 & Hsize3 & Hcons3 & Hstore3).
    { done. }
    { subst context2. rewrite constraints_set_constraint, constraints_add_constraints.
      rewrite list_lookup_insert_ne by (unfold K, constraints_size; lia).
      unfold K, constraints_size. by rewrite list_lookup_middle. }
    destruct (foldl (complex_linear_subdomain linear (Some K) 0) ([], context2)
                (imap (fun i b => (i, b)) intervals)) as [lits context3].
    cbn [fst snd app] in Hlits, Hinit3, Hdom3, Hsize3, Hcons3, Hstore3.
    change (variables_size context2) with n in *.
    change (domains context2) with (domains context) in *.
    assert (Hcons3' : constraints context3
                      = <[c := ConstraintProto.mk [] (ConstraintProto.constraint ct)]>
                          (constraints context)
                        ++ plain (kBoolOr (map NegatedRef enforcement
                                             ++ new_vars n (length intervals)))
                        :: zip_with (subdomain_constraint linear)
                             (new_vars n (length intervals)) intervals).
    { rewrite Hcons3. subst context2.
      rewrite constraints_set_constraint, constraints_add_constraints.
      rewrite insert_app_l by lia.
      replace K with (length (<[c := ConstraintProto.mk [] (ConstraintProto.constraint ct)]>
                                (constraints context)))
        by (by rewrite length_insert).
      rewrite insert_length_app. by rewrite <- app_assoc. }
    destruct Hstore3 as (He3 & Hq3 & Hu3 & Hp3).
    change (params context2) with (params context) in Hp3.
    change (encoding context2) with (encoding context) in He3.
    change (equalities context2) with (equalities context) in Hq3.
    change (is_unsat context2) with (is_unsat context) in Hu3.
    rewrite Hp3. subst lits.
    destruct (SatParameters.enumerate_all_solutions (params context)
              && negb (bool_decide (enforcement = []))) eqn:Htight.
    + apply andb_true_iff in Htight as [_ Hne]. apply negb_true_iff in Hne.
      apply bool_decide_eq_false_1 in Hne.
      destruct (complex_linear_tight_spec enforcement (new_vars n (length intervals))
                  context3 Hinit3 Hne) as (Hdom5 & Hsize5 & Hcons5 & Hstore5 & Hinit5).
      cbv zeta in Hdom5, Hsize5, Hcons5, Hstore5, Hinit5.
      destruct (complex_linear_is_enforced enforcement context3) as [le context4].
      cbn [fst snd] in Hdom5, Hsize5, Hcons5, Hstore5, Hinit5.
      set (context5 := foldl _ context4 (new_vars n (length intervals))) in *.
      rewrite Hsize3 in Hsize5, Hcons5, Hdom5.
      destruct (complex_linear_bookkeeping c "linear: expanded complex rhs"
                  (Clear c context5)) as (Hbd & Hbv & Hbc & Hbs); [exact Hinit5|].
      cbv zeta in Hbd, Hbv, Hbc, Hbs. destruct Hbs as (Hbe & Hbq & Hbu & Hbp).
      destruct Hstore5 as (He5 & Hq5 & Hu5 & Hp5).
      unfold simple_expansion. rewrite Hbd, Hbc, Hbe, Hbq, Hbu, Hbv.
      cbn [fst snd].
      split; [rewrite domains_Clear, Hdom5, Hdom3, app_assoc; done|].
      split; [rewrite variables_size_Clear, Hsize5, length_app, length_replicate; lia|].
      split; [|split; [|split]].
      * rewrite constraints_Clear, Hcons5, Hcons3'.
        rewrite !insert_app_l by (rewrite ?length_app, length_insert; lia).
        rewrite list_insert_insert_eq, <- app_assoc. reflexivity.
      * change (encoding (Clear c context5)) with (encoding context5). congruence.
      * change (equalities (Clear c context5)) with (equalities context5). congruence.
      * change (is_unsat (Clear c context5)) with (is_unsat context5). congruence.
    + destruct (complex_linear_bookkeeping c "linear: expanded complex rhs"
                  (Clear c context3)) as (Hbd & Hbv & Hbc & Hbs); [exact Hinit3|].
      cbv zeta in Hbd, Hbv, Hbc, Hbs. destruct Hbs as (Hbe & Hbq & Hbu & Hbp).
      unfold simple_expansion. rewrite Hbd, Hbc, Hbe, Hbq, Hbu, Hbv.
      cbn [fst snd].
      split; [rewrite domains_Clear, Hdom3, app_nil_r; done|].
      split; [rewrite variables_size_Clear, Hsize3, app_nil_r, length_replicate; lia|].
      split; [|split; [|split]].
      * rewrite constraints_Clear, Hcons3', app_nil_r.
        rewrite !insert_app_l by (rewrite ?length_app, length_insert; lia).
        rewrite list_insert_insert_eq. reflexivity.
      * change (encoding (Clear c context3)) with (encoding context3). congruence.
      * change (equalities (Clear c context3)) with (equalities context3). congruence.
      * change (is_unsat (Clear c context3)) with (is_unsat context3). congruence.
Qed.

(** The integer encoding, as a simple expansion: the constraint becomes
    [expr - slack = 0] for a new variable of domain the right-hand side. *)
Lemma ExpandComplexLinearConstraint_integer (c : nat) (context : PresolveContext)
    (ct : ConstraintProto.t) (linear : LinearConstraintProto.t) :
  constraints context !! c = Some ct ->
  ConstraintProto.constraint ct = kLinear linear ->
  (2 < length (LinearConstraintProto.domain linear))%nat ->
  length (LinearConstraintProto.vars linear) <> 1%nat ->
  SatParameters.encode_complex_linear_constraint_with_integer (params context) = true ->
  initialized context ->
  simple_expansion context (ExpandComplexLinearConstraint c context) c
    (ConstraintProto.mk (ConstraintProto.enforcement_literal ct)
       (kLinear (LinearConstraintProto.mk
          (LinearConstraintProto.vars linear ++ [variables_size context])
          (LinearConstraintProto.coeffs linear ++ [-1])
          [0; 0])))
    [ReadDomainFromProto (LinearConstraintProto.domain linear)] [].
Proof.
  intros Hc Hkind Hdomain Hvars Hinteger Hinit.
  unfold ExpandComplexLinearConstraint.
  assert (Hat : constraint_at c context = ct) by (unfold constraint_at; by rewrite Hc).
  rewrite Hat.
  assert (Hlin : ConstraintProto.linear ct = linear)
    by (unfold ConstraintProto.linear; by rewrite Hkind).
  cbv zeta. rewrite Hlin, Hinteger.
  destruct (Nat.leb_spec (length (LinearConstraintProto.domain linear)) 2) as [?|_]; [lia|].
  destruct (Nat.eqb_spec (length (LinearConstraintProto.vars linear)) 1) as [?|_]; [done|].
  set (rhs := ReadDomainFromProto (LinearConstraintProto.domain linear)).
  pose proof (NewIntVar_index rhs context) as Hindex.
  pose proof (NewIntVar_initialized rhs context Hinit) as Hinit1.
  pose proof (NewIntVar_domains rhs context Hinit) as Hdom1.
  pose proof (NewIntVar_variables_size rhs context) as Hsize1.
  pose proof (NewIntVar_constraints rhs context) as Hcons1.
  assert (Hstore1 : same_store context (NewIntVar rhs context).2) by (by repeat split).
  destruct (NewIntVar rhs context) as [slack context1].
  cbn [fst snd] in Hindex, Hinit1, Hdom1, Hsize1, Hcons1, Hstore1. subst slack.
  cbv beta iota zeta.
  rewrite DomainFacts.ReadDomainFromProto_FillDomainInProto in Hdom1
    by apply DomainFacts.valid_normalise.
  match goal with
  | |- simple_expansion _ (UpdateConstraintVariableUsage c
         (UpdateNewConstraintsVariableUsage
            (InitializeNewDomains (UpdateRuleStats ?name ?X)))) _ _ _ _ =>
      destruct (complex_linear_bookkeeping c name X) as (Hbd & Hbv & Hbc & Hbs);
      [exact Hinit1|]
  end.
  cbv zeta in Hbd, Hbv, Hbc, Hbs. destruct Hbs as (Hbe & Hbq & Hbu & Hbp).
  destruct Hstore1 as (He1 & Hq1 & Hu1 & Hp1).
  unfold simple_expansion. rewrite Hbd, Hbc, Hbe, Hbq, Hbu, Hbv.
  split; [exact Hdom1|]. split; [exact Hsize1|].
  split; [|by repeat split].
  by rewrite constraints_set_constraint, Hcons1, app_nil_r.
Qed.

(** * Linear constraints with a complex right-hand side: the solutions *)

Section ComplexLinearSemantics.

Variable other_holds : assignment -> Constraint -> bool.

Lemma holds_linear (s : assignment) (enforcement : list Z) (linear : LinearConstraintProto.t) :
  holds other_holds s (ConstraintProto.mk enforcement (kLinear linear))
  = implb (forallb (literal_value s) enforcement)
          (existsb (fun i => Domain.in_interval i
                               (sum_terms s (LinearConstraintProto.vars linear)
                                  (LinearConstraintProto.coeffs linear)))
                   (pair_up (LinearConstraintProto.domain linear))).
Proof.
  unfold holds, constraint_holds, linear_holds, ReadDomainFromProto. simpl.
  by rewrite DomainFacts.Contains_normalise.
Qed.

Lemma holds_subdomain (s : assignment) (linear : LinearConstraintProto.t) (lit : Z)
    (i : Z * Z) :
  holds other_holds s (subdomain_constraint linear lit i)
  = implb (literal_value s lit)
          (Domain.in_interval i
             (sum_terms s (LinearConstraintProto.vars linear)
                (LinearConstraintProto.coeffs linear))).
Proof.
  unfold holds, subdomain_constraint, constraint_holds, linear_holds. simpl.
  rewrite andb_true_r.
  rewrite DomainFacts.ReadDomainFromProto_FillDomainInProto by apply DomainFacts.valid_Range.
  by rewrite DomainFacts.Contains_Range.
Qed.

Lemma holds_implication (s : assignment) (a b : Z) :
  holds other_holds s (implication a b) = implb (literal_value s a) (literal_value s b).
Proof. unfold holds, implication. simpl. by rewrite !andb_true_r. Qed.

Lemma holds_clause (s : assignment) (lits : list Z) :
  holds other_holds s (plain (kBoolOr lits)) = existsb (literal_value s) lits.
Proof. reflexivity. Qed.

Lemma existsb_negated_enforcement (s : assignment) (enforcement : list Z) :
  existsb (literal_value s) (map NegatedRef enforcement)
  = negb (forallb (literal_value s) enforcement).
Proof.
  induction enforcement as [|e enforcement IH]; simpl; [done|].
  rewrite IH, literal_value_NegatedRef. by destruct (literal_value s e), (forallb _ _).
Qed.

Lemma existsb_new_vars (s : assignment) (n : Z) (m : nat) :
  0 <= n ->
  existsb (literal_value s) (new_vars n m) = true
  <-> exists i, (i < m)%nat /\ s (n + Z.of_nat i) = 1.
Proof.
  intros Hn. rewrite existsb_exists. split.
  - intros (l & Hl & Hv). apply list_elem_of_In, list_elem_of_lookup in Hl as [i Hi].
    assert (Hlt : (i < m)%nat) by (apply lookup_lt_Some in Hi; by rewrite length_new_vars in Hi).
    rewrite lookup_new_vars in Hi by done. injection Hi as <-.
    exists i. split; [done|]. rewrite literal_value_positive in Hv by lia. lia.
  - intros (i & Hi & Hv). exists (n + Z.of_nat i). split.
    + apply list_elem_of_In, elem_of_new_vars. lia.
    + rewrite literal_value_positive by lia. lia.
Qed.

Lemma subdomain_constraints_lookup (linear : LinearConstraintProto.t) (n : Z)
    (intervals : list (Z * Z)) (i : nat) (b : Z * Z) :
  intervals !! i = Some b ->
  subdomain_constraint linear (n + Z.of_nat i) b
  ∈ zip_with (subdomain_constraint linear) (new_vars n (length intervals)) intervals.
Proof.
  intros Hi. apply (list_elem_of_lookup_2 _ i). rewrite lookup_zip_with.
  rewrite lookup_new_vars by (by eapply lookup_lt_Some). simpl. by rewrite Hi.
Qed.

(** No spurious solution: the constraints of the Boolean encoding imply the
    linear constraint. *)
Lemma complex_linear_boolean_sound (enumerate : bool) (enforcement : list Z)
    (linear : LinearConstraintProto.t) (n : Z) (s : assignment) :
  0 <= n ->
  (forall ct, ct ∈ (complex_linear_boolean enumerate enforcement linear n).2 ->
              holds other_holds s ct = true) ->
  holds other_holds s (ConstraintProto.mk enforcement (kLinear linear)) = true.
Proof.
  intros Hn Hnews. rewrite holds_linear. unfold complex_linear_boolean in Hnews.
  set (intervals := pair_up (LinearConstraintProto.domain linear)) in *.
  set (value := sum_terms s _ _).
  destruct (bool_decide (enforcement = [])
            && (length (LinearConstraintProto.domain linear) =? 4)%nat) eqn:Hsingle.
  - apply andb_true_iff in Hsingle as [_ Hfour]. apply Nat.eqb_eq in Hfour.
    subst intervals.
    destruct (LinearConstraintProto.domain linear) as [|a [|b [|a' [|b' [|? ?]]]]];
      try discriminate Hfour.
    cbn [pair_up zip_with snd existsb] in *.
    pose proof (Hnews _ ltac:(left)) as H0.
    pose proof (Hnews _ ltac:(right; left)) as H1.
    rewrite holds_subdomain in H0, H1. rewrite literal_value_NegatedRef in H1.
    fold value in H0, H1.
    destruct (literal_value s n); simpl in H0, H1; rewrite ?H0, ?H1, ?orb_true_r;
      by destruct (forallb _ _).
  - cbn [snd] in Hnews.
    destruct (forallb (literal_value s) enforcement) eqn:Henforced; [simpl|done].
    pose proof (Hnews _ ltac:(left)) as Hclause.
    rewrite holds_clause, existsb_app, existsb_negated_enforcement, Henforced in Hclause.
    simpl in Hclause. apply existsb_new_vars in Hclause as (i & Hi & Hv); [|done].
    destruct (lookup_lt_is_Some_2 intervals i Hi) as [b Hb].
    assert (Hsub : holds other_holds s (subdomain_constraint linear (n + Z.of_nat i) b) = true).
    { apply Hnews. right. apply elem_of_app. left. by apply subdomain_constraints_lookup. }
    rewrite holds_subdomain, literal_value_positive in Hsub by lia.
    fold value in Hsub. rewrite Hv in Hsub. simpl in Hsub.
    apply existsb_exists. exists b. split; [|done].
    apply list_elem_of_In. by eapply list_elem_of_lookup_2.
Qed.

Lemma b2z_eqb_1 (b : bool) : (Z.b2z b =? 1) = b.
Proof. by destruct b. Qed.

Lemma Contains_bool_domain_b2z (b : bool) : Domain.Contains bool_domain (Z.b2z b) = true.
Proof. by destruct b. Qed.

Lemma forallb_false_elem (f : Z -> bool) (l : list Z) (x : Z) :
  x ∈ l -> f x = false -> forallb f l = false.
Proof.
  intros Hx Hf. destruct (forallb f l) eqn:E; [|done].
  rewrite forallb_forall in E. rewrite <- Hf. symmetry. apply E. by apply list_elem_of_In.
Qed.

(** No lost solution: a solution of the linear constraint, extended by
    [complex_linear_values], satisfies the constraints of the Boolean
    encoding. *)
Lemma complex_linear_boolean_complete (enumerate : bool) (enforcement : list Z)
    (linear : LinearConstraintProto.t) (n : Z) (s : assignment) :
  0 <= n ->
  Forall (fun v => PositiveRef v < n) enforcement ->
  Forall (fun v => PositiveRef v < n) (LinearConstraintProto.vars linear) ->
  holds other_holds s (ConstraintProto.mk enforcement (kLinear linear)) = true ->
  let s' := override s n (complex_linear_values enforcement linear s) in
  let out := complex_linear_boolean enumerate enforcement linear n in
  (forall i d, out.1 !! i = Some d -> Domain.Contains d (s' (n + Z.of_nat i)) = true)
  /\ (forall ct, ct ∈ out.2 -> holds other_holds s' ct = true).
Proof.
  intros Hn Henf Hvars Hholds s' out.
  set (intervals := pair_up (LinearConstraintProto.domain linear)) in *.
  set (m := length intervals).
  set (enforced := forallb (literal_value s) enforcement).
  set (value := sum_terms s (LinearConstraintProto.vars linear)
                  (LinearConstraintProto.coeffs linear)).
  assert (Hagree : agree n s s') by apply override_agree.
  assert (Hvalue : sum_terms s' (LinearConstraintProto.vars linear)
                     (LinearConstraintProto.coeffs linear) = value).
  { symmetry. by apply (sum_terms_agree n). }
  assert (Henforced : forallb (literal_value s') enforcement = enforced).
  { symmetry. by apply (forallb_literal_value_agree n). }
  assert (Hlv : forall e, e ∈ enforcement -> literal_value s' e = literal_value s e).
  { intros e He. symmetry. apply (literal_value_agree n); [done|].
    rewrite Forall_forall in Henf. by apply Henf. }
  assert (Hnew : forall i b, intervals !! i = Some b ->
                   s' (n + Z.of_nat i) = Z.b2z (enforced && Domain.in_interval b value)).
  { intros i b Hb. apply override_new. unfold complex_linear_values.
    apply lookup_app_l_Some. rewrite list_lookup_fmap. fold intervals. by rewrite Hb. }
  assert (Hlast : s' (n + Z.of_nat m) = Z.b2z enforced).
  { apply override_new. unfold complex_linear_values. fold intervals.
    rewrite lookup_app_r by (rewrite length_map; subst m; lia).
    rewrite length_map. subst m. by rewrite Nat.sub_diag. }
  assert (Hbool : forall i, (i <= m)%nat ->
                    Domain.Contains bool_domain (s' (n + Z.of_nat i)) = true).
  { intros i Hi. destruct (decide (i = m)) as [->|Hne].
    - rewrite Hlast. apply Contains_bool_domain_b2z.
    - destruct (lookup_lt_is_Some_2 intervals i) as [b Hb]; [subst m; lia|].
      rewrite (Hnew i b Hb). apply Contains_bool_domain_b2z. }
  assert (Hlit : forall i b, intervals !! i = Some b ->
                   literal_value s' (n + Z.of_nat i)
                   = enforced && Domain.in_interval b value).
  { intros i b Hb. rewrite literal_value_positive by lia.
    by rewrite (Hnew i b Hb), b2z_eqb_1. }
  assert (Hle : literal_value s' (n + Z.of_nat m) = enforced).
  { rewrite literal_value_positive by lia. by rewrite Hlast, b2z_eqb_1. }
  rewrite holds_linear in Hholds. fold intervals value enforced in Hholds.
  assert (Hsubs : forall ct,
             ct ∈ zip_with (subdomain_constraint linear) (new_vars n m) intervals ->
             holds other_holds s' ct = true).
  { intros ct Hct. apply elem_of_lookup_zip_with in Hct as (i & l & b & -> & Hl & Hb).
    rewrite lookup_new_vars in Hl by (by eapply lookup_lt_Some). injection Hl as <-.
    rewrite holds_subdomain, Hvalue, (Hlit i b Hb).
    by destruct enforced, (Domain.in_interval b value). }
  subst out. unfold complex_linear_boolean. fold intervals m.
  destruct (bool_decide (enforcement = [])
            && (length (LinearConstraintProto.domain linear) =? 4)%nat) eqn:Hsingle.
  - apply andb_true_iff in Hsingle as [Hempty Hfour].
    apply bool_decide_eq_true_1 in Hempty. apply Nat.eqb_eq in Hfour.
    cbn [fst snd]. split.
    + intros i d Hd. destruct i as [|i]; [|done]. injection Hd as <-.
      apply (Hbool 0%nat). lia.
    + subst intervals m.
      destruct (LinearConstraintProto.domain linear) as [|a [|b [|a' [|b' [|? ?]]]]];
        try discriminate Hfour.
      cbn [pair_up zip_with existsb] in *.
      assert (He : enforced = true) by (subst enforced; by rewrite Hempty).
      rewrite He in Hholds. simpl in Hholds.
      pose proof (Hlit 0%nat (a, b) eq_refl) as H0. rewrite Z.add_0_r, He in H0.
      simpl in H0.
      intros ct Hct. apply elem_of_cons in Hct as [-> | Hct].
      * rewrite holds_subdomain, Hvalue, H0. by destruct (Domain.in_interval _ _).
      * apply list_elem_of_singleton in Hct as ->.
        rewrite holds_subdomain, Hvalue, literal_value_NegatedRef, H0.
        rewrite orb_false_r in Hholds.
        by destruct (Domain.in_interval (a, b) value), (Domain.in_interval (a', b') value).
  - cbn [fst snd]. split.
    + intros i d Hd. assert (d = bool_domain /\ (i <= m)%nat) as [-> Hi].
      { apply lookup_app_Some in Hd as [Hd | [Hge Hd]].
        - apply lookup_replicate in Hd as [-> ?]. split; [done | lia].
        - rewrite length_replicate in Hge, Hd.
          destruct (enumerate && negb (bool_decide (enforcement = []))); [|done].
          unfold complex_linear_tight in Hd.
          destruct enforcement as [|e [|e' enforcement']]; simpl in Hd;
            destruct (i - m)%nat as [|k] eqn:Hk; try done;
            injection Hd as <-; split; try done; lia. }
      by apply Hbool.
    + intros ct Hct. apply elem_of_cons in Hct as [-> | Hct].
      { rewrite holds_clause, existsb_app, existsb_negated_enforcement, Henforced.
        destruct enforced eqn:He; [simpl|done].
        simpl in Hholds. apply existsb_exists in Hholds as (b & Hb & Hin).
        apply list_elem_of_In, list_elem_of_lookup in Hb as [i Hi].
        apply existsb_exists. exists (n + Z.of_nat i). split.
        - apply list_elem_of_In, elem_of_new_vars. apply lookup_lt_Some in Hi. subst m. lia.
        - by rewrite (Hlit i b Hi), Hin. }
      apply elem_of_app in Hct as [Hct | Hct]; [by apply Hsubs|].
      destruct (enumerate && negb (bool_decide (enforcement = []))); [|by apply elem_of_nil in Hct].
      assert (Hlits : forall l, l ∈ new_vars n m ->
                        literal_value s' l = true -> enforced = true).
      { intros l Hl Hv. apply list_elem_of_lookup in Hl as [i Hi].
        assert (Hlt : (i < m)%nat)
          by (apply lookup_lt_Some in Hi; by rewrite length_new_vars in Hi).
        rewrite lookup_new_vars in Hi by done. injection Hi as <-.
        destruct (lookup_lt_is_Some_2 intervals i Hlt) as [b Hb].
        rewrite (Hlit i b Hb) in Hv. by apply andb_true_iff in Hv as [? _]. }
      assert (Hfalse : forall e, e ∈ enforcement -> literal_value s' e = false ->
                         enforced = false).
      { intros e He Hv. rewrite Hlv in Hv by done. by eapply forallb_false_elem. }
      unfold complex_linear_tight in Hct.
      assert (Hcases : (exists e, enforcement = [e])
                       \/ (ct ∈ (plain (kBoolOr (map NegatedRef enforcement
                                                   ++ [n + Z.of_nat m]))
                                 :: map (fun e => implication (NegatedRef e)
                                                    (NegatedRef (n + Z.of_nat m)))
                                        enforcement
                                 ++ map (fun lit => implication (NegatedRef (n + Z.of_nat m))
                                                      (NegatedRef lit))
                                        (new_vars n m)))).
      { destruct enforcement as [|e [|e' enforcement']]; [by right | left; eauto | by right]. }
      destruct Hcases as [[e ->] | Hct'].
      * cbn [snd] in Hct. apply list_elem_of_fmap in Hct as (l & -> & Hl).
        rewrite holds_implication, !literal_value_NegatedRef.
        destruct (literal_value s' e) eqn:Hve; [done|]. simpl.
        destruct (literal_value s' l) eqn:Hvl; [|done].
        rewrite (Hlits l Hl Hvl) in Hfalse. by discriminate (Hfalse e ltac:(left) Hve).
      * clear Hct. apply elem_of_cons in Hct' as [-> | Hct].
        { rewrite holds_clause, existsb_app, existsb_negated_enforcement, Henforced.
          simpl. rewrite Hle. by destruct enforced. }
        apply elem_of_app in Hct as [Hct | Hct].
        -- apply list_elem_of_fmap in Hct as (e & -> & He).
           rewrite holds_implication, !literal_value_NegatedRef, Hle.
           destruct (literal_value s' e) eqn:Hve; [done|]. simpl.
           by rewrite (Hfalse e He Hve).
        -- apply list_elem_of_fmap in Hct as (l & -> & Hl).
           rewrite holds_implication, !literal_value_NegatedRef, Hle.
           destruct enforced eqn:He; [done|]. simpl.
           destruct (literal_value s' l) eqn:Hvl; [|done].
           by discriminate (Hlits l Hl Hvl).
Qed.

Lemma sorted_intervals_cons (i : Z * Z) (d : list (Z * Z)) :
  sorted_intervals (i :: d) = true
  <-> i.1 <= i.2
      /\ match d with [] => True | j :: _ => i.2 < j.1 end
      /\ sorted_intervals d = true.
Proof.
  change (sorted_intervals (i :: d))
    with ((i.1 <=? i.2) && match d with [] => true | j :: _ => i.2 <? j.1 end
          && sorted_intervals d).
  rewrite !andb_true_iff, Z.leb_le. destruct d; rewrite ?Z.ltb_lt; tauto.
Qed.

Lemma sorted_intervals_above (i : Z * Z) (d : list (Z * Z)) (j : Z * Z) :
  sorted_intervals (i :: d) = true -> j ∈ d -> i.2 < j.1.
Proof.
  revert i. induction d as [|k d IH]; intros i Hs Hj; [by apply elem_of_nil in Hj|].
  apply sorted_intervals_cons in Hs as (Hi & Hik & Hd).
  apply elem_of_cons in Hj as [-> | Hj]; [done|].
  specialize (IH k Hd Hj). apply sorted_intervals_cons in Hd as (Hk & _ & _). lia.
Qed.

Lemma sorted_intervals_disjoint (d : list (Z * Z)) (i j : nat) (a b : Z * Z) (v : Z) :
  sorted_intervals d = true ->
  d !! i = Some a -> d !! j = Some b ->
  Domain.in_interval a v = true -> Domain.in_interval b v = true -> i = j.
Proof.
  unfold Domain.in_interval. rewrite !andb_true_iff, !Z.leb_le.
  revert i j. induction d as [|k d IH]; intros i j Hs Hi Hj Ha Hb; [done|].
  assert (Hd : sorted_intervals d = true) by (apply sorted_intervals_cons in Hs; tauto).
  destruct i as [|i], j as [|j]; simpl in Hi, Hj.
  - done.
  - injection Hi as ->. apply list_elem_of_lookup_2 in Hj.
    pose proof (sorted_intervals_above a d b Hs Hj). lia.
  - injection Hj as ->. apply list_elem_of_lookup_2 in Hi.
    pose proof (sorted_intervals_above b d a Hs Hi). lia.
  - f_equal. by apply IH.
Qed.

Lemma Contains_bool_domain (x : Z) :
  Domain.Contains bool_domain x = true -> x = Z.b2z (x =? 1).
Proof.
  unfold bool_domain, Domain.Contains, Domain.in_interval. simpl.
  rewrite orb_false_r, andb_true_iff, !Z.leb_le. intros [? ?].
  destruct (Z.eqb_spec x 1) as [->|?]; simpl; lia.
Qed.

(** The new variables are functionally determined: in a solution of the
    Boolean encoding, when the intervals are disjoint and either the
    constraint has no enforcement literal or all solutions are enumerated,
    the new variables have the values [complex_linear_values]. *)
Lemma complex_linear_boolean_determined (enumerate : bool) (enforcement : list Z)
    (linear : LinearConstraintProto.t) (n : Z) (s : assignment) :
  0 <= n ->
  sorted_intervals (pair_up (LinearConstraintProto.domain linear)) = true ->
  enforcement = [] \/ enumerate = true ->
  let out := complex_linear_boolean enumerate enforcement linear n in
  (forall i d, out.1 !! i = Some d -> Domain.Contains d (s (n + Z.of_nat i)) = true) ->
  (forall ct, ct ∈ out.2 -> holds other_holds s ct = true) ->
  forall i, (i < length out.1)%nat ->
    complex_linear_values enforcement linear s !! i = Some (s (n + Z.of_nat i)).
Proof.
  intros Hn Hsorted Htight out Hdoms Hnews.
  set (intervals := pair_up (LinearConstraintProto.domain linear)) in *.
  set (m := length intervals).
  set (enforced := forallb (literal_value s) enforcement).
  set (value := sum_terms s (LinearConstraintProto.vars linear)
                  (LinearConstraintProto.coeffs linear)).
  assert (Hbool : forall i, (i < length out.1)%nat ->
                    s (n + Z.of_nat i) = Z.b2z (literal_value s (n + Z.of_nat i))).
  { intros i Hi. rewrite literal_value_positive by lia.
    destruct (lookup_lt_is_Some_2 out.1 i Hi) as [d Hd].
    assert (d = bool_domain) as ->; [|by apply Contains_bool_domain, (Hdoms i)].
    subst out. unfold complex_linear_boolean in Hd.
    destruct (_ && _) in Hd; cbn [fst] in Hd.
    - by apply list_elem_of_lookup_2, list_elem_of_singleton in Hd.
    - apply lookup_app_Some in Hd as [Hd | [_ Hd]];
        [by apply lookup_replicate in Hd as [-> _]|].
      destruct (_ && _) in Hd; [|done]. unfold complex_linear_tight in Hd.
      apply list_elem_of_lookup_2 in Hd.
      destruct enforcement as [|e [|e' enforcement']]; cbn [fst] in Hd;
        try (by apply elem_of_nil in Hd); by apply list_elem_of_singleton in Hd. }
  assert (Hinterval : forall i b, intervals !! i = Some b ->
             complex_linear_values enforcement linear s !! i
             = Some (Z.b2z (enforced && Domain.in_interval b value))).
  { intros i b Hb. unfold complex_linear_values. apply lookup_app_l_Some.
    rewrite list_lookup_fmap. fold intervals. by rewrite Hb. }
  assert (Hlast : complex_linear_values enforcement linear s !! m = Some (Z.b2z enforced)).
  { unfold complex_linear_values. fold intervals.
    rewrite lookup_app_r by (rewrite length_map; subst m; lia).
    rewrite length_map. subst m. by rewrite Nat.sub_diag. }
  subst out. unfold complex_linear_boolean in *. fold intervals m in Hdoms, Hnews, Hbool |- *.
  destruct (bool_decide (enforcement = [])
            && (length (LinearConstraintProto.domain linear) =? 4)%nat) eqn:Hsingle.
  - apply andb_true_iff in Hsingle as [Hempty Hfour].
    apply bool_decide_eq_true_1 in Hempty. apply Nat.eqb_eq in Hfour.
    cbn [fst snd length] in *. intros i Hi. assert (i = 0%nat) as -> by lia.
    subst intervals m.
    destruct (LinearConstraintProto.domain linear) as [|a [|b [|a' [|b' [|? ?]]]]];
      try discriminate Hfour.
    cbn [pair_up zip_with] in *.
    rewrite (Hinterval 0%nat (a, b) eq_refl), (Hbool 0%nat) by lia. do 2 f_equal.
    assert (He : enforced = true) by (subst enforced; by rewrite Hempty).
    rewrite He. simpl.
    pose proof (Hnews _ ltac:(left)) as H0.
    pose proof (Hnews _ ltac:(right; left)) as H1.
    rewrite holds_subdomain in H0, H1. rewrite literal_value_NegatedRef in H1.
    fold value in H0, H1. rewrite Z.add_0_r.
    destruct (literal_value s n); simpl in H0, H1; [done|].
    destruct (Domain.in_interval (a, b) value) eqn:Ha; [|done].
    by discriminate (sorted_intervals_disjoint _ 0 1 (a, b) (a', b') value Hsorted).
  - cbn [fst snd] in *.
    pose proof (Hnews _ ltac:(left)) as Hclause.
    rewrite holds_clause, existsb_app, existsb_negated_enforcement in Hclause.
    fold enforced in Hclause.
    assert (Hsub : forall i b, intervals !! i = Some b ->
               literal_value s (n + Z.of_nat i) = true ->
               Domain.in_interval b value = true).
    { intros i b Hb Hv.
      assert (H : holds other_holds s (subdomain_constraint linear (n + Z.of_nat i) b) = true).
      { apply Hnews. right. apply elem_of_app. left. by apply subdomain_constraints_lookup. }
      rewrite holds_subdomain, Hv in H. exact H. }
    assert (Hback : forall i b, intervals !! i = Some b ->
               enforced = true -> Domain.in_interval b value = true ->
               literal_value s (n + Z.of_nat i) = true).
    { intros i b Hb He Hin. rewrite He in Hclause. simpl in Hclause.
      apply existsb_new_vars in Hclause as (j & Hj & Hv); [|done].
      destruct (lookup_lt_is_Some_2 intervals j Hj) as [b' Hb'].
      assert (Hvj : literal_value s (n + Z.of_nat j) = true).
      { rewrite literal_value_positive by lia. lia. }
      pose proof (Hsub j b' Hb' Hvj) as Hin'.
      by rewrite (sorted_intervals_disjoint _ i j b b' value Hsorted Hb Hb' Hin Hin'). }
    destruct (enumerate && negb (bool_decide (enforcement = []))) eqn:Hcond.
    + (* Tight: the literals are false when the constraint is not enforced. *)
      apply andb_true_iff in Hcond as [_ Hne]. apply negb_true_iff in Hne.
      apply bool_decide_eq_false_1 in Hne.
      assert (Hcases :
        (exists e, enforcement = [e]
           /\ complex_linear_tight enforcement (new_vars n m) (n + Z.of_nat m)
              = ([], map (fun lit => implication (NegatedRef e) (NegatedRef lit))
                         (new_vars n m)))
        \/ complex_linear_tight enforcement (new_vars n m) (n + Z.of_nat m)
           = ([bool_domain],
              plain (kBoolOr (map NegatedRef enforcement ++ [n + Z.of_nat m]))
                :: map (fun e => implication (NegatedRef e) (NegatedRef (n + Z.of_nat m)))
                       enforcement
                ++ map (fun lit => implication (NegatedRef (n + Z.of_nat m))
                                     (NegatedRef lit))
                       (new_vars n m))).
      { destruct enforcement as [|e [|e' enforcement']]; [done | left; eauto | by right]. }
      destruct Hcases as [(e & -> & Ht) | Ht]; rewrite Ht in *; clear Ht; cbn [fst snd] in *.
      * rewrite app_nil_r, length_replicate in *. intros i Hi.
        destruct (lookup_lt_is_Some_2 intervals i Hi) as [b Hb].
        rewrite (Hinterval i b Hb), (Hbool i) by done. do 2 f_equal.
        destruct (literal_value s (n + Z.of_nat i)) eqn:Hv.
        -- rewrite (Hsub i b Hb Hv), andb_true_r.
           assert (H : holds other_holds s
                         (implication (NegatedRef e) (NegatedRef (n + Z.of_nat i))) = true).
           { apply Hnews. right. apply elem_of_app. right.
             apply list_elem_of_fmap. exists (n + Z.of_nat i). split; [done|].
             apply elem_of_new_vars. lia. }
           rewrite holds_implication, !literal_value_NegatedRef, Hv in H.
           subst enforced. simpl. by destruct (literal_value s e).
        -- destruct enforced eqn:He; [|done]. simpl.
           destruct (Domain.in_interval b value) eqn:Hin; [|done].
           by rewrite (Hback i b Hb eq_refl Hin) in Hv.
      * assert (Hle : literal_value s (n + Z.of_nat m) = enforced).
        { destruct (literal_value s (n + Z.of_nat m)) eqn:Hv.
          - symmetry. apply forallb_forall. intros e He. apply list_elem_of_In in He.
            assert (H : holds other_holds s
                          (implication (NegatedRef e) (NegatedRef (n + Z.of_nat m))) = true).
            { apply Hnews. right. apply elem_of_app. right. right.
              apply elem_of_app. left. apply list_elem_of_fmap. eauto. }
            rewrite holds_implication, !literal_value_NegatedRef, Hv in H.
            by destruct (literal_value s e).
          - assert (H : holds other_holds s
                          (plain (kBoolOr (map NegatedRef enforcement
                                             ++ [n + Z.of_nat m]))) = true).
            { apply Hnews. right. apply elem_of_app. right. by left. }
            rewrite holds_clause, existsb_app, existsb_negated_enforcement in H.
            simpl in H. rewrite Hv in H. fold enforced in H. by destruct enforced. }
        rewrite length_app, length_replicate in *. cbn [length] in *. intros i Hi.
        destruct (decide (i = m)) as [->|Him].
        { rewrite Hlast, (Hbool m) by lia. by rewrite Hle. }
        assert (Hlt : (i < m)%nat) by lia.
        destruct (lookup_lt_is_Some_2 intervals i Hlt) as [b Hb].
        rewrite (Hinterval i b Hb), (Hbool i) by done. do 2 f_equal.
        destruct (literal_value s (n + Z.of_nat i)) eqn:Hv.
        -- rewrite (Hsub i b Hb Hv), andb_true_r.
           assert (H : holds other_holds s
                         (implication (NegatedRef (n + Z.of_nat m))
                            (NegatedRef (n + Z.of_nat i))) = true).
           { apply Hnews. right. apply elem_of_app. right. right.
             apply elem_of_app. right. apply list_elem_of_fmap.
             exists (n + Z.of_nat i). split; [done|]. apply elem_of_new_vars. lia. }
           rewrite holds_implication, !literal_value_NegatedRef, Hv, Hle in H.
           by destruct enforced.
        -- destruct enforced eqn:He; [|done]. simpl.
           destruct (Domain.in_interval b value) eqn:Hin; [|done].
           by rewrite (Hback i b Hb eq_refl Hin) in Hv.
    + (* No enforcement literal. *)
      assert (He : enforced = true).
      { destruct Htight as [-> | ->]; [done|]. simpl in Hcond.
        apply negb_false_iff, bool_decide_eq_true_1 in Hcond. subst enforced.
        by rewrite Hcond. }
      rewrite app_nil_r, length_replicate in *. intros i Hi.
      destruct (lookup_lt_is_Some_2 intervals i Hi) as [b Hb].
      rewrite (Hinterval i b Hb), (Hbool i) by done. do 2 f_equal.
      rewrite He. simpl.
      destruct (literal_value s (n + Z.of_nat i)) eqn:Hv; [by rewrite (Hsub i b Hb Hv)|].
      destruct (Domain.in_interval b value) eqn:Hin; [|done].
      by rewrite (Hback i b Hb He Hin) in Hv.
Qed.

Lemma complex_linear_values_agree (n : Z) (enforcement : list Z)
    (linear : LinearConstraintProto.t) (s s' : assignment) :
  agree n s s' ->
  Forall (fun v => PositiveRef v < n) enforcement ->
  Forall (fun v => PositiveRef v < n) (LinearConstraintProto.vars linear) ->
  complex_linear_values enforcement linear s = complex_linear_values enforcement linear s'.
Proof.
  intros Hagree Henf Hvars. unfold complex_linear_values.
  by rewrite (forallb_literal_value_agree n s s'), (sum_terms_agree n s s').
Qed.

Lemma refs_below_linear (n : Z) (enforcement : list Z) (linear : LinearConstraintProto.t) :
  refs_below n (ConstraintProto.mk enforcement (kLinear linear)) = true ->
  Forall (fun v => PositiveRef v < n) enforcement
  /\ Forall (fun v => PositiveRef v < n) (LinearConstraintProto.vars linear).
Proof.
  unfold refs_below, UsedVariables. simpl. rewrite forallb_forall. intros H.
  assert (Hall : forall v, v ∈ enforcement ++ LinearConstraintProto.vars linear ->
                           PositiveRef v < n).
  { intros v Hv. apply Z.ltb_lt, H, in_map. by apply list_elem_of_In. }
  split; apply Forall_forall; intros v Hv; apply Hall, elem_of_app; auto.
Qed.

(** The solutions of a model and of its expansion, in the simple case:
    projection, and the new variables as the only difference between two
    solutions. *)
Lemma simple_expansion_new_part (context context' : PresolveContext) (c : nat)
    (ct' : ConstraintProto.t) (new_domains : list Domain.t)
    (news : list ConstraintProto.t) (s : assignment) :
  simple_expansion context context' c ct' new_domains news ->
  initialized context ->
  (c < length (constraints context))%nat ->
  solution other_holds s context' = true ->
  (forall i d, new_domains !! i = Some d ->
               Domain.Contains d (s (variables_size context + Z.of_nat i)) = true)
  /\ (forall ct, ct ∈ news -> holds other_holds s ct = true)
  /\ holds other_holds s ct' = true.
Proof.
  intros (Hd & Hn & Hc & He & Hq & Hu) Hinit Hlt Hs.
  apply solution_spec in Hs as (Hunsat & Hdom & Hcons & Henc & Heq).
  assert (Hlen : Z.of_nat (length (domains context)) = variables_size context).
  { unfold initialized in Hinit. unfold variables_size. by rewrite Hinit. }
  split; [|split].
  - intros i d Hi.
    replace (variables_size context + Z.of_nat i)
      with (Z.of_nat (length (domains context) + i)) by lia.
    apply (proj1 (domains_hold_spec _ _) Hdom). rewrite Hd.
    by rewrite lookup_app_r, Nat.add_sub' by lia.
  - intros ct Hct. apply Hcons. rewrite Hc. apply elem_of_app. by right.
  - apply Hcons. rewrite Hc. apply elem_of_app. left.
    apply (list_elem_of_lookup_2 _ c). by apply list_lookup_insert_eq.
Qed.

(** The solutions before and after the Boolean encoding of a linear
    constraint with a complex right-hand side. *)
Lemma ExpandComplexLinearConstraint_boolean_solutions (c : nat) (context : PresolveContext)
    (ct : ConstraintProto.t) (linear : LinearConstraintProto.t) :
  constraints context !! c = Some ct ->
  ConstraintProto.constraint ct = kLinear linear ->
  (2 < length (LinearConstraintProto.domain linear))%nat ->
  length (LinearConstraintProto.vars linear) <> 1%nat ->
  SatParameters.encode_complex_linear_constraint_with_integer (params context) = false ->
  initialized context ->
  closed_model other_holds context ->
  cache_below (variables_size context) context = true ->
  refs_below (variables_size context) ct = true ->
  let context' := ExpandComplexLinearConstraint c context in
  (forall s, solution other_holds s context' = true -> solution other_holds s context = true)
  /\ (forall s, solution other_holds s context = true ->
        exists s', agree (variables_size context) s s'
                   /\ solution other_holds s' context' = true)
  /\ (sorted_intervals (pair_up (LinearConstraintProto.domain linear)) = true ->
      ConstraintProto.enforcement_literal ct = []
      \/ SatParameters.enumerate_all_solutions (params context) = true ->
      forall s1 s2,
        solution other_holds s1 context' = true ->
        solution other_holds s2 context' = true ->
        agree (variables_size context) s1 s2 ->
        agree (variables_size context') s1 s2).
Proof.
  intros Hc Hkind Hdomain Hvars Hinteger Hinit Hclosed Hcache Hrefs context'.
  pose proof (ExpandComplexLinearConstraint_boolean c context ct linear
                Hc Hkind Hdomain Hvars Hinteger Hinit) as Hshape.
  cbv zeta in Hshape. fold context' in Hshape.
  set (n := variables_size context) in *.
  set (enforcement := ConstraintProto.enforcement_literal ct) in *.
  set (out := complex_linear_boolean _ enforcement linear n) in *.
  assert (Hn : 0 <= n) by (subst n; unfold variables_size; lia).
  assert (Hct : ct = ConstraintProto.mk enforcement (kLinear linear)).
  { destruct ct as [enf k]. simpl in Hkind. by subst k. }
  assert (Hclt : (c < length (constraints context))%nat) by (by eapply lookup_lt_Some).
  destruct (refs_below_linear n enforcement linear) as [Henf Hlvars]; [by rewrite <- Hct|].
  split; [|split].
  - intros s Hs.
    destruct (simple_expansion_new_part _ _ _ _ _ _ s Hshape Hinit Hclt Hs) as (_ & Hnews & _).
    eapply expansion_projection;
      [exact (simple_expansion_shape _ _ _ _ _ _ Hshape) | exact Hc | exact Hs |].
    rewrite Hct. by eapply complex_linear_boolean_sound.
  - intros s Hs.
    exists (override s n (complex_linear_values enforcement linear s)).
    split; [apply override_agree|].
    assert (Hholds : holds other_holds s ct = true).
    { apply solution_spec in Hs as (_ & _ & Hcons & _). apply Hcons.
      by eapply list_elem_of_lookup_2. }
    rewrite Hct in Hholds.
    destruct (complex_linear_boolean_complete
                (SatParameters.enumerate_all_solutions (params context))
                enforcement linear n s Hn Henf Hlvars Hholds) as [Hdoms Hnews].
    eapply simple_expansion_extension; eauto using override_agree.
  - intros Hsorted Htight s1 s2 Hs1 Hs2 Hagree v Hv.
    destruct (decide (v < n)) as [Hlt|Hge]; [apply Hagree; lia|].
    destruct Hshape as (Hd & Hsize & _). fold n in Hsize. rewrite Hsize in Hv.
    pose proof (ExpandComplexLinearConstraint_boolean c context ct linear
                  Hc Hkind Hdomain Hvars Hinteger Hinit) as Hshape.
    cbv zeta in Hshape. fold context' n enforcement out in Hshape.
    destruct (simple_expansion_new_part _ _ _ _ _ _ s1 Hshape Hinit Hclt Hs1)
      as (Hdoms1 & Hnews1 & _).
    destruct (simple_expansion_new_part _ _ _ _ _ _ s2 Hshape Hinit Hclt Hs2)
      as (Hdoms2 & Hnews2 & _).
    assert (Hi : (Z.to_nat (v - n) < length out.1)%nat) by lia.
    pose proof (complex_linear_boolean_determined _ enforcement linear n s1 Hn Hsorted
                  Htight Hdoms1 Hnews1 _ Hi) as H1.
    pose proof (complex_linear_boolean_determined _ enforcement linear n s2 Hn Hsorted
                  Htight Hdoms2 Hnews2 _ Hi) as H2.
    rewrite (complex_linear_values_agree n enforcement linear s1 s2) in H1 by done.
    rewrite H1 in H2. injection H2 as H2.
    by replace (n + Z.of_nat (Z.to_nat (v - n))) with v in H2 by lia.
Qed.

Lemma Contains_Min (d : Domain.t) :
  valid_domain d -> Domain.IsEmpty d = false -> Domain.Contains d (Domain.Min d) = true.
Proof.
  destruct d as [|i d]; [done|]. simpl. intros [Hi _] _.
  unfold Domain.in_interval. apply orb_true_iff. left.
  apply andb_true_iff. rewrite !Z.leb_le. lia.
Qed.

Lemma holds_slack (s : assignment) (enforcement : list Z) (vars coeffs : list Z) (n : Z) :
  length vars = length coeffs -> 0 <= n ->
  holds other_holds s
    (ConstraintProto.mk enforcement
       (kLinear (LinearConstraintProto.mk (vars ++ [n]) (coeffs ++ [-1]) [0; 0])))
  = implb (forallb (literal_value s) enforcement) (sum_terms s vars coeffs =? s n).
Proof.
  intros Hlen Hn. unfold holds, constraint_holds, linear_holds. simpl.
  rewrite sum_terms_app by done. f_equal.
  unfold sum_terms at 2. simpl. unfold ref_value, RefIsPositive.
  destruct (Z.leb_spec 0 n); [|lia].
  unfold ReadDomainFromProto, Domain.Contains, Domain.in_interval. simpl.
  rewrite orb_false_r.
  destruct (Z.eqb_spec (sum_terms s vars coeffs) (s n)),
    (Z.leb_spec 0 (sum_terms s vars coeffs + (-1 * s n + 0))),
    (Z.leb_spec (sum_terms s vars coeffs + (-1 * s n + 0)) 0); simpl; try done; lia.
Qed.

(** The solutions before and after the integer encoding of a linear
    constraint with a complex right-hand side. *)
Lemma ExpandComplexLinearConstraint_integer_solutions (c : nat) (context : PresolveContext)
    (ct : ConstraintProto.t) (linear : LinearConstraintProto.t) :
  constraints context !! c = Some ct ->
  ConstraintProto.constraint ct = kLinear linear ->
  (2 < length (LinearConstraintProto.domain linear))%nat ->
  length (LinearConstraintProto.vars linear) <> 1%nat ->
  SatParameters.encode_complex_linear_constraint_with_integer (params context) = true ->
  initialized context ->
  closed_model other_holds context ->
  cache_below (variables_size context) context = true ->
  refs_below (variables_size context) ct = true ->
  length (LinearConstraintProto.vars linear) = length (LinearConstraintProto.coeffs linear) ->
  let context' := ExpandComplexLinearConstraint c context in
  (forall s, solution other_holds s context' = true -> solution other_holds s context = true)
  /\ (Domain.IsEmpty (ReadDomainFromProto (LinearConstraintProto.domain linear)) = false ->
      forall s, solution other_holds s context = true ->
        exists s', agree (variables_size context) s s'
                   /\ solution other_holds s' context' = true)
  /\ (ConstraintProto.enforcement_literal ct = [] ->
      forall s1 s2,
        solution other_holds s1 context' = true ->
        solution other_holds s2 context' = true ->
        agree (variables_size context) s1 s2 ->
        agree (variables_size context') s1 s2).
Proof.
  intros Hc Hkind Hdomain Hvars Hinteger Hinit Hclosed Hcache Hrefs Hlen context'.
  pose proof (ExpandComplexLinearConstraint_integer c context ct linear
                Hc Hkind Hdomain Hvars Hinteger Hinit) as Hshape.
  fold context' in Hshape.
  set (n := variables_size context) in *.
  set (enforcement := ConstraintProto.enforcement_literal ct) in *.
  set (rhs := ReadDomainFromProto (LinearConstraintProto.domain linear)) in *.
  assert (Hn : 0 <= n) by (subst n; unfold variables_size; lia).
  assert (Hct : ct = ConstraintProto.mk enforcement (kLinear linear)).
  { destruct ct as [enf k]. simpl in Hkind. by subst k. }
  assert (Hclt : (c < length (constraints context))%nat) by (by eapply lookup_lt_Some).
  destruct (refs_below_linear n enforcement linear) as [Henf Hlvars]; [by rewrite <- Hct|].
  assert (Hrhs : forall s,
             holds other_holds s ct
             = implb (forallb (literal_value s) enforcement)
                     (Domain.Contains rhs
                        (sum_terms s (LinearConstraintProto.vars linear)
                           (LinearConstraintProto.coeffs linear)))).
  { intros s. rewrite Hct at 1. rewrite holds_linear. subst rhs.
    unfold ReadDomainFromProto. by rewrite DomainFacts.Contains_normalise. }
  split; [|split].
  - intros s Hs.
    destruct (simple_expansion_new_part _ _ _ _ _ _ s Hshape Hinit Hclt Hs)
      as (Hdoms & _ & Hslack).
    eapply expansion_projection;
      [exact (simple_expansion_shape _ _ _ _ _ _ Hshape) | exact Hc | exact Hs |].
    rewrite Hrhs. rewrite holds_slack in Hslack by done.
    specialize (Hdoms 0%nat rhs eq_refl). rewrite Z.add_0_r in Hdoms.
    destruct (forallb (literal_value s) enforcement); [simpl in *|done].
    apply Z.eqb_eq in Hslack. by rewrite Hslack.
  - intros Hnonempty s Hs.
    set (value := sum_terms s (LinearConstraintProto.vars linear)
                    (LinearConstraintProto.coeffs linear)).
    set (slack := if Domain.Contains rhs value then value else Domain.Min rhs).
    exists (override s n [slack]). split; [apply override_agree|].
    assert (Hholds : holds other_holds s ct = true).
    { apply solution_spec in Hs as (_ & _ & Hcons & _). apply Hcons.
      by eapply list_elem_of_lookup_2. }
    rewrite Hrhs in Hholds. fold value in Hholds.
    assert (Hslack : override s n [slack] n = slack).
    { pose proof (override_new s n [slack] 0 slack eq_refl) as H.
      by rewrite Z.add_0_r in H. }
    refine (simple_expansion_extension _ _ _ _ _ _ _ s _ Hshape Hinit Hclosed Hcache Hs
              (override_agree _ _ _) _ _ _).
    + intros i d Hd. destruct i as [|i]; [|done]. injection Hd as <-.
      fold n. change (Z.of_nat 0) with 0. rewrite Z.add_0_r, Hslack. subst slack.
      destruct (Domain.Contains rhs value) eqn:E; [done|].
      apply Contains_Min; [apply DomainFacts.valid_normalise | done].
    + fold n. rewrite holds_slack by done. rewrite Hslack.
      rewrite <- (forallb_literal_value_agree n s) by (done || apply override_agree).
      rewrite <- (sum_terms_agree n s) by (done || apply override_agree).
      fold value. destruct (forallb (literal_value s) enforcement); [simpl in *|done].
      subst slack. rewrite Hholds. apply Z.eqb_refl.
    + intros ct0 H0. by apply elem_of_nil in H0.
  - intros Hempty s1 s2 Hs1 Hs2 Hagree v Hv.
    destruct (decide (v < n)) as [Hlt|Hge]; [apply Hagree; lia|].
    destruct (simple_expansion_new_part _ _ _ _ _ _ s1 Hshape Hinit Hclt Hs1)
      as (_ & _ & Hslack1).
    destruct (simple_expansion_new_part _ _ _ _ _ _ s2 Hshape Hinit Hclt Hs2)
      as (_ & _ & Hslack2).
    destruct Hshape as (_ & Hsize & _). fold n in Hsize. rewrite Hsize in Hv.
    simpl in Hv. assert (v = n) as -> by lia.
    rewrite holds_slack in Hslack1, Hslack2 by done.
    rewrite Hempty in Hslack1, Hslack2. simpl in Hslack1, Hslack2.
    apply Z.eqb_eq in Hslack1, Hslack2.
    rewrite <- Hslack1, <- Hslack2. by apply (sum_terms_agree n).
Qed.

End ComplexLinearSemantics.

(** * Product by a literal: the solutions *)

Lemma sorted_intervals_Min_le_Max (d : Domain.t) :
  sorted_intervals d = true -> d <> [] -> Domain.Min d <= Domain.Max d.
Proof.
  induction d as [|i d IH]; [done|]. intros Hs _.
  apply sorted_intervals_cons in Hs as (Hi & Hnext & Hd).
  destruct d as [|j d]; [unfold Domain.Max; simpl; lia|].
  specialize (IH Hd ltac:(done)).
  change (Domain.Max (i :: j :: d)) with (Domain.Max (j :: d)).
  change (Domain.Min (i :: j :: d)) with i.1.
  change (Domain.Min (j :: d)) with j.1 in IH. lia.
Qed.

Lemma sorted_intervals_bounds (d : Domain.t) (v : Z) :
  sorted_intervals d = true -> Domain.Contains d v = true ->
  Domain.Min d <= v <= Domain.Max d.
Proof.
  induction d as [|i d IH]; [done|]. intros Hs Hv.
  apply sorted_intervals_cons in Hs as (Hi & Hnext & Hd).
  simpl in Hv. apply orb_true_iff in Hv as [Hv | Hv].
  - unfold Domain.in_interval in Hv. apply andb_true_iff in Hv as [H1 H2].
    apply Z.leb_le in H1, H2.
    destruct d as [|j d]; [unfold Domain.Max; simpl; lia|].
    pose proof (sorted_intervals_Min_le_Max (j :: d) Hd ltac:(done)) as Hmm.
    change (Domain.Max (i :: j :: d)) with (Domain.Max (j :: d)).
    change (Domain.Min (i :: j :: d)) with i.1.
    change (Domain.Min (j :: d)) with j.1 in Hmm. lia.
  - specialize (IH Hd Hv).
    destruct d as [|j d]; [done|].
    change (Domain.Max (i :: j :: d)) with (Domain.Max (j :: d)).
    change (Domain.Min (i :: j :: d)) with i.1.
    change (Domain.Min (j :: d)) with j.1 in IH. lia.
Qed.

Lemma sum_terms_single (s : assignment) (vars coeffs : list Z) (ref coeff : Z) :
  zip vars coeffs = [(ref, coeff)] -> sum_terms s vars coeffs = coeff * ref_value s ref.
Proof.
  unfold sum_terms.
  destruct vars as [|v [|v' vars]], coeffs as [|k [|k' coeffs]]; simpl; try done;
    intros [= -> ->]; lia.
Qed.

(** A variable of the model whose domain is within [0, 1] is 0 or 1 in a
    solution. *)
Lemma boolean_variable (s : assignment) (context : PresolveContext) (var : Z) :
  domains_hold s (domains context) = true ->
  forallb sorted_intervals (domains context) = true ->
  0 <= var < Z.of_nat (length (domains context)) ->
  0 <= MinOf context var -> MaxOf context var <= 1 ->
  s var = Z.b2z (s var =? 1).
Proof.
  intros Hdom Hsorted Hvar Hmin Hmax.
  unfold MinOf, MaxOf, RefIsPositive, domain_of_var in *.
  destruct (Z.leb_spec 0 var); [|lia].
  destruct (lookup_lt_is_Some_2 (domains context) (Z.to_nat var)) as [d Hd]; [lia|].
  rewrite Hd in *. simpl in *.
  pose proof (proj1 (domains_hold_spec _ _) Hdom _ _ Hd) as Hin.
  rewrite Z2Nat.id in Hin by lia.
  rewrite forallb_forall in Hsorted.
  assert (Hs : sorted_intervals d = true).
  { apply Hsorted, list_elem_of_In. by eapply list_elem_of_lookup_2. }
  pose proof (sorted_intervals_bounds d (s var) Hs Hin).
  destruct (Z.eqb_spec (s var) 1); simpl; lia.
Qed.

(** An expression that [ExpressionIsALiteral] takes for a literal has the
    truth value of the literal as its value. *)
Lemma ExpressionIsALiteral_value (s : assignment) (context : PresolveContext)
    (e : LinearExpressionProto.t) (lit : Z) :
  ExpressionIsALiteral context e = Some lit ->
  domains_hold s (domains context) = true ->
  forallb sorted_intervals (domains context) = true ->
  Forall (fun v => PositiveRef v < Z.of_nat (length (domains context)))
         (LinearExpressionProto.vars e) ->
  expr_value s e = Z.b2z (literal_value s lit).
Proof.
  unfold ExpressionIsALiteral, terms, expr_value. intros Hlit Hdom Hsorted Hrefs.
  destruct (zip (LinearExpressionProto.vars e) (LinearExpressionProto.coeffs e))
    as [|[ref coeff] [|? ?]] eqn:Hzip; try done.
  rewrite (sum_terms_single s _ _ ref coeff Hzip).
  assert (Href : PositiveRef ref < Z.of_nat (length (domains context))).
  { rewrite Forall_forall in Hrefs. apply Hrefs.
    destruct (LinearExpressionProto.vars e) as [|v vars],
      (LinearExpressionProto.coeffs e) as [|k coeffs]; try done.
    simpl in Hzip. injection Hzip as -> -> _. by left. }
  destruct ((MinOf context (PositiveRef ref) <? 0) || (1 <? MaxOf context (PositiveRef ref)))
    eqn:Hbounds; [done|].
  apply orb_false_iff in Hbounds as [Hmin Hmax].
  apply Z.ltb_ge in Hmin, Hmax.
  pose proof (PositiveRef_nonnegative ref) as Hnonneg.
  pose proof (boolean_variable s context (PositiveRef ref) Hdom Hsorted
                ltac:(lia) Hmin Hmax) as Hbool.
  destruct (RefIsPositive ref) eqn:Hpos; [|by rewrite !andb_false_r in Hlit].
  assert (Hsame : PositiveRef ref = ref).
  { unfold PositiveRef, NegatedRef. unfold RefIsPositive in Hpos. lia. }
  rewrite Hsame in Hbool. rewrite !andb_true_r in Hlit.
  unfold ref_value. rewrite Hpos.
  destruct ((LinearExpressionProto.offset e =? 0) && (coeff =? 1)) eqn:H1.
  - injection Hlit as <-. apply andb_true_iff in H1 as [Ho Hc].
    apply Z.eqb_eq in Ho, Hc. unfold literal_value. rewrite Hpos. lia.
  - destruct ((LinearExpressionProto.offset e =? 1) && (coeff =? -1)) eqn:H2; [|done].
    injection Hlit as <-. apply andb_true_iff in H2 as [Ho Hc].
    apply Z.eqb_eq in Ho, Hc. rewrite literal_value_NegatedRef.
    unfold literal_value. rewrite Hpos.
    destruct (s ref =? 1); simpl in *; lia.
Qed.

Lemma sum_terms_scale (s : assignment) (vars coeffs : list Z) (k : Z) :
  sum_terms s vars (map (fun c => c * k) coeffs) = k * sum_terms s vars coeffs.
Proof.
  unfold sum_terms. revert coeffs.
  induction vars as [|v vars IH]; intros [|c coeffs]; simpl; try lia.
  rewrite IH. lia.
Qed.

Lemma sum_terms_Add (s : assignment) (e : LinearExpressionProto.t) (k : Z)
    (lin : LinearConstraintProto.t) :
  length (LinearConstraintProto.vars lin) = length (LinearConstraintProto.coeffs lin) ->
  sum_terms s
    (LinearConstraintProto.vars (AddLinearExpressionToLinearConstraint e k lin))
    (LinearConstraintProto.coeffs (AddLinearExpressionToLinearConstraint e k lin))
  = sum_terms s (LinearConstraintProto.vars lin) (LinearConstraintProto.coeffs lin)
    + k * (expr_value s e - LinearExpressionProto.offset e).
Proof.
  intros Hlen. unfold AddLinearExpressionToLinearConstraint, expr_value. simpl.
  rewrite sum_terms_app, sum_terms_scale by done. lia.
Qed.

Lemma Contains_point (t v : Z) :
  Domain.Contains (ReadDomainFromProto [t; t]) v = (v =? t).
Proof.
  unfold ReadDomainFromProto. rewrite DomainFacts.Contains_normalise. simpl.
  unfold Domain.in_interval. simpl. rewrite orb_false_r.
  destruct (Z.leb_spec t v), (Z.leb_spec v t), (Z.eqb_spec v t); simpl; try done; lia.
Qed.

Section IntProdSemantics.

Variable other_holds : assignment -> Constraint -> bool.

(** [enforcement => x - y = 0], as built by two calls of
    [AddLinearExpressionToLinearConstraint]. *)
Lemma holds_equal_exprs (s : assignment) (enforcement : list Z)
    (x y : LinearExpressionProto.t) :
  length (LinearExpressionProto.vars x) = length (LinearExpressionProto.coeffs x) ->
  holds other_holds s
    (ConstraintProto.mk enforcement
       (kLinear
          (AddLinearExpressionToLinearConstraint y (-1)
             (AddLinearExpressionToLinearConstraint x 1
                (LinearConstraintProto.mk [] [] [0; 0])))))
  = implb (forallb (literal_value s) enforcement) (expr_value s x =? expr_value s y).
Proof.
  intros Hlen. unfold holds, constraint_holds, linear_holds.
  cbn [ConstraintProto.enforcement_literal ConstraintProto.constraint].
  rewrite sum_terms_Add by (simpl; by rewrite length_map).
  rewrite sum_terms_Add by done.
  cbn [AddLinearExpressionToLinearConstraint LinearConstraintProto.domain
       LinearConstraintProto.vars LinearConstraintProto.coeffs map].
  rewrite Contains_point. f_equal. unfold sum_terms at 1. simpl.
  destruct (Z.eqb_spec (expr_value s x) (expr_value s y)),
    (Z.eqb_spec (0 + 1 * (expr_value s x - LinearExpressionProto.offset x)
                 + -1 * (expr_value s y - LinearExpressionProto.offset y))
                (0 - 1 * LinearExpressionProto.offset x
                 - -1 * LinearExpressionProto.offset y)); try done; lia.
Qed.

(** [enforcement => y = 0]. *)
Lemma holds_zero_expr (s : assignment) (enforcement : list Z) (y : LinearExpressionProto.t) :
  holds other_holds s
    (ConstraintProto.mk enforcement
       (kLinear
          (AddLinearExpressionToLinearConstraint y 1
             (LinearConstraintProto.mk [] [] [0; 0]))))
  = implb (forallb (literal_value s) enforcement) (expr_value s y =? 0).
Proof.
  unfold holds, constraint_holds, linear_holds.
  cbn [ConstraintProto.enforcement_literal ConstraintProto.constraint].
  rewrite sum_terms_Add by done.
  cbn [AddLinearExpressionToLinearConstraint LinearConstraintProto.domain
       LinearConstraintProto.vars LinearConstraintProto.coeffs map].
  rewrite Contains_point. f_equal. unfold sum_terms at 1. simpl.
  destruct (Z.eqb_spec (expr_value s y) 0),
    (Z.eqb_spec (0 + 1 * (expr_value s y - LinearExpressionProto.offset y))
                (0 - 1 * LinearExpressionProto.offset y)); try done; lia.
Qed.

(** The two constraints of [ExpandIntProdWithBoolean] say that the product
    is the expression times the literal. *)
Lemma ExpandIntProdWithBoolean_meaning (s : assignment) (lit : Z)
    (int_expr product_expr : LinearExpressionProto.t) (context : PresolveContext) :
  length (LinearExpressionProto.vars int_expr)
  = length (LinearExpressionProto.coeffs int_expr) ->
  let context' := ExpandIntProdWithBoolean lit int_expr product_expr context in
  exists one zero,
    constraints context' = constraints context ++ [one; zero]
    /\ only_constraints context context'
    /\ (holds other_holds s one && holds other_holds s zero
        = (expr_value s product_expr
           =? Z.b2z (literal_value s lit) * expr_value s int_expr)).
Proof.
  intros Hlen. unfold ExpandIntProdWithBoolean. cbv zeta.
  eexists _, _. split; [|split].
  - rewrite !constraints_add_constraints, <- app_assoc. reflexivity.
  - by repeat split.
  - rewrite holds_equal_exprs, holds_zero_expr by done. simpl.
    rewrite literal_value_NegatedRef, !andb_true_r.
    destruct (literal_value s lit); cbn [negb implb Z.b2z andb].
    + rewrite andb_true_r.
      destruct (Z.eqb_spec (expr_value s int_expr) (expr_value s product_expr)),
        (Z.eqb_spec (expr_value s product_expr) (1 * expr_value s int_expr));
        try done; lia.
    + by rewrite Z.mul_0_l.
Qed.

Lemma refs_below_int_prod (n : Z) (arg : LinearArgumentProto.t)
    (a b : LinearExpressionProto.t) :
  refs_below n (plain (kIntProd arg)) = true ->
  LinearArgumentProto.exprs arg = [a; b] ->
  Forall (fun v => PositiveRef v < n) (LinearExpressionProto.vars a)
  /\ Forall (fun v => PositiveRef v < n) (LinearExpressionProto.vars b).
Proof.
  unfold refs_below, UsedVariables, arg_refs, expr_refs.
  cbn [ConstraintProto.enforcement_literal ConstraintProto.constraint plain app].
  intros H Hexprs. rewrite Hexprs in H. cbn [flat_map] in H.
  rewrite forallb_forall in H.
  assert (Hall : forall v, v ∈ LinearExpressionProto.vars a ++ LinearExpressionProto.vars b ->
                           PositiveRef v < n).
  { intros v Hv. apply Z.ltb_lt, H, in_map. apply list_elem_of_In.
    rewrite app_nil_r. apply elem_of_app. by right. }
  split; apply Forall_forall; intros v Hv; apply Hall, elem_of_app; auto.
Qed.

(** The solutions before and after the expansion of a product by a literal:
    the expansion creates no variable and the solutions are the same. *)
Lemma ExpandIntProd_solutions (c : nat) (context : PresolveContext)
    (arg : LinearArgumentProto.t) (a b : LinearExpressionProto.t) :
  constraints context !! c = Some (plain (kIntProd arg)) ->
  LinearArgumentProto.exprs arg = [a; b] ->
  length (LinearExpressionProto.vars a) = length (LinearExpressionProto.coeffs a) ->
  length (LinearExpressionProto.vars b) = length (LinearExpressionProto.coeffs b) ->
  initialized context ->
  closed_model other_holds context ->
  cache_below (variables_size context) context = true ->
  refs_below (variables_size context) (plain (kIntProd arg)) = true ->
  forallb sorted_intervals (domains context) = true ->
  let context' := ExpandIntProd c context in
  variables_size context' = variables_size context
  /\ forall s, solution other_holds s context' = true
               <-> solution other_holds s context = true.
Proof.
  intros Hc Hexprs Ha Hb Hinit Hclosed Hcache Hrefs Hsorted context'.
  assert (Hclt : (c < length (constraints context))%nat) by (by eapply lookup_lt_Some).
  assert (Hlen : Z.of_nat (length (domains context)) = variables_size context).
  { unfold initialized in Hinit. unfold variables_size. by rewrite Hinit. }
  destruct (refs_below_int_prod _ arg a b Hrefs Hexprs) as [Hra Hrb].
  rewrite <- Hlen in Hra, Hrb.
  assert (Hmeaning : forall s,
            holds other_holds s (plain (kIntProd arg))
            = (expr_value s (LinearArgumentProto.target arg)
               =? expr_value s a * expr_value s b)).
  { intros s. unfold holds, constraint_holds. simpl. rewrite Hexprs. simpl.
    by rewrite Z.mul_1_r. }
  assert (Hexpanded : forall lit int_expr lit_expr,
            ExpressionIsALiteral context lit_expr = Some lit ->
            Forall (fun v => PositiveRef v < Z.of_nat (length (domains context)))
                   (LinearExpressionProto.vars lit_expr) ->
            length (LinearExpressionProto.vars int_expr)
            = length (LinearExpressionProto.coeffs int_expr) ->
            (forall s, expr_value s a * expr_value s b
                       = expr_value s lit_expr * expr_value s int_expr) ->
            let context1 :=
              UpdateRuleStats "int_prod: expanded product with Boolean var"
                (Clear c (ExpandIntProdWithBoolean lit int_expr
                            (LinearArgumentProto.target arg) context)) in
            variables_size context1 = variables_size context
            /\ forall s, solution other_holds s context1 = true
                         <-> solution other_holds s context = true).
  { intros lit int_expr lit_expr Hlit Hrefs_lit Haligned Hprod context1.
    assert (Hshape : forall s, exists one zero,
               simple_expansion context context1 c ConstraintProto.cleared [] [one; zero]
               /\ (holds other_holds s one && holds other_holds s zero
                   = (expr_value s (LinearArgumentProto.target arg)
                      =? Z.b2z (literal_value s lit) * expr_value s int_expr))).
    { intros s.
      destruct (ExpandIntProdWithBoolean_meaning s lit int_expr
                  (LinearArgumentProto.target arg) context Haligned)
        as (one & zero & Hcons & (Hd & Hv & He & Hq & Hu & Hp) & Hsem).
      exists one, zero. split; [|exact Hsem].
      subst context1. unfold simple_expansion.
      rewrite domains_UpdateRuleStats, domains_Clear, variables_size_UpdateRuleStats,
        variables_size_Clear, constraints_UpdateRuleStats, constraints_Clear, Hcons.
      split; [by rewrite Hd, app_nil_r|].
      split; [unfold variables_size; rewrite Hv; simpl; lia|].
      split; [by rewrite insert_app_l|]. by repeat split. }
    split.
    { destruct (Hshape (fun _ => 0)) as (one & zero & (_ & Hsize & _) & _).
      rewrite Hsize. simpl. lia. }
    intros s. destruct (Hshape s) as (one & zero & Hsimple & Hsem). split.
    - intros Hs.
      destruct (simple_expansion_new_part other_holds _ _ _ _ _ _ s Hsimple Hinit Hclt Hs)
        as (_ & Hnews & _).
      eapply expansion_projection;
        [exact (simple_expansion_shape _ _ _ _ _ _ Hsimple) | exact Hc | exact Hs |].
      rewrite Hmeaning, Hprod.
      assert (Hdom : domains_hold s (domains context) = true).
      { apply solution_spec in Hs as (_ & Hdom & _).
        destruct Hsimple as (Hd & _). by rewrite Hd, app_nil_r in Hdom. }
      rewrite (ExpressionIsALiteral_value s context lit_expr lit Hlit Hdom Hsorted Hrefs_lit).
      rewrite <- Hsem, (Hnews one), (Hnews zero); [done | by right; left | by left].
    - intros Hs.
      assert (Hholds : holds other_holds s (plain (kIntProd arg)) = true).
      { apply solution_spec in Hs as (_ & _ & Hcons & _). apply Hcons.
        by eapply list_elem_of_lookup_2. }
      assert (Hdom : domains_hold s (domains context) = true).
      { by apply solution_spec in Hs as (_ & Hdom & _). }
      rewrite Hmeaning, Hprod in Hholds.
      rewrite (ExpressionIsALiteral_value s context lit_expr lit Hlit Hdom Hsorted Hrefs_lit)
        in Hholds.
      rewrite <- Hsem in Hholds. apply andb_true_iff in Hholds as [Hone Hzero].
      refine (simple_expansion_extension _ _ _ _ _ _ _ s s Hsimple Hinit Hclosed Hcache Hs
                (agree_refl _ _) _ _ _).
      + intros i d Hd. by destruct i.
      + done.
      + intros ct Hct. apply elem_of_cons in Hct as [-> | Hct]; [done|].
        by apply list_elem_of_singleton in Hct as ->. }
  subst context'. unfold ExpandIntProd.
  assert (Hat : int_prod_of (constraint_at c context) = arg).
  { unfold int_prod_of, constraint_at. by rewrite Hc. }
  rewrite Hat, Hexprs. cbv zeta.
  change (expr_at [a; b] 0) with a. change (expr_at [a; b] 1) with b.
  cbn [length Nat.eqb negb].
  destruct (ExpressionIsALiteral context a) as [la|] eqn:Hla,
    (ExpressionIsALiteral context b) as [lb|] eqn:Hlb.
  - apply (Hexpanded lb a b Hlb Hrb Ha). intros s. lia.
  - apply (Hexpanded la b a Hla Hra Hb). intros s. lia.
  - apply (Hexpanded lb a b Hlb Hrb Ha). intros s. lia.
  - done.
Qed.

End IntProdSemantics.

(** * Soundness of the arithmetic of domains *)

Lemma above_sorted (lo : Z) (d : Domain.t) :
  above lo d -> sorted_intervals d = true /\ forall i, d !! 0%nat = Some i -> lo < i.1.
Proof.
  revert lo. induction d as [|i d IH]; intros lo; simpl; [done|].
  intros (Hlo & Hi & Hd). destruct (IH _ Hd) as [Hs Hfirst]. split.
  - apply sorted_intervals_cons. split; [done|]. split; [|done].
    destruct d as [|j d]; [done|]. specialize (Hfirst j eq_refl). lia.
  - by intros ? [= <-].
Qed.

Lemma valid_sorted (d : Domain.t) : valid_domain d -> sorted_intervals d = true.
Proof.
  destruct d as [|i d]; [done|]. intros [Hi Hd].
  apply (above_sorted (i.1 - 1) (i :: d)). simpl. repeat split; auto; lia.
Qed.

Lemma in_interval_spec (i : Z * Z) (v : Z) :
  Domain.in_interval i v = true <-> i.1 <= v <= i.2.
Proof. unfold Domain.in_interval. rewrite andb_true_iff, !Z.leb_le. tauto. Qed.

Lemma Contains_cons (i : Z * Z) (d : Domain.t) (v : Z) :
  Domain.Contains (i :: d) v = true <-> i.1 <= v <= i.2 \/ Domain.Contains d v = true.
Proof.
  change (Domain.Contains (i :: d) v) with (Domain.in_interval i v || Domain.Contains d v).
  by rewrite orb_true_iff, in_interval_spec.
Qed.

Lemma Contains_app (d d' : Domain.t) (v : Z) :
  Domain.Contains (d ++ d') v = Domain.Contains d v || Domain.Contains d' v.
Proof. apply existsb_app. Qed.

Lemma Contains_complement_from (lo : Z) (d : Domain.t) (v : Z) :
  above (lo - 1) d -> in_int64 d = true ->
  Domain.Contains (Domain.complement_from lo d) v = true
  <-> lo <= v <= kint64max /\ Domain.Contains d v = false.
Proof.
  revert lo. induction d as [|i d IH]; intros lo.
  - intros _ _. cbn [Domain.complement_from]. destruct (Z.leb_spec lo kint64max).
    + rewrite Contains_cons. simpl. split; [intros [?|?]; [split; [lia|done]|done]|].
      intros [? _]. by left.
    + simpl. split; [done|]. lia.
  - intros (Hlo & Hi & Hd) Hint. cbn [in_int64 forallb] in Hint.
    apply andb_true_iff in Hint as [Hi64 Hint].
    apply andb_true_iff in Hi64 as [Hi1 Hi2]. apply Z.leb_le in Hi1, Hi2.
    cbn [Domain.complement_from]. rewrite Contains_app, orb_true_iff.
    rewrite (IH (i.2 + 1)) by (done || (eapply DomainFacts.above_weaken; [|exact Hd]; lia)).
    pose proof (DomainFacts.above_not_Contains (i.2 + 1) v d Hd) as Hnot.
    assert (Hcons : Domain.Contains (i :: d) v = false
                    <-> ~ (i.1 <= v <= i.2) /\ Domain.Contains d v = false).
    { rewrite <- not_true_iff_false, Contains_cons, <- not_true_iff_false. tauto. }
    rewrite Hcons.
    destruct (Z.ltb_spec lo i.1).
    + rewrite Contains_cons. simpl. split.
      * intros [[? | ?] | [? ?]]; [|done|]; (split; [lia|]); split; try lia; try done.
        apply Hnot. lia.
      * intros [? [? ?]]. destruct (Z.le_gt_cases v (i.1 - 1)); [left; left; lia|].
        right. split; [lia|done].
    + simpl. split.
      * intros [? | [? ?]]; [done|]. split; [lia|]. split; [lia|done].
      * intros [? [? ?]]. right. split; [lia|done].
Qed.

Lemma Contains_Complement (d : Domain.t) (v : Z) :
  valid_domain d -> in_int64 d = true ->
  Domain.Contains (Domain.Complement d) v = true
  <-> kint64min <= v <= kint64max /\ Domain.Contains d v = false.
Proof.
  intros Hd Hint. unfold Domain.Complement.
  destruct d as [|i d]; [by apply Contains_complement_from|].
  pose proof Hint as Hint'. cbn [in_int64 forallb] in Hint'.
  apply andb_true_iff in Hint' as [Hi64 Hint'].
  apply andb_true_iff in Hi64 as [Hi1 Hi2]. apply Z.leb_le in Hi1, Hi2.
  destruct Hd as [Hi Hd].
  destruct (Z.eq_dec i.1 kint64min) as [E|E].
  - cbn [Domain.complement_from]. rewrite E, Z.ltb_irrefl. simpl app.
    rewrite Contains_complement_from
      by (done || (eapply DomainFacts.above_weaken; [|exact Hd]; lia)).
    pose proof (DomainFacts.above_not_Contains (i.2 + 1) v d Hd) as Hnot.
    assert (Hcons : Domain.Contains (i :: d) v = false
                    <-> ~ (i.1 <= v <= i.2) /\ Domain.Contains d v = false).
    { rewrite <- not_true_iff_false, Contains_cons, <- not_true_iff_false. tauto. }
    rewrite Hcons. split.
    + intros [? ?]. split; [lia|]. split; [lia|done].
    + intros [? [? ?]]. split; [lia|done].
  - apply Contains_complement_from; [|done]. simpl. repeat split; auto; lia.
Qed.

Lemma Contains_exists (d : Domain.t) (v : Z) :
  Domain.Contains d v = true <-> exists i, i ∈ d /\ i.1 <= v <= i.2.
Proof.
  unfold Domain.Contains. rewrite existsb_exists.
  split; intros (i & Hi & Hv); exists i.
  - split; [by apply list_elem_of_In | by apply in_interval_spec].
  - split; [by apply list_elem_of_In | by apply in_interval_spec].
Qed.

Lemma Contains_normalise_exists (l : list (Z * Z)) (v : Z) :
  Domain.Contains (Domain.normalise l) v = true <-> exists i, i ∈ l /\ i.1 <= v <= i.2.
Proof. rewrite DomainFacts.Contains_normalise. apply (Contains_exists l v). Qed.

Lemma Contains_RelaxIfTooComplex (d : Domain.t) (v : Z) :
  sorted_intervals d = true -> Domain.Contains d v = true ->
  Domain.Contains (Domain.RelaxIfTooComplex d) v = true.
Proof.
  intros Hs Hv. unfold Domain.RelaxIfTooComplex.
  destruct (Domain.NumIntervals d <=? Domain.kDomainComplexityLimit); [done|].
  rewrite DomainFacts.Contains_Range.
  pose proof (sorted_intervals_bounds d v Hs Hv).
  apply andb_true_iff. rewrite !Z.leb_le. lia.
Qed.

Lemma Contains_MultiplicationBy (c : Z) (d : Domain.t) (v : Z) :
  Domain.Contains d v = true ->
  Domain.Contains (Domain.MultiplicationBy c d) (c * v) = true.
Proof.
  intros Hv. unfold Domain.MultiplicationBy.
  destruct d as [|i0 d0] eqn:Ed; [done|]. rewrite <- Ed in *. cbn [Domain.IsEmpty].
  replace (Domain.IsEmpty d) with false by (by rewrite Ed).
  destruct (Z.eqb_spec c 0) as [->|Hc]; [by rewrite DomainFacts.Contains_Value|].
  destruct (Domain.kDomainComplexityLimit <? _).
  - unfold Domain.ContinuousMultiplicationBy. apply Contains_normalise_exists.
    apply Contains_exists in Hv as (i & Hi & Hin).
    exists (Domain.scale_interval c i). split; [by apply list_elem_of_fmap_2|].
    unfold Domain.scale_interval. destruct (Z.leb_spec 0 c); simpl; nia.
  - apply DomainFacts.Contains_FromValues. rewrite Z.mul_comm.
    apply (list_elem_of_fmap_2 (fun v => v * c)). by apply DomainFacts.elem_of_Values.
Qed.

Lemma Contains_AdditionWith (a b : Domain.t) (x y : Z) :
  Domain.Contains a x = true -> Domain.Contains b y = true ->
  kint64min <= x + y <= kint64max ->
  Domain.Contains (Domain.AdditionWith a b) (x + y) = true.
Proof.
  intros Hx Hy Hfit. unfold Domain.AdditionWith. apply Contains_normalise_exists.
  apply Contains_exists in Hx as (i & Hi & Hix).
  apply Contains_exists in Hy as (j & Hj & Hjy).
  exists (CapAdd i.1 j.1, CapAdd i.2 j.2). split.
  - apply list_elem_of_In, in_flat_map. exists i. split; [by apply list_elem_of_In|].
    apply in_map_iff. exists j. split; [done | by apply list_elem_of_In].
  - unfold CapAdd, saturate. simpl. lia.
Qed.

Lemma Size_one (d : Domain.t) (v : Z) :
  valid_domain d -> Domain.Size d = 1 ->
  Domain.Contains d v = true <-> v = Domain.FixedValue d.
Proof.
  unfold Domain.Size, Domain.FixedValue. intros Hd Hsize.
  assert (Hpos : forall (lo : Z) (d' : Domain.t), above lo d' ->
                   0 <= foldr (fun i acc => i.2 - i.1 + 1 + acc) 0 d'
                   /\ (d' <> [] -> 1 <= foldr (fun i acc => i.2 - i.1 + 1 + acc) 0 d')).
  { intros lo d'. revert lo. induction d' as [|i d' IH]; intros lo; simpl; [done|].
    intros (? & ? & Hd'). destruct (IH _ Hd'). split; [lia|]. intros _. lia. }
  destruct d as [|i d]; [simpl in Hsize; unfold kint64max in Hsize; lia|].
  destruct Hd as [Hi Hd]. destruct (Hpos _ _ Hd) as [H0 H1].
  cbn [foldr] in Hsize. unfold kint64max in Hsize.
  assert (d = []) as ->.
  { destruct d as [|j d]; [done|]. specialize (H1 ltac:(done)). lia. }
  rewrite Contains_cons. simpl in *. split; [intros [?|?]; [lia|done]|]. intros ->. lia.
Qed.

(** * Linear constraints [a x + b y != cte]: the solutions *)

Lemma encoding_literal_value (s : assignment) (context : PresolveContext)
    (ref value lit : Z) :
  encoding_holds s (encoding context) = true ->
  HasVarValueEncoding context ref value = Some lit ->
  literal_value s lit = (ref_value s ref =? value).
Proof.
  intros Henc Hlit. unfold HasVarValueEncoding in Hlit.
  rewrite (proj1 (encoding_holds_spec _ _) Henc _ _ Hlit).
  unfold encoding_key, ref_value. destruct (RefIsPositive ref); simpl; [done|].
  destruct (Z.eqb_spec (s (PositiveRef ref)) (- value)),
    (Z.eqb_spec (- s (PositiveRef ref)) value); try done; lia.
Qed.

Lemma DomainOf_holds (s : assignment) (context : PresolveContext) (ref : Z) :
  domains_hold s (domains context) = true ->
  PositiveRef ref < Z.of_nat (length (domains context)) ->
  Domain.Contains (DomainOf context ref) (ref_value s ref) = true.
Proof.
  intros Hdom Href. pose proof (PositiveRef_nonnegative ref) as Hnonneg.
  destruct (lookup_lt_is_Some_2 (domains context) (Z.to_nat (PositiveRef ref))) as [d Hd];
    [lia|].
  pose proof (proj1 (domains_hold_spec _ _) Hdom _ _ Hd) as Hin.
  rewrite Z2Nat.id in Hin by lia.
  unfold DomainOf, ref_value, domain_of_var.
  destruct (RefIsPositive ref) eqn:Hpos.
  - assert (PositiveRef ref = ref) as E
      by (unfold PositiveRef, NegatedRef; unfold RefIsPositive in Hpos; lia).
    rewrite E in *. destruct (Z.leb_spec 0 ref); [|lia]. by rewrite Hd.
  - rewrite DomainFacts.Contains_Negation, Z.opp_involutive.
    destruct (Z.leb_spec 0 (PositiveRef ref)); [|lia]. by rewrite Hd.
Qed.

Lemma magnitude_bound (d : Domain.t) (v : Z) :
  sorted_intervals d = true -> Domain.Contains d v = true -> Z.abs v <= magnitude d.
Proof.
  intros Hs Hv. pose proof (sorted_intervals_bounds d v Hs Hv). unfold magnitude. lia.
Qed.

Lemma sorted_intervals_Negation (d : Domain.t) :
  sorted_intervals d = true -> sorted_intervals (Domain.Negation d) = true.
Proof.
  unfold Domain.Negation. induction d as [|i d IH]; [done|]. intros Hs.
  apply sorted_intervals_cons in Hs as (Hi & Hnext & Hd).
  cbn [map]. rewrite reverse_cons.
  specialize (IH Hd). revert IH.
  assert (Hall : forall j, j ∈ reverse (map (fun i : Z * Z => (- i.2, - i.1)) d) ->
                           j.2 < - i.2).
  { intros j Hj. apply elem_of_reverse, list_elem_of_In, in_map_iff in Hj as (k & <- & Hk).
    apply list_elem_of_In in Hk. simpl.
    assert (sorted_intervals (i :: d) = true) as Hs'
      by (apply sorted_intervals_cons; tauto).
    pose proof (sorted_intervals_above i d k Hs' Hk). lia. }
  revert Hall. generalize (reverse (map (fun i : Z * Z => (- i.2, - i.1)) d)).
  intros l. induction l as [|j l IHl]; intros Hall Hl.
  - simpl. apply andb_true_iff. split; [|done]. rewrite andb_true_r. apply Z.leb_le. simpl. lia.
  - apply sorted_intervals_cons in Hl as (Hj & Hjn & Hl).
    change ((j :: l) ++ [(- i.2, - i.1)]) with (j :: (l ++ [(- i.2, - i.1)])).
    apply sorted_intervals_cons. split; [done|]. split.
    + destruct l as [|k l]; simpl; [|done]. apply (Hall j). by left.
    + apply IHl; [|done]. intros k Hk. apply Hall. by right.
Qed.

Lemma DomainOf_sorted (context : PresolveContext) (ref : Z) :
  forallb sorted_intervals (domains context) = true ->
  sorted_intervals (DomainOf context ref) = true.
Proof.
  intros Hsorted. rewrite forallb_forall in Hsorted.
  assert (Hvar : forall v, sorted_intervals (domain_of_var context v) = true).
  { intros v. unfold domain_of_var. destruct (0 <=? v); [|done].
    destruct (domains context !! Z.to_nat v) as [d|] eqn:Hd; [|done]. simpl.
    apply Hsorted, list_elem_of_In. by eapply list_elem_of_lookup_2. }
  unfold DomainOf. destruct (RefIsPositive ref); [done|].
  by apply sorted_intervals_Negation.
Qed.

Lemma valid_MultiplicationBy (c : Z) (d : Domain.t) :
  valid_domain (Domain.MultiplicationBy c d).
Proof.
  unfold Domain.MultiplicationBy. destruct (Domain.IsEmpty d); [done|].
  destruct (c =? 0); [apply DomainFacts.valid_Value|].
  destruct (_ <? _); apply DomainFacts.valid_normalise.
Qed.

(** The values that the two domains allow and the constraint forbids. *)
Lemma infeasible_reachable_values_spec (context : PresolveContext)
    (var1 var2 coeff1 coeff2 : Z) (rhs : list Z) (v1 v2 : Z) :
  let arg := LinearConstraintProto.mk [var1; var2] [coeff1; coeff2] rhs in
  forallb sorted_intervals (domains context) = true ->
  linear2_fits context var1 var2 coeff1 coeff2 = true ->
  in_int64 (ReadDomainFromProto rhs) = true ->
  Domain.Contains (DomainOf context var1) v1 = true ->
  Domain.Contains (DomainOf context var2) v2 = true ->
  Domain.Contains (infeasible_reachable_values context arg) (coeff1 * v1 + coeff2 * v2)
  = negb (Domain.Contains (ReadDomainFromProto rhs) (coeff1 * v1 + coeff2 * v2)).
Proof.
  intros arg Hsorted Hfits Hint H1 H2. unfold infeasible_reachable_values, arg.
  cbn [LinearConstraintProto.vars LinearConstraintProto.coeffs LinearConstraintProto.domain].
  change (ref_at [var1; var2] 0) with var1. change (ref_at [var1; var2] 1) with var2.
  change (ref_at [coeff1; coeff2] 0) with coeff1.
  change (ref_at [coeff1; coeff2] 1) with coeff2.
  rewrite DomainFacts.Contains_IntersectionWith.
  pose proof (magnitude_bound _ _ (DomainOf_sorted context var1 Hsorted) H1) as Hm1.
  pose proof (magnitude_bound _ _ (DomainOf_sorted context var2 Hsorted) H2) as Hm2.
  unfold linear2_fits in Hfits. apply Z.leb_le in Hfits.
  assert (Hrange : kint64min <= coeff1 * v1 + coeff2 * v2 <= kint64max).
  { unfold kint64min, kint64max in *.
    assert (Z.abs (coeff1 * v1) <= Z.abs coeff1 * magnitude (DomainOf context var1))
      by (rewrite Z.abs_mul; nia).
    assert (Z.abs (coeff2 * v2) <= Z.abs coeff2 * magnitude (DomainOf context var2))
      by (rewrite Z.abs_mul; nia).
    lia. }
  rewrite Contains_AdditionWith; [|apply Contains_RelaxIfTooComplex;
      [apply valid_sorted, valid_MultiplicationBy | by apply Contains_MultiplicationBy]..|done].
  simpl.
  pose proof (Contains_Complement (ReadDomainFromProto rhs) (coeff1 * v1 + coeff2 * v2)
                (DomainFacts.valid_normalise _) Hint) as Hc.
  destruct (Domain.Contains (ReadDomainFromProto rhs) (coeff1 * v1 + coeff2 * v2)); simpl.
  - apply not_true_iff_false. intros H. apply Hc in H. by destruct H.
  - apply Hc. done.
Qed.

Section SizeTwoSemantics.

Variable other_holds : assignment -> Constraint -> bool.

Lemma holds_forbidden_pair (s : assignment) (context : PresolveContext)
    (enforcement : list Z) (var1 var2 a b x0 y0 z : Z) :
  encoding_holds s (encoding context) = true ->
  literals_exist context var1 var2 a b x0 y0 [z] = true ->
  holds other_holds s (forbidden_pair_clause context enforcement var1 var2 a b x0 y0 z)
  = negb ((ref_value s var1 =? x0 + b * z) && (ref_value s var2 =? y0 - a * z)
          && forallb (literal_value s) enforcement).
Proof.
  intros Henc Hlits. simpl in Hlits. rewrite andb_true_r in Hlits.
  apply andb_true_iff in Hlits as [H1 H2].
  apply bool_decide_eq_true_1 in H1 as [l1 H1]. apply bool_decide_eq_true_1 in H2 as [l2 H2].
  unfold forbidden_pair_clause, forbid_pair, existing_literal. rewrite H1, H2.
  rewrite holds_clause. cbn [existsb default from_option id].
  rewrite existsb_negated_enforcement, !literal_value_NegatedRef.
  rewrite (encoding_literal_value s context var1 _ l1 Henc H1).
  rewrite (encoding_literal_value s context var2 _ l2 Henc H2).
  by destruct (_ =? _), (_ =? _), (forallb _ _).
Qed.

(** The clauses of the expansion hold exactly when the constraint does. *)
Lemma size_two_clauses_meaning (s : assignment) (context : PresolveContext)
    (enforcement : list Z) (var1 var2 coeff1 coeff2 : Z) (rhs : list Z)
    (a b cte x0 y0 : Z) :
  let arg := LinearConstraintProto.mk [var1; var2] [coeff1; coeff2] rhs in
  let forbidden := infeasible_reachable_values context arg in
  let range := reduced_domain context var1 var2 a b x0 y0 in
  Domain.Size forbidden = 1 ->
  SolveDiophantineEquationOfSizeTwo coeff1 coeff2 (Domain.FixedValue forbidden)
  = Some (a, b, cte, x0, y0) ->
  literals_exist context var1 var2 a b x0 y0 (Domain.Values range) = true ->
  coeff1 <> 0 -> coeff2 <> 0 ->
  shift_fits (- x0) (DomainOf context var1) = true ->
  shift_fits (- y0) (DomainOf context var2) = true ->
  forallb sorted_intervals (domains context) = true ->
  linear2_fits context var1 var2 coeff1 coeff2 = true ->
  in_int64 (ReadDomainFromProto rhs) = true ->
  PositiveRef var1 < Z.of_nat (length (domains context)) ->
  PositiveRef var2 < Z.of_nat (length (domains context)) ->
  domains_hold s (domains context) = true ->
  encoding_holds s (encoding context) = true ->
  (forall ct, ct ∈ map (forbidden_pair_clause context enforcement var1 var2 a b x0 y0)
                       (Domain.Values range) ->
              holds other_holds s ct = true)
  <-> holds other_holds s (ConstraintProto.mk enforcement (kLinear arg)) = true.
Proof.
  intros arg forbidden range Hsize Hsolve Hlits Hc1 Hc2 Hs1 Hs2 Hsorted Hfits Hint
    Hr1 Hr2 Hdom Henc.
  set (v1 := ref_value s var1). set (v2 := ref_value s var2).
  assert (H1 : Domain.Contains (DomainOf context var1) v1 = true) by (by apply DomainOf_holds).
  assert (H2 : Domain.Contains (DomainOf context var2) v2 = true) by (by apply DomainOf_holds).
  pose proof (infeasible_reachable_values_spec context var1 var2 coeff1 coeff2 rhs v1 v2
                Hsorted Hfits Hint H1 H2) as Hreach.
  cbv zeta in Hreach. fold arg forbidden in Hreach.
  pose proof (Size_one forbidden (coeff1 * v1 + coeff2 * v2)
                (DomainFacts.valid_IntersectionWith _ _) Hsize) as Hone.
  destruct (forbidden_pairs_spec context var1 var2 coeff1 coeff2
              (Domain.FixedValue forbidden) a b cte x0 y0 Hc1 Hc2 Hsolve Hs1 Hs2)
    as [_ Hpairs].
  specialize (Hpairs v1 v2 H1 H2). fold range in Hpairs.
  assert (Hholds : holds other_holds s (ConstraintProto.mk enforcement (kLinear arg))
                   = implb (forallb (literal_value s) enforcement)
                           (Domain.Contains (ReadDomainFromProto rhs)
                              (coeff1 * v1 + coeff2 * v2))).
  { unfold holds, constraint_holds, linear_holds, arg, sum_terms. simpl.
    fold v1 v2. by rewrite Z.add_0_r. }
  rewrite Hholds.
  assert (Hclause : forall z, z ∈ Domain.Values range ->
             holds other_holds s
               (forbidden_pair_clause context enforcement var1 var2 a b x0 y0 z)
             = negb ((v1 =? x0 + b * z) && (v2 =? y0 - a * z)
                     && forallb (literal_value s) enforcement)).
  { intros z Hz. apply holds_forbidden_pair; [done|].
    unfold literals_exist in *. rewrite forallb_forall in Hlits.
    simpl. rewrite andb_true_r. apply Hlits. by apply list_elem_of_In. }
  split.
  - intros Hall.
    destruct (forallb (literal_value s) enforcement) eqn:He; [simpl|done].
    destruct (Domain.Contains (ReadDomainFromProto rhs) (coeff1 * v1 + coeff2 * v2)) eqn:Hin;
      [done|].
    simpl in Hreach. apply Hone, Hpairs in Hreach as (z & Hz & E1 & E2).
    assert (H : holds other_holds s
                  (forbidden_pair_clause context enforcement var1 var2 a b x0 y0 z) = true).
    { apply Hall, list_elem_of_In, in_map, list_elem_of_In, Hz. }
    rewrite (Hclause z Hz), <- E1, <- E2, !Z.eqb_refl in H. done.
  - intros Himp ct Hct. apply list_elem_of_In, in_map_iff in Hct as (z & <- & Hz).
    apply list_elem_of_In in Hz. rewrite (Hclause z Hz).
    destruct (forallb (literal_value s) enforcement); [simpl in *|by rewrite andb_false_r].
    rewrite andb_true_r. apply negb_true_iff, not_true_iff_false. intros Hboth.
    apply andb_true_iff in Hboth as [E1 E2]. apply Z.eqb_eq in E1, E2.
    assert (Hc : coeff1 * v1 + coeff2 * v2 = Domain.FixedValue forbidden).
    { apply Hpairs. eauto. }
    apply Hone in Hc. rewrite Hreach, Himp in Hc. done.
Qed.

(** The solutions before and after the expansion of [a x + b y != cte]:
    the expansion creates no variable and the solutions are the same. *)
Lemma ExpandSomeLinearOfSizeTwo_solutions
    (c : nat) (context : PresolveContext) (ct : ConstraintProto.t)
    (var1 var2 coeff1 coeff2 : Z) (rhs : list Z) (a b cte x0 y0 : Z) :
  let arg := LinearConstraintProto.mk [var1; var2] [coeff1; coeff2] rhs in
  let forbidden := infeasible_reachable_values context arg in
  let range := reduced_domain context var1 var2 a b x0 y0 in
  let context' := ExpandSomeLinearOfSizeTwo c context in
  constraints context !! c = Some ct ->
  ConstraintProto.constraint ct = kLinear arg ->
  IsFixed context var1 = false ->
  IsFixed context var2 = false ->
  Domain.Size forbidden = 1 ->
  SolveDiophantineEquationOfSizeTwo coeff1 coeff2 (Domain.FixedValue forbidden)
  = Some (a, b, cte, x0, y0) ->
  Domain.Size range <= 16 ->
  literals_exist context var1 var2 a b x0 y0 (Domain.Values range) = true ->
  coeff1 <> 0 -> coeff2 <> 0 ->
  shift_fits (- x0) (DomainOf context var1) = true ->
  shift_fits (- y0) (DomainOf context var2) = true ->
  forallb sorted_intervals (domains context) = true ->
  linear2_fits context var1 var2 coeff1 coeff2 = true ->
  in_int64 (ReadDomainFromProto rhs) = true ->
  initialized context ->
  closed_model other_holds context ->
  cache_below (variables_size context) context = true ->
  refs_below (variables_size context) ct = true ->
  variables_size context' = variables_size context
  /\ forall s, solution other_holds s context' = true
               <-> solution other_holds s context = true.
Proof.
  intros arg forbidden range context' Hct Hkind Hf1 Hf2 Hsize Hsolve Hrange Hlits
    Hc1 Hc2 Hs1 Hs2 Hsorted Hfits Hint Hinit Hclosed Hcache Hrefs.
  assert (Hunfold := ExpandSomeLinearOfSizeTwo_unfold c context ct var1 var2 coeff1 coeff2
                      rhs a b cte x0 y0 Hct Hkind Hf1 Hf2 Hsize Hsolve Hrange Hlits).
  cbv zeta in Hunfold. fold range in Hunfold. subst context'. rewrite Hunfold. clear Hunfold.
  destruct (negb (bool_decide (Domain.Values range = [])) && _); [done|].
  set (enforcement := ConstraintProto.enforcement_literal ct).
  set (clauses := map (forbidden_pair_clause context enforcement var1 var2 a b x0 y0)
                      (Domain.Values range)).
  set (context' := Clear c _).
  assert (Hclt : (c < length (constraints context))%nat) by (by eapply lookup_lt_Some).
  assert (Hshape : simple_expansion context context' c ConstraintProto.cleared [] clauses).
  { subst context'. unfold simple_expansion.
    rewrite constraints_Clear, constraints_UpdateRuleStats.
    split; [by rewrite app_nil_r|].
    split; [change (variables_size context = variables_size context + 0); lia|].
    split; [|by repeat split].
    unfold with_constraints, constraints. simpl. by rewrite insert_app_l. }
  assert (Hcte : ct = ConstraintProto.mk enforcement (kLinear arg)).
  { destruct ct as [enf k]. simpl in Hkind. by subst k. }
  assert (Hlen : Z.of_nat (length (domains context)) = variables_size context).
  { unfold initialized in Hinit. unfold variables_size. by rewrite Hinit. }
  destruct (refs_below_linear (variables_size context) enforcement arg)
    as [_ Hvars]; [by rewrite <- Hcte|].
  assert (Hr1 : PositiveRef var1 < Z.of_nat (length (domains context))).
  { rewrite Hlen. rewrite Forall_forall in Hvars. apply Hvars. by left. }
  assert (Hr2 : PositiveRef var2 < Z.of_nat (length (domains context))).
  { rewrite Hlen. rewrite Forall_forall in Hvars. apply Hvars. right. by left. }
  split; [by destruct Hshape as (_ & -> & _); simpl; lia|].
  intros s. split.
  - intros Hs.
    destruct (simple_expansion_new_part other_holds _ _ _ _ _ _ s Hshape Hinit Hclt Hs)
      as (_ & Hnews & _).
    eapply expansion_projection;
      [exact (simple_expansion_shape _ _ _ _ _ _ Hshape) | exact Hct | exact Hs |].
    rewrite Hcte.
    apply solution_spec in Hs as (_ & Hdom & _ & Henc & _).
    destruct Hshape as (Hd & _ & _ & He & _). rewrite Hd, app_nil_r in Hdom.
    rewrite He in Henc.
    apply (proj1 (size_two_clauses_meaning s context enforcement var1 var2 coeff1 coeff2 rhs
                    a b cte x0 y0 Hsize Hsolve Hlits Hc1 Hc2 Hs1 Hs2 Hsorted Hfits Hint
                    Hr1 Hr2 Hdom Henc)).
    exact Hnews.
  - intros Hs.
    assert (Hholds : holds other_holds s ct = true).
    { apply solution_spec in Hs as (_ & _ & Hcons & _). apply Hcons.
      by eapply list_elem_of_lookup_2. }
    rewrite Hcte in Hholds.
    pose proof Hs as Hs'. apply solution_spec in Hs' as (_ & Hdom & _ & Henc & _).
    refine (simple_expansion_extension _ _ _ _ _ _ _ s s Hshape Hinit Hclosed Hcache Hs
              (agree_refl _ _) _ _ _).
    + intros i d Hd. by destruct i.
    + done.
    + apply (proj2 (size_two_clauses_meaning s context enforcement var1 var2 coeff1 coeff2
                      rhs a b cte x0 y0 Hsize Hsolve Hlits Hc1 Hc2 Hs1 Hs2 Hsorted Hfits Hint
                      Hr1 Hr2 Hdom Henc)).
      exact Hholds.
Qed.

End SizeTwoSemantics.

(** * Constraints depend on the variables they mention *)

Lemma existsb_literal_value_agree (n : Z) (s s' : assignment) (lits : list Z) :
  agree n s s' -> Forall (fun v => PositiveRef v < n) lits ->
  existsb (literal_value s) lits = existsb (literal_value s') lits.
Proof.
  intros H Hlits. induction Hlits as [|l lits Hl _ IH]; simpl; [done|].
  by rewrite IH, (literal_value_agree n s s' l).
Qed.

Lemma count_true_agree (n : Z) (s s' : assignment) (lits : list Z) :
  agree n s s' -> Forall (fun v => PositiveRef v < n) lits ->
  count_true s lits = count_true s' lits.
Proof.
  intros H Hlits. unfold count_true. induction Hlits as [|l lits Hl _ IH]; simpl; [done|].
  rewrite (literal_value_agree n s s' l) by done.
  destruct (literal_value s' l); simpl; by rewrite IH.
Qed.

Lemma expr_value_agree (n : Z) (s s' : assignment) (e : LinearExpressionProto.t) :
  agree n s s' -> Forall (fun v => PositiveRef v < n) (LinearExpressionProto.vars e) ->
  expr_value s e = expr_value s' e.
Proof. intros H Hvars. unfold expr_value. by rewrite (sum_terms_agree n s s'). Qed.

Lemma Forall_flat_map {A B : Type} (P : B -> Prop) (f : A -> list B) (l : list A) :
  Forall P (flat_map f l) <-> Forall (fun x => Forall P (f x)) l.
Proof.
  induction l as [|x l IH]; simpl; [split; constructor|].
  rewrite Forall_app, Forall_cons, IH. tauto.
Qed.

Lemma map_expr_value_agree (n : Z) (s s' : assignment) (es : list LinearExpressionProto.t) :
  agree n s s' ->
  Forall (fun v => PositiveRef v < n) (flat_map expr_refs es) ->
  map (expr_value s) es = map (expr_value s') es.
Proof.
  intros H Hes. apply Forall_flat_map in Hes.
  induction Hes as [|e es He _ IH]; simpl; [done|].
  by rewrite IH, (expr_value_agree n s s' e).
Qed.

Lemma expr_at_refs (n : Z) (es : list LinearExpressionProto.t) (i : nat) :
  Forall (fun v => PositiveRef v < n) (flat_map expr_refs es) ->
  Forall (fun v => PositiveRef v < n) (LinearExpressionProto.vars (expr_at es i)).
Proof.
  intros Hes. apply Forall_flat_map in Hes. unfold expr_at.
  destruct (es !! i) as [e|] eqn:He; simpl; [|constructor].
  rewrite Forall_forall in Hes. apply (Hes e). by eapply list_elem_of_lookup_2.
Qed.

Lemma refs_below_Forall (n : Z) (ct : ConstraintProto.t) :
  refs_below n ct = true ->
  exists refs, UsedVariables ct = map PositiveRef refs
               /\ Forall (fun v => PositiveRef v < n) refs.
Proof.
  unfold refs_below, UsedVariables. intros H. eexists. split; [reflexivity|].
  rewrite forallb_forall in H. apply Forall_forall. intros v Hv.
  apply Z.ltb_lt, H, in_map. by apply list_elem_of_In.
Qed.

Section ClosedModel.

Variable other_holds : assignment -> Constraint -> bool.

(** A constraint whose references are below [n] holds or not whatever the
    values of the other variables. *)
Lemma holds_agree (n : Z) (s s' : assignment) (ct : ConstraintProto.t) :
  refs_below n ct = true ->
  agree n s s' ->
  other_holds s (ConstraintProto.constraint ct) = other_holds s' (ConstraintProto.constraint ct) ->
  holds other_holds s ct = holds other_holds s' ct.
Proof.
  intros Hrefs Hagree Hother.
  unfold refs_below, UsedVariables in Hrefs. rewrite forallb_forall in Hrefs.
  assert (Hall : forall refs,
            (forall v, v ∈ refs ->
               In (PositiveRef v)
                  (map PositiveRef
                     (ConstraintProto.enforcement_literal ct ++
                      match ConstraintProto.constraint ct with
                      | CONSTRAINT_NOT_SET => []
                      | kBoolOr l | kBoolAnd l | kAtMostOne l | kExactlyOne l | kBoolXor l => l
                      | kIntDiv a | kIntMod a | kIntProd a | kLinMax a => arg_refs a
                      | kLinear l => LinearConstraintProto.vars l
                      | kAllDiff es => flat_map expr_refs es
                      | kElement e =>
                          ElementConstraintProto.index e :: ElementConstraintProto.target e
                            :: ElementConstraintProto.vars e
                      | kCircuit l | kRoutes l => l
                      | kTable t => TableConstraintProto.vars t
                      | kAutomaton a => AutomatonConstraintProto.vars a
                      | kInverse i =>
                          InverseConstraintProto.f_direct i ++ InverseConstraintProto.f_inverse i
                      | kReservoir r =>
                          flat_map expr_refs (ReservoirConstraintProto.time_exprs r)
                            ++ flat_map expr_refs (ReservoirConstraintProto.level_changes r)
                            ++ ReservoirConstraintProto.active_literals r
                      | kInterval i =>
                          expr_refs (IntervalConstraintProto.start i)
                            ++ expr_refs (IntervalConstraintProto.size i)
                            ++ expr_refs (IntervalConstraintProto.end_ i)
                      | kNoOverlap _ | kNoOverlap2D _ _ => []
                      | kCumulative cap _ ds => expr_refs cap ++ flat_map expr_refs ds
                      | kDummyConstraint vs => vs
                      end))) ->
            Forall (fun v => PositiveRef v < n) refs).
  { intros refs Hin. apply Forall_forall. intros v Hv. by apply Z.ltb_lt, Hrefs, Hin. }
  unfold holds.
  rewrite (forallb_literal_value_agree n s s' (ConstraintProto.enforcement_literal ct))
    by (done || (apply Hall; intros v Hv; apply in_map, in_or_app; left;
                 by apply list_elem_of_In)).
  f_equal.
  assert (Hbody : forall refs,
            (forall v, v ∈ refs ->
               v ∈ match ConstraintProto.constraint ct with
                   | CONSTRAINT_NOT_SET => []
                   | kBoolOr l | kBoolAnd l | kAtMostOne l | kExactlyOne l | kBoolXor l => l
                   | kIntDiv a | kIntMod a | kIntProd a | kLinMax a => arg_refs a
                   | kLinear l => LinearConstraintProto.vars l
                   | kAllDiff es => flat_map expr_refs es
                   | kElement e =>
                       ElementConstraintProto.index e :: ElementConstraintProto.target e
                         :: ElementConstraintProto.vars e
                   | kCircuit l | kRoutes l => l
                   | kTable t => TableConstraintProto.vars t
                   | kAutomaton a => AutomatonConstraintProto.vars a
                   | kInverse i =>
                       InverseConstraintProto.f_direct i ++ InverseConstraintProto.f_inverse i
                   | kReservoir r =>
                       flat_map expr_refs (ReservoirConstraintProto.time_exprs r)
                         ++ flat_map expr_refs (ReservoirConstraintProto.level_changes r)
                         ++ ReservoirConstraintProto.active_literals r
                   | kInterval i =>
                       expr_refs (IntervalConstraintProto.start i)
                         ++ expr_refs (IntervalConstraintProto.size i)
                         ++ expr_refs (IntervalConstraintProto.end_ i)
                   | kNoOverlap _ | kNoOverlap2D _ _ => []
                   | kCumulative cap _ ds => expr_refs cap ++ flat_map expr_refs ds
                   | kDummyConstraint vs => vs
                   end) ->
            Forall (fun v => PositiveRef v < n) refs).
  { intros refs Hin. apply Hall. intros v Hv. apply in_map, in_or_app. right.
    by apply list_elem_of_In, Hin. }
  clear Hall Hrefs.
  destruct (ConstraintProto.constraint ct) as
    [ | lits | lits | lits | lits | lits | a | a | a | a | lin | es | e
      | ? | ? | ? | ? | ? | ? | ? | ? | ? ? | ? ? ? | ? ];
    cbn [constraint_holds]; try exact Hother; try reflexivity.
  - apply (existsb_literal_value_agree n); [done|]. by apply Hbody.
  - apply (forallb_literal_value_agree n); [done|]. by apply Hbody.
  - rewrite (count_true_agree n s s'); [done | done | by apply Hbody].
  - rewrite (count_true_agree n s s'); [done | done | by apply Hbody].
  - rewrite (count_true_agree n s s'); [done | done | by apply Hbody].
  - assert (Ht : Forall (fun v => PositiveRef v < n)
                   (LinearExpressionProto.vars (LinearArgumentProto.target a)))
      by (apply Hbody; intros v Hv; apply elem_of_app; by left).
    assert (He : Forall (fun v => PositiveRef v < n)
                   (flat_map expr_refs (LinearArgumentProto.exprs a)))
      by (apply Hbody; intros v Hv; apply elem_of_app; by right).
    by rewrite !(expr_value_agree n s s') by (done || by apply expr_at_refs).
  - assert (Ht : Forall (fun v => PositiveRef v < n)
                   (LinearExpressionProto.vars (LinearArgumentProto.target a)))
      by (apply Hbody; intros v Hv; apply elem_of_app; by left).
    assert (He : Forall (fun v => PositiveRef v < n)
                   (flat_map expr_refs (LinearArgumentProto.exprs a)))
      by (apply Hbody; intros v Hv; apply elem_of_app; by right).
    by rewrite !(expr_value_agree n s s') by (done || by apply expr_at_refs).
  - assert (Ht : Forall (fun v => PositiveRef v < n)
                   (LinearExpressionProto.vars (LinearArgumentProto.target a)))
      by (apply Hbody; intros v Hv; apply elem_of_app; by left).
    assert (He : Forall (fun v => PositiveRef v < n)
                   (flat_map expr_refs (LinearArgumentProto.exprs a)))
      by (apply Hbody; intros v Hv; apply elem_of_app; by right).
    by rewrite (expr_value_agree n s s'), (map_expr_value_agree n s s') by done.
  - unfold linear_holds. rewrite (sum_terms_agree n s s'); [done | done | by apply Hbody].
  - rewrite (map_expr_value_agree n s s'); [done | done | by apply Hbody].
  - assert (Hi : PositiveRef (ElementConstraintProto.index e) < n).
    { assert (H : Forall (fun v => PositiveRef v < n) [ElementConstraintProto.index e])
        by (apply Hbody; intros v Hv; apply list_elem_of_singleton in Hv as ->; by left).
      exact (proj1 (Forall_singleton _ _) H). }
    assert (Ht : PositiveRef (ElementConstraintProto.target e) < n).
    { assert (H : Forall (fun v => PositiveRef v < n) [ElementConstraintProto.target e])
        by (apply Hbody; intros v Hv; apply list_elem_of_singleton in Hv as ->;
            right; by left).
      exact (proj1 (Forall_singleton _ _) H). }
    assert (Hv : Forall (fun v => PositiveRef v < n) (ElementConstraintProto.vars e))
      by (apply Hbody; intros v Hv; by do 2 right).
    rewrite <- (ref_value_agree n s s' (ElementConstraintProto.index e)) by done.
    rewrite <- (ref_value_agree n s s' (ElementConstraintProto.target e)) by done.
    set (i := ref_value s (ElementConstraintProto.index e)).
    destruct (Z.leb_spec 0 i); [|done].
    destruct (Z.ltb_spec i (Z.of_nat (length (ElementConstraintProto.vars e)))); [|done].
    simpl. f_equal. apply (ref_value_agree n); [done|].
    unfold ref_at. destruct (lookup_lt_is_Some_2 (ElementConstraintProto.vars e) (Z.to_nat i))
      as [x Hx]; [lia|].
    rewrite Hx. simpl. rewrite Forall_forall in Hv. apply Hv.
    by eapply list_elem_of_lookup_2.
Qed.

(** A model whose constraints mention its variables only is closed, as
    soon as the constraints left without meaning do not look at the other
    variables. *)
Lemma closed_model_refs (context : PresolveContext) :
  forallb (refs_below (variables_size context)) (constraints context) = true ->
  (forall s s' ct, ct ∈ constraints context ->
     agree (variables_size context) s s' ->
     other_holds s (ConstraintProto.constraint ct)
     = other_holds s' (ConstraintProto.constraint ct)) ->
  closed_model other_holds context.
Proof.
  intros Hrefs Hother s s' Hagree ct Hct. rewrite forallb_forall in Hrefs.
  apply holds_agree with (n := variables_size context); [|done|by apply Hother].
  apply Hrefs. by apply list_elem_of_In.
Qed.

End ClosedModel.

(** * Element with a variable array: the constraints of the expansion *)

(** [GetOrCreateVarValueEncoding] either finds the literal or creates a
    Boolean variable for it. *)
Lemma GetOrCreateVarValueEncoding_cases (ref value : Z) (context : PresolveContext) :
  initialized context ->
  let r := GetOrCreateVarValueEncoding ref value context in
  (encoding context !! encoding_key ref value = Some r.1 /\ r.2 = context)
  \/ (encoding context !! encoding_key ref value = None
      /\ r.1 = variables_size context
      /\ domains r.2 = domains context ++ [bool_domain]
      /\ variables_size r.2 = variables_size context + 1
      /\ initialized r.2
      /\ encoding r.2 = <[encoding_key ref value := variables_size context]> (encoding context)
      /\ constraints r.2 = constraints context
      /\ equalities r.2 = equalities context
      /\ is_unsat r.2 = is_unsat context).
Proof.
  intros Hinit. unfold GetOrCreateVarValueEncoding.
  destruct (encoding context !! encoding_key ref value) as [lit|] eqn:E; [by left|].
  right. split; [done|]. unfold NewBoolVar.
  pose proof (NewIntVar_index (Domain.Range 0 1) context) as Hindex.
  pose proof (NewIntVar_initialized (Domain.Range 0 1) context Hinit) as Hinit1.
  pose proof (NewIntVar_domains (Domain.Range 0 1) context Hinit) as Hdom1.
  pose proof (NewIntVar_variables_size (Domain.Range 0 1) context) as Hsize1.
  pose proof (NewIntVar_constraints (Domain.Range 0 1) context) as Hcons1.
  assert (Hstore1 : same_store context (NewIntVar (Domain.Range 0 1) context).2)
    by (by repeat split).
  destruct (NewIntVar (Domain.Range 0 1) context) as [lit context1].
  cbn [fst snd] in *. subst lit. destruct Hstore1 as (He & Hq & Hu & _).
  split; [done|]. split; [exact Hdom1|]. split; [exact Hsize1|].
  split; [exact Hinit1|]. split; [by rewrite <- He|]. by repeat split.
Qed.

Lemma encoding_growth_refl (context : PresolveContext) : encoding_growth context context [].
Proof.
  unfold encoding_growth. simpl. rewrite app_nil_r.
  split; [done|]. split; [lia|]. split; [done|]. split; [by left|].
  split; [|done]. by intros key lit H.
Qed.

(** One call of [GetOrCreateVarValueEncoding] keeps the growth. *)
Lemma encoding_growth_step (context0 context : PresolveContext) (created : list (Z * Z))
    (ref value : Z) :
  encoding_growth context0 context created ->
  initialized context ->
  0 <= (encoding_key ref value).1 < variables_size context0 ->
  let r := GetOrCreateVarValueEncoding ref value context in
  exists created',
    encoding_growth context0 r.2 created'
    /\ initialized r.2
    /\ encoding r.2 !! encoding_key ref value = Some r.1
    /\ constraints r.2 = constraints context
    /\ encoding_stable context r.2.
Proof.
  intros (Hd & Hn & Hnew & Hold & Hstable & Hq & Hu) Hinit Hkey r.
  pose proof (GetOrCreateVarValueEncoding_cases ref value context Hinit) as Hcases.
  cbv zeta in Hcases. fold r in Hcases.
  destruct Hcases
    as [[Hfound Hsame] | (Hnone & Hlit & Hd' & Hn' & Hinit' & He' & Hc' & Hq' & Hu')].
  - exists created. rewrite Hsame. 
    split; [exact (conj Hd (conj Hn (conj Hnew (conj Hold (conj Hstable (conj Hq Hu))))))|].
    split; [done|]. split; [done|]. split; [done|]. by intros key lit H.
  - exists (created ++ [encoding_key ref value]).
    assert (Hstable' : encoding_stable context r.2).
    { intros key lit Hk. rewrite He'. rewrite lookup_insert_ne; [done|]. congruence. }
    split; [|by rewrite He', Hlit, lookup_insert_eq].
    unfold encoding_growth. rewrite length_app. simpl. repeat split.
    + rewrite Hd', Hd, <- app_assoc. f_equal.
      by rewrite Nat.add_1_r, replicate_S_end.
    + rewrite Hn', Hn. lia.
    + apply lookup_app_Some in H as [H | [Hge H]].
      * apply Hstable'. by apply (Hnew j key).
      * apply list_lookup_singleton_Some in H as [Hj <-]. rewrite He', Hn.
        replace j with (length created) by lia. by rewrite lookup_insert_eq.
    + apply lookup_app_Some in H as [H | [Hge H]]; [by apply (Hnew j key)|].
      apply list_lookup_singleton_Some in H as [_ <-]. lia.
    + apply lookup_app_Some in H as [H | [Hge H]]; [by apply (Hnew j key)|].
      apply list_lookup_singleton_Some in H as [_ <-]. lia.
    + intros key lit. rewrite He'. intros Hk.
      destruct (decide (key = encoding_key ref value)) as [->|Hne].
      * rewrite lookup_insert_eq in Hk. injection Hk as <-. right.
        exists (length created). split; [by rewrite list_lookup_middle|]. rewrite Hn. lia.
      * rewrite lookup_insert_ne in Hk by done.
        destruct (Hold key lit Hk) as [? | (j & Hj & ->)]; [by left|]. right.
        exists j. split; [|done]. by apply lookup_app_l_Some.
    + intros key lit Hk. by apply Hstable', Hstable.
    + by rewrite Hq'.
    + by rewrite Hu'.
Qed.

Lemma encoding_key_variable (ref value : Z) : (encoding_key ref value).1 = PositiveRef ref.
Proof.
  unfold encoding_key. destruct (RefIsPositive ref) eqn:E; [|done].
  simpl. symmetry. by apply PositiveRef_positive.
Qed.

Lemma DomainOf_prefix (c1 c2 : PresolveContext) (ref : Z) :
  domains_prefix c1 c2 -> PositiveRef ref < Z.of_nat (length (domains c1)) ->
  DomainOf c2 ref = DomainOf c1 ref.
Proof.
  intros Hprefix Href. unfold DomainOf. pose proof (PositiveRef_nonneg ref) as Hnonneg.
  destruct (RefIsPositive ref) eqn:E.
  - apply PositiveRef_positive in E. apply domain_of_var_prefix; [done|lia].
  - f_equal. by apply domain_of_var_prefix.
Qed.

Lemma initialized_size (context : PresolveContext) :
  initialized context -> Z.of_nat (length (domains context)) = variables_size context.
Proof. unfold initialized, variables_size. by intros ->. Qed.

(** One iteration of the loop of [ExpandVariableElement]. *)
Lemma variable_element_step_invariant (context0 : PresolveContext)
    (element : ElementConstraintProto.t) (p lits : list Z) (created : list (Z * Z))
    (context : PresolveContext) (v : Z) :
  variable_element_invariant context0 element p lits created context ->
  initialized context0 ->
  PositiveRef (ElementConstraintProto.index element) < variables_size context0 ->
  PositiveRef (element_var element v) < variables_size context0 ->
  exists lit created',
    variable_element_invariant context0 element (p ++ [v]) (lits ++ [lit]) created'
      (variable_element_step element (length (constraints context0)) context v).
Proof.
  intros (Hlits & Hcons & Hinit & Hgrowth) Hinit0 Hindex Hvar.
  unfold variable_element_step. cbv zeta.
  assert (Hdomain : DomainOf context (element_var element v)
                    = DomainOf context0 (element_var element v)).
  { apply DomainOf_prefix; [|by rewrite initialized_size].
    destruct Hgrowth as (Hd & _). by eexists. }
  rewrite Hdomain.
  assert (Hkey : 0 <= (encoding_key (ElementConstraintProto.index element) v).1
                 < variables_size context0).
  { rewrite encoding_key_variable. split; [apply PositiveRef_nonneg | done]. }
  destruct (encoding_growth_step context0 context created
              (ElementConstraintProto.index element) v Hgrowth Hinit Hkey)
    as (created' & Hgrowth' & Hinit' & Hlit & Hcons' & Hstable).
  destruct (GetOrCreateVarValueEncoding (ElementConstraintProto.index element) v context)
    as [lit context1].
  cbn [fst snd] in Hgrowth', Hinit', Hlit, Hcons', Hstable.
  exists lit, created'.
  assert (Hlookup : constraints context1 !! length (constraints context0)
                    = Some (plain (kExactlyOne lits))).
  { rewrite Hcons', Hcons. by rewrite list_lookup_middle. }
  unfold add_literals. rewrite Hlookup. unfold plain at 1. cbv beta iota.
  assert (Hlen : length p = length lits) by (by eapply Forall2_length).
  assert (Hall : constraints
                   (add_constraints
                      (element_link context0 element v lit)
                      (set_constraint (length (constraints context0))
                         (ConstraintProto.mk [] (kExactlyOne (lits ++ [lit]))) context1))
                 = constraints context0 ++ plain (kExactlyOne (lits ++ [lit]))
                     :: zip_with (element_link context0 element) (p ++ [v]) (lits ++ [lit])).
  { rewrite constraints_add_constraints, constraints_set_constraint, Hcons', Hcons.
    rewrite insert_length_app, zip_with_app by done. cbn [zip_with].
    by rewrite <- app_assoc. }
  assert (Hlits' : Forall2 (fun v0 l => encoding context1
                                          !! encoding_key (ElementConstraintProto.index element) v0
                                        = Some l) (p ++ [v]) (lits ++ [lit])).
  { apply Forall2_app; [|by repeat constructor].
    eapply Forall2_impl; [exact Hlits|]. intros v0 l H. by apply Hstable. }
  unfold element_link in Hall. unfold AddImplyInDomain.
  destruct (Domain.IsFixed (DomainOf context0 (element_var element v)));
    (split; [exact Hlits'|]; split; [exact Hall|]; split; [exact Hinit'|exact Hgrowth']).
Qed.

Lemma variable_element_loop (context0 : PresolveContext)
    (element : ElementConstraintProto.t) (vs : list Z) :
  initialized context0 ->
  PositiveRef (ElementConstraintProto.index element) < variables_size context0 ->
  Forall (fun v => PositiveRef (element_var element v) < variables_size context0) vs ->
  forall (p lits : list Z) (created : list (Z * Z)) (context : PresolveContext),
    variable_element_invariant context0 element p lits created context ->
    exists lits' created',
      variable_element_invariant context0 element (p ++ vs) lits' created'
        (foldl (variable_element_step element (length (constraints context0))) context vs).
Proof.
  intros Hinit0 Hindex Hvars.
  induction Hvars as [|v vs Hv _ IH]; intros p lits created context Hinv.
  - exists lits, created. by rewrite app_nil_r.
  - destruct (variable_element_step_invariant context0 element p lits created context v
                Hinv Hinit0 Hindex Hv) as (lit & created' & Hinv').
    destruct (IH _ _ _ _ Hinv') as (lits' & created'' & Hinv'').
    exists lits', created''. cbn [foldl]. by rewrite <- app_assoc in Hinv''.
Qed.

(** [ExpandVariableElement] as an expansion that creates encoding
    literals: one literal for each value of the index, exactly one of which
    is true, and one constraint for each of them. *)
Lemma ExpandVariableElement_expansion (c : nat) (context : PresolveContext)
    (ct : ConstraintProto.t) (element : ElementConstraintProto.t) :
  constraints context !! c = Some ct ->
  ConstraintProto.constraint ct = kElement element ->
  initialized context ->
  PositiveRef (ElementConstraintProto.index element) < variables_size context ->
  Forall (fun v => PositiveRef (element_var element v) < variables_size context)
         (Domain.Values (DomainOf context (ElementConstraintProto.index element))) ->
  let p := Domain.Values (DomainOf context (ElementConstraintProto.index element)) in
  let context' := ExpandVariableElement c context in
  exists lits created,
    encoding_expansion context context' c ConstraintProto.cleared created
      (plain (kExactlyOne lits) :: zip_with (element_link context element) p lits)
    /\ Forall2 (fun v l => encoding context'
                             !! encoding_key (ElementConstraintProto.index element) v
                           = Some l) p lits.
Proof.
  intros Hc Hkind Hinit Hindex Hvars p context'.
  assert (Hclt : (c < length (constraints context))%nat) by (by eapply lookup_lt_Some).
  subst context'. unfold ExpandVariableElement.
  assert (Hat : element_of (constraint_at c context) = element).
  { unfold constraint_at, element_of. by rewrite Hc; simpl; rewrite Hkind. }
  rewrite Hat. cbv zeta. fold p.
  assert (Hinv : variable_element_invariant context element [] [] []
                   (add_constraints (plain (kExactlyOne [])) context)).
  { split; [constructor|]. split; [done|]. split; [done|].
    pose proof (encoding_growth_refl context) as H. exact H. }
  destruct (variable_element_loop context element p Hinit Hindex Hvars _ _ _ _ Hinv)
    as (lits & created & Hlits & Hcons & _ & Hgrowth).
  exists lits, created. unfold constraints_size.
  set (context1 := foldl _ _ p) in *. cbn [app] in Hlits, Hcons.
  split; [split|].
  - exact Hgrowth.
  - rewrite constraints_Clear, constraints_UpdateRuleStats, Hcons.
    by rewrite insert_app_l.
  - exact Hlits.
Qed.

(** * Expansions that create encoding literals *)

Lemma encoding_expansion_shape (context context' : PresolveContext) (c : nat)
    (ct' : ConstraintProto.t) (created : list (Z * Z)) (news : list ConstraintProto.t) :
  encoding_expansion context context' c ct' created news ->
  expansion_shape context context' c ct' news.
Proof.
  intros ((Hd & _ & _ & _ & Hstable & Hq & Hu) & Hc).
  split; [|split; [done|]; split; [done|]; split].
  - intros i d Hi. exists d. split; [|done]. rewrite Hd. by apply lookup_app_l_Some.
  - intros ab. by rewrite Hq.
  - by rewrite Hu.
Qed.

Lemma lookup_created_values (s : assignment) (created : list (Z * Z)) (j : nat)
    (key : Z * Z) :
  created !! j = Some key -> created_values s created !! j = Some (Z.b2z (s key.1 =? key.2)).
Proof. intros H. unfold created_values. by rewrite list_lookup_fmap, H. Qed.

Lemma literal_value_b2z (s : assignment) (lit : Z) (b : bool) :
  0 <= lit -> s lit = Z.b2z b -> literal_value s lit = b.
Proof.
  intros Hlit Hs. unfold literal_value, RefIsPositive.
  destruct (Z.leb_spec 0 lit); [|lia]. rewrite Hs. by destruct b.
Qed.

(** The literals of the cache mean what they say in the extension of a
    solution. *)
Lemma encoding_growth_holds (context context' : PresolveContext) (created : list (Z * Z))
    (s : assignment) :
  encoding_growth context context' created ->
  cache_below (variables_size context) context = true ->
  encoding_holds s (encoding context) = true ->
  equalities_hold s (equalities context) = true ->
  encoding_holds (override s (variables_size context) (created_values s created))
    (encoding context') = true.
Proof.
  intros (Hd & Hn & Hnew & Hold & Hstable & Hq & Hu) Hbelow Henc Heq.
  set (s' := override s (variables_size context) (created_values s created)).
  assert (Hagree : agree (variables_size context) s s') by apply override_agree.
  destruct (cache_holds_agree _ s s' context Hagree Hbelow Henc Heq) as [Henc' Heq'].
  apply encoding_holds_spec. intros key lit Hk.
  destruct (Hold key lit Hk) as [Hk0 | (j & Hj & ->)].
  - by apply (proj1 (encoding_holds_spec _ _) Henc').
  - destruct (Hnew j key Hj) as [_ Hrange].
    rewrite <- (Hagree key.1 Hrange).
    apply literal_value_b2z; [lia|].
    unfold s'. by rewrite (override_new _ _ _ _ _ (lookup_created_values s _ _ _ Hj)).
Qed.

Section EncodingExpansion.

Variable other_holds : assignment -> Constraint -> bool.

(** Extension: the solution [s] of the model, with the created literals set
    to the truth values of their keys, is a solution after the expansion as
    soon as it satisfies the new constraints. *)
Lemma encoding_expansion_extension (context context' : PresolveContext) (c : nat)
    (ct' : ConstraintProto.t) (created : list (Z * Z)) (news : list ConstraintProto.t)
    (s : assignment) :
  let s' := override s (variables_size context) (created_values s created) in
  encoding_expansion context context' c ct' created news ->
  initialized context ->
  closed_model other_holds context ->
  cache_below (variables_size context) context = true ->
  solution other_holds s context = true ->
  holds other_holds s' ct' = true ->
  (forall ct, ct ∈ news -> holds other_holds s' ct = true) ->
  solution other_holds s' context' = true.
Proof.
  intros s' (Hgrowth & Hc) Hinit Hclosed Hbelow Hs Hct' Hnews.
  pose proof Hgrowth as (Hd & Hn & Hnew & Hold & Hstable & Hq & Hu).
  assert (Hagree : agree (variables_size context) s s') by apply override_agree.
  apply solution_spec in Hs as (Hunsat & Hdom & Hcons & Henc & Heq).
  destruct (cache_holds_agree _ s s' context Hagree Hbelow Henc Heq) as [Henc' Heq'].
  pose proof (initialized_size context Hinit) as Hlen.
  apply solution_spec. split; [congruence|]. split; [|split; [|split]].
  - apply domains_hold_spec. intros i d. rewrite Hd. intros Hi.
    apply lookup_app_Some in Hi as [Hi | [Hge Hi]].
    + rewrite <- Hagree by (apply lookup_lt_Some in Hi; lia).
      by apply (proj1 (domains_hold_spec _ _) Hdom i).
    + apply lookup_replicate in Hi as [-> Hlt].
      destruct (lookup_lt_is_Some_2 created (i - length (domains context)) Hlt)
        as [key Hkey].
      replace (Z.of_nat i)
        with (variables_size context + Z.of_nat (i - length (domains context))) by lia.
      unfold s'. rewrite (override_new _ _ _ _ _ (lookup_created_values s _ _ _ Hkey)).
      by destruct (s key.1 =? key.2).
  - intros ct0. rewrite Hc. intros Hin.
    apply elem_of_app in Hin as [Hin | Hin]; [|by apply Hnews].
    apply elem_of_list_insert_inv in Hin as [-> | Hin]; [done|].
    rewrite <- (Hclosed s s' Hagree ct0 Hin). by apply Hcons.
  - by apply (encoding_growth_holds context context' created s).
  - by rewrite Hq.
Qed.

(** The created literals are determined by the variables of the model. *)
Lemma encoding_expansion_determined (context context' : PresolveContext) (c : nat)
    (ct' : ConstraintProto.t) (created : list (Z * Z)) (news : list ConstraintProto.t) :
  encoding_expansion context context' c ct' created news ->
  initialized context ->
  determines_new_variables other_holds context context'.
Proof.
  intros ((Hd & Hn & Hnew & Hold & Hstable & Hq & Hu) & Hc) Hinit s1 s2 Hs1 Hs2 Hagree.
  apply solution_spec in Hs1 as (_ & Hdom1 & _ & Henc1 & _).
  apply solution_spec in Hs2 as (_ & Hdom2 & _ & Henc2 & _).
  pose proof (initialized_size context Hinit) as Hlen.
  intros v Hv. destruct (Z.lt_ge_cases v (variables_size context)) as [Hlt|Hge].
  { apply Hagree. lia. }
  set (j := Z.to_nat (v - variables_size context)).
  assert (Hj : (j < length created)%nat) by lia.
  destruct (lookup_lt_is_Some_2 created j Hj) as [key Hkey].
  destruct (Hnew j key Hkey) as [Hlit Hrange].
  replace (variables_size context + Z.of_nat j) with v in Hlit by lia.
  assert (Hbool : forall s, domains_hold s (domains context') = true -> s v = 0 \/ s v = 1).
  { intros s Hdom.
    pose proof (proj1 (domains_hold_spec _ _) Hdom (Z.to_nat v) bool_domain) as H.
    rewrite Z2Nat.id in H by lia.
    assert (Hin : Domain.Contains bool_domain (s v) = true).
    { apply H. rewrite Hd. rewrite lookup_app_r by lia.
      apply lookup_replicate. split; [done|]. lia. }
    unfold bool_domain, Domain.Contains, Domain.in_interval in Hin. simpl in Hin.
    rewrite orb_false_r in Hin. apply andb_true_iff in Hin as [H0 H1].
    apply Z.leb_le in H0, H1. lia. }
  pose proof (proj1 (encoding_holds_spec _ _) Henc1 key v Hlit) as H1.
  pose proof (proj1 (encoding_holds_spec _ _) Henc2 key v Hlit) as H2.
  rewrite <- (Hagree key.1 Hrange), <- H1 in H2.
  unfold literal_value, RefIsPositive in H2. destruct (Z.leb_spec 0 v); [|lia].
  destruct (Hbool s1 Hdom1) as [E1|E1], (Hbool s2 Hdom2) as [E2|E2];
    rewrite E1, E2 in *; simpl in H2; congruence.
Qed.

End EncodingExpansion.

(** * Element with a variable array: the solutions *)

Lemma NoDup_Values_sorted (d : Domain.t) :
  sorted_intervals d = true -> NoDup (Domain.Values d).
Proof.
  induction d as [|i d IH]; [constructor|]. intros Hs.
  pose proof Hs as Hs0. apply sorted_intervals_cons in Hs as (Hi & Hnext & Hd).
  unfold Domain.Values. simpl. fold (Domain.Values d).
  apply NoDup_app. split; [apply NoDup_seqZ|]. split; [|by apply IH].
  intros v Hv Hv'. apply elem_of_seqZ in Hv.
  apply DomainFacts.elem_of_Values in Hv'.
  pose proof (sorted_intervals_bounds d v Hd Hv') as Hb.
  destruct d as [|j d]; [done|]. unfold Domain.Min in Hb. lia.
Qed.

(** A fixed domain has one value. *)
Lemma IsFixed_value (d : Domain.t) (x y : Z) :
  sorted_intervals d = true -> Domain.IsFixed d = true ->
  Domain.Contains d x = true -> Domain.Contains d y = true -> x = y.
Proof.
  intros Hs Hfixed Hx Hy.
  pose proof (sorted_intervals_bounds d x Hs Hx).
  pose proof (sorted_intervals_bounds d y Hs Hy).
  unfold Domain.IsFixed in Hfixed. destruct d; [done|]. apply Z.eqb_eq in Hfixed. lia.
Qed.

Lemma refs_below_element (n : Z) (element : ElementConstraintProto.t) :
  refs_below n (plain (kElement element)) = true ->
  PositiveRef (ElementConstraintProto.index element) < n
  /\ PositiveRef (ElementConstraintProto.target element) < n
  /\ Forall (fun v => PositiveRef v < n) (ElementConstraintProto.vars element).
Proof.
  unfold refs_below, UsedVariables. simpl. intros H.
  apply andb_true_iff in H as [Hi H]. apply andb_true_iff in H as [Ht H].
  apply Z.ltb_lt in Hi, Ht. split; [done|]. split; [done|].
  apply Forall_forall. intros v Hv. rewrite forallb_forall in H.
  apply Z.ltb_lt, H, in_map. by apply list_elem_of_In.
Qed.

Lemma element_var_below (n : Z) (element : ElementConstraintProto.t) (v : Z) :
  Forall (fun r => PositiveRef r < n) (ElementConstraintProto.vars element) ->
  0 <= v < Z.of_nat (length (ElementConstraintProto.vars element)) ->
  PositiveRef (element_var element v) < n.
Proof.
  intros Hvars Hv. unfold element_var, ref_at.
  destruct (lookup_lt_is_Some_2 (ElementConstraintProto.vars element) (Z.to_nat v))
    as [r Hr]; [lia|].
  rewrite Hr. simpl. rewrite Forall_forall in Hvars. apply Hvars.
  by apply (list_elem_of_lookup_2 _ (Z.to_nat v)).
Qed.

(** Exactly one literal is true among those of distinct values, one of which
    is taken. *)
Lemma count_true_values (s : assignment) (x : Z) (p lits : list Z) :
  NoDup p ->
  Forall2 (fun v l => literal_value s l = (x =? v)) p lits ->
  count_true s lits = if bool_decide (x ∈ p) then 1%nat else 0%nat.
Proof.
  intros Hnd Hlits. unfold count_true.
  induction Hlits as [|v l p lits Hl _ IH]; [done|].
  apply NoDup_cons in Hnd as [Hv Hnd]. specialize (IH Hnd). simpl. rewrite Hl.
  destruct (Z.eqb_spec x v) as [->|Hne].
  - simpl. rewrite IH. rewrite bool_decide_eq_false_2 by done.
    by rewrite bool_decide_eq_true_2 by (by left).
  - rewrite IH. destruct (bool_decide (x ∈ p)) eqn:E.
    + apply bool_decide_eq_true_1 in E. by rewrite bool_decide_eq_true_2 by (by right).
    + apply bool_decide_eq_false_1 in E. rewrite bool_decide_eq_false_2; [done|].
      intros Hin. apply elem_of_cons in Hin as [?|?]; done.
Qed.

Section ElementSemantics.

Variable other_holds : assignment -> Constraint -> bool.

(** The meaning of the constraint of an index value. *)
Lemma holds_element_link (s : assignment) (context : PresolveContext)
    (element : ElementConstraintProto.t) (v lit : Z) :
  let var := element_var element v in
  let target := ElementConstraintProto.target element in
  holds other_holds s (element_link context element v lit)
  = implb (literal_value s lit)
          (if Domain.IsFixed (DomainOf context var)
           then Domain.Contains (DomainOf context var) (ref_value s target)
           else ref_value s var =? ref_value s target).
Proof.
  intros var target. unfold element_link. fold var. fold target.
  destruct (Domain.IsFixed (DomainOf context var)).
  - unfold holds. simpl. rewrite andb_true_r. f_equal.
    unfold linear_holds, ReadDomainFromProto. simpl.
    rewrite DomainFacts.pair_up_FillDomainInProto, DomainFacts.Contains_normalise.
    unfold sum_terms. simpl.
    by replace (1 * ref_value s target + 0) with (ref_value s target) by lia.
  - unfold holds, constraint_holds, linear_holds.
    cbn [ConstraintProto.enforcement_literal ConstraintProto.constraint forallb
         LinearConstraintProto.domain LinearConstraintProto.vars
         LinearConstraintProto.coeffs].
    rewrite andb_true_r, Contains_point. f_equal.
    unfold sum_terms. cbn [zip_with foldr].
    destruct (Z.eqb_spec (1 * ref_value s var + (-1 * ref_value s target + 0)) 0),
             (Z.eqb_spec (ref_value s var) (ref_value s target)); try done; lia.
Qed.

(** The meaning of an element constraint. *)
Lemma holds_element (s : assignment) (element : ElementConstraintProto.t) :
  holds other_holds s (plain (kElement element)) = true
  <-> 0 <= ref_value s (ElementConstraintProto.index element)
           < Z.of_nat (length (ElementConstraintProto.vars element))
      /\ ref_value s (element_var element (ref_value s (ElementConstraintProto.index element)))
         = ref_value s (ElementConstraintProto.target element).
Proof.
  unfold holds. simpl. rewrite !andb_true_iff, Z.leb_le, Z.ltb_lt, Z.eqb_eq.
  unfold element_var. tauto.
Qed.

End ElementSemantics.

Section ElementSolutions.

Variable other_holds : assignment -> Constraint -> bool.

(** The solutions before and after [ExpandVariableElement], when the values
    of the index are positions of the array. *)
Lemma ExpandVariableElement_solutions (c : nat) (context : PresolveContext)
    (element : ElementConstraintProto.t) :
  constraints context !! c = Some (plain (kElement element)) ->
  initialized context ->
  closed_model other_holds context ->
  cache_below (variables_size context) context = true ->
  refs_below (variables_size context) (plain (kElement element)) = true ->
  forallb sorted_intervals (domains context) = true ->
  Forall (fun v => 0 <= v < Z.of_nat (length (ElementConstraintProto.vars element)))
         (Domain.Values (DomainOf context (ElementConstraintProto.index element))) ->
  let context' := ExpandVariableElement c context in
  preserves_solutions other_holds context context'
  /\ determines_new_variables other_holds context context'.
Proof.
  intros Hc Hinit Hclosed Hcache Hrefs Hsorted Hrange context'.
  destruct (refs_below_element _ _ Hrefs) as (Hindex & Htarget & Hvars).
  pose proof (initialized_size context Hinit) as Hsize.
  set (index := ElementConstraintProto.index element) in *.
  set (target := ElementConstraintProto.target element) in *.
  set (p := Domain.Values (DomainOf context index)) in *.
  set (n := variables_size context) in *.
  assert (Hbelow : Forall (fun v => PositiveRef (element_var element v) < n) p).
  { eapply Forall_impl; [exact Hrange|]. intros v Hv. by apply element_var_below. }
  destruct (ExpandVariableElement_expansion c context (plain (kElement element)) element
              Hc eq_refl Hinit Hindex Hbelow) as (lits & created & Hexp & Hlits).
  fold index p context' in Hexp, Hlits.
  pose proof (encoding_expansion_shape _ _ _ _ _ _ Hexp) as Hshape.
  assert (Hnodup : NoDup p) by (by apply NoDup_Values_sorted, DomainOf_sorted).
  assert (Hvalue : forall s, domains_hold s (domains context) = true ->
                             ref_value s index ∈ p).
  { intros s Hdom. apply DomainFacts.elem_of_Values. apply DomainOf_holds; [done|].
    by rewrite Hsize. }
  split; [split|].
  - (* A solution after the expansion satisfies the element constraint. *)
    intros s Hs.
    refine (expansion_projection other_holds context context' c _ _ _ s Hshape Hc Hs _).
    apply solution_spec in Hs as (_ & Hdom' & Hcons' & Henc' & _).
    assert (Hdom : domains_hold s (domains context) = true).
    { apply domains_hold_spec. intros i d Hi. destruct Hshape as (Hd & _).
      destruct (Hd i d Hi) as (d' & Hi' & Hsub). apply Hsub.
      by apply (proj1 (domains_hold_spec _ _) Hdom' i). }
    pose proof (Hvalue s Hdom) as Hin.
    assert (Hpos : 0 <= ref_value s index
                   < Z.of_nat (length (ElementConstraintProto.vars element))).
    { rewrite Forall_forall in Hrange. by apply Hrange. }
    apply list_elem_of_lookup in Hin as [k Hk].
    destruct (Forall2_lookup_l _ _ _ _ _ Hlits Hk) as (l & Hl & Hkey).
    assert (Hlit : literal_value s l = true).
    { rewrite (encoding_literal_value s context' index (ref_value s index) l Henc' Hkey).
      apply Z.eqb_refl. }
    assert (Hlink : holds other_holds s (element_link context element (ref_value s index) l)
                    = true).
    { apply Hcons'. destruct Hexp as [_ ->]. apply elem_of_app. right.
      apply elem_of_cons. right. apply (list_elem_of_lookup_2 _ k).
      by rewrite lookup_zip_with, Hk; simpl; rewrite Hl. }
    rewrite holds_element_link, Hlit in Hlink. simpl in Hlink.
    apply holds_element. split; [done|]. fold index target.
    set (var := element_var element (ref_value s index)) in *.
    assert (Hvar : PositiveRef var < n) by (by apply element_var_below).
    destruct (Domain.IsFixed (DomainOf context var)) eqn:Hfixed.
    + apply (IsFixed_value (DomainOf context var)); [by apply DomainOf_sorted|done| |done].
      apply DomainOf_holds; [done|]. by rewrite Hsize.
    + by apply Z.eqb_eq.
  - (* The extension of a solution by the truth values of the index. *)
    intros s Hs. exists (override s n (created_values s created)).
    split; [apply override_agree|].
    apply (encoding_expansion_extension other_holds context context' c
             ConstraintProto.cleared created _ s Hexp Hinit Hclosed Hcache Hs);
      [reflexivity|].
    set (s' := override s n (created_values s created)).
    assert (Hagree : agree n s s') by apply override_agree.
    apply solution_spec in Hs as (_ & Hdom & Hcons & Henc & Heq).
    assert (Henc' : encoding_holds s' (encoding context') = true).
    { destruct Hexp as [Hgrowth _]. by apply encoding_growth_holds. }
    assert (Hct : holds other_holds s (plain (kElement element)) = true).
    { apply Hcons. by apply (list_elem_of_lookup_2 _ c). }
    apply holds_element in Hct as [Hi Heqv]. fold index target in Hi, Heqv.
    assert (Hvalues : Forall2 (fun v l => literal_value s' l = (ref_value s index =? v))
                        p lits).
    { eapply Forall2_impl; [exact Hlits|]. intros v l Hkey. simpl.
      rewrite (encoding_literal_value s' context' index v l Henc' Hkey).
      by rewrite <- (ref_value_agree n s s' index Hagree Hindex). }
    intros ct Hin. apply elem_of_cons in Hin as [-> | Hin].
    + change ((count_true s' lits =? 1)%nat = true).
      rewrite (count_true_values s' (ref_value s index) p lits Hnodup Hvalues).
      by rewrite bool_decide_eq_true_2 by (by apply Hvalue).
    + apply elem_of_lookup_zip_with in Hin as (k & v & l & -> & Hk & Hl).
      change (holds other_holds s' (element_link context element v l) = true).
      rewrite holds_element_link.
      pose proof (Forall2_lookup_lr _ _ _ _ _ _ Hvalues Hk Hl) as Hv. simpl in Hv.
      rewrite Hv. destruct (Z.eqb_spec (ref_value s index) v) as [<-|]; [|done]. simpl.
      fold target.
      set (var := element_var element (ref_value s index)) in *.
      assert (Hvar : PositiveRef var < n) by (by apply element_var_below).
      rewrite <- (ref_value_agree n s s' target Hagree Htarget).
      rewrite <- (ref_value_agree n s s' var Hagree Hvar).
      destruct (Domain.IsFixed (DomainOf context var)).
      * rewrite <- Heqv. apply DomainOf_holds; [done|]. by rewrite Hsize.
      * rewrite Heqv. apply Z.eqb_refl.
  - by apply (encoding_expansion_determined other_holds context context' c
                ConstraintProto.cleared created _ Hexp).
Qed.

End ElementSolutions.

(** * The solutions of a model and of its expansion *)

Lemma sorted_intervals_not_empty (bounds : list Z) :
  (2 < length bounds)%nat -> sorted_intervals (pair_up bounds) = true ->
  Domain.IsEmpty (ReadDomainFromProto bounds) = false.
Proof.
  intros Hlen Hs. destruct bounds as [|lo [|hi bounds]]; simpl in Hlen; try lia.
  cbn [pair_up] in Hs. apply sorted_intervals_cons in Hs as (Hi & _ & _). simpl in Hi.
  assert (Hin : Domain.Contains (ReadDomainFromProto (lo :: hi :: bounds)) lo = true).
  { unfold ReadDomainFromProto. rewrite DomainFacts.Contains_normalise. cbn [pair_up existsb].
    unfold Domain.in_interval. simpl. apply orb_true_iff. left.
    apply andb_true_iff. rewrite !Z.leb_le. lia. }
  by destruct (ReadDomainFromProto (lo :: hi :: bounds)).
Qed.

(** The product by a literal is expanded without the enforcement literals of
    the constraint: an assignment in which the product is not enforced, and
    does not hold, is a solution before the expansion and not after it,
    while the expansion creates no variable. *)
Lemma ExpandIntProd_enforcement_dropped :
  let context' := ExpandIntProd 0 enforced_product_context in
  solution no_other_constraint product_not_enforced enforced_product_context = true
  /\ solution no_other_constraint product_not_enforced context' = false
  /\ variables_size context' = variables_size enforced_product_context
  /\ constraints context'
     = [ConstraintProto.cleared;
        ConstraintProto.mk [2]
          (kLinear (LinearConstraintProto.mk [3; 1] [1; -1] [0; 0]));
        ConstraintProto.mk [NegatedRef 2]
          (kLinear (LinearConstraintProto.mk [1] [1] [0; 0]))].
Proof. vm_compute. repeat split. Qed.

(** * The propagation of an automaton *)

Lemma set_at_alter_eq (f : gset Z -> gset Z) (l : list (gset Z)) (i : nat) :
  (i < length l)%nat -> set_at (alter f i l) i = f (set_at l i).
Proof.
  intros Hi. unfold set_at. rewrite list_lookup_alter_eq.
  destruct (lookup_lt_is_Some_2 l i Hi) as [x Hx]. by rewrite Hx.
Qed.

Lemma set_at_alter_ne (f : gset Z -> gset Z) (l : list (gset Z)) (i j : nat) :
  i <> j -> set_at (alter f i l) j = set_at l j.
Proof. intros Hij. unfold set_at. by rewrite list_lookup_alter_ne. Qed.

Lemma set_at_insert_eq (x : gset Z) (l : list (gset Z)) (i : nat) :
  (i < length l)%nat -> set_at (<[i := x]> l) i = x.
Proof. intros Hi. unfold set_at. by rewrite list_lookup_insert_eq. Qed.

Lemma set_at_insert_ne (x : gset Z) (l : list (gset Z)) (i j : nat) :
  i <> j -> set_at (<[i := x]> l) j = set_at l j.
Proof. intros Hij. unfold set_at. by rewrite list_lookup_insert_ne. Qed.

Lemma exists_snoc {A : Type} (P : A -> Prop) (l : list A) (a : A) :
  (exists x, x ∈ l ++ [a] /\ P x) <-> (exists x, x ∈ l /\ P x) \/ P a.
Proof.
  split.
  - intros (x & Hin & HP). apply elem_of_app in Hin as [Hin|Hin]; [left; eauto|].
    apply list_elem_of_singleton in Hin as ->. by right.
  - intros [(x & Hin & HP) | HP].
    + exists x. split; [|done]. apply elem_of_app. by left.
    + exists a. split; [|done]. apply elem_of_app. right. by apply list_elem_of_singleton.
Qed.

(** The forward pass at one step: the sets of the other indices are
    untouched, and the heads and the labels of the allowed transitions are
    added. *)
Lemma propagate_forward_spec (proto : AutomatonConstraintProto.t)
    (context : PresolveContext) (n : nat) (states labels : list (gset Z)) (time : nat) :
  (time < length labels)%nat -> (S time < length states)%nat ->
  let st' := propagate_forward proto context n (states, labels) time in
  length st'.1 = length states /\ length st'.2 = length labels
  /\ (forall t, t <> S time -> set_at st'.1 t = set_at states t)
  /\ (forall t, t <> time -> set_at st'.2 t = set_at labels t)
  /\ (forall q, q ∈ set_at st'.1 (S time)
                <-> q ∈ set_at states (S time)
                    \/ exists tr, tr ∈ transitions proto /\ tr.2 = q
                                  /\ forward_allowed proto context n states time tr)
  /\ (forall w, w ∈ set_at st'.2 time
                <-> w ∈ set_at labels time
                    \/ exists tr, tr ∈ transitions proto /\ tr.1.2 = w
                                  /\ forward_allowed proto context n states time tr).
Proof.
  intros Hl Hs. unfold propagate_forward.
  induction (transitions proto) as [|tr l IH] using rev_ind.
  - simpl. split; [done|]. split; [done|]. split; [done|]. split; [done|].
    split; intros x; (split; [by left|]); intros [H|(tr & Hin & _)]; try done;
      by apply elem_of_nil in Hin.
  - rewrite foldl_app. cbn [foldl].
    destruct (foldl _ (states, labels) l) as [states1 labels1].
    cbn [fst snd] in IH. destruct IH as (Hls & Hll & Hso & Hlo & Hsn & Hln).
    destruct tr as [[tail label] head].
    assert (Htail : set_at states1 time = set_at states time) by (apply Hso; lia).
    assert (Hmem1 : forall x,
               (exists tr, tr ∈ l ++ [(tail, label, head)] /\ tr.2 = x
                           /\ forward_allowed proto context n states time tr)
               <-> (exists tr, tr ∈ l /\ tr.2 = x
                               /\ forward_allowed proto context n states time tr)
                   \/ (head = x
                       /\ forward_allowed proto context n states time (tail, label, head))).
    { intros x. apply (exists_snoc (fun tr : Z * Z * Z => tr.2 = x /\ _)). }
    assert (Hmem2 : forall x,
               (exists tr, tr ∈ l ++ [(tail, label, head)] /\ tr.1.2 = x
                           /\ forward_allowed proto context n states time tr)
               <-> (exists tr, tr ∈ l /\ tr.1.2 = x
                               /\ forward_allowed proto context n states time tr)
                   \/ (label = x
                       /\ forward_allowed proto context n states time (tail, label, head))).
    { intros x. apply (exists_snoc (fun tr : Z * Z * Z => tr.1.2 = x /\ _)). }
    destruct (bool_decide (tail ∈ set_at states1 time)) eqn:E1; cbn [negb].
    2:{ apply bool_decide_eq_false_1 in E1. rewrite Htail in E1.
        cbn [fst snd]. split; [done|]. split; [done|]. split; [done|]. split; [done|].
        split; intros x; [rewrite Hmem1, Hsn | rewrite Hmem2, Hln];
          unfold forward_allowed; simpl; tauto. }
    apply bool_decide_eq_true_1 in E1. rewrite Htail in E1.
    destruct (DomainContains context (ref_at (AutomatonConstraintProto.vars proto) time)
                label) eqn:E2; cbn [negb].
    2:{ cbn [fst snd]. split; [done|]. split; [done|]. split; [done|]. split; [done|].
        split; intros x; [rewrite Hmem1, Hsn | rewrite Hmem2, Hln];
          unfold forward_allowed; simpl; rewrite E2;
          (split; [tauto|]); intros [?|[?|(_ & _ & ? & _)]]; auto; done. }
    destruct (bool_decide (time = (n - 1)%nat)
              && negb (bool_decide (head ∈ AutomatonConstraintProto.final_states proto)))
      eqn:E3.
    { apply andb_true_iff in E3 as [Ht Hf]. apply bool_decide_eq_true_1 in Ht.
      apply negb_true_iff, bool_decide_eq_false_1 in Hf.
      cbn [fst snd]. split; [done|]. split; [done|]. split; [done|]. split; [done|].
      split; intros x; [rewrite Hmem1, Hsn | rewrite Hmem2, Hln];
        unfold forward_allowed; simpl;
        (split; [tauto|]); intros [?|[?|(_ & _ & _ & Hfin)]]; auto;
        by destruct Hf; apply Hfin. }
    assert (Hfinal : time = (n - 1)%nat ->
                     head ∈ AutomatonConstraintProto.final_states proto).
    { intros Ht. apply andb_false_iff in E3 as [E3|E3].
      - by apply bool_decide_eq_false_1 in E3.
      - by apply negb_false_iff, bool_decide_eq_true_1 in E3. }
    cbn [fst snd]. rewrite !length_alter.
    split; [done|]. split; [done|].
    split; [intros t Ht; rewrite set_at_alter_ne by done; by apply Hso|].
    split; [intros t Ht; rewrite set_at_alter_ne by done; by apply Hlo|].
    split; intros x; [rewrite Hmem1 | rewrite Hmem2]; rewrite set_at_alter_eq by lia;
      rewrite elem_of_union, elem_of_singleton; [rewrite Hsn | rewrite Hln];
      unfold forward_allowed; simpl.
    + split.
      * intros [->|[?|?]]; [right; right; by repeat split | by left | right; by left].
      * intros [?|[?|[<- _]]]; [right; by left | right; by right | by left].
    + split.
      * intros [->|[?|?]]; [right; right; by repeat split | by left | right; by left].
      * intros [?|[?|[<- _]]]; [right; by left | right; by right | by left].
Qed.

(** The backward pass at one step: the two sets of the step are replaced
    by the tails and the labels of the transitions that are still allowed. *)
Lemma propagate_backward_spec (proto : AutomatonConstraintProto.t)
    (states labels : list (gset Z)) (time : nat) :
  exists new_states new_labels : gset Z,
    propagate_backward proto (states, labels) time
    = (<[time := new_states]> states, <[time := new_labels]> labels)
    /\ (forall q, q ∈ new_states
                  <-> exists tr, tr ∈ transitions proto /\ tr.1.1 = q
                                 /\ backward_allowed states labels time tr)
    /\ (forall w, w ∈ new_labels
                  <-> exists tr, tr ∈ transitions proto /\ tr.1.2 = w
                                 /\ backward_allowed states labels time tr).
Proof.
  unfold propagate_backward.
  match goal with
  | |- context [foldl ?f (∅, ∅) _] => set (step := f)
  end.
  assert (H : forall l,
             let acc := foldl step (∅, ∅) l in
             (forall q, q ∈ acc.1
                        <-> exists tr, tr ∈ l /\ tr.1.1 = q
                                       /\ backward_allowed states labels time tr)
             /\ (forall w, w ∈ acc.2
                           <-> exists tr, tr ∈ l /\ tr.1.2 = w
                                          /\ backward_allowed states labels time tr)).
  { induction l as [|tr l IH] using rev_ind.
    - simpl. split; intros x; (split; [set_solver|]); intros (tr & Hin & _);
        by apply elem_of_nil in Hin.
    - cbv zeta in IH |- *. rewrite foldl_app. cbn [foldl].
      destruct (foldl step (∅, ∅) l) as [new_states new_labels].
      cbn [fst snd] in IH. destruct IH as [Hs Hl].
      destruct tr as [[tail label] head].
      assert (Hmem1 : forall x,
                 (exists tr, tr ∈ l ++ [(tail, label, head)] /\ tr.1.1 = x
                             /\ backward_allowed states labels time tr)
                 <-> (exists tr, tr ∈ l /\ tr.1.1 = x
                                 /\ backward_allowed states labels time tr)
                     \/ (tail = x
                         /\ backward_allowed states labels time (tail, label, head))).
      { intros x. apply (exists_snoc (fun tr : Z * Z * Z => tr.1.1 = x /\ _)). }
      assert (Hmem2 : forall x,
                 (exists tr, tr ∈ l ++ [(tail, label, head)] /\ tr.1.2 = x
                             /\ backward_allowed states labels time tr)
                 <-> (exists tr, tr ∈ l /\ tr.1.2 = x
                                 /\ backward_allowed states labels time tr)
                     \/ (label = x
                         /\ backward_allowed states labels time (tail, label, head))).
      { intros x. apply (exists_snoc (fun tr : Z * Z * Z => tr.1.2 = x /\ _)). }
      unfold step. cbv beta iota.
      destruct (bool_decide (tail ∈ set_at states time)) eqn:E1; cbn [negb].
      2:{ apply bool_decide_eq_false_1 in E1. cbn [fst snd].
          split; intros x; [rewrite Hmem1, Hs | rewrite Hmem2, Hl];
            unfold backward_allowed; simpl; tauto. }
      apply bool_decide_eq_true_1 in E1.
      destruct (bool_decide (label ∈ set_at labels time)) eqn:E2; cbn [negb].
      2:{ apply bool_decide_eq_false_1 in E2. cbn [fst snd].
          split; intros x; [rewrite Hmem1, Hs | rewrite Hmem2, Hl];
            unfold backward_allowed; simpl; tauto. }
      apply bool_decide_eq_true_1 in E2.
      destruct (bool_decide (head ∈ set_at states (S time))) eqn:E3; cbn [negb].
      2:{ apply bool_decide_eq_false_1 in E3. cbn [fst snd].
          split; intros x; [rewrite Hmem1, Hs | rewrite Hmem2, Hl];
            unfold backward_allowed; simpl; tauto. }
      apply bool_decide_eq_true_1 in E3. cbn [fst snd].
      split; intros x; [rewrite Hmem1 | rewrite Hmem2];
        rewrite elem_of_union, elem_of_singleton; [rewrite Hs | rewrite Hl];
        unfold backward_allowed; simpl.
      + split.
        * intros [->|?]; [right; by repeat split | by left].
        * intros [?|[<- _]]; [by right | by left].
      + split.
        * intros [->|?]; [right; by repeat split | by left].
        * intros [?|[<- _]]; [by right | by left]. }
  specialize (H (transitions proto)). cbv zeta in H.
  destruct (foldl step (∅, ∅) (transitions proto)) as [new_states new_labels].
  exists new_states, new_labels. by split.
Qed.

Lemma set_at_replicate_empty (m t : nat) : set_at (replicate m ∅) t = ∅.
Proof.
  unfold set_at. destruct (replicate m ∅ !! t) eqn:E; [|done].
  by apply lookup_replicate in E as [-> _].
Qed.

Lemma reverse_seq_S (k : nat) : reverse (seq 0 (S k)) = k :: reverse (seq 0 k).
Proof. by rewrite seq_S, reverse_app. Qed.

(** The forward pass keeps the run up to the current step. *)
Lemma propagate_forward_run (proto : AutomatonConstraintProto.t)
    (context : PresolveContext) (qs ws : list Z) (k : nat) :
  let n := length (AutomatonConstraintProto.vars proto) in
  automaton_run proto context qs ws ->
  (k <= n)%nat ->
  let st :=
    foldl (propagate_forward proto context n)
          (<[0%nat := {[AutomatonConstraintProto.starting_state proto]}]> (replicate (S n) ∅),
           replicate n ∅) (seq 0 k) in
  length st.1 = S n /\ length st.2 = n
  /\ (forall t q, (t <= k)%nat -> qs !! t = Some q -> q ∈ set_at st.1 t)
  /\ (forall t w, (t < k)%nat -> ws !! t = Some w -> w ∈ set_at st.2 t).
Proof.
  intros n (Hws & Hqs & Hstart & Hstep & Hfinal). induction k as [|k IH]; intros Hk st.
  - subst st. cbn [seq foldl fst snd]. rewrite length_insert, !length_replicate.
    split; [done|]. split; [done|]. split; [|intros; lia].
    intros t q Ht Hq. assert (t = 0%nat) as -> by lia.
    rewrite set_at_insert_eq by (rewrite length_replicate; lia).
    rewrite Hstart in Hq. injection Hq as <-. set_solver.
  - subst st. rewrite seq_S, foldl_app. cbn [foldl].
    specialize (IH ltac:(lia)). cbv zeta in IH.
    destruct (foldl _ _ (seq 0 k)) as [states labels]. cbn [fst snd] in IH.
    destruct IH as (Hls & Hll & Hq & Hw). simpl.
    destruct (propagate_forward_spec proto context n states labels k ltac:(lia) ltac:(lia))
      as (Hls' & Hll' & Hso & Hlo & Hsn & Hln).
    fold n. destruct (propagate_forward proto context n (states, labels) k)
      as [states' labels'].
    cbn [fst snd] in *. split; [lia|]. split; [lia|].
    destruct (lookup_lt_is_Some_2 qs k ltac:(lia)) as [qk Hqk].
    destruct (lookup_lt_is_Some_2 qs (S k) ltac:(lia)) as [qk' Hqk'].
    destruct (lookup_lt_is_Some_2 ws k ltac:(lia)) as [wk Hwk].
    destruct (Hstep k qk wk qk' Hqk Hwk Hqk') as [Htr Hdom].
    assert (Hallowed : forward_allowed proto context n states k (qk, wk, qk')).
    { split; [by apply Hq|]. split; [done|]. simpl. intros Hlast. apply Hfinal.
      fold n. by replace n with (S k) by lia. }
    split.
    + intros t q Ht Hqt. destruct (decide (t = S k)) as [->|Hne].
      * apply Hsn. right. exists (qk, wk, qk'). split; [done|]. split; [|done].
        simpl. congruence.
      * rewrite Hso by done. apply Hq; [lia|done].
    + intros t w Ht Hwt. destruct (decide (t = k)) as [->|Hne].
      * apply Hln. right. exists (qk, wk, qk'). split; [done|]. split; [|done].
        simpl. congruence.
      * rewrite Hlo by done. apply Hw; [lia|done].
Qed.

(** One step of the backward pass keeps a run. *)
Lemma propagate_backward_run (proto : AutomatonConstraintProto.t)
    (context : PresolveContext) (qs ws : list Z) (st : list (gset Z) * list (gset Z))
    (time : nat) :
  let n := length (AutomatonConstraintProto.vars proto) in
  automaton_run proto context qs ws ->
  (time < n)%nat -> length st.1 = S n -> length st.2 = n ->
  automaton_contains_run qs ws st ->
  let st' := propagate_backward proto st time in
  length st'.1 = S n /\ length st'.2 = n /\ automaton_contains_run qs ws st'.
Proof.
  intros n (Hws & Hqs & Hstart & Hstep & Hfinal) Ht Hls Hll [Hq Hw] st'.
  destruct st as [states labels]. cbn [fst snd] in *.
  destruct (propagate_backward_spec proto states labels time)
    as (new_states & new_labels & Heq & Hns & Hnl).
  subst st'. rewrite Heq. cbn [fst snd]. rewrite !length_insert.
  split; [done|]. split; [done|].
  destruct (lookup_lt_is_Some_2 qs time ltac:(lia)) as [qk Hqk].
  destruct (lookup_lt_is_Some_2 qs (S time) ltac:(lia)) as [qk' Hqk'].
  destruct (lookup_lt_is_Some_2 ws time ltac:(lia)) as [wk Hwk].
  destruct (Hstep time qk wk qk' Hqk Hwk Hqk') as [Htr Hdom].
  assert (Hallowed : backward_allowed states labels time (qk, wk, qk')).
  { split; [by apply Hq|]. split; [by apply Hw|]. by apply Hq. }
  split; cbn [fst snd].
  - intros t q Hqt. destruct (decide (t = time)) as [->|Hne].
    + rewrite set_at_insert_eq by lia. apply Hns. exists (qk, wk, qk').
      split; [done|]. split; [|done]. simpl. congruence.
    + rewrite set_at_insert_ne by done. by apply Hq.
  - intros t w Hwt. destruct (decide (t = time)) as [->|Hne].
    + rewrite set_at_insert_eq by lia. apply Hnl. exists (qk, wk, qk').
      split; [done|]. split; [|done]. simpl. congruence.
    + rewrite set_at_insert_ne by done. by apply Hw.
Qed.

(** The propagation never removes a state or a label of a run of the
    automaton: for every word over the domains of the variables that the
    automaton accepts, each state of its run is among the reachable states
    of its time point, and each label among the reachable labels of its
    step. *)
Theorem PropagateAutomaton_keeps_runs (proto : AutomatonConstraintProto.t)
    (context : PresolveContext) (qs ws : list Z) :
  automaton_run proto context qs ws ->
  automaton_contains_run qs ws (PropagateAutomaton proto context).
Proof.
  intros Hrun. unfold PropagateAutomaton. cbv zeta.
  set (n := length (AutomatonConstraintProto.vars proto)).
  pose proof (propagate_forward_run proto context qs ws n Hrun (Nat.le_refl _)) as Hf.
  cbv zeta in Hf. fold n in Hf.
  set (forward := foldl (propagate_forward proto context n) _ (seq 0 n)) in *.
  destruct Hf as (Hls & Hll & Hq & Hw).
  assert (Hinv : length forward.1 = S n /\ length forward.2 = n
                 /\ automaton_contains_run qs ws forward).
  { split; [done|]. split; [done|]. destruct Hrun as (Hws & Hqs & _). split.
    - intros t q Hqt. apply Hq; [|done]. apply lookup_lt_Some in Hqt. fold n in Hqs. lia.
    - intros t w Hwt. apply Hw; [|done]. apply lookup_lt_Some in Hwt. fold n in Hws. lia. }
  clearbody forward. clear Hls Hll Hq Hw.
  assert (Hloop : forall k st, (k <= n)%nat ->
             length st.1 = S n /\ length st.2 = n /\ automaton_contains_run qs ws st ->
             automaton_contains_run qs ws
               (foldl (propagate_backward proto) st (reverse (seq 0 k)))).
  { induction k as [|k IH]; intros st Hk (Hls & Hll & Hc); [done|].
    rewrite reverse_seq_S. cbn [foldl]. apply IH; [lia|].
    by apply (propagate_backward_run proto context qs ws st k Hrun). }
  by apply Hloop.
Qed.

(** The forward pass keeps the sets bounded. *)
Lemma propagate_forward_bounded (proto : AutomatonConstraintProto.t)
    (context : PresolveContext) (k : nat) :
  let n := length (AutomatonConstraintProto.vars proto) in
  (k <= n)%nat ->
  automaton_sets_bounded proto context
    (foldl (propagate_forward proto context n)
           (<[0%nat := {[AutomatonConstraintProto.starting_state proto]}]>
              (replicate (S n) ∅),
            replicate n ∅) (seq 0 k)).
Proof.
  intros n. induction k as [|k IH]; intros Hk.
  - cbn [seq foldl]. unfold automaton_sets_bounded. fold n. cbn [fst snd].
    rewrite length_insert, !length_replicate.
    split; [done|]. split; [done|]. split; [|split].
    + intros t w. rewrite set_at_replicate_empty. set_solver.
    + intros q. rewrite set_at_insert_eq by (rewrite length_replicate; lia). set_solver.
    + intros Hn q. rewrite set_at_insert_ne by lia. rewrite set_at_replicate_empty.
      set_solver.
  - rewrite seq_S, foldl_app. cbn [foldl]. specialize (IH ltac:(lia)).
    destruct (foldl _ _ (seq 0 k)) as [states labels].
    destruct IH as (Hls & Hll & Hdom & Hfirst & Hlast). fold n in Hls, Hll, Hlast.
    cbn [fst snd] in *. simpl.
    destruct (propagate_forward_spec proto context n states labels k ltac:(lia) ltac:(lia))
      as (Hls' & Hll' & Hso & Hlo & Hsn & Hln).
    destruct (propagate_forward proto context n (states, labels) k)
      as [states' labels'].
    unfold automaton_sets_bounded. fold n. cbn [fst snd] in *.
    split; [lia|]. split; [lia|]. split; [|split].
    + intros t w Hw. destruct (decide (t = k)) as [->|Hne].
      * apply Hln in Hw as [Hw | (tr & _ & <- & _ & Hd & _)]; [by apply Hdom | done].
      * rewrite Hlo in Hw by done. by apply Hdom.
    + intros q. rewrite Hso by lia. apply Hfirst.
    + intros Hn q Hq. destruct (decide (n = S k)) as [Heq|Hne].
      * rewrite Heq in Hq. apply Hsn in Hq as [Hq | (tr & _ & <- & _ & _ & Hf)].
        -- apply Hlast; [done|]. by rewrite Heq.
        -- apply Hf. lia.
      * rewrite Hso in Hq by done. by apply Hlast.
Qed.

(** One step of the backward pass keeps the sets bounded and extends the
    steps whose states and labels are supported. *)
Lemma propagate_backward_supported (proto : AutomatonConstraintProto.t)
    (context : PresolveContext) (st : list (gset Z) * list (gset Z)) (k : nat) :
  let n := length (AutomatonConstraintProto.vars proto) in
  (k < n)%nat ->
  automaton_sets_bounded proto context st ->
  automaton_supported_from proto (S k) st ->
  let st' := propagate_backward proto st k in
  automaton_sets_bounded proto context st' /\ automaton_supported_from proto k st'.
Proof.
  intros n Hk (Hls & Hll & Hdom & Hfirst & Hlast) Hsup st'. fold n in Hls, Hll, Hlast.
  destruct st as [states labels]. cbn [fst snd] in *.
  destruct (propagate_backward_spec proto states labels k)
    as (new_states & new_labels & Heq & Hns & Hnl).
  subst st'. rewrite Heq. split.
  - unfold automaton_sets_bounded. fold n. cbn [fst snd]. rewrite !length_insert.
    split; [done|]. split; [done|]. split; [|split].
    + intros t w Hw. destruct (decide (t = k)) as [->|Hne].
      * rewrite set_at_insert_eq in Hw by lia.
        apply Hnl in Hw as (tr & _ & <- & _ & Hl & _). by apply Hdom.
      * rewrite set_at_insert_ne in Hw by done. by apply Hdom.
    + intros q Hq. destruct (decide (k = 0%nat)) as [->|Hne].
      * rewrite set_at_insert_eq in Hq by lia.
        apply Hns in Hq as (tr & _ & <- & Ht & _). by apply Hfirst.
      * rewrite set_at_insert_ne in Hq by done. by apply Hfirst.
    + intros Hn q. rewrite set_at_insert_ne by lia. by apply Hlast.
  - intros t Ht. fold n in Ht. cbn [fst snd].
    destruct (decide (t = k)) as [->|Hne].
    + rewrite !set_at_insert_eq by lia. rewrite (set_at_insert_ne _ _ k (S k)) by lia.
      split.
      * intros w Hw. apply Hnl in Hw as ([[tail label] head] & Hin & <- & Hallowed).
        exists tail, head. split; [done|]. split; [|by destruct Hallowed as (_ & _ & ?)].
        apply Hns. by exists (tail, label, head).
      * intros q Hq. apply Hns in Hq as ([[tail label] head] & Hin & <- & Hallowed).
        exists label, head. split; [done|]. split; [|by destruct Hallowed as (_ & _ & ?)].
        apply Hnl. by exists (tail, label, head).
    + rewrite !(set_at_insert_ne _ _ k) by lia. apply (Hsup t). fold n. lia.
Qed.

(** After the propagation, the sets have the sizes of the automaton, every
    label that is kept is in the domain of its variable, the state kept at
    time zero is the starting state, the states kept at the end are final,
    and every state and every label that is kept at a step is the tail or
    the label of a transition with a kept label from a kept state to a state
    kept at the next time point. *)
Theorem PropagateAutomaton_supported (proto : AutomatonConstraintProto.t)
    (context : PresolveContext) :
  automaton_sets_bounded proto context (PropagateAutomaton proto context)
  /\ automaton_supported_from proto 0 (PropagateAutomaton proto context).
Proof.
  unfold PropagateAutomaton. cbv zeta.
  set (n := length (AutomatonConstraintProto.vars proto)).
  pose proof (propagate_forward_bounded proto context n (Nat.le_refl _)) as Hb.
  cbv zeta in Hb. fold n in Hb.
  set (forward := foldl (propagate_forward proto context n) _ (seq 0 n)) in *.
  clearbody forward.
  assert (Hloop : forall k st, (k <= n)%nat ->
             automaton_sets_bounded proto context st ->
             automaton_supported_from proto k st ->
             let st' := foldl (propagate_backward proto) st (reverse (seq 0 k)) in
             automaton_sets_bounded proto context st'
             /\ automaton_supported_from proto 0 st').
  { induction k as [|k IH]; intros st Hk Hbound Hsup; [done|].
    rewrite reverse_seq_S. cbn [foldl].
    destruct (propagate_backward_supported proto context st k ltac:(fold n; lia) Hbound Hsup)
      as [Hbound' Hsup'].
    apply IH; [lia|done|done]. }
  apply Hloop; [lia|done|]. intros t Ht. fold n in Ht. lia.
Qed.

Lemma PropagateAutomaton_keeps_runs_witness :
  automaton_contains_run [0; 1; 2] [5; 6]
    (PropagateAutomaton two_step_automaton two_step_context).
Proof.
  apply (PropagateAutomaton_keeps_runs two_step_automaton two_step_context [0; 1; 2] [5; 6]).
  split; [reflexivity|]. split; [reflexivity|]. split; [reflexivity|]. split.
  - intros t q w q' Hq Hw Hq'. destruct t as [|[|t]]; simpl in Hq, Hw, Hq'.
    + injection Hq as <-. injection Hw as <-. injection Hq' as <-.
      split; [|reflexivity]. apply list_elem_of_here.
    + injection Hq as <-. injection Hw as <-. injection Hq' as <-.
      split; [|reflexivity]. apply list_elem_of_further, list_elem_of_here.
    + discriminate Hw.
  - intros q Hq. simpl in Hq. injection Hq as <-. apply list_elem_of_here.
Defined.

(** * The links between literals and encoded values *)

Lemma elem_of_STLSortAndRemoveDuplicates (l : list Z) (x : Z) :
  x ∈ STLSortAndRemoveDuplicates l <-> x ∈ l.
Proof.
  unfold STLSortAndRemoveDuplicates. rewrite elem_of_remove_dups.
  by rewrite merge_sort_Permutation.
Qed.

Lemma NoDup_STLSortAndRemoveDuplicates (l : list Z) : NoDup (STLSortAndRemoveDuplicates l).
Proof. apply NoDup_remove_dups. Qed.

(** A list without duplicates of keys of a map, as long as the map, has
    every key. *)
Lemma NoDup_keys_full {V : Type} (m : gmap Z V) (l : list Z) (k : Z) :
  NoDup l -> (forall x, x ∈ l -> is_Some (m !! x)) -> length l = size m ->
  is_Some (m !! k) -> k ∈ l.
Proof.
  intros Hnd Hsub Hlen Hk.
  assert (Heq : list_to_set l = dom m :> gset Z).
  { apply set_subseteq_size_eq.
    - intros x Hx. apply elem_of_list_to_set in Hx. apply elem_of_dom. by apply Hsub.
    - rewrite size_dom, size_list_to_set by done. lia. }
  apply (elem_of_list_to_set (C := gset Z)). rewrite Heq. by apply elem_of_dom.
Qed.

Section ReachableValues.

Variable other_holds : assignment -> Constraint -> bool.

(** [AddImplyInReachableValues] under an assignment in which exactly one
    literal of the encoding is true, the one of the value [k0]: what is
    added holds exactly when [literal] implies that [k0] is one of the
    reachable values.  This is so whether the clause, the conjunction or
    nothing is added. *)
Theorem AddImplyInReachableValues_meaning (s : assignment) (literal : Z)
    (reachable_values : list Z) (encoding : gmap Z Z) (context : PresolveContext)
    (k0 l0 : Z) :
  (forall v, v ∈ reachable_values -> is_Some (encoding !! v)) ->
  encoding !! k0 = Some l0 ->
  literal_value s l0 = true ->
  (forall k l, encoding !! k = Some l -> literal_value s l = true -> k = k0) ->
  let context' := AddImplyInReachableValues literal reachable_values encoding context in
  (forall ct, ct ∈ drop (length (constraints context)) (constraints context') ->
              holds other_holds s ct = true)
  <-> (literal_value s literal = true -> k0 ∈ reachable_values).
Proof.
  intros Hsub Hk0 Hl0 Hone context'. subst context'. unfold AddImplyInReachableValues.
  set (reachable := STLSortAndRemoveDuplicates reachable_values).
  assert (Hin : forall v, v ∈ reachable <-> v ∈ reachable_values)
    by apply elem_of_STLSortAndRemoveDuplicates.
  destruct (Nat.eqb_spec (length reachable) (size encoding)) as [Hfull|_].
  - rewrite drop_all. split; [|intros _ ct Hct; by apply elem_of_nil in Hct].
    intros _ _. apply Hin. apply (NoDup_keys_full encoding); [| |done|by eexists].
    + apply NoDup_STLSortAndRemoveDuplicates.
    + intros x Hx. by apply Hsub, Hin.
  - destruct (length reachable <=? size encoding / 2)%nat;
      rewrite constraints_add_constraints, drop_app_length.
    + (* The clause of the literals of the reachable values. *)
      assert (Hex : existsb (literal_value s) (map (at_ encoding) reachable) = true
                    <-> k0 ∈ reachable_values).
      { rewrite existsb_exists. split.
        - intros (l & Hl & Htrue). apply in_map_iff in Hl as (v & <- & Hv).
          apply list_elem_of_In, Hin in Hv. destruct (Hsub v Hv) as [l Hl].
          unfold at_ in Htrue. rewrite Hl in Htrue. simpl in Htrue.
          by rewrite <- (Hone v l Hl Htrue).
        - intros Hk. exists l0. split; [|done]. apply in_map_iff. exists k0.
          split; [unfold at_; by rewrite Hk0 | by apply list_elem_of_In, Hin]. }
      split.
      * intros Hall Hlit. apply Hex.
        specialize (Hall _ (list_elem_of_here _ _)). unfold holds in Hall. simpl in Hall.
        by rewrite Hlit in Hall.
      * intros Himp ct Hct. apply list_elem_of_singleton in Hct as ->.
        unfold holds. simpl. rewrite andb_true_r.
        destruct (literal_value s literal); [|done]. simpl. by apply Hex, Himp.
    + (* The conjunction of the negated literals of the other values. *)
      set (others := filter (fun e : Z * Z => e.1 ∉ reachable) (entries encoding)).
      assert (Hall : forallb (literal_value s) (map (fun e : Z * Z => NegatedRef e.2) others)
                     = true <-> k0 ∈ reachable_values).
      { rewrite forallb_forall. split.
        - intros Hfalse. destruct (decide (k0 ∈ reachable)) as [Hk|Hk]; [by apply Hin|].
          assert (Hmem : (k0, l0) ∈ others).
          { apply list_elem_of_filter. split; [done|]. by apply elem_of_entries. }
          specialize (Hfalse (NegatedRef l0)).
          rewrite literal_value_NegatedRef, Hl0 in Hfalse. simpl in Hfalse.
          exfalso. apply Bool.diff_false_true, Hfalse. apply in_map_iff.
          exists (k0, l0). split; [done|]. by apply list_elem_of_In.
        - intros Hk l Hl. apply in_map_iff in Hl as ([k l'] & <- & Hmem).
          apply list_elem_of_In, list_elem_of_filter in Hmem as [Hout Hmem].
          apply elem_of_entries in Hmem. simpl in *.
          rewrite literal_value_NegatedRef. apply negb_true_iff.
          destruct (literal_value s l') eqn:E; [|done].
          apply (Hone k l' Hmem) in E as ->. destruct Hout. by apply Hin. }
      split.
      * intros Hholds Hlit. apply Hall.
        specialize (Hholds _ (list_elem_of_here _ _)). unfold holds in Hholds.
        simpl in Hholds. by rewrite Hlit in Hholds.
      * intros Himp ct Hct. apply list_elem_of_singleton in Hct as ->.
        unfold holds. simpl. rewrite andb_true_r.
        destruct (literal_value s literal); [|done]. simpl. by apply Hall, Himp.
Qed.

End ReachableValues.

Lemma AddImplyInReachableValues_meaning_witness :
  let context' := AddImplyInReachableValues 0 [5] two_values_encoding clause_context in
  (forall ct, ct ∈ drop (length (constraints clause_context)) (constraints context') ->
              holds no_other_constraint value_is_5 ct = true)
  <-> (literal_value value_is_5 0 = true -> 5 ∈ [5]).
Proof.
  apply (AddImplyInReachableValues_meaning no_other_constraint value_is_5 0 [5]
           two_values_encoding clause_context 5 1).
  - intros v Hv. apply list_elem_of_singleton in Hv as ->. by eexists.
  - reflexivity.
  - reflexivity.
  - intros k l Hk Hl. unfold two_values_encoding in Hk.
    apply lookup_insert_Some in Hk as [[<- _] | [_ Hk]]; [reflexivity|].
    apply lookup_insert_Some in Hk as [[_ <-] | [_ Hk]]; [discriminate Hl|].
    by rewrite lookup_empty in Hk.
Defined.

(** The map from an encoding literal to its support, built by
    [push_back]. *)
Lemma support_map_lookup (encoding : gmap Z Z) (l : list (Z * Z)) (e : Z) :
  let m := foldl (fun (m : gmap Z (list Z)) vl => push_back m (at_ encoding vl.1) vl.2) ∅ l in
  let support := map snd (filter (fun vl : Z * Z => at_ encoding vl.1 = e) l) in
  m !! e = if decide (support = []) then None else Some support.
Proof.
  induction l as [|[v lit] l IH] using rev_ind; [done|].
  cbv zeta in IH |- *. rewrite foldl_app. cbn [foldl fst snd].
  set (m := foldl _ ∅ l) in *. rewrite filter_app, map_app.
  unfold push_back. destruct (decide (at_ encoding v = e)) as [Heq|Hne].
  - rewrite Heq, lookup_insert_eq, IH.
    rewrite (filter_cons_True _ (v, lit)) by done. rewrite filter_nil. cbn [map snd].
    set (S := map snd (filter _ l)).
    destruct (decide (S ++ [lit] = [])) as [Hnil|_];
      [by apply app_nil in Hnil as [_ ?]|].
    by destruct (decide (S = [])) as [->|?].
  - rewrite lookup_insert_ne by done. rewrite IH.
    rewrite (filter_cons_False _ (v, lit)) by done. rewrite filter_nil. cbn [map].
    by rewrite app_nil_r.
Qed.

(** The constraints and the equalities that the second loop of
    [LinkLiteralsAndValues] adds. *)
Lemma link_loop (es : list (Z * list Z)) (context : PresolveContext) :
  let context' :=
    foldl
      (fun context (entry : Z * list Z) =>
         let '(encoding_lit, support) := entry in
         match support with
         | [lit] => StoreBooleanEqualityRelation encoding_lit lit context
         | _ =>
             let context :=
               add_constraints (plain (kBoolOr (NegatedRef encoding_lit :: support)))
                 context in
             foldl (fun context lit => AddImplication lit encoding_lit context)
                   context support
         end)
      context es in
  constraints context' = constraints context ++ flat_map link_constraints es
  /\ equalities context' = equalities context ++ flat_map link_equalities es.
Proof.
  revert context. induction es as [|[e support] es IH]; intros context.
  - simpl. by rewrite !app_nil_r.
  - cbn [foldl flat_map]. cbv zeta in IH.
    assert (Himp : forall sup ctx,
               constraints (foldl (fun context lit => AddImplication lit e context) ctx sup)
               = constraints ctx ++ map (fun lit => ConstraintProto.mk [lit] (kBoolAnd [e])) sup
               /\ equalities (foldl (fun context lit => AddImplication lit e context) ctx sup)
                  = equalities ctx).
    { induction sup as [|lit sup IHs]; intros ctx; simpl; [by rewrite app_nil_r|].
      destruct (IHs (AddImplication lit e ctx)) as [-> ->].
      unfold AddImplication. rewrite constraints_add_constraints, <- app_assoc. by split. }
    destruct support as [|lit [|lit' support]].
    + destruct (IH (foldl (fun context lit => AddImplication lit e context)
                      (add_constraints (plain (kBoolOr [NegatedRef e])) context) []))
        as [-> ->].
      simpl. rewrite constraints_add_constraints, <- app_assoc. by split.
    + destruct (IH (StoreBooleanEqualityRelation e lit context)) as [-> ->].
      unfold StoreBooleanEqualityRelation, link_constraints, link_equalities. simpl.
      split; [done|]. unfold equalities at 1. simpl. by rewrite <- app_assoc.
    + destruct (IH (foldl (fun context lit => AddImplication lit e context)
                      (add_constraints
                         (plain (kBoolOr (NegatedRef e :: lit :: lit' :: support))) context)
                      (lit :: lit' :: support))) as [-> ->].
      destruct (Himp (lit :: lit' :: support)
                  (add_constraints
                     (plain (kBoolOr (NegatedRef e :: lit :: lit' :: support))) context))
        as [-> ->].
      rewrite constraints_add_constraints. unfold link_constraints, link_equalities.
      cbn [fst snd app]. rewrite <- !app_assoc. by split.
Qed.

Section LinkLiterals.

Variable other_holds : assignment -> Constraint -> bool.

(** What is added for one encoding literal says that it is true exactly
    when one literal of its support is. *)
Lemma link_entry_meaning (s : assignment) (e : Z) (support : list Z) :
  ((forall ct, ct ∈ link_constraints (e, support) -> holds other_holds s ct = true)
   /\ (forall a b, (a, b) ∈ link_equalities (e, support) ->
         literal_value s a = literal_value s b))
  <-> literal_value s e = existsb (literal_value s) support.
Proof.
  assert (Hgeneral :
            ((forall ct, ct ∈ plain (kBoolOr (NegatedRef e :: support))
                           :: map (fun lit => ConstraintProto.mk [lit] (kBoolAnd [e])) support ->
                         holds other_holds s ct = true)
             <-> literal_value s e = existsb (literal_value s) support)).
  { split.
    - intros Hall. pose proof (Hall _ (list_elem_of_here _ _)) as Hclause.
      unfold holds in Hclause. simpl in Hclause. rewrite literal_value_NegatedRef in Hclause.
      destruct (literal_value s e) eqn:He; simpl in Hclause; [by rewrite Hclause|].
      symmetry. apply not_true_is_false. intros Hex. apply existsb_exists in Hex
        as (lit & Hlit & Htrue).
      assert (Himp : holds other_holds s (ConstraintProto.mk [lit] (kBoolAnd [e])) = true).
      { apply Hall. apply list_elem_of_further, list_elem_of_In, in_map_iff.
        by exists lit. }
      unfold holds in Himp. simpl in Himp. by rewrite Htrue, He in Himp.
    - intros He ct Hct. apply elem_of_cons in Hct as [-> | Hct].
      + unfold holds. simpl. rewrite literal_value_NegatedRef, He.
        by destruct (existsb (literal_value s) support).
      + apply list_elem_of_In, in_map_iff in Hct as (lit & <- & Hlit).
        unfold holds. simpl. rewrite !andb_true_r.
        destruct (literal_value s lit) eqn:Hl; [|done]. simpl. rewrite He.
        apply existsb_exists. by exists lit. }
  destruct support as [|lit [|lit' support]]; [| |].
  - unfold link_equalities. cbn [fst snd]. rewrite <- Hgeneral.
    split; [by intros [? _] | intros ?; split; [done|]]. intros a b Hab.
    by apply elem_of_nil in Hab.
  - unfold link_constraints, link_equalities. cbn [fst snd existsb].
    rewrite orb_false_r. split.
    + intros [_ Heq]. apply Heq, list_elem_of_here.
    + intros He. split; [intros ct Hct; by apply elem_of_nil in Hct|].
      intros a b Hab. apply list_elem_of_singleton in Hab. by injection Hab as -> ->.
  - unfold link_equalities. cbn [fst snd]. rewrite <- Hgeneral.
    split; [by intros [? _] | intros ?; split; [done|]]. intros a b Hab.
    by apply elem_of_nil in Hab.
Qed.

(** [LinkLiteralsAndValues], for as many literals as values and values
    that are keys of the encoding: what it adds, constraints and stored
    equalities, holds exactly when the encoding literal of each value is true
    if and only if one of the literals of this value is. *)
Theorem LinkLiteralsAndValues_meaning (s : assignment) (literals values : list Z)
    (encoding : gmap Z Z) (context : PresolveContext) :
  length literals = length values ->
  (forall v, v ∈ values -> is_Some (encoding !! v)) ->
  let context' := LinkLiteralsAndValues literals values encoding context in
  ((forall ct, ct ∈ drop (length (constraints context)) (constraints context') ->
               holds other_holds s ct = true)
   /\ (forall a b, (a, b) ∈ drop (length (equalities context)) (equalities context') ->
         literal_value s a = literal_value s b))
  <-> (forall v l, (v, l) ∈ zip values literals ->
         literal_value s (at_ encoding v)
         = existsb (literal_value s) (support_of encoding values literals (at_ encoding v))).
Proof.
  intros _ _ context'. subst context'. unfold LinkLiteralsAndValues. cbv zeta.
  set (m := foldl _ ∅ (zip values literals)).
  destruct (link_loop (entries m) context) as [Hc Hq]. cbv zeta in Hc, Hq.
  rewrite Hc, Hq, !drop_app_length.
  assert (Hentry : forall e support,
             (e, support) ∈ entries m
             <-> support = support_of encoding values literals e /\ support <> []).
  { intros e support. rewrite elem_of_entries.
    pose proof (support_map_lookup encoding (zip values literals) e) as Hm.
    cbv zeta in Hm. fold m in Hm. fold (support_of encoding values literals e) in Hm.
    rewrite Hm. destruct (decide (support_of encoding values literals e = [])) as [Hnil|Hne].
    - split; [done|]. intros [-> ?]. done.
    - split; [by intros [= <-] | by intros [-> _]]. }
  split.
  - intros [Hcons Heqs] v l Hvl.
    set (e := at_ encoding v). set (support := support_of encoding values literals e).
    assert (Hin : (e, support) ∈ entries m).
    { apply Hentry. split; [done|]. intros Hnil.
      assert (Hl : l ∈ support).
      { apply list_elem_of_In, in_map_iff. exists (v, l). split; [done|].
        apply list_elem_of_In, list_elem_of_filter. by split. }
      rewrite Hnil in Hl. by apply elem_of_nil in Hl. }
    apply link_entry_meaning. split.
    + intros ct Hct. apply Hcons, list_elem_of_In, in_flat_map. exists (e, support).
      split; by apply list_elem_of_In.
    + intros a b Hab. apply Heqs, list_elem_of_In, in_flat_map. exists (e, support).
      split; by apply list_elem_of_In.
  - intros Hall.
    assert (Hmeaning : forall e support, (e, support) ∈ entries m ->
               literal_value s e = existsb (literal_value s) support).
    { intros e support Hin. apply Hentry in Hin as [-> Hne].
      destruct (support_of encoding values literals e) as [|l0 rest] eqn:Hsup; [done|].
      assert (Hl0 : l0 ∈ support_of encoding values literals e)
        by (rewrite Hsup; apply list_elem_of_here).
      apply list_elem_of_In, in_map_iff in Hl0 as ([v l] & _ & Hvl).
      apply list_elem_of_In, list_elem_of_filter in Hvl as [He Hvl]. simpl in He.
      rewrite <- Hsup, <- He. by apply (Hall v l). }
    split.
    + intros ct Hct. apply list_elem_of_In, in_flat_map in Hct as ([e support] & Hin & Hct).
      apply list_elem_of_In in Hin, Hct.
      by apply (proj2 (link_entry_meaning s e support) (Hmeaning e support Hin)).
    + intros a b Hab. apply list_elem_of_In, in_flat_map in Hab as ([e support] & Hin & Hab).
      apply list_elem_of_In in Hin, Hab.
      by apply (proj2 (link_entry_meaning s e support) (Hmeaning e support Hin)).
Qed.

End LinkLiterals.

Lemma LinkLiteralsAndValues_meaning_witness :
  let context' := LinkLiteralsAndValues [3; 4] [5; 6] two_values_encoding clause_context in
  ((forall ct, ct ∈ drop (length (constraints clause_context)) (constraints context') ->
               holds no_other_constraint value_is_5 ct = true)
   /\ (forall a b, (a, b) ∈ drop (length (equalities clause_context)) (equalities context') ->
         literal_value value_is_5 a = literal_value value_is_5 b))
  <-> (forall v l, (v, l) ∈ zip [5; 6] [3; 4] ->
         literal_value value_is_5 (at_ two_values_encoding v)
         = existsb (literal_value value_is_5)
             (support_of two_values_encoding [5; 6] [3; 4] (at_ two_values_encoding v))).
Proof.
  apply (LinkLiteralsAndValues_meaning no_other_constraint value_is_5 [3; 4] [5; 6]
           two_values_encoding clause_context).
  - reflexivity.
  - intros v Hv. apply elem_of_cons in Hv as [-> | Hv]; [by eexists|].
    apply list_elem_of_singleton in Hv as ->. by eexists.
Defined.

(** * The expansion of an inverse constraint *)

Lemma context_grows_refl (context : PresolveContext) : context_grows context context.
Proof.
  split; [apply encoding_stable_refl|]. split; [done|]. split; [apply domains_prefix_refl|done].
Qed.

Lemma context_grows_trans (c1 c2 c3 : PresolveContext) :
  context_grows c1 c2 -> context_grows c2 c3 -> context_grows c1 c3.
Proof.
  intros (He1 & Hq1 & Hd1 & Hc1) (He2 & Hq2 & Hd2 & Hc2).
  split; [by eapply encoding_stable_trans|]. split; [auto|].
  split; [by eapply domains_prefix_trans | congruence].
Qed.

Lemma literals_shared_grows (c1 c2 : PresolveContext) (ref1 value1 ref2 value2 : Z) :
  context_grows c1 c2 -> literals_shared c1 ref1 value1 ref2 value2 ->
  literals_shared c2 ref1 value1 ref2 value2.
Proof.
  intros (He & Hq & _) (l1 & l2 & H1 & H2 & Heq). exists l1, l2.
  unfold HasVarValueEncoding in *. split; [by apply He|]. split; [by apply He|].
  destruct Heq as [?|[?|?]]; auto.
Qed.

(** One step of the last loop of [ExpandInverse]: the literal of
    [f_direct[i] == j] and the one of [f_inverse[j] == i] are shared. *)
Lemma inverse_share_literal_spec (f_direct f_inverse : list Z) (i : nat)
    (context : PresolveContext) (j : Z) :
  let context' := inverse_share_literal f_direct f_inverse i context j in
  context_grows context context'
  /\ literals_shared context' (ref_at f_direct i) j
       (ref_at f_inverse (Z.to_nat j)) (Z.of_nat i).
Proof.
  unfold inverse_share_literal. cbv zeta.
  set (f_i := ref_at f_direct i). set (r_j := ref_at f_inverse (Z.to_nat j)).
  unfold literals_shared, HasVarValueEncoding.
  destruct (encoding context !! encoding_key r_j (Z.of_nat i)) as [r_j_i|] eqn:Hr.
  - pose proof (InsertVarValueEncoding_spec r_j_i f_i j context)
      as (Hnone & Hsome & Hother & Hstable & Hdom & Hcons).
    cbv zeta in Hnone, Hsome, Hother. split.
    + split; [done|]. split; [|split; [exists []; by rewrite app_nil_r | done]].
      intros ab Hab. unfold InsertVarValueEncoding.
      destruct (encoding context !! encoding_key f_i j); [|done].
      destruct (decide _); [done|]. unfold StoreBooleanEqualityRelation. simpl.
      apply elem_of_app. by left.
    + destruct (encoding context !! encoding_key f_i j) as [previous|] eqn:Hf.
      * destruct (Hsome previous eq_refl) as [Henc Hrel]. exists previous, r_j_i.
        rewrite Henc. split; [done|]. split; [done|]. destruct Hrel as [->|?]; auto.
      * destruct (Hnone eq_refl) as [Hnew _]. exists r_j_i, r_j_i.
        split; [done|]. split; [|by left]. by apply Hstable.
  - pose proof (GetOrCreateVarValueEncoding_spec f_i j context)
      as (Hlit & Hother1 & Hstable1 & Hprefix1 & Hcons1 & Hq1).
    cbv zeta in Hlit, Hother1.
    destruct (GetOrCreateVarValueEncoding f_i j context) as [f_i_j context1].
    cbn [fst snd] in *.
    pose proof (InsertVarValueEncoding_spec f_i_j r_j (Z.of_nat i) context1)
      as (Hnone & Hsome & Hother & Hstable & Hdom & Hcons).
    cbv zeta in Hnone, Hsome, Hother. split.
    + split; [by eapply encoding_stable_trans|]. split; [|split].
      * intros ab Hab. rewrite <- Hq1 in Hab. unfold InsertVarValueEncoding.
        destruct (encoding context1 !! encoding_key r_j (Z.of_nat i)); [|done].
        destruct (decide _); [done|]. unfold StoreBooleanEqualityRelation. simpl.
        apply elem_of_app. by left.
      * destruct Hprefix1 as [extra Hextra]. exists extra. by rewrite Hdom.
      * congruence.
    + destruct (decide (encoding_key r_j (Z.of_nat i) = encoding_key f_i j)) as [Hsame|Hne].
      * rewrite Hsame in *. destruct (Hsome f_i_j Hlit) as [Henc _].
        exists f_i_j, f_i_j. rewrite Henc. by repeat split; auto.
      * assert (Hr1 : encoding context1 !! encoding_key r_j (Z.of_nat i) = None)
          by (by rewrite Hother1).
        destruct (Hnone Hr1) as [Hnew _]. exists f_i_j, f_i_j.
        split; [by apply Hstable|]. split; [done | by left].
Qed.

(** The last loop of [ExpandInverse]. *)
Lemma inverse_share_loop (f_direct f_inverse : list Z) (indices : list nat)
    (context : PresolveContext) :
  (forall i, i ∈ indices ->
     PositiveRef (ref_at f_direct i) < Z.of_nat (length (domains context))) ->
  let context' :=
    foldl (fun context i =>
             foldl (inverse_share_literal f_direct f_inverse i) context
                   (Domain.Values (DomainOf context (ref_at f_direct i))))
          context indices in
  context_grows context context'
  /\ (forall i j, i ∈ indices -> j ∈ Domain.Values (DomainOf context (ref_at f_direct i)) ->
        literals_shared context' (ref_at f_direct i) j
          (ref_at f_inverse (Z.to_nat j)) (Z.of_nat i)).
Proof.
  assert (Hinner : forall i js ctx,
             let ctx' := foldl (inverse_share_literal f_direct f_inverse i) ctx js in
             context_grows ctx ctx'
             /\ forall j, j ∈ js ->
                  literals_shared ctx' (ref_at f_direct i) j
                    (ref_at f_inverse (Z.to_nat j)) (Z.of_nat i)).
  { intros i js. induction js as [|j js IH]; intros ctx; cbn [foldl].
    - split; [apply context_grows_refl|]. intros j Hj. by apply elem_of_nil in Hj.
    - destruct (inverse_share_literal_spec f_direct f_inverse i ctx j) as [Hg Hs].
      destruct (IH (inverse_share_literal f_direct f_inverse i ctx j)) as [Hg' Hs'].
      split; [by eapply context_grows_trans|].
      intros j' Hj'. apply elem_of_cons in Hj' as [-> | Hj']; [|by apply Hs'].
      by eapply literals_shared_grows. }
  revert context. induction indices as [|i indices IH]; intros context Hvalid; cbn [foldl].
  - split; [apply context_grows_refl|]. intros i j Hi. by apply elem_of_nil in Hi.
  - destruct (Hinner i (Domain.Values (DomainOf context (ref_at f_direct i))) context)
      as [Hg Hs].
    set (context1 := foldl (inverse_share_literal f_direct f_inverse i) context _) in *.
    assert (Hprefix : domains_prefix context context1) by (by destruct Hg as (_ & _ & ? & _)).
    assert (Hvalid1 : forall i', i' ∈ indices ->
               PositiveRef (ref_at f_direct i') < Z.of_nat (length (domains context1))).
    { intros i' Hi'. destruct Hprefix as [extra ->]. rewrite length_app.
      specialize (Hvalid i' ltac:(by right)). lia. }
    destruct (IH context1 Hvalid1) as [Hg' Hs'].
    split; [by eapply context_grows_trans|].
    intros i' j Hi' Hj. apply elem_of_cons in Hi' as [-> | Hi'].
    + eapply literals_shared_grows; [exact Hg'|]. by apply Hs.
    + apply Hs'; [done|]. rewrite (DomainOf_prefix context context1); [done|done|].
      apply Hvalid. by right.
Qed.

Lemma only_domains_refl (context : PresolveContext) : only_domains context context.
Proof. by split. Qed.

Lemma only_domains_trans (c1 c2 c3 : PresolveContext) :
  only_domains c1 c2 -> only_domains c2 c3 -> only_domains c1 c3.
Proof. intros [? ?] [? ?]. split; congruence. Qed.

Lemma intersect_or_return_stage (ref : Z) (d : Domain.t) (context : PresolveContext) :
  domains_stage context (intersect_or_return ref d context).
Proof.
  unfold intersect_or_return.
  pose proof (constraints_IntersectDomainWith ref d context) as Hc.
  pose proof (IntersectDomainWith_length_domains ref d context) as Hl.
  pose proof (IntersectDomainWith_unsat ref d context) as Hu.
  destruct (IntersectDomainWith ref d context) as [[ok changed] context'].
  cbn [fst snd] in *. destruct ok; (split; [by split|]); [done | by apply Hu].
Qed.

Lemma for_each_stage {A : Type} (body : A -> PresolveContext -> flow PresolveContext)
    (l : list A) (context : PresolveContext) :
  (forall x c, domains_stage c (body x c)) ->
  domains_stage context (for_each body l context).
Proof.
  intros Hbody. revert context. induction l as [|x l IH]; intros context; cbn [for_each].
  - split; [apply only_domains_refl | done].
  - destruct (Hbody x context) as [Hd Hu]. destruct (body x context) as [c'|c'].
    + destruct (IH c') as [Hd' Hu']. split; [|done]. by eapply only_domains_trans.
    + by split.
Qed.

Lemma filter_inverse_domain_stage (n : nat) (direct inverse : list Z)
    (context : PresolveContext) :
  domains_stage context (filter_inverse_domain n direct inverse context).
Proof.
  unfold filter_inverse_domain. apply for_each_stage. intros i c.
  destruct (negb _); [apply intersect_or_return_stage|].
  split; [apply only_domains_refl | done].
Qed.

(** [ExpandInverse] either completes, after steps that only narrow
    domains, with the literals shared and its constraint cleared, or returns
    early with an infeasible model and the constraints as they were. *)
Lemma ExpandInverse_outcome (c : nat) (context : PresolveContext) :
  let inverse := inverse_of (constraint_at c context) in
  let f_direct := InverseConstraintProto.f_direct inverse in
  let f_inverse := InverseConstraintProto.f_inverse inverse in
  (ModelIsUnsat (ExpandInverse c context) = true
   /\ constraints (ExpandInverse c context) = constraints context)
  \/ exists context1,
       only_domains context context1
       /\ ExpandInverse c context
          = UpdateRuleStats "inverse: expanded"
              (Clear c
                 (foldl (fun context i =>
                           foldl (inverse_share_literal f_direct f_inverse i) context
                                 (Domain.Values (DomainOf context (ref_at f_direct i))))
                        context1 (seq 0 (length f_direct)))).
Proof.
  intros inverse f_direct f_inverse. unfold ExpandInverse. cbv zeta.
  fold inverse. fold f_direct. fold f_inverse.
  set (n := length f_direct).
  destruct (for_each_stage (fun ref => intersect_or_return ref (Domain.Range 0 (Z.of_nat n - 1)))
              (f_direct ++ f_inverse) context
              (fun x c => intersect_or_return_stage x _ c)) as [Hd1 Hu1].
  destruct (for_each _ (f_direct ++ f_inverse) context) as [c1|c1]; simpl in Hd1;
    [|left; split; [done | by destruct Hd1]].
  set (duplicates := if decide _ then Continue c1 else _).
  assert (Hdup : domains_stage c1 duplicates).
  { subst duplicates. destruct (decide _); [split; [apply only_domains_refl|done]|].
    apply for_each_stage. intros [i j] ctx. destruct (negb _).
    - split; [apply only_domains_refl | done].
    - destruct (decide (i = j)); [split; [apply only_domains_refl | done]|].
      apply intersect_or_return_stage. }
  destruct Hdup as [Hd2 Hu2].
  destruct duplicates as [c2|c2]; simpl in Hd2;
    [|left; split; [done | destruct Hd1, Hd2; congruence]].
  destruct (filter_inverse_domain_stage n f_direct f_inverse c2) as [Hd3 Hu3].
  destruct (filter_inverse_domain n f_direct f_inverse c2) as [c3|c3]; simpl in Hd3;
    [|left; split; [done | destruct Hd1, Hd2, Hd3; congruence]].
  destruct (filter_inverse_domain_stage n f_inverse f_direct c3) as [Hd4 Hu4].
  destruct (filter_inverse_domain n f_inverse f_direct c3) as [c4|c4]; simpl in Hd4;
    [|left; split; [done | destruct Hd1, Hd2, Hd3, Hd4; congruence]].
  right. exists c4. split; [|done].
  eapply only_domains_trans; [exact Hd1|]. eapply only_domains_trans; [exact Hd2|].
  by eapply only_domains_trans.
Qed.

Lemma constraints_inverse_share_literal (f_direct f_inverse : list Z) (i : nat)
    (context : PresolveContext) (j : Z) :
  constraints (inverse_share_literal f_direct f_inverse i context j) = constraints context.
Proof. by destruct (inverse_share_literal_spec f_direct f_inverse i context j) as [(_ & _ & _ & ?) _]. Qed.

Lemma inverse_share_loop_constraints (f_direct f_inverse : list Z) (indices : list nat)
    (context : PresolveContext) :
  constraints
    (foldl (fun context i =>
              foldl (inverse_share_literal f_direct f_inverse i) context
                    (Domain.Values (DomainOf context (ref_at f_direct i))))
           context indices)
  = constraints context.
Proof.
  revert context. induction indices as [|i indices IH]; intros context; cbn [foldl]; [done|].
  rewrite IH. generalize (Domain.Values (DomainOf context (ref_at f_direct i))).
  intros js. revert context. induction js as [|j js IHj]; intros context; cbn [foldl]; [done|].
  by rewrite IHj, constraints_inverse_share_literal.
Qed.

(** [ExpandInverse] adds no constraint: either it clears its constraint
    and leaves the others as they are, or it declares the model infeasible
    and leaves every constraint, its own included, as it is. *)
Theorem ExpandInverse_constraints (c : nat) (context : PresolveContext) :
  let context' := ExpandInverse c context in
  constraints context' = <[c := ConstraintProto.cleared]> (constraints context)
  \/ (ModelIsUnsat context' = true /\ constraints context' = constraints context).
Proof.
  intros context'. subst context'.
  destruct (ExpandInverse_outcome c context) as [? | (context1 & [Hc1 _] & ->)]; [by right|].
  left. rewrite constraints_UpdateRuleStats, constraints_Clear.
  by rewrite inverse_share_loop_constraints, Hc1.
Qed.

(** When [ExpandInverse] completes, that is, when it clears its
    constraint, then for every [i] and every value [j] left in the domain
    of [f_direct[i]], the literal of [f_direct[i] == j] and the literal of
    [f_inverse[j] == i] both exist and are one literal, or two literals
    stored as equal.  The references of [f_direct] are assumed to be
    variables of the model. *)
Theorem ExpandInverse_shares_literals (c : nat) (context : PresolveContext)
    (ct : ConstraintProto.t) (inverse : InverseConstraintProto.t) :
  let f_direct := InverseConstraintProto.f_direct inverse in
  let f_inverse := InverseConstraintProto.f_inverse inverse in
  let context' := ExpandInverse c context in
  constraints context !! c = Some ct ->
  ConstraintProto.constraint ct = kInverse inverse ->
  (forall ref, ref ∈ f_direct -> PositiveRef ref < Z.of_nat (length (domains context))) ->
  constraints context' !! c = Some ConstraintProto.cleared ->
  forall i j, (i < length f_direct)%nat ->
    j ∈ Domain.Values (DomainOf context' (ref_at f_direct i)) ->
    literals_shared context' (ref_at f_direct i) j
      (ref_at f_inverse (Z.to_nat j)) (Z.of_nat i).
Proof.
  intros f_direct f_inverse context' Hc Hkind Hvalid Hdone i j Hi Hj.
  assert (Hinv : inverse_of (constraint_at c context) = inverse).
  { unfold inverse_of, constraint_at. rewrite Hc. simpl. by rewrite Hkind. }
  pose proof (ExpandInverse_outcome c context) as Hout. cbv zeta in Hout.
  rewrite Hinv in Hout. fold f_direct f_inverse context' in Hout.
  destruct Hout as [[_ Hsame] | (context1 & [Hc1 Hl1] & Heq)].
  { rewrite Hsame, Hc in Hdone. injection Hdone as ->. discriminate Hkind. }
  assert (Hvalid1 : forall i, i ∈ seq 0 (length f_direct) ->
             PositiveRef (ref_at f_direct i) < Z.of_nat (length (domains context1))).
  { intros i' Hi'. apply elem_of_seq in Hi'. rewrite Hl1. apply Hvalid.
    unfold ref_at. destruct (lookup_lt_is_Some_2 f_direct i') as [r Hr]; [lia|].
    rewrite Hr. simpl. by apply (list_elem_of_lookup_2 _ i'). }
  destruct (inverse_share_loop f_direct f_inverse (seq 0 (length f_direct)) context1 Hvalid1)
    as [Hgrows Hshared].
  set (context2 := foldl _ context1 (seq 0 (length f_direct))) in *.
  assert (Hi' : i ∈ seq 0 (length f_direct)) by (apply elem_of_seq; lia).
  assert (Hdomain : DomainOf context' (ref_at f_direct i)
                    = DomainOf context1 (ref_at f_direct i)).
  { rewrite Heq. transitivity (DomainOf context2 (ref_at f_direct i)); [done|].
    apply DomainOf_prefix; [by destruct Hgrows as (_ & _ & ? & _) | by apply Hvalid1]. }
  rewrite Hdomain in Hj. specialize (Hshared i j Hi' Hj). by rewrite Heq.
Qed.

Lemma ExpandInverse_shares_literals_witness :
  literals_shared (ExpandInverse 0 two_inverse_context)
    (ref_at [0; 1] 0) 0 (ref_at [2; 3] (Z.to_nat 0)) (Z.of_nat 0).
Proof.
  apply (ExpandInverse_shares_literals 0 two_inverse_context (plain (kInverse two_inverse))
           two_inverse).
  - reflexivity.
  - reflexivity.
  - intros ref Href. apply elem_of_cons in Href as [-> | Href]; [vm_compute; reflexivity|].
    apply list_elem_of_singleton in Href as ->. vm_compute. reflexivity.
  - vm_compute. reflexivity.
  - simpl. lia.
  - vm_compute. apply list_elem_of_here.
Defined.

(** * The final expansion of the linear constraints *)

Lemma simple_expansion_initialized (context context' : PresolveContext) (c : nat)
    (ct' : ConstraintProto.t) (new_domains : list Domain.t) (news : list ConstraintProto.t) :
  simple_expansion context context' c ct' new_domains news ->
  initialized context -> initialized context'.
Proof.
  intros (Hd & Hn & _) Hinit. unfold initialized in *. unfold variables_size in Hn.
  rewrite Hd, length_app. lia.
Qed.

Lemma simple_linear_subdomain (linear : LinearConstraintProto.t) (lit : Z) (i : Z * Z) :
  simple_linear (subdomain_constraint linear lit i) = true.
Proof.
  unfold simple_linear, subdomain_constraint, Domain.Range. simpl.
  by destruct (i.1 <=? i.2).
Qed.

Lemma simple_linear_zip_subdomain (linear : LinearConstraintProto.t) (lits : list Z)
    (intervals : list (Z * Z)) :
  Forall (fun ct => simple_linear ct = true)
         (zip_with (subdomain_constraint linear) lits intervals).
Proof.
  apply Forall_forall. intros ct Hct.
  apply elem_of_lookup_zip_with in Hct as (k & lit & i & -> & _ & _).
  apply simple_linear_subdomain.
Qed.

Lemma simple_linear_implications (f : Z -> ConstraintProto.t) (l : list Z) :
  (forall x, simple_linear (f x) = true) ->
  Forall (fun ct => simple_linear ct = true) (map f l).
Proof. intros Hf. apply Forall_forall. intros ct Hct. apply list_elem_of_fmap in Hct as (x & -> & _). apply Hf. Qed.

(** The constraints added by the Boolean encoding are left as they are by
    a later expansion. *)
Lemma simple_linear_boolean (enumerate : bool) (enforcement : list Z)
    (linear : LinearConstraintProto.t) (n : Z) :
  Forall (fun ct => simple_linear ct = true)
         (complex_linear_boolean enumerate enforcement linear n).2.
Proof.
  unfold complex_linear_boolean. cbv zeta.
  destruct (bool_decide (enforcement = []) && _); cbn [snd].
  - apply simple_linear_zip_subdomain.
  - apply Forall_cons. split; [done|]. apply Forall_app. split.
    + apply simple_linear_zip_subdomain.
    + destruct (enumerate && _); [|constructor]. unfold complex_linear_tight.
      destruct enforcement as [|e [|e' enforcement]]; cbn [snd].
      * apply Forall_cons. split; [done|]. apply Forall_app.
        split; by apply simple_linear_implications.
      * by apply simple_linear_implications.
      * apply Forall_cons. split; [done|]. apply Forall_app.
        split; by apply simple_linear_implications.
Qed.

(** One call of [ExpandComplexLinearConstraint] on a linear constraint
    replaces it by a constraint that a later expansion leaves as it is, and
    appends such constraints only. *)
Lemma ExpandComplexLinearConstraint_step (c : nat) (context : PresolveContext)
    (ct : ConstraintProto.t) (linear : LinearConstraintProto.t) :
  constraints context !! c = Some ct ->
  ConstraintProto.constraint ct = kLinear linear ->
  initialized context ->
  let context' := ExpandComplexLinearConstraint c context in
  initialized context'
  /\ exists ct' news,
       constraints context' = <[c := ct']> (constraints context) ++ news
       /\ simple_linear ct' = true
       /\ Forall (fun ct => simple_linear ct = true) news.
Proof.
  intros Hc Hkind Hinit context'.
  destruct (Nat.leb_spec (length (LinearConstraintProto.domain linear)) 2) as [Hle|Hgt];
    [|destruct (Nat.eqb_spec (length (LinearConstraintProto.vars linear)) 1) as [Hone|Hne]].
  - assert (Hsame : context' = context).
    { subst context'. unfold ExpandComplexLinearConstraint, constraint_at.
      rewrite Hc. simpl. unfold ConstraintProto.linear. rewrite Hkind.
      by destruct (Nat.leb_spec (length (LinearConstraintProto.domain linear)) 2); [|lia]. }
    rewrite Hsame. split; [done|]. exists ct, []. rewrite app_nil_r, list_insert_id by done.
    split; [done|]. split; [|constructor]. unfold simple_linear. rewrite Hkind.
    apply orb_true_iff. left. by apply Nat.leb_le.
  - assert (Hsame : context' = context).
    { subst context'. unfold ExpandComplexLinearConstraint, constraint_at.
      rewrite Hc. simpl. unfold ConstraintProto.linear. rewrite Hkind.
      destruct (Nat.leb_spec (length (LinearConstraintProto.domain linear)) 2); [done|].
      by rewrite Hone. }
    rewrite Hsame. split; [done|]. exists ct, []. rewrite app_nil_r, list_insert_id by done.
    split; [done|]. split; [|constructor]. unfold simple_linear. rewrite Hkind.
    apply orb_true_iff. right. by apply Nat.eqb_eq.
  - destruct (SatParameters.encode_complex_linear_constraint_with_integer (params context))
      eqn:Hinteger.
    + pose proof (ExpandComplexLinearConstraint_integer c context ct linear
                    Hc Hkind Hgt Hne Hinteger Hinit) as Hexp.
      fold context' in Hexp. split; [by eapply simple_expansion_initialized|].
      destruct Hexp as (_ & _ & Hcons & _). eexists _, []. split; [exact Hcons|].
      split; [done | constructor].
    + pose proof (ExpandComplexLinearConstraint_boolean c context ct linear
                    Hc Hkind Hgt Hne Hinteger Hinit) as Hexp.
      cbv zeta in Hexp. fold context' in Hexp.
      split; [by eapply simple_expansion_initialized|].
      destruct Hexp as (_ & _ & Hcons & _). eexists _, _. split; [exact Hcons|].
      split; [done | apply simple_linear_boolean].
Qed.

(** The body of the loop of [FinalExpansionForLinearConstraint] on a
    constraint that a later expansion leaves as it is. *)
Lemma final_pass_simple (fuel c : nat) (context : PresolveContext) (ct : ConstraintProto.t) :
  constraints context !! c = Some ct ->
  simple_linear ct = true ->
  final_pass (S fuel) c context = final_pass fuel (S c) context.
Proof.
  intros Hc Hsimple. cbn [final_pass]. unfold constraints_size.
  pose proof (lookup_lt_Some _ _ _ Hc) as Hlt.
  destruct (Nat.ltb_spec c (length (constraints context))) as [_|?]; [|lia].
  f_equal. unfold constraint_at. rewrite Hc. simpl.
  unfold simple_linear in Hsimple.
  destruct (ConstraintProto.constraint ct) as
    [| | | | | | | | | |lin| | | | | | | | | | | | |] eqn:Hkind; try done.
  destruct (Nat.ltb_spec 2 (length (LinearConstraintProto.domain lin))) as [Hgt|_]; [|done].
  unfold ExpandComplexLinearConstraint, constraint_at. rewrite Hc. simpl.
  unfold ConstraintProto.linear. rewrite Hkind.
  destruct (Nat.leb_spec (length (LinearConstraintProto.domain lin)) 2) as [?|_]; [lia|].
  simpl in Hsimple. by rewrite Hsimple.
Qed.

(** The loop runs through the constraints that it leaves as they are. *)
Lemma final_pass_tail (rest done : list ConstraintProto.t) (context : PresolveContext) :
  constraints context = done ++ rest ->
  Forall (fun ct => simple_linear ct = true) rest ->
  forall fuel, (length rest < fuel)%nat ->
    final_pass fuel (length done) context = Some context.
Proof.
  revert done. induction rest as [|ct rest IH]; intros done Hcons Hsimple fuel Hfuel.
  - destruct fuel as [|fuel]; [simpl in Hfuel; lia|]. cbn [final_pass].
    unfold constraints_size. rewrite Hcons, app_nil_r.
    by destruct (Nat.ltb_spec (length done) (length done)); [lia|].
  - destruct fuel as [|fuel]; [simpl in Hfuel; lia|].
    apply Forall_cons in Hsimple as [Hct Hrest].
    rewrite (final_pass_simple fuel (length done) context ct);
      [|by rewrite Hcons, list_lookup_middle|done].
    replace (S (length done)) with (length (done ++ [ct])) by (rewrite length_app; simpl; lia).
    apply IH; [by rewrite <- app_assoc | done | simpl in Hfuel; lia].
Qed.

(** The loop of [FinalExpansionForLinearConstraint] ends, and leaves only
    constraints that an expansion leaves as they are. *)
Lemma final_pass_completes (todo done news : list ConstraintProto.t)
    (context : PresolveContext) :
  constraints context = done ++ todo ++ news ->
  Forall (fun ct => simple_linear ct = true) done ->
  Forall (fun ct => simple_linear ct = true) news ->
  initialized context ->
  exists fuel context',
    (forall fuel', (fuel <= fuel')%nat ->
       final_pass fuel' (length done) context = Some context')
    /\ Forall (fun ct => simple_linear ct = true) (constraints context').
Proof.
  revert done news context.
  induction todo as [|ct todo IH]; intros done news context Hcons Hdone Hnews Hinit.
  - exists (S (length news)), context. split.
    + intros fuel' Hfuel. apply (final_pass_tail news); [done|done|lia].
    + rewrite Hcons. apply Forall_app. by split.
  - cbn [app] in Hcons.
    assert (Hc : constraints context !! length done = Some ct)
      by (by rewrite Hcons, list_lookup_middle).
    set (context1 :=
           match ConstraintProto.constraint (constraint_at (length done) context) with
           | kLinear lin =>
               if (2 <? length (LinearConstraintProto.domain lin))%nat
               then ExpandComplexLinearConstraint (length done) context
               else context
           | _ => context
           end).
    assert (Hstep : initialized context1
                    /\ exists ct' news',
                         constraints context1
                         = <[length done := ct']> (constraints context) ++ news'
                         /\ simple_linear ct' = true
                         /\ Forall (fun ct => simple_linear ct = true) news').
    { subst context1. unfold constraint_at. rewrite Hc. simpl.
      destruct (ConstraintProto.constraint ct) as
        [| | | | | | | | | |lin| | | | | | | | | | | | |] eqn:Hkind;
        try (split; [done|]; exists ct, []; rewrite app_nil_r, list_insert_id by done;
             split; [done|]; split; [|constructor]; unfold simple_linear; by rewrite Hkind).
      destruct (Nat.ltb_spec 2 (length (LinearConstraintProto.domain lin))) as [Hgt|Hle].
      - by apply (ExpandComplexLinearConstraint_step _ _ ct lin).
      - split; [done|]. exists ct, []. rewrite app_nil_r, list_insert_id by done.
        split; [done|]. split; [|constructor]. unfold simple_linear. rewrite Hkind.
        apply orb_true_iff. left. apply Nat.leb_le. lia. }
    destruct Hstep as (Hinit1 & ct' & news' & Hcons1 & Hct' & Hnews').
    destruct (IH (done ++ [ct']) (news ++ news') context1) as (fuel & context' & Hrun & Hall).
    + rewrite Hcons1, Hcons, insert_length_app. rewrite <- !app_assoc. simpl.
      by rewrite <- !app_assoc.
    + apply Forall_app. split; [done|]. by constructor.
    + apply Forall_app. by split.
    + done.
    + exists (S fuel), context'. split; [|done]. intros fuel' Hfuel.
      destruct fuel' as [|fuel']; [lia|]. cbn [final_pass]. unfold constraints_size.
      pose proof (lookup_lt_Some _ _ _ Hc) as Hlt.
      destruct (Nat.ltb_spec (length done) (length (constraints context))) as [_|?]; [|lia].
      fold context1. specialize (Hrun fuel' ltac:(lia)).
      rewrite length_app in Hrun. simpl in Hrun.
      by replace (S (length done)) with (length done + 1)%nat by lia.
Qed.

(** [FinalExpansionForLinearConstraint], on a feasible model whose domains
    are initialized and when the expansion is not disabled: the loop ends,
    although it runs over the constraints that it adds, and it leaves no
    linear constraint with a right-hand side of more than one interval,
    except those with one variable only. *)
Theorem FinalExpansionForLinearConstraint_completes (context : PresolveContext) :
  initialized context ->
  SatParameters.disable_constraint_expansion (params context) = false ->
  ModelIsUnsat context = false ->
  exists fuel context',
    (forall fuel', (fuel <= fuel')%nat ->
       FinalExpansionForLinearConstraint fuel' context = Some context')
    /\ forallb simple_linear (constraints context') = true.
Proof.
  intros Hinit Hdisable Hunsat.
  destruct (final_pass_completes (constraints context) [] [] context)
    as (fuel & context' & Hrun & Hall); [by rewrite app_nil_r|constructor|constructor|done|].
  exists fuel, context'. split.
  - intros fuel' Hfuel. unfold FinalExpansionForLinearConstraint.
    rewrite Hdisable, Hunsat. by apply Hrun.
  - apply forallb_forall. intros ct Hct. rewrite Forall_forall in Hall.
    by apply Hall, list_elem_of_In.
Qed.

Lemma FinalExpansionForLinearConstraint_completes_witness :
  exists fuel context',
    (forall fuel', (fuel <= fuel')%nat ->
       FinalExpansionForLinearConstraint fuel' even_sum_context = Some context')
    /\ forallb simple_linear (constraints context') = true.
Proof.
  apply (FinalExpansionForLinearConstraint_completes even_sum_context); reflexivity.
Defined.

(** * The detector of unique values of the automaton expansion *)

(** The detector after a sequence of calls of [Set]. *)
Lemma UniqueDetector_Set_sequence (vs : list Z) :
  let d := foldl (fun d v => UniqueDetector_Set v d) (mkUniqueDetector false true 0) vs in
  is_set d = negb (bool_decide (vs = []))
  /\ is_unique d = forallb (fun v => v =? default 0 (head vs)) vs
  /\ (is_set d = true -> is_unique d = true -> value d = default 0 (head vs)).
Proof.
  induction vs as [|v vs IH] using rev_ind; [done|].
  cbv zeta in IH |- *. rewrite foldl_app. cbn [foldl].
  destruct (foldl _ _ vs) as [set unique val]. cbn [is_set is_unique value] in IH.
  destruct IH as (Hset & Hunique & Hvalue).
  rewrite forallb_app. cbn [forallb]. rewrite andb_true_r.
  assert (Hhead : head (vs ++ [v]) = match vs with [] => Some v | x :: _ => Some x end)
    by (by destruct vs).
  rewrite Hhead.
  assert (Hne : bool_decide (vs ++ [v] = []) = false).
  { apply bool_decide_eq_false_2. intros H. by apply app_nil in H as [_ ?]. }
  rewrite Hne.
  assert (Hset2 : set = match vs with [] => false | _ => true end).
  { rewrite Hset. destruct vs; [by rewrite bool_decide_eq_true_2
                               | by rewrite bool_decide_eq_false_2]. }
  clear Hset. unfold UniqueDetector_Set. cbn [is_set is_unique value].
  destruct vs as [|x vs]; rewrite Hset2 in *; clear Hset2.
  - cbn [head default forallb] in Hunique |- *. rewrite Hunique. cbn.
    rewrite Z.eqb_refl. by repeat split.
  - cbn [head default] in Hunique, Hvalue |- *. change (id x) with x in *.
    destruct unique; cbn [negb].
    + specialize (Hvalue eq_refl eq_refl). rewrite Hvalue, <- Hunique.
      destruct (Z.eqb_spec v x) as [->|Hvx]; cbn [negb is_set is_unique value andb].
      * by repeat split.
      * split; [done|]. split; [done|]. intros _ H. discriminate H.
    + rewrite <- Hunique. cbn [is_set is_unique value negb andb].
      split; [done|]. split; [done|]. intros _ H. discriminate H.
Qed.

(** The map of detectors that the automaton expansion builds from its
    rows: the detector of a key is the one of the values of this key, in
    the order of the rows. *)
Lemma detector_map_lookup (pairs : list (Z * Z)) (k : Z) :
  detector_of (foldl (fun m kv => detect m kv.1 kv.2) ∅ pairs) k
  = foldl (fun d v => UniqueDetector_Set v d) (mkUniqueDetector false true 0)
          (map snd (filter (fun kv : Z * Z => kv.1 = k) pairs)).
Proof.
  induction pairs as [|[k' v] pairs IH] using rev_ind; [done|].
  rewrite foldl_app, filter_app, map_app, foldl_app. cbn [foldl fst snd].
  unfold detect at 1. destruct (decide (k' = k)) as [->|Hne].
  - rewrite (filter_cons_True _ (k, v)) by done. rewrite filter_nil. cbn [map foldl snd].
    unfold detector_of at 1. rewrite lookup_insert_eq. simpl. by rewrite IH.
  - rewrite (filter_cons_False _ (k', v)) by done. rewrite filter_nil. cbn [map foldl].
    unfold detector_of at 1. rewrite lookup_insert_ne by done. exact IH.
Qed.

(** The detectors of the automaton expansion, which record for each out
    state the in states (or the labels) of its rows: a state whose rows all
    have the same value is detected as unique, with this value, and a state
    with two different values is not. *)
Theorem unique_detector_of_rows (keys values : list Z) (k : Z) :
  let m := foldl (fun m kv => detect m kv.1 kv.2) ∅ (zip keys values) in
  let vs := map snd (filter (fun kv : Z * Z => kv.1 = k) (zip keys values)) in
  is_set (detector_of m k) = negb (bool_decide (vs = []))
  /\ is_unique (detector_of m k) = forallb (fun v => v =? default 0 (head vs)) vs
  /\ (is_set (detector_of m k) = true -> is_unique (detector_of m k) = true ->
      value (detector_of m k) = default 0 (head vs)).
Proof.
  intros m vs. subst m. rewrite detector_map_lookup. apply UniqueDetector_Set_sequence.
Qed.

(** * The dispatch of the expansion of an element constraint *)

Lemma domain_of_var_insert (context : PresolveContext) (var var' : Z) (d : Domain.t) :
  0 <= var ->
  domain_of_var (with_domains (<[Z.to_nat var := d]> (domains context)) context) var'
  = if decide (var' = var /\ var < Z.of_nat (length (domains context)))
    then d else domain_of_var context var'.
Proof.
  intros Hvar. unfold domain_of_var.
  change (domains (with_domains ?l context)) with l.
  destruct (Z.leb_spec 0 var') as [Hpos|Hneg].
  - destruct (decide (var' = var /\ var < Z.of_nat (length (domains context))))
      as [[-> Hlt]|Hno].
    + rewrite list_lookup_insert_eq by lia. done.
    + destruct (decide (var' = var)) as [->|Hne].
      * rewrite list_insert_ge; [done|]. lia.
      * rewrite list_lookup_insert_ne; [done|]. lia.
  - destruct (decide _) as [[-> _]|_]; [lia|done].
Qed.

(** [IntersectDomainWith] keeps in the domain of its reference the values
    that are in the given domain, and only narrows the domains. *)
Lemma IntersectDomainWith_Contains (ref : Z) (d : Domain.t) (context : PresolveContext)
    (v : Z) :
  Domain.Contains (DomainOf (IntersectDomainWith ref d context).2 ref) v
  = Domain.Contains (DomainOf context ref) v && Domain.Contains d v.
Proof.
  pose proof (PositiveRef_nonneg ref) as Hnonneg.
  assert (Hnew : forall x,
             Domain.Contains
               (Domain.IntersectionWith (domain_of_var context (PositiveRef ref))
                  (if RefIsPositive ref then d else Domain.Negation d))
               (if RefIsPositive ref then x else - x)
             = Domain.Contains (DomainOf context ref) x && Domain.Contains d x).
  { intros x. rewrite DomainFacts.Contains_IntersectionWith. unfold DomainOf.
    destruct (RefIsPositive ref) eqn:E.
    - by rewrite (PositiveRef_positive ref E).
    - rewrite !DomainFacts.Contains_Negation. by rewrite Z.opp_involutive. }
  assert (Hof : forall ctx, DomainOf ctx ref
                = if RefIsPositive ref then domain_of_var ctx (PositiveRef ref)
                  else Domain.Negation (domain_of_var ctx (PositiveRef ref))).
  { intros ctx. unfold DomainOf. destruct (RefIsPositive ref) eqn:E; [|done].
    by rewrite (PositiveRef_positive ref E). }
  assert (Hread : forall ctx x,
             Domain.Contains (DomainOf ctx ref) x
             = Domain.Contains (domain_of_var ctx (PositiveRef ref))
                 (if RefIsPositive ref then x else - x)).
  { intros ctx x. rewrite Hof. destruct (RefIsPositive ref); [done|].
    apply DomainFacts.Contains_Negation. }
  unfold IntersectDomainWith. cbv zeta.
  set (old := domain_of_var context (PositiveRef ref)) in *.
  set (new := Domain.IntersectionWith old _) in *.
  destruct (decide (new = old)) as [Heq|Hne].
  - cbn [snd]. rewrite <- Hnew, Heq. apply Hread.
  - assert (Hdom : forall ctx', domains ctx' = <[Z.to_nat (PositiveRef ref) := new]> (domains context) ->
               Domain.Contains (DomainOf ctx' ref) v
               = Domain.Contains (DomainOf context ref) v && Domain.Contains d v).
    { intros ctx' Hd. rewrite Hread. rewrite <- Hnew.
      assert (Hvar : domain_of_var ctx' (PositiveRef ref)
                     = domain_of_var
                         (with_domains (<[Z.to_nat (PositiveRef ref) := new]> (domains context))
                            context) (PositiveRef ref)).
      { unfold domain_of_var. by rewrite Hd. }
      rewrite Hvar, domain_of_var_insert by done.
      destruct (decide _) as [_|Hout]; [done|].
      assert (Hempty : old = Domain.Empty).
      { unfold old, domain_of_var. destruct (Z.leb_spec 0 (PositiveRef ref)); [|done].
        rewrite lookup_ge_None_2; [done|]. lia. }
      fold old. fold new. subst new. rewrite Hempty.
      by rewrite DomainFacts.Contains_IntersectionWith. }
    destruct (Domain.IsEmpty new); cbn [snd]; by apply Hdom.
Qed.

Lemma IntersectDomainWith_shrinks (ref : Z) (d : Domain.t) (context : PresolveContext)
    (ref' v : Z) :
  Domain.Contains (DomainOf (IntersectDomainWith ref d context).2 ref') v = true ->
  Domain.Contains (DomainOf context ref') v = true.
Proof.
  pose proof (PositiveRef_nonneg ref) as Hnonneg.
  unfold IntersectDomainWith. cbv zeta.
  set (old := domain_of_var context (PositiveRef ref)).
  set (new := Domain.IntersectionWith old _).
  destruct (decide (new = old)) as [Heq|Hne]; [done|].
  assert (Hdom : forall ctx', domains ctx' = <[Z.to_nat (PositiveRef ref) := new]> (domains context) ->
             Domain.Contains (DomainOf ctx' ref') v = true ->
             Domain.Contains (DomainOf context ref') v = true).
  { intros ctx' Hd.
    assert (Hvar : forall var', domain_of_var ctx' var'
                   = domain_of_var
                       (with_domains (<[Z.to_nat (PositiveRef ref) := new]> (domains context))
                          context) var').
    { intros var'. unfold domain_of_var. by rewrite Hd. }
    assert (Hsub : forall var' x, Domain.Contains (domain_of_var ctx' var') x = true ->
                                  Domain.Contains (domain_of_var context var') x = true).
    { intros var' x. rewrite Hvar, domain_of_var_insert by done.
      destruct (decide _) as [[-> _]|_]; [|done]. unfold new.
      rewrite DomainFacts.Contains_IntersectionWith. intros H.
      by apply andb_true_iff in H as [? _]. }
    unfold DomainOf. destruct (RefIsPositive ref'); [apply Hsub|].
    rewrite !DomainFacts.Contains_Negation. apply Hsub. }
  destruct (Domain.IsEmpty new); cbn [snd]; by apply Hdom.
Qed.

(** [ExpandElement] on an element constraint whose index is not its
    target: either it declares the model infeasible and leaves every
    constraint as it is, or it hands over to [ExpandConstantArrayElement] or
    to [ExpandVariableElement] a context with the same constraints, in which
    every value of the index is a position of the array and a value of the
    index before the call. *)
Theorem ExpandElement_dispatch (c : nat) (context : PresolveContext)
    (ct : ConstraintProto.t) (element : ElementConstraintProto.t) :
  let index := ElementConstraintProto.index element in
  let size := Z.of_nat (length (ElementConstraintProto.vars element)) in
  let context' := ExpandElement c context in
  constraints context !! c = Some ct ->
  ConstraintProto.constraint ct = kElement element ->
  index <> ElementConstraintProto.target element ->
  (ModelIsUnsat context' = true /\ constraints context' = constraints context)
  \/ exists context1,
       constraints context1 = constraints context
       /\ (forall v, v ∈ Domain.Values (DomainOf context1 index) ->
             0 <= v < size /\ v ∈ Domain.Values (DomainOf context index))
       /\ (context' = ExpandConstantArrayElement c context1
           \/ context' = ExpandVariableElement c context1).
Proof.
  intros index size context' Hc Hkind Hdistinct. subst context'.
  assert (Helement : element_of (constraint_at c context) = element).
  { unfold element_of, constraint_at. rewrite Hc. simpl. by rewrite Hkind. }
  unfold ExpandElement. rewrite Helement. cbv zeta. fold index. fold size.
  pose proof (constraints_IntersectDomainWith index (Domain.Range 0 (size - 1)) context) as Hc1.
  pose proof (IntersectDomainWith_unsat index (Domain.Range 0 (size - 1)) context) as Hu1.
  pose proof (fun v => IntersectDomainWith_Contains index (Domain.Range 0 (size - 1)) context v)
    as Hd1.
  destruct (IntersectDomainWith index (Domain.Range 0 (size - 1)) context)
    as [[ok1 changed1] context_a]. cbn [fst snd] in Hc1, Hu1, Hd1.
  destruct ok1; cbn [negb]; [|left; split; [by apply Hu1 | done]].
  destruct (decide (index = ElementConstraintProto.target element)) as [?|_]; [done|].
  assert (Hrange : forall ctx,
             (forall v, Domain.Contains (DomainOf ctx index) v = true ->
                        Domain.Contains (DomainOf context_a index) v = true) ->
             forall v, v ∈ Domain.Values (DomainOf ctx index) ->
                       0 <= v < size /\ v ∈ Domain.Values (DomainOf context index)).
  { intros ctx Hsub v Hv. apply DomainFacts.elem_of_Values, Hsub in Hv.
    rewrite Hd1, DomainFacts.Contains_Range in Hv.
    apply andb_true_iff in Hv as [Hin Hv]. apply andb_true_iff in Hv as [H0 H1].
    apply Z.leb_le in H0, H1. split; [lia|]. by apply DomainFacts.elem_of_Values. }
  destruct (foldl _ (true, [], Domain.Empty) (Domain.Values (DomainOf context_a index)))
    as [[all_constants valid_indices] reached_domain].
  set (reduced := if Z.of_nat (length valid_indices) <? _ then _ else Continue context_a).
  assert (Hreduced :
            match reduced with
            | Return ctx => ModelIsUnsat ctx = true /\ constraints ctx = constraints context
            | Continue ctx =>
                constraints ctx = constraints context
                /\ forall v, Domain.Contains (DomainOf ctx index) v = true ->
                             Domain.Contains (DomainOf context_a index) v = true
            end).
  { subst reduced. destruct (_ <? _); [|by split].
    pose proof (constraints_IntersectDomainWith index (Domain.FromValues valid_indices)
                  context_a) as Hc2.
    pose proof (IntersectDomainWith_unsat index (Domain.FromValues valid_indices) context_a)
      as Hu2.
    pose proof (fun v => IntersectDomainWith_shrinks index (Domain.FromValues valid_indices)
                           context_a index v) as Hs2.
    destruct (IntersectDomainWith index (Domain.FromValues valid_indices) context_a)
      as [[ok2 changed2] context_b]. cbn [fst snd] in Hc2, Hu2, Hs2.
    destruct ok2; [|split; [by apply Hu2 | congruence]].
    split; [by rewrite constraints_UpdateRuleStats, Hc2 | exact Hs2]. }
  destruct reduced as [context_b|context_b]; [|by left].
  destruct Hreduced as [Hcb Hsb].
  pose proof (constraints_IntersectDomainWith (ElementConstraintProto.target element)
                reached_domain context_b) as Hc3.
  pose proof (IntersectDomainWith_unsat (ElementConstraintProto.target element)
                reached_domain context_b) as Hu3.
  pose proof (fun v => IntersectDomainWith_shrinks (ElementConstraintProto.target element)
                         reached_domain context_b index v) as Hs3.
  destruct (IntersectDomainWith (ElementConstraintProto.target element) reached_domain
              context_b) as [[ok3 changed3] context_c]. cbn [fst snd] in Hc3, Hu3, Hs3.
  destruct ok3; cbn [negb]; [|left; split; [by apply Hu3 | congruence]].
  right.
  set (context_d := if changed3 then UpdateRuleStats "element: reduced target domain" context_c
                    else context_c).
  exists context_d. split; [|split].
  - subst context_d. destruct changed3; [rewrite constraints_UpdateRuleStats|]; congruence.
  - apply Hrange. intros v Hv. apply Hsb, Hs3. subst context_d. by destruct changed3.
  - destruct all_constants; [by left | by right].
Qed.

Lemma ExpandElement_dispatch_witness :
  let context' := ExpandElement 0 variable_element_context in
  (ModelIsUnsat context' = true
   /\ constraints context' = constraints variable_element_context)
  \/ exists context1,
       constraints context1 = constraints variable_element_context
       /\ (forall v, v ∈ Domain.Values (DomainOf context1 0) ->
             0 <= v < 2 /\ v ∈ Domain.Values (DomainOf variable_element_context 0))
       /\ (context' = ExpandConstantArrayElement 0 context1
           \/ context' = ExpandVariableElement 0 context1).
Proof.
  apply (ExpandElement_dispatch 0 variable_element_context
           (plain (kElement variable_element)) variable_element).
  - reflexivity.
  - reflexivity.
  - discriminate.
Defined.

(** * Tables with two variables *)

Lemma supports_of_lookup (lits : list (Z * Z)) (e : Z) :
  let support := map snd (filter (fun lr : Z * Z => lr.1 = e) lits) in
  supports_of lits !! e = if decide (support = []) then None else Some support.
Proof.
  unfold supports_of.
  induction lits as [|[l r] lits IH] using rev_ind; [done|].
  cbv zeta in IH |- *. rewrite foldl_app. cbn [foldl fst snd].
  set (m := foldl _ ∅ lits) in *. rewrite filter_app, map_app.
  unfold push_back. destruct (decide (l = e)) as [Heq|Hne].
  - subst l. rewrite lookup_insert_eq, IH.
    rewrite (filter_cons_True _ (e, r)) by done. rewrite filter_nil. cbn [map snd].
    set (S := map snd (filter _ lits)).
    destruct (decide (S ++ [r] = [])) as [Hnil|_];
      [by apply app_nil in Hnil as [_ ?]|].
    by destruct (decide (S = [])) as [->|?].
  - rewrite lookup_insert_ne by done. rewrite IH.
    rewrite (filter_cons_False _ (l, r)) by done. rewrite filter_nil. cbn [map].
    by rewrite app_nil_r.
Qed.

(** The first loop of [AddSizeTwoTable]: the literals of the tuples and the
    two maps of supports. *)
Lemma size_two_supports_loop (left_var right_var : Z) (tuples : list (list Z))
    (context : PresolveContext) :
  initialized context ->
  PositiveRef left_var < variables_size context ->
  PositiveRef right_var < variables_size context ->
  let r := foldl (size_two_supports left_var right_var) (∅, ∅, context) tuples in
  exists lits created,
    Forall2 (fun t (lr : Z * Z) =>
               encoding r.2 !! encoding_key left_var (ref_at t 0) = Some lr.1
               /\ encoding r.2 !! encoding_key right_var (ref_at t 1) = Some lr.2)
            tuples lits
    /\ r.1.1 = supports_of lits
    /\ r.1.2 = supports_of (map swap_pair lits)
    /\ encoding_growth context r.2 created
    /\ initialized r.2
    /\ constraints r.2 = constraints context.
Proof.
  intros Hinit Hl Hr.
  assert (Hkl : forall v, 0 <= (encoding_key left_var v).1 < variables_size context).
  { intros v. rewrite encoding_key_variable.
    pose proof (PositiveRef_nonnegative left_var). lia. }
  assert (Hkr : forall v, 0 <= (encoding_key right_var v).1 < variables_size context).
  { intros v. rewrite encoding_key_variable.
    pose proof (PositiveRef_nonnegative right_var). lia. }
  induction tuples as [|t tuples IH] using rev_ind.
  - exists [], []. simpl. split; [constructor|]. split; [done|]. split; [done|].
    split; [apply encoding_growth_refl|]. by split.
  - cbv zeta in IH |- *. rewrite foldl_app. cbn [foldl].
    destruct IH as (lits & created & Hlits & Hm1 & Hm2 & Hgrowth & Hinit1 & Hcons).
    destruct (foldl (size_two_supports left_var right_var) (∅, ∅, context) tuples)
      as [[l2r r2l] context1].
    cbn [fst snd] in *. unfold size_two_supports.
    pose proof (encoding_growth_step context context1 created left_var (ref_at t 0)
                  Hgrowth Hinit1 (Hkl _)) as Hstep1.
    cbv zeta in Hstep1.
    destruct (GetOrCreateVarValueEncoding left_var (ref_at t 0) context1)
      as [left_literal context2].
    cbn [fst snd] in Hstep1.
    destruct Hstep1 as (created2 & Hgrowth2 & Hinit2 & Hleft & Hcons2 & Hstable2).
    pose proof (encoding_growth_step context context2 created2 right_var (ref_at t 1)
                  Hgrowth2 Hinit2 (Hkr _)) as Hstep2.
    cbv zeta in Hstep2.
    destruct (GetOrCreateVarValueEncoding right_var (ref_at t 1) context2)
      as [right_literal context3].
    cbn [fst snd] in *.
    destruct Hstep2 as (created3 & Hgrowth3 & Hinit3 & Hright & Hcons3 & Hstable3).
    exists (lits ++ [(left_literal, right_literal)]), created3.
    split.
    { apply Forall2_app.
      - eapply Forall2_impl; [exact Hlits|]. intros t' [l' r'] [H1 H2]. cbn [fst snd] in *.
        split; by apply Hstable3, Hstable2.
      - constructor; [|constructor]. cbn [fst snd]. split; [by apply Hstable3|done]. }
    split; [by rewrite Hm1; unfold supports_of; rewrite foldl_app|].
    split; [by rewrite Hm2, map_app; unfold supports_of; rewrite foldl_app|].
    split; [done|]. split; [done|]. by rewrite Hcons3, Hcons2.
Qed.

(** The loops of [AddSizeTwoTable] over a map of supports add the support
    constraints only. *)
Lemma add_support_loop (max_support_size : nat) (es : list (Z * list Z))
    (context : PresolveContext) :
  let context' :=
    foldl (fun context (it : Z * list Z) =>
             add_support_constraint it.1 it.2 max_support_size context)
          context es in
  constraints context' = constraints context ++ flat_map (support_constraints max_support_size) es
  /\ domains context' = domains context
  /\ variables context' = variables context
  /\ same_store context context'.
Proof.
  revert context. induction es as [|[lit support] es IH]; intros context.
  - simpl. rewrite app_nil_r. by repeat split.
  - cbn [foldl flat_map fst snd]. specialize (IH (add_support_constraint lit support
                                                     max_support_size context)).
    cbv zeta in IH. destruct IH as (Hc & Hd & Hv & He & Hq & Hu & Hp).
    unfold same_store. rewrite Hc, Hd, Hv, He, Hq, Hu, Hp. clear.
    unfold add_support_constraint, support_constraints. cbn [fst snd].
    destruct (length support =? max_support_size)%nat; [by repeat split|].
    destruct support as [|l1 [|l2 support]]; unfold AddImplication;
      rewrite constraints_add_constraints, <- app_assoc; by repeat split.
Qed.


Lemma filter_map_comm {A B : Type} (P : B -> Prop) `{forall x, Decision (P x)}
    (f : A -> B) (l : list A) :
  filter P (map f l) = map f (filter (fun x => P (f x)) l).
Proof.
  induction l as [|a l IH]; [done|]. simpl. rewrite !filter_cons. simpl.
  destruct (decide (P (f a))); simpl; by rewrite IH.
Qed.

Lemma forallb_flat_map {A B : Type} (P : B -> bool) (f : A -> list B) (l : list A) :
  forallb P (flat_map f l) = true <-> forall e, e ∈ l -> forallb P (f e) = true.
Proof.
  induction l as [|a l IH]; simpl.
  - split; [by intros _ e H%elem_of_nil|done].
  - rewrite forallb_app, andb_true_iff, IH. split.
    + intros [Ha Hl] e [->|He]%elem_of_cons; auto.
    + intros H. split; [apply H, list_elem_of_here|].
      intros e He. by apply H, list_elem_of_further.
Qed.

Section SizeTwoTable.

Variable other_holds : assignment -> Constraint -> bool.

(** A support constraint says that its literal implies one of its
    supports. *)
Lemma holds_support_constraints (s : assignment) (max_support_size : nat)
    (it : Z * list Z) :
  forallb (holds other_holds s) (support_constraints max_support_size it) = true
  <-> (length it.2 <> max_support_size -> literal_value s it.1 = true ->
       exists r, r ∈ it.2 /\ literal_value s r = true).
Proof.
  destruct it as [lit support]. unfold support_constraints. cbn [fst snd].
  destruct (Nat.eqb_spec (length support) max_support_size) as [Heq|Hne]; [done|].
  assert (Hor : forallb (holds other_holds s)
                  [plain (kBoolOr (support ++ [NegatedRef lit]))] = true
                <-> (literal_value s lit = true ->
                     exists r, r ∈ support /\ literal_value s r = true)).
  { cbn. rewrite andb_true_r, existsb_app. cbn. rewrite orb_false_r.
    rewrite literal_value_NegatedRef, orb_true_iff, existsb_exists, negb_true_iff.
    split.
    - intros [(r & Hin & Hr) | Hfalse] Hlit; [|congruence].
      exists r. by rewrite list_elem_of_In.
    - intros H. destruct (literal_value s lit); [|by right]. left.
      destruct (H eq_refl) as (r & Hin & Hr). exists r. by rewrite <- list_elem_of_In. }
  destruct support as [|l1 [|l2 support]]; [| |].
  - rewrite Hor. tauto.
  - change (forallb (holds other_holds s) [implication lit l1])
      with (implb (literal_value s lit && true) (literal_value s l1 && true) && true).
    rewrite !andb_true_r. split.
    + intros H _ Hlit. rewrite Hlit in H. exists l1. split; [apply list_elem_of_here|done].
    + intros H. destruct (literal_value s lit); [|done]. simpl.
      destruct (H Hne eq_refl) as (r & Hin & Hr).
      by apply list_elem_of_singleton in Hin as ->.
  - rewrite Hor. tauto.
Qed.


(** When the true first literals of [lits] are all the first literal of a
    pair whose second literal is true, the support constraints hold. *)
Lemma supports_hold (s : assignment) (max_support_size : nat) (lits : list (Z * Z))
    (lr0 : Z * Z) :
  (forall lr, lr ∈ lits -> literal_value s lr.1 = true -> lr.1 = lr0.1) ->
  lr0 ∈ lits -> literal_value s lr0.2 = true ->
  forallb (holds other_holds s)
    (flat_map (support_constraints max_support_size) (entries (supports_of lits))) = true.
Proof.
  intros Hone Hin Htrue. apply forallb_flat_map. intros [L S] He.
  apply elem_of_entries in He. rewrite supports_of_lookup in He. cbv zeta in He.
  destruct (decide (map snd (filter (fun lr : Z * Z => lr.1 = L) lits) = [])) as [|Hne];
    [done|].
  injection He as <-. apply holds_support_constraints. cbn [fst snd]. intros _ HL.
  exists lr0.2. split; [|done].
  destruct (filter (fun lr : Z * Z => lr.1 = L) lits) as [|lr rest] eqn:E; [done|].
  assert (Hlr : lr ∈ filter (fun lr : Z * Z => lr.1 = L) lits)
    by (rewrite E; apply list_elem_of_here).
  apply list_elem_of_filter in Hlr as [HlrL Hlr]. rewrite <- E.
  apply (list_elem_of_fmap_2 snd). apply list_elem_of_filter. split; [|done].
  rewrite <- HlrL. symmetry. apply Hone; [done|]. by rewrite HlrL.
Qed.

(** The meaning of the support constraints of a table of two variables. *)
Lemma size_two_table_meaning (vars : list Z) (tuples : list (list Z))
    (values_per_var : list (gset Z)) (context : PresolveContext) :
  initialized context ->
  forallb sorted_intervals (domains context) = true ->
  PositiveRef (ref_at vars 0) < variables_size context ->
  PositiveRef (ref_at vars 1) < variables_size context ->
  NoDup (map tuple_pair tuples) ->
  set_at values_per_var 0 = list_to_set (map (fun t => ref_at t 0) tuples) ->
  set_at values_per_var 1 = list_to_set (map (fun t => ref_at t 1) tuples) ->
  list_to_set (Domain.Values (DomainOf context (ref_at vars 0))) = set_at values_per_var 0 ->
  list_to_set (Domain.Values (DomainOf context (ref_at vars 1))) = set_at values_per_var 1 ->
  let context' := AddSizeTwoTable vars tuples values_per_var context in
  exists created news,
    encoding_growth context context' created
    /\ constraints context' = constraints context ++ news
    /\ forall s,
         domains_hold s (domains context') = true ->
         encoding_holds s (encoding context') = true ->
         (forallb (holds other_holds s) news = true
          <-> (ref_value s (ref_at vars 0), ref_value s (ref_at vars 1))
              ∈ map tuple_pair tuples).
Proof.
  intros Hinit Hsorted Hx Hy Hnodup HV0 HV1 HD0 HD1 context'.
  set (x := ref_at vars 0) in *. set (y := ref_at vars 1) in *.
  set (V0 := set_at values_per_var 0) in *. set (V1 := set_at values_per_var 1) in *.
  pose proof (initialized_size context Hinit) as Hsize.
  (* the values of the two variables are in the columns *)
  assert (Hin : forall ctx s ref (V : gset Z),
             domains_prefix context ctx -> PositiveRef ref < variables_size context ->
             list_to_set (Domain.Values (DomainOf context ref)) = V ->
             domains_hold s (domains ctx) = true -> ref_value s ref ∈ V).
  { intros ctx s ref V Hprefix Href HV Hdom. rewrite <- HV.
    apply elem_of_list_to_set, DomainFacts.elem_of_Values.
    rewrite <- (DomainOf_prefix context ctx) by (done || lia).
    apply DomainOf_holds; [done|]. destruct Hprefix as [extra ->].
    rewrite length_app. lia. }
  assert (Hcol0 : forall v, v ∈ V0 -> exists t, t ∈ tuples /\ ref_at t 0 = v).
  { intros v Hv. rewrite HV0 in Hv. apply elem_of_list_to_set in Hv.
    apply list_elem_of_fmap in Hv as (t & -> & Ht). by exists t. }
  assert (Hcol1 : forall v, v ∈ V1 -> exists t, t ∈ tuples /\ ref_at t 1 = v).
  { intros v Hv. rewrite HV1 in Hv. apply elem_of_list_to_set in Hv.
    apply list_elem_of_fmap in Hv as (t & -> & Ht). by exists t. }
  unfold AddSizeTwoTable in context'. fold x y in context'.
  destruct (Domain.IsFixed (DomainOf context x) || Domain.IsFixed (DomainOf context y))
    eqn:Hfixed.
  - (* one variable is fixed: nothing is added *)
    exists [], []. subst context'. split; [apply encoding_growth_refl|].
    split; [by rewrite app_nil_r|]. intros s Hdom Henc. split; [|done]. intros _.
    assert (Hp : domains_prefix context context) by (exists []; by rewrite app_nil_r).
    pose proof (Hin context s x V0 Hp Hx HD0 Hdom) as Ha.
    pose proof (Hin context s y V1 Hp Hy HD1 Hdom) as Hb.
    assert (Hcontains : forall ref (V : gset Z) v,
               list_to_set (Domain.Values (DomainOf context ref)) = V -> v ∈ V ->
               Domain.Contains (DomainOf context ref) v = true).
    { intros ref V v HV Hv. rewrite <- HV in Hv.
      by apply elem_of_list_to_set, DomainFacts.elem_of_Values in Hv. }
    apply orb_true_iff in Hfixed as [Hfx | Hfy].
    + destruct (Hcol1 _ Hb) as (t & Ht & Ht1).
      assert (ref_at t 0 = ref_value s x) as Ht0.
      { apply (IsFixed_value (DomainOf context x)); [by apply DomainOf_sorted|done| |].
        - apply (Hcontains x V0); [done|]. rewrite HV0. apply elem_of_list_to_set.
          by apply (list_elem_of_fmap_2 (fun t => ref_at t 0)).
        - by apply (Hcontains x V0). }
      apply list_elem_of_fmap. exists t. split; [|done]. unfold tuple_pair. congruence.
    + destruct (Hcol0 _ Ha) as (t & Ht & Ht0).
      assert (ref_at t 1 = ref_value s y) as Ht1.
      { apply (IsFixed_value (DomainOf context y)); [by apply DomainOf_sorted|done| |].
        - apply (Hcontains y V1); [done|]. rewrite HV1. apply elem_of_list_to_set.
          by apply (list_elem_of_fmap_2 (fun t => ref_at t 1)).
        - by apply (Hcontains y V1). }
      apply list_elem_of_fmap. exists t. split; [|done]. unfold tuple_pair. congruence.
  - (* the three loops *)
    pose proof (size_two_supports_loop x y tuples context Hinit Hx Hy) as Hloop.
    cbv zeta in Hloop.
    destruct (foldl (size_two_supports x y) (∅, ∅, context) tuples)
      as [[left_to_right right_to_left] context1].
    cbn [fst snd] in Hloop.
    destruct Hloop as (lits & created & Hlits & -> & -> & Hgrowth & Hinit1 & Hcons1).
    pose proof (add_support_loop (size V1) (entries (supports_of lits)) context1) as Hl1.
    cbv zeta in Hl1. fold V0 V1 in context'.
    set (context2 := foldl _ context1 (entries (supports_of lits))) in *.
    pose proof (add_support_loop (size V0) (entries (supports_of (map swap_pair lits)))
                  context2) as Hl2.
    cbv zeta in Hl2. fold context' in Hl2.
    destruct Hl1 as (Hc1 & Hd1 & Hv1 & He1 & Hq1 & Hu1 & _).
    destruct Hl2 as (Hc2 & Hd2 & Hv2 & He2 & Hq2 & Hu2 & _).
    exists created,
      (flat_map (support_constraints (size V1)) (entries (supports_of lits))
       ++ flat_map (support_constraints (size V0))
            (entries (supports_of (map swap_pair lits)))).
    assert (Hgrowth' : encoding_growth context context' created).
    { unfold encoding_growth, encoding_stable, variables_size in *.
      by rewrite Hd2, Hd1, Hv2, Hv1, He2, He1, Hq2, Hq1, Hu2, Hu1. }
    split; [done|]. split; [by rewrite Hc2, Hc1, Hcons1, <- app_assoc|].
    intros s Hdom Henc.
    assert (Hp : domains_prefix context context')
      by (eexists; exact (proj1 Hgrowth')).
    pose proof (Hin context' s x V0 Hp Hx HD0 Hdom) as Ha.
    pose proof (Hin context' s y V1 Hp Hy HD1 Hdom) as Hb.
    set (a := ref_value s x) in *. set (b := ref_value s y) in *.
    (* the literals of the tuples mean what they say *)
    assert (Hlit : forall i t lr, tuples !! i = Some t -> lits !! i = Some lr ->
               encoding context' !! encoding_key x (ref_at t 0) = Some lr.1
               /\ encoding context' !! encoding_key y (ref_at t 1) = Some lr.2
               /\ literal_value s lr.1 = (a =? ref_at t 0)
               /\ literal_value s lr.2 = (b =? ref_at t 1)).
    { intros i t lr Ht Hlr.
      destruct (Forall2_lookup_lr _ _ _ _ _ _ Hlits Ht Hlr) as [H1 H2].
      rewrite He2, He1. split; [done|]. split; [done|].
      split; apply (encoding_literal_value s context'); try done;
        unfold HasVarValueEncoding; by rewrite He2, He1. }
    pose proof (Forall2_length _ _ _ Hlits) as Hlen.
    rewrite forallb_app, andb_true_iff. split.
    + (* a solution of the constraints is a tuple *)
      intros [Hleft _].
      destruct (Hcol0 _ Ha) as (t0 & Ht0 & Hta).
      apply list_elem_of_lookup in Ht0 as [i0 Ht0].
      destruct (lookup_lt_is_Some_2 lits i0) as [lr0 Hlr0];
        [rewrite <- Hlen; by apply lookup_lt_Some in Ht0|].
      destruct (Hlit _ _ _ Ht0 Hlr0) as (Hk0 & _ & HL0 & _).
      rewrite Hta, Z.eqb_refl in HL0. rewrite Hta in Hk0.
      set (L := lr0.1) in *.
      set (S := map snd (filter (fun lr : Z * Z => lr.1 = L) lits)).
      assert (HS : supports_of lits !! L = Some S).
      { rewrite supports_of_lookup. cbv zeta. fold S.
        destruct (decide (S = [])) as [Hnil|]; [|done]. exfalso.
        assert (lr0.2 ∈ S) as Hmem; [|by rewrite Hnil in Hmem; apply elem_of_nil in Hmem].
        apply (list_elem_of_fmap_2 snd). apply list_elem_of_filter.
        split; [done|]. by apply list_elem_of_lookup_2 in Hlr0. }
      apply elem_of_entries in HS.
      pose proof (proj1 (forallb_flat_map _ _ _) Hleft _ HS) as Hct.
      pose proof (proj1 (holds_support_constraints s _ _) Hct) as Hsupport.
      cbn [fst snd] in Hsupport. clear Hct.
      (* the tuples whose first literal is [L] have the first value [a] *)
      set (T := filter (fun z : list Z * (Z * Z) => z.2.1 = L) (zip tuples lits)).
      assert (HT : forall z, z ∈ T ->
                 z.1 ∈ tuples /\ ref_at z.1 0 = a
                 /\ literal_value s z.2.2 = (b =? ref_at z.1 1)).
      { intros [t lr] Hz. apply list_elem_of_filter in Hz as [HzL Hz]. cbn [fst snd] in *.
        apply elem_of_lookup_zip_with in Hz as (i & t' & lr' & [= -> ->] & Ht' & Hlr').
        destruct (Hlit _ _ _ Ht' Hlr') as (_ & _ & H1 & H2).
        split; [by apply list_elem_of_lookup_2 in Ht'|]. split; [|done].
        rewrite HzL, HL0 in H1. symmetry in H1. apply Z.eqb_eq in H1. done. }
      assert (HST : S = map (fun z : list Z * (Z * Z) => z.2.2) T).
      { unfold S, T. rewrite <- (snd_zip tuples lits) at 1 by lia.
        rewrite (filter_map_comm (fun lr : Z * Z => lr.1 = L) snd).
        by rewrite map_map. }
      destruct (decide (length S = size V1)) as [Hfull|Hpart].
      * (* as many supports as values: every value is a support *)
        set (Bs := map (fun z : list Z * (Z * Z) => ref_at z.1 1) T).
        assert (Hnd : NoDup Bs).
        { apply (NoDup_fmap_1 (fun v => (a, v))). unfold Bs.
          rewrite <- list_fmap_compose.
          assert (Hext : (fun z : list Z * (Z * Z) => tuple_pair z.1) <$> T
                         = ((fun v => (a, v)) ∘ (fun z : list Z * (Z * Z) => ref_at z.1 1))
                             <$> T).
          { apply Forall_fmap_ext_1, Forall_forall. intros z Hz.
            destruct (HT z Hz) as (_ & Hza & _). unfold tuple_pair. simpl. by rewrite Hza. }
          rewrite <- Hext.
          change (NoDup ((tuple_pair ∘ fst) <$> T)). rewrite (list_fmap_compose fst tuple_pair).
          eapply sublist_NoDup; [exact Hnodup|].
          apply fmap_sublist. unfold T.
          rewrite <- (fst_zip tuples lits) at 2 by lia.
          apply fmap_sublist, sublist_filter. }
        assert (Hsub : list_to_set Bs ⊆ V1).
        { intros v Hv. apply elem_of_list_to_set in Hv.
          apply list_elem_of_fmap in Hv as (z & -> & Hz).
          destruct (HT z Hz) as (Hzt & _). rewrite HV1. apply elem_of_list_to_set.
          by apply (list_elem_of_fmap_2 (fun t => ref_at t 1)). }
        assert (Heq : list_to_set Bs = V1).
        { apply set_subseteq_size_eq; [done|]. rewrite size_list_to_set by done.
          unfold Bs. rewrite length_map. rewrite <- Hfull, HST, length_map. lia. }
        rewrite <- Heq in Hb. apply elem_of_list_to_set in Hb.
        apply list_elem_of_fmap in Hb as (z & Hzb & Hz).
        destruct (HT z Hz) as (Hzt & Hza & _).
        apply list_elem_of_fmap. exists z.1. split; [|done].
        unfold tuple_pair. by rewrite Hza, <- Hzb.
      * destruct (Hsupport Hpart HL0) as (r & Hr & Hrtrue).
        rewrite HST in Hr. apply list_elem_of_fmap in Hr as (z & -> & Hz).
        destruct (HT z Hz) as (Hzt & Hza & Hzb).
        rewrite Hrtrue in Hzb. symmetry in Hzb. apply Z.eqb_eq in Hzb.
        apply list_elem_of_fmap. exists z.1. split; [|done].
        unfold tuple_pair. by rewrite Hza, <- Hzb.
    + (* a tuple satisfies the constraints *)
      intros Htuple. apply list_elem_of_fmap in Htuple as (t & Hpair & Ht).
      injection Hpair as Hta Htb.
      apply list_elem_of_lookup in Ht as [i Ht].
      destruct (lookup_lt_is_Some_2 lits i) as [lr0 Hlr0];
        [rewrite <- Hlen; by apply lookup_lt_Some in Ht|].
      destruct (Hlit _ _ _ Ht Hlr0) as (Hk0 & Hk1 & HL0 & HR0).
      rewrite <- Hta, Z.eqb_refl in HL0. rewrite <- Htb, Z.eqb_refl in HR0.
      pose proof (list_elem_of_lookup_2 _ _ _ Hlr0) as Hmem.
      split.
      * apply (supports_hold s _ lits lr0); [|done|done].
        intros lr Hlr Htrue. apply list_elem_of_lookup in Hlr as [j Hlr].
        destruct (lookup_lt_is_Some_2 tuples j) as [t' Ht'];
          [rewrite Hlen; by apply lookup_lt_Some in Hlr|].
        destruct (Hlit _ _ _ Ht' Hlr) as (Hk & _ & HL & _).
        rewrite Htrue in HL. symmetry in HL. apply Z.eqb_eq in HL.
        rewrite <- HL, Hta, Hk0 in Hk. by injection Hk.
      * apply (supports_hold s _ (map swap_pair lits) (swap_pair lr0)); [| |done].
        -- intros lr Hlr Htrue. apply list_elem_of_fmap in Hlr as (lr' & -> & Hlr).
           cbn [swap_pair fst snd] in *.
           apply list_elem_of_lookup in Hlr as [j Hlr].
           destruct (lookup_lt_is_Some_2 tuples j) as [t' Ht'];
             [rewrite Hlen; by apply lookup_lt_Some in Hlr|].
           destruct (Hlit _ _ _ Ht' Hlr) as (_ & Hk & _ & HR).
           rewrite Htrue in HR. symmetry in HR. apply Z.eqb_eq in HR.
           rewrite <- HR, Htb, Hk1 in Hk. by injection Hk.
        -- by apply (list_elem_of_fmap_2 swap_pair).
Qed.

(** The constraints that AddSizeTwoTable adds for a table of two
    variables without repeated tuple, whose columns are exactly the domains
    of the two variables, hold exactly when the values of the two variables
    form a tuple of the table; no other part of the model changes but the
    encoding literals it creates. *)
Theorem AddSizeTwoTable_meaning (vars : list Z) (tuples : list (list Z))
    (values_per_var : list (gset Z)) (context : PresolveContext) :
  initialized context ->
  forallb sorted_intervals (domains context) = true ->
  PositiveRef (ref_at vars 0) < variables_size context ->
  PositiveRef (ref_at vars 1) < variables_size context ->
  NoDup (map tuple_pair tuples) ->
  set_at values_per_var 0 = list_to_set (map (fun t => ref_at t 0) tuples) ->
  set_at values_per_var 1 = list_to_set (map (fun t => ref_at t 1) tuples) ->
  list_to_set (Domain.Values (DomainOf context (ref_at vars 0))) = set_at values_per_var 0 ->
  list_to_set (Domain.Values (DomainOf context (ref_at vars 1))) = set_at values_per_var 1 ->
  let context' := AddSizeTwoTable vars tuples values_per_var context in
  exists created news,
    encoding_growth context context' created
    /\ constraints context' = constraints context ++ news
    /\ forall s,
         domains_hold s (domains context') = true ->
         encoding_holds s (encoding context') = true ->
         (forallb (holds other_holds s) news = true
          <-> (ref_value s (ref_at vars 0), ref_value s (ref_at vars 1))
              ∈ map tuple_pair tuples).
Proof. apply size_two_table_meaning. Qed.

End SizeTwoTable.

Lemma AddSizeTwoTable_meaning_witness :
  exists created news,
    encoding_growth cycle_context
      (AddSizeTwoTable [0; 1] cycle_tuples cycle_values cycle_context) created
    /\ constraints (AddSizeTwoTable [0; 1] cycle_tuples cycle_values cycle_context)
       = constraints cycle_context ++ news
    /\ forall s,
         domains_hold s
           (domains (AddSizeTwoTable [0; 1] cycle_tuples cycle_values cycle_context)) = true ->
         encoding_holds s
           (encoding (AddSizeTwoTable [0; 1] cycle_tuples cycle_values cycle_context)) = true ->
         (forallb (holds no_other_constraint s) news = true
          <-> (ref_value s (ref_at [0; 1] 0), ref_value s (ref_at [0; 1] 1))
              ∈ map tuple_pair cycle_tuples).
Proof.
  apply (AddSizeTwoTable_meaning no_other_constraint [0; 1] cycle_tuples cycle_values
           cycle_context).
  - reflexivity.
  - reflexivity.
  - vm_compute. reflexivity.
  - vm_compute. reflexivity.
  - apply (bool_decide_unpack _). vm_compute. exact I.
  - vm_compute. reflexivity.
  - vm_compute. reflexivity.
  - vm_compute. reflexivity.
  - vm_compute. reflexivity.
Defined.

(** Without the hypothesis on repeated tuples the statement fails: when
    every tuple is written twice, each literal has as many supports as the
    other variable has values, and nothing is added. *)
Example AddSizeTwoTable_repeated_tuples :
  constraints (AddSizeTwoTable [0; 1] repeated_tuples [{[0; 1]}; {[0; 1]}] repeated_context)
  = constraints repeated_context.
Proof. reflexivity. Qed.

(** * Negated tables *)

Lemma encoding_growth_same (context0 context1 context2 : PresolveContext)
    (created : list (Z * Z)) :
  encoding_growth context0 context1 created ->
  domains context2 = domains context1 -> variables context2 = variables context1 ->
  encoding context2 = encoding context1 -> equalities context2 = equalities context1 ->
  is_unsat context2 = is_unsat context1 ->
  encoding_growth context0 context2 created.
Proof.
  intros H Hd Hv He Hq Hu.
  unfold encoding_growth, encoding_stable, variables_size in *.
  by rewrite Hd, Hv, He, Hq, Hu.
Qed.

Section NegativeTableFacts.

Variable CompressTuples : list Z -> list (list Z) -> list (list Z).
Variable any : Z.
Variable other_holds : assignment -> Constraint -> bool.

(** The loop over the columns of one tuple: the clause has the negation of
    the literal of each column that is not the wildcard. *)
Lemma negated_tuple_loop (vars tuple : list Z) (context0 context : PresolveContext)
    (created : list (Z * Z)) (n : nat) :
  initialized context ->
  encoding_growth context0 context created ->
  forallb (fun var => PositiveRef var <? variables_size context0) vars = true ->
  (n <= length vars)%nat ->
  let r := foldl (negated_tuple_literal any vars tuple) ([], context) (seq 0 n) in
  exists created' lits,
    r.1 = map NegatedRef lits
    /\ Forall2 (fun i lit =>
                  encoding r.2 !! encoding_key (ref_at vars i) (ref_at tuple i) = Some lit)
               (concrete_columns any tuple n) lits
    /\ encoding_growth context0 r.2 created'
    /\ initialized r.2
    /\ encoding_stable context r.2
    /\ constraints r.2 = constraints context.
Proof.
  intros Hinit Hgrowth Hvars. induction n as [|n IH]; intros Hn.
  - exists created, []. simpl. split; [done|]. split; [constructor|].
    split; [done|]. split; [done|]. split; [by intros key lit H|done].
  - cbv zeta in IH |- *. rewrite seq_S, foldl_app. cbn [foldl plus].
    destruct IH as (created1 & lits & Hclause & Hlits & Hgrowth1 & Hinit1 & Hstable1 & Hcons1);
      [lia|].
    unfold concrete_columns. rewrite seq_S, filter_app. cbn [plus].
    fold (concrete_columns any tuple n).
    destruct (foldl (negated_tuple_literal any vars tuple) ([], context) (seq 0 n))
      as [clause context1].
    cbn [fst snd] in *. unfold negated_tuple_literal.
    destruct (Z.eqb_spec (ref_at tuple n) any) as [Hany|Hconcrete].
    + rewrite filter_cons_False by (intros H; by apply H). rewrite filter_nil, app_nil_r.
      exists created1, lits. split; [done|]. split; [done|].
      split; [done|]. split; [done|]. by split.
    + rewrite filter_cons_True by done. rewrite filter_nil.
      assert (Hkey : 0 <= (encoding_key (ref_at vars n) (ref_at tuple n)).1
                     < variables_size context0).
      { rewrite encoding_key_variable. pose proof (PositiveRef_nonnegative (ref_at vars n)).
        split; [done|]. rewrite forallb_forall in Hvars.
        destruct (lookup_lt_is_Some_2 vars n) as [var Hvar]; [lia|].
        unfold ref_at. rewrite Hvar. simpl. apply Z.ltb_lt, Hvars.
        apply list_elem_of_In. by apply list_elem_of_lookup_2 in Hvar. }
      pose proof (encoding_growth_step context0 context1 created1 (ref_at vars n)
                    (ref_at tuple n) Hgrowth1 Hinit1 Hkey) as Hstep.
      cbv zeta in Hstep.
      destruct (GetOrCreateVarValueEncoding (ref_at vars n) (ref_at tuple n) context1)
        as [literal context2].
      cbn [fst snd] in *.
      destruct Hstep as (created2 & Hgrowth2 & Hinit2 & Hlit & Hcons2 & Hstable2).
      exists created2, (lits ++ [literal]).
      split; [by rewrite map_app, Hclause|].
      split.
      { apply Forall2_app; [|by repeat constructor].
        eapply Forall2_impl; [exact Hlits|]. intros i lit H. by apply Hstable2. }
      split; [done|]. split; [done|].
      split; [by apply (encoding_stable_trans _ context1)|]. by rewrite Hcons2.
Qed.

(** The clause of the columns holds when the assignment does not match the
    tuple. *)
Lemma negated_clause_meaning (s : assignment) (vars tuple lits : list Z)
    (context : PresolveContext) :
  Forall2 (fun i lit =>
             encoding context !! encoding_key (ref_at vars i) (ref_at tuple i) = Some lit)
          (concrete_columns any tuple (length vars)) lits ->
  encoding_holds s (encoding context) = true ->
  existsb (literal_value s) (map NegatedRef lits) = true
  <-> ~ matches_tuple any s vars tuple.
Proof.
  intros Hlits Henc.
  assert (Hvalue : forall j i lit,
             concrete_columns any tuple (length vars) !! j = Some i -> lits !! j = Some lit ->
             literal_value s lit = (ref_value s (ref_at vars i) =? ref_at tuple i)).
  { intros j i lit Hi Hlit. apply (encoding_literal_value s context); [done|].
    exact (Forall2_lookup_lr _ _ _ _ _ _ Hlits Hi Hlit). }
  split.
  - intros Hex Hmatch. apply existsb_exists in Hex as (l & Hin & Hl).
    apply list_elem_of_In, list_elem_of_fmap in Hin as (lit & -> & Hin).
    rewrite literal_value_NegatedRef in Hl. apply negb_true_iff in Hl.
    apply list_elem_of_lookup in Hin as [j Hj].
    destruct (Forall2_lookup_r _ _ _ _ _ Hlits Hj) as (i & Hi & _).
    rewrite (Hvalue _ _ _ Hi Hj) in Hl. apply Z.eqb_neq in Hl.
    apply list_elem_of_lookup_2, list_elem_of_filter in Hi as [Hconcrete Hi].
    apply elem_of_seq in Hi. destruct (Hmatch i) as [?|?]; [lia|done|done].
  - intros Hnot. destruct (existsb (literal_value s) (map NegatedRef lits)) eqn:Hex; [done|].
    exfalso. apply Hnot. intros i Hi.
    destruct (decide (ref_at tuple i = any)) as [?|Hconcrete]; [by left|]. right.
    assert (Hcol : i ∈ concrete_columns any tuple (length vars)).
    { apply list_elem_of_filter. split; [done|]. apply elem_of_seq. lia. }
    apply list_elem_of_lookup in Hcol as [j Hj].
    destruct (Forall2_lookup_l _ _ _ _ _ Hlits Hj) as (lit & Hlit & _).
    rewrite <- Bool.not_true_iff_false, existsb_exists in Hex.
    apply Z.eqb_eq. rewrite <- (Hvalue _ _ _ Hj Hlit).
    destruct (literal_value s lit) eqn:Hl; [done|]. exfalso. apply Hex.
    exists (NegatedRef lit). split.
    + apply list_elem_of_In, (list_elem_of_fmap_2 NegatedRef).
      by apply list_elem_of_lookup_2 in Hlit.
    + by rewrite literal_value_NegatedRef, Hl.
Qed.

(** The loop over the tuples: one clause for each of them. *)
Lemma forbid_tuple_loop (vars : list Z) (tuples : list (list Z)) (context : PresolveContext) :
  initialized context ->
  forallb (fun var => PositiveRef var <? variables_size context) vars = true ->
  let context' := foldl (forbid_tuple any vars) context tuples in
  exists created clauses,
    encoding_growth context context' created
    /\ initialized context'
    /\ constraints context'
       = constraints context ++ map (fun clause => plain (kBoolOr clause)) clauses
    /\ Forall2 (fun tuple clause =>
                  forall s, encoding_holds s (encoding context') = true ->
                    existsb (literal_value s) clause = true
                    <-> ~ matches_tuple any s vars tuple)
               tuples clauses.
Proof.
  intros Hinit Hvars. induction tuples as [|tuple tuples IH] using rev_ind.
  - exists [], []. simpl. rewrite app_nil_r. split; [apply encoding_growth_refl|].
    split; [done|]. split; [done|]. constructor.
  - cbv zeta in IH |- *. rewrite foldl_app. cbn [foldl].
    destruct IH as (created & clauses & Hgrowth & Hinit1 & Hcons & Hclauses).
    set (context1 := foldl (forbid_tuple any vars) context tuples) in *.
    unfold forbid_tuple.
    pose proof (negated_tuple_loop vars tuple context context1 created (length vars)
                  Hinit1 Hgrowth Hvars (le_n _)) as Hloop.
    cbv zeta in Hloop.
    destruct (foldl (negated_tuple_literal any vars tuple) ([], context1)
                (seq 0 (length vars))) as [clause context2].
    cbn [fst snd] in Hloop.
    destruct Hloop as (created2 & lits & -> & Hlits & Hgrowth2 & Hinit2 & Hstable2 & Hcons2).
    exists created2, (clauses ++ [map NegatedRef lits]).
    split.
    { unfold encoding_growth, encoding_stable, variables_size in *.
      by rewrite domains_add_constraints, variables_add_constraints. }
    split; [by apply add_constraints_initialized|].
    split; [by rewrite constraints_add_constraints, Hcons2, Hcons, map_app, <- app_assoc|].
    apply Forall2_app.
    + eapply Forall2_impl; [exact Hclauses|]. intros t cl H s Henc. apply H.
      apply encoding_holds_spec. intros key lit Hk.
      apply (proj1 (encoding_holds_spec _ _) Henc). by apply Hstable2.
    + constructor; [|constructor]. intros s Henc.
      by apply (negated_clause_meaning s vars tuple lits context2).
Qed.

(** The constraints of the expansion of a negated table and what they say. *)
Lemma negative_table_meaning (c : nat) (context : PresolveContext) :
  initialized context ->
  forallb (fun var => PositiveRef var <? variables_size context)
          (TableConstraintProto.vars (table_of (constraint_at c context))) = true ->
  let table := table_of (constraint_at c context) in
  let context' := ExpandNegativeTable CompressTuples any c context in
  exists created news,
    encoding_expansion context context' c ConstraintProto.cleared created news
    /\ forall s,
         encoding_holds s (encoding context') = true ->
         (forallb (holds other_holds s) news = true
          <-> forall tuple, tuple ∈ forbidden_tuples CompressTuples context table ->
                ~ matches_tuple any s (TableConstraintProto.vars table) tuple).
Proof.
  intros Hinit Hvars table context'. unfold ExpandNegativeTable in context'.
  fold table in context', Hvars. unfold forbidden_tuples.
  destruct (table_tuples table) as [|tuple0 tuples0] eqn:Htuples.
  - exists [], []. split.
    + split; [|by rewrite app_nil_r].
      by apply (encoding_growth_same context context _ [] (encoding_growth_refl context)).
    + intros s _. split; [|done]. by intros _ tuple H%elem_of_nil.
  - set (tuples := CompressTuples _ (tuple0 :: tuples0)) in *.
    pose proof (forbid_tuple_loop (TableConstraintProto.vars table) tuples context
                  Hinit Hvars) as Hloop.
    cbv zeta in Hloop.
    set (context1 := foldl (forbid_tuple any (TableConstraintProto.vars table)) context tuples)
      in *.
    destruct Hloop as (created & clauses & Hgrowth & Hinit1 & Hcons & Hclauses).
    exists created, (map (fun clause => plain (kBoolOr clause)) clauses).
    assert (Hc : (c < length (constraints context))%nat).
    { apply lookup_lt_is_Some. unfold table, constraint_at in Htuples.
      destruct (constraints context !! c); [done|]. discriminate Htuples. }
    split; [split|].
    + by apply (encoding_growth_same context context1 _ created Hgrowth).
    + subst context'. rewrite constraints_Clear, constraints_UpdateRuleStats, Hcons.
      by rewrite insert_app_l.
    + intros s Henc. change (encoding context') with (encoding context1) in Henc.
      rewrite forallb_forall. split.
      * intros Hall tuple Htuple. apply list_elem_of_lookup in Htuple as [j Hj].
        destruct (Forall2_lookup_l _ _ _ _ _ Hclauses Hj) as (clause & Hclause & Hmeaning).
        apply (Hmeaning s Henc).
        assert (Hin : In (plain (kBoolOr clause))
                         (map (fun clause => plain (kBoolOr clause)) clauses)).
        { apply (in_map (fun clause => plain (kBoolOr clause))), list_elem_of_In.
          by apply list_elem_of_lookup_2 in Hclause. }
        exact (Hall _ Hin).
      * intros Hall ct Hin. apply in_map_iff in Hin as (clause & <- & Hin).
        apply list_elem_of_In, list_elem_of_lookup in Hin as [j Hj].
        destruct (Forall2_lookup_r _ _ _ _ _ Hclauses Hj) as (tuple & Htuple & Hmeaning).
        change (existsb (literal_value s) clause = true).
        apply (Hmeaning s Henc), Hall. by apply list_elem_of_lookup_2 in Htuple.
Qed.


End NegativeTableFacts.


(** * One column of a compressed table *)

#[local] Instance pair_le_trans : Transitive pair_le.
Proof. intros a b c. unfold pair_le. lia. Qed.

#[local] Instance pair_le_total : Total pair_le.
Proof. intros a b. unfold pair_le. lia. Qed.

Lemma filter_none {A : Type} (P : A -> Prop) `{forall x, Decision (P x)} (l : list A) :
  Forall (fun x => ~ P x) l -> filter P l = [].
Proof.
  induction 1 as [|x l Hx Hl IH]; [done|]. by rewrite filter_cons_False.
Qed.

(** On pairs sorted by value, [group_by_value] gives for each value the
    literals of all its pairs. *)
Lemma group_by_value_sorted (pairs : list (Z * Z)) :
  StronglySorted pair_le pairs ->
  StronglySorted Z.lt (map fst (group_by_value pairs))
  /\ (forall v sel, (v, sel) ∈ group_by_value pairs ->
        sel = map snd (filter (fun p : Z * Z => p.1 = v) pairs) /\ sel <> [])
  /\ match pairs, group_by_value pairs with
     | p :: _, g :: _ => g.1 = p.1
     | [], [] => True
     | _, _ => False
     end.
Proof.
  induction pairs as [|[v l] rest IH]; intros Hsorted.
  - simpl. split; [constructor|]. split; [|done]. by intros v sel H%elem_of_nil.
  - apply StronglySorted_inv in Hsorted as [Hrest Hall].
    destruct (IH Hrest) as (Hkeys & Hgroups & Hhead). clear IH. simpl.
    destruct (group_by_value rest) as [|[v' sel'] groups] eqn:Egroups.
    + destruct rest; [|by rewrite Egroups in Hhead]. simpl. split; [repeat constructor|]. split; [|done].
      intros w sel Hin. apply list_elem_of_singleton in Hin as [= -> ->].
      rewrite filter_cons_True by done. by rewrite filter_nil.
    + destruct rest as [|p rest']; [done|]. rewrite Egroups in Hhead. simpl in Hhead. subst v'.
      assert (Hle : v <= p.1).
      { apply Forall_cons in Hall as [Hp _]. unfold pair_le in Hp. simpl in Hp. lia. }
      simpl in Hkeys. apply StronglySorted_inv in Hkeys as [Hkeys Hlt].
      rewrite Forall_forall in Hlt.
      assert (Hge : forall w sel, (w, sel) ∈ (p.1, sel') :: groups -> p.1 <= w).
      { intros w sel [[= -> ->]|Hin]%elem_of_cons; [lia|].
        assert (p.1 < w); [|lia]. apply Hlt. by apply (list_elem_of_fmap_2 fst _ (w, sel)). }
      destruct (Z.eqb_spec v p.1) as [->|Hne].
      * split; [by constructor; [|apply Forall_forall]|]. split; [|done].
        intros w sel [[= -> ->]|Hin]%elem_of_cons.
        -- destruct (Hgroups p.1 sel') as [-> _]; [apply list_elem_of_here|].
           by rewrite (filter_cons_True _ (p.1, l)) by done.
        -- assert (p.1 < w) as Hw
             by (apply Hlt; by apply (list_elem_of_fmap_2 fst _ (w, sel))).
           destruct (Hgroups w sel) as [-> Hnonempty]; [by apply list_elem_of_further|].
           split; [|done]. rewrite (filter_cons_False _ (p.1, l)); [done|].
           simpl. lia.
      * split.
        { simpl. constructor; [by constructor; [|apply Forall_forall]|].
          constructor; [lia|]. apply Forall_forall. intros w Hw. apply Hlt in Hw. lia. }
        split; [|done].
        intros w sel [[= -> ->]|Hin]%elem_of_cons.
        -- split; [|done]. rewrite (filter_cons_True _ (v, l)) by done.
           rewrite filter_none; [done|].
           apply StronglySorted_inv in Hrest as [_ Hp]. constructor; [simpl; lia|].
           eapply Forall_impl; [exact Hp|]. unfold pair_le. simpl. intros; lia.
        -- pose proof (Hge _ _ Hin) as Hw.
           destruct (Hgroups w sel Hin) as [-> Hnonempty]. split; [|done].
           rewrite (filter_cons_False _ (v, l)); [done|]. simpl. lia.
Qed.

(** Every value of a pair has a group. *)
Lemma group_by_value_complete (pairs : list (Z * Z)) (p : Z * Z) :
  p ∈ pairs -> exists sel, (p.1, sel) ∈ group_by_value pairs.
Proof.
  induction pairs as [|[v l] rest IH]; [by intros H%elem_of_nil|].
  intros [->|Hin]%elem_of_cons; simpl.
  - destruct (group_by_value rest) as [|[v' sel'] groups];
      [eexists; apply list_elem_of_here|].
    destruct (v =? v'); eexists; apply list_elem_of_here.
  - destruct (IH Hin) as [sel Hsel].
    destruct (group_by_value rest) as [|[v' sel'] groups]; [by apply elem_of_nil in Hsel|].
    destruct (Z.eqb_spec v v') as [->|Hne].
    + apply elem_of_cons in Hsel as [[= Hp ->]|Hsel].
      * eexists. rewrite Hp. apply list_elem_of_here.
      * exists sel. by apply list_elem_of_further.
    + exists sel. by apply list_elem_of_further.
Qed.

(** Adding a literal to the last constraint, a clause. *)
Lemma add_literals_last (base : list ConstraintProto.t) (enf lits : list Z) (lit : Z)
    (context0 context : PresolveContext) (created : list (Z * Z)) :
  constraints context = base ++ [ConstraintProto.mk enf (kBoolOr lits)] ->
  let context' := add_literals (length base) lit context in
  constraints context' = base ++ [ConstraintProto.mk enf (kBoolOr (lits ++ [lit]))]
  /\ encoding context' = encoding context
  /\ (initialized context -> initialized context')
  /\ (encoding_growth context0 context created -> encoding_growth context0 context' created).
Proof.
  intros Hcons context'. unfold context'.
  rewrite (add_literals_bool_or _ _ enf lits) by (by rewrite Hcons, list_lookup_middle).
  rewrite constraints_set_constraint, Hcons.
  replace (length base) with (length base + 0)%nat at 1 by lia. rewrite insert_app_r.
  split; [done|]. split; [done|]. split; [done|].
  intros H. by apply (encoding_growth_same context0 context _ created H).
Qed.

Section CompressedColumn.

Variable other_holds : assignment -> Constraint -> bool.
Variable variable : Z.

Lemma encoding_holds_stable (s : assignment) (c1 c2 : PresolveContext) :
  encoding_stable c1 c2 -> encoding_holds s (encoding c2) = true ->
  encoding_holds s (encoding c1) = true.
Proof.
  intros Hstable Henc. apply encoding_holds_spec. intros key lit Hk.
  apply (proj1 (encoding_holds_spec _ _) Henc). by apply Hstable.
Qed.

(** The loop over the values of one tuple. *)
Lemma column_values_loop (tuple_literal : Z) (vs : list Z)
    (context0 context : PresolveContext) (created : list (Z * Z))
    (base : list ConstraintProto.t) (lits0 : list Z) (pairs : list (Z * Z)) :
  initialized context ->
  encoding_growth context0 context created ->
  PositiveRef variable < variables_size context0 ->
  constraints context = base ++ [ConstraintProto.mk [tuple_literal] (kBoolOr lits0)] ->
  let r :=
    foldl
      (fun (acc : list (Z * Z) * PresolveContext) v =>
         let '(pairs, context) := acc in
         let '(literal, context) := GetOrCreateVarValueEncoding variable v context in
         (pairs ++ [(v, tuple_literal)], add_literals (length base) literal context))
      (pairs, context) vs in
  exists created' lits,
    r.1 = pairs ++ map (fun v => (v, tuple_literal)) vs
    /\ constraints r.2
       = base ++ [ConstraintProto.mk [tuple_literal] (kBoolOr (lits0 ++ lits))]
    /\ Forall2 (fun v lit => encoding r.2 !! encoding_key variable v = Some lit) vs lits
    /\ encoding_growth context0 r.2 created'
    /\ initialized r.2
    /\ encoding_stable context r.2.
Proof.
  intros Hinit Hgrowth Hvar Hcons.
  assert (Hkey : forall v, 0 <= (encoding_key variable v).1 < variables_size context0).
  { intros v. rewrite encoding_key_variable.
    pose proof (PositiveRef_nonnegative variable). lia. }
  induction vs as [|v vs IH] using rev_ind.
  - exists created, []. simpl. rewrite !app_nil_r. split; [done|]. split; [done|].
    split; [constructor|]. split; [done|]. split; [done|]. by intros key lit H.
  - cbv zeta in IH |- *. rewrite foldl_app. cbn [foldl].
    destruct IH as (created1 & lits & Hpairs & Hcons1 & Hlits & Hgrowth1 & Hinit1 & Hstable1).
    destruct (foldl _ (pairs, context) vs) as [pairs1 context1].
    cbn [fst snd] in *.
    pose proof (encoding_growth_step context0 context1 created1 variable v
                  Hgrowth1 Hinit1 (Hkey v)) as Hstep.
    cbv zeta in Hstep.
    destruct (GetOrCreateVarValueEncoding variable v context1) as [literal context2].
    cbn [fst snd] in *.
    destruct Hstep as (created2 & Hgrowth2 & Hinit2 & Hlit & Hcons2 & Hstable2).
    rewrite Hcons1 in Hcons2.
    destruct (add_literals_last base [tuple_literal] (lits0 ++ lits) literal context0
                context2 created2 Hcons2) as (Hcons3 & Henc3 & Hinit3 & Hgrowth3).
    exists created2, (lits ++ [literal]).
    split; [by rewrite Hpairs, map_app, <- app_assoc|].
    split; [by rewrite Hcons3, <- app_assoc|].
    split.
    { rewrite Henc3. apply Forall2_app; [|by repeat constructor].
      eapply Forall2_impl; [exact Hlits|]. intros w lit H. by apply Hstable2. }
    split; [by apply Hgrowth3|]. split; [by apply Hinit3|].
    intros key lit H. rewrite Henc3. by apply Hstable2, Hstable1.
Qed.

(** The clause of a tuple: its literal implies one of its values. *)
Lemma row_clause_holds (s : assignment) (context : PresolveContext) (tuple_literal : Z)
    (vs lits : list Z) :
  Forall2 (fun v lit => encoding context !! encoding_key variable v = Some lit) vs lits ->
  encoding_holds s (encoding context) = true ->
  holds other_holds s (ConstraintProto.mk [tuple_literal] (kBoolOr lits)) = true
  <-> (literal_value s tuple_literal = true -> ref_value s variable ∈ vs).
Proof.
  intros Hlits Henc.
  change (implb (literal_value s tuple_literal && true) (existsb (literal_value s) lits) = true
          <-> (literal_value s tuple_literal = true -> ref_value s variable ∈ vs)).
  rewrite andb_true_r.
  assert (Hex : existsb (literal_value s) lits = true <-> ref_value s variable ∈ vs).
  { rewrite existsb_exists. split.
    - intros (lit & Hin & Htrue). apply list_elem_of_In, list_elem_of_lookup in Hin as [j Hj].
      destruct (Forall2_lookup_r _ _ _ _ _ Hlits Hj) as (v & Hv & Hk).
      rewrite (encoding_literal_value s context variable v lit Henc Hk) in Htrue.
      apply Z.eqb_eq in Htrue. rewrite Htrue. by apply list_elem_of_lookup_2 in Hv.
    - intros Hin. apply list_elem_of_lookup in Hin as [j Hj].
      destruct (Forall2_lookup_l _ _ _ _ _ Hlits Hj) as (lit & Hlit & Hk).
      exists lit. split; [apply list_elem_of_In; by apply list_elem_of_lookup_2 in Hlit|].
      rewrite (encoding_literal_value s context variable _ lit Henc Hk). apply Z.eqb_refl. }
  rewrite <- Hex. destruct (literal_value s tuple_literal), (existsb (literal_value s) lits);
    simpl; split; auto.
Qed.

(** The first loop of [ProcessOneCompressedColumn]. *)
Lemma compressed_column_rows (rows : list (list Z * Z)) (context : PresolveContext) :
  initialized context ->
  PositiveRef variable < variables_size context ->
  let r := foldl (compressed_column_row variable) ([], [], context) rows in
  exists created clauses,
    r.1.1 = column_pairs rows
    /\ r.1.2 = column_any rows
    /\ constraints r.2 = constraints context ++ clauses
    /\ Forall2 (row_clause_meaning other_holds variable r.2)
               (filter (fun row : list Z * Z => row.1 <> []) rows) clauses
    /\ encoding_growth context r.2 created
    /\ initialized r.2.
Proof.
  intros Hinit Hvar. induction rows as [|[vs tuple_literal] rows IH] using rev_ind.
  - exists [], []. simpl. rewrite app_nil_r. split; [done|]. split; [done|].
    split; [done|]. split; [constructor|]. split; [apply encoding_growth_refl|done].
  - cbv zeta in IH |- *. rewrite foldl_app. cbn [foldl].
    destruct IH as (created & clauses & Hpairs & Hany & Hcons & Hclauses & Hgrowth & Hinit1).
    destruct (foldl (compressed_column_row variable) ([], [], context) rows)
      as [[pairs anys] context1].
    cbn [fst snd] in *. subst pairs anys.
    unfold column_pairs, column_any. rewrite flat_map_app, !filter_app, map_app.
    fold (column_pairs rows) (column_any rows). unfold compressed_column_row.
    destruct vs as [|v vs].
    + rewrite filter_cons_True by done. rewrite filter_cons_False by (intros H; by apply H).
      rewrite !filter_nil. cbn [flat_map map app fst snd].
      exists created, clauses. rewrite !app_nil_r.
      split; [done|]. split; [done|]. split; [done|]. split; [done|]. by split.
    + rewrite filter_cons_False by done. rewrite filter_cons_True by done.
      rewrite !filter_nil. cbn [flat_map fst snd]. rewrite !app_nil_r.
      set (context2 := add_constraints (ConstraintProto.mk [tuple_literal] (kBoolOr []))
                         context1).
      pose proof (column_values_loop tuple_literal (v :: vs) context context2 created
                    (constraints context1) [] (column_pairs rows)) as Hloop.
      cbv zeta in Hloop. unfold constraints_size.
      destruct (foldl _ (column_pairs rows, context2) (v :: vs)) as [pairs3 context3].
      cbn [fst snd] in Hloop.
      destruct Hloop as (created3 & lits & Hpairs3 & Hcons3 & Hlits & Hgrowth3 & Hinit3
                         & Hstable3).
      { by apply add_constraints_initialized. }
      { by apply (encoding_growth_same context context1 _ created Hgrowth). }
      { done. }
      { unfold context2. by rewrite constraints_add_constraints. }
      exists created3, (clauses ++ [ConstraintProto.mk [tuple_literal] (kBoolOr lits)]).
      cbn [fst snd]. split; [done|]. split; [done|].
      split; [by rewrite Hcons3, Hcons, <- app_assoc|].
      split; [|by split].
      apply Forall2_app.
      * eapply Forall2_impl; [exact Hclauses|]. intros row ct H s Henc. apply H.
        apply (encoding_holds_stable s context1 context3); [|done].
        intros key lit Hk. by apply Hstable3.
      * constructor; [|constructor]. intros s Henc.
        by apply (row_clause_holds s context3).
Qed.

(** The second loop of [ProcessOneCompressedColumn]. *)
Lemma compressed_column_groups (any_values_literals : list Z) (groups : list (Z * list Z))
    (context0 context : PresolveContext) (created : list (Z * Z)) :
  initialized context ->
  encoding_growth context0 context created ->
  PositiveRef variable < variables_size context0 ->
  let context' :=
    foldl (compressed_column_no_support variable any_values_literals) context groups in
  exists created' clauses,
    constraints context' = constraints context ++ clauses
    /\ Forall2 (value_clause_meaning other_holds variable any_values_literals context') groups clauses
    /\ encoding_growth context0 context' created'
    /\ initialized context'
    /\ encoding_stable context context'.
Proof.
  intros Hinit Hgrowth Hvar.
  assert (Hkey : forall v, 0 <= (encoding_key variable v).1 < variables_size context0).
  { intros v. rewrite encoding_key_variable.
    pose proof (PositiveRef_nonnegative variable). lia. }
  induction groups as [|[value selected] groups IH] using rev_ind.
  - exists created, []. simpl. rewrite app_nil_r. split; [done|]. split; [constructor|].
    split; [done|]. split; [done|]. by intros key lit H.
  - cbv zeta in IH |- *. rewrite foldl_app. cbn [foldl].
    destruct IH as (created1 & clauses & Hcons1 & Hclauses & Hgrowth1 & Hinit1 & Hstable1).
    set (context1 := foldl _ context groups) in *.
    unfold compressed_column_no_support, constraints_size.
    set (context2 := add_constraints (plain (kBoolOr (selected ++ any_values_literals)))
                       context1).
    pose proof (encoding_growth_step context0 context2 created1 variable value) as Hstep.
    cbv zeta in Hstep.
    destruct (GetOrCreateVarValueEncoding variable value context2)
      as [value_literal context3].
    cbn [fst snd] in Hstep.
    destruct Hstep as (created3 & Hgrowth3 & Hinit3 & Hlit & Hcons3 & Hstable3).
    { by apply (encoding_growth_same context0 context1 _ created1 Hgrowth1). }
    { by apply add_constraints_initialized. }
    { done. }
    unfold context2 in Hcons3. rewrite constraints_add_constraints in Hcons3.
    destruct (add_literals_last (constraints context1) [] (selected ++ any_values_literals)
                (NegatedRef value_literal) context0 context3 created3 Hcons3)
      as (Hcons4 & Henc4 & Hinit4 & Hgrowth4).
    set (context4 := add_literals (length (constraints context1)) (NegatedRef value_literal)
                       context3) in *.
    assert (Hstable4 : encoding_stable context1 context4).
    { intros key lit Hk. rewrite Henc4. by apply Hstable3. }
    eexists created3, (clauses ++ [_]).
    split; [by rewrite Hcons4, Hcons1, <- app_assoc|].
    split.
    { apply Forall2_app.
      - eapply Forall2_impl; [exact Hclauses|]. intros group ct H s Henc. apply H.
        by apply (encoding_holds_stable s context1 context4).
      - constructor; [|constructor]. intros s Henc. cbn [fst snd].
        change (existsb (literal_value s)
                  ((selected ++ any_values_literals) ++ [NegatedRef value_literal]) = true
                <-> (ref_value s variable = value ->
                     exists l, l ∈ selected ++ any_values_literals
                               /\ literal_value s l = true)).
        rewrite existsb_app. cbn [existsb]. rewrite orb_false_r, literal_value_NegatedRef.
        rewrite (encoding_literal_value s context4 variable value value_literal Henc)
          by (unfold HasVarValueEncoding; by rewrite Henc4).
        rewrite orb_true_iff, existsb_exists, negb_true_iff, Z.eqb_neq. split.
        + intros [(l & Hin & Hl)|Hne] Hvalue; [|done]. exists l.
          by rewrite list_elem_of_In.
        + intros H. destruct (decide (ref_value s variable = value)) as [Heq|?]; [|by right].
          left. destruct (H Heq) as (l & Hin & Hl). exists l. by rewrite <- list_elem_of_In. }
    split; [by apply Hgrowth4|]. split; [by apply Hinit4|].
    by apply (encoding_stable_trans _ context1).
Qed.

End CompressedColumn.

Lemma elem_of_column_pairs (rows : list (list Z * Z)) (v l : Z) :
  (v, l) ∈ column_pairs rows <-> exists vs, (vs, l) ∈ rows /\ v ∈ vs.
Proof.
  unfold column_pairs. rewrite list_elem_of_In, in_flat_map. split.
  - intros ([vs lit] & Hrow & Hin). apply in_map_iff in Hin as (w & [= -> ->] & Hw).
    exists vs. by rewrite !list_elem_of_In.
  - intros (vs & Hrow & Hv). exists (vs, l). rewrite <- list_elem_of_In. split; [done|].
    apply in_map_iff. exists v. by rewrite <- list_elem_of_In.
Qed.

Lemma elem_of_column_any (rows : list (list Z * Z)) (l : Z) :
  l ∈ column_any rows <-> ([], l) ∈ rows.
Proof.
  unfold column_any. rewrite list_elem_of_fmap. split.
  - intros ([vs lit] & -> & [Hnil Hin]%list_elem_of_filter). simpl in *. by subst vs.
  - intros Hin. exists ([], l). split; [done|]. by apply list_elem_of_filter.
Qed.

Lemma elem_of_selected (pairs : list (Z * Z)) (v l : Z) :
  l ∈ map snd (filter (fun p : Z * Z => p.1 = v) pairs) <-> (v, l) ∈ pairs.
Proof.
  rewrite list_elem_of_fmap. split.
  - intros ([w l'] & -> & [Hw Hin]%list_elem_of_filter). simpl in *. by subst w.
  - intros Hin. exists (v, l). split; [done|]. by apply list_elem_of_filter.
Qed.

Section CompressedColumnMeaning.

Variable other_holds : assignment -> Constraint -> bool.

(** [ProcessOneCompressedColumn] adds constraints that hold exactly when
    the literal of every tuple with a list of values implies that the
    variable has one of them, and when the variable, if its value is listed
    by a tuple, has a tuple with a true literal that lists this value or
    allows any value. *)
Theorem ProcessOneCompressedColumn_meaning (variable : Z) (tuple_literals : list Z)
    (values : list (list Z)) (context : PresolveContext) :
  initialized context ->
  PositiveRef variable < variables_size context ->
  length tuple_literals = length values ->
  let rows := zip values tuple_literals in
  let context' := ProcessOneCompressedColumn variable tuple_literals values context in
  exists created news,
    encoding_growth context context' created
    /\ constraints context' = constraints context ++ news
    /\ forall s,
         encoding_holds s (encoding context') = true ->
         (forallb (holds other_holds s) news = true
          <-> (forall vs lit, (vs, lit) ∈ rows -> vs <> [] ->
                 literal_value s lit = true -> ref_value s variable ∈ vs)
              /\ ((exists vs lit, (vs, lit) ∈ rows /\ ref_value s variable ∈ vs) ->
                  exists vs lit,
                    (vs, lit) ∈ rows /\ (vs = [] \/ ref_value s variable ∈ vs)
                    /\ literal_value s lit = true)).
Proof.
  intros Hinit Hvar _ rows context'. unfold ProcessOneCompressedColumn in context'.
  fold rows in context'.
  pose proof (compressed_column_rows other_holds variable rows context Hinit Hvar) as Hrows.
  cbv zeta in Hrows.
  destruct (foldl (compressed_column_row variable) ([], [], context) rows)
    as [[pairs anys] context1].
  cbn [fst snd] in Hrows.
  destruct Hrows as (created1 & clauses1 & -> & -> & Hcons1 & Hclauses1 & Hgrowth1 & Hinit1).
  set (sorted := merge_sort pair_le (column_pairs rows)) in *.
  pose proof (compressed_column_groups other_holds variable (column_any rows)
                (group_by_value sorted) context context1 created1 Hinit1 Hgrowth1 Hvar)
    as Hgroups.
  cbv zeta in Hgroups. fold context' in Hgroups.
  destruct Hgroups as (created & clauses2 & Hcons2 & Hclauses2 & Hgrowth & _ & Hstable).
  exists created, (clauses1 ++ clauses2).
  split; [done|]. split; [by rewrite Hcons2, Hcons1, <- app_assoc|].
  intros s Henc.
  pose proof (encoding_holds_stable s context1 context' Hstable Henc) as Henc1.
  destruct (group_by_value_sorted sorted (StronglySorted_merge_sort pair_le _))
    as (_ & Hsel & _).
  assert (Hsorted : forall p, p ∈ sorted <-> p ∈ column_pairs rows).
  { intros p. unfold sorted. by rewrite merge_sort_Permutation. }
  set (a := ref_value s variable).
  rewrite forallb_app, andb_true_iff, !forallb_forall.
  assert (H1 : (forall ct, In ct clauses1 -> holds other_holds s ct = true)
               <-> (forall vs lit, (vs, lit) ∈ rows -> vs <> [] ->
                      literal_value s lit = true -> a ∈ vs)).
  { split.
    - intros Hall vs lit Hrow Hne Hlit.
      assert (Hin : (vs, lit) ∈ filter (fun row : list Z * Z => row.1 <> []) rows)
        by (by apply list_elem_of_filter).
      apply list_elem_of_lookup in Hin as [j Hj].
      destruct (Forall2_lookup_l _ _ _ _ _ Hclauses1 Hj) as (ct & Hct & Hmeaning).
      apply (Hmeaning s Henc1); [|done].
      apply Hall, list_elem_of_In. by apply list_elem_of_lookup_2 in Hct.
    - intros Hall ct Hin. apply list_elem_of_In, list_elem_of_lookup in Hin as [j Hj].
      destruct (Forall2_lookup_r _ _ _ _ _ Hclauses1 Hj) as ([vs lit] & Hrow & Hmeaning).
      apply (Hmeaning s Henc1). cbn [fst snd].
      apply list_elem_of_lookup_2, list_elem_of_filter in Hrow as [Hne Hrow].
      by apply Hall. }
  assert (H2 : (forall ct, In ct clauses2 -> holds other_holds s ct = true)
               <-> ((exists vs lit, (vs, lit) ∈ rows /\ a ∈ vs) ->
                    exists vs lit,
                      (vs, lit) ∈ rows /\ (vs = [] \/ a ∈ vs)
                      /\ literal_value s lit = true)).
  { split.
    - intros Hall (vs & lit & Hrow & Ha).
      assert (Hpair : (a, lit) ∈ sorted)
        by (apply Hsorted, elem_of_column_pairs; by exists vs).
      destruct (group_by_value_complete sorted _ Hpair) as [sel Hgroup]. simpl in Hgroup.
      destruct (Hsel _ _ Hgroup) as [Hseleq _].
      apply list_elem_of_lookup in Hgroup as [j Hj].
      destruct (Forall2_lookup_l _ _ _ _ _ Hclauses2 Hj) as (ct & Hct & Hmeaning).
      destruct (proj1 (Hmeaning s Henc)) as (l & Hl & Htrue); [| done |].
      { apply Hall, list_elem_of_In. by apply list_elem_of_lookup_2 in Hct. }
      cbn [fst snd] in Hl. apply elem_of_app in Hl as [Hl|Hl].
      + rewrite Hseleq in Hl. apply elem_of_selected, Hsorted, elem_of_column_pairs in Hl
          as (vs' & Hrow' & Ha').
        exists vs', l. split; [done|]. split; [by right|done].
      + apply elem_of_column_any in Hl. exists [], l. split; [done|]. split; [by left|done].
    - intros Hall ct Hin. apply list_elem_of_In, list_elem_of_lookup in Hin as [j Hj].
      destruct (Forall2_lookup_r _ _ _ _ _ Hclauses2 Hj) as ([v sel] & Hgroup & Hmeaning).
      apply (Hmeaning s Henc). cbn [fst snd]. intros Hv. fold a in Hv.
      apply list_elem_of_lookup_2 in Hgroup. destruct (Hsel _ _ Hgroup) as [Hseleq Hne].
      destruct sel as [|l0 sel0] eqn:Esel; [done|]. rewrite <- Esel in *. clear Hne.
      assert (Hl0 : l0 ∈ sel) by (rewrite Esel; apply list_elem_of_here).
      rewrite Hseleq in Hl0.
      apply elem_of_selected, Hsorted, elem_of_column_pairs in Hl0 as (vs0 & Hrow0 & Hv0).
      destruct Hall as (vs' & lit' & Hrow' & Hallowed & Htrue).
      { exists vs0, l0. split; [done|]. by rewrite Hv. }
      exists lit'. split; [|done]. apply elem_of_app. destruct Hallowed as [->|Ha'].
      + right. by apply elem_of_column_any.
      + left. rewrite Hseleq. apply elem_of_selected, Hsorted, elem_of_column_pairs.
        exists vs'. split; [done|]. by rewrite <- Hv. }
  by rewrite H1, H2.
Qed.

End CompressedColumnMeaning.

Lemma ProcessOneCompressedColumn_meaning_witness :
  exists created news,
    encoding_growth column_context
      (ProcessOneCompressedColumn 0 [1; 2; 3] [[0; 1]; []; [1]] column_context) created
    /\ constraints (ProcessOneCompressedColumn 0 [1; 2; 3] [[0; 1]; []; [1]] column_context)
       = constraints column_context ++ news
    /\ forall s,
         encoding_holds s
           (encoding (ProcessOneCompressedColumn 0 [1; 2; 3] [[0; 1]; []; [1]] column_context))
         = true ->
         (forallb (holds no_other_constraint s) news = true
          <-> (forall vs lit, (vs, lit) ∈ zip [[0; 1]; []; [1]] [1; 2; 3] -> vs <> [] ->
                 literal_value s lit = true -> ref_value s 0 ∈ vs)
              /\ ((exists vs lit, (vs, lit) ∈ zip [[0; 1]; []; [1]] [1; 2; 3]
                                  /\ ref_value s 0 ∈ vs) ->
                  exists vs lit,
                    (vs, lit) ∈ zip [[0; 1]; []; [1]] [1; 2; 3]
                    /\ (vs = [] \/ ref_value s 0 ∈ vs)
                    /\ literal_value s lit = true)).
Proof.
  apply (ProcessOneCompressedColumn_meaning no_other_constraint 0 [1; 2; 3]
           [[0; 1]; []; [1]] column_context).
  - reflexivity.
  - vm_compute. reflexivity.
  - reflexivity.
Defined.

(** * Tables that are not negated *)

Lemma DomainContains_DomainOf (context : PresolveContext) (ref value : Z) :
  DomainContains context ref value = Domain.Contains (DomainOf context ref) value.
Proof.
  unfold DomainContains, DomainOf. destruct (RefIsPositive ref); [done|].
  by rewrite DomainFacts.Contains_Negation.
Qed.

(** What [IntersectDomainWith] changes. *)
Lemma IntersectDomainWith_spec (ref : Z) (d : Domain.t) (context : PresolveContext) :
  let r := IntersectDomainWith ref d context in
  let new :=
    Domain.IntersectionWith (domain_of_var context (PositiveRef ref))
      (if RefIsPositive ref then d else Domain.Negation d) in
  domains r.2 = <[Z.to_nat (PositiveRef ref) := new]> (domains context)
  /\ variables r.2 = variables context
  /\ constraints r.2 = constraints context
  /\ encoding r.2 = encoding context
  /\ equalities r.2 = equalities context
  /\ params r.2 = params context
  /\ (r.1.1 = true -> is_unsat r.2 = is_unsat context)
  /\ (r.1.1 = false -> new = []).
Proof.
  pose proof (PositiveRef_nonnegative ref) as Hnonneg.
  unfold IntersectDomainWith. cbv zeta.
  set (old := domain_of_var context (PositiveRef ref)).
  set (new := Domain.IntersectionWith old _).
  destruct (decide (new = old)) as [Heq|Hne].
  - cbn [fst snd]. split; [|by repeat split].
    rewrite Heq. unfold old, domain_of_var.
    destruct (Z.leb_spec 0 (PositiveRef ref)); [|lia].
    destruct (domains context !! Z.to_nat (PositiveRef ref)) as [d0|] eqn:E; simpl.
    + symmetry. by apply list_insert_id.
    + symmetry. apply list_insert_ge. by apply lookup_ge_None.
  - destruct (Domain.IsEmpty new) eqn:Hempty; cbn [fst snd].
    + split; [done|]. split; [done|]. split; [done|]. split; [done|]. split; [done|].
      split; [done|]. split; [done|]. intros _. by destruct new.
    + by repeat split.
Qed.

Lemma domain_of_var_lookup (context : PresolveContext) (i : nat) (d : Domain.t) :
  domains context !! i = Some d -> domain_of_var context (Z.of_nat i) = d.
Proof.
  intros H. unfold domain_of_var. destruct (Z.leb_spec 0 (Z.of_nat i)); [|lia].
  by rewrite Nat2Z.id, H.
Qed.

(** The value of a reference is in the domain of the reference when the
    value of its variable is in the domain of the variable. *)
Lemma Contains_ref_value (s : assignment) (ref : Z) (d : Domain.t) :
  Domain.Contains (if RefIsPositive ref then d else Domain.Negation d)
    (s (PositiveRef ref))
  = Domain.Contains d (ref_value s ref).
Proof.
  unfold ref_value. destruct (RefIsPositive ref) eqn:E.
  - by rewrite (PositiveRef_positive ref E).
  - by rewrite DomainFacts.Contains_Negation.
Qed.

(** A solution whose value is kept stays within the domains. *)
Lemma IntersectDomainWith_domains_hold (s : assignment) (ref : Z) (d : Domain.t)
    (context : PresolveContext) :
  domains_hold s (domains context) = true ->
  Domain.Contains d (ref_value s ref) = true ->
  domains_hold s (domains (IntersectDomainWith ref d context).2) = true.
Proof.
  intros Hdom Hd. pose proof (PositiveRef_nonnegative ref) as Hnonneg.
  destruct (IntersectDomainWith_spec ref d context) as (Hdomains & _).
  cbv zeta in Hdomains. rewrite Hdomains. apply domains_hold_spec. intros i d' Hi.
  apply list_lookup_insert_Some in Hi as [(<- & <- & Hlt)|[Hne Hi]].
  - rewrite Z2Nat.id by lia. rewrite DomainFacts.Contains_IntersectionWith.
    rewrite Contains_ref_value, Hd, andb_true_r.
    destruct (lookup_lt_is_Some_2 _ _ Hlt) as [d0 Hd0].
    pose proof (proj1 (domains_hold_spec _ _) Hdom _ _ Hd0) as Hin.
    rewrite Z2Nat.id in Hin by lia.
    apply domain_of_var_lookup in Hd0. rewrite Z2Nat.id in Hd0 by lia. by rewrite Hd0.
  - by apply (proj1 (domains_hold_spec _ _) Hdom).
Qed.

(** The domains after [IntersectDomainWith] are within the domains
    before. *)
Lemma IntersectDomainWith_domains_shrink (ref : Z) (d : Domain.t)
    (context : PresolveContext) (i : nat) (d0 : Domain.t) :
  domains context !! i = Some d0 ->
  exists d', domains (IntersectDomainWith ref d context).2 !! i = Some d'
             /\ forall v, Domain.Contains d' v = true -> Domain.Contains d0 v = true.
Proof.
  intros Hi. pose proof (PositiveRef_nonnegative ref) as Hnonneg.
  destruct (IntersectDomainWith_spec ref d context) as (Hdomains & _).
  cbv zeta in Hdomains. rewrite Hdomains.
  destruct (decide (Z.to_nat (PositiveRef ref) = i)) as [<-|Hne].
  - eexists. split; [apply list_lookup_insert_eq; by apply lookup_lt_Some in Hi|].
    intros v. rewrite DomainFacts.Contains_IntersectionWith, andb_true_iff. intros [Hv _].
    apply domain_of_var_lookup in Hi. rewrite Z2Nat.id in Hi by lia. by rewrite <- Hi.
  - exists d0. split; [|done]. by rewrite list_lookup_insert_ne.
Qed.

Lemma IntersectDomainWith_sorted (ref : Z) (d : Domain.t) (context : PresolveContext) :
  forallb sorted_intervals (domains context) = true ->
  forallb sorted_intervals (domains (IntersectDomainWith ref d context).2) = true.
Proof.
  intros Hsorted. destruct (IntersectDomainWith_spec ref d context) as (Hdomains & _).
  cbv zeta in Hdomains. rewrite Hdomains. rewrite forallb_forall in Hsorted |- *.
  intros d' Hin. apply list_elem_of_In, list_elem_of_lookup in Hin as [i Hi].
  apply list_lookup_insert_Some in Hi as [(_ & <- & _)|[_ Hi]].
  - apply valid_sorted, DomainFacts.valid_IntersectionWith.
  - apply Hsorted, list_elem_of_In. by apply list_elem_of_lookup_2 in Hi.
Qed.

(** The domain of another variable does not change. *)
Lemma IntersectDomainWith_other (ref ref' : Z) (d : Domain.t) (context : PresolveContext) :
  PositiveRef ref' <> PositiveRef ref ->
  DomainOf (IntersectDomainWith ref d context).2 ref' = DomainOf context ref'.
Proof.
  intros Hne. pose proof (PositiveRef_nonnegative ref) as Hnonneg.
  pose proof (PositiveRef_nonnegative ref') as Hnonneg'.
  destruct (IntersectDomainWith_spec ref d context) as (Hdomains & _).
  cbv zeta in Hdomains.
  assert (Hvar : domain_of_var (IntersectDomainWith ref d context).2 (PositiveRef ref')
                 = domain_of_var context (PositiveRef ref')).
  { unfold domain_of_var. rewrite Hdomains.
    destruct (Z.leb_spec 0 (PositiveRef ref')); [|done].
    rewrite list_lookup_insert_ne; [done|]. lia. }
  unfold DomainOf. destruct (RefIsPositive ref') eqn:E; [|by rewrite Hvar].
  by rewrite <- (PositiveRef_positive ref' E).
Qed.

(** [IntersectDomainWith] succeeds when a value is kept. *)
Lemma IntersectDomainWith_ok (ref : Z) (d : Domain.t) (context : PresolveContext) (v : Z) :
  Domain.Contains (DomainOf context ref) v = true ->
  Domain.Contains d v = true ->
  (IntersectDomainWith ref d context).1.1 = true.
Proof.
  intros Hv Hd.
  pose proof (IntersectDomainWith_Contains ref d context v) as Hkept.
  rewrite Hv, Hd in Hkept. simpl in Hkept.
  destruct (IntersectDomainWith_spec ref d context) as (Hdomains & _ & _ & _ & _ & _ & _ & Hno).
  cbv zeta in Hdomains, Hno.
  destruct (IntersectDomainWith ref d context) as [[ok changed] context1] eqn:E.
  cbn [fst snd] in *. destruct ok; [done|]. exfalso.
  specialize (Hno eq_refl). rewrite Hno in Hdomains.
  pose proof (PositiveRef_nonnegative ref) as Hnonneg.
  assert (Hin : Domain.Contains (domain_of_var context1 (PositiveRef ref))
                  (if RefIsPositive ref then v else - v) = true).
  { unfold DomainOf in Hkept. destruct (RefIsPositive ref) eqn:Hpos.
    - by rewrite (PositiveRef_positive ref Hpos).
    - by rewrite DomainFacts.Contains_Negation in Hkept. }
  unfold domain_of_var in Hin. rewrite Hdomains in Hin.
  destruct (Z.leb_spec 0 (PositiveRef ref)); [|lia].
  destruct (decide (Z.to_nat (PositiveRef ref) < length (domains context))%nat) as [Hlt|Hge].
  - by rewrite list_lookup_insert_eq in Hin.
  - rewrite list_insert_ge in Hin by lia. rewrite lookup_ge_None_2 in Hin by lia. done.
Qed.

Lemma column_values_snoc (tuples : list (list Z)) (tuple : list Z) (var_index : nat) :
  column_values (tuples ++ [tuple]) var_index
  = column_values tuples var_index ∪ {[ref_at tuple var_index]}.
Proof.
  unfold column_values. rewrite map_app, list_to_set_app_L. simpl.
  by rewrite union_empty_r_L.
Qed.

(** The loop that removes the invalid tuples: the tuples kept and the sets
    of the values of their columns. *)
Lemma collect_loop (context : PresolveContext) (vars : list Z) (tuples : list (list Z)) :
  foldl (collect_tuple context vars) (replicate (length vars) ∅, []) tuples
  = (map (column_values (kept_tuples context vars tuples)) (seq 0 (length vars)),
     kept_tuples context vars tuples).
Proof.
  induction tuples as [|tuple tuples IH] using rev_ind.
  - simpl. f_equal. unfold kept_tuples. rewrite filter_nil.
    generalize 0%nat. induction (length vars) as [|n IHn]; intros start; [done|].
    simpl. by rewrite <- IHn.
  - rewrite foldl_app, IH. cbn [foldl]. unfold collect_tuple, kept_tuples.
    rewrite filter_app. fold (kept_tuples context vars tuples).
    destruct (keep_tuple context vars tuple) eqn:Hkeep.
    + rewrite filter_cons_True by done. rewrite filter_nil. f_equal.
      apply list_eq. intros j. rewrite list_lookup_imap, !list_lookup_fmap.
      destruct (seq 0 (length vars) !! j) as [k|] eqn:Hj; [|done]. simpl.
      apply lookup_seq in Hj as [-> _]. simpl. by rewrite column_values_snoc.
    + rewrite filter_cons_False by (by rewrite Hkeep). rewrite filter_nil.
      by rewrite app_nil_r.
Qed.

Lemma keep_tuple_two (context : PresolveContext) (x y : Z) (tuple : list Z) :
  keep_tuple context [x; y] tuple
  = Domain.Contains (DomainOf context x) (ref_at tuple 0)
    && Domain.Contains (DomainOf context y) (ref_at tuple 1).
Proof.
  unfold keep_tuple. simpl. by rewrite !DomainContains_DomainOf, andb_true_r.
Qed.

(** The tuples of a table have as many values as the table has
    variables. *)
Lemma length_table_tuples (table : TableConstraintProto.t) (tuple : list Z) :
  tuple ∈ table_tuples table -> length tuple = length (TableConstraintProto.vars table).
Proof.
  unfold table_tuples. intros Hin. apply list_elem_of_fmap in Hin as (i & -> & Hi).
  apply elem_of_seq in Hi. rewrite length_take, length_drop.
  set (n := length (TableConstraintProto.vars table)) in *.
  set (m := length (TableConstraintProto.values table)) in *.
  destruct n as [|n]; [done|].
  assert (S n * (m / S n) <= m)%nat by (apply Nat.Div0.mul_div_le).
  nia.
Qed.

Lemma tuple_pair_inj (t t' : list Z) :
  length t = 2%nat -> length t' = 2%nat -> tuple_pair t = tuple_pair t' -> t = t'.
Proof.
  destruct t as [|a [|b [|? ?]]]; try done. destruct t' as [|a' [|b' [|? ?]]]; try done.
  unfold tuple_pair, ref_at. simpl. by intros _ _ [= -> ->].
Qed.

(** The loop that updates the domains, for two distinct variables whose
    columns [V0] and [V1] are not empty and within their domains: the
    [CHECK] passes, and the domains of the two variables become the two
    columns. *)
Lemma reduce_domain_two (x y : Z) (V0 V1 : gset Z) (context : PresolveContext) :
  PositiveRef x <> PositiveRef y ->
  (forall v, v ∈ V0 -> Domain.Contains (DomainOf context x) v = true) ->
  (forall v, v ∈ V1 -> Domain.Contains (DomainOf context y) v = true) ->
  (exists v, v ∈ V0) -> (exists v, v ∈ V1) ->
  exists context2,
    foldl (reduce_domain [x; y] [V0; V1]) (Some (O, context)) (seq 0 2)
    = Some ((if Domain.IsFixed (DomainOf context2 x) then 1 else 0)
            + (if Domain.IsFixed (DomainOf context2 y) then 1 else 0), context2)%nat
    /\ (forall v, Domain.Contains (DomainOf context2 x) v = true <-> v ∈ V0)
    /\ (forall v, Domain.Contains (DomainOf context2 y) v = true <-> v ∈ V1)
    /\ variables context2 = variables context
    /\ constraints context2 = constraints context
    /\ encoding context2 = encoding context
    /\ equalities context2 = equalities context
    /\ params context2 = params context
    /\ is_unsat context2 = is_unsat context
    /\ length (domains context2) = length (domains context)
    /\ (forallb sorted_intervals (domains context) = true ->
        forallb sorted_intervals (domains context2) = true)
    /\ (forall s, domains_hold s (domains context) = true ->
          ref_value s x ∈ V0 -> ref_value s y ∈ V1 ->
          domains_hold s (domains context2) = true)
    /\ (forall i d0, domains context !! i = Some d0 ->
          exists d', domains context2 !! i = Some d'
                     /\ forall v, Domain.Contains d' v = true -> Domain.Contains d0 v = true).
Proof.
  intros Hxy Hsub0 Hsub1 [v0 Hv0] [v1 Hv1].
  set (d0 := Domain.FromValues (elements V0)). set (d1 := Domain.FromValues (elements V1)).
  assert (Hd0 : forall v, Domain.Contains d0 v = true <-> v ∈ V0).
  { intros v. unfold d0. by rewrite DomainFacts.Contains_FromValues, elem_of_elements. }
  assert (Hd1 : forall v, Domain.Contains d1 v = true <-> v ∈ V1).
  { intros v. unfold d1. by rewrite DomainFacts.Contains_FromValues, elem_of_elements. }
  assert (Hstep : forall (ref : Z) (V : gset Z) (i n : nat) (ctx : PresolveContext),
             [x; y] !! i = Some ref -> [V0; V1] !! i = Some V ->
             reduce_domain [x; y] [V0; V1] (Some (n, ctx)) i
             = let r := IntersectDomainWith ref (Domain.FromValues (elements V)) ctx in
               if r.1.1
               then Some (if Domain.IsFixed (DomainOf r.2 ref) then S n else n, r.2)
               else None).
  { intros ref V i n ctx Href HV. unfold reduce_domain, ref_at, set_at.
    rewrite Href, HV. simpl.
    by destruct (IntersectDomainWith ref (Domain.FromValues (elements V)) ctx)
      as [[ok changed] ctx']. }
  cbn [seq foldl]. rewrite (Hstep x V0 0%nat) by done. cbv zeta. fold d0.
  pose proof (IntersectDomainWith_ok x d0 context v0 (Hsub0 _ Hv0) (proj2 (Hd0 _) Hv0)) as Hok1.
  pose proof (IntersectDomainWith_spec x d0 context) as Hspec1. cbv zeta in Hspec1.
  pose proof (fun v => IntersectDomainWith_Contains x d0 context v) as Hin1.
  pose proof (IntersectDomainWith_other x y d0 context) as Hother1.
  pose proof (IntersectDomainWith_sorted x d0 context) as Hsorted1.
  pose proof (fun s => IntersectDomainWith_domains_hold s x d0 context) as Hhold1.
  pose proof (IntersectDomainWith_domains_shrink x d0 context) as Hshrink1.
  pose proof (IntersectDomainWith_length_domains x d0 context) as Hlen1.
  rewrite Hok1.
  set (context1 := (IntersectDomainWith x d0 context).2) in *.
  destruct Hspec1 as (_ & Hv1' & Hc1 & He1 & Hq1 & Hp1 & Hu1 & _).
  specialize (Hu1 Hok1). specialize (Hother1 ltac:(congruence)).
  assert (Hy1 : Domain.Contains (DomainOf context1 y) v1 = true)
    by (rewrite Hother1; by apply Hsub1).
  rewrite (Hstep y V1 1%nat) by done. cbv zeta. fold d1.
  pose proof (IntersectDomainWith_ok y d1 context1 v1 Hy1 (proj2 (Hd1 _) Hv1)) as Hok2.
  pose proof (IntersectDomainWith_spec y d1 context1) as Hspec2. cbv zeta in Hspec2.
  pose proof (fun v => IntersectDomainWith_Contains y d1 context1 v) as Hin2.
  pose proof (IntersectDomainWith_other y x d1 context1 Hxy) as Hother2.
  pose proof (IntersectDomainWith_sorted y d1 context1) as Hsorted2.
  pose proof (fun s => IntersectDomainWith_domains_hold s y d1 context1) as Hhold2.
  pose proof (IntersectDomainWith_domains_shrink y d1 context1) as Hshrink2.
  pose proof (IntersectDomainWith_length_domains y d1 context1) as Hlen2.
  rewrite Hok2.
  set (context2 := (IntersectDomainWith y d1 context1).2) in *.
  destruct Hspec2 as (_ & Hv2 & Hc2 & He2 & Hq2 & Hp2 & Hu2 & _).
  specialize (Hu2 Hok2).
  exists context2. rewrite Hother2.
  split.
  { destruct (Domain.IsFixed (DomainOf context1 x)),
      (Domain.IsFixed (DomainOf context2 y)); reflexivity. }
  split.
  { intros v. rewrite Hin1, andb_true_iff, Hd0. split; [tauto|]. intros Hv. split; auto. }
  split.
  { intros v. rewrite Hin2, Hother1, andb_true_iff, Hd1. split; [tauto|].
    intros Hv. split; auto. }
  split; [congruence|]. split; [congruence|]. split; [congruence|]. split; [congruence|].
  split; [congruence|]. split; [congruence|]. split; [congruence|].
  split; [auto|].
  split.
  { intros s Hdom Hx Hy. apply Hhold2; [|by apply Hd1]. apply Hhold1; [done|by apply Hd0]. }
  intros i dom Hi. destruct (Hshrink1 i dom Hi) as (dom1 & Hi1 & Hsub).
  destruct (Hshrink2 i dom1 Hi1) as (dom2 & Hi2 & Hsub').
  exists dom2. split; [done|]. auto.
Qed.

(** The values of the created literals are Boolean. *)
Lemma encoding_growth_domains_hold (context context' : PresolveContext)
    (created : list (Z * Z)) (s : assignment) :
  encoding_growth context context' created ->
  initialized context ->
  domains_hold s (domains context) = true ->
  domains_hold (override s (variables_size context) (created_values s created))
    (domains context') = true.
Proof.
  intros (Hd & _) Hinit Hdom.
  pose proof (initialized_size context Hinit) as Hlen.
  pose proof (override_agree s (variables_size context) (created_values s created)) as Hagree.
  apply domains_hold_spec. intros i d. rewrite Hd. intros Hi.
  apply lookup_app_Some in Hi as [Hi | [Hge Hi]].
  - rewrite <- Hagree by (apply lookup_lt_Some in Hi; lia).
    by apply (proj1 (domains_hold_spec _ _) Hdom i).
  - apply lookup_replicate in Hi as [-> Hlt].
    destruct (lookup_lt_is_Some_2 created (i - length (domains context)) Hlt) as [key Hkey].
    replace (Z.of_nat i)
      with (variables_size context + Z.of_nat (i - length (domains context))) by lia.
    rewrite (override_new _ _ _ _ _ (lookup_created_values s _ _ _ Hkey)).
    by destruct (s key.1 =? key.2).
Qed.

Section PositiveTableSolutions.

Variable other_holds : assignment -> Constraint -> bool.
Variable ReduceTableInPresenceOfUniqueVariableWithCosts :
  list Z -> list (list Z) -> PresolveContext ->
  bool * list Z * list (list Z) * PresolveContext.
Variable CompressAndExpandPositiveTable :
  bool -> list Z -> list (list Z) -> PresolveContext -> PresolveContext.

Lemma positive_table_two_variables (c : nat) (context : PresolveContext)
    (table : TableConstraintProto.t) (x y : Z) :
  well_formed_input other_holds context c (plain (kTable table)) ->
  forallb sorted_intervals (domains context) = true ->
  TableConstraintProto.vars table = [x; y] ->
  PositiveRef x <> PositiveRef y ->
  NoDup (table_tuples table) ->
  SatParameters.detect_table_with_cost (params context) = false ->
  TableConstraintProto.negated table = false ->
  (forall s, other_holds s (kTable table) = table_holds s table) ->
  exists context',
    ExpandPositiveTable ReduceTableInPresenceOfUniqueVariableWithCosts
      CompressAndExpandPositiveTable c context = Some context'
    /\ preserves_solutions other_holds context context'
    /\ determines_new_variables other_holds context context'.
Proof.
  intros (Hc & Hinit & Hclosed & Hbelow & Hrefs) Hsorted Hvars Hxy Hnodup Hdetect Hneg Hsem.
  set (n := variables_size context) in *.
  pose proof (initialized_size context Hinit) as Hsize. fold n in Hsize.
  assert (Hx : PositiveRef x < n /\ PositiveRef y < n).
  { unfold refs_below, UsedVariables in Hrefs. simpl in Hrefs. rewrite Hvars in Hrefs.
    simpl in Hrefs. rewrite !andb_true_iff in Hrefs. destruct Hrefs as (H1 & H2 & _).
    apply Z.ltb_lt in H1, H2. done. }
  destruct Hx as [Hx Hy].
  remember (kept_tuples context [x; y] (table_tuples table)) as kept eqn:Ekept.
  set (V0 := column_values kept 0). set (V1 := column_values kept 1).
  (* the tuples kept *)
  assert (Hkept : forall t, t ∈ kept <->
             t ∈ table_tuples table
             /\ Domain.Contains (DomainOf context x) (ref_at t 0) = true
             /\ Domain.Contains (DomainOf context y) (ref_at t 1) = true).
  { intros t. rewrite Ekept. unfold kept_tuples.
    rewrite list_elem_of_filter, keep_tuple_two.
    rewrite andb_true_iff. tauto. }
  assert (Hlen2 : forall t, t ∈ kept -> length t = 2%nat).
  { intros t Ht%Hkept. destruct Ht as [Ht _]. apply length_table_tuples in Ht.
    by rewrite Hvars in Ht. }
  assert (Hpair : forall a b, (a, b) ∈ map tuple_pair kept <-> [a; b] ∈ kept).
  { intros a b. rewrite list_elem_of_fmap. split.
    - intros (t & Ht & Hin). pose proof (Hlen2 t Hin) as Hl.
      destruct t as [|a' [|b' [|? ?]]]; try done.
      unfold tuple_pair, ref_at in Ht. simpl in Ht. by injection Ht as -> ->.
    - intros Hin. by exists [a; b]. }
  assert (Hsolution : forall s, solution other_holds s context = true ->
             [ref_value s x; ref_value s y] ∈ kept).
  { intros s Hs. apply solution_spec in Hs as (_ & Hdom & Hcons & _).
    apply Hkept. split; [|split].
    - specialize (Hcons _ (list_elem_of_lookup_2 _ _ _ Hc)).
      change (other_holds s (kTable table) = true) in Hcons.
      rewrite Hsem in Hcons. unfold table_holds in Hcons. rewrite Hneg, Hvars in Hcons.
      simpl in Hcons. by apply bool_decide_eq_true in Hcons.
    - apply DomainOf_holds; [done|lia].
    - apply DomainOf_holds; [done|lia]. }
  assert (Hat : table_of (constraint_at c context) = table)
    by (unfold constraint_at; by rewrite Hc).
  assert (Hnodup2 : NoDup (map tuple_pair kept)).
  { apply NoDup_fmap_2_strong.
    - intros t t' Ht Ht'. apply tuple_pair_inj; by apply Hlen2.
    - rewrite Ekept. unfold kept_tuples. by apply NoDup_filter. }
  unfold ExpandPositiveTable. rewrite Hat. cbv zeta. rewrite Hvars, collect_loop.
  rewrite <- Ekept. change (map (column_values kept) (seq 0 (length [x; y]))) with [V0; V1].
  cbv beta iota. clear Ekept.
  match goal with
  | |- exists context', match kept with [] => _ | _ :: _ => ?B end = Some context' /\ _ =>
      assert (Hmain : kept <> [] ->
                exists context',
                  B = Some context'
                  /\ preserves_solutions other_holds context context'
                  /\ determines_new_variables other_holds context context')
  end.
  2: { destruct kept as [|t0 kept0]; [|by apply Hmain].
       (* no tuple is valid *)
       eexists. split; [reflexivity|]. split; [split|].
       - intros s Hs. by apply solution_spec in Hs as (Hu & _).
       - intros s Hs. by apply Hsolution, elem_of_nil in Hs.
       - intros s1 s2 Hs. by apply solution_spec in Hs as (Hu & _). }
  intros Hne.
  - assert (Ht0 : exists t0, t0 ∈ kept).
    { destruct kept as [|t0 kept0]; [done|]. exists t0. apply list_elem_of_here. }
    destruct Ht0 as [t0 Ht0].
    assert (Hcol : forall (j : nat) v, v ∈ column_values kept j <->
                     exists t, t ∈ kept /\ ref_at t j = v).
    { intros j v. unfold column_values. rewrite elem_of_list_to_set, list_elem_of_fmap.
      split; intros (t & H1 & H2); exists t; by split. }
    destruct (reduce_domain_two x y V0 V1 context Hxy) as
      (context2 & Hfold & HD0 & HD1 & Hv2 & Hc2 & He2 & Hq2 & Hp2 & Hu2 & Hl2 & Hs2 & Hh2
       & Hshrink).
    { intros v Hv. apply (Hcol 0%nat) in Hv as (t & Ht & <-).
      by apply Hkept in Ht as (_ & H0 & _). }
    { intros v Hv. apply (Hcol 1%nat) in Hv as (t & Ht & <-).
      by apply Hkept in Ht as (_ & _ & H1). }
    { exists (ref_at t0 0). apply (Hcol 0%nat). by exists t0. }
    { exists (ref_at t0 1). apply (Hcol 1%nat). by exists t0. }
    specialize (Hs2 Hsorted).
    assert (Hn2 : variables_size context2 = n) by (unfold n, variables_size; by rewrite Hv2).
    assert (Hinit2 : initialized context2) by (unfold initialized in *; congruence).
    change (seq 0 (length [x; y])) with (seq 0 2). rewrite Hfold. clear Hfold.
    set (contextA := AddSizeTwoTable [x; y] kept [V0; V1] context2).
    assert (Hresult : exists msg,
               (let num_fixed_variables :=
                  ((if Domain.IsFixed (DomainOf context2 x) then 1 else 0)
                   + (if Domain.IsFixed (DomainOf context2 y) then 1 else 0))%nat in
                if Z.of_nat num_fixed_variables =? Z.of_nat (length [x; y]) - 1
                then Some (Clear c (UpdateRuleStats "table: one variable not fixed" context2))
                else if (num_fixed_variables =? length [x; y])%nat
                then Some (Clear c (UpdateRuleStats "table: all variables fixed" context2))
                else if (length [x; y] =? 2)%nat
                        && negb (SatParameters.detect_table_with_cost (params context2))
                then
                  Some (Clear c
                          (UpdateRuleStats
                             "table: expanded positive constraint with two variables"
                             contextA))
                else
                  let '(last_column_is_cost, vars, tuples, context) :=
                    if SatParameters.detect_table_with_cost (params context2)
                    then ReduceTableInPresenceOfUniqueVariableWithCosts [x; y] kept context2
                    else (false, [x; y], kept, context2) in
                  Some (Clear c
                          (CompressAndExpandPositiveTable last_column_is_cost vars tuples
                             context)))
               = Some (Clear c (UpdateRuleStats msg contextA))).
    { rewrite Hp2, Hdetect. unfold contextA, AddSizeTwoTable, ref_at. simpl.
      destruct (Domain.IsFixed (DomainOf context2 x)),
        (Domain.IsFixed (DomainOf context2 y)); simpl; eexists; reflexivity. }
    destruct Hresult as [msg Hresult]. cbv zeta in Hresult.
    rewrite Hresult. clear Hresult.
    eexists. split; [reflexivity|].
    set (context' := Clear c (UpdateRuleStats msg contextA)).
    (* the meaning of what is added *)
    destruct (size_two_table_meaning other_holds [x; y] kept [V0; V1] context2)
      as (created & news & Hgrowth & HconsA & Hmeaning).
    { done. }
    { done. }
    { unfold ref_at. simpl. lia. }
    { unfold ref_at. simpl. lia. }
    { done. }
    { done. }
    { done. }
    { apply set_eq. intros v. rewrite elem_of_list_to_set, DomainFacts.elem_of_Values.
      apply HD0. }
    { apply set_eq. intros v. rewrite elem_of_list_to_set, DomainFacts.elem_of_Values.
      apply HD1. }
    cbv zeta in Hgrowth, HconsA, Hmeaning. fold contextA in Hgrowth, HconsA, Hmeaning.
    change (ref_at [x; y] 0) with x in Hmeaning. change (ref_at [x; y] 1) with y in Hmeaning.
    assert (Hlt : (c < length (constraints context))%nat) by (by apply lookup_lt_Some in Hc).
    assert (Hexp : encoding_expansion context2 context' c ConstraintProto.cleared created news).
    { split; [by apply (encoding_growth_same context2 contextA _ created Hgrowth)|].
      unfold context'. rewrite constraints_Clear, constraints_UpdateRuleStats, HconsA.
      rewrite insert_app_l; [done|]. by rewrite Hc2. }
    assert (Hclosed2 : closed_model other_holds context2).
    { intros s s' Hagree ct Hct. rewrite Hc2 in Hct. rewrite Hn2 in Hagree.
      by apply Hclosed. }
    assert (Hbelow2 : cache_below (variables_size context2) context2 = true).
    { unfold cache_below in *. by rewrite Hn2, He2, Hq2. }
    assert (Hshape : expansion_shape context context' c ConstraintProto.cleared news).
    { destruct (encoding_expansion_shape _ _ _ _ _ _ Hexp) as (Hd & Hcs & Hes & Hqs & Hus).
      split; [|split; [|split; [|split]]].
      - intros i d Hi. destruct (Hshrink i d Hi) as (d2 & Hi2 & Hsub).
        destruct (Hd i d2 Hi2) as (d' & Hi' & Hsub'). exists d'. split; [done|]. auto.
      - by rewrite Hcs, Hc2.
      - intros key lit Hk. apply Hes. by rewrite He2.
      - intros ab Hab. apply Hqs. by rewrite Hq2.
      - intros Hu. rewrite <- Hu2. by apply Hus. }
    split; [split|].
    + (* a solution after the expansion is a solution before it *)
      intros s Hs. apply (expansion_projection other_holds context context' c
                            (plain (kTable table)) _ news s Hshape Hc Hs).
      apply solution_spec in Hs as (_ & Hdom & Hcons & Henc & _).
      change (other_holds s (kTable table) = true). rewrite Hsem. unfold table_holds.
      rewrite Hneg, Hvars. simpl. apply bool_decide_eq_true.
      assert (Hin : [ref_value s x; ref_value s y] ∈ kept).
      { apply Hpair, (Hmeaning s); [done|done|]. apply forallb_forall.
        intros ct Hct. apply Hcons. destruct Hexp as [_ ->]. apply elem_of_app. right.
        by apply list_elem_of_In. }
      by apply Hkept in Hin as [Hin _].
    + (* a solution before the expansion extends to the created literals *)
      intros s Hs. pose proof (Hsolution s Hs) as Hin.
      assert (Hs2' : solution other_holds s context2 = true).
      { apply solution_spec in Hs as (Hu & Hdom & Hcons & Henc & Heq).
        apply solution_spec. rewrite Hu2, Hc2, He2, Hq2.
        split; [done|]. split; [|done].
        apply Hh2; [done| |].
        - apply (Hcol 0%nat). by exists [ref_value s x; ref_value s y].
        - apply (Hcol 1%nat). by exists [ref_value s x; ref_value s y]. }
      set (s' := override s (variables_size context2) (created_values s created)).
      assert (Hagree : agree n s s') by (rewrite <- Hn2; apply override_agree).
      exists s'. split; [done|].
      apply (encoding_expansion_extension other_holds context2 context' c
               ConstraintProto.cleared created news s Hexp Hinit2 Hclosed2 Hbelow2 Hs2');
        [done|].
      intros ct Hct. fold s' in Hct |- *.
      apply solution_spec in Hs2' as (_ & Hdom2 & _ & Henc2 & Heq2).
      assert (Hnews : forallb (holds other_holds s') news = true).
      { apply (Hmeaning s').
        - by apply (encoding_growth_domains_hold context2 contextA created s).
        - by apply (encoding_growth_holds context2 contextA created s).
        - apply Hpair.
          rewrite <- (ref_value_agree n s s' x), <- (ref_value_agree n s s' y) by done.
          done. }
      rewrite forallb_forall in Hnews. by apply Hnews, list_elem_of_In.
    + (* the created literals are determined *)
      pose proof (encoding_expansion_determined other_holds context2 context' c
                    ConstraintProto.cleared created news Hexp Hinit2) as Hdet.
      intros s1 s2 Hs1 Hs2' Hagree. apply Hdet; [done|done|]. by rewrite Hn2.
Qed.

(** The expansion of a table of two distinct variables, without repeated
    tuple and when tables with costs are not detected, passes its [CHECK]
    and keeps the solutions: a solution after the expansion is a solution
    before it, a solution before it extends to the encoding literals created,
    and these are determined by the two variables. *)
Theorem ExpandPositiveTable_two_variables (c : nat) (context : PresolveContext)
    (table : TableConstraintProto.t) (x y : Z) :
  well_formed_input other_holds context c (plain (kTable table)) ->
  forallb sorted_intervals (domains context) = true ->
  TableConstraintProto.vars table = [x; y] ->
  PositiveRef x <> PositiveRef y ->
  NoDup (table_tuples table) ->
  SatParameters.detect_table_with_cost (params context) = false ->
  TableConstraintProto.negated table = false ->
  (forall s, other_holds s (kTable table) = table_holds s table) ->
  exists context',
    ExpandPositiveTable ReduceTableInPresenceOfUniqueVariableWithCosts
      CompressAndExpandPositiveTable c context = Some context'
    /\ preserves_solutions other_holds context context'
    /\ determines_new_variables other_holds context context'.
Proof. apply positive_table_two_variables. Qed.

End PositiveTableSolutions.

Lemma cycle_context_closed : closed_model table_semantics cycle_context.
Proof.
  apply closed_model_refs; [reflexivity|].
  intros s s' ct Hct Hagree. apply list_elem_of_singleton in Hct as ->.
  simpl. unfold table_holds. simpl.
  by rewrite (ref_value_agree 2 s s' 0), (ref_value_agree 2 s s' 1).
Qed.

Lemma ExpandPositiveTable_two_variables_witness :
  exists context',
    ExpandPositiveTable no_cost_reduction no_tuple_literals 0 cycle_context = Some context'
    /\ preserves_solutions table_semantics cycle_context context'
    /\ determines_new_variables table_semantics cycle_context context'.
Proof.
  apply (ExpandPositiveTable_two_variables table_semantics no_cost_reduction
           no_tuple_literals 0%nat cycle_context
           (TableConstraintProto.mk [0; 1] [0; 1; 1; 2; 2; 0; 0; 0] false) 0 1).
  - split; [reflexivity|]. split; [reflexivity|]. split; [exact cycle_context_closed|].
    split; reflexivity.
  - reflexivity.
  - reflexivity.
  - vm_compute. discriminate.
  - apply (bool_decide_unpack _). vm_compute. exact I.
  - reflexivity.
  - reflexivity.
  - intros s. reflexivity.
Defined.

(** With the same variable in the two columns, the second intersection can
    empty the domain that the first one has reduced, and the [CHECK]
    fails. *)
Example ExpandPositiveTable_repeated_variable :
  ExpandPositiveTable no_cost_reduction no_tuple_literals 0 repeated_variable_context = None.
Proof. vm_compute. reflexivity. Qed.

(** * The solutions across the expansion of an element constraint *)

Section SameSolutions.

Variable other_holds : assignment -> Constraint -> bool.

Lemma same_solutions_refl (context : PresolveContext) :
  same_solutions other_holds context context.
Proof. by split. Qed.

Lemma same_solutions_trans (c1 c2 c3 : PresolveContext) :
  same_solutions other_holds c1 c2 -> same_solutions other_holds c2 c3 ->
  same_solutions other_holds c1 c3.
Proof. intros [H1 H2] [H3 H4]. split; [congruence|]. intros s. by rewrite H4, H2. Qed.

Lemma preserves_solutions_same (context context1 context' : PresolveContext) :
  same_solutions other_holds context context1 ->
  preserves_solutions other_holds context1 context' ->
  preserves_solutions other_holds context context'.
Proof.
  intros [Hn Hsame] [Hp Hx]. split.
  - intros s Hs. rewrite <- Hsame. by apply Hp.
  - intros s Hs. rewrite <- Hsame in Hs. destruct (Hx s Hs) as (s' & Hagree & Hs').
    exists s'. by rewrite <- Hn.
Qed.

Lemma determines_new_variables_same (context context1 context' : PresolveContext) :
  same_solutions other_holds context context1 ->
  determines_new_variables other_holds context1 context' ->
  determines_new_variables other_holds context context'.
Proof.
  intros [Hn _] Hdet s1 s2 Hs1 Hs2 Hagree. apply Hdet; [done|done|]. by rewrite Hn.
Qed.

(** An infeasible context keeps the solutions of a context that has
    none. *)
Lemma preserves_solutions_none (context context' : PresolveContext) :
  is_unsat context' = true ->
  (forall s, solution other_holds s context = false) ->
  preserves_solutions other_holds context context'
  /\ determines_new_variables other_holds context context'.
Proof.
  intros Hu Hnone.
  assert (Hno : forall s, solution other_holds s context' = false).
  { intros s. unfold solution. by rewrite Hu. }
  split; [split|].
  - intros s Hs. by rewrite Hno in Hs.
  - intros s Hs. by rewrite Hnone in Hs.
  - intros s1 s2 Hs. by rewrite Hno in Hs.
Qed.

Lemma same_solutions_UpdateRuleStats (name : string) (context : PresolveContext) :
  same_solutions other_holds context (UpdateRuleStats name context).
Proof. by split. Qed.

(** [IntersectDomainWith] keeps the solutions when it keeps the value that
    each of them gives to the reference; when it fails there is none. *)
Lemma IntersectDomainWith_same_solutions (ref : Z) (d : Domain.t)
    (context : PresolveContext) :
  PositiveRef ref < Z.of_nat (length (domains context)) ->
  (forall s, solution other_holds s context = true ->
             Domain.Contains d (ref_value s ref) = true) ->
  let r := IntersectDomainWith ref d context in
  same_solutions other_holds context r.2
  /\ (r.1.1 = false -> is_unsat r.2 = true).
Proof.
  intros Href Hkept r.
  destruct (IntersectDomainWith_spec ref d context)
    as (Hd & Hv & Hc & He & Hq & Hp & Hu & Hempty).
  cbv zeta in Hd, Hempty. fold r in Hd, Hv, Hc, He, Hq, Hp, Hu, Hempty.
  split; [|apply (IntersectDomainWith_unsat ref d context)].
  split; [unfold variables_size; by rewrite Hv|].
  intros s. destruct (solution other_holds s context) eqn:Hs.
  - pose proof (Hkept s Hs) as Hin.
    apply solution_spec in Hs as (Hunsat & Hdom & Hcons & Henc & Heq).
    assert (Hok : r.1.1 = true).
    { apply (IntersectDomainWith_ok ref d context (ref_value s ref)); [|done].
      by apply DomainOf_holds. }
    apply solution_spec. rewrite (Hu Hok), Hc, He, Hq. split; [done|].
    split; [|done]. by apply IntersectDomainWith_domains_hold.
  - apply Bool.not_true_iff_false. intros Hs'. apply Bool.not_true_iff_false in Hs.
    apply Hs. apply solution_spec in Hs' as (Hunsat & Hdom & Hcons & Henc & Heq).
    assert (Hok : r.1.1 = true).
    { destruct r.1.1 eqn:E; [done|].
      pose proof (IntersectDomainWith_unsat ref d context E) as Hx.
      unfold ModelIsUnsat in Hx. fold r in Hx. congruence. }
    apply solution_spec. rewrite <- (Hu Hok), <- Hc, <- He, <- Hq. split; [done|].
    split; [|done]. apply domains_hold_spec. intros i d0 Hi.
    destruct (IntersectDomainWith_domains_shrink ref d context i d0 Hi) as (d' & Hi' & Hsub).
    apply Hsub. by apply (proj1 (domains_hold_spec _ _) Hdom i).
Qed.

Lemma expansion_input_same (context context' : PresolveContext) (c : nat)
    (ct : ConstraintProto.t) :
  expansion_input other_holds context c ct ->
  variables context' = variables context ->
  constraints context' = constraints context ->
  encoding context' = encoding context ->
  equalities context' = equalities context ->
  length (domains context') = length (domains context) ->
  forallb sorted_intervals (domains context') = true ->
  expansion_input other_holds context' c ct.
Proof.
  intros ((Hc & Hinit & Hclosed & Hbelow & Hrefs) & Hsorted) Hv Hcs He Hq Hl Hs.
  assert (Hn : variables_size context' = variables_size context)
    by (unfold variables_size; by rewrite Hv).
  split; [|done]. split; [by rewrite Hcs|]. split; [unfold initialized in *; congruence|].
  split; [|split].
  - intros s s' Hagree ct0 Hct0. rewrite Hcs in Hct0. rewrite Hn in Hagree.
    by apply Hclosed.
  - unfold cache_below in *. by rewrite Hn, He, Hq.
  - by rewrite Hn.
Qed.

Lemma expansion_input_IntersectDomainWith (ref : Z) (d : Domain.t)
    (context : PresolveContext) (c : nat) (ct : ConstraintProto.t) :
  expansion_input other_holds context c ct ->
  expansion_input other_holds (IntersectDomainWith ref d context).2 c ct.
Proof.
  intros Hin.
  destruct (IntersectDomainWith_spec ref d context) as (_ & Hv & Hc & He & Hq & _).
  apply (expansion_input_same context); try done.
  - apply IntersectDomainWith_length_domains.
  - apply IntersectDomainWith_sorted, Hin.
Qed.

Lemma expansion_input_UpdateRuleStats (name : string) (context : PresolveContext) (c : nat)
    (ct : ConstraintProto.t) :
  expansion_input other_holds context c ct ->
  expansion_input other_holds (UpdateRuleStats name context) c ct.
Proof. intros Hin. apply (expansion_input_same context); try done. apply Hin. Qed.

End SameSolutions.

(** A variable whose bounds are [v] has the value [v]. *)
Lemma fixed_bounds_value (context : PresolveContext) (ref v x : Z) :
  forallb sorted_intervals (domains context) = true ->
  MinOf context ref = v -> MaxOf context ref = v ->
  Domain.Contains (DomainOf context ref) x = true -> x = v.
Proof.
  intros Hsorted Hmin Hmax Hx. unfold MinOf, MaxOf, DomainOf in *.
  assert (Hvar : sorted_intervals (domain_of_var context (PositiveRef ref)) = true).
  { pose proof (DomainOf_sorted context (PositiveRef ref) Hsorted) as H.
    unfold DomainOf in H.
    assert (RefIsPositive (PositiveRef ref) = true) as E.
    { unfold RefIsPositive. apply Z.leb_le, PositiveRef_nonnegative. }
    by rewrite E in H. }
  destruct (RefIsPositive ref) eqn:E.
  - rewrite <- (PositiveRef_positive ref E) in Hmin, Hmax, Hx.
    pose proof (sorted_intervals_bounds _ _ Hvar Hx). lia.
  - rewrite DomainFacts.Contains_Negation in Hx.
    pose proof (sorted_intervals_bounds _ _ Hvar Hx). lia.
Qed.

Lemma MaxOf_prefix (c1 c2 : PresolveContext) (ref : Z) :
  domains_prefix c1 c2 -> PositiveRef ref < Z.of_nat (length (domains c1)) ->
  MaxOf c2 ref = MaxOf c1 ref.
Proof.
  intros Hpre Hvar. unfold MaxOf. pose proof (PositiveRef_nonneg ref).
  destruct (RefIsPositive ref) eqn:E.
  - rewrite (domain_of_var_prefix c1 c2); [done | done |].
    rewrite (PositiveRef_positive ref E) in *. lia.
  - rewrite (domain_of_var_prefix c1 c2); [done | done | lia].
Qed.

Section TargetEqualIndex.

Variable other_holds : assignment -> Constraint -> bool.

(** The meaning of the constraint that a literal implies a value. *)
Lemma holds_imply_in_value (s : assignment) (lit var v : Z) :
  holds other_holds s (imply_in_domain lit var (Domain.Value v))
  = implb (literal_value s lit) (ref_value s var =? v).
Proof.
  unfold imply_in_domain, holds, constraint_holds, linear_holds.
  cbn [ConstraintProto.enforcement_literal ConstraintProto.constraint forallb
       LinearConstraintProto.domain LinearConstraintProto.vars
       LinearConstraintProto.coeffs].
  change (FillDomainInProto (Domain.Value v)) with [v; v].
  rewrite andb_true_r, Contains_point. f_equal.
  unfold sum_terms. cbn [zip_with foldr].
  destruct (Z.eqb_spec (1 * ref_value s var + 0) v), (Z.eqb_spec (ref_value s var) v);
    try done; lia.
Qed.

(** The loop of [ExpandElementWithTargetEqualIndex]: one constraint for each
    value of the index whose variable is not fixed at this value. *)
Lemma target_equal_index_loop (element : ElementConstraintProto.t) (vs : list Z)
    (context : PresolveContext) :
  let index_ref := ElementConstraintProto.index element in
  initialized context ->
  PositiveRef index_ref < variables_size context ->
  Forall (fun v => PositiveRef (element_var element v) < variables_size context) vs ->
  let context' :=
    foldl
      (fun context v =>
         let var := element_var element v in
         if (MinOf context var =? v) && (MaxOf context var =? v) then context
         else
           let '(lit, context) := GetOrCreateVarValueEncoding index_ref v context in
           AddImplyInDomain lit var (Domain.Value v) context)
      context vs in
  exists created news,
    encoding_growth context context' created
    /\ initialized context'
    /\ constraints context' = constraints context ++ news
    /\ (forall v, v ∈ vs ->
          (MinOf context (element_var element v) = v
           /\ MaxOf context (element_var element v) = v)
          \/ exists lit,
               encoding context' !! encoding_key index_ref v = Some lit
               /\ imply_in_domain lit (element_var element v) (Domain.Value v) ∈ news)
    /\ (forall ct, ct ∈ news ->
          exists v lit,
            encoding context' !! encoding_key index_ref v = Some lit
            /\ ct = imply_in_domain lit (element_var element v) (Domain.Value v)).
Proof.
  intros index_ref Hinit Hindex Hvars.
  pose proof (initialized_size context Hinit) as Hsize.
  assert (Hkey : forall v, 0 <= (encoding_key index_ref v).1 < variables_size context).
  { intros v. rewrite encoding_key_variable.
    pose proof (PositiveRef_nonnegative index_ref). lia. }
  induction vs as [|v vs IH] using rev_ind.
  - exists [], []. simpl. rewrite app_nil_r. split; [apply encoding_growth_refl|].
    split; [done|]. split; [done|].
    split; [by intros v H%elem_of_nil|by intros ct H%elem_of_nil].
  - apply Forall_app in Hvars as [Hvars Hv]. rewrite Forall_singleton in Hv.
    specialize (IH Hvars). cbv zeta in IH |- *. rewrite foldl_app. cbn [foldl].
    destruct IH as (created & news & Hgrowth & Hinit1 & Hcons & Hdone & Hnews).
    set (context1 := foldl _ context vs) in *.
    assert (Hprefix : domains_prefix context context1)
      by (eexists; exact (proj1 Hgrowth)).
    simpl in Hv.
    rewrite (MinOf_prefix context context1 _ Hprefix), (MaxOf_prefix context context1 _ Hprefix)
      by (rewrite Hsize; exact Hv).
    destruct ((MinOf context (element_var element v) =? v)
              && (MaxOf context (element_var element v) =? v)) eqn:Hfixed.
    + exists created, news. split; [done|]. split; [done|]. split; [done|].
      split; [|done]. intros w [Hw|Hw]%elem_of_app; [by apply Hdone|].
      apply list_elem_of_singleton in Hw as ->. left.
      apply andb_true_iff in Hfixed as [H1 H2]. by apply Z.eqb_eq in H1, H2.
    + pose proof (encoding_growth_step context context1 created index_ref v
                    Hgrowth Hinit1 (Hkey v)) as Hstep.
      cbv zeta in Hstep.
      destruct (GetOrCreateVarValueEncoding index_ref v context1) as [lit context2].
      cbn [fst snd] in Hstep.
      destruct Hstep as (created2 & Hgrowth2 & Hinit2 & Hlit & Hcons2 & Hstable2).
      exists created2,
        (news ++ [imply_in_domain lit (element_var element v) (Domain.Value v)]).
      split; [by apply (encoding_growth_same context context2 _ created2 Hgrowth2)|].
      split; [by apply add_constraints_initialized|].
      split.
      { unfold AddImplyInDomain. rewrite constraints_add_constraints, Hcons2, Hcons.
        by rewrite <- app_assoc. }
      split.
      * intros w [Hw|Hw]%elem_of_app.
        -- destruct (Hdone w Hw) as [?|(l & Hl & Hin)]; [by left|]. right.
           exists l. split; [by apply Hstable2|]. apply elem_of_app. by left.
        -- apply list_elem_of_singleton in Hw as ->. right. exists lit.
           split; [done|]. apply elem_of_app. right. apply list_elem_of_here.
      * intros ct [Hct|Hct]%elem_of_app.
        -- destruct (Hnews ct Hct) as (w & l & Hl & ->). exists w, l.
           split; [by apply Hstable2|done].
        -- apply list_elem_of_singleton in Hct as ->. by exists v, lit.
Qed.

(** The solutions before and after [ExpandElementWithTargetEqualIndex]. *)
Lemma target_equal_index_solutions (c : nat) (context : PresolveContext)
    (element : ElementConstraintProto.t) :
  expansion_input other_holds context c (plain (kElement element)) ->
  ElementConstraintProto.index element = ElementConstraintProto.target element ->
  Forall (fun v => 0 <= v < Z.of_nat (length (ElementConstraintProto.vars element)))
         (Domain.Values (DomainOf context (ElementConstraintProto.index element))) ->
  let context' := ExpandElementWithTargetEqualIndex c context in
  preserves_solutions other_holds context context'
  /\ determines_new_variables other_holds context context'.
Proof.
  intros Hinput Htarget Hrange context'.
  set (index := ElementConstraintProto.index element) in *.
  assert (Hat : forall ctx, expansion_input other_holds ctx c (plain (kElement element)) ->
                  element_of (constraint_at c ctx) = element).
  { intros ctx ((Hc & _) & _). unfold constraint_at. by rewrite Hc. }
  (* the expansion from a context in which the index is reduced *)
  assert (Hloop : forall ctx,
             expansion_input other_holds ctx c (plain (kElement element)) ->
             Forall (fun v => 0 <= v < Z.of_nat (length (ElementConstraintProto.vars element)))
                    (Domain.Values (DomainOf ctx index)) ->
             let ctx' :=
               Clear c
                 (UpdateRuleStats "element: expanded with special case target = index"
                    (foldl
                       (fun context v =>
                          let var := element_var element v in
                          if (MinOf context var =? v) && (MaxOf context var =? v) then context
                          else
                            let '(lit, context) :=
                              GetOrCreateVarValueEncoding index v context in
                            AddImplyInDomain lit var (Domain.Value v) context)
                       ctx (Domain.Values (DomainOf ctx index)))) in
             preserves_solutions other_holds ctx ctx'
             /\ determines_new_variables other_holds ctx ctx').
  { clear context context' Hinput Hrange.
    intros context ((Hc & Hinit & Hclosed & Hcache & Hrefs) & Hsorted) Hrange context'.
    destruct (refs_below_element _ _ Hrefs) as (Hindex & _ & Hvars). fold index in Hindex.
    pose proof (initialized_size context Hinit) as Hsize.
    set (n := variables_size context) in *.
    set (p := Domain.Values (DomainOf context index)) in *.
    assert (Hbelow : Forall (fun v => PositiveRef (element_var element v) < n) p).
    { eapply Forall_impl; [exact Hrange|]. intros v Hv. by apply element_var_below. }
    destruct (target_equal_index_loop element p context Hinit Hindex Hbelow)
      as (created & news & Hgrowth & _ & Hcons & Hdone & Hnews).
    fold index in Hgrowth, Hcons, Hdone, Hnews.
    set (context1 := foldl _ context p) in *.
    assert (Hlt : (c < length (constraints context))%nat) by (by apply lookup_lt_Some in Hc).
    assert (Hexp : encoding_expansion context context' c ConstraintProto.cleared created news).
    { split; [by apply (encoding_growth_same context context1 _ created Hgrowth)|].
      unfold context'. rewrite constraints_Clear, constraints_UpdateRuleStats, Hcons.
      by rewrite insert_app_l. }
    pose proof (encoding_expansion_shape _ _ _ _ _ _ Hexp) as Hshape.
    assert (Henc1 : encoding context' = encoding context1) by done.
    assert (Hvalue : forall s, domains_hold s (domains context) = true ->
                               ref_value s index ∈ p).
    { intros s Hdom. apply DomainFacts.elem_of_Values. apply DomainOf_holds; [done|].
      by rewrite Hsize. }
    split; [split|].
    - intros s Hs.
      refine (expansion_projection other_holds context context' c _ _ _ s Hshape Hc Hs _).
      apply solution_spec in Hs as (_ & Hdom' & Hcons' & Henc' & _).
      assert (Hdom : domains_hold s (domains context) = true).
      { apply domains_hold_spec. intros i d Hi. destruct Hshape as (Hd & _).
        destruct (Hd i d Hi) as (d' & Hi' & Hsub). apply Hsub.
        by apply (proj1 (domains_hold_spec _ _) Hdom' i). }
      pose proof (Hvalue s Hdom) as Hin.
      assert (Hpos : 0 <= ref_value s index
                     < Z.of_nat (length (ElementConstraintProto.vars element))).
      { rewrite Forall_forall in Hrange. by apply Hrange. }
      apply holds_element. fold index. rewrite <- Htarget. split; [done|].
      set (var := element_var element (ref_value s index)).
      assert (Hvar : PositiveRef var < n) by (by apply element_var_below).
      destruct (Hdone _ Hin) as [[Hmin Hmax]|(lit & Hlit & Hct)].
      + apply (fixed_bounds_value context var); try done.
        apply DomainOf_holds; [done|]. by rewrite Hsize.
      + assert (Hholds : holds other_holds s
                           (imply_in_domain lit var (Domain.Value (ref_value s index)))
                         = true).
        { apply Hcons'. destruct Hexp as [_ ->]. apply elem_of_app. by right. }
        rewrite holds_imply_in_value in Hholds.
        rewrite (encoding_literal_value s context' index (ref_value s index) lit Henc')
          in Hholds by (unfold HasVarValueEncoding; by rewrite Henc1).
        rewrite Z.eqb_refl in Hholds. simpl in Hholds. by apply Z.eqb_eq.
    - intros s Hs. exists (override s n (created_values s created)).
      split; [apply override_agree|].
      apply (encoding_expansion_extension other_holds context context' c
               ConstraintProto.cleared created _ s Hexp Hinit Hclosed Hcache Hs);
        [reflexivity|].
      set (s' := override s n (created_values s created)).
      assert (Hagree : agree n s s') by apply override_agree.
      apply solution_spec in Hs as (_ & Hdom & Hcons0 & Henc & Heq).
      assert (Henc' : encoding_holds s' (encoding context') = true).
      { destruct Hexp as [Hg _]. by apply encoding_growth_holds. }
      assert (Hct : holds other_holds s (plain (kElement element)) = true).
      { apply Hcons0. by apply (list_elem_of_lookup_2 _ c). }
      apply holds_element in Hct as [Hi Heqv]. fold index in Hi, Heqv.
      rewrite <- Htarget in Heqv.
      intros ct Hin. destruct (Hnews ct Hin) as (v & lit & Hlit & ->).
      rewrite holds_imply_in_value.
      change (implb (literal_value s' lit) (ref_value s' (element_var element v) =? v) = true).
      rewrite (encoding_literal_value s' context' index v lit Henc')
        by (unfold HasVarValueEncoding; by rewrite Henc1).
      rewrite <- (ref_value_agree n s s' index Hagree Hindex).
      destruct (Z.eqb_spec (ref_value s index) v) as [<-|]; [|done]. simpl.
      rewrite <- (ref_value_agree n s s' _ Hagree) by (by apply element_var_below).
      rewrite Heqv. apply Z.eqb_refl.
    - by apply (encoding_expansion_determined other_holds context context' c
                  ConstraintProto.cleared created _ Hexp). }
  unfold context', ExpandElementWithTargetEqualIndex. rewrite (Hat context Hinput).
  cbv zeta. fold index.
  set (valid_indices :=
         filter (fun v => DomainContains context (element_var element v) v = true)
                (Domain.Values (DomainOf context index))).
  destruct (Z.of_nat (length valid_indices) <? Domain.Size (DomainOf context index)).
  - (* the domain of the index is reduced to the valid indices *)
    pose proof Hinput as ((Hc & Hinit & Hclosed & Hcache & Hrefs) & Hsorted).
    destruct (refs_below_element _ _ Hrefs) as (Hindex & _ & Hvars). fold index in Hindex.
    pose proof (initialized_size context Hinit) as Hsize.
    destruct (IntersectDomainWith_same_solutions other_holds index
                (Domain.FromValues valid_indices) context) as [Hsame Hfail].
    { by rewrite Hsize. }
    { intros s Hs. apply solution_spec in Hs as (_ & Hdom & Hcons0 & _).
      assert (Hct : holds other_holds s (plain (kElement element)) = true).
      { apply Hcons0. by apply (list_elem_of_lookup_2 _ c). }
      apply holds_element in Hct as [Hi Heqv]. fold index in Hi, Heqv.
      rewrite <- Htarget in Heqv.
      apply DomainFacts.Contains_FromValues. apply list_elem_of_filter. split.
      - rewrite DomainContains_DomainOf.
        pose proof (DomainOf_holds s context (element_var element (ref_value s index)) Hdom)
          as Hvar.
        rewrite Heqv in Hvar. apply Hvar. rewrite Hsize. by apply element_var_below.
      - apply DomainFacts.elem_of_Values, DomainOf_holds; [done|]. by rewrite Hsize. }
    pose proof (expansion_input_IntersectDomainWith other_holds index
                  (Domain.FromValues valid_indices) context c _ Hinput) as Hinput1.
    pose proof (fun v => IntersectDomainWith_Contains index (Domain.FromValues valid_indices)
                           context v) as Hshrunk.
    destruct (IntersectDomainWith index (Domain.FromValues valid_indices) context)
      as [[ok changed] context1].
    cbn [fst snd] in *. destruct ok.
    + set (context2 := UpdateRuleStats "element: reduced index domain" context1).
      assert (Hsame2 : same_solutions other_holds context context2).
      { apply (same_solutions_trans other_holds _ context1); [done|].
        apply same_solutions_UpdateRuleStats. }
      destruct (Hloop context2) as [Hp Hd].
      { by apply expansion_input_UpdateRuleStats. }
      { apply Forall_forall. intros v Hv. rewrite Forall_forall in Hrange. apply Hrange.
        apply DomainFacts.elem_of_Values in Hv.
        change (DomainOf context2 index) with (DomainOf context1 index) in Hv.
        rewrite Hshrunk in Hv. apply andb_true_iff in Hv as [Hv _].
        by apply DomainFacts.elem_of_Values. }
      split.
      * by apply (preserves_solutions_same other_holds context context2).
      * by apply (determines_new_variables_same other_holds context context2).
    + apply preserves_solutions_none; [by apply Hfail|].
      intros s. destruct Hsame as [_ <-]. unfold solution. by rewrite (Hfail eq_refl).
  - by apply Hloop.
Qed.

(** [ExpandElementWithTargetEqualIndex], on an element constraint
    [vars[index] == index] without enforcement literal whose index takes
    positions of the array only, keeps the solutions: a solution after the
    expansion is a solution before it, a solution before it extends to the
    encoding literals created, and these are determined by the variables of
    the model. *)
Theorem ExpandElementWithTargetEqualIndex_solutions (c : nat) (context : PresolveContext)
    (element : ElementConstraintProto.t) :
  expansion_input other_holds context c (plain (kElement element)) ->
  ElementConstraintProto.index element = ElementConstraintProto.target element ->
  Forall (fun v => 0 <= v < Z.of_nat (length (ElementConstraintProto.vars element)))
         (Domain.Values (DomainOf context (ElementConstraintProto.index element))) ->
  let context' := ExpandElementWithTargetEqualIndex c context in
  preserves_solutions other_holds context context'
  /\ determines_new_variables other_holds context context'.
Proof. apply target_equal_index_solutions. Qed.

End TargetEqualIndex.

Lemma ExpandElementWithTargetEqualIndex_solutions_witness :
  preserves_solutions no_other_constraint self_element_context
    (ExpandElementWithTargetEqualIndex 0 self_element_context)
  /\ determines_new_variables no_other_constraint self_element_context
       (ExpandElementWithTargetEqualIndex 0 self_element_context).
Proof.
  apply (ExpandElementWithTargetEqualIndex_solutions no_other_constraint 0%nat
           self_element_context self_element).
  - split; [|reflexivity]. split; [reflexivity|]. split; [reflexivity|].
    split; [apply closed_model_refs; reflexivity|]. split; reflexivity.
  - reflexivity.
  - simpl. repeat constructor; lia.
Defined.

(** The scan of the values of the index by [ExpandElement]: the valid
    indices, the domain reached, and whether all the variables met are
    constants. *)
Lemma element_scan (element : ElementConstraintProto.t) (context : PresolveContext)
    (p : list Z) :
  let target_domain := DomainOf context (ElementConstraintProto.target element) in
  let r :=
    foldl
      (fun (acc : bool * list Z * Domain.t) v =>
         let '(all_constants, valid_indices, reached_domain) := acc in
         let var_domain := DomainOf context (element_var element v) in
         if Domain.IsEmpty (Domain.IntersectionWith var_domain target_domain) then acc
         else
           (all_constants && (Domain.Min var_domain =? Domain.Max var_domain),
            valid_indices ++ [v],
            Domain.UnionWith reached_domain var_domain))
      (true, [], Domain.Empty) p in
  r.1.2
  = filter (fun v => Domain.IsEmpty
                       (Domain.IntersectionWith (DomainOf context (element_var element v))
                          target_domain) = false) p
  /\ (forall x, Domain.Contains r.2 x = true <->
        exists v, v ∈ r.1.2
                  /\ Domain.Contains (DomainOf context (element_var element v)) x = true)
  /\ (r.1.1 = true ->
      forall v, v ∈ r.1.2 ->
        Domain.Min (DomainOf context (element_var element v))
        = Domain.Max (DomainOf context (element_var element v))).
Proof.
  intros target_domain. induction p as [|v p IH] using rev_ind.
  - simpl. split; [done|]. split.
    + intros x. split; [done|]. by intros (v & H%elem_of_nil & _).
    + by intros _ v H%elem_of_nil.
  - cbv zeta in IH |- *. rewrite foldl_app. cbn [foldl]. rewrite filter_app.
    destruct (foldl _ (true, [], Domain.Empty) p) as [[all_constants valid] reached].
    cbn [fst snd] in IH. destruct IH as (Hvalid & Hreached & Hconst).
    destruct (Domain.IsEmpty _) eqn:Hempty; cbn [fst snd].
    + rewrite filter_cons_False by (fold target_domain; congruence).
      rewrite filter_nil, app_nil_r. done.
    + rewrite filter_cons_True by done. rewrite filter_nil.
      split; [by rewrite Hvalid|]. split.
      * intros x. rewrite DomainFacts.Contains_UnionWith, orb_true_iff, Hreached. split.
        -- intros [(w & Hw & Hx)|Hx].
           ++ exists w. split; [|done]. apply elem_of_app. by left.
           ++ exists v. split; [|done]. apply elem_of_app. right. apply list_elem_of_here.
        -- intros (w & [Hw|Hw%list_elem_of_singleton]%elem_of_app & Hx);
             [left; by exists w|right; by subst w].
      * intros Hall w. apply andb_true_iff in Hall as [Hall Hv].
        intros [Hw|Hw%list_elem_of_singleton]%elem_of_app; [by apply Hconst|].
        subst w. by apply Z.eqb_eq.
Qed.

Lemma IsEmpty_false_Contains (d : Domain.t) (x : Z) :
  Domain.Contains d x = true -> Domain.IsEmpty d = false.
Proof. by destruct d. Qed.

(** The size of a domain whose values are positions of an array of less
    than [2^63] entries is the number of its values. *)
Lemma Size_Values (d : Domain.t) (N : Z) :
  sorted_intervals d = true ->
  Forall (fun v => 0 <= v < N) (Domain.Values d) ->
  N <= kint64max ->
  Domain.Size d = Z.of_nat (length (Domain.Values d)).
Proof.
  intros Hsorted Hrange HN.
  assert (Htotal : foldr (fun (i : Z * Z) acc => (i.2 - i.1 + 1) + acc) 0 d
                   = Z.of_nat (length (Domain.Values d))).
  { clear Hrange. induction d as [|i d IH]; [done|].
    apply sorted_intervals_cons in Hsorted as (Hi & _ & Hd).
    unfold Domain.Values. simpl. fold (Domain.Values d).
    rewrite length_app, length_seqZ, IH by done.
    destruct i as [lo hi]. simpl in *. lia. }
  assert (Hle : Z.of_nat (length (Domain.Values d)) <= kint64max).
  { pose proof (NoDup_Values_sorted d Hsorted) as Hnodup.
    destruct (Z.le_gt_cases 0 N) as [HN0|HN0].
    - assert (Hsub : list_to_set (Domain.Values d) ⊆@{gset Z} list_to_set (seqZ 0 N)).
      { intros v Hv. apply elem_of_list_to_set in Hv. apply elem_of_list_to_set.
        rewrite Forall_forall in Hrange. apply elem_of_seqZ. specialize (Hrange v Hv). lia. }
      apply subseteq_size in Hsub.
      rewrite !size_list_to_set in Hsub by (done || apply NoDup_seqZ).
      rewrite length_seqZ in Hsub. lia.
    - destruct (Domain.Values d) as [|v l]; [done|].
      apply Forall_cons in Hrange as [Hv _]. lia. }
  unfold Domain.Size. rewrite Htotal. lia.
Qed.

Section ElementPipeline.

Variable other_holds : assignment -> Constraint -> bool.

(** One reduction of a domain in an expansion. *)
Lemma reduction_step (context ctx : PresolveContext) (c : nat) (ct : ConstraintProto.t)
    (ref : Z) (d : Domain.t) :
  same_solutions other_holds context ctx ->
  expansion_input other_holds ctx c ct ->
  PositiveRef ref < variables_size ctx ->
  (forall s, solution other_holds s ctx = true ->
             Domain.Contains d (ref_value s ref) = true) ->
  let r := IntersectDomainWith ref d ctx in
  same_solutions other_holds context r.2
  /\ expansion_input other_holds r.2 c ct
  /\ (r.1.1 = false -> is_unsat r.2 = true).
Proof.
  intros Hsame Hinput Href Hkept r.
  pose proof Hinput as ((_ & Hinit & _) & _).
  destruct (IntersectDomainWith_same_solutions other_holds ref d ctx) as [Hs Hfail];
    [by rewrite (initialized_size ctx Hinit)|done|].
  split; [by apply (same_solutions_trans other_holds _ ctx)|].
  split; [by apply expansion_input_IntersectDomainWith|done].
Qed.

(** An expansion that ends on an infeasible model with the solutions of the
    model it started from. *)
Lemma infeasible_step (context ctx : PresolveContext) :
  same_solutions other_holds context ctx -> is_unsat ctx = true ->
  preserves_solutions other_holds context ctx
  /\ determines_new_variables other_holds context ctx.
Proof.
  intros [_ Hsame] Hu. apply preserves_solutions_none; [done|].
  intros s. rewrite <- Hsame. unfold solution. by rewrite Hu.
Qed.

(** [ExpandElement] keeps the solutions as soon as
    [ExpandConstantArrayElement] does on what it receives. *)
Lemma ExpandElement_pipeline (c : nat) (context : PresolveContext)
    (element : ElementConstraintProto.t) :
  let index := ElementConstraintProto.index element in
  let size := Z.of_nat (length (ElementConstraintProto.vars element)) in
  (forall ctx,
     expansion_input other_holds ctx c (plain (kElement element)) ->
     PositiveRef index <> PositiveRef (ElementConstraintProto.target element) ->
     Forall (fun v => 0 <= v < size) (Domain.Values (DomainOf ctx index)) ->
     (forall v, v ∈ Domain.Values (DomainOf ctx index) ->
                at_most_one_value (DomainOf ctx (element_var element v))) ->
     preserves_solutions other_holds ctx (ExpandConstantArrayElement c ctx)
     /\ determines_new_variables other_holds ctx (ExpandConstantArrayElement c ctx)) ->
  size <= kint64max ->
  index = ElementConstraintProto.target element
  \/ PositiveRef index <> PositiveRef (ElementConstraintProto.target element) ->
  expansion_input other_holds context c (plain (kElement element)) ->
  preserves_solutions other_holds context (ExpandElement c context)
  /\ determines_new_variables other_holds context (ExpandElement c context).
Proof.
  intros index size Hconst Hbound Hvariables Hinput.
  set (target := ElementConstraintProto.target element) in *.
  assert (Hat : element_of (constraint_at c context) = element).
  { destruct Hinput as ((Hc & _) & _). unfold constraint_at. by rewrite Hc. }
  (* what a solution says of the element constraint *)
  assert (Helem : forall ctx s,
             expansion_input other_holds ctx c (plain (kElement element)) ->
             solution other_holds s ctx = true ->
             0 <= ref_value s index < size
             /\ ref_value s (element_var element (ref_value s index)) = ref_value s target
             /\ (forall ref, PositiveRef ref < variables_size ctx ->
                   Domain.Contains (DomainOf ctx ref) (ref_value s ref) = true)).
  { intros ctx s ((Hc & Hinit & _) & _) Hs.
    apply solution_spec in Hs as (_ & Hdom & Hcons & _).
    assert (Hct : holds other_holds s (plain (kElement element)) = true).
    { apply Hcons. by apply (list_elem_of_lookup_2 _ c). }
    apply holds_element in Hct as [Hi Heqv]. split; [done|]. split; [done|].
    intros ref Href. apply DomainOf_holds; [done|]. by rewrite (initialized_size ctx Hinit). }
  assert (Hbelow : forall ctx,
             expansion_input other_holds ctx c (plain (kElement element)) ->
             PositiveRef index < variables_size ctx
             /\ PositiveRef target < variables_size ctx
             /\ forall v, 0 <= v < size ->
                  PositiveRef (element_var element v) < variables_size ctx).
  { intros ctx ((_ & _ & _ & _ & Hrefs) & _).
    destruct (refs_below_element _ _ Hrefs) as (H1 & H2 & H3).
    split; [done|]. split; [done|]. intros v Hv. by apply element_var_below. }
  unfold ExpandElement. rewrite Hat. cbv zeta. fold index target size.
  (* the index is reduced to the positions of the array *)
  destruct (reduction_step context context c _ index (Domain.Range 0 (size - 1))
              (same_solutions_refl other_holds context) Hinput)
    as (Hsame1 & Hinput1 & Hfail1).
  { apply (Hbelow context Hinput). }
  { intros s Hs. destruct (Helem context s Hinput Hs) as (Hi & _).
    rewrite DomainFacts.Contains_Range. apply andb_true_iff.
    split; [apply Z.leb_le|apply Z.leb_le]; lia. }
  pose proof (fun v => IntersectDomainWith_Contains index (Domain.Range 0 (size - 1))
                         context v) as Hd1.
  destruct (IntersectDomainWith index (Domain.Range 0 (size - 1)) context)
    as [[ok1 changed1] context1].
  cbn [fst snd] in Hsame1, Hinput1, Hfail1, Hd1.
  destruct ok1; cbn [negb]; [|by apply infeasible_step; auto].
  assert (Hrange1 : forall v, Domain.Contains (DomainOf context1 index) v = true ->
                              0 <= v < size).
  { intros v Hv. rewrite Hd1, DomainFacts.Contains_Range in Hv.
    apply andb_true_iff in Hv as [_ Hv]. apply andb_true_iff in Hv as [H0 H1].
    apply Z.leb_le in H0, H1. lia. }
  destruct (decide (index = target)) as [Hequal|Hdistinct].
  { (* the index is the target *)
    destruct (target_equal_index_solutions other_holds c context1 element Hinput1 Hequal)
      as [Hp Hd].
    { apply Forall_forall. intros v Hv. by apply Hrange1, DomainFacts.elem_of_Values. }
    split.
    - by apply (preserves_solutions_same other_holds context context1).
    - by apply (determines_new_variables_same other_holds context context1). }
  (* the scan of the array *)
  set (p := Domain.Values (DomainOf context1 index)).
  pose proof (element_scan element context1 p) as Hscan. cbv zeta in Hscan.
  fold target in Hscan.
  destruct (foldl _ (true, [], Domain.Empty) p) as [[all_constants valid_indices] reached].
  cbn [fst snd] in Hscan. destruct Hscan as (Hvalid & Hreached & Hconstants).
  assert (Hsolution1 : forall s, solution other_holds s context1 = true ->
             ref_value s index ∈ valid_indices
             /\ Domain.Contains (DomainOf context1 (element_var element (ref_value s index)))
                  (ref_value s target) = true).
  { intros s Hs. destruct (Helem context1 s Hinput1 Hs) as (Hi & Heqv & Hin).
    destruct (Hbelow context1 Hinput1) as (Hxi & Hxt & Hxv).
    assert (Hvar : Domain.Contains (DomainOf context1 (element_var element (ref_value s index)))
                     (ref_value s target) = true).
    { rewrite <- Heqv. by apply Hin, Hxv. }
    split; [|done]. rewrite Hvalid. apply list_elem_of_filter. split.
    - apply (IsEmpty_false_Contains _ (ref_value s target)).
      rewrite DomainFacts.Contains_IntersectionWith, Hvar. by apply Hin.
    - apply DomainFacts.elem_of_Values. by apply Hin. }
  pose proof Hinput1 as ((_ & _ & _ & _ & _) & Hsorted1).
  set (reduced :=
         if Z.of_nat (length valid_indices) <? Domain.Size (DomainOf context1 index)
         then _ else Continue context1).
  assert (Hreduced :
            match reduced with
            | Return ctx => same_solutions other_holds context ctx /\ is_unsat ctx = true
            | Continue ctx =>
                same_solutions other_holds context ctx
                /\ expansion_input other_holds ctx c (plain (kElement element))
                /\ (forall ref v, Domain.Contains (DomainOf ctx ref) v = true ->
                                  Domain.Contains (DomainOf context1 ref) v = true)
                /\ (forall v, Domain.Contains (DomainOf ctx index) v = true ->
                              v ∈ valid_indices)
            end).
  { subst reduced.
    destruct (Z.ltb_spec (Z.of_nat (length valid_indices))
                (Domain.Size (DomainOf context1 index))) as [Hless|Hall].
    - destruct (reduction_step context context1 c _ index
                  (Domain.FromValues valid_indices) Hsame1 Hinput1)
        as (Hsame2 & Hinput2 & Hfail2).
      { apply (Hbelow context1 Hinput1). }
      { intros s Hs. apply DomainFacts.Contains_FromValues. by apply Hsolution1. }
      pose proof (fun v => IntersectDomainWith_Contains index
                             (Domain.FromValues valid_indices) context1 v) as Hd2.
      pose proof (IntersectDomainWith_shrinks index (Domain.FromValues valid_indices)
                    context1) as Hs2.
      destruct (IntersectDomainWith index (Domain.FromValues valid_indices) context1)
        as [[ok2 changed2] context2].
      cbn [fst snd] in Hsame2, Hinput2, Hfail2, Hd2, Hs2.
      destruct ok2; [|by split; auto].
      split; [|split; [by apply expansion_input_UpdateRuleStats|split]].
      + apply (same_solutions_trans other_holds _ context2); [done|].
        apply same_solutions_UpdateRuleStats.
      + exact Hs2.
      + intros v Hv.
        change (Domain.Contains (DomainOf context2 index) v = true) in Hv.
        rewrite Hd2 in Hv. apply andb_true_iff in Hv as [_ Hv].
        by apply DomainFacts.Contains_FromValues.
    - split; [done|]. split; [done|]. split; [done|].
      intros v Hv. rewrite Hvalid. apply list_elem_of_filter. split.
      + destruct (Domain.IsEmpty _) eqn:Hempty; [|done]. exfalso.
        assert (Hlt : (length valid_indices < length p)%nat).
        { rewrite Hvalid. apply (length_filter_lt _ _ v).
          - by apply DomainFacts.elem_of_Values.
          - rewrite Hempty. done. }
        rewrite (Size_Values (DomainOf context1 index) size) in Hall.
        * fold p in Hall. lia.
        * by apply DomainOf_sorted.
        * apply Forall_forall. intros w Hw. by apply Hrange1, DomainFacts.elem_of_Values.
        * done.
      + by apply DomainFacts.elem_of_Values. }
  destruct reduced as [context2|context2];
    [|destruct Hreduced; by apply infeasible_step].
  destruct Hreduced as (Hsame2 & Hinput2 & Hshrink2 & Hvalid2).
  (* the target is reduced to the values reached *)
  destruct (reduction_step context context2 c _ target reached Hsame2 Hinput2)
    as (Hsame3 & Hinput3 & Hfail3).
  { apply (Hbelow context2 Hinput2). }
  { intros s Hs. apply Hreached.
    assert (Hs1 : solution other_holds s context1 = true).
    { destruct Hsame1 as [_ ->]. by destruct Hsame2 as [_ <-]. }
    destruct (Hsolution1 s Hs1) as [Hin Hvar]. by exists (ref_value s index). }
  pose proof (IntersectDomainWith_shrinks target reached context2) as Hs3.
  destruct (IntersectDomainWith target reached context2) as [[ok3 changed3] context3].
  cbn [fst snd] in Hsame3, Hinput3, Hfail3, Hs3.
  destruct ok3; cbn [negb]; [|by apply infeasible_step; auto].
  set (context4 := if changed3
                   then UpdateRuleStats "element: reduced target domain" context3
                   else context3).
  assert (Hsame4 : same_solutions other_holds context context4).
  { subst context4. destruct changed3; [|done].
    apply (same_solutions_trans other_holds _ context3); [done|].
    apply same_solutions_UpdateRuleStats. }
  assert (Hinput4 : expansion_input other_holds context4 c (plain (kElement element))).
  { subst context4. destruct changed3; [|done]. by apply expansion_input_UpdateRuleStats. }
  assert (Hshrink4 : forall ref v, Domain.Contains (DomainOf context4 ref) v = true ->
                                   Domain.Contains (DomainOf context2 ref) v = true).
  { intros ref v Hv. apply Hs3. subst context4. by destruct changed3. }
  assert (Hrange4 : Forall (fun v => 0 <= v < size)
                      (Domain.Values (DomainOf context4 index))).
  { apply Forall_forall. intros v Hv.
    by apply Hrange1, Hshrink2, Hshrink4, DomainFacts.elem_of_Values. }
  destruct all_constants.
  - (* an array of constants *)
    assert (Hother : PositiveRef index <> PositiveRef target)
      by (by destruct Hvariables).
    destruct (Hconst context4 Hinput4 Hother Hrange4) as [Hp Hd].
    { intros v Hv x y Hx Hy.
      apply DomainFacts.elem_of_Values, Hshrink4, Hvalid2 in Hv.
      pose proof (Hconstants eq_refl v Hv) as Hfixed.
      apply Hshrink4, Hshrink2 in Hx, Hy.
      pose proof (DomainOf_sorted context1 (element_var element v) Hsorted1) as Hsv.
      pose proof (sorted_intervals_bounds _ _ Hsv Hx).
      pose proof (sorted_intervals_bounds _ _ Hsv Hy). lia. }
    split.
    + by apply (preserves_solutions_same other_holds context context4).
    + by apply (determines_new_variables_same other_holds context context4).
  - (* an array with a variable *)
    destruct Hinput4 as ((Hc4 & Hinit4 & Hclosed4 & Hcache4 & Hrefs4) & Hsorted4).
    destruct (ExpandVariableElement_solutions other_holds c context4 element
                Hc4 Hinit4 Hclosed4 Hcache4 Hrefs4 Hsorted4 Hrange4) as [Hp Hd].
    split.
    + by apply (preserves_solutions_same other_holds context context4).
    + by apply (determines_new_variables_same other_holds context context4).
Qed.

End ElementPipeline.
(** * Element over an array of constants: the solutions *)

Lemma literal_growth_of_encoding (context context' : PresolveContext)
    (created : list (Z * Z)) :
  encoding_growth context context' created -> initialized context' ->
  literal_growth context context' created.
Proof.
  intros (Hd & Hn & Hnew & Hold & Hstable & Hq & Hu) Hinit.
  unfold literal_growth. by repeat (split; [done|]).
Qed.

Lemma literal_growth_prefix (context context' : PresolveContext) (created : list (Z * Z)) :
  literal_growth context context' created -> domains_prefix context context'.
Proof. intros (Hd & _). by eexists. Qed.

(** One call of [GetOrCreateVarValueEncoding] in the second loop. *)
Lemma literal_growth_step (context0 context : PresolveContext) (created : list (Z * Z))
    (ref value : Z) :
  literal_growth context0 context created ->
  0 <= (encoding_key ref value).1 < variables_size context0 ->
  let r := GetOrCreateVarValueEncoding ref value context in
  encoding r.2 !! encoding_key ref value = Some r.1
  /\ constraints r.2 = constraints context
  /\ equalities r.2 = equalities context
  /\ encoding_stable context r.2
  /\ exists created',
       literal_growth context0 r.2 created'
       /\ (forall key lit, encoding r.2 !! key = Some lit ->
             encoding context !! key = Some lit
             \/ exists j, created' !! j = Some key
                          /\ lit = variables_size context0 + Z.of_nat j)
       /\ (forall j key, created !! j = Some key -> created' !! j = Some key).
Proof.
  intros (Hd & Hn & Hnew & Hstable & Hu & Hinit) Hkey r.
  pose proof (GetOrCreateVarValueEncoding_cases ref value context Hinit) as Hcases.
  cbv zeta in Hcases. fold r in Hcases.
  destruct Hcases
    as [[Hfound Hsame] | (Hnone & Hlit & Hd' & Hn' & Hinit' & He' & Hc' & Hq' & Hu')].
  - rewrite Hsame. split; [done|]. split; [done|]. split; [done|].
    split; [by intros ? ?|]. exists created.
    split; [by repeat (split; [done|])|]. split; [by left|done].
  - assert (Hstable' : encoding_stable context r.2).
    { intros key lit Hk. rewrite He'. rewrite lookup_insert_ne; [done|]. congruence. }
    split; [by rewrite He', Hlit, lookup_insert_eq|].
    split; [done|]. split; [done|]. split; [done|].
    exists (created ++ [encoding_key ref value]). split; [|split].
    + unfold literal_growth. rewrite length_app. simpl.
      split; [|split; [|split; [|split; [|split]]]].
      * rewrite Hd', Hd, <- app_assoc. f_equal.
        by rewrite Nat.add_1_r, replicate_S_end.
      * rewrite Hn', Hn. lia.
      * intros j key H. apply lookup_app_Some in H as [H | [Hge H]].
        -- destruct (Hnew j key H) as [H1 H2]. split; [by apply Hstable'|done].
        -- apply list_lookup_singleton_Some in H as [Hj <-]. split; [|done].
           rewrite He', Hn. replace j with (length created) by lia.
           by rewrite lookup_insert_eq.
      * intros key lit Hk. by apply Hstable', Hstable.
      * by rewrite Hu'.
      * done.
    + intros key lit. rewrite He'. intros Hk.
      destruct (decide (key = encoding_key ref value)) as [->|Hne].
      * rewrite lookup_insert_eq in Hk. injection Hk as <-. right.
        exists (length created). split; [by rewrite list_lookup_middle|]. rewrite Hn. lia.
      * rewrite lookup_insert_ne in Hk by done. by left.
    + intros j key H. by apply lookup_app_l_Some.
Qed.

Lemma literals_of_value_nil (context : PresolveContext) (element : ElementConstraintProto.t)
    (w : Z) : literals_of_value context element w [] [] = [].
Proof. reflexivity. Qed.

(** One iteration of the first loop of [ExpandConstantArrayElement]. *)
Lemma constant_support_step (context0 : PresolveContext)
    (element : ElementConstraintProto.t) (p : list Z) (v : Z) (sup created : list (Z * Z))
    (st : gmap Z nat * gmap Z nat * PresolveContext) :
  initialized context0 ->
  PositiveRef (ElementConstraintProto.target element) < variables_size context0 ->
  PositiveRef (element_var element v) < variables_size context0 ->
  constant_support_invariant context0 element p sup created st ->
  exists sup' created',
    constant_support_invariant context0 element (p ++ [v]) sup' created'
      (constant_array_support element st v).
Proof.
  destruct st as [[usage supports] context].
  intros Hinit0 Htarget Hvar (Hcount & [Hmap Hnodup] & Hsup & Henc & Hcons & Hgrowth & Hinit).
  set (target := ElementConstraintProto.target element) in *.
  unfold constant_array_support. fold target.
  assert (Hvalue : MinOf context (element_var element v) = array_value context0 element v).
  { apply MinOf_prefix; [|by rewrite initialized_size].
    destruct Hgrowth as (Hd & _). by eexists. }
  rewrite Hvalue. set (w0 := array_value context0 element v) in *.
  assert (Hcount' : forall w,
            count_of (<[w0 := S (default 0%nat (usage !! w0))]> usage) w
            = length (indices_of_value context0 element w (p ++ [v]))).
  { intros w. rewrite indices_of_value_snoc, length_app. fold w0.
    unfold count_of. destruct (decide (w0 = w)) as [<-|Hne].
    - rewrite lookup_insert_eq. simpl. specialize (Hcount w0). unfold count_of in Hcount. lia.
    - rewrite lookup_insert_ne by done. specialize (Hcount w). unfold count_of in Hcount.
      simpl. lia. }
  pose proof (Hcount w0) as Hw0. unfold count_of in Hw0.
  assert (Hlen' : forall w, length (indices_of_value context0 element w (p ++ [v]))
                            = (length (indices_of_value context0 element w p)
                               + if decide (w0 = w) then 1 else 0)%nat).
  { intros w. rewrite indices_of_value_snoc, length_app. fold w0.
    by destruct (decide (w0 = w)). }
  destruct (decide (S (default 0%nat (usage !! w0)) = 2%nat)) as [Htwo|Htwo].
  - (* The value is met for the second time. *)
    assert (Hnotin : w0 ∉ sup.*1).
    { intros Hin. apply Hsup in Hin. lia. }
    set (k := constraints_size context).
    set (context_a := add_constraints (plain (kBoolOr [])) context).
    assert (Hgrowth_a : encoding_growth context0 context_a created).
    { by apply (encoding_growth_same context0 context). }
    assert (Hkey : 0 <= (encoding_key target w0).1 < variables_size context0).
    { rewrite encoding_key_variable. split; [apply PositiveRef_nonneg | done]. }
    destruct (encoding_growth_step context0 context_a created target w0 Hgrowth_a Hinit Hkey)
      as (created' & Hgrowth' & Hinit' & HT & Hcons' & Hstable').
    destruct (GetOrCreateVarValueEncoding target w0 context_a) as [T context_b].
    cbn [fst snd] in Hgrowth', Hinit', HT, Hcons', Hstable'.
    assert (Hk : constraints context_b !! k = Some (plain (kBoolOr []))).
    { rewrite Hcons'. subst context_a. rewrite constraints_add_constraints.
      unfold k, constraints_size. by rewrite list_lookup_middle. }
    rewrite (add_literals_bool_or k _ [] []) by exact Hk. simpl.
    exists (sup ++ [(w0, T)]), created'.
    assert (Hklen : k = (length (constraints context0) + length sup)%nat).
    { unfold k, constraints_size. rewrite Hcons, length_app, length_map. done. }
    split; [exact Hcount'|]. split; [split|]; [| |split; [|split; [|split; [|split]]]].
    + intros w k'. destruct (decide (w0 = w)) as [<-|Hne].
      * rewrite lookup_insert_eq. split.
        -- intros [= <-]. exists (length sup), T. split; [|done].
           by rewrite list_lookup_middle.
        -- intros (j & T' & Hj & ->). f_equal.
           apply lookup_app_Some in Hj as [Hj | [Hge Hj]].
           ++ exfalso. apply Hnotin. apply list_elem_of_fmap. exists (w0, T').
              split; [done|]. by apply (list_elem_of_lookup_2 _ j).
           ++ apply list_lookup_singleton_Some in Hj as [Hj _]. lia.
      * rewrite lookup_insert_ne by done. rewrite Hmap. split.
        -- intros (j & T' & Hj & ->). exists j, T'. split; [|done].
           by apply lookup_app_l_Some.
        -- intros (j & T' & Hj & ->). exists j, T'. split; [|done].
           apply lookup_app_Some in Hj as [Hj | [Hge Hj]]; [done|].
           apply list_lookup_singleton_Some in Hj as [_ [= E _]]. done.
    + rewrite fmap_app. apply NoDup_app. split; [done|]. split.
      * intros x Hx Hx'. simpl in Hx'. apply list_elem_of_singleton in Hx'. by subst x.
      * simpl. apply NoDup_singleton.
    + intros w. rewrite fmap_app, elem_of_app, Hlen', Hsup. simpl.
      rewrite list_elem_of_singleton.
      destruct (decide (w0 = w)) as [<-|Hne]; [lia|].
      split; [intros [?|?]; [lia|done]|]. intros ?. left. lia.
    + apply Forall_app. split.
      * eapply Forall_impl; [exact Henc|]. intros wt Hwt. simpl. by apply Hstable'.
      * by apply Forall_singleton.
    + rewrite constraints_set_constraint, Hcons'. subst context_a.
      rewrite constraints_add_constraints, Hcons, Hklen.
      rewrite map_app, app_assoc. simpl.
      rewrite <- (length_map (support_clause context0 element [] []) sup), <- length_app.
      rewrite insert_length_app. reflexivity.
    + by apply (encoding_growth_same context0 context_b).
    + exact Hinit'.
  - (* Any other time: nothing is created. *)
    exists sup, created. split; [exact Hcount'|]. split; [done|].
    split; [|done].
    intros w. rewrite Hlen', Hsup. destruct (decide (w0 = w)) as [<-|Hne]; lia.
Qed.

Lemma constant_support_loop (context0 : PresolveContext)
    (element : ElementConstraintProto.t) (vs : list Z) :
  initialized context0 ->
  PositiveRef (ElementConstraintProto.target element) < variables_size context0 ->
  Forall (fun v => PositiveRef (element_var element v) < variables_size context0) vs ->
  exists sup created,
    constant_support_invariant context0 element vs sup created
      (foldl (constant_array_support element) (∅, ∅, context0) vs).
Proof.
  intros Hinit0 Htarget Hvs.
  apply (foldl_invariant
           (fun p st => exists sup created,
                constant_support_invariant context0 element p sup created st)
           _ _ vs) with (p := []) (2 := Hvs).
  - intros p x st Hx (sup & created & Hinv).
    by apply (constant_support_step context0 element p x sup created st).
  - exists [], []. unfold constant_support_invariant, supports_of_clauses. simpl.
    split; [done|]. split; [split|].
    + intros w k. rewrite lookup_empty. split; [done|]. by intros (j & T & H & _).
    + constructor.
    + split. { intros w. split; [by intros H%elem_of_nil|lia]. }
      split; [constructor|]. split; [by rewrite app_nil_r|].
      split; [apply encoding_growth_refl|done].
Qed.

Lemma literal_growth_same (context0 context1 context2 : PresolveContext)
    (created : list (Z * Z)) :
  literal_growth context0 context1 created ->
  domains context2 = domains context1 -> variables context2 = variables context1 ->
  encoding context2 = encoding context1 -> is_unsat context2 = is_unsat context1 ->
  literal_growth context0 context2 created.
Proof.
  intros H Hd Hv He Hu.
  unfold literal_growth, encoding_stable, variables_size, initialized in *.
  by rewrite Hd, Hv, He, Hu.
Qed.

(** [InsertVarValueEncoding]: the literal becomes the entry of a free key;
    otherwise it is the entry already, or the equality with the entry is
    stored. *)
Lemma InsertVarValueEncoding_cases (lit ref value : Z) (context : PresolveContext) :
  let context' := InsertVarValueEncoding lit ref value context in
  let key := encoding_key ref value in
  domains context' = domains context
  /\ variables context' = variables context
  /\ constraints context' = constraints context
  /\ is_unsat context' = is_unsat context
  /\ ((encoding context !! key = None
       /\ encoding context' = <[key := lit]> (encoding context)
       /\ equalities context' = equalities context)
      \/ (exists previous,
            encoding context !! key = Some previous
            /\ encoding context' = encoding context
            /\ ((previous = lit /\ equalities context' = equalities context)
                \/ equalities context' = equalities context ++ [(lit, previous)]))).
Proof.
  unfold InsertVarValueEncoding.
  destruct (encoding context !! encoding_key ref value) as [previous|] eqn:E.
  - destruct (decide (previous = lit)) as [->|Hne].
    + repeat (split; [done|]). right. exists lit. split; [done|]. split; [done|]. by left.
    + repeat (split; [done|]). right. exists previous. split; [done|]. split; [done|].
      by right.
  - repeat (split; [done|]). by left.
Qed.

Lemma support_clauses_snoc_other (context : PresolveContext)
    (element : ElementConstraintProto.t) (p lits : list Z) (sup : list (Z * Z)) (v l : Z) :
  length p = length lits ->
  array_value context element v ∉ sup.*1 ->
  map (support_clause context element (p ++ [v]) (lits ++ [l])) sup
  = map (support_clause context element p lits) sup.
Proof.
  intros Hlen Hnotin. apply map_ext_in. intros wt Hwt. unfold support_clause.
  rewrite literals_of_value_snoc by done.
  destruct (decide (array_value context element v = wt.1)) as [E|_]; [|by rewrite app_nil_r].
  exfalso. apply Hnotin. rewrite E. apply list_elem_of_fmap. exists wt.
  split; [done|]. by apply list_elem_of_In.
Qed.

Lemma support_clauses_snoc_at (context : PresolveContext)
    (element : ElementConstraintProto.t) (p lits : list Z) (sup : list (Z * Z))
    (v l : Z) (j : nat) (T : Z) :
  length p = length lits ->
  NoDup sup.*1 ->
  sup !! j = Some (array_value context element v, T) ->
  map (support_clause context element (p ++ [v]) (lits ++ [l])) sup
  = <[j := plain (kBoolOr ((NegatedRef T
                              :: literals_of_value context element
                                   (array_value context element v) p lits) ++ [l]))]>
      (map (support_clause context element p lits) sup).
Proof.
  intros Hlen Hnodup Hj. apply list_eq. intros i.
  change (map ?f sup) with (f <$> sup). rewrite list_lookup_fmap.
  destruct (decide (i = j)) as [->|Hne].
  - rewrite list_lookup_insert_eq by (rewrite length_fmap; by eapply lookup_lt_Some).
    rewrite Hj. simpl. unfold support_clause. simpl.
    rewrite literals_of_value_snoc by done.
    by rewrite decide_True by done.
  - rewrite list_lookup_insert_ne by done. rewrite list_lookup_fmap.
    destruct (sup !! i) as [wt|] eqn:Hi; [|done]. simpl. f_equal.
    unfold support_clause. rewrite literals_of_value_snoc by done.
    destruct (decide (array_value context element v = wt.1)) as [E|_];
      [|by rewrite app_nil_r].
    exfalso. apply Hne.
    apply (NoDup_lookup sup.*1 i j (array_value context element v)); [done| |].
    + by rewrite list_lookup_fmap, Hi, E.
    + by rewrite list_lookup_fmap, Hj.
Qed.

(** One iteration of the second loop of [ExpandConstantArrayElement]. *)
Lemma constant_link_step (context0 : PresolveContext)
    (element : ElementConstraintProto.t) (supports : gmap Z nat) (sup : list (Z * Z))
    (p lits : list Z) (created : list (Z * Z)) (imps : list ConstraintProto.t)
    (context : PresolveContext) (v : Z) :
  initialized context0 ->
  PositiveRef (ElementConstraintProto.index element) < variables_size context0 ->
  PositiveRef (element_var element v) < variables_size context0 ->
  supports_of_clauses (constraints context0) sup supports ->
  constant_link_invariant context0 element supports sup (constraints context0)
    p lits created imps context ->
  exists l created' imps',
    constant_link_invariant context0 element supports sup (constraints context0)
      (p ++ [v]) (lits ++ [l]) created' imps'
      (constant_array_link element supports
         (length (constraints context0) + length sup) context v).
Proof.
  intros Hinit0 Hindex Hvar [Hmap Hnodup]
    (Hlits & Hcons & Hgrowth & Hsupenc & Hentries & Hq0 & Hq & Hlinks & Himps).
  set (index := ElementConstraintProto.index element) in *.
  set (target := ElementConstraintProto.target element) in *.
  set (n := variables_size context0) in *.
  set (base := constraints context0) in *.
  set (exactly_one := (length base + length sup)%nat).
  assert (Hlength : length p = length lits) by (by eapply Forall2_length).
  unfold constant_array_link. cbv zeta. fold index. fold target.
  assert (Hkey : 0 <= (encoding_key index v).1 < n).
  { rewrite encoding_key_variable. split; [apply PositiveRef_nonneg | done]. }
  destruct (literal_growth_step context0 context created index v Hgrowth Hkey)
    as (HI & HconsI & HeqI & HstableI & created' & Hgrowth' & HentriesI & Hmono).
  destruct (GetOrCreateVarValueEncoding index v context) as [I context_a].
  cbn [fst snd] in HI, HconsI, HeqI, HstableI, Hgrowth', HentriesI.
  assert (Hexactly_a : constraints context_a !! exactly_one = Some (plain (kExactlyOne lits))).
  { rewrite HconsI, Hcons, app_assoc. unfold exactly_one.
    rewrite <- (length_map (support_clause context0 element p lits) sup), <- length_app.
    by rewrite list_lookup_middle. }
  rewrite (add_literals_exactly_one exactly_one I [] lits) by exact Hexactly_a.
  set (context_b := set_constraint exactly_one _ context_a).
  assert (Hvalue : MinOf context_b (element_var element v) = array_value context0 element v).
  { apply MinOf_prefix; [|by rewrite initialized_size].
    destruct Hgrowth' as (Hd & _). by eexists. }
  rewrite Hvalue. set (w0 := array_value context0 element v) in *.
  assert (Hcons_b : constraints context_b
                    = base ++ map (support_clause context0 element p lits) sup
                        ++ plain (kExactlyOne (lits ++ [I])) :: imps).
  { subst context_b. rewrite constraints_set_constraint, HconsI, Hcons.
    rewrite !app_assoc. unfold exactly_one.
    rewrite <- (length_map (support_clause context0 element p lits) sup), <- length_app.
    by rewrite insert_length_app. }
  assert (Hgrowth_b : literal_growth context0 context_b created').
  { by apply (literal_growth_same context0 context_a). }
  assert (Hlits' : Forall2 (fun v l => encoding context_a !! encoding_key index v = Some l)
                     (p ++ [v]) (lits ++ [I])).
  { apply Forall2_app; [|by repeat constructor].
    eapply Forall2_impl; [exact Hlits|]. intros x y Hxy. by apply HstableI. }
  assert (Hsupenc_a : Forall (fun wt : Z * Z =>
                                encoding context_a !! encoding_key target wt.1 = Some wt.2)
                        sup).
  { eapply Forall_impl; [exact Hsupenc|]. intros wt Hwt. by apply HstableI. }
  assert (Hentries_a : forall key lit, encoding context_a !! key = Some lit ->
            encoding context0 !! key = Some lit
            \/ (exists j, created' !! j = Some key /\ lit = n + Z.of_nat j)
            \/ (exists k v0, (p ++ [v]) !! k = Some v0 /\ (lits ++ [I]) !! k = Some lit
                             /\ key = encoding_key target (array_value context0 element v0)
                             /\ supports !! array_value context0 element v0 = None)).
  { intros key lit Hk. destruct (HentriesI key lit Hk) as [Hk0|Hnew]; [|by right; left].
    destruct (Hentries key lit Hk0) as [?|[(j & Hj & ->)|(k & v0 & Hp & Hl & -> & Hs)]].
    - by left.
    - right. left. exists j. split; [by apply Hmono|done].
    - right. right. exists k, v0. split; [by apply lookup_app_l_Some|].
      split; [by apply lookup_app_l_Some|done]. }
  assert (Hq_a : forall l b, (l, b) ∈ equalities context ->
            (l, b) ∈ equalities context0
            \/ (exists k v0, (p ++ [v]) !! k = Some v0 /\ (lits ++ [I]) !! k = Some l
                             /\ supports !! array_value context0 element v0 = None
                             /\ encoding context_a
                                  !! encoding_key target (array_value context0 element v0)
                                = Some b)).
  { intros l b Hlb. destruct (Hq l b Hlb) as [?|(k & v0 & Hp & Hl & Hs & Hb)]; [by left|].
    right. exists k, v0. split; [by apply lookup_app_l_Some|].
    split; [by apply lookup_app_l_Some|]. split; [done|by apply HstableI]. }
  assert (Himps_a : forall ct, ct ∈ imps ->
            exists k v0 l T, (p ++ [v]) !! k = Some v0 /\ (lits ++ [I]) !! k = Some l
                             /\ encoding context_a
                                  !! encoding_key target (array_value context0 element v0)
                                = Some T
                             /\ ct = implication l T).
  { intros ct Hct. destruct (Himps ct Hct) as (k & v0 & l & T & Hp & Hl & HT & ->).
    exists k, v0, l, T. split; [by apply lookup_app_l_Some|].
    split; [by apply lookup_app_l_Some|]. split; [by apply HstableI|done]. }
  exists I.
  destruct (supports !! w0) as [support|] eqn:Hsupport.
  - (* The value has a support: an implication and one more literal. *)
    apply Hmap in Hsupport as (j & T & Hj & ->).
    assert (HT : encoding context_b !! encoding_key target w0 = Some T).
    { rewrite Forall_forall in Hsupenc_a.
      apply (Hsupenc_a (w0, T)). by apply (list_elem_of_lookup_2 _ j). }
    assert (Hhit : GetOrCreateVarValueEncoding target w0 context_b = (T, context_b)).
    { unfold GetOrCreateVarValueEncoding. by rewrite HT. }
    rewrite Hhit.
    set (context_c := AddImplication I T context_b).
    assert (Hclause : constraints context_c !! (length base + j)%nat
                      = Some (ConstraintProto.mk []
                                (kBoolOr (NegatedRef T
                                            :: literals_of_value context0 element w0 p lits)))).
    { subst context_c. unfold AddImplication.
      rewrite constraints_add_constraints, Hcons_b.
      rewrite <- !app_assoc. rewrite lookup_app_r by lia.
      replace (length base + j - length base)%nat with j by lia.
      rewrite lookup_app_l by (rewrite length_map; by eapply lookup_lt_Some).
      change (map ?f sup) with (f <$> sup). by rewrite list_lookup_fmap, Hj. }
    rewrite (add_literals_bool_or _ I [] _ context_c Hclause).
    exists created', (imps ++ [implication I T]).
    unfold constant_link_invariant. cbv zeta. fold index target n base.
    split; [exact Hlits'|]. split; [|split; [|split; [|split; [|split; [|split; [|split]]]]]].
    + rewrite constraints_set_constraint. subst context_c. unfold AddImplication.
      rewrite constraints_add_constraints, Hcons_b.
      rewrite (support_clauses_snoc_at context0 element p lits sup v I j T) by done.
      fold w0. rewrite <- !app_assoc. rewrite insert_app_r.
      rewrite insert_app_l by (rewrite length_map; by eapply lookup_lt_Some).
      reflexivity.
    + by apply (literal_growth_same context0 context_b).
    + exact Hsupenc_a.
    + exact Hentries_a.
    + intros ab Hab.
      change (ab ∈ equalities context_a). rewrite HeqI. by apply Hq0.
    + intros l b Hlb. apply Hq_a.
      change ((l, b) ∈ equalities context_a) in Hlb. by rewrite <- HeqI.
    + intros k v0 l Hp Hl.
      apply lookup_app_Some in Hp as [Hp | [Hge Hp]].
      * assert (Hl0 : lits !! k = Some l).
        { apply lookup_lt_Some in Hp. rewrite lookup_app_l in Hl by lia. done. }
        destruct (Hlinks k v0 l Hp Hl0) as (b & Hb & Hmatch).
        exists b. split; [by apply HstableI|].
        destruct (supports !! array_value context0 element v0).
        -- apply elem_of_app. by left.
        -- destruct Hmatch as [?|Hin]; [by left|]. right. simpl. by rewrite HeqI.
      * apply list_lookup_singleton_Some in Hp as [Hk <-].
        rewrite lookup_app_r in Hl by lia.
        apply list_lookup_singleton_Some in Hl as [_ <-].
        exists T. split; [exact HT|]. fold w0.
        assert (Hs : supports !! w0 = Some (length base + j)%nat).
        { apply Hmap. by exists j, T. }
        rewrite Hs. apply elem_of_app. right. apply list_elem_of_here.
    + intros ct Hct. apply elem_of_app in Hct as [Hct|Hct]; [by apply Himps_a|].
      apply list_elem_of_singleton in Hct as ->.
      exists (length p), v, I, T. split; [by rewrite list_lookup_middle|].
      split; [by rewrite list_lookup_middle|]. split; [exact HT|done].
  - (* The value is met once: the index literal becomes its target literal. *)
    assert (Hnotin : w0 ∉ sup.*1).
    { intros Hin. apply list_elem_of_fmap in Hin as ([w T] & Hw & Hin). simpl in Hw. subst w.
      apply list_elem_of_lookup in Hin as [j Hj].
      assert (Hs : supports !! w0 = Some (length base + j)%nat)
        by (apply Hmap; by exists j, T).
      congruence. }
    pose proof (InsertVarValueEncoding_cases I target w0 context_b)
      as (HdomT & HvarT & HconsT & HunsatT & HcasesT).
    set (context_c := InsertVarValueEncoding I target w0 context_b) in *.
    assert (HstableT : encoding_stable context_a context_c).
    { intros key lit Hk.
      destruct HcasesT as [(Hnone & -> & _) | (previous & _ & -> & _)]; [|done].
      rewrite lookup_insert_ne; [done|]. intros <-.
      change (encoding context_b) with (encoding context_a) in Hnone. congruence. }
    exists created', imps.
    unfold constant_link_invariant. cbv zeta. fold index target n base.
    split; [|split; [|split; [|split; [|split; [|split; [|split; [|split]]]]]]].
    + eapply Forall2_impl; [exact Hlits'|]. intros x y Hxy. by apply HstableT.
    + rewrite HconsT, Hcons_b.
      by rewrite (support_clauses_snoc_other context0 element p lits sup v I).
    + destruct Hgrowth_b as (Hd & Hn & Hnew & Hstable & Hu & Hinit).
      split; [by rewrite HdomT|]. split; [unfold variables_size; by rewrite HvarT|].
      split; [|split; [|split]].
      * intros j key Hj. destruct (Hnew j key Hj) as [H1 H2]. split; [|done].
        by apply HstableT.
      * intros key lit Hk. by apply HstableT, Hstable.
      * by rewrite HunsatT.
      * unfold initialized. by rewrite HdomT, HvarT.
    + eapply Forall_impl; [exact Hsupenc_a|]. intros wt Hwt. by apply HstableT.
    + intros key lit Hk.
      destruct HcasesT as [(Hnone & He & _) | (previous & _ & He & _)].
      * rewrite He in Hk.
        destruct (decide (key = encoding_key target w0)) as [->|Hne].
        -- rewrite lookup_insert_eq in Hk. injection Hk as <-. right. right.
           exists (length p), v. split; [by rewrite list_lookup_middle|].
           split; [by rewrite list_lookup_middle|]. by split.
        -- rewrite lookup_insert_ne in Hk by done. by apply Hentries_a.
      * rewrite He in Hk. by apply Hentries_a.
    + intros ab Hab. apply Hq0 in Hab. rewrite <- HeqI in Hab.
      change (equalities context_a) with (equalities context_b) in Hab.
      destruct HcasesT as [(_ & _ & ->) | (previous & _ & _ & [[_ ->] | ->])];
        [done|done|]. apply elem_of_app. by left.
    + intros l b Hlb.
      assert (Hold : (l, b) ∈ equalities context ->
                (l, b) ∈ equalities context0
                \/ (exists k v0, (p ++ [v]) !! k = Some v0 /\ (lits ++ [I]) !! k = Some l
                                 /\ supports !! array_value context0 element v0 = None
                                 /\ encoding context_c
                                      !! encoding_key target (array_value context0 element v0)
                                    = Some b)).
      { intros H. destruct (Hq_a l b H) as [?|(k & v0 & Hp & Hl & Hs & Hb)]; [by left|].
        right. exists k, v0. repeat (split; [done|]). by apply HstableT. }
      destruct HcasesT as [(_ & _ & Heq) | (previous & Hprev & He & [[_ Heq] | Heq])];
        rewrite Heq in Hlb.
      * apply Hold. by rewrite <- HeqI.
      * apply Hold. by rewrite <- HeqI.
      * apply elem_of_app in Hlb as [Hlb|Hlb]; [apply Hold; by rewrite <- HeqI|].
        apply list_elem_of_singleton in Hlb. injection Hlb as -> ->. right.
        exists (length p), v. split; [by rewrite list_lookup_middle|].
        split; [by rewrite list_lookup_middle|]. split; [done|]. by rewrite He.
    + intros k v0 l Hp Hl.
      apply lookup_app_Some in Hp as [Hp | [Hge Hp]].
      * assert (Hl0 : lits !! k = Some l).
        { apply lookup_lt_Some in Hp. rewrite lookup_app_l in Hl by lia. done. }
        destruct (Hlinks k v0 l Hp Hl0) as (b & Hb & Hmatch).
        exists b. split; [by apply HstableT, HstableI|].
        destruct (supports !! array_value context0 element v0); [done|].
        destruct Hmatch as [?|Hin]; [by left|]. right.
        rewrite <- HeqI in Hin. change (equalities context_a) with (equalities context_b) in Hin.
        destruct HcasesT as [(_ & _ & ->) | (previous & _ & _ & [[_ ->] | ->])];
          [done|done|]. apply elem_of_app. by left.
      * apply list_lookup_singleton_Some in Hp as [Hk <-].
        rewrite lookup_app_r in Hl by lia.
        apply list_lookup_singleton_Some in Hl as [_ <-].
        fold w0. rewrite Hsupport.
        destruct HcasesT as [(_ & He & _) | (previous & Hprev & He & [[Hp _] | Heq])].
        -- exists I. split; [by rewrite He, lookup_insert_eq|by left].
        -- exists previous. split; [by rewrite He|by left].
        -- exists previous. split; [by rewrite He|]. right. rewrite Heq.
           apply elem_of_app. right. apply list_elem_of_here.
    + intros ct Hct. destruct (Himps_a ct Hct) as (k & v0 & l & T & Hp & Hl & HT & ->).
      exists k, v0, l, T. repeat (split; [done|]). split; [by apply HstableT|done].
Qed.

Lemma constant_link_loop (context0 : PresolveContext)
    (element : ElementConstraintProto.t) (supports : gmap Z nat) (sup : list (Z * Z))
    (vs : list Z) :
  initialized context0 ->
  PositiveRef (ElementConstraintProto.index element) < variables_size context0 ->
  Forall (fun v => PositiveRef (element_var element v) < variables_size context0) vs ->
  supports_of_clauses (constraints context0) sup supports ->
  forall (created : list (Z * Z)) (context : PresolveContext),
    constant_link_invariant context0 element supports sup (constraints context0)
      [] [] created [] context ->
    exists lits created' imps,
      constant_link_invariant context0 element supports sup (constraints context0)
        vs lits created' imps
        (foldl (constant_array_link element supports
                  (length (constraints context0) + length sup)) context vs).
Proof.
  intros Hinit0 Hindex Hvs Hsupports created context Hinv.
  apply (foldl_invariant
           (fun p ctx => exists lits created' imps,
                constant_link_invariant context0 element supports sup (constraints context0)
                  p lits created' imps ctx)
           _ _ vs) with (p := []) (2 := Hvs).
  - intros p x ctx Hx (lits & created' & imps & Hp).
    destruct (constant_link_step context0 element supports sup p lits created' imps ctx x)
      as (l & created'' & imps' & Hstep); try done.
    by exists (lits ++ [l]), created'', imps'.
  - by exists [], created, [].
Qed.

(** [ExpandConstantArrayElement] as a whole: the constraints, the variables,
    the cache and the stored equalities of the result. *)
Lemma ExpandConstantArrayElement_expansion (c : nat) (context : PresolveContext)
    (element : ElementConstraintProto.t) :
  let index := ElementConstraintProto.index element in
  let target := ElementConstraintProto.target element in
  let vs := Domain.Values (DomainOf context index) in
  constraints context !! c = Some (plain (kElement element)) ->
  initialized context ->
  PositiveRef index < variables_size context ->
  PositiveRef target < variables_size context ->
  Forall (fun v => PositiveRef (element_var element v) < variables_size context) vs ->
  exists supports sup lits created imps,
    (forall w, supports !! w = None ->
               (length (indices_of_value context element w vs) < 2)%nat)
    /\ constant_link_invariant context element supports sup
         (<[c := ConstraintProto.cleared]> (constraints context))
         vs lits created imps (ExpandConstantArrayElement c context).
Proof.
  intros index target vs Hc Hinit Hindex Htarget Hvs.
  assert (Helement : element_of (constraint_at c context) = element).
  { unfold element_of, constraint_at. by rewrite Hc. }
  assert (Hclt : (c < length (constraints context))%nat) by (by eapply lookup_lt_Some).
  unfold ExpandConstantArrayElement. cbv zeta. rewrite Helement.
  fold index. fold vs.
  destruct (constant_support_loop context element vs Hinit Htarget Hvs)
    as (sup & created & Hinv1).
  destruct (foldl (constant_array_support element) (∅, ∅, context) vs)
    as [[usage supports] context1].
  destruct Hinv1 as (Hcount & Hsupports & Hsup & Hsupenc & Hcons1 & Hgrowth1 & Hinit1).
  fold target in Hsupenc.
  assert (Hsize : constraints_size context1
                  = (length (constraints context) + length sup)%nat).
  { unfold constraints_size. by rewrite Hcons1, length_app, length_map. }
  rewrite Hsize.
  set (context2 := add_constraints (plain (kExactlyOne [])) context1).
  destruct (constant_link_loop context element supports sup vs Hinit Hindex Hvs Hsupports
              created context2)
    as (lits & created' & imps & Hinv2).
  { pose proof Hgrowth1 as (Hd & Hn & Hnew & Hold & Hstable & Hq & Hu).
    unfold constant_link_invariant. cbv zeta. fold index target.
    split; [constructor|]. split; [|split; [|split; [|split; [|split; [|split; [|split]]]]]].
    - subst context2. rewrite constraints_add_constraints, Hcons1. by rewrite <- app_assoc.
    - apply (literal_growth_same context context1); [|done..].
      by apply literal_growth_of_encoding.
    - exact Hsupenc.
    - intros key lit Hk. destruct (Hold key lit Hk) as [?|?]; [by left|by right; left].
    - intros ab Hab. change (ab ∈ equalities context1). by rewrite Hq.
    - intros l b Hlb. left. change ((l, b) ∈ equalities context1) in Hlb. by rewrite <- Hq.
    - intros k v l Hk. by rewrite lookup_nil in Hk.
    - intros ct Hct. by apply elem_of_nil in Hct. }
  set (context3 := foldl _ context2 vs) in *.
  exists supports, sup, lits, created', imps. split.
  - intros w Hw. destruct Hsupports as [Hmap _].
    destruct (decide (2 <= length (indices_of_value context element w vs))%nat)
      as [Hge|Hlt]; [|lia].
    apply Hsup in Hge. apply list_elem_of_fmap in Hge as ([w' T] & Hw' & Hin).
    simpl in Hw'. subst w'. apply list_elem_of_lookup in Hin as [j Hj].
    assert (Hs : supports !! w = Some (length (constraints context) + j)%nat)
      by (apply Hmap; by exists j, T).
    congruence.
  - destruct Hinv2 as (Hlits & Hcons & Hgrowth & Hsupenc3 & Hentries & Hq0 & Hq & Hlinks & Himps).
    unfold constant_link_invariant. cbv zeta. fold index target.
    split; [exact Hlits|]. split; [|split; [|split; [|split; [|split; [|split; [|split]]]]]];
      try done.
    + rewrite constraints_Clear, constraints_UpdateRuleStats, Hcons.
      by rewrite insert_app_l by done.
Qed.

Lemma sorted_Contains_Min (d : Domain.t) (x : Z) :
  sorted_intervals d = true -> Domain.Contains d x = true ->
  Domain.Contains d (Domain.Min d) = true.
Proof.
  destruct d as [|i d]; [done|]. intros Hs _.
  apply sorted_intervals_cons in Hs as (Hi & _ & _).
  simpl. apply orb_true_iff. left. unfold Domain.in_interval.
  apply andb_true_iff. split; apply Z.leb_le; lia.
Qed.

Lemma sorted_Contains_Max (d : Domain.t) (x : Z) :
  sorted_intervals d = true -> Domain.Contains d x = true ->
  Domain.Contains d (Domain.Max d) = true.
Proof.
  intros Hs Hx. assert (Hne : d <> []) by (by destruct d). clear Hx.
  induction d as [|i d IH]; [done|].
  apply sorted_intervals_cons in Hs as (Hi & _ & Hd).
  destruct d as [|j d].
  - unfold Domain.Max. simpl. rewrite orb_false_r. unfold Domain.in_interval.
    apply andb_true_iff. split; apply Z.leb_le; lia.
  - change (Domain.Max (i :: j :: d)) with (Domain.Max (j :: d)).
    change (Domain.Contains (i :: j :: d) (Domain.Max (j :: d)))
      with (Domain.in_interval i (Domain.Max (j :: d))
            || Domain.Contains (j :: d) (Domain.Max (j :: d))).
    rewrite IH by done. apply orb_true_r.
Qed.

(** The lower bound of a variable is one of its values. *)
Lemma Contains_MinOf (context : PresolveContext) (ref x : Z) :
  forallb sorted_intervals (domains context) = true ->
  Domain.Contains (DomainOf context ref) x = true ->
  Domain.Contains (DomainOf context ref) (MinOf context ref) = true.
Proof.
  intros Hsorted Hx. unfold MinOf, DomainOf in *.
  assert (Hvar : sorted_intervals (domain_of_var context (PositiveRef ref)) = true).
  { pose proof (DomainOf_sorted context (PositiveRef ref) Hsorted) as H.
    unfold DomainOf in H.
    assert (RefIsPositive (PositiveRef ref) = true) as E.
    { unfold RefIsPositive. apply Z.leb_le, PositiveRef_nonnegative. }
    by rewrite E in H. }
  destruct (RefIsPositive ref) eqn:E.
  - rewrite <- (PositiveRef_positive ref E) in Hx |- *. by apply (sorted_Contains_Min _ x).
  - rewrite DomainFacts.Contains_Negation in Hx |- *. rewrite Z.opp_involutive.
    by apply (sorted_Contains_Max _ (- x)).
Qed.

(** The test of a key of the cache is the test of the value of its
    reference. *)
Lemma encoding_key_value (s : assignment) (ref value : Z) :
  (s (encoding_key ref value).1 =? (encoding_key ref value).2) = (ref_value s ref =? value).
Proof.
  unfold encoding_key, ref_value. destruct (RefIsPositive ref); simpl; [done|].
  destruct (Z.eqb_spec (s (PositiveRef ref)) (- value)),
    (Z.eqb_spec (- s (PositiveRef ref)) value); try done; lia.
Qed.

(** At most one index of the array has a value that is not met twice. *)
Lemma unique_index (context : PresolveContext) (element : ElementConstraintProto.t)
    (w : Z) (vs : list Z) (v1 v2 : Z) :
  (length (indices_of_value context element w vs) < 2)%nat ->
  v1 ∈ vs -> v2 ∈ vs ->
  array_value context element v1 = w -> array_value context element v2 = w -> v1 = v2.
Proof.
  intros Hlen H1 H2 E1 E2.
  assert (Hin1 : v1 ∈ indices_of_value context element w vs)
    by (by apply list_elem_of_filter).
  assert (Hin2 : v2 ∈ indices_of_value context element w vs)
    by (by apply list_elem_of_filter).
  destruct (indices_of_value context element w vs) as [|x [|y l]];
    [by apply elem_of_nil in Hin1| |simpl in Hlen; lia].
  apply list_elem_of_singleton in Hin1, Hin2. congruence.
Qed.

(** The created literals are determined by the variables of the model. *)
Lemma literal_growth_determined (other_holds : assignment -> Constraint -> bool)
    (context context' : PresolveContext) (created : list (Z * Z)) :
  literal_growth context context' created ->
  initialized context ->
  determines_new_variables other_holds context context'.
Proof.
  intros (Hd & Hn & Hnew & Hstable & Hu & _) Hinit s1 s2 Hs1 Hs2 Hagree.
  apply solution_spec in Hs1 as (_ & Hdom1 & _ & Henc1 & _).
  apply solution_spec in Hs2 as (_ & Hdom2 & _ & Henc2 & _).
  pose proof (initialized_size context Hinit) as Hlen.
  intros v Hv. destruct (Z.lt_ge_cases v (variables_size context)) as [Hlt|Hge].
  { apply Hagree. lia. }
  set (j := Z.to_nat (v - variables_size context)).
  assert (Hj : (j < length created)%nat) by lia.
  destruct (lookup_lt_is_Some_2 created j Hj) as [key Hkey].
  destruct (Hnew j key Hkey) as [Hlit Hrange].
  replace (variables_size context + Z.of_nat j) with v in Hlit by lia.
  assert (Hbool : forall s, domains_hold s (domains context') = true -> s v = 0 \/ s v = 1).
  { intros s Hdom.
    pose proof (proj1 (domains_hold_spec _ _) Hdom (Z.to_nat v) bool_domain) as H.
    rewrite Z2Nat.id in H by lia.
    assert (Hin : Domain.Contains bool_domain (s v) = true).
    { apply H. rewrite Hd. rewrite lookup_app_r by lia.
      apply lookup_replicate. split; [done|]. lia. }
    unfold bool_domain, Domain.Contains, Domain.in_interval in Hin. simpl in Hin.
    rewrite orb_false_r in Hin. apply andb_true_iff in Hin as [H0 H1].
    apply Z.leb_le in H0, H1. lia. }
  pose proof (proj1 (encoding_holds_spec _ _) Henc1 key v Hlit) as H1.
  pose proof (proj1 (encoding_holds_spec _ _) Henc2 key v Hlit) as H2.
  rewrite <- (Hagree key.1 Hrange), <- H1 in H2.
  unfold literal_value, RefIsPositive in H2. destruct (Z.leb_spec 0 v); [|lia].
  destruct (Hbool s1 Hdom1) as [E1|E1], (Hbool s2 Hdom2) as [E2|E2];
    rewrite E1, E2 in *; simpl in H2; congruence.
Qed.

Section ConstantArray.

Variable other_holds : assignment -> Constraint -> bool.

(** The solutions before and after [ExpandConstantArrayElement], when the
    index and the target are different variables, the values of the index
    are positions of the array and the variables of the array at these
    positions have one value at most. *)
Lemma constant_array_solutions (c : nat) (context : PresolveContext)
    (element : ElementConstraintProto.t) :
  let index := ElementConstraintProto.index element in
  let target := ElementConstraintProto.target element in
  let size := Z.of_nat (length (ElementConstraintProto.vars element)) in
  expansion_input other_holds context c (plain (kElement element)) ->
  PositiveRef index <> PositiveRef target ->
  Forall (fun v => 0 <= v < size) (Domain.Values (DomainOf context index)) ->
  (forall v, v ∈ Domain.Values (DomainOf context index) ->
             at_most_one_value (DomainOf context (element_var element v))) ->
  preserves_solutions other_holds context (ExpandConstantArrayElement c context)
  /\ determines_new_variables other_holds context (ExpandConstantArrayElement c context).
Proof.
  intros index target size ((Hc & Hinit & Hclosed & Hcache & Hrefs) & Hsorted)
    Hdistinct Hrange Hfixed.
  destruct (refs_below_element _ _ Hrefs) as (Hindex & Htarget & Hvars).
  fold index target in Hindex, Htarget.
  pose proof (initialized_size context Hinit) as Hsize.
  set (vs := Domain.Values (DomainOf context index)) in *.
  set (n := variables_size context) in *.
  assert (Hbelow : Forall (fun v => PositiveRef (element_var element v) < n) vs).
  { eapply Forall_impl; [exact Hrange|]. intros v Hv. by apply element_var_below. }
  destruct (ExpandConstantArrayElement_expansion c context element
              Hc Hinit Hindex Htarget Hbelow)
    as (supports & sup & lits & created & imps & Hunique & Hinv).
  fold index vs in Hunique.
  set (context' := ExpandConstantArrayElement c context) in *.
  destruct Hinv as (Hlits & Hcons & Hgrowth & Hsupenc & Hentries & Hq0 & Hq & Hlinks & Himps).
  fold index target vs n in Hlits, Hcons, Hsupenc, Hentries, Hq, Hlinks, Himps.
  pose proof Hgrowth as (Hd & Hn & Hnew & Hstable & Hu & Hinit').
  fold n in Hn, Hnew.
  set (news := map (support_clause context element vs lits) sup
                 ++ plain (kExactlyOne lits) :: imps) in *.
  assert (Hshape : expansion_shape context context' c ConstraintProto.cleared news).
  { split; [|split; [done|]; split; [done|]; split; [done|]].
    - intros i d Hi. exists d. split; [|done]. rewrite Hd. by apply lookup_app_l_Some.
    - by rewrite Hu. }
  assert (Hnodup : NoDup vs) by (by apply NoDup_Values_sorted, DomainOf_sorted).
  assert (Hvalue : forall s, domains_hold s (domains context) = true ->
                             ref_value s index ∈ vs).
  { intros s Hdom. apply DomainFacts.elem_of_Values. apply DomainOf_holds; [done|].
    by rewrite Hsize. }
  assert (Harray : forall s v, domains_hold s (domains context) = true -> v ∈ vs ->
                     ref_value s (element_var element v) = array_value context element v).
  { intros s v Hdom Hv.
    assert (Hin : Domain.Contains (DomainOf context (element_var element v))
                    (ref_value s (element_var element v)) = true).
    { apply DomainOf_holds; [done|]. rewrite Hsize. rewrite Forall_forall in Hbelow.
      by apply Hbelow. }
    apply (Hfixed v Hv); [done|]. unfold array_value.
    by apply (Contains_MinOf _ _ (ref_value s (element_var element v))). }
  assert (Hkeys : forall x y, encoding_key index x <> encoding_key target y).
  { intros x y E. apply (f_equal fst) in E. rewrite !encoding_key_fst in E. done. }
  split; [split|].
  - (* A solution after the expansion satisfies the element constraint. *)
    intros s Hs.
    refine (expansion_projection other_holds context context' c _ _ _ s Hshape Hc Hs _).
    apply solution_spec in Hs as (_ & Hdom' & Hcons' & Henc' & Heq').
    assert (Hdom : domains_hold s (domains context) = true).
    { apply domains_hold_spec. intros i d Hi.
      apply (proj1 (domains_hold_spec _ _) Hdom' i). rewrite Hd.
      by apply lookup_app_l_Some. }
    pose proof (Hvalue s Hdom) as Hin.
    assert (Hpos : 0 <= ref_value s index < size).
    { rewrite Forall_forall in Hrange. by apply Hrange. }
    pose proof Hin as Hin0. apply list_elem_of_lookup in Hin as [k Hk].
    destruct (Forall2_lookup_l _ _ _ _ _ Hlits Hk) as (l & Hl & Hkey).
    assert (Hlit : literal_value s l = true).
    { rewrite (encoding_literal_value s context' index (ref_value s index) l Henc' Hkey).
      apply Z.eqb_refl. }
    destruct (Hlinks k _ l Hk Hl) as (b & Hb & Hmatch).
    assert (Hblit : literal_value s b = true).
    { destruct (supports !! array_value context element (ref_value s index)).
      - assert (H : holds other_holds s (implication l b) = true).
        { apply Hcons'. rewrite Hcons. apply elem_of_app. right. apply elem_of_app. right.
          apply elem_of_cons. by right. }
        rewrite holds_implication, Hlit in H. done.
      - destruct Hmatch as [->|Hlb]; [done|].
        by rewrite <- (proj1 (equalities_hold_spec _ _) Heq' l b Hlb). }
    rewrite (encoding_literal_value s context' target _ b Henc' Hb) in Hblit.
    apply Z.eqb_eq in Hblit.
    apply holds_element. split; [done|]. fold index target.
    rewrite Hblit. by apply Harray.
  - (* The extension of a solution by the truth values of the keys. *)
    intros s Hs. exists (override s n (created_values s created)).
    split; [apply override_agree|].
    set (s' := override s n (created_values s created)).
    assert (Hagree : agree n s s') by apply override_agree.
    apply solution_spec in Hs as (Hunsat & Hdom & Hconss & Henc & Heq).
    destruct (cache_holds_agree _ s s' context Hagree Hcache Henc Heq) as [Henc0 Heq0].
    assert (Hct : holds other_holds s (plain (kElement element)) = true).
    { apply Hconss. by apply (list_elem_of_lookup_2 _ c). }
    apply holds_element in Hct as [Hi Heqv]. fold index target in Hi, Heqv.
    set (idx := ref_value s index) in *.
    assert (Hidx : idx ∈ vs) by (by apply Hvalue).
    assert (Htv : ref_value s target = array_value context element idx).
    { rewrite <- Heqv. by apply Harray. }
    assert (Hri : ref_value s' index = idx).
    { symmetry. by apply (ref_value_agree n s s' index Hagree Hindex). }
    assert (Hrt : ref_value s' target = ref_value s target).
    { symmetry. by apply (ref_value_agree n s s' target Hagree Htarget). }
    assert (Hplain : forall key lit,
               encoding context !! key = Some lit
               \/ (exists j, created !! j = Some key /\ lit = n + Z.of_nat j) ->
               literal_value s' lit = (s' key.1 =? key.2)).
    { intros key lit [Hk0 | (j & Hj & ->)].
      - by apply (proj1 (encoding_holds_spec _ _) Henc0).
      - destruct (Hnew j key Hj) as [_ Hrange'].
        rewrite <- (Hagree key.1 Hrange').
        apply literal_value_b2z; [lia|].
        unfold s'. by rewrite (override_new _ _ _ _ _ (lookup_created_values s _ _ _ Hj)). }
    assert (Hvalues : Forall2 (fun v l => literal_value s' l = (idx =? v)) vs lits).
    { eapply Forall2_impl; [exact Hlits|]. intros v l Hkey. simpl.
      rewrite <- Hri, <- encoding_key_value. apply Hplain.
      destruct (Hentries _ _ Hkey) as [?|[?|(k & v0 & _ & _ & E & _)]];
        [by left|by right|]. by apply Hkeys in E. }
    assert (Halias : forall k v l, vs !! k = Some v -> lits !! k = Some l ->
               supports !! array_value context element v = None ->
               literal_value s' l = (ref_value s' target =? array_value context element v)).
    { intros k v l Hk Hl Hs.
      pose proof (Forall2_lookup_lr _ _ _ _ _ _ Hvalues Hk Hl) as Hv. simpl in Hv.
      rewrite Hv, Hrt, Htv.
      destruct (Z.eqb_spec idx v) as [->|Hne]; [by rewrite Z.eqb_refl|].
      symmetry. apply Z.eqb_neq. intros E. apply Hne.
      apply (unique_index context element (array_value context element v) vs);
        [by apply Hunique|done|by eapply list_elem_of_lookup_2|done|done]. }
    assert (Henc' : encoding_holds s' (encoding context') = true).
    { apply encoding_holds_spec. intros key lit Hk.
      destruct (Hentries key lit Hk) as [H|[H|(k & v & Hp & Hl & -> & Hs)]].
      - apply Hplain. by left.
      - apply Hplain. by right.
      - rewrite encoding_key_value. by apply (Halias k v). }
    apply solution_spec. split; [congruence|]. split; [|split; [|split]].
    + apply domains_hold_spec. intros i d. rewrite Hd. intros Hlook.
      apply lookup_app_Some in Hlook as [Hlook | [Hge Hlook]].
      * rewrite <- Hagree by (apply lookup_lt_Some in Hlook; lia).
        by apply (proj1 (domains_hold_spec _ _) Hdom i).
      * apply lookup_replicate in Hlook as [-> Hlt].
        destruct (lookup_lt_is_Some_2 created (i - length (domains context)) Hlt)
          as [key Hkey].
        replace (Z.of_nat i) with (n + Z.of_nat (i - length (domains context))) by lia.
        unfold s'. rewrite (override_new _ _ _ _ _ (lookup_created_values s _ _ _ Hkey)).
        by destruct (s key.1 =? key.2).
    + intros ct0. rewrite Hcons. intros Hin.
      apply elem_of_app in Hin as [Hin|Hin].
      { apply elem_of_list_insert_inv in Hin as [-> | Hin]; [done|].
        rewrite <- (Hclosed s s' Hagree ct0 Hin). by apply Hconss. }
      apply elem_of_app in Hin as [Hin|Hin].
      { (* the clause of a value met twice *)
        change (map ?f sup) with (f <$> sup) in Hin.
        apply list_elem_of_fmap in Hin as ([w T] & -> & Hin).
        rewrite Forall_forall in Hsupenc. pose proof (Hsupenc _ Hin) as HT. simpl in HT.
        unfold support_clause. cbn [fst snd].
        change (literal_value s' (NegatedRef T)
                || existsb (literal_value s') (literals_of_value context element w vs lits)
                = true).
        rewrite literal_value_NegatedRef.
        rewrite (encoding_literal_value s' context' target w T Henc' HT).
        destruct (Z.eqb_spec (ref_value s' target) w) as [E|Hne]; [|done]. simpl.
        apply list_elem_of_lookup in Hidx as [k Hk].
        destruct (Forall2_lookup_l _ _ _ _ _ Hvalues Hk) as (l & Hl & Hv). simpl in Hv.
        rewrite Z.eqb_refl in Hv.
        apply existsb_exists. exists l. split; [|done].
        apply list_elem_of_In. unfold literals_of_value.
        apply (list_elem_of_fmap_2 snd _ (idx, l)). apply list_elem_of_filter. split.
        - simpl. congruence.
        - apply (list_elem_of_lookup_2 _ k). by rewrite lookup_zip_with, Hk; simpl; rewrite Hl. }
      apply elem_of_cons in Hin as [-> | Hin].
      { change ((count_true s' lits =? 1)%nat = true).
        rewrite (count_true_values s' idx vs lits Hnodup Hvalues).
        by rewrite bool_decide_eq_true_2. }
      destruct (Himps ct0 Hin) as (k & v & l & T & Hk & Hl & HT & ->).
      rewrite holds_implication.
      pose proof (Forall2_lookup_lr _ _ _ _ _ _ Hvalues Hk Hl) as Hv. simpl in Hv.
      rewrite Hv. destruct (Z.eqb_spec idx v) as [<-|]; [|done]. simpl.
      rewrite (encoding_literal_value s' context' target _ T Henc' HT).
      rewrite Hrt, Htv. apply Z.eqb_refl.
    + exact Henc'.
    + apply equalities_hold_spec. intros l b Hlb.
      destruct (Hq l b Hlb) as [Hold|(k & v & Hk & Hl & Hs & Hb)].
      * by apply (proj1 (equalities_hold_spec _ _) Heq0).
      * rewrite (Halias k v l Hk Hl Hs).
        by rewrite (encoding_literal_value s' context' target _ b Henc' Hb).
  - by apply (literal_growth_determined other_holds context context' created).
Qed.

End ConstantArray.
(** * The expansion of an element constraint keeps the solutions *)

Section ElementExpansion.

Variable other_holds : assignment -> Constraint -> bool.

(** [ExpandConstantArrayElement], on an element constraint without
    enforcement literal whose index and target are different variables,
    whose index takes positions of the array only and whose array variables
    at these positions have one value at most (what [ExpandElement] ensures
    before calling it), keeps the solutions: every solution after the
    expansion is a solution before it, every solution before it extends to
    the literals created into a solution after it, and the values of these
    literals are determined by the variables of the model. *)
Theorem ExpandConstantArrayElement_solutions (c : nat) (context : PresolveContext)
    (element : ElementConstraintProto.t) :
  expansion_input other_holds context c (plain (kElement element)) ->
  PositiveRef (ElementConstraintProto.index element)
  <> PositiveRef (ElementConstraintProto.target element) ->
  Forall (fun v => 0 <= v < Z.of_nat (length (ElementConstraintProto.vars element)))
         (Domain.Values (DomainOf context (ElementConstraintProto.index element))) ->
  (forall v, v ∈ Domain.Values (DomainOf context (ElementConstraintProto.index element)) ->
             at_most_one_value (DomainOf context (element_var element v))) ->
  preserves_solutions other_holds context (ExpandConstantArrayElement c context)
  /\ determines_new_variables other_holds context (ExpandConstantArrayElement c context).
Proof. apply constant_array_solutions. Qed.

Lemma element_solutions (c : nat) (context : PresolveContext)
    (element : ElementConstraintProto.t) :
  expansion_input other_holds context c (plain (kElement element)) ->
  ElementConstraintProto.index element = ElementConstraintProto.target element
  \/ PositiveRef (ElementConstraintProto.index element)
     <> PositiveRef (ElementConstraintProto.target element) ->
  Z.of_nat (length (ElementConstraintProto.vars element)) <= kint64max ->
  preserves_solutions other_holds context (ExpandElement c context)
  /\ determines_new_variables other_holds context (ExpandElement c context).
Proof.
  intros Hinput Hvariables Hbound.
  apply (ExpandElement_pipeline other_holds c context element); try done.
  intros ctx Hctx Hother Hrange Hfixed.
  by apply (constant_array_solutions other_holds c ctx element).
Qed.

(** [ExpandElement], on an element constraint [vars[index] == target]
    without enforcement literal, of an array of less than [2^63] entries,
    whose target is the index or another variable than the index, keeps the
    solutions, whichever branch it takes: every solution after the expansion
    is a solution before it, every solution before it extends to the
    literals created into a solution after it, and the values of these
    literals are determined by the variables of the model.  When a domain
    becomes empty the model is declared infeasible and had no solution. *)
Theorem ExpandElement_solutions (c : nat) (context : PresolveContext)
    (element : ElementConstraintProto.t) :
  expansion_input other_holds context c (plain (kElement element)) ->
  ElementConstraintProto.index element = ElementConstraintProto.target element
  \/ PositiveRef (ElementConstraintProto.index element)
     <> PositiveRef (ElementConstraintProto.target element) ->
  Z.of_nat (length (ElementConstraintProto.vars element)) <= kint64max ->
  preserves_solutions other_holds context (ExpandElement c context)
  /\ determines_new_variables other_holds context (ExpandElement c context).
Proof. apply element_solutions. Qed.

End ElementExpansion.

Lemma ExpandElement_solutions_witness :
  preserves_solutions no_other_constraint constant_element_context
    (ExpandElement 0 constant_element_context)
  /\ determines_new_variables no_other_constraint constant_element_context
       (ExpandElement 0 constant_element_context).
Proof.
  apply (ExpandElement_solutions no_other_constraint 0%nat
           constant_element_context constant_element).
  - split; [|reflexivity]. split; [reflexivity|]. split; [reflexivity|].
    split; [apply closed_model_refs; reflexivity|]. split; reflexivity.
  - right. vm_compute. discriminate.
  - vm_compute. discriminate.
Defined.

Lemma ExpandConstantArrayElement_solutions_witness :
  preserves_solutions no_other_constraint reduced_element_context
    (ExpandConstantArrayElement 0 reduced_element_context)
  /\ determines_new_variables no_other_constraint reduced_element_context
       (ExpandConstantArrayElement 0 reduced_element_context).
Proof.
  apply (ExpandConstantArrayElement_solutions no_other_constraint 0%nat
           reduced_element_context constant_element).
  - split; [|reflexivity]. split; [reflexivity|]. split; [reflexivity|].
    split; [apply closed_model_refs; reflexivity|]. split; reflexivity.
  - vm_compute. discriminate.
  - simpl. repeat constructor; lia.
  - intros v Hv x y Hx Hy.
    assert (Hs : sorted_intervals (DomainOf reduced_element_context
                                     (element_var constant_element v)) = true).
    { by apply DomainOf_sorted. }
    pose proof (sorted_intervals_bounds _ _ Hs Hx) as Bx.
    pose proof (sorted_intervals_bounds _ _ Hs Hy) as By.
    change (Domain.Values (DomainOf reduced_element_context
                             (ElementConstraintProto.index constant_element)))
      with [0; 1; 2] in Hv.
    repeat (apply elem_of_cons in Hv as [-> | Hv]); [| | |by apply elem_of_nil in Hv];
      (match type of Bx with
       | Domain.Min ?d <= _ <= _ =>
           let e := eval vm_compute in d in change d with e in Bx, By
       end);
      unfold Domain.Min, Domain.Max in Bx, By; simpl in Bx, By; lia.
Defined.
(** * The expansion of a negated table keeps the solutions *)

(** Without compression the tuples stand for themselves, as soon as none of
    their values is the wildcard. *)
Lemma no_compression_exact (any : Z) (context : PresolveContext)
    (table : TableConstraintProto.t) :
  Forall (Forall (fun x => x <> any)) (table_tuples table) ->
  exact_compression no_compression any context table.
Proof.
  intros Hany s _.
  assert (Hsame : forbidden_tuples no_compression context table = table_tuples table).
  { unfold forbidden_tuples, no_compression. by destruct (table_tuples table). }
  rewrite Hsame. set (vars := TableConstraintProto.vars table). split.
  - intros (tuple & Hin & Hmatch).
    replace (map (ref_value s) vars) with tuple; [done|].
    pose proof (length_table_tuples table tuple Hin) as Hlen. fold vars in Hlen.
    rewrite Forall_forall in Hany. specialize (Hany tuple Hin).
    apply list_eq. intros i. change (map ?f vars) with (f <$> vars).
    rewrite list_lookup_fmap.
    destruct (decide (i < length vars)%nat) as [Hi|Hi].
    + destruct (lookup_lt_is_Some_2 tuple i) as [x Hx]; [lia|].
      destruct (lookup_lt_is_Some_2 vars i) as [var Hvar]; [lia|].
      rewrite Hx, Hvar. simpl. f_equal.
      destruct (Hmatch i Hi) as [E|E]; unfold ref_at in E; rewrite Hx in E; simpl in E.
      * rewrite Forall_forall in Hany. exfalso. apply (Hany x); [|done].
        by apply (list_elem_of_lookup_2 _ i).
      * rewrite Hvar in E. done.
    + rewrite !lookup_ge_None_2 by lia. done.
  - intros Hin. exists (map (ref_value s) vars). split; [done|].
    intros i Hi. right. unfold ref_at. change (map ?f vars) with (f <$> vars).
    rewrite list_lookup_fmap.
    destruct (lookup_lt_is_Some_2 vars i Hi) as [var Hvar]. by rewrite Hvar.
Qed.

Lemma matches_tuple_agree (any n : Z) (s s' : assignment) (vars tuple : list Z) :
  agree n s s' -> Forall (fun var => PositiveRef var < n) vars ->
  matches_tuple any s vars tuple <-> matches_tuple any s' vars tuple.
Proof.
  intros Hagree Hvars. unfold matches_tuple.
  assert (Heq : forall i, (i < length vars)%nat ->
                  ref_value s (ref_at vars i) = ref_value s' (ref_at vars i)).
  { intros i Hi. apply (ref_value_agree n); [done|].
    destruct (lookup_lt_is_Some_2 vars i Hi) as [var Hvar]. unfold ref_at. rewrite Hvar.
    simpl. rewrite Forall_forall in Hvars. apply Hvars. by apply (list_elem_of_lookup_2 _ i). }
  split; intros H i Hi; specialize (H i Hi); [rewrite <- Heq by done|rewrite Heq by done];
    done.
Qed.

Section NegativeTableSolutions.

Variable CompressTuples : list Z -> list (list Z) -> list (list Z).
Variable any : Z.
Variable other_holds : assignment -> Constraint -> bool.

Lemma negative_table_solutions (c : nat) (context : PresolveContext)
    (table : TableConstraintProto.t) :
  well_formed_input other_holds context c (plain (kTable table)) ->
  TableConstraintProto.negated table = true ->
  (forall s, other_holds s (kTable table) = table_holds s table) ->
  exact_compression CompressTuples any context table ->
  let context' := ExpandNegativeTable CompressTuples any c context in
  preserves_solutions other_holds context context'
  /\ determines_new_variables other_holds context context'.
Proof.
  intros (Hc & Hinit & Hclosed & Hcache & Hrefs) Hneg Hsem Hexact context'.
  set (n := variables_size context) in *.
  assert (Hat : table_of (constraint_at c context) = table).
  { unfold table_of, constraint_at. by rewrite Hc. }
  assert (Hvars : Forall (fun var => PositiveRef var < n) (TableConstraintProto.vars table)).
  { apply Forall_forall. intros var Hvar.
    unfold refs_below, UsedVariables in Hrefs. simpl in Hrefs.
    rewrite forallb_forall in Hrefs. apply Z.ltb_lt, Hrefs, in_map.
    by apply list_elem_of_In. }
  destruct (negative_table_meaning CompressTuples any other_holds c context Hinit)
    as (created & news & Hexp & Hmeaning).
  { rewrite Hat. apply forallb_forall. intros var Hvar. apply Z.ltb_lt.
    rewrite Forall_forall in Hvars. by apply Hvars, list_elem_of_In. }
  rewrite Hat in Hmeaning. fold context' in Hexp, Hmeaning.
  pose proof (encoding_expansion_shape _ _ _ _ _ _ Hexp) as Hshape.
  assert (Htable : forall s,
            holds other_holds s (plain (kTable table))
            = negb (bool_decide (map (ref_value s) (TableConstraintProto.vars table)
                                 ∈ table_tuples table))).
  { intros s. transitivity (other_holds s (kTable table)); [reflexivity|].
    rewrite Hsem. unfold table_holds. by rewrite Hneg. }
  split; [split|].
  - intros s Hs.
    refine (expansion_projection other_holds context context' c _ _ _ s Hshape Hc Hs _).
    apply solution_spec in Hs as (_ & Hdom' & Hcons' & Henc' & _).
    assert (Hdom : domains_hold s (domains context) = true).
    { apply domains_hold_spec. intros i d Hi. destruct Hshape as (Hd & _).
      destruct (Hd i d Hi) as (d' & Hi' & Hsub). apply Hsub.
      by apply (proj1 (domains_hold_spec _ _) Hdom' i). }
    rewrite Htable. apply negb_true_iff, bool_decide_eq_false. intros Hin.
    apply (Hexact s Hdom) in Hin as (tuple & Htuple & Hmatch).
    assert (Hnews : forallb (holds other_holds s) news = true).
    { apply forallb_forall. intros ct Hct. apply Hcons'. destruct Hexp as [_ ->].
      apply elem_of_app. right. by apply list_elem_of_In. }
    by apply (proj1 (Hmeaning s Henc') Hnews tuple).
  - intros s Hs. exists (override s n (created_values s created)).
    split; [apply override_agree|].
    apply (encoding_expansion_extension other_holds context context' c
             ConstraintProto.cleared created news s Hexp Hinit Hclosed Hcache Hs);
      [reflexivity|].
    set (s' := override s n (created_values s created)).
    assert (Hagree : agree n s s') by apply override_agree.
    apply solution_spec in Hs as (_ & Hdom & Hcons & Henc & Heq).
    assert (Henc' : encoding_holds s' (encoding context') = true).
    { destruct Hexp as [Hgrowth _]. by apply encoding_growth_holds. }
    assert (Hct : holds other_holds s (plain (kTable table)) = true).
    { apply Hcons. by apply (list_elem_of_lookup_2 _ c). }
    rewrite Htable in Hct. apply negb_true_iff, bool_decide_eq_false in Hct.
    assert (Hnews : forallb (holds other_holds s') news = true).
    { apply (Hmeaning s' Henc'). intros tuple Htuple Hmatch. apply Hct.
      apply (Hexact s Hdom). exists tuple. split; [done|].
      by apply (matches_tuple_agree any n s s'). }
    intros ct Hin. rewrite forallb_forall in Hnews. by apply Hnews, list_elem_of_In.
  - by apply (encoding_expansion_determined other_holds context context' c
                ConstraintProto.cleared created news Hexp).
Qed.


End NegativeTableSolutions.

Lemma negated_cycle_context_closed : closed_model table_semantics negated_cycle_context.
Proof.
  apply closed_model_refs; [reflexivity|].
  intros s s' ct Hct Hagree. apply list_elem_of_singleton in Hct as ->.
  simpl. unfold table_holds. simpl.
  by rewrite (ref_value_agree 2 s s' 0), (ref_value_agree 2 s s' 1).
Qed.

(** * The expansion of an inverse constraint keeps the solutions *)

Lemma inverse_points_spec (s : assignment) (a b : list Z) :
  inverse_points s a b = true
  <-> forall i, (i < length a)%nat ->
        0 <= ref_value s (ref_at a i) < Z.of_nat (length a)
        /\ ref_value s (ref_at b (Z.to_nat (ref_value s (ref_at a i)))) = Z.of_nat i.
Proof.
  unfold inverse_points. rewrite forallb_forall. split.
  - intros H i Hi. specialize (H i). rewrite <- list_elem_of_In, elem_of_seq in H.
    specialize (H ltac:(lia)). rewrite !andb_true_iff, Z.leb_le, Z.ltb_lt, Z.eqb_eq in H.
    tauto.
  - intros H i Hi. rewrite <- list_elem_of_In, elem_of_seq in Hi.
    destruct (H i ltac:(lia)) as [[H0 H1] H2].
    rewrite !andb_true_iff, Z.leb_le, Z.ltb_lt, Z.eqb_eq. tauto.
Qed.

(** In a solution of an inverse constraint, [f_direct[i] == j] exactly when
    [f_inverse[j] == i]. *)
Lemma inverse_holds_linked (s : assignment) (inverse : InverseConstraintProto.t) (i : nat)
    (j : Z) :
  let f_direct := InverseConstraintProto.f_direct inverse in
  let f_inverse := InverseConstraintProto.f_inverse inverse in
  inverse_holds s inverse = true ->
  length f_direct = length f_inverse ->
  (i < length f_direct)%nat -> 0 <= j < Z.of_nat (length f_direct) ->
  ref_value s (ref_at f_direct i) = j
  <-> ref_value s (ref_at f_inverse (Z.to_nat j)) = Z.of_nat i.
Proof.
  intros f r Hholds Hlen Hi Hj. unfold inverse_holds in Hholds. fold f r in Hholds.
  apply andb_true_iff in Hholds as [Hf Hr].
  rewrite inverse_points_spec in Hf, Hr. split.
  - intros <-. by destruct (Hf i Hi).
  - intros E. destruct (Hr (Z.to_nat j) ltac:(lia)) as [_ Hback].
    rewrite E, Nat2Z.id in Hback. lia.
Qed.

Lemma ref_at_lookup (l : list Z) (i : nat) : (i < length l)%nat -> l !! i = Some (ref_at l i).
Proof.
  intros Hi. destruct (lookup_lt_is_Some_2 l i Hi) as [x Hx]. unfold ref_at. by rewrite Hx.
Qed.

Lemma ref_at_elem (l : list Z) (i : nat) : (i < length l)%nat -> ref_at l i ∈ l.
Proof. intros Hi. apply (list_elem_of_lookup_2 _ i). by apply ref_at_lookup. Qed.

Lemma for_each_seq_invariant {T : Type} (Inv : nat -> T -> Prop) (Fail : T -> Prop)
    (body : nat -> T -> flow T) (n : nat) :
  (forall k s, (k < n)%nat -> Inv k s ->
     match body k s with Continue s' => Inv (S k) s' | Return s' => Fail s' end) ->
  forall m k s, (k + m = n)%nat -> Inv k s ->
    match for_each body (seq k m) s with Continue s' => Inv n s' | Return s' => Fail s' end.
Proof.
  intros Hstep m. induction m as [|m IH]; intros k s Hk Hinv; cbn [seq for_each].
  - by replace n with k by lia.
  - specialize (Hstep k s ltac:(lia) Hinv). destruct (body k s) as [s'|s']; [|done].
    apply IH; [lia|done].
Qed.

Lemma for_each_list_invariant {A T : Type} (Inv : list A -> T -> Prop) (Fail : T -> Prop)
    (P : A -> Prop) (body : A -> T -> flow T) (l : list A) :
  (forall p x s, P x -> Inv p s ->
     match body x s with Continue s' => Inv (p ++ [x]) s' | Return s' => Fail s' end) ->
  Forall P l ->
  forall p s, Inv p s ->
    match for_each body l s with Continue s' => Inv (p ++ l) s' | Return s' => Fail s' end.
Proof.
  intros Hstep HP. induction HP as [|x l Hx _ IH]; intros p s Hinv; cbn [for_each].
  - by rewrite app_nil_r.
  - specialize (Hstep p x s Hx Hinv). destruct (body x s) as [s'|s']; [|done].
    replace (p ++ x :: l) with ((p ++ [x]) ++ l) by (by rewrite <- app_assoc).
    by apply IH.
Qed.

Section InverseReductions.

Variable other_holds : assignment -> Constraint -> bool.
Variable c : nat.
Variable ct : ConstraintProto.t.
Variable context : PresolveContext.

(** One reduction of the domain of a reference, as a loop body. *)
Lemma intersect_or_return_reduced (ref : Z) (d : Domain.t) (ctx : PresolveContext) :
  reduced_model other_holds c ct context ctx ->
  PositiveRef ref < variables_size ctx ->
  (forall s, solution other_holds s ctx = true ->
             Domain.Contains d (ref_value s ref) = true) ->
  match intersect_or_return ref d ctx with
  | Continue ctx' =>
      reduced_model other_holds c ct context ctx'
      /\ ctx' = (IntersectDomainWith ref d ctx).2
  | Return ctx' => infeasible_model other_holds context ctx'
  end.
Proof.
  intros [Hsame Hinput] Href Hsound. unfold intersect_or_return.
  destruct (reduction_step other_holds context ctx c ct ref d Hsame Hinput Href Hsound)
    as (Hsame' & Hinput' & Hfail).
  destruct (IntersectDomainWith ref d ctx) as [[ok changed] ctx'].
  cbn [fst snd] in *. destruct ok.
  - split; [|reflexivity]. by split.
  - split; [done|by apply Hfail].
Qed.

(** The first loops of [ExpandInverse]: the values of the references are
    positions of the arrays. *)
Lemma inverse_bounds_loop (n : nat) (refs : list Z) :
  (forall ctx s, reduced_model other_holds c ct context ctx ->
     solution other_holds s ctx = true ->
     forall ref, ref ∈ refs -> 0 <= ref_value s ref < Z.of_nat n) ->
  Forall (fun ref => PositiveRef ref < variables_size context) refs ->
  reduced_model other_holds c ct context context ->
  match for_each (fun ref => intersect_or_return ref (Domain.Range 0 (Z.of_nat n - 1)))
                 refs context with
  | Continue ctx' =>
      reduced_model other_holds c ct context ctx' /\ positions_below n refs ctx'
  | Return ctx' => infeasible_model other_holds context ctx'
  end.
Proof.
  intros Hsound Hbelow Hstart.
  pose proof (for_each_list_invariant
                (fun p ctx => reduced_model other_holds c ct context ctx
                              /\ positions_below n p ctx)
                (infeasible_model other_holds context)
                (fun ref => ref ∈ refs /\ PositiveRef ref < variables_size context)
                (fun ref => intersect_or_return ref (Domain.Range 0 (Z.of_nat n - 1)))
                refs) as Hloop.
  apply (Hloop) with (p := []).
  - intros p ref ctx [Hin Href] [Hred Hpos].
    pose proof (intersect_or_return_reduced ref (Domain.Range 0 (Z.of_nat n - 1)) ctx Hred)
      as Hstep.
    destruct (intersect_or_return ref (Domain.Range 0 (Z.of_nat n - 1)) ctx) as [ctx'|ctx'].
    + destruct Hstep as [Hred' ->].
      { destruct Hred as [[-> _] _]. done. }
      { intros s Hs. rewrite DomainFacts.Contains_Range.
        pose proof (Hsound ctx s Hred Hs ref Hin). apply andb_true_iff.
        split; apply Z.leb_le; lia. }
      split; [done|]. intros ref' v Hin' Hv.
      apply elem_of_app in Hin' as [Hin'|Hin'%list_elem_of_singleton].
      * apply (Hpos ref' v Hin'). by eapply IntersectDomainWith_shrinks.
      * subst ref'. rewrite IntersectDomainWith_Contains in Hv.
        apply andb_true_iff in Hv as [_ Hv]. rewrite DomainFacts.Contains_Range in Hv.
        apply andb_true_iff in Hv as [H0 H1]. apply Z.leb_le in H0, H1. lia.
    + apply Hstep.
      * destruct Hred as [[-> _] _]. done.
      * intros s Hs. rewrite DomainFacts.Contains_Range.
        pose proof (Hsound ctx s Hred Hs ref Hin). apply andb_true_iff.
        split; apply Z.leb_le; lia.
  - apply Forall_forall. intros ref Hin. split; [done|].
    rewrite Forall_forall in Hbelow. by apply Hbelow.
  - split; [done|]. intros ref v Hin. by apply elem_of_nil in Hin.
Qed.

(** One pass of [filter_inverse_domain], when the variables of the two
    arrays are pairwise distinct. *)
Lemma filter_inverse_domain_reduced (n : nat) (direct inverse : list Z)
    (ctx0 : PresolveContext) :
  length direct = n -> length inverse = n ->
  NoDup (map PositiveRef (direct ++ inverse)) ->
  Forall (fun ref => PositiveRef ref < variables_size context) (direct ++ inverse) ->
  positions_below n direct ctx0 ->
  (forall ctx s, reduced_model other_holds c ct context ctx ->
     solution other_holds s ctx = true ->
     forall i, (i < n)%nat ->
       ref_value s (ref_at inverse (Z.to_nat (ref_value s (ref_at direct i)))) = Z.of_nat i) ->
  reduced_model other_holds c ct context ctx0 ->
  match filter_inverse_domain n direct inverse ctx0 with
  | Continue ctx' =>
      reduced_model other_holds c ct context ctx'
      /\ inverse_filtered direct inverse ctx0 ctx'
  | Return ctx' => infeasible_model other_holds context ctx'
  end.
Proof.
  intros Hld Hli Hnodup Hbelow Hpos Hsound Hstart.
  rewrite fmap_app in Hnodup. apply NoDup_app in Hnodup as (Hnd & Hdisjoint & Hni).
  rewrite Forall_app in Hbelow. destruct Hbelow as [Hbd Hbi].
  assert (Hdirect : forall i i', (i < n)%nat -> (i' < n)%nat -> i <> i' ->
            PositiveRef (ref_at direct i) <> PositiveRef (ref_at direct i')).
  { intros i i' Hi Hi' Hne E. apply Hne.
    apply (NoDup_lookup _ i i' (PositiveRef (ref_at direct i)) Hnd).
    - by rewrite list_lookup_fmap, ref_at_lookup by lia.
    - by rewrite list_lookup_fmap, ref_at_lookup, E by lia. }
  assert (Hinverse : forall j, 0 <= j < Z.of_nat n ->
            PositiveRef (ref_at inverse (Z.to_nat j)) ∉ map PositiveRef direct).
  { intros j Hj Hin. apply (Hdisjoint _ Hin). apply list_elem_of_fmap_2.
    apply ref_at_elem. lia. }
  assert (Hsize : forall ctx, reduced_model other_holds c ct context ctx ->
                    variables_size ctx = variables_size context).
  { by intros ctx [[-> _] _]. }
  set (Inv := fun (k : nat) (ctx : PresolveContext) =>
         reduced_model other_holds c ct context ctx
         /\ (forall i j, (i < k)%nat ->
               Domain.Contains (DomainOf ctx (ref_at direct i)) j = true
               <-> Domain.Contains (DomainOf ctx0 (ref_at direct i)) j = true
                   /\ Domain.Contains (DomainOf ctx0 (ref_at inverse (Z.to_nat j)))
                        (Z.of_nat i) = true)
         /\ (forall i, (k <= i < n)%nat ->
               DomainOf ctx (ref_at direct i) = DomainOf ctx0 (ref_at direct i))
         /\ (forall ref, PositiveRef ref ∉ map PositiveRef direct ->
                         DomainOf ctx ref = DomainOf ctx0 ref)).
  set (body := fun (i : nat) (context : PresolveContext) =>
         let domain := DomainOf context (ref_at direct i) in
         let possible_values :=
           filter (fun j => Domain.Contains
                              (DomainOf context (ref_at inverse (Z.to_nat j)))
                              (Z.of_nat i) = true)
                  (Domain.Values domain) in
         let removed_value :=
           negb (length possible_values =? length (Domain.Values domain))%nat in
         if removed_value
         then intersect_or_return (ref_at direct i)
                (Domain.FromValues possible_values) context
         else Continue context).
  unfold filter_inverse_domain. fold body.
  assert (Hmain : match for_each body (seq 0 n) ctx0 with
                  | Continue s' => Inv n s'
                  | Return s' => infeasible_model other_holds context s'
                  end);
    [apply (for_each_seq_invariant Inv (infeasible_model other_holds context) body n)
       with (m := n) (k := 0%nat)|].
  - (* one index *)
    intros k ctx Hk (Hred & Hdone & Htodo & Hframe). unfold body. cbv zeta.
    set (domain := DomainOf ctx (ref_at direct k)).
    assert (Hdomain : domain = DomainOf ctx0 (ref_at direct k)) by (apply Htodo; lia).
    assert (Hvalid : forall j, Domain.Contains domain j = true -> 0 <= j < Z.of_nat n).
    { intros j Hj. rewrite Hdomain in Hj. apply (Hpos (ref_at direct k) j); [|done].
      apply ref_at_elem. lia. }
    assert (Hinv_dom : forall j, Domain.Contains domain j = true ->
              DomainOf ctx (ref_at inverse (Z.to_nat j))
              = DomainOf ctx0 (ref_at inverse (Z.to_nat j))).
    { intros j Hj. by apply Hframe, Hinverse, Hvalid. }
    set (possible_values := filter _ (Domain.Values domain)).
    assert (Hpossible : forall j, j ∈ possible_values <->
              Domain.Contains (DomainOf ctx0 (ref_at direct k)) j = true
              /\ Domain.Contains (DomainOf ctx0 (ref_at inverse (Z.to_nat j))) (Z.of_nat k)
                 = true).
    { intros j. unfold possible_values. rewrite list_elem_of_filter.
      rewrite DomainFacts.elem_of_Values. rewrite <- Hdomain. split.
      - intros [Hin Hj]. rewrite <- (Hinv_dom j Hj). done.
      - intros [Hj Hin]. rewrite (Hinv_dom j Hj). done. }
    destruct (length possible_values =? length (Domain.Values domain))%nat eqn:Hremoved;
      cbn [negb].
    + (* no value is removed *)
      apply Nat.eqb_eq in Hremoved. apply length_filter_all in Hremoved.
      rewrite Forall_forall in Hremoved.
      split; [done|]. split; [|split; [|done]].
      * intros i j Hi. destruct (decide (i = k)) as [->|Hne]; [|apply Hdone; lia].
        fold domain. split.
        -- intros Hj. split; [by rewrite <- Hdomain|].
           rewrite <- (Hinv_dom j Hj). apply Hremoved. by apply DomainFacts.elem_of_Values.
        -- intros [Hj _]. by rewrite Hdomain.
      * intros i Hi. apply Htodo. lia.
    + (* the domain is reduced to the possible values *)
      pose proof (intersect_or_return_reduced (ref_at direct k)
                    (Domain.FromValues possible_values) ctx Hred) as Hstep.
      assert (Href : PositiveRef (ref_at direct k) < variables_size ctx).
      { rewrite (Hsize ctx Hred). rewrite Forall_forall in Hbd. apply Hbd, ref_at_elem. lia. }
      assert (Hkept : forall s, solution other_holds s ctx = true ->
                Domain.Contains (Domain.FromValues possible_values)
                  (ref_value s (ref_at direct k)) = true).
      { intros s Hs. apply DomainFacts.Contains_FromValues.
        pose proof Hred as [_ ((_ & Hinit & _) & _)].
        pose proof Hs as Hs0. apply solution_spec in Hs0 as (_ & Hdom & _).
        assert (Hj : Domain.Contains domain (ref_value s (ref_at direct k)) = true).
        { apply DomainOf_holds; [done|]. by rewrite (initialized_size ctx Hinit). }
        apply Hpossible. rewrite <- Hdomain. split; [done|].
        rewrite <- (Hinv_dom _ Hj). rewrite <- (Hsound ctx s Hred Hs k Hk).
        apply DomainOf_holds; [done|]. rewrite (initialized_size ctx Hinit), (Hsize ctx Hred).
        rewrite Forall_forall in Hbi. apply Hbi, ref_at_elem.
        pose proof (Hvalid _ Hj). lia. }
      specialize (Hstep Href Hkept).
      destruct (intersect_or_return (ref_at direct k) (Domain.FromValues possible_values) ctx)
        as [ctx'|ctx']; [|done].
      destruct Hstep as [Hred' ->]. split; [done|]. split; [|split].
      * intros i j Hi. destruct (decide (i = k)) as [->|Hne].
        -- rewrite IntersectDomainWith_Contains, andb_true_iff.
           rewrite DomainFacts.Contains_FromValues, Hpossible. fold domain.
           rewrite Hdomain. tauto.
        -- rewrite IntersectDomainWith_other by (apply Hdirect; lia). apply Hdone. lia.
      * intros i Hi. rewrite IntersectDomainWith_other by (apply Hdirect; lia).
        apply Htodo. lia.
      * intros ref Href'. rewrite IntersectDomainWith_other; [by apply Hframe|].
        intros E. apply Href'. rewrite E. apply list_elem_of_fmap_2, ref_at_elem. lia.
  - done.
  - split; [done|]. split; [intros i j Hi; lia|]. by split.
  - destruct (for_each body (seq 0 n) ctx0) as [ctx'|ctx']; [|done].
    destruct Hmain as (Hred & Hdone & _ & Hframe). split; [done|]. split; [|done].
    intros i j Hi. apply Hdone. lia.
Qed.

End InverseReductions.

(** [InsertVarValueEncoding] keeps the growth of the cache. *)
Lemma literal_growth_insert (context0 context : PresolveContext) (created : list (Z * Z))
    (lit ref value : Z) :
  literal_growth context0 context created ->
  literal_growth context0 (InsertVarValueEncoding lit ref value context) created.
Proof.
  intros (Hd & Hn & Hnew & Hstable & Hu & Hinit).
  pose proof (InsertVarValueEncoding_cases lit ref value context)
    as (Hdom & Hvar & Hcons & Hunsat & Hcases).
  pose proof (InsertVarValueEncoding_spec lit ref value context)
    as (_ & _ & _ & Hstable' & _ & _).
  cbv zeta in Hstable'.
  split; [by rewrite Hdom|]. split; [unfold variables_size; by rewrite Hvar|].
  split; [|split; [|split]].
  - intros j key Hj. destruct (Hnew j key Hj) as [H1 H2]. split; [by apply Hstable'|done].
  - intros key l Hk. by apply Hstable', Hstable.
  - by rewrite Hunsat.
  - unfold initialized. by rewrite Hdom, Hvar.
Qed.

(** [GetOrCreateVarValueEncoding] extends the growth of the cache by the
    key when it creates its literal. *)
Lemma literal_growth_create (context0 context : PresolveContext) (created : list (Z * Z))
    (ref value : Z) :
  literal_growth context0 context created ->
  0 <= (encoding_key ref value).1 < variables_size context0 ->
  let r := GetOrCreateVarValueEncoding ref value context in
  exists extra,
    literal_growth context0 r.2 (created ++ extra)
    /\ encoding r.2 !! encoding_key ref value = Some r.1
    /\ equalities r.2 = equalities context
    /\ (forall key lit, encoding r.2 !! key = Some lit ->
          encoding context !! key = Some lit
          \/ (key = encoding_key ref value /\ extra = [key]
              /\ lit = variables_size context0 + Z.of_nat (length created))).
Proof.
  intros (Hd & Hn & Hnew & Hstable & Hu & Hinit) Hkey r.
  pose proof (GetOrCreateVarValueEncoding_cases ref value context Hinit) as Hcases.
  cbv zeta in Hcases. fold r in Hcases.
  destruct Hcases
    as [[Hfound Hsame] | (Hnone & Hlit & Hd' & Hn' & Hinit' & He' & Hc' & Hq' & Hu')].
  - exists []. rewrite Hsame, app_nil_r. split; [by repeat (split; [done|])|].
    split; [done|]. split; [done|]. by left.
  - assert (Hstable' : encoding_stable context r.2).
    { intros key lit Hk. rewrite He'. rewrite lookup_insert_ne; [done|]. congruence. }
    exists [encoding_key ref value]. split; [|split; [|split]].
    + unfold literal_growth. rewrite length_app. simpl.
      split; [|split; [|split; [|split; [|split]]]].
      * rewrite Hd', Hd, <- app_assoc. f_equal.
        by rewrite Nat.add_1_r, replicate_S_end.
      * rewrite Hn', Hn. lia.
      * intros j key H. apply lookup_app_Some in H as [H | [Hge H]].
        -- destruct (Hnew j key H) as [H1 H2]. split; [by apply Hstable'|done].
        -- apply list_lookup_singleton_Some in H as [Hj <-]. split; [|done].
           rewrite He', Hn. replace j with (length created) by lia.
           by rewrite lookup_insert_eq.
      * intros key lit Hk. by apply Hstable', Hstable.
      * by rewrite Hu'.
      * done.
    + by rewrite He', Hlit, lookup_insert_eq.
    + done.
    + intros key lit. rewrite He'. intros Hk.
      destruct (decide (key = encoding_key ref value)) as [->|Hne].
      * rewrite lookup_insert_eq in Hk. injection Hk as <-. right.
        split; [done|]. split; [done|]. rewrite Hn. lia.
      * rewrite lookup_insert_ne in Hk by done. by left.
Qed.

(** The cache means what it says after [InsertVarValueEncoding] of a
    literal of the cache for a test equivalent to the one of its key. *)
Lemma insert_cache_holds (s : assignment) (context : PresolveContext)
    (lit ref value : Z) (key0 : Z * Z) :
  cache_holds s context ->
  encoding context !! key0 = Some lit ->
  (s key0.1 =? key0.2) = (ref_value s ref =? value) ->
  cache_holds s (InsertVarValueEncoding lit ref value context).
Proof.
  intros [Henc Heq] Hkey0 Hsame.
  pose proof (proj1 (encoding_holds_spec _ _) Henc) as He.
  pose proof (proj1 (equalities_hold_spec _ _) Heq) as Hq.
  assert (Hlit : literal_value s lit = (ref_value s ref =? value)).
  { by rewrite (He key0 lit Hkey0). }
  pose proof (InsertVarValueEncoding_cases lit ref value context)
    as (_ & _ & _ & _ & Hcases).
  cbv zeta in Hcases. unfold cache_holds.
  destruct Hcases as [(Hnone & -> & ->) | (previous & Hprev & -> & [[_ ->] | ->])].
  - split; [|done]. apply encoding_holds_spec. intros key l Hk.
    destruct (decide (key = encoding_key ref value)) as [->|Hne].
    + rewrite lookup_insert_eq in Hk. injection Hk as <-.
      by rewrite encoding_key_value.
    + rewrite lookup_insert_ne in Hk by done. by apply He.
  - done.
  - split; [done|]. apply equalities_hold_spec. intros a b Hab.
    apply elem_of_app in Hab as [Hab|Hab]; [by apply Hq|].
    apply list_elem_of_singleton in Hab. injection Hab as -> ->.
    rewrite Hlit, (He _ _ Hprev). by rewrite encoding_key_value.
Qed.

(** One step of the last loop of [ExpandInverse]. *)
Lemma inverse_share_step (context0 : PresolveContext) (f_direct f_inverse : list Z)
    (pairs : list (nat * Z)) (created : list (Z * Z)) (context : PresolveContext)
    (i : nat) (j : Z) :
  inverse_share_invariant context0 f_direct f_inverse pairs created context ->
  PositiveRef (ref_at f_direct i) < variables_size context0 ->
  PositiveRef (ref_at f_inverse (Z.to_nat j)) < variables_size context0 ->
  exists created',
    inverse_share_invariant context0 f_direct f_inverse (pairs ++ [(i, j)]) created'
      (inverse_share_literal f_direct f_inverse i context j).
Proof.
  intros (Hgrowth & Hcons & Hq0 & Hshared & Hsem) Hf Hr.
  set (n := variables_size context0) in *.
  destruct (inverse_share_literal_spec f_direct f_inverse i context j)
    as [Hgrows Hpair].
  set (f_i := ref_at f_direct i) in *. set (r_j := ref_at f_inverse (Z.to_nat j)) in *.
  assert (Hlink : forall (s s' : assignment),
            agree n s s' ->
            (ref_value s f_i = j <-> ref_value s r_j = Z.of_nat i) ->
            (ref_value s' f_i =? j) = (ref_value s' r_j =? Z.of_nat i)).
  { intros s s' Hagree Hiff.
    rewrite <- (ref_value_agree n s s' f_i Hagree Hf).
    rewrite <- (ref_value_agree n s s' r_j Hagree Hr).
    destruct (Z.eqb_spec (ref_value s f_i) j), (Z.eqb_spec (ref_value s r_j) (Z.of_nat i));
      tauto. }
  assert (Hshared' : forall i' j', (i', j') ∈ pairs ++ [(i, j)] ->
            literals_shared (inverse_share_literal f_direct f_inverse i context j)
              (ref_at f_direct i') j' (ref_at f_inverse (Z.to_nat j')) (Z.of_nat i')).
  { intros i' j' Hin. apply elem_of_app in Hin as [Hin|Hin].
    - eapply literals_shared_grows; [exact Hgrows|]. by apply Hshared.
    - apply list_elem_of_singleton in Hin. injection Hin as -> ->. exact Hpair. }
  assert (Hcons' : constraints (inverse_share_literal f_direct f_inverse i context j)
                   = constraints context0).
  { destruct Hgrows as (_ & _ & _ & ->). done. }
  assert (Hq0' : forall ab, ab ∈ equalities context0 ->
                   ab ∈ equalities (inverse_share_literal f_direct f_inverse i context j)).
  { intros ab Hab. destruct Hgrows as (_ & Hq & _). by apply Hq, Hq0. }
  unfold inverse_share_literal in *. cbv zeta in *. fold f_i r_j in Hshared', Hcons', Hq0' |- *.
  unfold HasVarValueEncoding in *.
  destruct (encoding context !! encoding_key r_j (Z.of_nat i)) as [l|] eqn:Hentry.
  - (* the literal of the inverse exists *)
    exists created. split; [by apply literal_growth_insert|].
    split; [done|]. split; [done|]. split; [done|].
    intros s Hs0 Hlinks rest.
    apply (insert_cache_holds _ context l f_i j (encoding_key r_j (Z.of_nat i))).
    + apply Hsem; [done|]. intros i' j' Hin. apply Hlinks. apply elem_of_app. by left.
    + done.
    + rewrite encoding_key_value. symmetry. apply (Hlink s); [apply override_agree|].
      apply Hlinks. apply elem_of_app. right. apply list_elem_of_here.
  - (* the literal of the direct variable is created or found *)
    assert (Hkey : 0 <= (encoding_key f_i j).1 < n).
    { rewrite encoding_key_variable. split; [apply PositiveRef_nonneg | done]. }
    destruct (literal_growth_create context0 context created f_i j Hgrowth Hkey)
      as (extra & Hgrowth_a & Hlit & Heq_a & Hentries).
    destruct (GetOrCreateVarValueEncoding f_i j context) as [l context_a].
    cbn [fst snd] in Hgrowth_a, Hlit, Heq_a, Hentries.
    exists (created ++ extra). split; [by apply literal_growth_insert|].
    split; [done|]. split; [done|]. split; [done|].
    intros s Hs0 Hlinks rest.
    set (s' := override s n (created_values s ((created ++ extra) ++ rest))).
    assert (Hagree : agree n s s') by apply override_agree.
    apply (insert_cache_holds s' context_a l r_j (Z.of_nat i) (encoding_key f_i j)).
    + assert (Hold : cache_holds s' context).
      { unfold s'. rewrite <- app_assoc. apply Hsem; [done|].
        intros i' j' Hin. apply Hlinks. apply elem_of_app. by left. }
      destruct Hold as [Henc Heq]. split; [|by rewrite Heq_a].
      apply encoding_holds_spec. intros key lit Hk.
      destruct (Hentries key lit Hk) as [Hk0 | (-> & Hextra & ->)].
      * by apply (proj1 (encoding_holds_spec _ _) Henc).
      * rewrite <- (Hagree _ Hkey).
        apply literal_value_b2z; [pose proof (PositiveRef_nonneg f_i); lia|].
        unfold s'. apply override_new. rewrite Hextra. unfold created_values.
        rewrite <- !app_assoc, map_app. change (map ?g created) with (g <$> created).
        rewrite lookup_app_r by (by rewrite length_fmap).
        by rewrite length_fmap, Nat.sub_diag.
    + done.
    + rewrite encoding_key_value. apply (Hlink s); [done|].
      apply Hlinks. apply elem_of_app. right. apply list_elem_of_here.
Qed.

(** The last loop of [ExpandInverse], for the indices [indices]. *)
Lemma inverse_share_loops (context0 : PresolveContext) (f_direct f_inverse : list Z)
    (indices : list nat) :
  initialized context0 ->
  (forall i j, i ∈ indices ->
     j ∈ Domain.Values (DomainOf context0 (ref_at f_direct i)) ->
     PositiveRef (ref_at f_direct i) < variables_size context0
     /\ PositiveRef (ref_at f_inverse (Z.to_nat j)) < variables_size context0) ->
  (forall i, i ∈ indices -> PositiveRef (ref_at f_direct i) < variables_size context0) ->
  forall pairs created context,
    inverse_share_invariant context0 f_direct f_inverse pairs created context ->
    exists created',
      inverse_share_invariant context0 f_direct f_inverse
        (pairs ++ inverse_pairs context0 f_direct indices) created'
        (foldl (fun context i =>
                  foldl (inverse_share_literal f_direct f_inverse i) context
                        (Domain.Values (DomainOf context (ref_at f_direct i))))
               context indices).
Proof.
  intros Hinit0 Hbelow Hdirect.
  assert (Hinner : forall i js,
            Forall (fun j => PositiveRef (ref_at f_direct i) < variables_size context0
                             /\ PositiveRef (ref_at f_inverse (Z.to_nat j))
                                < variables_size context0) js ->
            forall pairs created context,
              inverse_share_invariant context0 f_direct f_inverse pairs created context ->
              exists created',
                inverse_share_invariant context0 f_direct f_inverse
                  (pairs ++ map (pair i) js) created'
                  (foldl (inverse_share_literal f_direct f_inverse i) context js)).
  { intros i js Hjs. induction Hjs as [|j js [Hf Hr] _ IH]; intros pairs created context Hinv.
    - exists created. by rewrite app_nil_r.
    - destruct (inverse_share_step context0 f_direct f_inverse pairs created context i j
                  Hinv Hf Hr) as (created1 & Hinv1).
      destruct (IH _ _ _ Hinv1) as (created2 & Hinv2).
      exists created2. cbn [foldl map]. by rewrite <- app_assoc in Hinv2. }
  induction indices as [|i indices IH]; intros pairs created context Hinv.
  - exists created. unfold inverse_pairs. simpl. by rewrite app_nil_r.
  - cbn [foldl]. unfold inverse_pairs. cbn [flat_map].
    assert (Hdomain : DomainOf context (ref_at f_direct i)
                      = DomainOf context0 (ref_at f_direct i)).
    { apply DomainOf_prefix.
      - destruct Hinv as (Hgrowth & _). by apply (literal_growth_prefix _ _ created).
      - rewrite initialized_size by done. apply Hdirect. by left. }
    rewrite Hdomain.
    destruct (Hinner i (Domain.Values (DomainOf context0 (ref_at f_direct i))))
      with (pairs := pairs) (created := created) (context := context)
      as (created1 & Hinv1); [|done|].
    { apply Forall_forall. intros j Hj. apply Hbelow; [by left|done]. }
    destruct (IH) with (pairs := pairs ++ map (pair i)
                                   (Domain.Values (DomainOf context0 (ref_at f_direct i))))
                       (created := created1)
                       (context := foldl (inverse_share_literal f_direct f_inverse i) context
                                     (Domain.Values (DomainOf context0 (ref_at f_direct i))))
      as (created2 & Hinv2).
    + intros i' j Hi' Hj. apply Hbelow; [by right|done].
    + intros i' Hi'. apply Hdirect. by right.
    + done.
    + exists created2. by rewrite <- app_assoc in Hinv2.
Qed.

Lemma elem_of_inverse_pairs (context : PresolveContext) (f_direct : list Z)
    (indices : list nat) (i : nat) (j : Z) :
  (i, j) ∈ inverse_pairs context f_direct indices
  <-> i ∈ indices /\ Domain.Contains (DomainOf context (ref_at f_direct i)) j = true.
Proof.
  unfold inverse_pairs. rewrite list_elem_of_In, in_flat_map. split.
  - intros (i' & Hi' & Hin). apply in_map_iff in Hin as (j' & [= <- <-] & Hj').
    split; [by apply list_elem_of_In|].
    by apply DomainFacts.elem_of_Values, list_elem_of_In.
  - intros [Hi Hj]. exists i. split; [by apply list_elem_of_In|].
    apply in_map. by apply list_elem_of_In, DomainFacts.elem_of_Values.
Qed.

Lemma inverse_share_invariant_start (context : PresolveContext) (f_direct f_inverse : list Z) :
  initialized context ->
  cache_below (variables_size context) context = true ->
  inverse_share_invariant context f_direct f_inverse [] [] context.
Proof.
  intros Hinit Hcache. split; [|split; [done|]; split; [done|]; split].
  - unfold literal_growth. simpl. rewrite app_nil_r.
    split; [done|]. split; [lia|]. split; [done|]. split; [by intros ? ?|done].
  - intros i j Hin. by apply elem_of_nil in Hin.
  - intros s [Henc Heq] _ rest. simpl.
    by apply (cache_holds_agree (variables_size context) s); [apply override_agree|..].
Qed.

Section InverseSolutions.

Variable other_holds : assignment -> Constraint -> bool.

(** The solutions before and after [ExpandInverse], when the two arrays
    have the same length and their variables are pairwise distinct. *)
Lemma inverse_solutions (c : nat) (context : PresolveContext)
    (inverse : InverseConstraintProto.t) :
  let f_direct := InverseConstraintProto.f_direct inverse in
  let f_inverse := InverseConstraintProto.f_inverse inverse in
  expansion_input other_holds context c (plain (kInverse inverse)) ->
  length f_direct = length f_inverse ->
  NoDup (map PositiveRef (f_direct ++ f_inverse)) ->
  (forall s, other_holds s (kInverse inverse) = inverse_holds s inverse) ->
  preserves_solutions other_holds context (ExpandInverse c context)
  /\ determines_new_variables other_holds context (ExpandInverse c context).
Proof.
  intros f r Hinput Hlen Hnodup Hsem.
  set (ct := plain (kInverse inverse)) in *.
  set (n := length f).
  assert (Hlenr : length r = n) by (by rewrite <- Hlen).
  assert (Hat : inverse_of (constraint_at c context) = inverse).
  { destruct Hinput as ((Hc & _) & _). unfold inverse_of, constraint_at. by rewrite Hc. }
  assert (Hsol : forall ctx s, reduced_model other_holds c ct context ctx ->
            solution other_holds s ctx = true -> inverse_holds s inverse = true).
  { intros ctx s [_ ((Hc & _) & _)] Hs. apply solution_spec in Hs as (_ & _ & Hcons & _).
    rewrite <- Hsem. apply (Hcons ct). by apply (list_elem_of_lookup_2 _ c). }
  assert (Hvalues : forall ctx s, reduced_model other_holds c ct context ctx ->
            solution other_holds s ctx = true ->
            (forall i, (i < n)%nat ->
               0 <= ref_value s (ref_at f i) < Z.of_nat n
               /\ ref_value s (ref_at r (Z.to_nat (ref_value s (ref_at f i)))) = Z.of_nat i)
            /\ (forall j, (j < n)%nat ->
                  0 <= ref_value s (ref_at r j) < Z.of_nat n
                  /\ ref_value s (ref_at f (Z.to_nat (ref_value s (ref_at r j))))
                     = Z.of_nat j)).
  { intros ctx s Hred Hs. pose proof (Hsol ctx s Hred Hs) as H. unfold inverse_holds in H.
    apply andb_true_iff in H as [Hf Hr]. rewrite inverse_points_spec in Hf, Hr.
    fold f r in Hf, Hr. rewrite Hlenr in Hr. by split. }
  assert (Hbelow : Forall (fun ref => PositiveRef ref < variables_size context) (f ++ r)).
  { destruct Hinput as ((_ & _ & _ & _ & Hrefs) & _). apply Forall_forall. intros ref Hin.
    unfold refs_below, UsedVariables in Hrefs. simpl in Hrefs.
    rewrite forallb_forall in Hrefs. apply Z.ltb_lt, Hrefs, in_map. by apply list_elem_of_In. }
  pose proof Hbelow as Hbelow'. rewrite Forall_app in Hbelow'. destruct Hbelow' as [Hbf Hbr].
  pose proof Hnodup as Hnodup'. rewrite fmap_app in Hnodup'.
  apply NoDup_app in Hnodup' as (Hndf & Hdisjoint & Hndr).
  assert (Hnodup_rf : NoDup (map PositiveRef (r ++ f))).
  { rewrite fmap_app. apply NoDup_app. split; [done|]. split; [|done].
    intros x Hx Hx'. by apply (Hdisjoint x). }
  assert (Hbelow_rf : Forall (fun ref => PositiveRef ref < variables_size context) (r ++ f)).
  { rewrite Forall_app. by split. }
  assert (Hstart : reduced_model other_holds c ct context context).
  { split; [apply same_solutions_refl|done]. }
  assert (Hfail : forall ctx, infeasible_model other_holds context ctx ->
            preserves_solutions other_holds context ctx
            /\ determines_new_variables other_holds context ctx).
  { intros ctx [Hsame Hu]. by apply infeasible_step. }
  unfold ExpandInverse. rewrite Hat. cbv zeta. fold f r n.
  (* the values are positions *)
  assert (Hrange : forall ctx s, reduced_model other_holds c ct context ctx ->
            solution other_holds s ctx = true ->
            forall ref, ref ∈ f ++ r -> 0 <= ref_value s ref < Z.of_nat n).
  { intros ctx s Hred Hs ref Hin.
    destruct (Hvalues ctx s Hred Hs) as [Hf Hr].
    apply elem_of_app in Hin as [Hin|Hin]; apply list_elem_of_lookup in Hin as [k Hk].
    - destruct (Hf k) as [H _]; [by eapply lookup_lt_Some|].
      unfold ref_at in H. by rewrite Hk in H.
    - destruct (Hr k) as [H _]; [rewrite <- Hlenr; by eapply lookup_lt_Some|].
      unfold ref_at in H. by rewrite Hk in H. }
  assert (Hsound_f : forall ctx s, reduced_model other_holds c ct context ctx ->
            solution other_holds s ctx = true ->
            forall i, (i < n)%nat ->
              ref_value s (ref_at r (Z.to_nat (ref_value s (ref_at f i)))) = Z.of_nat i).
  { intros ctx s Hred Hs i Hi. by apply (Hvalues ctx s Hred Hs). }
  assert (Hsound_r : forall ctx s, reduced_model other_holds c ct context ctx ->
            solution other_holds s ctx = true ->
            forall j, (j < n)%nat ->
              ref_value s (ref_at f (Z.to_nat (ref_value s (ref_at r j)))) = Z.of_nat j).
  { intros ctx s Hred Hs j Hj. by apply (Hvalues ctx s Hred Hs). }
  assert (HA := inverse_bounds_loop other_holds c ct context n (f ++ r)
                  Hrange Hbelow Hstart).
  destruct (for_each _ (f ++ r) context) as [c1|c1]; [|by apply Hfail].
  destruct HA as [Hred1 Hpos1].
  (* no variable is used twice *)
  destruct (decide _) as [_|Hsize].
  2:{ exfalso. apply Hsize. rewrite size_list_to_set by done.
      rewrite length_map, length_app. fold n. lia. }
  (* the two passes on the domains *)
  assert (Hpos1f : positions_below n f c1).
  { intros ref v Hin. apply Hpos1. apply elem_of_app. by left. }
  assert (HC := filter_inverse_domain_reduced other_holds c ct context n f r c1
                  eq_refl Hlenr Hnodup Hbelow Hpos1f Hsound_f Hred1).
  destruct (filter_inverse_domain n f r c1) as [c3|c3]; [|by apply Hfail].
  destruct HC as [Hred3 [Hfilter3 Hframe3]].
  assert (Hpos3 : positions_below n r c3).
  { intros ref v Hin Hv. apply (Hpos1 ref v); [apply elem_of_app; by right|].
    rewrite <- Hframe3; [done|]. intros Hin'. apply (Hdisjoint _ Hin').
    by apply list_elem_of_fmap_2. }
  assert (HD := filter_inverse_domain_reduced other_holds c ct context n r f c3
                  Hlenr eq_refl Hnodup_rf Hbelow_rf Hpos3 Hsound_r Hred3).
  destruct (filter_inverse_domain n r f c3) as [c4|c4]; [|by apply Hfail].
  destruct HD as [Hred4 [Hfilter4 Hframe4]].
  rewrite Hlenr in Hfilter4. fold n in Hfilter3.
  (* the domains that the last loop reads *)
  assert (Hf4 : forall i, (i < n)%nat -> DomainOf c4 (ref_at f i) = DomainOf c3 (ref_at f i)).
  { intros i Hi. apply Hframe4. intros Hin. apply (Hdisjoint (PositiveRef (ref_at f i))); [|done].
    apply list_elem_of_fmap_2, ref_at_elem. by fold n. }
  assert (HT0 : forall i j, (i < n)%nat ->
            Domain.Contains (DomainOf c4 (ref_at f i)) j = true -> 0 <= j < Z.of_nat n).
  { intros i j Hi Hj. rewrite Hf4 in Hj by done. apply Hfilter3 in Hj as [Hj _]; [|done].
    apply (Hpos1 (ref_at f i) j); [|done]. apply elem_of_app. left. apply ref_at_elem.
    by fold n. }
  assert (HT1 : forall j w, (j < n)%nat ->
            Domain.Contains (DomainOf c4 (ref_at r j)) w = true ->
            0 <= w < Z.of_nat n
            /\ Domain.Contains (DomainOf c4 (ref_at f (Z.to_nat w))) (Z.of_nat j) = true).
  { intros j w Hj Hw. apply Hfilter4 in Hw as [Hw Hback]; [|done].
    assert (Hw0 : 0 <= w < Z.of_nat n).
    { apply (Hpos3 (ref_at r j) w); [|done]. apply ref_at_elem. lia. }
    split; [done|]. rewrite Hf4 by lia. done. }
  pose proof Hred4 as [Hsame4 Hinput4].
  pose proof Hinput4 as ((Hc4 & Hinit4 & Hclosed4 & Hcache4 & Hrefs4) & Hsorted4).
  assert (Hn4 : variables_size c4 = variables_size context) by (by destruct Hsame4).
  pose proof (initialized_size c4 Hinit4) as Hsize4.
  (* the last loop *)
  destruct (inverse_share_loops c4 f r (seq 0 n) Hinit4) with
    (pairs := @nil (nat * Z)) (created := @nil (Z * Z)) (context := c4)
    as (created & Hinv).
  { intros i j Hi Hj. apply elem_of_seq in Hi. rewrite Hn4. split.
    - rewrite Forall_forall in Hbf. apply Hbf, ref_at_elem. fold n. lia.
    - rewrite Forall_forall in Hbr. apply Hbr, ref_at_elem.
      apply DomainFacts.elem_of_Values in Hj. pose proof (HT0 i j ltac:(lia) Hj). lia. }
  { intros i Hi. apply elem_of_seq in Hi. rewrite Hn4.
    rewrite Forall_forall in Hbf. apply Hbf, ref_at_elem. fold n. lia. }
  { by apply inverse_share_invariant_start. }
  set (c5 := foldl _ c4 (seq 0 n)) in *. simpl in Hinv.
  set (context' := UpdateRuleStats "inverse: expanded" (Clear c c5)).
  destruct Hinv as (Hgrowth & Hcons5 & Hq0 & Hshared & Hsemantic).
  pose proof Hgrowth as (Hd & Hn & Hnew & Hstable & Hu & Hinit5).
  assert (Hpairs : forall i j, (i < n)%nat ->
            Domain.Contains (DomainOf c4 (ref_at f i)) j = true ->
            (i, j) ∈ inverse_pairs c4 f (seq 0 n)).
  { intros i j Hi Hj. apply elem_of_inverse_pairs. split; [|done]. apply elem_of_seq. lia. }
  assert (Hshape : expansion_shape c4 context' c ConstraintProto.cleared []).
  { split; [|split; [|split; [done|]; split; [done|]]].
    - intros i d Hi. exists d. split; [|done].
      change (domains context') with (domains c5). rewrite Hd. by apply lookup_app_l_Some.
    - unfold context'. rewrite constraints_UpdateRuleStats, constraints_Clear, Hcons5.
      by rewrite app_nil_r.
    - change (is_unsat context') with (is_unsat c5). by rewrite Hu. }
  apply (fun H1 H2 => conj (preserves_solutions_same other_holds context c4 context' Hsame4 H1)
                           (determines_new_variables_same other_holds context c4 context'
                              Hsame4 H2)).
  - split.
    + (* a solution after the expansion satisfies the inverse constraint *)
      intros s Hs.
      refine (expansion_projection other_holds c4 context' c _ _ _ s Hshape Hc4 Hs _).
      apply solution_spec in Hs as (_ & Hdom' & _ & Henc' & Heq').
      change (encoding context') with (encoding c5) in Henc'.
      change (equalities context') with (equalities c5) in Heq'.
      change (domains context') with (domains c5) in Hdom'.
      assert (Hdom : domains_hold s (domains c4) = true).
      { apply domains_hold_spec. intros i d Hi.
        apply (proj1 (domains_hold_spec _ _) Hdom' i). rewrite Hd.
        by apply lookup_app_l_Some. }
      assert (Hlinked : forall i j, (i < n)%nat ->
                Domain.Contains (DomainOf c4 (ref_at f i)) j = true ->
                ref_value s (ref_at f i) = j
                <-> ref_value s (ref_at r (Z.to_nat j)) = Z.of_nat i).
      { intros i j Hi Hj.
        destruct (Hshared i j (Hpairs i j Hi Hj)) as (l1 & l2 & H1 & H2 & Hrel).
        pose proof (encoding_literal_value s c5 _ _ l1 Henc' H1) as E1.
        pose proof (encoding_literal_value s c5 _ _ l2 Henc' H2) as E2.
        assert (E : literal_value s l1 = literal_value s l2).
        { destruct Hrel as [->|[Hin|Hin]]; [done| |].
          - by apply (proj1 (equalities_hold_spec _ _) Heq').
          - symmetry. by apply (proj1 (equalities_hold_spec _ _) Heq'). }
        rewrite E1, E2 in E.
        destruct (Z.eqb_spec (ref_value s (ref_at f i)) j),
          (Z.eqb_spec (ref_value s (ref_at r (Z.to_nat j))) (Z.of_nat i)); try done. }
      assert (Hin_f : forall i, (i < n)%nat ->
                Domain.Contains (DomainOf c4 (ref_at f i)) (ref_value s (ref_at f i)) = true).
      { intros i Hi. apply DomainOf_holds; [done|]. rewrite Hsize4, Hn4.
        rewrite Forall_forall in Hbf. apply Hbf, ref_at_elem. by fold n. }
      assert (Hin_r : forall j, (j < n)%nat ->
                Domain.Contains (DomainOf c4 (ref_at r j)) (ref_value s (ref_at r j)) = true).
      { intros j Hj. apply DomainOf_holds; [done|]. rewrite Hsize4, Hn4.
        rewrite Forall_forall in Hbr. apply Hbr, ref_at_elem. lia. }
      change (other_holds s (kInverse inverse) = true). rewrite Hsem.
      unfold inverse_holds. fold f r. apply andb_true_iff.
      split; apply inverse_points_spec.
      * fold n. intros i Hi. pose proof (Hin_f i Hi) as Hv.
        split; [by apply (HT0 i)|]. by apply (Hlinked i _ Hi Hv).
      * rewrite Hlenr. intros j Hj. pose proof (Hin_r j Hj) as Hw.
        destruct (HT1 j _ Hj Hw) as [Hw0 Hback]. split; [done|].
        apply (Hlinked (Z.to_nat (ref_value s (ref_at r j))) (Z.of_nat j));
          [lia|done|]. rewrite Nat2Z.id. lia.
    + (* the extension of a solution by the truth values of the keys *)
      intros s Hs. exists (override s (variables_size c4) (created_values s created)).
      split; [apply override_agree|].
      set (s' := override s (variables_size c4) (created_values s created)).
      assert (Hagree : agree (variables_size c4) s s') by apply override_agree.
      pose proof (Hsol c4 s Hred4 Hs) as Hholds.
      apply solution_spec in Hs as (Hunsat & Hdom & Hconss & Henc & Heq).
      assert (Hcache' : cache_holds s' c5).
      { unfold s'. rewrite <- (app_nil_r created) at 1.
        apply Hsemantic; [by split|]. intros i j Hin.
        apply elem_of_inverse_pairs in Hin as [Hi Hj]. apply elem_of_seq in Hi.
        apply (inverse_holds_linked s inverse i j Hholds Hlen); [fold f n; lia|].
        fold f n. apply (HT0 i j); [lia|done]. }
      destruct Hcache' as [Henc' Heq'].
      apply solution_spec. split; [change (is_unsat c5 = false); congruence|].
      split; [|split; [|by split]].
      * change (domains context') with (domains c5).
        apply domains_hold_spec. intros i d. rewrite Hd. intros Hlook.
        apply lookup_app_Some in Hlook as [Hlook | [Hge Hlook]].
        -- rewrite <- Hagree by (apply lookup_lt_Some in Hlook; lia).
           by apply (proj1 (domains_hold_spec _ _) Hdom i).
        -- apply lookup_replicate in Hlook as [-> Hlt].
           destruct (lookup_lt_is_Some_2 created (i - length (domains c4)) Hlt)
             as [key Hkey].
           replace (Z.of_nat i)
             with (variables_size c4 + Z.of_nat (i - length (domains c4))) by lia.
           unfold s'. rewrite (override_new _ _ _ _ _ (lookup_created_values s _ _ _ Hkey)).
           by destruct (s key.1 =? key.2).
      * intros ct0. destruct Hshape as (_ & -> & _). rewrite app_nil_r. intros Hin.
        apply elem_of_list_insert_inv in Hin as [-> | Hin]; [done|].
        rewrite <- (Hclosed4 s s' Hagree ct0 Hin). by apply Hconss.
  - apply (literal_growth_determined other_holds c4 context' created); [|done].
    by apply (literal_growth_same c4 c5).
Qed.

End InverseSolutions.

Section InverseExpansion.

Variable other_holds : assignment -> Constraint -> bool.

(** [ExpandInverse], on an inverse constraint without enforcement literal
    between two arrays of the same length whose variables are pairwise
    distinct, keeps the solutions: every solution after the expansion is a
    solution before it, every solution before it extends to the literals
    created into a solution after it, and the values of these literals are
    determined by the variables of the model.  When a domain becomes empty
    the model is declared infeasible and had no solution. *)
Theorem ExpandInverse_solutions (c : nat) (context : PresolveContext)
    (inverse : InverseConstraintProto.t) :
  expansion_input other_holds context c (plain (kInverse inverse)) ->
  length (InverseConstraintProto.f_direct inverse)
  = length (InverseConstraintProto.f_inverse inverse) ->
  NoDup (map PositiveRef (InverseConstraintProto.f_direct inverse
                            ++ InverseConstraintProto.f_inverse inverse)) ->
  (forall s, other_holds s (kInverse inverse) = inverse_holds s inverse) ->
  preserves_solutions other_holds context (ExpandInverse c context)
  /\ determines_new_variables other_holds context (ExpandInverse c context).
Proof. apply inverse_solutions. Qed.

End InverseExpansion.

Lemma inverse_points_agree (n : Z) (s s' : assignment) (a b : list Z) :
  agree n s s' -> 0 < n ->
  Forall (fun ref => PositiveRef ref < n) (a ++ b) ->
  inverse_points s a b = inverse_points s' a b.
Proof.
  intros Hagree Hn Hrefs. unfold inverse_points.
  assert (Href : forall (l : list Z) i, Forall (fun ref => PositiveRef ref < n) l ->
                   PositiveRef (ref_at l i) < n).
  { intros l i Hl. unfold ref_at. destruct (l !! i) as [x|] eqn:E; simpl.
    - rewrite Forall_forall in Hl. apply Hl. by apply (list_elem_of_lookup_2 _ i).
    - change (0 < n). exact Hn. }
  rewrite Forall_app in Hrefs. destruct Hrefs as [Ha Hb].
  induction (seq 0 (length a)) as [|i l IH]; [done|]. cbn [forallb]. rewrite IH. f_equal.
  rewrite <- (ref_value_agree n s s' (ref_at a i) Hagree (Href a i Ha)).
  rewrite <- (ref_value_agree n s s' _ Hagree (Href b _ Hb)). done.
Qed.

Lemma two_inverse_context_closed : closed_model inverse_semantics two_inverse_context.
Proof.
  apply closed_model_refs; [reflexivity|].
  intros s s' ct Hct Hagree. apply list_elem_of_singleton in Hct as ->.
  change (inverse_points s [0; 1] [2; 3] && inverse_points s [2; 3] [0; 1]
          = inverse_points s' [0; 1] [2; 3] && inverse_points s' [2; 3] [0; 1]).
  rewrite (inverse_points_agree 4 s s' [0; 1] [2; 3]), (inverse_points_agree 4 s s' [2; 3] [0; 1]);
    try done; repeat constructor; vm_compute; reflexivity.
Qed.

Lemma ExpandInverse_solutions_witness :
  preserves_solutions inverse_semantics two_inverse_context
    (ExpandInverse 0 two_inverse_context)
  /\ determines_new_variables inverse_semantics two_inverse_context
       (ExpandInverse 0 two_inverse_context).
Proof.
  apply (ExpandInverse_solutions inverse_semantics 0%nat two_inverse_context two_inverse).
  - split; [|reflexivity]. split; [reflexivity|]. split; [reflexivity|].
    split; [apply two_inverse_context_closed|]. split; reflexivity.
  - reflexivity.
  - apply (bool_decide_unpack _). vm_compute. exact I.
  - reflexivity.
Defined.
(** * The expansion of an all-different constraint keeps the solutions *)

(** ** Expressions with one term *)

Lemma affine_terms (e : LinearExpressionProto.t) :
  affine e ->
  (LinearExpressionProto.vars e = [] /\ LinearExpressionProto.coeffs e = []
   /\ terms e = [])
  \/ exists var coeff,
       LinearExpressionProto.vars e = [var] /\ LinearExpressionProto.coeffs e = [coeff]
       /\ terms e = [(var, coeff)].
Proof.
  intros [Hle Hlen]. unfold terms.
  destruct (LinearExpressionProto.vars e) as [|var [|? ?]] eqn:Ev; simpl in *; [| |lia].
  - left. destruct (LinearExpressionProto.coeffs e); [done|discriminate].
  - right. destruct (LinearExpressionProto.coeffs e) as [|coeff [|? ?]]; try discriminate.
    by exists var, coeff.
Qed.

Lemma expr_value_constant (s : assignment) (e : LinearExpressionProto.t) :
  LinearExpressionProto.vars e = [] ->
  expr_value s e = LinearExpressionProto.offset e.
Proof. intros Hv. unfold expr_value, sum_terms. by rewrite Hv. Qed.

Lemma expr_value_term (s : assignment) (e : LinearExpressionProto.t) (var coeff : Z) :
  LinearExpressionProto.vars e = [var] -> LinearExpressionProto.coeffs e = [coeff] ->
  expr_value s e = coeff * ref_value s var + LinearExpressionProto.offset e.
Proof. intros Hv Hc. unfold expr_value, sum_terms. rewrite Hv, Hc. simpl. lia. Qed.

Lemma expr_refs_below (n : Z) (e : LinearExpressionProto.t) (var coeff : Z) :
  Forall (fun ref => PositiveRef ref < n) (expr_refs e) ->
  LinearExpressionProto.vars e = [var] -> PositiveRef var < n.
Proof.
  unfold expr_refs. intros H Hv. rewrite Hv in H. by apply Forall_inv in H.
Qed.

Section AffineFacts.

Variable context : PresolveContext.
Hypothesis Hsorted : forallb sorted_intervals (domains context) = true.

(** The value of a variable whose domain is fixed. *)
Lemma IsFixed_ref_value (s : assignment) (var : Z) :
  domains_hold s (domains context) = true ->
  PositiveRef var < Z.of_nat (length (domains context)) ->
  IsFixed context var = true ->
  ref_value s var = FixedValue context var.
Proof.
  intros Hdom Hvar Hfixed.
  pose proof (DomainOf_holds s context var Hdom Hvar) as Hin.
  apply (fixed_bounds_value context var (FixedValue context var)); [done|done| |done].
  unfold IsFixed, Domain.IsFixed in Hfixed. unfold FixedValue, MinOf, MaxOf.
  destruct (RefIsPositive var) eqn:Epos.
  - rewrite (PositiveRef_positive var Epos) in Hfixed.
    destruct (domain_of_var context var); [done|]. apply Z.eqb_eq in Hfixed. lia.
  - destruct (domain_of_var context (PositiveRef var)); [done|].
    apply Z.eqb_eq in Hfixed. lia.
Qed.

(** The value of a fixed expression. *)
Lemma IsFixedExpr_value (s : assignment) (e : LinearExpressionProto.t) :
  affine e ->
  domains_hold s (domains context) = true ->
  Forall (fun ref => PositiveRef ref < Z.of_nat (length (domains context))) (expr_refs e) ->
  IsFixedExpr context e = true ->
  expr_value s e = FixedValueExpr context e.
Proof.
  intros Haffine Hdom Hrefs Hfixed.
  destruct (affine_terms e Haffine) as [(Hv & Hc & Ht) | (var & coeff & Hv & Hc & Ht)].
  - rewrite (expr_value_constant s e Hv). unfold FixedValueExpr. by rewrite Ht.
  - rewrite (expr_value_term s e var coeff Hv Hc).
    unfold FixedValueExpr, IsFixedExpr in *. rewrite Ht in *. simpl in *.
    rewrite andb_true_r in Hfixed.
    destruct (Z.eqb_spec coeff 0) as [E0|Hne]; [rewrite E0; lia|]. simpl in Hfixed.
    rewrite (IsFixed_ref_value s var Hdom (expr_refs_below _ e var coeff Hrefs Hv) Hfixed).
    lia.
Qed.

(** An expression that is not fixed has a term with a coefficient that is
    not zero. *)
Lemma not_fixed_term (e : LinearExpressionProto.t) :
  affine e -> IsFixedExpr context e = false ->
  exists var coeff,
    LinearExpressionProto.vars e = [var] /\ LinearExpressionProto.coeffs e = [coeff]
    /\ terms e = [(var, coeff)] /\ coeff <> 0 /\ IsFixed context var = false.
Proof.
  intros Haffine Hfixed.
  destruct (affine_terms e Haffine) as [(Hv & Hc & Ht) | (var & coeff & Hv & Hc & Ht)].
  - unfold IsFixedExpr in Hfixed. by rewrite Ht in Hfixed.
  - exists var, coeff. unfold IsFixedExpr in Hfixed. rewrite Ht in Hfixed. simpl in Hfixed.
    rewrite andb_true_r in Hfixed. apply orb_false_iff in Hfixed as [H0 Hf].
    apply Z.eqb_neq in H0. done.
Qed.

(** The test [DomainContains(expr, v)] on an expression that is not fixed. *)
Lemma DomainContainsExpr_term (e : LinearExpressionProto.t) (var coeff v : Z) :
  IsFixedExpr context e = false -> terms e = [(var, coeff)] -> coeff <> 0 ->
  DomainContainsExpr context e v = true
  <-> exists x, v = coeff * x + LinearExpressionProto.offset e
                /\ Domain.Contains (DomainOf context var) x = true.
Proof.
  intros Hfixed Ht Hcoeff. unfold DomainContainsExpr. rewrite Hfixed, Ht.
  rewrite andb_true_iff, Z.eqb_eq, DomainContains_DomainOf. split.
  - intros [Hrem Hin]. exists (Z.quot (v - LinearExpressionProto.offset e) coeff).
    split; [|done].
    pose proof (Z.quot_rem' (v - LinearExpressionProto.offset e) coeff). lia.
  - intros (x & -> & Hin).
    replace (coeff * x + LinearExpressionProto.offset e - LinearExpressionProto.offset e)
      with (x * coeff) by lia.
    rewrite Z.rem_mul, Z.quot_mul by done. done.
Qed.

(** The test [DomainContains(expr, v)] holds for the value of the expression
    in an assignment within the domains. *)
Lemma DomainContainsExpr_value (s : assignment) (e : LinearExpressionProto.t) :
  affine e ->
  domains_hold s (domains context) = true ->
  Forall (fun ref => PositiveRef ref < Z.of_nat (length (domains context))) (expr_refs e) ->
  DomainContainsExpr context e (expr_value s e) = true.
Proof.
  intros Haffine Hdom Hrefs.
  destruct (IsFixedExpr context e) eqn:Hfixed.
  - unfold DomainContainsExpr. rewrite Hfixed. apply Z.eqb_eq. symmetry.
    by apply IsFixedExpr_value.
  - destruct (not_fixed_term e Haffine Hfixed) as (var & coeff & Hv & Hc & Ht & Hne & _).
    apply (DomainContainsExpr_term e var coeff _ Hfixed Ht Hne).
    exists (ref_value s var). split; [by apply expr_value_term|].
    apply DomainOf_holds; [done|]. by apply (expr_refs_below _ e var coeff).
Qed.

(** The value of an expression is in the superset of its domain. *)
Lemma DomainSuperSetOf_value (s : assignment) (e : LinearExpressionProto.t) :
  affine e -> expr_in_int64 context e ->
  domains_hold s (domains context) = true ->
  Forall (fun ref => PositiveRef ref < Z.of_nat (length (domains context))) (expr_refs e) ->
  Domain.Contains (DomainSuperSetOf context e) (expr_value s e) = true.
Proof.
  intros Haffine [Hoff Hfit] Hdom Hrefs. unfold DomainSuperSetOf.
  destruct (affine_terms e Haffine) as [(Hv & Hc & Ht) | (var & coeff & Hv & Hc & Ht)].
  - rewrite Ht, (expr_value_constant s e Hv). cbn [foldl].
    rewrite DomainFacts.Contains_Value. apply Z.eqb_refl.
  - rewrite Ht, (expr_value_term s e var coeff Hv Hc). cbn [foldl snd fst].
    assert (Hin : Domain.Contains (DomainOf context var) (ref_value s var) = true).
    { apply DomainOf_holds; [done|]. by apply (expr_refs_below _ e var coeff). }
    destruct (Hfit var coeff (ref_value s var) Ht Hin) as [_ Hvalue].
    apply Contains_RelaxIfTooComplex.
    { apply valid_sorted, DomainFacts.valid_AdditionWith. }
    rewrite Z.add_comm. apply Contains_AdditionWith.
    + rewrite DomainFacts.Contains_Value. apply Z.eqb_refl.
    + by apply Contains_MultiplicationBy.
    + lia.
Qed.

End AffineFacts.

(** The value of an expression is in the union of the supersets. *)
Lemma union_of_expr_domains_value (context : PresolveContext)
    (exprs : list LinearExpressionProto.t) (e : LinearExpressionProto.t) (v : Z) :
  e ∈ exprs -> Domain.Contains (DomainSuperSetOf context e) v = true ->
  Domain.Contains (union_of_expr_domains context exprs) v = true.
Proof.
  intros Hin Hv. unfold union_of_expr_domains.
  destruct exprs as [|e0 es]; [by apply elem_of_nil in Hin|].
  assert (Hfold : forall es d,
            Domain.Contains d v = true
            \/ (exists e', e' ∈ es /\ Domain.Contains (DomainSuperSetOf context e') v = true) ->
            Domain.Contains
              (foldl (fun d e => Domain.UnionWith d (DomainSuperSetOf context e)) d es) v
            = true).
  { clear. intros es. induction es as [|e1 es IH]; intros d H; cbn [foldl].
    - destruct H as [?|(e' & H & _)]; [done|by apply elem_of_nil in H].
    - apply IH. destruct H as [H|(e' & Hin & H)].
      + left. rewrite DomainFacts.Contains_UnionWith, H. done.
      + apply elem_of_cons in Hin as [->|Hin].
        * left. rewrite DomainFacts.Contains_UnionWith, H. apply orb_true_r.
        * right. by exists e'. }
  apply Hfold. apply elem_of_cons in Hin as [->|Hin]; [by left|]. right. by exists e.
Qed.

(** ** The store of a context *)

Lemma store_holds_spec (s : assignment) (context : PresolveContext) :
  store_holds s context = true
  <-> is_unsat context = false
      /\ domains_hold s (domains context) = true
      /\ encoding_holds s (encoding context) = true
      /\ equalities_hold s (equalities context) = true.
Proof. unfold store_holds. rewrite !andb_true_iff, negb_true_iff. tauto. Qed.

Lemma solution_store (other_holds : assignment -> Constraint -> bool) (s : assignment)
    (context : PresolveContext) :
  solution other_holds s context = true
  <-> store_holds s context = true
      /\ forall ct, ct ∈ constraints context -> holds other_holds s ct = true.
Proof. rewrite solution_spec, store_holds_spec. tauto. Qed.

Lemma solution_solution_but (other_holds : assignment -> Constraint -> bool) (c : nat)
    (s : assignment) (context : PresolveContext) :
  solution other_holds s context = true -> solution_but other_holds c s context.
Proof.
  intros [Hstore Hcons]%solution_store. split; [done|]. intros i ct _ Hct.
  apply Hcons. by apply (list_elem_of_lookup_2 _ i).
Qed.

Lemma solution_but_solution (other_holds : assignment -> Constraint -> bool) (c : nat)
    (s : assignment) (context : PresolveContext) (ct : ConstraintProto.t) :
  solution_but other_holds c s context ->
  constraints context !! c = Some ct -> holds other_holds s ct = true ->
  solution other_holds s context = true.
Proof.
  intros [Hstore Hcons] Hc Hct. apply solution_store. split; [done|].
  intros ct' [i Hi]%list_elem_of_lookup_1. destruct (decide (i = c)) as [->|Hne].
  - rewrite Hc in Hi. by injection Hi as <-.
  - by apply (Hcons i).
Qed.

Lemma news_right_app (n : Z) (a b : list (option (Z * Z))) (s : assignment) :
  news_right n (a ++ b) s
  <-> news_right n a s /\ news_right (n + Z.of_nat (length a)) b s.
Proof.
  unfold news_right. split.
  - intros H. split.
    + intros j d Hj. apply H. by apply lookup_app_l_Some.
    + intros j d Hj. replace (n + Z.of_nat (length a) + Z.of_nat j)
        with (n + Z.of_nat (length a + j)) by lia.
      apply H. by rewrite lookup_app_r, Nat.add_comm, Nat.add_sub by lia.
  - intros [Ha Hb] j d Hj. apply lookup_app_Some in Hj as [Hj | [Hge Hj]]; [by apply Ha|].
    replace (n + Z.of_nat j) with (n + Z.of_nat (length a) + Z.of_nat (j - length a)) by lia.
    by apply Hb.
Qed.

Lemma news_right_nil (n : Z) (s : assignment) : news_right n [] s.
Proof. intros j d Hj. by rewrite lookup_nil in Hj. Qed.

Lemma news_right_singleton (n : Z) (d : option (Z * Z)) (s : assignment) :
  news_right n [d] s <-> s n = new_value s d.
Proof.
  unfold news_right. split.
  - intros H. specialize (H 0%nat d eq_refl). by rewrite Z.add_0_r in H.
  - intros H [|j] d' Hj; [|done].
    injection Hj as <-. by rewrite Z.add_0_r.
Qed.

Lemma keys_below_app (n : Z) (a b : list (option (Z * Z))) :
  keys_below n a -> keys_below n b -> keys_below n (a ++ b).
Proof. intros Ha Hb key [H|H]%elem_of_app; [by apply Ha | by apply Hb]. Qed.

Lemma keys_below_nil (n : Z) : keys_below n [].
Proof. intros key H. by apply elem_of_nil in H. Qed.

Lemma new_value_agree (n : Z) (s s' : assignment) (news : list (option (Z * Z)))
    (d : option (Z * Z)) :
  agree n s s' -> keys_below n news -> d ∈ news -> new_value s d = new_value s' d.
Proof.
  intros Hagree Hkeys Hd. destruct d as [key|]; [|done]. simpl.
  by rewrite (Hagree key.1 (Hkeys key Hd)).
Qed.

(** The extension of an assignment to the variables [news]. *)
Lemma news_right_override (n : Z) (s : assignment) (news : list (option (Z * Z))) :
  keys_below n news -> news_right n news (override s n (map (new_value s) news)).
Proof.
  intros Hkeys j d Hj.
  rewrite (override_new s n _ j (new_value s d)) by (by rewrite list_lookup_fmap, Hj).
  apply (new_value_agree n _ _ news); [apply override_agree|done|].
  by apply (list_elem_of_lookup_2 _ j).
Qed.

(** Two assignments with the right values of [news] that agree below [n]
    agree on [news]. *)
Lemma news_right_agree (n : Z) (s1 s2 : assignment) (news : list (option (Z * Z))) :
  keys_below n news -> news_right n news s1 -> news_right n news s2 ->
  agree n s1 s2 -> agree (n + Z.of_nat (length news)) s1 s2.
Proof.
  intros Hkeys H1 H2 Hagree v Hv. destruct (Z.lt_ge_cases v n) as [Hlt|Hge].
  - apply Hagree. lia.
  - destruct (lookup_lt_is_Some_2 news (Z.to_nat (v - n)) ltac:(lia)) as [d Hd].
    replace v with (n + Z.of_nat (Z.to_nat (v - n))) by lia.
    rewrite (H1 _ d Hd), (H2 _ d Hd). apply (new_value_agree n _ _ news); [done..|].
    by apply (list_elem_of_lookup_2 _ (Z.to_nat (v - n))).
Qed.

(** ** Counting the expressions of one value *)

Lemma NoDup_fmap_count {A : Type} (f : A -> Z) (l : list A) :
  NoDup (map f l) <-> forall v, (length (filter (fun x => f x = v) l) <= 1)%nat.
Proof.
  induction l as [|a l IH]; [split; [intros _ v; simpl; lia | constructor]|].
  cbn [map]. rewrite NoDup_cons, IH. split.
  - intros [Hnotin Hcount] v. rewrite filter_cons. destruct (decide (f a = v)) as [E|_].
    + destruct (filter (fun x => f x = v) l) as [|x k] eqn:Ef; [simpl; lia|].
      assert (Hx : x ∈ filter (fun x => f x = v) l) by (rewrite Ef; left).
      apply list_elem_of_filter in Hx as [Hfx Hx]. destruct Hnotin.
      apply list_elem_of_fmap. exists x. split; [congruence|done].
    + apply Hcount.
  - intros Hcount. split.
    + intros (x & Hfx & Hx)%list_elem_of_fmap. specialize (Hcount (f a)).
      rewrite filter_cons_True in Hcount by done.
      assert (Hin : x ∈ filter (fun y => f y = f a) l) by (by apply list_elem_of_filter).
      destruct (filter (fun y => f y = f a) l); [by apply elem_of_nil in Hin|].
      simpl in Hcount. lia.
    + intros v. specialize (Hcount v). rewrite filter_cons in Hcount.
      destruct (decide (f a = v)); simpl in Hcount; lia.
Qed.

Lemma length_filter_filter_le {A : Type} (P Q : A -> Prop) `{!forall x, Decision (P x)}
    `{!forall x, Decision (Q x)} (l : list A) :
  (length (filter Q (filter P l)) <= length (filter Q l))%nat.
Proof.
  induction l as [|a l IH]; [done|]. rewrite !filter_cons.
  destruct (decide (P a)), (decide (Q a)); rewrite ?filter_cons_True, ?filter_cons_False by done;
    simpl; lia.
Qed.

Lemma filter_filter_implied {A : Type} (P Q : A -> Prop) `{!forall x, Decision (P x)}
    `{!forall x, Decision (Q x)} (l : list A) :
  (forall x, x ∈ l -> Q x -> P x) -> filter Q (filter P l) = filter Q l.
Proof.
  induction l as [|a l IH]; intros Himp; [done|]. rewrite !filter_cons.
  assert (IH' : filter Q (filter P l) = filter Q l).
  { apply IH. intros x Hx. apply Himp. by right. }
  destruct (decide (P a)) as [HP|HP].
  - rewrite filter_cons. by rewrite IH'.
  - destruct (decide (Q a)) as [HQ|HQ]; [|done]. destruct HP. apply Himp; [left|done].
Qed.

(** A list without duplicates that is as long as a list that contains it
    has all its elements. *)
Lemma NoDup_full (l k : list Z) (v : Z) :
  NoDup l -> (forall x, x ∈ l -> x ∈ k) -> (length k <= length l)%nat -> v ∈ k -> v ∈ l.
Proof.
  intros Hnd Hsub Hlen Hv.
  assert (Hperm : l ≡ₚ k).
  { apply submseteq_length_Permutation; [|done]. by apply NoDup_submseteq. }
  by rewrite Hperm.
Qed.

(** The literals of a list that mean that the expressions of a list have
    the value [v] are as many as these expressions. *)
Lemma count_true_exprs (s : assignment) (v : Z) (lits : list Z)
    (es : list LinearExpressionProto.t) :
  map (literal_value s) lits = map (fun e => expr_value s e =? v) es ->
  count_true s lits = value_count s es v.
Proof.
  unfold count_true, value_count. revert es.
  induction lits as [|l lits IH]; intros [|e es] H; try discriminate; [done|].
  cbn [map] in H. injection H as Hl H. cbn [List.filter]. rewrite filter_cons, Hl.
  destruct (Z.eqb_spec (expr_value s e) v) as [E|E].
  - rewrite decide_True by done. simpl. f_equal. by apply IH.
  - rewrite decide_False by done. by apply IH.
Qed.

(** ** The queries on an expression in a larger store *)

Lemma affine_queries_same (c1 c2 : PresolveContext) (e : LinearExpressionProto.t) :
  affine e ->
  (forall ref, ref ∈ expr_refs e ->
     domain_of_var c2 (PositiveRef ref) = domain_of_var c1 (PositiveRef ref)) ->
  IsFixedExpr c2 e = IsFixedExpr c1 e
  /\ FixedValueExpr c2 e = FixedValueExpr c1 e
  /\ forall v, DomainContainsExpr c2 e v = DomainContainsExpr c1 e v.
Proof.
  intros Haffine Hsame.
  destruct (affine_terms e Haffine) as [(Hv & Hc & Ht) | (var & coeff & Hv & Hc & Ht)].
  - unfold DomainContainsExpr, IsFixedExpr, FixedValueExpr. rewrite Ht. done.
  - assert (Hvar : domain_of_var c2 (PositiveRef var) = domain_of_var c1 (PositiveRef var)).
    { apply Hsame. unfold expr_refs. rewrite Hv. left. }
    assert (Hfixed : IsFixed c2 var = IsFixed c1 var).
    { unfold IsFixed. by rewrite Hvar. }
    assert (Hpos : RefIsPositive var = true -> domain_of_var c2 var = domain_of_var c1 var).
    { intros Epos. by rewrite <- (PositiveRef_positive var Epos). }
    assert (Hvalue : FixedValue c2 var = FixedValue c1 var).
    { unfold FixedValue, MinOf. destruct (RefIsPositive var) eqn:Epos.
      - by rewrite Hpos. - by rewrite Hvar. }
    assert (Hcontains : forall x, DomainContains c2 var x = DomainContains c1 var x).
    { intros x. unfold DomainContains. destruct (RefIsPositive var) eqn:Epos.
      - by rewrite Hpos. - by rewrite Hvar. }
    assert (HF : IsFixedExpr c2 e = IsFixedExpr c1 e).
    { unfold IsFixedExpr. rewrite Ht. simpl. by rewrite Hfixed. }
    assert (HV : FixedValueExpr c2 e = FixedValueExpr c1 e).
    { unfold FixedValueExpr. rewrite Ht. simpl. by rewrite Hvalue. }
    split; [done|]. split; [done|]. intros v. unfold DomainContainsExpr.
    rewrite HF, HV, Ht. by rewrite Hcontains.
Qed.

Lemma affine_queries_prefix (c1 c2 : PresolveContext) (e : LinearExpressionProto.t) :
  affine e -> domains_prefix c1 c2 ->
  Forall (fun ref => PositiveRef ref < Z.of_nat (length (domains c1))) (expr_refs e) ->
  IsFixedExpr c2 e = IsFixedExpr c1 e
  /\ FixedValueExpr c2 e = FixedValueExpr c1 e
  /\ forall v, DomainContainsExpr c2 e v = DomainContainsExpr c1 e v.
Proof.
  intros Haffine Hprefix Hrefs. apply affine_queries_same; [done|].
  intros ref Href. rewrite Forall_forall in Hrefs.
  apply domain_of_var_prefix; [done|]. split; [apply PositiveRef_nonnegative|by apply Hrefs].
Qed.

(** ** The growth of the store *)

Lemma store_growth_refl (context : PresolveContext) :
  initialized context -> forallb sorted_intervals (domains context) = true ->
  true_literal_valid context -> store_growth context context [].
Proof.
  intros Hinit Hsorted Htrue. split; [simpl; lia|]. split; [done|].
  split; [apply domains_prefix_refl|]. split; [done|]. split; [done|].
  intros s. split; [intros H; split; [done|apply news_right_nil] | by intros [H _]].
Qed.

Lemma store_growth_trans (c1 c2 c3 : PresolveContext) (a b : list (option (Z * Z))) :
  store_growth c1 c2 a -> store_growth c2 c3 b -> store_growth c1 c3 (a ++ b).
Proof.
  intros (Hn1 & _ & Hp1 & _ & _ & Hs1) (Hn2 & Hinit & Hp2 & Hsorted & Htrue & Hs2).
  split; [rewrite length_app; lia|]. split; [done|].
  split; [by apply (domains_prefix_trans c1 c2)|]. split; [done|]. split; [done|].
  intros s. rewrite Hs2, Hs1, news_right_app, Hn1. tauto.
Qed.

Lemma store_growth_same (c1 c2 c3 : PresolveContext) (a : list (option (Z * Z))) :
  store_growth c1 c2 a ->
  variables c3 = variables c2 -> domains c3 = domains c2 ->
  encoding c3 = encoding c2 -> equalities c3 = equalities c2 ->
  is_unsat c3 = is_unsat c2 -> true_literal c3 = true_literal c2 ->
  store_growth c1 c3 a.
Proof.
  intros (Hn & Hinit & Hp & Hsorted & Htrue & Hs) Hv Hd He Hq Hu Ht.
  split; [unfold variables_size; rewrite Hv; exact Hn|].
  split; [unfold initialized; by rewrite Hv, Hd|].
  split; [unfold domains_prefix; by rewrite Hd|]. split; [by rewrite Hd|]. split.
  - intros l Hl. rewrite Ht in Hl. unfold variables_size, domain_of_var.
    rewrite Hv, Hd. by apply Htrue.
  - intros s. rewrite <- Hs. unfold store_holds. by rewrite Hu, Hd, He, Hq.
Qed.

Lemma domains_hold_snoc (s : assignment) (ds : list Domain.t) (d : Domain.t) :
  domains_hold s (ds ++ [d]) = true
  <-> domains_hold s ds = true /\ Domain.Contains d (s (Z.of_nat (length ds))) = true.
Proof.
  rewrite !domains_hold_spec. split.
  - intros H. split.
    + intros i d' Hi. apply H. by apply lookup_app_l_Some.
    + apply H. by rewrite list_lookup_middle.
  - intros [H Hd] i d' Hi. apply lookup_app_Some in Hi as [Hi | [Hge Hi]]; [by apply H|].
    apply list_lookup_singleton_Some in Hi as [Hi <-].
    by replace i with (length ds) by lia.
Qed.

Lemma forallb_sorted_snoc (ds : list Domain.t) (d : Domain.t) :
  forallb sorted_intervals ds = true -> sorted_intervals d = true ->
  forallb sorted_intervals (ds ++ [d]) = true.
Proof.
  intros H Hd. rewrite forallb_forall in *. intros x [Hx|[<-|[]]]%in_app_or; [by apply H|done].
Qed.

(** The true literal stays valid when variables are added. *)
Lemma true_literal_valid_prefix (c1 c2 : PresolveContext) :
  true_literal_valid c1 -> initialized c1 -> domains_prefix c1 c2 ->
  variables_size c1 <= variables_size c2 -> true_literal c2 = true_literal c1 ->
  true_literal_valid c2.
Proof.
  intros Htrue Hinit Hprefix Hle Heq l Hl. rewrite Heq in Hl.
  destruct (Htrue l Hl) as [Hrange Hone]. split; [lia|].
  rewrite (domain_of_var_prefix c1 c2) by (rewrite ?initialized_size; done). done.
Qed.

Section StoreSteps.

Variable context : PresolveContext.
Hypothesis Hinit : initialized context.
Hypothesis Hsorted : forallb sorted_intervals (domains context) = true.
Hypothesis Htrue : true_literal_valid context.

(** [GetTrueLiteral]: the literal is true and a variable is created for it
    when there was none. *)
Lemma GetTrueLiteral_growth :
  let r := GetTrueLiteral context in
  exists news,
    store_growth context r.2 news
    /\ (forall n, keys_below n news)
    /\ constraints r.2 = constraints context
    /\ forall s, store_holds s r.2 = true -> literal_value s r.1 = true.
Proof.
  unfold GetTrueLiteral. destruct (true_literal context) as [l|] eqn:El.
  - exists []. split; [by apply store_growth_refl|]. split; [intros n; apply keys_below_nil|].
    split; [done|]. intros s [_ [Hdom _]]%store_holds_spec. cbn [fst].
    destruct (Htrue l El) as [Hrange Hone].
    rewrite literal_value_positive by lia. apply Z.eqb_eq, Hone.
    unfold domain_of_var. destruct (Z.leb_spec 0 l); [|lia].
    destruct (lookup_lt_is_Some_2 (domains context) (Z.to_nat l)) as [d Hd].
    { pose proof (initialized_size context Hinit). lia. }
    rewrite Hd. simpl. replace (s l) with (s (Z.of_nat (Z.to_nat l))) by (f_equal; lia).
    by apply (proj1 (domains_hold_spec _ _) Hdom (Z.to_nat l)).
  - pose proof (NewIntVar_domains (Domain.Value 1) context Hinit) as Hd.
    rewrite (DomainFacts.ReadDomainFromProto_FillDomainInProto _ (DomainFacts.valid_Value 1))
      in Hd.
    pose proof (NewIntVar_index (Domain.Value 1) context) as Hindex.
    pose proof (NewIntVar_initialized (Domain.Value 1) context Hinit) as Hinit'.
    pose proof (NewIntVar_variables_size (Domain.Value 1) context) as Hsize.
    assert (Hu : is_unsat (NewIntVar (Domain.Value 1) context).2 = is_unsat context)
      by reflexivity.
    assert (He : encoding (NewIntVar (Domain.Value 1) context).2 = encoding context)
      by reflexivity.
    assert (Hq : equalities (NewIntVar (Domain.Value 1) context).2 = equalities context)
      by reflexivity.
    assert (Hc : constraints (NewIntVar (Domain.Value 1) context).2 = constraints context)
      by reflexivity.
    destruct (NewIntVar (Domain.Value 1) context) as [l context1].
    cbn [fst snd] in *. subst l.
    pose proof (initialized_size context Hinit) as Hlen.
    exists [None]. split; [|split; [|split]].
    + split; [exact Hsize|]. split; [exact Hinit'|].
      split; [by exists [Domain.Value 1]|].
      split; [change (forallb sorted_intervals (domains context1) = true);
              rewrite Hd; by apply forallb_sorted_snoc|].
      split.
      * intros l Hl. injection Hl as <-. change (variables_size context1) with
          (variables_size (with_true_literal (Some (variables_size context)) context1)) in Hsize.
        split; [pose proof (Zle_0_nat (length (variables context)));
                unfold variables_size in *; lia|].
        intros x. unfold domain_of_var.
        change (domains (with_true_literal _ context1)) with (domains context1).
        rewrite Hd. destruct (Z.leb_spec 0 (variables_size context)); [|done].
        replace (Z.to_nat (variables_size context)) with (length (domains context)) by lia.
        rewrite list_lookup_middle by done. simpl.
        rewrite orb_false_r. unfold Domain.in_interval. simpl. lia.
      * intros s. unfold store_holds.
        change (is_unsat (with_true_literal _ context1)) with (is_unsat context1).
        change (domains (with_true_literal _ context1)) with (domains context1).
        change (encoding (with_true_literal _ context1)) with (encoding context1).
        change (equalities (with_true_literal _ context1)) with (equalities context1).
        rewrite Hu, He, Hq, Hd, news_right_singleton.
        rewrite !andb_true_iff, domains_hold_snoc, Hlen. unfold new_value.
        rewrite DomainFacts.Contains_Value, Z.eqb_eq. intuition congruence.
    + intros n key Hkey. apply list_elem_of_singleton in Hkey. discriminate.
    + exact Hc.
    + intros s [_ [Hdom _]]%store_holds_spec.
      change (domains (with_true_literal _ context1)) with (domains context1) in Hdom.
      rewrite Hd in Hdom. apply domains_hold_snoc in Hdom as [_ Hone].
      rewrite DomainFacts.Contains_Value in Hone. apply Z.eqb_eq in Hone.
      rewrite literal_value_positive
        by (unfold variables_size; apply Zle_0_nat).
      apply Z.eqb_eq. rewrite <- Hlen. done.
Qed.

(** [GetOrCreateVarValueEncoding]: the literal means that the reference has
    the value, and a variable is created for it when the cache had none. *)
Lemma GetOrCreateVarValueEncoding_growth (ref value : Z) :
  let r := GetOrCreateVarValueEncoding ref value context in
  exists news,
    store_growth context r.2 news
    /\ (forall key, Some key ∈ news -> key.1 = PositiveRef ref)
    /\ constraints r.2 = constraints context
    /\ forall s, store_holds s r.2 = true ->
         literal_value s r.1 = (ref_value s ref =? value).
Proof.
  intros r.
  destruct (GetOrCreateVarValueEncoding_cases ref value context Hinit)
    as [[Hfound Hsame] | (Hnone & Hlit & Hd & Hsize & Hinit' & He & Hc & Hq & Hu)];
    subst r.
  - exists []. rewrite Hsame. split; [by apply store_growth_refl|].
    split; [intros key Hkey; by apply elem_of_nil in Hkey|]. split; [done|].
    intros s (_ & _ & Henc & _)%store_holds_spec.
    rewrite (proj1 (encoding_holds_spec _ _) Henc _ _ Hfound).
    apply encoding_key_value.
  - pose proof (initialized_size context Hinit) as Hlen.
    assert (Hnonneg : 0 <= variables_size context) by (unfold variables_size; lia).
    assert (Hstore : forall s,
              store_holds s (GetOrCreateVarValueEncoding ref value context).2 = true
              <-> store_holds s context = true
                  /\ s (variables_size context)
                     = Z.b2z (s (encoding_key ref value).1 =? (encoding_key ref value).2)).
    { intros s. rewrite !store_holds_spec, Hu, Hd, He, Hq, domains_hold_snoc, Hlen.
      rewrite !encoding_holds_spec.
      assert (Hbool : forall x b, (Domain.Contains bool_domain x = true /\ (x =? 1) = b)
                                  <-> x = Z.b2z b).
      { intros x b. unfold bool_domain. simpl. unfold Domain.in_interval. simpl.
        destruct b, (Z.eqb_spec x 1); simpl; split; try lia; intros [? ?]; try lia;
          try discriminate; done. }
      split.
      - intros (Hun & [Hdom Hb] & Henc & Heq). split.
        + split; [done|]. split; [done|]. split; [|done]. intros key lit Hk.
          apply Henc. rewrite lookup_insert_ne; [done|]. intros <-. congruence.
        + apply Hbool. split; [done|]. rewrite <- literal_value_positive by done.
          apply (Henc (encoding_key ref value)). by rewrite lookup_insert_eq.
      - intros [(Hun & Hdom & Henc & Heq) Hval]. apply Hbool in Hval as [Hb Hval].
        split; [done|]. split; [done|]. split; [|done]. intros key lit Hk.
        apply lookup_insert_Some in Hk as [[<- <-]|[Hne Hk]]; [|by apply Henc].
        by rewrite literal_value_positive. }
    exists [Some (encoding_key ref value)]. split; [|split; [|split]].
    + split; [exact Hsize|]. split; [done|]. split; [by exists [bool_domain]|].
      split; [rewrite Hd; by apply forallb_sorted_snoc|]. split.
      * apply (true_literal_valid_prefix context); [done|done|by exists [bool_domain]|lia|].
        unfold GetOrCreateVarValueEncoding. rewrite Hnone. reflexivity.
      * intros s. by rewrite Hstore, news_right_singleton.
    + intros key Hkey. apply list_elem_of_singleton in Hkey. injection Hkey as ->.
      unfold encoding_key. destruct (RefIsPositive ref) eqn:E; [|done]. simpl.
      symmetry. by apply PositiveRef_positive.
    + done.
    + intros s Hs. apply Hstore in Hs as [_ Hs]. rewrite Hlit.
      rewrite (literal_value_b2z s _ _ Hnonneg Hs). apply encoding_key_value.
Qed.

(** [GetOrCreateAffineValueEncoding] on an expression that can have the
    value: the literal means that the expression has the value. *)
Lemma GetOrCreateAffineValueEncoding_growth (e : LinearExpressionProto.t) (v n : Z) :
  affine e ->
  Forall (fun ref => PositiveRef ref < n) (expr_refs e) ->
  n <= variables_size context ->
  DomainContainsExpr context e v = true ->
  let r := GetOrCreateAffineValueEncoding e v context in
  exists news,
    store_growth context r.2 news
    /\ keys_below n news
    /\ constraints r.2 = constraints context
    /\ forall s, store_holds s r.2 = true ->
         literal_value s r.1 = (expr_value s e =? v).
Proof.
  intros Haffine Hrefs Hn Hcontains r. unfold r, GetOrCreateAffineValueEncoding.
  pose proof (initialized_size context Hinit) as Hlen.
  destruct (IsFixedExpr context e) eqn:Hfixed.
  - unfold DomainContainsExpr in Hcontains. rewrite Hfixed in Hcontains.
    rewrite Hcontains.
    destruct GetTrueLiteral_growth as (news & Hgrowth & Hkeys & Hc & Hlit).
    exists news. split; [done|]. split; [apply Hkeys|]. split; [done|].
    intros s Hs. rewrite (Hlit s Hs). symmetry. apply Z.eqb_eq.
    apply Z.eqb_eq in Hcontains. rewrite <- Hcontains.
    destruct Hgrowth as (_ & _ & Hprefix & _ & _ & Hstore).
    apply Hstore in Hs as [Hs _]. apply store_holds_spec in Hs as (_ & Hdom & _).
    apply IsFixedExpr_value; try done.
    eapply Forall_impl; [exact Hrefs|]. simpl. intros ref Href. lia.
  - destruct (not_fixed_term context e Haffine Hfixed)
      as (var & coeff & Hv & Hc & Ht & Hne & _).
    apply (DomainContainsExpr_term context e var coeff v Hfixed Ht Hne) in Hcontains
      as (x & Hx & _).
    rewrite Ht.
    replace (v - LinearExpressionProto.offset e) with (x * coeff) by lia.
    rewrite Z.rem_mul, Z.quot_mul by done. simpl.
    destruct (GetOrCreateVarValueEncoding_growth var x) as (news & Hgrowth & Hkeys & Hcons & Hlit).
    exists news. split; [done|]. split; [|split; [done|]].
    + intros key Hkey. rewrite (Hkeys key Hkey). split; [apply PositiveRef_nonnegative|].
      by apply (expr_refs_below n e var coeff).
    + intros s Hs. rewrite (Hlit s Hs), (expr_value_term s e var coeff Hv Hc), Hx.
      destruct (Z.eqb_spec (ref_value s var) x) as [->|Hd].
      * symmetry. by apply Z.eqb_eq.
      * symmetry. apply Z.eqb_neq. nia.
Qed.

End StoreSteps.

(** ** The constraint of one value *)

Lemma add_literals_one_value (k : nat) (lit : Z) (is_a_permutation : bool) (lits : list Z)
    (context : PresolveContext) :
  constraints context !! k = Some (one_value_constraint is_a_permutation lits) ->
  add_literals k lit context
  = set_constraint k (one_value_constraint is_a_permutation (lits ++ [lit])) context.
Proof. unfold add_literals, one_value_constraint, plain. intros ->. by destruct is_a_permutation. Qed.

Lemma holds_one_value (other_holds : assignment -> Constraint -> bool) (s : assignment)
    (is_a_permutation : bool) (lits : list Z) :
  holds other_holds s (one_value_constraint is_a_permutation lits)
  = if is_a_permutation then (count_true s lits =? 1)%nat else (count_true s lits <=? 1)%nat.
Proof. by destruct is_a_permutation. Qed.

(** The loop of [MaybeExpandAllDiff] that fills the constraint of the value
    [v] with the literals of the expressions that can have this value. *)
Lemma all_diff_literals_loop (context1 : PresolveContext) (is_a_permutation : bool)
    (v n : Z) (es : list LinearExpressionProto.t) :
  initialized context1 -> n <= variables_size context1 ->
  Forall affine es ->
  Forall (fun e => Forall (fun ref => PositiveRef ref < n) (expr_refs e)) es ->
  forall (done : list LinearExpressionProto.t) (lits : list Z)
         (news : list (option (Z * Z))) (context : PresolveContext),
    store_growth context1 context news -> keys_below n news ->
    constraints context = constraints context1 ++ [one_value_constraint is_a_permutation lits] ->
    (forall s, store_holds s context = true ->
       map (literal_value s) lits
       = map (fun e => expr_value s e =? v)
             (filter (fun e => DomainContainsExpr context1 e v = true) done)) ->
    let context' :=
      foldl (fun context expr =>
               if negb (DomainContainsExpr context expr v) then context
               else
                 let '(encoding, context) := GetOrCreateAffineValueEncoding expr v context in
                 add_literals (constraints_size context1) encoding context)
            context es in
    exists lits' news',
      store_growth context1 context' news' /\ keys_below n news'
      /\ constraints context' = constraints context1 ++ [one_value_constraint is_a_permutation lits']
      /\ forall s, store_holds s context' = true ->
           map (literal_value s) lits'
           = map (fun e => expr_value s e =? v)
                 (filter (fun e => DomainContainsExpr context1 e v = true) (done ++ es)).
Proof.
  intros Hinit1 Hn Haffine Hrefs. pose proof (initialized_size context1 Hinit1) as Hlen1.
  induction es as [|e es IH]; intros done lits news context Hgrowth Hkeys Hcons Hlits.
  - simpl. exists lits, news. by rewrite app_nil_r.
  - apply Forall_cons in Haffine as [Haff Haffine]. apply Forall_cons in Hrefs as [Href Hrefs].
    specialize (IH Haffine Hrefs). cbn [foldl].
    replace (done ++ e :: es) with ((done ++ [e]) ++ es) by (by rewrite <- app_assoc).
    pose proof Hgrowth as (Hsize & Hinit & Hprefix & Hsorted & Htrue & Hstore).
    assert (Hrefs1 : Forall (fun ref => PositiveRef ref < Z.of_nat (length (domains context1)))
                       (expr_refs e)).
    { eapply Forall_impl; [exact Href|]. simpl. intros ref Hr. lia. }
    destruct (affine_queries_prefix context1 context e Haff Hprefix Hrefs1) as (_ & _ & Hsame).
    rewrite (Hsame v).
    destruct (DomainContainsExpr context1 e v) eqn:Hcontains; cbn [negb].
    + assert (Hcontains' : DomainContainsExpr context e v = true) by (by rewrite Hsame).
      destruct (GetOrCreateAffineValueEncoding_growth context Hinit Hsorted Htrue e v n
                  Haff Href ltac:(lia) Hcontains')
        as (news1 & Hgrowth1 & Hkeys1 & Hcons1 & Hlit).
      destruct (GetOrCreateAffineValueEncoding e v context) as [lit context2].
      cbn [fst snd] in *.
      assert (Hat : constraints context2 !! constraints_size context1
                    = Some (one_value_constraint is_a_permutation lits)).
      { rewrite Hcons1, Hcons. unfold constraints_size. by rewrite list_lookup_middle. }
      rewrite (add_literals_one_value _ lit _ _ _ Hat).
      apply (IH (done ++ [e]) (lits ++ [lit]) (news ++ news1)).
      * apply (store_growth_same context1 context2); try reflexivity.
        by apply (store_growth_trans context1 context).
      * by apply keys_below_app.
      * rewrite constraints_set_constraint, Hcons1, Hcons. unfold constraints_size.
        replace (length (constraints context1)) with (length (constraints context1) + 0)%nat
          at 1 by lia.
        by rewrite insert_app_r.
      * intros s Hs.
        assert (Hs2 : store_holds s context2 = true) by exact Hs.
        assert (Hs0 : store_holds s context = true).
        { destruct Hgrowth1 as (_ & _ & _ & _ & _ & H). by apply H in Hs2 as [? _]. }
        rewrite filter_app, filter_cons_True, filter_nil by done.
        rewrite !map_app, (Hlits s Hs0). simpl. by rewrite (Hlit s Hs2).
    + apply (IH (done ++ [e]) lits news); try done.
      intros s Hs. rewrite filter_app, filter_cons_False, filter_nil, app_nil_r by congruence.
      by apply Hlits.
Qed.

(** ** Reductions of domains *)

Lemma IntersectDomainWith_true_literal (ref : Z) (d : Domain.t) (context : PresolveContext) :
  true_literal (IntersectDomainWith ref d context).2 = true_literal context.
Proof.
  unfold IntersectDomainWith. destruct (decide _); [done|].
  by destruct (Domain.IsEmpty _).
Qed.

Lemma IntersectDomainWith_domain_of_var (ref : Z) (d : Domain.t) (context : PresolveContext)
    (var x : Z) :
  Domain.Contains (domain_of_var (IntersectDomainWith ref d context).2 var) x = true ->
  Domain.Contains (domain_of_var context var) x = true.
Proof.
  unfold domain_of_var. destruct (0 <=? var); [|done].
  pose proof (IntersectDomainWith_length_domains ref d context) as Hlen.
  destruct (domains context !! Z.to_nat var) as [d0|] eqn:E.
  - destruct (IntersectDomainWith_domains_shrink ref d context _ d0 E) as (d' & -> & Hsub).
    simpl. apply Hsub.
  - rewrite (proj2 (lookup_ge_None _ _)); [done|]. apply lookup_ge_None in E. lia.
Qed.

Lemma IntersectDomainWith_other_domain (ref : Z) (d : Domain.t) (context : PresolveContext)
    (var : Z) :
  0 <= var -> var <> PositiveRef ref ->
  domain_of_var (IntersectDomainWith ref d context).2 var = domain_of_var context var.
Proof.
  intros Hvar Hne. pose proof (PositiveRef_nonnegative ref) as Hnonneg.
  destruct (IntersectDomainWith_spec ref d context) as (Hd & _). cbv zeta in Hd.
  unfold domain_of_var. rewrite Hd, list_lookup_insert_ne by lia. done.
Qed.

Lemma IntersectDomainWith_true_literal_valid (ref : Z) (d : Domain.t)
    (context : PresolveContext) :
  true_literal_valid context -> true_literal_valid (IntersectDomainWith ref d context).2.
Proof.
  intros Htrue l Hl. rewrite IntersectDomainWith_true_literal in Hl.
  destruct (Htrue l Hl) as [Hrange Hone].
  destruct (IntersectDomainWith_spec ref d context) as (_ & Hv & _).
  split; [unfold variables_size; by rewrite Hv|].
  intros x Hx. apply Hone. by apply (IntersectDomainWith_domain_of_var ref d context).
Qed.

Lemma IntersectDomainWith_store_holds (ref : Z) (d : Domain.t) (context : PresolveContext)
    (s : assignment) :
  store_holds s (IntersectDomainWith ref d context).2 = true -> store_holds s context = true.
Proof.
  rewrite !store_holds_spec. intros (Hu & Hdom & Henc & Heq).
  destruct (IntersectDomainWith_spec ref d context) as (_ & _ & _ & He & Hq & _ & Hsat & _).
  rewrite He in Henc. rewrite Hq in Heq.
  assert (Hok : (IntersectDomainWith ref d context).1.1 = true).
  { destruct (IntersectDomainWith ref d context).1.1 eqn:E; [done|].
    pose proof (IntersectDomainWith_unsat ref d context E) as Hx.
    unfold ModelIsUnsat in Hx. congruence. }
  split; [by rewrite <- (Hsat Hok)|]. split; [|done].
  apply domains_hold_spec. intros i d0 Hi.
  destruct (IntersectDomainWith_domains_shrink ref d context i d0 Hi) as (d' & Hi' & Hsub).
  apply Hsub. by apply (proj1 (domains_hold_spec _ _) Hdom i).
Qed.

(** A variable that is not fixed is not in a fixed expression, which stays
    fixed when the domain of the variable is reduced. *)
Lemma IntersectDomainWith_IsFixedExpr (ref : Z) (d : Domain.t) (context : PresolveContext)
    (e : LinearExpressionProto.t) :
  IsFixed context ref = false -> IsFixedExpr context e = true ->
  IsFixedExpr (IntersectDomainWith ref d context).2 e = true.
Proof.
  intros Hfree. unfold IsFixedExpr. rewrite !forallb_forall. intros H vc Hvc.
  specialize (H vc Hvc). apply orb_true_iff in H as [H|H]; [by rewrite H|].
  apply orb_true_iff. right. unfold IsFixed in *.
  rewrite IntersectDomainWith_other_domain; [done|apply PositiveRef_nonnegative|].
  intros E. rewrite E in H. congruence.
Qed.

(** Two elements of the same image in a list whose images are different
    are the same. *)
Lemma NoDup_fmap_eq {A : Type} (f : A -> Z) (l : list A) (x y : A) :
  NoDup (map f l) -> x ∈ l -> y ∈ l -> f x = f y -> x = y.
Proof.
  induction l as [|a l IH]; intros Hnd Hx Hy Hf; [by apply elem_of_nil in Hx|].
  cbn [map] in Hnd. apply NoDup_cons in Hnd as [Hnotin Hnd].
  apply elem_of_cons in Hx as [->|Hx]; apply elem_of_cons in Hy as [->|Hy]; [done| | |by apply IH].
  - destruct Hnotin. rewrite Hf. by apply list_elem_of_fmap_2.
  - destruct Hnotin. rewrite <- Hf. by apply list_elem_of_fmap_2.
Qed.

Lemma length_filter_filter_implied {A : Type} (P Q R : A -> Prop)
    `{!forall x, Decision (P x)} `{!forall x, Decision (Q x)} `{!forall x, Decision (R x)}
    (l : list A) :
  (forall x, x ∈ l -> P x -> Q x -> R x) ->
  (length (filter Q (filter P l)) <= length (filter R l))%nat.
Proof.
  induction l as [|a l IH]; intros Himp; [done|].
  assert (IH' : (length (filter Q (filter P l)) <= length (filter R l))%nat).
  { apply IH. intros x Hx. apply Himp. by right. }
  rewrite (filter_cons P). destruct (decide (P a)) as [HP|HP].
  - rewrite (filter_cons Q). destruct (decide (Q a)) as [HQ|HQ].
    + rewrite (filter_cons_True R) by (apply Himp; [left|done..]). simpl. lia.
    + rewrite (filter_cons R). destruct (decide (R a)); simpl; lia.
  - rewrite (filter_cons R). destruct (decide (R a)); simpl; lia.
Qed.

(** The value of an expression is a 64-bit integer. *)
Lemma expr_value_in_int64 (context : PresolveContext) (s : assignment)
    (e : LinearExpressionProto.t) :
  affine e -> expr_in_int64 context e ->
  domains_hold s (domains context) = true ->
  Forall (fun ref => PositiveRef ref < Z.of_nat (length (domains context))) (expr_refs e) ->
  kint64min <= expr_value s e <= kint64max.
Proof.
  intros Haffine [Hoff Hfit] Hdom Hrefs.
  destruct (affine_terms e Haffine) as [(Hv & Hc & Ht) | (var & coeff & Hv & Hc & Ht)].
  - by rewrite (expr_value_constant s e Hv).
  - rewrite (expr_value_term s e var coeff Hv Hc).
    apply (Hfit var coeff (ref_value s var) Ht).
    apply DomainOf_holds; [done|]. by apply (expr_refs_below _ e var coeff).
Qed.

(** Removing the value [v] from the domain of an expression that has
    another value. *)
Lemma complement_value_kept (context : PresolveContext) (s : assignment)
    (e : LinearExpressionProto.t) (var coeff v : Z) :
  expr_in_int64 context e ->
  LinearExpressionProto.vars e = [var] -> LinearExpressionProto.coeffs e = [coeff] ->
  terms e = [(var, coeff)] -> coeff <> 0 ->
  Domain.Contains (DomainOf context var) (ref_value s var) = true ->
  kint64min <= v <= kint64max -> expr_value s e <> v ->
  Domain.Contains
    (Domain.InverseMultiplicationBy coeff
       (Domain.AdditionWith (Domain.Complement (Domain.Value v))
          (Domain.Value (- LinearExpressionProto.offset e))))
    (ref_value s var) = true.
Proof.
  intros [Hoff Hfit] Hv Hc Ht Hne Hin Hrange Hvalue.
  rewrite (expr_value_term s e var coeff Hv Hc) in Hvalue.
  destruct (Hfit var coeff (ref_value s var) Ht Hin) as [Hprod Hsum].
  rewrite DomainFacts.Contains_InverseMultiplicationBy by done.
  replace (coeff * ref_value s var)
    with ((coeff * ref_value s var + LinearExpressionProto.offset e)
          + - LinearExpressionProto.offset e) by lia.
  apply Contains_AdditionWith.
  - apply Contains_Complement.
    + apply DomainFacts.valid_Value.
    + unfold in_int64, Domain.Value. simpl. rewrite andb_true_r, andb_true_iff, !Z.leb_le. lia.
    + split; [done|]. rewrite DomainFacts.Contains_Value. by apply Z.eqb_neq.
  - rewrite DomainFacts.Contains_Value. apply Z.eqb_refl.
  - lia.
Qed.

Section AllDiffSolutions.

Variable other_holds : assignment -> Constraint -> bool.
Variable c : nat.
Variable context0 : PresolveContext.
Variable exprs : list LinearExpressionProto.t.

Hypothesis Hinput : expansion_input other_holds context0 c (plain (kAllDiff exprs)).
Hypothesis Haffine : Forall affine exprs.
Hypothesis Hfit : Forall (expr_in_int64 context0) exprs.

Lemma all_diff_refs_below :
  Forall (fun e => Forall (fun ref => PositiveRef ref < variables_size context0) (expr_refs e))
         exprs.
Proof.
  destruct Hinput as ((_ & _ & _ & _ & Hrefs) & _).
  unfold refs_below, UsedVariables in Hrefs. simpl in Hrefs.
  rewrite forallb_forall in Hrefs. apply Forall_forall. intros e He.
  apply Forall_forall. intros ref Href. apply Z.ltb_lt, Hrefs, list_elem_of_In.
  apply list_elem_of_fmap_2. apply list_elem_of_In, in_flat_map. exists e.
  by rewrite <- !list_elem_of_In.
Qed.

Lemma all_diff_solution_agree (s s' : assignment) :
  agree (variables_size context0) s s' ->
  solution other_holds s context0 = true -> solution other_holds s' context0 = true.
Proof.
  destruct Hinput as ((_ & Hinit & Hclosed & Hcache & _) & _).
  intros Hagree (Hu & Hdom & Hcons & Henc & Heq)%solution_spec.
  destruct (cache_holds_agree _ s s' context0 Hagree Hcache Henc Heq) as [Henc' Heq'].
  apply solution_spec. split; [done|]. split; [|split; [|done]].
  - apply domains_hold_spec. intros i d Hi. rewrite <- Hagree.
    + by apply (proj1 (domains_hold_spec _ _) Hdom i).
    + apply lookup_lt_Some in Hi. rewrite <- (initialized_size context0 Hinit). lia.
  - intros ct Hct. rewrite <- (Hclosed s s' Hagree ct Hct). by apply Hcons.
Qed.

Lemma all_diff_holds (s : assignment) :
  holds other_holds s (plain (kAllDiff exprs)) = true <-> NoDup (map (expr_value s) exprs).
Proof. unfold holds, plain. simpl. apply bool_decide_eq_true. Qed.

Section Invariant.

Variable done : list Z.
Variable news : list (option (Z * Z)).
Variable context : PresolveContext.
Hypothesis Hinv : all_diff_invariant other_holds c context0 exprs done news context.

Lemma invariant_constraint : constraints context !! c = Some (plain (kAllDiff exprs)).
Proof.
  destruct Hinv as (_ & _ & _ & [added Hadded] & _).
  destruct Hinput as ((Hc & _) & _). rewrite Hadded. by apply lookup_app_l_Some.
Qed.

Lemma invariant_index : (c < length (constraints context))%nat.
Proof. apply (lookup_lt_Some _ _ _ invariant_constraint). Qed.

(** A solution of the context gives different values to the expressions and
    is a solution of the model. *)
Lemma invariant_solution (s : assignment) :
  solution other_holds s context = true ->
  solution other_holds s context0 = true /\ NoDup (map (expr_value s) exprs).
Proof.
  intros Hs. pose proof Hs as [_ Hcons]%solution_store.
  assert (Hall : holds other_holds s (plain (kAllDiff exprs)) = true).
  { apply Hcons. apply (list_elem_of_lookup_2 _ c), invariant_constraint. }
  destruct Hinv as (_ & _ & _ & _ & _ & _ & _ & Hsound).
  destruct (Hsound s (solution_solution_but other_holds c s context Hs)) as (Hbut & _).
  split; [|by apply all_diff_holds].
  apply (solution_but_solution other_holds c s context0 (plain (kAllDiff exprs)) Hbut); [|done].
  by destruct Hinput as ((Hc & _) & _).
Qed.

(** A solution of the model extends to a solution of the context. *)
Lemma invariant_extension (s : assignment) :
  solution other_holds s context0 = true ->
  exists s', agree (variables_size context0) s s' /\ solution other_holds s' context = true.
Proof.
  intros Hs. destruct Hinv as (_ & _ & _ & _ & Hkeys & _ & Hcomplete & _).
  exists (override s (variables_size context0) (map (new_value s) news)).
  split; [apply override_agree|]. apply Hcomplete.
  - apply (all_diff_solution_agree s); [apply override_agree|done].
  - by apply news_right_override.
Qed.

Lemma invariant_failure (context' : PresolveContext) :
  is_unsat context' = true ->
  (forall s, solution other_holds s context = true -> False) ->
  all_diff_failure other_holds context0 context'.
Proof.
  intros Hu Hnone. split; [done|]. intros s.
  destruct (solution other_holds s context0) eqn:Hs; [|done].
  destruct (invariant_extension s Hs) as (s' & _ & Hs'). destruct (Hnone s' Hs').
Qed.

Lemma invariant_refs_below (e : LinearExpressionProto.t) :
  e ∈ exprs ->
  Forall (fun ref => PositiveRef ref < Z.of_nat (length (domains context))) (expr_refs e).
Proof.
  intros He. destruct Hinv as (Hsize & Hinit & _).
  pose proof all_diff_refs_below as Hrefs. rewrite Forall_forall in Hrefs.
  eapply Forall_impl; [exact (Hrefs e He)|]. simpl. intros ref Href.
  rewrite (initialized_size context Hinit). lia.
Qed.

End Invariant.

(** The propagation of the fixed expression [e0] of value [v] to an
    expression that is not fixed. *)
Lemma all_diff_reduction (done : list Z) (news : list (option (Z * Z)))
    (context1 context : PresolveContext) (v : Z) (e0 e : LinearExpressionProto.t) :
  all_diff_invariant other_holds c context0 exprs done news context1 ->
  all_diff_reduced other_holds c context0 exprs done news context1 context ->
  e0 ∈ exprs -> IsFixedExpr context1 e0 = true -> FixedValueExpr context1 e0 = v ->
  e ∈ exprs -> IsFixedExpr context e = false ->
  let r := IntersectDomainWithExpr e (Domain.Complement (Domain.Value v)) context in
  if r.1.1 then all_diff_reduced other_holds c context0 exprs done news context1 r.2
  else all_diff_failure other_holds context0 r.2.
Proof.
  intros Hinv1 (Hinv & Hstore & Hfixed) He0 Hfixed0 Hvalue0 He Hfree.
  pose proof Hinv1 as (_ & _ & Hsorted1 & _).
  pose proof Hinv as (Hsize & Hinit & Hsorted & Hadded & Hkeys & Htrue & Hcomplete & Hsound).
  pose proof Hinput as ((_ & Hinit0 & _) & Hsorted0).
  rewrite Forall_forall in Haffine, Hfit.
  destruct (not_fixed_term context e (Haffine e He) Hfree)
    as (var & coeff & Hv & Hc & Ht & Hne & Hfree_var).
  unfold IntersectDomainWithExpr. rewrite Ht. cbv zeta.
  set (d := Domain.InverseMultiplicationBy coeff _).
  assert (Hvar : PositiveRef var < Z.of_nat (length (domains context))).
  { apply (expr_refs_below _ e var coeff); [|done]. by apply (invariant_refs_below done news). }
  assert (Hkept : forall s, solution other_holds s context = true ->
                            Domain.Contains d (ref_value s var) = true).
  { intros s Hs. destruct (invariant_solution done news context Hinv s Hs) as [Hs0 Hnodup].
    pose proof Hs as [Hst _]%solution_store.
    pose proof (Hstore s Hst) as (_ & Hdom1 & _)%store_holds_spec.
    pose proof Hs0 as (_ & Hdom0 & _)%solution_spec.
    assert (Hv0 : expr_value s e0 = v).
    { rewrite <- Hvalue0. apply IsFixedExpr_value; try done; [by apply Haffine|].
      by apply (invariant_refs_below done news). }
    assert (Hrefs0 : forall e', e' ∈ exprs ->
              Forall (fun ref => PositiveRef ref < Z.of_nat (length (domains context0)))
                     (expr_refs e')).
    { intros e' He'. pose proof all_diff_refs_below as Hrefs. rewrite Forall_forall in Hrefs.
      rewrite (initialized_size context0 Hinit0). by apply Hrefs. }
    apply (complement_value_kept context0 s e var coeff v); try done.
    - by apply Hfit.
    - apply DomainOf_holds; [done|]. apply (expr_refs_below _ e var coeff); [|done].
      by apply Hrefs0.
    - rewrite <- Hv0. apply (expr_value_in_int64 context0); try done;
        [by apply Haffine|by apply Hfit|by apply Hrefs0].
    - intros Heq. assert (e = e0).
      { apply (NoDup_fmap_eq (expr_value s) exprs); try done. congruence. }
      subst e0. rewrite (Hfixed e Hfixed0) in Hfree. discriminate. }
  destruct (IntersectDomainWith_same_solutions other_holds var d context Hvar Hkept)
    as [[Hn Hsame] Hfail].
  destruct (IntersectDomainWith_spec var d context) as (_ & Hvars & Hcons & _).
  pose proof (IntersectDomainWith_length_domains var d context) as Hlen.
  pose proof (IntersectDomainWith_sorted var d context Hsorted) as Hsorted'.
  pose proof (IntersectDomainWith_true_literal_valid var d context Htrue) as Htrue'.
  pose proof (IntersectDomainWith_store_holds var d context) as Hshrink.
  pose proof (fun e' => IntersectDomainWith_IsFixedExpr var d context e' Hfree_var) as Hstill.
  destruct (IntersectDomainWith var d context) as [[ok changed] context2].
  cbn [fst snd] in *. destruct ok.
  - split; [|split].
    + split; [lia|]. split; [unfold initialized in *; congruence|]. split; [done|].
      split; [by rewrite Hcons|]. split; [done|]. split; [done|]. split.
      * intros s Hs Hnews. rewrite Hsame. by apply Hcomplete.
      * intros s [Hst Hothers]. apply Hsound. split; [by apply Hshrink|].
        intros i ct Hi Hct. apply (Hothers i ct Hi). by rewrite Hcons.
    + intros s Hs. by apply Hstore, Hshrink.
    + intros e' He'. by apply Hstill, Hfixed.
  - apply (invariant_failure done news context Hinv); [by apply Hfail|].
    intros s Hs. rewrite <- Hsame in Hs. apply solution_spec in Hs as [Hu _].
    rewrite (Hfail eq_refl) in Hu. discriminate.
Qed.

(** The loop that propagates the fixed expression of value [v]. *)
Lemma all_diff_reduction_loop (done : list Z) (news : list (option (Z * Z)))
    (context1 : PresolveContext) (v : Z) (e0 : LinearExpressionProto.t)
    (es : list LinearExpressionProto.t) :
  all_diff_invariant other_holds c context0 exprs done news context1 ->
  e0 ∈ exprs -> IsFixedExpr context1 e0 = true -> FixedValueExpr context1 e0 = v ->
  Forall (fun e => e ∈ exprs) es ->
  match
    for_each
      (fun expr context =>
         if IsFixedExpr context expr then Continue context
         else
           let '(ok, _, context) :=
             IntersectDomainWithExpr expr (Domain.Complement (Domain.Value v)) context in
           if ok then Continue context else Return context)
      es context1
  with
  | Continue context => all_diff_reduced other_holds c context0 exprs done news context1 context
  | Return context => all_diff_failure other_holds context0 context
  end.
Proof.
  intros Hinv1 He0 Hfixed0 Hvalue0 Hes.
  set (body := fun (expr : LinearExpressionProto.t) (context : PresolveContext) => _).
  assert (Hstep : forall (p : list LinearExpressionProto.t) e context,
            e ∈ exprs ->
            all_diff_reduced other_holds c context0 exprs done news context1 context ->
            match body e context with
            | Continue context' =>
                all_diff_reduced other_holds c context0 exprs done news context1 context'
            | Return context' => all_diff_failure other_holds context0 context'
            end).
  { intros p e context He Hred. unfold body.
    destruct (IsFixedExpr context e) eqn:Hfree; [done|].
    pose proof (all_diff_reduction done news context1 context v e0 e Hinv1 Hred He0 Hfixed0
                  Hvalue0 He Hfree) as Hstep.
    cbv zeta in Hstep.
    destruct (IntersectDomainWithExpr e (Domain.Complement (Domain.Value v)) context)
      as [[ok changed] context2].
    cbn [fst snd] in Hstep. by destruct ok. }
  apply (for_each_list_invariant
           (fun _ context =>
              all_diff_reduced other_holds c context0 exprs done news context1 context)
           (all_diff_failure other_holds context0)
           (fun e => e ∈ exprs) body es Hstep Hes [] context1).
  split; [done|]. by split.
Qed.

(** A fixed expression that can have the value [v] has it. *)
Lemma fixed_possible_value (context : PresolveContext) (e : LinearExpressionProto.t) (v : Z) :
  IsFixedExpr context e = true -> DomainContainsExpr context e v = true ->
  FixedValueExpr context e = v.
Proof.
  intros Hfixed Hcontains. unfold DomainContainsExpr in Hcontains.
  rewrite Hfixed in Hcontains. by apply Z.eqb_eq.
Qed.

(** The expressions of value [v] are among those that can have it. *)
Lemma possible_value_count (done1 done2 : list Z) (news1 news2 : list (option (Z * Z)))
    (context1 context2 : PresolveContext) (s : assignment) (v : Z) :
  all_diff_invariant other_holds c context0 exprs done1 news1 context1 ->
  all_diff_invariant other_holds c context0 exprs done2 news2 context2 ->
  domains_hold s (domains context1) = true ->
  domains_hold s (domains context2) = true ->
  value_count s
    (filter (fun e => DomainContainsExpr context2 e v = true)
       (filter (fun e => DomainContainsExpr context1 e v = true) exprs)) v
  = value_count s exprs v.
Proof.
  intros Hinv1 Hinv2 Hdom1 Hdom2. unfold value_count.
  pose proof Hinv1 as (_ & _ & Hsorted1 & _). pose proof Hinv2 as (_ & _ & Hsorted2 & _).
  rewrite Forall_forall in Haffine.
  rewrite filter_filter_implied.
  - rewrite filter_filter_implied; [done|]. intros e He <-.
    apply DomainContainsExpr_value; try done; [by apply Haffine|].
    by apply (invariant_refs_below done1 news1).
  - intros e [_ He]%list_elem_of_filter <-.
    apply DomainContainsExpr_value; try done; [by apply Haffine|].
    by apply (invariant_refs_below done2 news2).
Qed.

(** One value [v] of the union of the domains. *)
Lemma all_diff_value_step (is_a_permutation : bool) (done : list Z)
    (news : list (option (Z * Z))) (context : PresolveContext) (v : Z) :
  all_diff_invariant other_holds c context0 exprs done news context ->
  (is_a_permutation = true ->
   forall s, solution other_holds s context0 = true -> (1 <= value_count s exprs v)%nat) ->
  match all_diff_value exprs is_a_permutation v context with
  | Continue context' =>
      exists news',
        all_diff_invariant other_holds c context0 exprs (done ++ [v]) news' context'
  | Return context' => all_diff_failure other_holds context0 context'
  end.
Proof.
  intros Hinv Hperm. unfold all_diff_value. cbv zeta.
  set (possible := filter (fun e => DomainContainsExpr context e v = true) exprs).
  set (count := length (filter (fun e => IsFixedExpr context e = true) possible)).
  pose proof Hinv as (Hsize & Hinit & Hsorted & Hadded & Hkeys & Htrue & Hcomplete & Hsound).
  assert (Hpossible : Forall (fun e => e ∈ exprs) possible).
  { apply Forall_forall. by intros e [_ He]%list_elem_of_filter. }
  pose proof Haffine as Haff. rewrite Forall_forall in Haff.
  set (propagated :=
         if (1 <? count)%nat then Return (NotifyThatModelIsUnsat context)
         else if decide (count = 1%nat) then for_each _ possible context
         else Continue context).
  assert (Hprop : match propagated with
                  | Continue context1 =>
                      all_diff_reduced other_holds c context0 exprs done news context context1
                  | Return context1 => all_diff_failure other_holds context0 context1
                  end).
  { unfold propagated. destruct (Nat.ltb_spec 1 count) as [Hmany|Hfew].
    - apply (invariant_failure done news context Hinv); [done|]. intros s Hs.
      destruct (invariant_solution done news context Hinv s Hs) as [_ Hnodup].
      pose proof Hs as (_ & Hdom & _)%solution_spec.
      pose proof (proj1 (NoDup_fmap_count (expr_value s) exprs) Hnodup v) as Hone.
      assert (Hle : (count <= length (filter (fun e => expr_value s e = v) exprs))%nat).
      { unfold count, possible. apply length_filter_filter_implied.
        intros e He Hcontains Hfixed. rewrite <- (fixed_possible_value context e v) by done.
        apply IsFixedExpr_value; try done; [by apply Haff|].
        by apply (invariant_refs_below done news). }
      lia.
    - destruct (decide (count = 1%nat)) as [Hcount|Hcount].
      + unfold count in Hcount.
        destruct (filter (fun e => IsFixedExpr context e = true) possible) as [|e0 k] eqn:Ef;
          [discriminate|].
        assert (He0 : e0 ∈ filter (fun e => IsFixedExpr context e = true) possible)
          by (rewrite Ef; left).
        apply list_elem_of_filter in He0 as [Hfixed0 He0].
        apply list_elem_of_filter in He0 as [Hcontains0 He0].
        apply (all_diff_reduction_loop done news context v e0 possible); try done.
        by apply fixed_possible_value.
      + split; [done|]. by split. }
  destruct propagated as [context1|context1]; [|done].
  destruct Hprop as (Hinv1 & Hstore1 & _).
  pose proof Hinv1 as (Hsize1 & Hinit1 & Hsorted1 & [added Hadded1] & Hkeys1 & Htrue1
                       & Hcomplete1 & Hsound1).
  pose proof Hinput as ((Hc0 & _) & _).
  set (context2 := add_constraints _ context1).
  assert (Hgrowth2 : store_growth context1 context2 []).
  { apply (store_growth_same context1 context1); try reflexivity.
    by apply store_growth_refl. }
  assert (Hrefs : Forall (fun e => Forall (fun ref => PositiveRef ref < variables_size context0)
                                     (expr_refs e)) possible).
  { pose proof all_diff_refs_below as H. rewrite Forall_forall in H, Hpossible.
    apply Forall_forall. intros e He. by apply H, Hpossible. }
  assert (Haffine' : Forall affine possible).
  { rewrite Forall_forall in Hpossible. apply Forall_forall. intros e He.
    by apply Haff, Hpossible. }
  destruct (all_diff_literals_loop context1 is_a_permutation v (variables_size context0)
              possible Hinit1 ltac:(lia) Haffine' Hrefs [] [] [] context2 Hgrowth2
              (keys_below_nil _) eq_refl ltac:(done))
    as (lits & news' & Hgrowth & Hkeys' & Hcons & Hlits).
  cbv zeta in Hgrowth, Hcons, Hlits. rewrite app_nil_l in Hlits.
  match goal with
  | |- exists n, all_diff_invariant _ _ _ _ _ n ?ctx => set (context3 := ctx) in *
  end.
  destruct Hgrowth as (Hsize3 & Hinit3 & Hprefix3 & Hsorted3 & Htrue3 & Hstore3).
  assert (Hcount : forall s, store_holds s context3 = true ->
            count_true s lits = value_count s exprs v).
  { intros s Hs. rewrite (count_true_exprs s v lits _ (Hlits s Hs)).
    apply Hstore3 in Hs as [Hs1 _]. pose proof (Hstore1 s Hs1) as Hs0.
    apply store_holds_spec in Hs1 as (_ & Hdom1 & _).
    apply store_holds_spec in Hs0 as (_ & Hdom0 & _).
    by apply (possible_value_count done done news news context context1). }
  exists (news ++ news'). split; [rewrite length_app; lia|]. split; [done|].
  split; [done|]. split; [exists (added ++ [one_value_constraint is_a_permutation lits]);
                          by rewrite Hcons, Hadded1, app_assoc|].
  split; [by apply keys_below_app|]. split; [done|]. split.
  - intros s Hs Hnews. apply news_right_app in Hnews as [Hnews Hnews'].
    pose proof (Hcomplete1 s Hs Hnews) as Hs1.
    pose proof Hs1 as [Hst1 Hcons1]%solution_store.
    assert (Hst3 : store_holds s context3 = true).
    { apply Hstore3. split; [done|]. by rewrite Hsize1. }
    apply solution_store. split; [done|]. intros ct. rewrite Hcons.
    intros [Hct|Hct%list_elem_of_singleton]%elem_of_app; [by apply Hcons1|]. subst ct.
    rewrite holds_one_value, (Hcount s Hst3).
    pose proof Hs as [_ Hcons0]%solution_store.
    assert (Hnodup : NoDup (map (expr_value s) exprs)).
    { apply all_diff_holds, Hcons0. by apply (list_elem_of_lookup_2 _ c). }
    pose proof (proj1 (NoDup_fmap_count (expr_value s) exprs) Hnodup v) as Hone.
    fold (value_count s exprs v) in Hone.
    destruct is_a_permutation.
    + apply Nat.eqb_eq. specialize (Hperm eq_refl s Hs). lia.
    + by apply Nat.leb_le.
  - intros s [Hst3 Hothers].
    pose proof (proj1 (Hstore3 s) Hst3) as [Hst1 Hnews'].
    assert (Hbut1 : solution_but other_holds c s context1).
    { split; [done|]. intros i ct Hi Hct. apply (Hothers i ct Hi).
      rewrite Hcons. by apply lookup_app_l_Some. }
    destruct (Hsound1 s Hbut1) as (Hbut0 & Hnews & Hdone).
    split; [done|]. split; [apply news_right_app; split; [done|by rewrite <- Hsize1]|].
    intros w [Hw|Hw%list_elem_of_singleton]%elem_of_app; [by apply Hdone|]. subst w.
    rewrite <- (Hcount s Hst3).
    assert (Hlast : holds other_holds s (one_value_constraint is_a_permutation lits) = true).
    { apply (Hothers (length (constraints context1))).
      - apply lookup_lt_Some in Hc0. rewrite Hadded1, length_app. lia.
      - rewrite Hcons. by apply list_lookup_middle. }
    rewrite holds_one_value in Hlast. destruct is_a_permutation.
    + apply Nat.eqb_eq in Hlast. lia.
    + by apply Nat.leb_le.
Qed.

(** The value of an expression is a value of the union of the domains. *)
Lemma all_diff_value_in_union (s : assignment) (e : LinearExpressionProto.t) :
  domains_hold s (domains context0) = true -> e ∈ exprs ->
  expr_value s e ∈ Domain.Values (union_of_expr_domains context0 exprs).
Proof.
  intros Hdom He. pose proof Hinput as ((_ & Hinit0 & _) & Hsorted0).
  rewrite Forall_forall in Haffine, Hfit.
  apply DomainFacts.elem_of_Values, (union_of_expr_domains_value context0 exprs e); [done|].
  apply DomainSuperSetOf_value; try done; [by apply Haffine|by apply Hfit|].
  pose proof all_diff_refs_below as Hrefs. rewrite Forall_forall in Hrefs.
  rewrite (initialized_size context0 Hinit0). by apply Hrefs.
Qed.

(** On a permutation every value of the union is the value of an
    expression. *)
Lemma permutation_value (s : assignment) (v : Z) :
  (2 <= length exprs)%nat -> Z.of_nat (length exprs) < kint64max ->
  (Z.of_nat (length exprs) =? Domain.Size (union_of_expr_domains context0 exprs)) = true ->
  solution other_holds s context0 = true ->
  v ∈ Domain.Values (union_of_expr_domains context0 exprs) ->
  (1 <= value_count s exprs v)%nat.
Proof.
  intros Htwo Hsmall Hsize Hs Hv. apply Z.eqb_eq in Hsize.
  set (U := union_of_expr_domains context0 exprs) in *.
  assert (Hsorted : sorted_intervals U = true).
  { unfold U, union_of_expr_domains. destruct exprs as [|e0 [|e1 es]]; simpl in Htwo; try lia.
    assert (H : forall es d e,
              sorted_intervals
                (foldl (fun d e => Domain.UnionWith d (DomainSuperSetOf context0 e))
                       (Domain.UnionWith d (DomainSuperSetOf context0 e)) es) = true).
    { clear. intros es. induction es as [|e' es IH]; intros d e; cbn [foldl].
      - apply valid_sorted, DomainFacts.valid_UnionWith.
      - apply IH. }
    apply H. }
  assert (Htotal : foldr (fun (i : Z * Z) acc => (i.2 - i.1 + 1) + acc) 0 U
                   = Z.of_nat (length (Domain.Values U))).
  { clear -Hsorted. induction U as [|i d IH]; [done|].
    apply sorted_intervals_cons in Hsorted as (Hi & _ & Hd).
    unfold Domain.Values. simpl. fold (Domain.Values d).
    rewrite length_app, length_seqZ, IH by done.
    destruct i as [lo hi]. simpl in *. lia. }
  unfold Domain.Size in Hsize. rewrite Htotal in Hsize.
  pose proof Hs as (_ & Hdom & Hcons & _)%solution_spec.
  pose proof Hinput as ((Hc0 & _) & _).
  assert (Hnodup : NoDup (map (expr_value s) exprs)).
  { apply all_diff_holds, Hcons. by apply (list_elem_of_lookup_2 _ c). }
  assert (Hin : v ∈ map (expr_value s) exprs).
  { apply (NoDup_full _ (Domain.Values U)); try done.
    - intros x (e & -> & He)%list_elem_of_fmap. by apply all_diff_value_in_union.
    - rewrite length_map. lia. }
  apply list_elem_of_fmap in Hin as (e & Hve & He). unfold value_count.
  assert (Hf : e ∈ filter (fun e => expr_value s e = v) exprs)
    by (by apply list_elem_of_filter).
  destruct (filter (fun e => expr_value s e = v) exprs); [by apply elem_of_nil in Hf|].
  simpl. lia.
Qed.

Lemma all_diff_unchanged :
  preserves_solutions other_holds context0 context0
  /\ determines_new_variables other_holds context0 context0.
Proof.
  split; [split|].
  - by intros s Hs.
  - intros s Hs. exists s. split; [apply agree_refl|done].
  - by intros s1 s2 _ _ Hagree.
Qed.

(** [MaybeExpandAllDiff] keeps the solutions. *)
Lemma all_diff_solutions (caches : scan_caches) :
  true_literal_valid context0 ->
  Z.of_nat (length exprs) < kint64max ->
  let context' := (MaybeExpandAllDiff c context0 caches).2 in
  preserves_solutions other_holds context0 context'
  /\ determines_new_variables other_holds context0 context'.
Proof.
  intros Htrue0 Hsmall. pose proof Hinput as ((Hc0 & Hinit0 & _) & Hsorted0).
  unfold MaybeExpandAllDiff. cbv zeta.
  assert (Hexprs : all_diff_of (constraint_at c context0) = exprs).
  { unfold constraint_at. by rewrite Hc0. }
  rewrite !Hexprs.
  destruct (Nat.leb_spec (length exprs) 1) as [Hshort|Htwo]; [apply all_diff_unchanged|].
  destruct (ScanModelAndDecideAllDiffExpansion_flags c context0 caches) as [Husage Hkeep].
  destruct (ScanModelAndDecideAllDiffExpansion c context0 caches) as [[caches' usage] keep].
  cbn [fst snd] in Husage, Hkeep. subst usage keep.
  set (U := union_of_expr_domains context0 exprs).
  destruct (negb (should_expand _ _ _ _)); [apply all_diff_unchanged|]. cbn [snd].
  set (is_a_permutation := Z.of_nat (length exprs) =? Domain.Size U).
  assert (Hstep : forall (p : list Z) v context,
            v ∈ Domain.Values U ->
            (exists news, all_diff_invariant other_holds c context0 exprs p news context) ->
            match all_diff_value exprs is_a_permutation v context with
            | Continue context' =>
                exists news,
                  all_diff_invariant other_holds c context0 exprs (p ++ [v]) news context'
            | Return context' => all_diff_failure other_holds context0 context'
            end).
  { intros p v context Hv [news Hinv]. apply (all_diff_value_step _ p news); [done|].
    intros Hperm s Hs. by apply permutation_value. }
  assert (Hstart : exists news, all_diff_invariant other_holds c context0 exprs [] news context0).
  { exists []. split; [simpl; lia|]. split; [done|]. split; [done|].
    split; [exists []; by rewrite app_nil_r|]. split; [apply keys_below_nil|].
    split; [done|]. split; [done|]. intros s Hs. split; [done|].
    split; [apply news_right_nil|]. intros v Hv. by apply elem_of_nil in Hv. }
  pose proof (for_each_list_invariant
                (fun p context =>
                   exists news, all_diff_invariant other_holds c context0 exprs p news context)
                (all_diff_failure other_holds context0)
                (fun v => v ∈ Domain.Values U) (all_diff_value exprs is_a_permutation)
                (Domain.Values U) Hstep ltac:(by apply Forall_forall) [] context0 Hstart)
    as Hloop.
  destruct (for_each (all_diff_value exprs is_a_permutation) (Domain.Values U) context0)
    as [context1|context1].
  - destruct Hloop as [news Hinv]. rewrite app_nil_l in Hinv. cbn [negb].
    set (name := (_ +:+ _)%string).
    pose proof Hinv as (Hsize & Hinit & Hsorted & Hadded & Hkeys & Htrue & Hcomplete & Hsound).
    assert (Hbut : forall s, solution other_holds s (Clear c (UpdateRuleStats name context1))
                             = true ->
                             solution_but other_holds c s context1).
    { intros s [Hst Hcons]%solution_store. split; [exact Hst|]. intros i ct Hi Hct.
      apply Hcons. rewrite constraints_Clear. apply (list_elem_of_lookup_2 _ i).
      rewrite list_lookup_insert_ne by done. exact Hct. }
    split; [split|].
    + intros s Hs. destruct (Hsound s (Hbut s Hs)) as (Hbut0 & _ & Hdone).
      apply (solution_but_solution other_holds c s context0 (plain (kAllDiff exprs)));
        [done..|].
      pose proof Hbut0 as [(_ & Hdom0 & _)%store_holds_spec _].
      apply all_diff_holds, NoDup_fmap_count. intros v.
      destruct (decide (v ∈ Domain.Values U)) as [Hv|Hv]; [by apply Hdone|].
      destruct (filter (fun e => expr_value s e = v) exprs) as [|e k] eqn:Ef; [simpl; lia|].
      assert (He : e ∈ filter (fun e => expr_value s e = v) exprs) by (rewrite Ef; left).
      apply list_elem_of_filter in He as [<- He]. destruct Hv.
      by apply all_diff_value_in_union.
    + intros s Hs. destruct (invariant_extension (Domain.Values U) news context1 Hinv s Hs)
        as (s' & Hagree & Hs').
      exists s'. split; [done|]. apply solution_store in Hs' as [Hst Hcons].
      apply solution_store. split; [exact Hst|]. intros ct. rewrite constraints_Clear.
      intros [->|Hct]%elem_of_list_insert_inv; [done|by apply Hcons].
    + intros s1 s2 Hs1 Hs2 Hagree.
      destruct (Hsound s1 (Hbut s1 Hs1)) as (_ & Hnews1 & _).
      destruct (Hsound s2 (Hbut s2 Hs2)) as (_ & Hnews2 & _).
      change (variables_size (Clear c (UpdateRuleStats name context1)))
        with (variables_size context1).
      rewrite Hsize. by apply news_right_agree.
  - destruct Hloop as [Hu Hnone]. by apply preserves_solutions_none.
Qed.

End AllDiffSolutions.

Section AllDiffExpansion.

Variable other_holds : assignment -> Constraint -> bool.

(** X19.  [MaybeExpandAllDiff], on an all-different constraint without
    enforcement literal over expressions of one term at most whose values
    are 64-bit integers, fewer than [2^63] of them, keeps the solutions,
    whether it expands the constraint or not: every solution after it is a
    solution before it, every solution before it extends to the created
    literals into a solution after it, and the values of these literals are
    determined by the variables of the model.  This covers the propagation
    of a fixed expression, the [at_most_one] of each value of the union of
    the domains, the [exactly_one] of a permutation, and the removal of the
    constraint; when two fixed expressions have the same value or a domain
    becomes empty, the model is declared infeasible and had no solution. *)
Theorem MaybeExpandAllDiff_solutions (c : nat) (context : PresolveContext)
    (caches : scan_caches) (exprs : list LinearExpressionProto.t) :
  expansion_input other_holds context c (plain (kAllDiff exprs)) ->
  Forall affine exprs ->
  Forall (expr_in_int64 context) exprs ->
  true_literal_valid context ->
  Z.of_nat (length exprs) < kint64max ->
  preserves_solutions other_holds context (MaybeExpandAllDiff c context caches).2
  /\ determines_new_variables other_holds context (MaybeExpandAllDiff c context caches).2.
Proof. intros Hinput Haffine Hfit Htrue Hsmall. by apply (all_diff_solutions other_holds c context exprs). Qed.

End AllDiffExpansion.

Lemma permutation_all_diff_input :
  expansion_input no_other_constraint permutation_all_diff_context 0
    (plain (kAllDiff permutation_all_diff)).
Proof.
  split; [|reflexivity]. split; [reflexivity|]. split; [reflexivity|]. split; [|split; reflexivity].
  apply closed_model_refs; [reflexivity|]. by intros s s' ct _ _.
Qed.

Lemma permutation_all_diff_fits :
  Forall (expr_in_int64 permutation_all_diff_context) permutation_all_diff.
Proof.
  assert (H : forall var, var ∈ [0; 1; 2] ->
            expr_in_int64 permutation_all_diff_context (single_var_expr var)).
  { intros var Hvar. split; [unfold kint64min, kint64max; simpl; lia|].
    intros var' coeff x Ht Hx. injection Ht as <- <-.
    apply sorted_intervals_bounds in Hx; [|apply DomainOf_sorted; reflexivity].
    assert (Hbounds : 0 <= x <= 2).
    { repeat (apply elem_of_cons in Hvar as [->|Hvar]); [| | |by apply elem_of_nil in Hvar];
        match type of Hx with
        | Domain.Min ?d <= _ <= _ => let e := eval vm_compute in d in change d with e in Hx
        end; unfold Domain.Min, Domain.Max in Hx; simpl in Hx; lia. }
    unfold kint64min, kint64max. simpl LinearExpressionProto.offset. lia. }
  unfold permutation_all_diff.
  apply Forall_cons; split; [apply H; set_solver|].
  apply Forall_cons; split; [apply H; set_solver|].
  apply Forall_cons; split; [apply H; set_solver|]. by apply Forall_nil.
Qed.

Lemma MaybeExpandAllDiff_solutions_witness :
  preserves_solutions no_other_constraint permutation_all_diff_context
    (MaybeExpandAllDiff 0 permutation_all_diff_context (mkScanCaches ∅ ∅ ∅)).2
  /\ determines_new_variables no_other_constraint permutation_all_diff_context
       (MaybeExpandAllDiff 0 permutation_all_diff_context (mkScanCaches ∅ ∅ ∅)).2.
Proof.
  apply (MaybeExpandAllDiff_solutions no_other_constraint 0%nat permutation_all_diff_context
           (mkScanCaches ∅ ∅ ∅) permutation_all_diff).
  - apply permutation_all_diff_input.
  - repeat constructor.
  - apply permutation_all_diff_fits.
  - intros l Hl. discriminate Hl.
  - reflexivity.
Defined.
(** * The expansion of an integer modulo keeps the solutions *)

(** ** Images of domains *)

Lemma product_hull (a1 a2 b1 b2 x y : Z) :
  a1 <= x <= a2 -> b1 <= y <= b2 ->
  Z.min (Z.min (a1 * b1) (a1 * b2)) (Z.min (a2 * b1) (a2 * b2)) <= x * y
  <= Z.max (Z.max (a1 * b1) (a1 * b2)) (Z.max (a2 * b1) (a2 * b2)).
Proof.
  intros Hx Hy.
  assert (H1 : Z.min (x * b1) (x * b2) <= x * y <= Z.max (x * b1) (x * b2)).
  { destruct (Z.le_gt_cases 0 x); split; nia. }
  assert (H2 : Z.min (a1 * b1) (a2 * b1) <= x * b1 <= Z.max (a1 * b1) (a2 * b1)).
  { destruct (Z.le_gt_cases 0 b1); split; nia. }
  assert (H3 : Z.min (a1 * b2) (a2 * b2) <= x * b2 <= Z.max (a1 * b2) (a2 * b2)).
  { destruct (Z.le_gt_cases 0 b2); split; nia. }
  lia.
Qed.

Lemma quot_hull (a1 a2 m1 m2 x y : Z) :
  a1 <= x <= a2 -> m1 <= y <= m2 -> 0 < m1 ->
  Z.min (Z.quot a1 m2) (Z.quot a1 m1) <= Z.quot x y
  <= Z.max (Z.quot a2 m1) (Z.quot a2 m2).
Proof.
  intros Hx Hy Hm.
  assert (Hmono : forall a b c, 0 < c -> a <= b -> Z.quot a c <= Z.quot b c)
    by (intros; by apply Z.quot_le_mono).
  assert (Hpos : forall p q r, 0 <= p -> 0 < q <= r -> Z.quot p r <= Z.quot p q)
    by (intros; by apply Z.quot_le_compat_l).
  assert (Hneg : forall p q r, p <= 0 -> 0 < q <= r -> Z.quot p q <= Z.quot p r).
  { intros p q r Hp Hq. replace p with (- - p) by lia.
    rewrite !(Z.quot_opp_l (- p)) by lia.
    pose proof (Hpos (- p) q r ltac:(lia) Hq). lia. }
  split.
  - transitivity (Z.quot a1 y); [|apply Hmono; lia].
    destruct (Z.le_gt_cases 0 a1).
    + pose proof (Hpos a1 y m2 ltac:(lia) ltac:(lia)). lia.
    + pose proof (Hneg a1 m1 y ltac:(lia) ltac:(lia)). lia.
  - transitivity (Z.quot a2 y); [apply Hmono; lia|].
    destruct (Z.le_gt_cases 0 a2).
    + pose proof (Hpos a2 m1 y ltac:(lia) ltac:(lia)). lia.
    + pose proof (Hneg a2 y m2 ltac:(lia) ltac:(lia)). lia.
Qed.

Lemma rem_hull (a1 a2 m2 x y : Z) :
  a1 <= x <= a2 -> 0 < y <= m2 -> 0 <= a2 ->
  (if a1 <? 0 then Z.max a1 (- (m2 - 1)) else 0) <= Z.rem x y
  <= Z.min a2 (m2 - 1).
Proof.
  intros Hx Hy Ha2. destruct (Z.le_gt_cases 0 x) as [Hpos|Hneg].
  - pose proof (Z.rem_bound_pos x y Hpos ltac:(lia)).
    pose proof (Z.rem_le x y Hpos ltac:(lia)).
    destruct (Z.ltb_spec a1 0); lia.
  - pose proof (Z.rem_bound_pos_neg x y ltac:(lia) ltac:(lia)).
    assert (x <= Z.rem x y).
    { pose proof (Z.rem_le (- x) y ltac:(lia) ltac:(lia)) as H1.
      rewrite Z.rem_opp_l in H1 by lia. lia. }
    destruct (Z.ltb_spec a1 0); lia.
Qed.

Lemma Contains_not_empty (d : Domain.t) (x : Z) :
  Domain.Contains d x = true -> Domain.IsEmpty d = false.
Proof. by destruct d. Qed.

Lemma Contains_PositiveModuloBySuperset (d m : Domain.t) (x y : Z) :
  sorted_intervals d = true -> sorted_intervals m = true ->
  Domain.Contains d x = true -> Domain.Contains m y = true ->
  0 < Domain.Min m -> 0 <= Domain.Max d ->
  Domain.Contains (Domain.PositiveModuloBySuperset d m) (Z.rem x y) = true.
Proof.
  intros Hd Hm Hx Hy Hpos Hmax. unfold Domain.PositiveModuloBySuperset.
  rewrite (Contains_not_empty d x Hx). cbv zeta.
  pose proof (sorted_intervals_bounds d x Hd Hx) as Bx.
  pose proof (sorted_intervals_bounds m y Hm Hy) as By.
  rewrite DomainFacts.Contains_Range, andb_true_iff, !Z.leb_le.
  apply (rem_hull (Domain.Min d) (Domain.Max d) (Domain.Max m) x y); lia.
Qed.

Lemma Contains_PositiveDivisionBySuperset (d m : Domain.t) (x y : Z) :
  sorted_intervals d = true -> sorted_intervals m = true ->
  Domain.Contains d x = true -> Domain.Contains m y = true ->
  0 < Domain.Min m ->
  Domain.Contains (Domain.PositiveDivisionBySuperset d m) (Z.quot x y) = true.
Proof.
  intros Hd Hm Hx Hy Hpos. unfold Domain.PositiveDivisionBySuperset.
  rewrite (Contains_not_empty d x Hx).
  pose proof (sorted_intervals_bounds d x Hd Hx) as Bx.
  pose proof (sorted_intervals_bounds m y Hm Hy) as By.
  rewrite DomainFacts.Contains_Range, andb_true_iff, !Z.leb_le.
  by apply quot_hull.
Qed.

Lemma Contains_ContinuousMultiplicationByDomain (a b : Domain.t) (x y : Z) :
  sorted_intervals a = true -> sorted_intervals b = true ->
  Domain.Contains a x = true -> Domain.Contains b y = true ->
  Domain.Contains (Domain.ContinuousMultiplicationByDomain a b) (x * y) = true.
Proof.
  intros Ha Hb Hx Hy. unfold Domain.ContinuousMultiplicationByDomain.
  rewrite (Contains_not_empty a x Hx), (Contains_not_empty b y Hy). cbv zeta. simpl orb.
  cbv iota.
  pose proof (sorted_intervals_bounds a x Ha Hx) as Bx.
  pose proof (sorted_intervals_bounds b y Hb Hy) as By.
  rewrite DomainFacts.Contains_Range, andb_true_iff, !Z.leb_le.
  by apply product_hull.
Qed.

(** ** The domain of an expression *)

Lemma sorted_RelaxIfTooComplex (d : Domain.t) :
  sorted_intervals d = true -> sorted_intervals (Domain.RelaxIfTooComplex d) = true.
Proof.
  intros Hd. unfold Domain.RelaxIfTooComplex.
  destruct (Domain.NumIntervals d <=? Domain.kDomainComplexityLimit); [done|].
  apply valid_sorted, DomainFacts.valid_Range.
Qed.

Lemma DomainSuperSetOf_sorted (context : PresolveContext) (e : LinearExpressionProto.t) :
  affine e -> sorted_intervals (DomainSuperSetOf context e) = true.
Proof.
  intros Haffine. unfold DomainSuperSetOf.
  destruct (affine_terms e Haffine) as [(_ & _ & ->) | (var & coeff & _ & _ & ->)];
    cbn [foldl].
  - apply valid_sorted, DomainFacts.valid_Value.
  - apply sorted_RelaxIfTooComplex, valid_sorted, DomainFacts.valid_AdditionWith.
Qed.

Lemma DomainOf_same (c1 c2 : PresolveContext) (ref : Z) :
  domain_of_var c2 (PositiveRef ref) = domain_of_var c1 (PositiveRef ref) ->
  DomainOf c2 ref = DomainOf c1 ref.
Proof.
  intros H. unfold DomainOf. destruct (RefIsPositive ref) eqn:E; [|by rewrite H].
  by rewrite <- (PositiveRef_positive ref E).
Qed.

Lemma DomainSuperSetOf_same (c1 c2 : PresolveContext) (e : LinearExpressionProto.t) :
  (forall ref, ref ∈ expr_refs e ->
     domain_of_var c2 (PositiveRef ref) = domain_of_var c1 (PositiveRef ref)) ->
  DomainSuperSetOf c2 e = DomainSuperSetOf c1 e.
Proof.
  intros Hsame. unfold DomainSuperSetOf.
  assert (Hterms : forall vc, vc ∈ terms e -> DomainOf c2 vc.1 = DomainOf c1 vc.1).
  { intros [var coeff] Hvc. apply DomainOf_same, Hsame. unfold terms in Hvc.
    apply elem_of_zip_l in Hvc. exact Hvc. }
  revert Hterms. generalize (Domain.Value (LinearExpressionProto.offset e)).
  induction (terms e) as [|vc l IH]; intros d Hterms; cbn [foldl]; [done|].
  rewrite (Hterms vc) by left. apply IH. intros vc' Hvc'. apply Hterms. by right.
Qed.

Lemma DomainSuperSetOf_prefix (c1 c2 : PresolveContext) (e : LinearExpressionProto.t) :
  domains_prefix c1 c2 ->
  Forall (fun ref => PositiveRef ref < Z.of_nat (length (domains c1))) (expr_refs e) ->
  DomainSuperSetOf c2 e = DomainSuperSetOf c1 e.
Proof.
  intros Hprefix Hrefs. apply DomainSuperSetOf_same. intros ref Href.
  rewrite Forall_forall in Hrefs. apply domain_of_var_prefix; [done|].
  split; [apply PositiveRef_nonnegative|by apply Hrefs].
Qed.

(** The value of an expression, when it is a 64-bit integer, is in the
    superset of its domain. *)
Lemma expr_value_in_superset (context : PresolveContext) (s : assignment)
    (e : LinearExpressionProto.t) :
  affine e ->
  domains_hold s (domains context) = true ->
  Forall (fun ref => PositiveRef ref < Z.of_nat (length (domains context))) (expr_refs e) ->
  kint64min <= expr_value s e <= kint64max ->
  Domain.Contains (DomainSuperSetOf context e) (expr_value s e) = true.
Proof.
  intros Haffine Hdom Hrefs Hvalue. unfold DomainSuperSetOf.
  destruct (affine_terms e Haffine) as [(Hv & Hc & Ht) | (var & coeff & Hv & Hc & Ht)].
  - rewrite Ht, (expr_value_constant s e Hv). cbn [foldl].
    rewrite DomainFacts.Contains_Value. apply Z.eqb_refl.
  - rewrite Ht. rewrite (expr_value_term s e var coeff Hv Hc) in *. cbn [foldl snd fst].
    assert (Hin : Domain.Contains (DomainOf context var) (ref_value s var) = true).
    { apply DomainOf_holds; [done|]. by apply (expr_refs_below _ e var coeff). }
    apply Contains_RelaxIfTooComplex.
    { apply valid_sorted, DomainFacts.valid_AdditionWith. }
    rewrite Z.add_comm. apply Contains_AdditionWith.
    + rewrite DomainFacts.Contains_Value. apply Z.eqb_refl.
    + by apply Contains_MultiplicationBy.
    + lia.
Qed.

Section ExprReduction.

Variable other_holds : assignment -> Constraint -> bool.

(** One reduction of the domain of an expression in an expansion. *)
Lemma expr_reduction_step (context ctx : PresolveContext) (c : nat) (ct : ConstraintProto.t)
    (e : LinearExpressionProto.t) (d : Domain.t) :
  same_solutions other_holds context ctx ->
  expansion_input other_holds ctx c ct ->
  affine e -> nonzero_coeffs e ->
  Forall (fun ref => PositiveRef ref < variables_size ctx) (expr_refs e) ->
  (forall s, solution other_holds s ctx = true ->
     kint64min <= expr_value s e - LinearExpressionProto.offset e <= kint64max
     /\ Domain.Contains d (expr_value s e) = true) ->
  let r := IntersectDomainWithExpr e d ctx in
  same_solutions other_holds context r.2
  /\ (r.1.1 = true -> expansion_input other_holds r.2 c ct)
  /\ (r.1.1 = false -> is_unsat r.2 = true)
  /\ (forall var, 0 <= var -> (forall ref, ref ∈ expr_refs e -> var <> PositiveRef ref) ->
        domain_of_var r.2 var = domain_of_var ctx var)
  /\ length (domains r.2) = length (domains ctx).
Proof.
  intros Hsame Hinput Haffine Hnonzero Hrefs Hkept. unfold IntersectDomainWithExpr.
  destruct (affine_terms e Haffine) as [(Hv & Hc & Ht) | (var & coeff & Hv & Hc & Ht)];
    rewrite Ht.
  - destruct (Domain.Contains d (LinearExpressionProto.offset e)) eqn:Hin; cbn [fst snd].
    + split; [done|]. split; [done|]. split; [done|]. by split.
    + split; [|split; [done|split; [done|by split]]].
      apply (same_solutions_trans other_holds _ ctx); [done|]. split; [done|].
      intros s. change (solution other_holds s (NotifyThatModelIsUnsat ctx)) with false.
      symmetry. apply Bool.not_true_iff_false. intros Hs.
      destruct (Hkept s Hs) as [_ H]. rewrite (expr_value_constant s e Hv) in H. congruence.
  - assert (Hne : coeff <> 0).
    { unfold nonzero_coeffs in Hnonzero. rewrite Hc in Hnonzero.
      by apply Forall_inv in Hnonzero. }
    assert (Hvar : PositiveRef var < variables_size ctx)
      by (by apply (expr_refs_below _ e var coeff)).
    set (d' := Domain.InverseMultiplicationBy coeff _).
    destruct (reduction_step other_holds context ctx c ct var d' Hsame Hinput Hvar)
      as (Hsame' & Hinput' & Hfail).
    { intros s Hs. destruct (Hkept s Hs) as [Hfit Hin]. unfold d'.
      rewrite DomainFacts.Contains_InverseMultiplicationBy by done.
      rewrite (expr_value_term s e var coeff Hv Hc) in Hfit, Hin.
      replace (coeff * ref_value s var)
        with ((coeff * ref_value s var + LinearExpressionProto.offset e)
              + - LinearExpressionProto.offset e) by lia.
      apply Contains_AdditionWith; [done| |lia].
      rewrite DomainFacts.Contains_Value. apply Z.eqb_refl. }
    split; [done|]. split; [done|]. split; [done|]. split.
    + intros x Hx Hother. apply IntersectDomainWith_other_domain; [done|].
      apply Hother. unfold expr_refs. rewrite Hv. left.
    + apply IntersectDomainWith_length_domains.
Qed.

End ExprReduction.

Section IntModSolutions.

Variable other_holds : assignment -> Constraint -> bool.

Lemma expr_value_single_var (s : assignment) (var : Z) :
  0 <= var -> expr_value s (single_var_expr var) = s var.
Proof.
  intros Hvar. unfold expr_value, sum_terms, single_var_expr, ref_value, RefIsPositive. simpl.
  destruct (Z.leb_spec 0 var); lia.
Qed.

(** [x - p - t = 0], as built by three calls of
    [AddLinearExpressionToLinearConstraint]. *)
Lemma holds_difference (s : assignment) (x p t : LinearExpressionProto.t) :
  length (LinearExpressionProto.vars x) = length (LinearExpressionProto.coeffs x) ->
  length (LinearExpressionProto.vars p) = length (LinearExpressionProto.coeffs p) ->
  holds other_holds s
    (plain
       (kLinear
          (AddLinearExpressionToLinearConstraint t (-1)
             (AddLinearExpressionToLinearConstraint p (-1)
                (AddLinearExpressionToLinearConstraint x 1
                   (LinearConstraintProto.mk [] [] [0; 0]))))))
  = (expr_value s x - expr_value s p - expr_value s t =? 0).
Proof.
  intros Hx Hp. unfold holds, plain, constraint_holds, linear_holds.
  cbn [ConstraintProto.enforcement_literal ConstraintProto.constraint forallb implb].
  rewrite sum_terms_Add.
  2:{ cbn [AddLinearExpressionToLinearConstraint LinearConstraintProto.vars
           LinearConstraintProto.coeffs]. rewrite !length_app, !length_map. simpl. lia. }
  rewrite sum_terms_Add by (simpl; by rewrite length_map).
  rewrite sum_terms_Add by done.
  cbn [AddLinearExpressionToLinearConstraint LinearConstraintProto.domain
       LinearConstraintProto.vars LinearConstraintProto.coeffs map].
  rewrite Contains_point. unfold sum_terms at 1. simpl.
  destruct (Z.eqb_spec (expr_value s x - expr_value s p - expr_value s t) 0) as [E|E];
    [apply Z.eqb_eq|apply Z.eqb_neq]; lia.
Qed.

(** What [ExpandIntMod] builds after the reduction of the target. *)
Lemma ExpandIntMod_expanded (c : nat) (context context1 : PresolveContext) (changed : bool)
    (target_expr expr mod_expr : LinearExpressionProto.t) :
  initialized context ->
  constraints context !! c
  = Some (plain (kIntMod (LinearArgumentProto.mk target_expr [expr; mod_expr]))) ->
  IsFixedExpr context mod_expr = false ->
  int_mod_tightening context target_expr expr mod_expr = (true, changed, context1) ->
  initialized context1 -> constraints context1 = constraints context ->
  variables_size context1 = variables_size context ->
  let n := variables_size context in
  let context' := ExpandIntMod c context in
  let div_domain :=
    Domain.PositiveDivisionBySuperset (DomainSuperSetOf context1 expr)
      (DomainSuperSetOf context1 mod_expr) in
  exists context3,
    domains context3 = domains context1 ++ [div_domain]
    /\ domains context'
       = domains context1
         ++ [div_domain;
             Domain.IntersectionWith
               (Domain.ContinuousMultiplicationByDomain (DomainOf context3 n)
                  (DomainSuperSetOf context3 mod_expr))
               (Domain.AdditionWith (DomainSuperSetOf context3 expr)
                  (Domain.Negation (DomainSuperSetOf context3 target_expr)))]
    /\ constraints context'
       = int_mod_expansion c [] target_expr expr mod_expr n (n + 1) (constraints context)
    /\ encoding context' = encoding context1
    /\ equalities context' = equalities context1
    /\ is_unsat context' = is_unsat context1
    /\ variables_size context' = n + 2.
Proof.
  intros Hinit Hct Hmod Htight Hinit1 Hcs Hvs n context'.
  Opaque NewIntVar.
  assert (Hc : (c < length (constraints context))%nat) by (by eapply lookup_lt_Some).
  subst context'. unfold ExpandIntMod, constraint_at, int_mod_of.
  rewrite Hct. simpl. unfold expr_at. simpl. rewrite Hmod.
  fold (int_mod_tightening context target_expr expr mod_expr). rewrite Htight.
  cbv beta iota. simpl negb. cbv iota.
  set (div_domain := Domain.PositiveDivisionBySuperset _ _).
  pose proof (NewIntVar_index div_domain context1) as Hq.
  pose proof (NewIntVar_domains div_domain context1 Hinit1) as Hqd.
  pose proof (NewIntVar_initialized div_domain context1 Hinit1) as Hqi.
  pose proof (NewIntVar_constraints div_domain context1) as Hqc.
  pose proof (NewIntVar_variables_size div_domain context1) as Hqs.
  assert (Hqu : is_unsat (NewIntVar div_domain context1).2 = is_unsat context1)
    by apply NewIntVar_is_unsat.
  assert (Hqe : encoding (NewIntVar div_domain context1).2 = encoding context1).
  { Transparent NewIntVar. reflexivity. Opaque NewIntVar. }
  assert (Hqq : equalities (NewIntVar div_domain context1).2 = equalities context1).
  { Transparent NewIntVar. reflexivity. Opaque NewIntVar. }
  rewrite (DomainFacts.ReadDomainFromProto_FillDomainInProto div_domain) in Hqd.
  2:{ unfold div_domain, Domain.PositiveDivisionBySuperset.
      destruct (Domain.IsEmpty _); [done | apply DomainFacts.valid_Range]. }
  destruct (NewIntVar div_domain context1) as [div_var context2].
  cbn [fst snd] in Hq, Hqd, Hqi, Hqc, Hqs, Hqu, Hqe, Hqq. cbv beta iota.
  set (context3 := add_constraints _ context2).
  set (prod_domain := Domain.IntersectionWith _ _).
  assert (Hinit3 : initialized context3) by (by apply add_constraints_initialized).
  pose proof (NewIntVar_index prod_domain context3) as Hp.
  pose proof (NewIntVar_domains prod_domain context3 Hinit3) as Hpd.
  pose proof (NewIntVar_constraints prod_domain context3) as Hpc.
  pose proof (NewIntVar_variables_size prod_domain context3) as Hps.
  assert (Hpu : is_unsat (NewIntVar prod_domain context3).2 = is_unsat context3)
    by apply NewIntVar_is_unsat.
  assert (Hpe : encoding (NewIntVar prod_domain context3).2 = encoding context3).
  { Transparent NewIntVar. reflexivity. Opaque NewIntVar. }
  assert (Hpq : equalities (NewIntVar prod_domain context3).2 = equalities context3).
  { Transparent NewIntVar. reflexivity. Opaque NewIntVar. }
  rewrite (DomainFacts.ReadDomainFromProto_FillDomainInProto prod_domain
             (DomainFacts.valid_IntersectionWith _ _)) in Hpd.
  destruct (NewIntVar prod_domain context3) as [prod_var context4].
  cbn [fst snd] in Hp, Hpd, Hpc, Hps, Hpu, Hpe, Hpq. cbv beta iota.
  assert (Hd3 : domains context3 = domains context1 ++ [div_domain]) by exact Hqd.
  assert (Hn3 : variables_size context3 = n + 1).
  { change (variables_size context3) with (variables_size context2). unfold n. lia. }
  assert (Hdiv : div_var = n) by (unfold n; lia).
  assert (Hprod : prod_var = n + 1) by lia.
  clear Hq Hp. subst div_var prod_var.
  exists context3. split; [done|].
  split; [|split; [|split; [|split; [|split]]]].
  - autorewrite with ctx. rewrite Hpd, Hd3, <- app_assoc. reflexivity.
  - autorewrite with ctx. rewrite Hpc.
    unfold context3. rewrite constraints_add_constraints, Hqc, Hcs.
    unfold int_mod_expansion. rewrite <- !app_assoc. simpl.
    by rewrite insert_app_l.
  - change (encoding context4 = encoding context1). rewrite Hpe.
    change (encoding context2 = encoding context1). done.
  - change (equalities context4 = equalities context1). rewrite Hpq.
    change (equalities context2 = equalities context1). done.
  - change (is_unsat context4 = is_unsat context1). rewrite Hpu.
    change (is_unsat context2 = is_unsat context1). done.
  - autorewrite with ctx. lia.
Qed.

Transparent NewIntVar.

Lemma unchanged_solutions (context : PresolveContext) :
  preserves_solutions other_holds context context
  /\ determines_new_variables other_holds context context.
Proof.
  split; [split|].
  - by intros s Hs.
  - intros s Hs. exists s. split; [apply agree_refl|done].
  - by intros s1 s2 _ _ Hagree.
Qed.

Lemma int_mod_refs_below (n : Z) (target_expr expr mod_expr : LinearExpressionProto.t) :
  refs_below n (plain (kIntMod (LinearArgumentProto.mk target_expr [expr; mod_expr]))) = true ->
  Forall (fun ref => PositiveRef ref < n) (expr_refs target_expr)
  /\ Forall (fun ref => PositiveRef ref < n) (expr_refs expr)
  /\ Forall (fun ref => PositiveRef ref < n) (expr_refs mod_expr).
Proof.
  unfold refs_below, UsedVariables, arg_refs. simpl. rewrite app_nil_r.
  rewrite forallb_forall. intros H.
  assert (Hall : forall ref, ref ∈ expr_refs target_expr ++ expr_refs expr ++ expr_refs mod_expr ->
                   PositiveRef ref < n).
  { intros ref Href. apply Z.ltb_lt, H, in_map. by apply list_elem_of_In. }
  repeat split; apply Forall_forall; intros ref Href; apply Hall; set_solver.
Qed.

(** The three constraints of the expansion mean that the target is the
    remainder. *)
Lemma int_mod_constraints_meaning (s : assignment) (n : Z)
    (target_expr expr mod_expr : LinearExpressionProto.t) :
  0 <= n -> affine expr ->
  let x := expr_value s expr in
  let y := expr_value s mod_expr in
  holds other_holds s
    (plain (kIntDiv (LinearArgumentProto.mk (single_var_expr n) [expr; mod_expr])))
  && holds other_holds s
       (plain (kIntProd (LinearArgumentProto.mk (single_var_expr (n + 1))
                           [single_var_expr n; mod_expr])))
  && holds other_holds s
       (plain (kLinear (AddLinearExpressionToLinearConstraint target_expr (-1)
                          (AddLinearExpressionToLinearConstraint (single_var_expr (n + 1)) (-1)
                             (AddLinearExpressionToLinearConstraint expr 1
                                (LinearConstraintProto.mk [] [] [0; 0]))))))
  = true
  <-> y <> 0 /\ s n = Z.quot x y /\ s (n + 1) = s n * y
      /\ expr_value s target_expr = x - s (n + 1).
Proof.
  intros Hn [_ Hlen] x y. rewrite holds_difference by done.
  unfold holds, plain, constraint_holds.
  cbn [ConstraintProto.enforcement_literal ConstraintProto.constraint forallb implb
       LinearArgumentProto.exprs LinearArgumentProto.target expr_at].
  unfold expr_at. cbn [lookup list_lookup default foldr map].
  rewrite !expr_value_single_var by lia. fold x y.
  rewrite !andb_true_iff, negb_true_iff, !Z.eqb_eq, Z.eqb_neq. split.
  - intros [[[Hy Hq] Hp] Hl]. repeat split; try done; lia.
  - intros (Hy & Hq & Hp & Hl). repeat split; try done; lia.
Qed.

(** The expansion after the reduction of the target keeps the solutions. *)
Lemma int_mod_expanded_solutions (c : nat) (context1 context3 context' : PresolveContext)
    (target_expr expr mod_expr : LinearExpressionProto.t) :
  let n := variables_size context1 in
  let ct := plain (kIntMod (LinearArgumentProto.mk target_expr [expr; mod_expr])) in
  let div_domain :=
    Domain.PositiveDivisionBySuperset (DomainSuperSetOf context1 expr)
      (DomainSuperSetOf context1 mod_expr) in
  expansion_input other_holds context1 c ct ->
  affine target_expr -> affine expr -> affine mod_expr ->
  0 < Domain.Min (DomainSuperSetOf context1 mod_expr) ->
  (forall s, solution other_holds s context1 = true ->
     (kint64min <= expr_value s target_expr <= kint64max)
     /\ (kint64min <= expr_value s expr <= kint64max)
     /\ (kint64min <= expr_value s mod_expr <= kint64max)) ->
  domains context3 = domains context1 ++ [div_domain] ->
  domains context'
  = domains context1
    ++ [div_domain;
        Domain.IntersectionWith
          (Domain.ContinuousMultiplicationByDomain (DomainOf context3 n)
             (DomainSuperSetOf context3 mod_expr))
          (Domain.AdditionWith (DomainSuperSetOf context3 expr)
             (Domain.Negation (DomainSuperSetOf context3 target_expr)))] ->
  constraints context'
  = int_mod_expansion c [] target_expr expr mod_expr n (n + 1) (constraints context1) ->
  encoding context' = encoding context1 ->
  equalities context' = equalities context1 ->
  is_unsat context' = is_unsat context1 ->
  variables_size context' = n + 2 ->
  preserves_solutions other_holds context1 context'
  /\ determines_new_variables other_holds context1 context'.
Proof.
  intros n ct div_domain ((Hc & Hinit & Hclosed & Hcache & Hrefs) & Hsorted)
    Haff_t Haff_e Haff_m Hpositive Hfit Hd3 Hd' Hcons' Henc' Heq' Hun' Hn'.
  pose proof (initialized_size context1 Hinit) as Hlen. fold n in Hlen.
  assert (Hn0 : 0 <= n) by (unfold n, variables_size; lia).
  destruct (int_mod_refs_below n _ _ _ Hrefs) as (Href_t & Href_e & Href_m).
  assert (Hbelow : forall e, Forall (fun ref => PositiveRef ref < n) (expr_refs e) ->
            Forall (fun ref => PositiveRef ref < Z.of_nat (length (domains context1)))
                   (expr_refs e)) by (intros e He; by rewrite Hlen).
  assert (Hprefix : domains_prefix context1 context3) by (by exists [div_domain]).
  rewrite (DomainSuperSetOf_prefix context1 context3 mod_expr Hprefix (Hbelow _ Href_m)),
    (DomainSuperSetOf_prefix context1 context3 expr Hprefix (Hbelow _ Href_e)),
    (DomainSuperSetOf_prefix context1 context3 target_expr Hprefix (Hbelow _ Href_t)) in Hd'.
  assert (Hdiv : DomainOf context3 n = div_domain).
  { unfold DomainOf, RefIsPositive, domain_of_var.
    destruct (Z.leb_spec 0 n); [|lia]. rewrite Hd3.
    replace (Z.to_nat n) with (length (domains context1)) by lia.
    by rewrite list_lookup_middle. }
  rewrite Hdiv in Hd'.
  set (prod_domain := Domain.IntersectionWith _ _) in Hd'.
  (* the meaning of the constraint and of its expansion *)
  assert (Hmeaning : forall s,
            holds other_holds s ct = true
            <-> expr_value s mod_expr <> 0
                /\ expr_value s target_expr
                   = Z.rem (expr_value s expr) (expr_value s mod_expr)).
  { intros s. unfold ct, holds, plain, constraint_holds.
    cbn [ConstraintProto.enforcement_literal ConstraintProto.constraint forallb implb
         LinearArgumentProto.exprs LinearArgumentProto.target].
    unfold expr_at. cbn [lookup list_lookup default].
    by rewrite andb_true_iff, negb_true_iff, Z.eqb_eq, Z.eqb_neq. }
  assert (Hnews : forall ct0,
            ct0 ∈ constraints context' ->
            ct0 = ConstraintProto.cleared \/ ct0 ∈ constraints context1
            \/ ct0 ∈ [plain (kIntDiv (LinearArgumentProto.mk (single_var_expr n)
                                         [expr; mod_expr]));
                      plain (kIntProd (LinearArgumentProto.mk (single_var_expr (n + 1))
                                          [single_var_expr n; mod_expr]));
                      plain (kLinear (AddLinearExpressionToLinearConstraint target_expr (-1)
                               (AddLinearExpressionToLinearConstraint
                                  (single_var_expr (n + 1)) (-1)
                                  (AddLinearExpressionToLinearConstraint expr 1
                                     (LinearConstraintProto.mk [] [] [0; 0])))))]).
  { intros ct0. rewrite Hcons'. unfold int_mod_expansion.
    intros [Hin|Hin]%elem_of_app; [|by right; right].
    apply elem_of_list_insert_inv in Hin as [->|Hin]; [by left|by right; left]. }
  assert (Hthree : forall s,
            (forall ct0, ct0 ∈ constraints context' -> holds other_holds s ct0 = true) ->
            expr_value s mod_expr <> 0
            /\ s n = Z.quot (expr_value s expr) (expr_value s mod_expr)
            /\ s (n + 1) = s n * expr_value s mod_expr
            /\ expr_value s target_expr = expr_value s expr - s (n + 1)).
  { intros s Hall.
    apply (int_mod_constraints_meaning s n target_expr expr mod_expr Hn0 Haff_e).
    rewrite !andb_true_iff. repeat split; apply Hall; rewrite Hcons';
      unfold int_mod_expansion; apply elem_of_app; right; rewrite !elem_of_cons; auto 6. }
  split; [split|].
  - (* a solution of the expansion is a solution of the model *)
    intros s (Hu & Hdom & Hcons & Henc & Heq)%solution_spec.
    destruct (Hthree s Hcons) as (Hy & Hq & Hp & Hl).
    apply solution_spec. split; [congruence|]. split; [|split; [|by rewrite <- Henc', <- Heq']].
    + apply domains_hold_spec. intros i d Hi.
      apply (proj1 (domains_hold_spec _ _) Hdom i). rewrite Hd'. by apply lookup_app_l_Some.
    + intros ct0 [i Hi]%list_elem_of_lookup_1. destruct (decide (i = c)) as [->|Hne].
      * rewrite Hc in Hi. injection Hi as <-. apply Hmeaning. split; [done|].
        pose proof (Z.quot_rem' (expr_value s expr) (expr_value s mod_expr)). nia.
      * apply Hcons. rewrite Hcons'. unfold int_mod_expansion. apply elem_of_app. left.
        apply (list_elem_of_lookup_2 _ i). by rewrite list_lookup_insert_ne.
  - (* a solution of the model extends to the quotient and to the product *)
    intros s Hs. pose proof Hs as (Hu & Hdom & Hcons & Henc & Heq)%solution_spec.
    destruct (Hfit s Hs) as (Ft & Fe & Fm).
    set (x := expr_value s expr) in *. set (y := expr_value s mod_expr) in *.
    set (s' := override s n [Z.quot x y; Z.quot x y * y]).
    assert (Hagree : agree n s s') by apply override_agree.
    assert (Hx' : expr_value s' expr = x) by (symmetry; by apply (expr_value_agree n)).
    assert (Hy' : expr_value s' mod_expr = y) by (symmetry; by apply (expr_value_agree n)).
    assert (Ht' : expr_value s' target_expr = expr_value s target_expr)
      by (symmetry; by apply (expr_value_agree n)).
    assert (Hsn : s' n = Z.quot x y).
    { replace n with (n + Z.of_nat 0) by lia. by apply override_new. }
    assert (Hsp : s' (n + 1) = Z.quot x y * y).
    { replace (n + 1) with (n + Z.of_nat 1) by lia. by apply override_new. }
    assert (Hct : holds other_holds s ct = true).
    { apply Hcons. by apply (list_elem_of_lookup_2 _ c). }
    apply Hmeaning in Hct as [Hy0 Hrem]. fold x y in Hy0, Hrem.
    assert (Hxin : Domain.Contains (DomainSuperSetOf context1 expr) x = true)
      by (apply expr_value_in_superset; auto).
    assert (Hyin : Domain.Contains (DomainSuperSetOf context1 mod_expr) y = true)
      by (apply expr_value_in_superset; auto).
    assert (Htin : Domain.Contains (DomainSuperSetOf context1 target_expr)
                     (expr_value s target_expr) = true)
      by (apply expr_value_in_superset; auto).
    assert (Hypos : 0 < y).
    { pose proof (sorted_intervals_bounds _ _
                    (DomainSuperSetOf_sorted context1 mod_expr Haff_m) Hyin). lia. }
    assert (Hqin : Domain.Contains div_domain (Z.quot x y) = true).
    { apply Contains_PositiveDivisionBySuperset; try done;
        by apply DomainSuperSetOf_sorted. }
    assert (Hproduct : Z.quot x y * y = x - expr_value s target_expr).
    { pose proof (Z.quot_rem' x y). lia. }
    exists s'. split; [done|]. apply solution_spec. split; [congruence|].
    split; [|split].
    + apply domains_hold_spec. intros i d. rewrite Hd'. intros Hi.
      apply lookup_app_Some in Hi as [Hi | [Hge Hi]].
      * rewrite <- Hagree by (apply lookup_lt_Some in Hi; lia).
        by apply (proj1 (domains_hold_spec _ _) Hdom i).
      * destruct (i - length (domains context1))%nat as [|[|k]] eqn:Ei; [| |done].
        -- injection Hi as <-. replace (Z.of_nat i) with n by lia. by rewrite Hsn.
        -- injection Hi as <-. replace (Z.of_nat i) with (n + 1) by lia. rewrite Hsp.
           unfold prod_domain. rewrite DomainFacts.Contains_IntersectionWith.
           apply andb_true_iff. split.
           ++ apply Contains_ContinuousMultiplicationByDomain; try done.
              ** unfold div_domain, Domain.PositiveDivisionBySuperset.
                 destruct (Domain.IsEmpty _); [done|].
                 apply valid_sorted, DomainFacts.valid_Range.
              ** by apply DomainSuperSetOf_sorted.
           ++ rewrite Hproduct.
              replace (x - expr_value s target_expr)
                with (x + - expr_value s target_expr) by lia.
              apply Contains_AdditionWith; [done| |].
              ** rewrite DomainFacts.Contains_Negation.
                 by replace (- - expr_value s target_expr)
                   with (expr_value s target_expr) by lia.
              ** rewrite Hrem.
                 assert (kint64min <= 0 <= kint64max) by (unfold kint64min, kint64max; lia).
                 destruct (Z.le_gt_cases 0 x) as [Hpos|Hneg].
                 --- pose proof (Z.rem_bound_pos x y Hpos Hypos).
                     pose proof (Z.rem_le x y Hpos Hypos). lia.
                 --- pose proof (Z.rem_bound_pos_neg x y Hypos ltac:(lia)).
                     pose proof (Z.rem_le (- x) y ltac:(lia) Hypos) as H1.
                     rewrite Z.rem_opp_l in H1 by lia. lia.
    + intros ct0 Hct0. destruct (Hnews ct0 Hct0) as [->|[Hin|Hin]]; [done| |].
      * rewrite <- (Hclosed s s' Hagree ct0 Hin). by apply Hcons.
      * pose proof (proj2 (int_mod_constraints_meaning s' n target_expr expr mod_expr
                             Hn0 Haff_e)) as Hall.
        cbv zeta in Hall. rewrite Hx', Hy', Ht', Hsn, Hsp in Hall.
        specialize (Hall ltac:(repeat split; [done|lia])).
        rewrite !andb_true_iff in Hall. destruct Hall as [[H1 H2] H3].
        repeat (apply elem_of_cons in Hin as [->|Hin]); try done.
        by apply elem_of_nil in Hin.
    + rewrite Henc', Heq'. by apply (cache_holds_agree n s s' context1).
  - (* the quotient and the product are determined *)
    intros s1 s2 Hs1 Hs2 Hagree. fold n in Hagree. rewrite Hn'.
    apply solution_spec in Hs1 as (_ & _ & Hcons1 & _).
    apply solution_spec in Hs2 as (_ & _ & Hcons2 & _).
    destruct (Hthree s1 Hcons1) as (_ & Hq1 & Hp1 & _).
    destruct (Hthree s2 Hcons2) as (_ & Hq2 & Hp2 & _).
    assert (Hx : expr_value s1 expr = expr_value s2 expr) by (by apply (expr_value_agree n)).
    assert (Hy : expr_value s1 mod_expr = expr_value s2 mod_expr)
      by (by apply (expr_value_agree n)).
    intros v Hv. destruct (Z.lt_ge_cases v n) as [Hlt|Hge]; [apply Hagree; lia|].
    assert (v = n \/ v = n + 1) as [->| ->] by lia; congruence.
Qed.

Lemma expr_shift_in_int64 (context : PresolveContext) (s : assignment)
    (e : LinearExpressionProto.t) :
  affine e -> expr_in_int64 context e ->
  domains_hold s (domains context) = true ->
  Forall (fun ref => PositiveRef ref < Z.of_nat (length (domains context))) (expr_refs e) ->
  kint64min <= expr_value s e - LinearExpressionProto.offset e <= kint64max.
Proof.
  intros Haffine [Hoff Hfit] Hdom Hrefs.
  destruct (affine_terms e Haffine) as [(Hv & Hc & Ht) | (var & coeff & Hv & Hc & Ht)].
  - rewrite (expr_value_constant s e Hv). unfold kint64min, kint64max. lia.
  - rewrite (expr_value_term s e var coeff Hv Hc).
    destruct (Hfit var coeff (ref_value s var) Ht) as [H _]; [|lia].
    apply DomainOf_holds; [done|]. by apply (expr_refs_below _ e var coeff).
Qed.

(** [ExpandIntMod] when the modulus is fixed and when the reduction of the
    target fails. *)
Lemma ExpandIntMod_stops (c : nat) (context : PresolveContext)
    (target_expr expr mod_expr : LinearExpressionProto.t) :
  constraints context !! c
  = Some (plain (kIntMod (LinearArgumentProto.mk target_expr [expr; mod_expr]))) ->
  (IsFixedExpr context mod_expr = true -> ExpandIntMod c context = context)
  /\ (IsFixedExpr context mod_expr = false ->
      (int_mod_tightening context target_expr expr mod_expr).1.1 = false ->
      ExpandIntMod c context = (int_mod_tightening context target_expr expr mod_expr).2).
Proof.
  intros Hct. unfold ExpandIntMod, constraint_at, int_mod_of. rewrite Hct. simpl.
  unfold expr_at. simpl. split.
  - by intros ->.
  - intros -> Hfail. fold (int_mod_tightening context target_expr expr mod_expr).
    destruct (int_mod_tightening context target_expr expr mod_expr) as [[ok changed] context1].
    simpl in Hfail. by subst ok.
Qed.

(** [ExpandIntMod] keeps the solutions. *)
Lemma int_mod_solutions (c : nat) (context : PresolveContext)
    (target_expr expr mod_expr : LinearExpressionProto.t) :
  expansion_input other_holds context c
    (plain (kIntMod (LinearArgumentProto.mk target_expr [expr; mod_expr]))) ->
  affine target_expr -> affine expr -> affine mod_expr ->
  nonzero_coeffs target_expr ->
  expr_in_int64 context target_expr -> expr_in_int64 context expr ->
  expr_in_int64 context mod_expr ->
  other_variables target_expr expr -> other_variables target_expr mod_expr ->
  0 < Domain.Min (DomainSuperSetOf context mod_expr) ->
  0 <= Domain.Max (DomainSuperSetOf context expr) ->
  preserves_solutions other_holds context (ExpandIntMod c context)
  /\ determines_new_variables other_holds context (ExpandIntMod c context).
Proof.
  intros Hinput Haff_t Haff_e Haff_m Hnonzero Hfit_t Hfit_e Hfit_m Hother_e Hother_m
    Hpositive Hmax.
  pose proof Hinput as ((Hc & Hinit & Hclosed & Hcache & Hrefs) & Hsorted).
  pose proof (initialized_size context Hinit) as Hlen.
  destruct (int_mod_refs_below _ _ _ _ Hrefs) as (Href_t & Href_e & Href_m).
  destruct (ExpandIntMod_stops c context target_expr expr mod_expr Hc) as [Hfixed Hstop].
  destruct (IsFixedExpr context mod_expr) eqn:Hmod.
  { rewrite (Hfixed eq_refl). apply unchanged_solutions. }
  clear Hfixed. specialize (Hstop eq_refl).
  assert (Hvalues : forall s, solution other_holds s context = true ->
            (kint64min <= expr_value s target_expr <= kint64max)
            /\ (kint64min <= expr_value s expr <= kint64max)
            /\ (kint64min <= expr_value s mod_expr <= kint64max)).
  { intros s (_ & Hdom & _)%solution_spec.
    repeat split; apply (expr_value_in_int64 context); try done; by rewrite Hlen. }
  set (d := Domain.PositiveModuloBySuperset (DomainSuperSetOf context expr)
              (DomainSuperSetOf context mod_expr)).
  destruct (expr_reduction_step other_holds context context c _ target_expr d
              (same_solutions_refl other_holds context) Hinput Haff_t Hnonzero Href_t)
    as (Hsame1 & Hinput1 & Hfail1 & Hother1 & Hlen1).
  { intros s Hs. pose proof Hs as (_ & Hdom & Hcons & _)%solution_spec.
    destruct (Hvalues s Hs) as (Ft & Fe & Fm). split.
    - apply (expr_shift_in_int64 context); try done. by rewrite Hlen.
    - assert (Hct : holds other_holds s
                      (plain (kIntMod (LinearArgumentProto.mk target_expr [expr; mod_expr])))
                    = true).
      { apply Hcons. by apply (list_elem_of_lookup_2 _ c). }
      unfold holds, plain, constraint_holds in Hct.
      cbn [ConstraintProto.enforcement_literal ConstraintProto.constraint forallb implb
           LinearArgumentProto.exprs LinearArgumentProto.target] in Hct.
      unfold expr_at in Hct. cbn [lookup list_lookup default] in Hct.
      apply andb_true_iff in Hct as [_ Hct]. apply Z.eqb_eq in Hct. rewrite Hct.
      apply Contains_PositiveModuloBySuperset; try done;
        try (by apply DomainSuperSetOf_sorted);
        apply expr_value_in_superset; try done; by rewrite Hlen. }
  change (IntersectDomainWithExpr target_expr d context)
    with (int_mod_tightening context target_expr expr mod_expr)
    in Hsame1, Hinput1, Hfail1, Hother1, Hlen1.
  destruct (int_mod_tightening context target_expr expr mod_expr)
    as [[ok changed] context1] eqn:Htight.
  cbn [fst snd] in *. destruct ok.
  2:{ rewrite (Hstop eq_refl). apply (infeasible_step other_holds context context1 Hsame1).
      by apply Hfail1. }
  clear Hstop Hfail1. specialize (Hinput1 eq_refl).
  pose proof Hinput1 as ((Hc1 & Hinit1 & _) & _).
  destruct Hsame1 as [Hn1 Hsol1].
  assert (Hcs1 : constraints context1 = constraints context).
  { pose proof (constraints_IntersectDomainWithExpr target_expr d context) as H.
    change (IntersectDomainWithExpr target_expr d context)
      with (int_mod_tightening context target_expr expr mod_expr) in H.
    by rewrite Htight in H. }
  destruct (ExpandIntMod_expanded c context context1 changed target_expr expr mod_expr
              Hinit Hc Hmod Htight Hinit1 Hcs1 Hn1)
    as (context3 & Hd3 & Hd' & Hcons' & Henc' & Heq' & Hun' & Hn').
  assert (Hsame_e : DomainSuperSetOf context1 expr = DomainSuperSetOf context expr).
  { apply DomainSuperSetOf_same. intros ref Href. apply Hother1;
      [apply PositiveRef_nonnegative|]. intros ref' Href' E. by apply (Hother_e ref' ref). }
  assert (Hsame_m : DomainSuperSetOf context1 mod_expr = DomainSuperSetOf context mod_expr).
  { apply DomainSuperSetOf_same. intros ref Href. apply Hother1;
      [apply PositiveRef_nonnegative|]. intros ref' Href' E. by apply (Hother_m ref' ref). }
  assert (Hexpanded : preserves_solutions other_holds context1 (ExpandIntMod c context)
                      /\ determines_new_variables other_holds context1
                           (ExpandIntMod c context)).
  { apply (int_mod_expanded_solutions c context1 context3 (ExpandIntMod c context)
             target_expr expr mod_expr); try done.
    - by rewrite Hsame_m.
    - intros s Hs. apply Hvalues. by rewrite <- Hsol1.
    - by rewrite Hn1.
    - by rewrite Hn1, Hcs1.
    - by rewrite Hn1. }
  destruct Hexpanded as [Hp Hdet]. split.
  - by apply (preserves_solutions_same other_holds context context1).
  - by apply (determines_new_variables_same other_holds context context1).
Qed.

End IntModSolutions.

(** ** Expressions of one variable *)

Lemma affine_single_var (var : Z) : affine (single_var_expr var).
Proof. split; [simpl; lia|reflexivity]. Qed.

Lemma nonzero_single_var (var : Z) : nonzero_coeffs (single_var_expr var).
Proof. unfold nonzero_coeffs. simpl. by repeat constructor. Qed.

Lemma other_variables_single (a b : Z) :
  PositiveRef a <> PositiveRef b -> other_variables (single_var_expr a) (single_var_expr b).
Proof.
  intros Hab ref ref' Hr Hr'. unfold expr_refs in *. simpl in *.
  apply list_elem_of_singleton in Hr, Hr'. by subst.
Qed.

Lemma single_var_in_int64 (context : PresolveContext) (var : Z) :
  forallb sorted_intervals (domains context) = true ->
  kint64min <= Domain.Min (DomainOf context var) ->
  Domain.Max (DomainOf context var) <= kint64max ->
  expr_in_int64 context (single_var_expr var).
Proof.
  intros Hsorted Hmin Hmax. split; [unfold kint64min, kint64max; simpl; lia|].
  intros var' coeff x Ht Hx. injection Ht as <- <-.
  apply sorted_intervals_bounds in Hx; [|by apply DomainOf_sorted].
  simpl LinearExpressionProto.offset. lia.
Qed.

(** With an enforcement literal, the reduction of the target is not
    justified: an assignment in which the constraint is not enforced is a
    solution before the expansion, which declares the model infeasible. *)
Lemma ExpandIntMod_enforcement_ignored :
  let context' := ExpandIntMod 0 enforced_modulo_context in
  solution no_other_constraint modulo_not_enforced enforced_modulo_context = true
  /\ is_unsat context' = true
  /\ solution no_other_constraint modulo_not_enforced context' = false.
Proof. vm_compute. repeat split. Qed.

(** A dividend that is negative everywhere: the image computed by
    [PositiveModuloBySuperset] is empty, and the model is declared
    infeasible though it has a solution. *)
Lemma ExpandIntMod_negative_dividend :
  let context' := ExpandIntMod 0 negative_modulo_context in
  solution no_other_constraint negative_modulo_solution negative_modulo_context = true
  /\ is_unsat context' = true
  /\ solution no_other_constraint negative_modulo_solution context' = false.
Proof. vm_compute. repeat split. Qed.

Section IntModExpansion.

Variable other_holds : assignment -> Constraint -> bool.

(** X20.  [ExpandIntMod], on a constraint [target == expr mod mod_expr]
    without enforcement literal over expressions of one term at most whose
    values are 64-bit integers, with a positive modulus, a dividend that
    can be non-negative and a target whose variable is not in the two other
    expressions, keeps the solutions: every solution after the expansion is
    a solution before it, every solution before it extends to the quotient
    and to the product into a solution after it, and these two variables
    are determined by the variables of the model.  When the modulus is fixed
    nothing changes; when the reduction of the target fails the model is
    declared infeasible and had no solution. *)
Theorem ExpandIntMod_solutions (c : nat) (context : PresolveContext)
    (target_expr expr mod_expr : LinearExpressionProto.t) :
  expansion_input other_holds context c
    (plain (kIntMod (LinearArgumentProto.mk target_expr [expr; mod_expr]))) ->
  affine target_expr -> affine expr -> affine mod_expr ->
  nonzero_coeffs target_expr ->
  expr_in_int64 context target_expr -> expr_in_int64 context expr ->
  expr_in_int64 context mod_expr ->
  other_variables target_expr expr -> other_variables target_expr mod_expr ->
  0 < Domain.Min (DomainSuperSetOf context mod_expr) ->
  0 <= Domain.Max (DomainSuperSetOf context expr) ->
  preserves_solutions other_holds context (ExpandIntMod c context)
  /\ determines_new_variables other_holds context (ExpandIntMod c context).
Proof. apply int_mod_solutions. Qed.

End IntModExpansion.

Lemma ExpandIntMod_solutions_witness :
  preserves_solutions no_other_constraint small_int_mod_context
    (ExpandIntMod 0 small_int_mod_context)
  /\ determines_new_variables no_other_constraint small_int_mod_context
       (ExpandIntMod 0 small_int_mod_context).
Proof.
  apply (ExpandIntMod_solutions no_other_constraint 0%nat small_int_mod_context
           (single_var_expr 0) (single_var_expr 1) (single_var_expr 2)).
  - split; [|reflexivity]. split; [reflexivity|]. split; [reflexivity|].
    split; [apply closed_model_refs; reflexivity|]. split; reflexivity.
  - apply affine_single_var.
  - apply affine_single_var.
  - apply affine_single_var.
  - apply nonzero_single_var.
  - apply single_var_in_int64; [reflexivity|vm_compute; discriminate..].
  - apply single_var_in_int64; [reflexivity|vm_compute; discriminate..].
  - apply single_var_in_int64; [reflexivity|vm_compute; discriminate..].
  - apply other_variables_single. vm_compute. discriminate.
  - apply other_variables_single. vm_compute. discriminate.
  - vm_compute. reflexivity.
  - vm_compute. discriminate.
Defined.

(** * The solutions of a reservoir and of its expansion *)

(** ** Sums over the events *)

Lemma sum_over_app {A : Type} (f : A -> Z) (l k : list A) :
  sum_over f (l ++ k) = sum_over f l + sum_over f k.
Proof.
  unfold sum_over. induction l as [|x l IH]; cbn [app map foldr]; [lia|]. rewrite IH. lia.
Qed.

Lemma sum_over_ext {A : Type} (f g : A -> Z) (l : list A) :
  (forall x, x ∈ l -> f x = g x) -> sum_over f l = sum_over g l.
Proof.
  unfold sum_over. induction l as [|x l IH]; intros H; cbn [map foldr]; [done|].
  rewrite (H x) by left. rewrite IH; [done|]. intros y Hy. apply H. by right.
Qed.

Lemma sum_over_zero {A : Type} (f : A -> Z) (l : list A) :
  (forall x, x ∈ l -> f x = 0) -> sum_over f l = 0.
Proof.
  unfold sum_over. induction l as [|x l IH]; intros H; cbn [map foldr]; [done|].
  rewrite (H x) by left. rewrite IH; [done|]. intros y Hy. apply H. by right.
Qed.

Lemma sum_over_cons {A : Type} (f : A -> Z) (x : A) (l : list A) :
  sum_over f (x :: l) = f x + sum_over f l.
Proof. reflexivity. Qed.

Lemma sum_over_split {A : Type} `{EqDecision A} (f : A -> Z) (l : list A) (i : A) :
  NoDup l -> i ∈ l ->
  sum_over f l = f i + sum_over (fun j => if decide (i = j) then 0 else f j) l.
Proof.
  induction l as [|x l IH]; intros Hnd Hi; [by apply elem_of_nil in Hi|].
  apply NoDup_cons in Hnd as [Hx Hnd]. rewrite !sum_over_cons.
  apply elem_of_cons in Hi as [->|Hi].
  - rewrite decide_True by done.
    rewrite (sum_over_ext (fun j => if decide (x = j) then 0 else f j) f); [lia|].
    intros y Hy. rewrite decide_False; [done|]. intros ->. done.
  - rewrite decide_False by (intros ->; done). rewrite (IH Hnd Hi). lia.
Qed.

Lemma sum_over_between {A : Type} (f g : A -> Z) (l : list A) :
  (forall x, x ∈ l -> 0 <= g x <= f x) -> 0 <= sum_over g l <= sum_over f l.
Proof.
  induction l as [|x l IH]; intros H; [unfold sum_over; simpl; lia|].
  rewrite !sum_over_cons. pose proof (H x ltac:(left)).
  assert (0 <= sum_over g l <= sum_over f l) by (apply IH; intros y Hy; apply H; by right).
  lia.
Qed.

Lemma sum_over_opp {A : Type} (f : A -> Z) (l : list A) :
  sum_over (fun x => - f x) l = - sum_over f l.
Proof.
  induction l as [|x l IH]; [done|]. rewrite !sum_over_cons, IH. lia.
Qed.

(** An element of the list that satisfies [p] with the largest time. *)
Lemma latest_event (p : nat -> bool) (time : nat -> Z) (l : list nat) :
  (exists i, i ∈ l /\ p i = true) ->
  exists i, i ∈ l /\ p i = true /\ forall j, j ∈ l -> p j = true -> time j <= time i.
Proof.
  induction l as [|x l IH]; intros (i & Hi & Hp); [by apply elem_of_nil in Hi|].
  destruct (decide (Exists (fun i => p i = true) l)) as [Hex|Hnone];
    rewrite Exists_exists in *.
  - destruct (IH Hex) as (m & Hm & Hpm & Hmax).
    destruct (p x) eqn:Ex.
    + destruct (Z_le_gt_dec (time x) (time m)) as [Hle|Hgt].
      * exists m. split; [by right|]. split; [done|].
        intros j Hj Hpj. apply elem_of_cons in Hj as [->|Hj]; [done|by apply Hmax].
      * exists x. split; [left|]. split; [done|].
        intros j Hj Hpj. apply elem_of_cons in Hj as [->|Hj]; [lia|].
        specialize (Hmax j Hj Hpj). lia.
    + exists m. split; [by right|]. split; [done|].
      intros j Hj Hpj. apply elem_of_cons in Hj as [->|Hj]; [congruence|by apply Hmax].
  - exists x. apply elem_of_cons in Hi as [->|Hi].
    + split; [left|]. split; [done|]. intros j Hj Hpj.
      apply elem_of_cons in Hj as [->|Hj]; [lia|]. exfalso. apply Hnone. eauto.
    + exfalso. apply Hnone. eauto.
Qed.

Lemma sum_over_between_neg {A : Type} (f g : A -> Z) (l : list A) :
  (forall x, x ∈ l -> f x <= g x <= 0) -> sum_over f l <= sum_over g l <= 0.
Proof.
  induction l as [|x l IH]; intros H; [unfold sum_over; simpl; lia|].
  rewrite !sum_over_cons. pose proof (H x ltac:(left)).
  assert (sum_over f l <= sum_over g l <= 0) by (apply IH; intros y Hy; apply H; by right).
  lia.
Qed.

(** ** The meaning of a reservoir *)

Section ReservoirMeaning.

Variable s : assignment.
Variable r : ReservoirConstraintProto.t.

Lemma reservoir_holds_spec :
  reservoir_holds s r = true
  <-> forall i, (i < length (ReservoirConstraintProto.time_exprs r))%nat ->
        event_active s r i = true ->
        ReservoirConstraintProto.min_level r <= level_at s r (event_time s r i)
        <= ReservoirConstraintProto.max_level r.
Proof.
  unfold reservoir_holds. rewrite forallb_forall. split.
  - intros H i Hi Ha. specialize (H i). rewrite <- list_elem_of_In, elem_of_seq in H.
    specialize (H ltac:(lia)). rewrite Ha in H. simpl in H.
    apply andb_true_iff in H as [H1 H2]. apply Z.leb_le in H1, H2. lia.
  - intros H i Hi. rewrite <- list_elem_of_In, elem_of_seq in Hi.
    destruct (event_active s r i) eqn:Ha; [|done]. simpl.
    specialize (H i ltac:(lia) Ha). apply andb_true_iff. split; apply Z.leb_le; lia.
Qed.

(** At the time of a latest active event, the level is the sum of the
    level changes of the active events. *)
Lemma level_at_latest (i : nat) :
  (forall j, (j < length (ReservoirConstraintProto.time_exprs r))%nat ->
             event_active s r j = true -> event_time s r j <= event_time s r i) ->
  level_at s r (event_time s r i) = total_change s r.
Proof.
  intros Hmax. unfold level_at, total_change. apply sum_over_ext. intros j Hj.
  apply elem_of_seq in Hj. destruct (event_active s r j) eqn:Ha; [|done]. simpl.
  specialize (Hmax j ltac:(lia) Ha).
  destruct (Z.leb_spec (event_time s r j) (event_time s r i)); [done|lia].
Qed.

(** Before the first active event, the level is 0. *)
Lemma level_at_nothing (t : Z) :
  (forall j, (j < length (ReservoirConstraintProto.time_exprs r))%nat ->
             event_active s r j = true -> t < event_time s r j) ->
  level_at s r t = 0.
Proof.
  intros Hnone. unfold level_at. apply sum_over_zero. intros j Hj.
  apply elem_of_seq in Hj. destruct (event_active s r j) eqn:Ha; [|done]. simpl.
  specialize (Hnone j ltac:(lia) Ha).
  destruct (Z.leb_spec (event_time s r j) t); [lia|done].
Qed.

(** A reservoir that allows the level 0 holds when the level is within the
    bounds at any time. *)
Lemma reservoir_any_time :
  ReservoirConstraintProto.min_level r <= 0 <= ReservoirConstraintProto.max_level r ->
  reservoir_holds s r = true
  <-> forall t, ReservoirConstraintProto.min_level r <= level_at s r t
                <= ReservoirConstraintProto.max_level r.
Proof.
  intros Hzero. rewrite reservoir_holds_spec. split; [|by auto].
  intros H t.
  set (p := fun j => event_active s r j && (event_time s r j <=? t)).
  destruct (decide (Exists (fun j => p j = true)
                      (seq 0 (length (ReservoirConstraintProto.time_exprs r)))))
    as [Hex|Hnone]; rewrite Exists_exists in *.
  - destruct (latest_event p (event_time s r) _ Hex) as (i & Hi & Hpi & Hmax).
    apply elem_of_seq in Hi. unfold p in Hpi. apply andb_true_iff in Hpi as [Ha Hle].
    apply Z.leb_le in Hle.
    replace (level_at s r t) with (level_at s r (event_time s r i)).
    { apply H; [lia|done]. }
    unfold level_at. apply sum_over_ext. intros j Hj.
    destruct (event_active s r j) eqn:Haj; [|done]. simpl.
    destruct (Z.leb_spec (event_time s r j) t) as [Hjt|Hjt].
    + assert (event_time s r j <= event_time s r i).
      { apply Hmax; [done|]. unfold p. rewrite Haj. simpl. by apply Z.leb_le. }
      destruct (Z.leb_spec (event_time s r j) (event_time s r i)); [done|lia].
    + destruct (Z.leb_spec (event_time s r j) (event_time s r i)); [lia|done].
  - rewrite level_at_nothing; [done|]. intros j Hj Ha.
    destruct (Z.leb_spec (event_time s r j) t) as [Hjt|Hjt]; [|done].
    exfalso. apply Hnone. exists j. split; [apply elem_of_seq; lia|].
    unfold p. rewrite Ha. simpl. by apply Z.leb_le.
Qed.

(** When the level changes have the same sign, a reservoir that allows the
    level 0 holds when the sum of the level changes of the active events is
    within the bounds. *)
Lemma reservoir_same_sign :
  ReservoirConstraintProto.min_level r <= 0 <= ReservoirConstraintProto.max_level r ->
  (forall j, (j < length (ReservoirConstraintProto.time_exprs r))%nat ->
             0 <= event_change s r j)
  \/ (forall j, (j < length (ReservoirConstraintProto.time_exprs r))%nat ->
                event_change s r j <= 0) ->
  reservoir_holds s r = true
  <-> ReservoirConstraintProto.min_level r <= total_change s r
      <= ReservoirConstraintProto.max_level r.
Proof.
  intros Hzero Hsign. rewrite reservoir_holds_spec. split.
  - intros H.
    destruct (decide (Exists (fun j => event_active s r j = true)
                        (seq 0 (length (ReservoirConstraintProto.time_exprs r)))))
      as [Hex|Hnone]; rewrite Exists_exists in *.
    + destruct (latest_event (event_active s r) (event_time s r) _ Hex)
        as (i & Hi & Ha & Hmax).
      apply elem_of_seq in Hi. rewrite <- (level_at_latest i).
      * apply H; [lia|done].
      * intros j Hj Haj. apply Hmax; [apply elem_of_seq; lia|done].
    + unfold total_change. rewrite sum_over_zero; [done|]. intros j Hj.
      destruct (event_active s r j) eqn:Ha; [|done]. exfalso. apply Hnone. eauto.
  - intros Htotal i Hi Ha. unfold level_at. unfold total_change in Htotal.
    destruct Hsign as [Hpos|Hneg].
    + pose proof (sum_over_between
        (fun j => if event_active s r j then event_change s r j else 0)
        (fun j => if event_active s r j && (event_time s r j <=? event_time s r i)
                  then event_change s r j else 0)
        (seq 0 (length (ReservoirConstraintProto.time_exprs r)))) as Hb.
      assert (Hall : forall x, x ∈ seq 0 (length (ReservoirConstraintProto.time_exprs r)) ->
        0 <= (if event_active s r x && (event_time s r x <=? event_time s r i)
              then event_change s r x else 0)
        <= (if event_active s r x then event_change s r x else 0)).
      { intros x Hx. apply elem_of_seq in Hx. specialize (Hpos x ltac:(lia)).
        destruct (event_active s r x), (event_time s r x <=? event_time s r i);
          simpl; lia. }
      specialize (Hb Hall). lia.
    + pose proof (sum_over_between_neg
        (fun j => if event_active s r j then event_change s r j else 0)
        (fun j => if event_active s r j && (event_time s r j <=? event_time s r i)
                  then event_change s r j else 0)
        (seq 0 (length (ReservoirConstraintProto.time_exprs r)))) as Hb.
      assert (Hall : forall x, x ∈ seq 0 (length (ReservoirConstraintProto.time_exprs r)) ->
        (if event_active s r x then event_change s r x else 0)
        <= (if event_active s r x && (event_time s r x <=? event_time s r i)
            then event_change s r x else 0) <= 0).
      { intros x Hx. apply elem_of_seq in Hx. specialize (Hneg x ltac:(lia)).
        destruct (event_active s r x), (event_time s r x <=? event_time s r i);
          simpl; lia. }
      specialize (Hb Hall). lia.
Qed.

End ReservoirMeaning.

(** ** Fixed expressions and false literals *)

Lemma fixed_terms_value (context : PresolveContext) (s : assignment)
    (vars coeffs : list Z) (acc : Z) :
  forallb sorted_intervals (domains context) = true ->
  domains_hold s (domains context) = true ->
  Forall (fun ref => PositiveRef ref < Z.of_nat (length (domains context))) vars ->
  forallb (fun vc : Z * Z => (vc.2 =? 0) || IsFixed context vc.1) (zip vars coeffs) = true ->
  foldl (fun acc (vc : Z * Z) =>
           if vc.2 =? 0 then acc else acc + vc.2 * FixedValue context vc.1)
        acc (zip vars coeffs)
  = acc + sum_terms s vars coeffs.
Proof.
  intros Hsorted Hdom. revert coeffs acc.
  induction vars as [|var vars IH]; intros coeffs acc Hrefs Hfixed.
  { unfold sum_terms. simpl. lia. }
  destruct coeffs as [|coeff coeffs]; [unfold sum_terms; simpl; lia|].
  apply Forall_cons in Hrefs as [Hvar Hrefs].
  cbn [zip zip_with forallb fst snd] in Hfixed. apply andb_true_iff in Hfixed as [Hhead Hfixed].
  cbn [zip zip_with foldl fst snd]. rewrite (IH coeffs _ Hrefs Hfixed).
  unfold sum_terms. cbn [zip_with foldr].
  destruct (Z.eqb_spec coeff 0) as [E0|Hne]; [rewrite E0; lia|].
  simpl in Hhead.
  rewrite (IsFixed_ref_value context Hsorted s var Hdom Hvar Hhead). lia.
Qed.

(** The value of a fixed expression, whatever its number of terms. *)
Lemma fixed_expr_value (context : PresolveContext) (s : assignment)
    (e : LinearExpressionProto.t) :
  forallb sorted_intervals (domains context) = true ->
  domains_hold s (domains context) = true ->
  Forall (fun ref => PositiveRef ref < Z.of_nat (length (domains context))) (expr_refs e) ->
  IsFixedExpr context e = true ->
  expr_value s e = FixedValueExpr context e.
Proof.
  intros Hsorted Hdom Hrefs Hfixed. unfold expr_value, FixedValueExpr, terms.
  rewrite (fixed_terms_value context s _ _ _ Hsorted Hdom Hrefs Hfixed).
  unfold expr_refs. lia.
Qed.

Lemma FixedValueExpr_prefix (c1 c2 : PresolveContext) (e : LinearExpressionProto.t) :
  domains_prefix c1 c2 ->
  Forall (fun ref => PositiveRef ref < Z.of_nat (length (domains c1))) (expr_refs e) ->
  FixedValueExpr c2 e = FixedValueExpr c1 e.
Proof.
  intros Hprefix Hrefs. unfold FixedValueExpr, terms, expr_refs in *.
  generalize (LinearExpressionProto.offset e).
  revert Hrefs. generalize (LinearExpressionProto.coeffs e).
  induction (LinearExpressionProto.vars e) as [|var vars IH]; intros coeffs Hrefs acc; [done|].
  destruct coeffs as [|coeff coeffs]; [done|].
  apply Forall_cons in Hrefs as [Hvar Hrefs]. cbn [zip zip_with foldl fst snd].
  change (FixedValue c2 var) with (MinOf c2 var).
  change (FixedValue c1 var) with (MinOf c1 var).
  rewrite (MinOf_prefix c1 c2 var Hprefix Hvar).
  by apply IH.
Qed.

Lemma domain_of_var_holds (context : PresolveContext) (s : assignment) (var : Z) :
  domains_hold s (domains context) = true ->
  0 <= var < Z.of_nat (length (domains context)) ->
  Domain.Contains (domain_of_var context var) (s var) = true.
Proof.
  intros Hdom Hvar.
  destruct (lookup_lt_is_Some_2 (domains context) (Z.to_nat var)) as [d Hd]; [lia|].
  pose proof (proj1 (domains_hold_spec _ _) Hdom _ _ Hd) as Hin.
  rewrite Z2Nat.id in Hin by lia.
  rewrite <- (Z2Nat.id var) at 1 by lia. by rewrite (domain_of_var_lookup _ _ _ Hd).
Qed.

Lemma domain_of_var_sorted (context : PresolveContext) (var : Z) :
  forallb sorted_intervals (domains context) = true ->
  sorted_intervals (domain_of_var context var) = true.
Proof.
  intros Hsorted. rewrite forallb_forall in Hsorted. unfold domain_of_var.
  destruct (0 <=? var); [|done].
  destruct (domains context !! Z.to_nat var) as [d|] eqn:Hd; [|done].
  apply Hsorted. apply list_elem_of_In. by apply list_elem_of_lookup_2 in Hd.
Qed.

(** The value of a Boolean literal. *)
Lemma boolean_literal_value (context : PresolveContext) (s : assignment) (lit : Z) :
  domains_hold s (domains context) = true ->
  PositiveRef lit < Z.of_nat (length (domains context)) ->
  boolean_literal context lit ->
  s (PositiveRef lit) = 0 \/ s (PositiveRef lit) = 1.
Proof.
  intros Hdom Hlit Hbool. apply Hbool. apply domain_of_var_holds; [done|].
  pose proof (PositiveRef_nonnegative lit). lia.
Qed.

(** A literal that the domains make false is false in a solution. *)
Lemma LiteralIsFalse_value (context : PresolveContext) (s : assignment) (lit : Z) :
  forallb sorted_intervals (domains context) = true ->
  domains_hold s (domains context) = true ->
  PositiveRef lit < Z.of_nat (length (domains context)) ->
  boolean_literal context lit ->
  LiteralIsFalse context lit = true -> literal_value s lit = false.
Proof.
  intros Hsorted Hdom Hlit Hbool Hfalse.
  pose proof (PositiveRef_nonnegative lit) as Hnonneg.
  pose proof (boolean_literal_value context s lit Hdom Hlit Hbool) as Hvalue.
  pose proof (domain_of_var_holds context s (PositiveRef lit) Hdom ltac:(lia)) as Hin.
  pose proof (sorted_intervals_bounds _ _
                (domain_of_var_sorted context (PositiveRef lit) Hsorted) Hin) as Hbounds.
  unfold LiteralIsFalse in Hfalse. unfold literal_value.
  destruct (RefIsPositive lit) eqn:Epos.
  - rewrite (PositiveRef_positive lit Epos) in *. apply Z.eqb_eq in Hfalse.
    apply Z.eqb_neq. lia.
  - apply Z.eqb_eq in Hfalse. apply negb_false_iff, Z.eqb_eq. lia.
Qed.

Lemma LiteralIsFalse_prefix (c1 c2 : PresolveContext) (lit : Z) :
  domains_prefix c1 c2 -> PositiveRef lit < Z.of_nat (length (domains c1)) ->
  LiteralIsFalse c2 lit = LiteralIsFalse c1 lit.
Proof.
  intros Hprefix Hlit. pose proof (PositiveRef_nonnegative lit) as Hnonneg.
  unfold LiteralIsFalse. destruct (RefIsPositive lit) eqn:Epos.
  - rewrite (PositiveRef_positive lit Epos) in *.
    by rewrite (domain_of_var_prefix c1 c2 lit Hprefix) by lia.
  - by rewrite (domain_of_var_prefix c1 c2 _ Hprefix) by lia.
Qed.

(** ** The true literal *)

Lemma GetTrueLiteral_step (context : PresolveContext) :
  initialized context ->
  forallb sorted_intervals (domains context) = true ->
  true_literal_valid context ->
  let r := GetTrueLiteral context in
  exists extra,
    (extra = [] \/ extra = [Domain.Value 1])
    /\ domains r.2 = domains context ++ extra
    /\ variables_size r.2 = variables_size context + Z.of_nat (length extra)
    /\ initialized r.2
    /\ constraints r.2 = constraints context
    /\ encoding r.2 = encoding context
    /\ equalities r.2 = equalities context
    /\ is_unsat r.2 = is_unsat context
    /\ reified_precedences_cache r.2 = reified_precedences_cache context
    /\ 0 <= r.1 < variables_size r.2
    /\ forall x, Domain.Contains (domain_of_var r.2 r.1) x = true -> x = 1.
Proof.
  intros Hinit Hsorted Hvalid. unfold GetTrueLiteral.
  destruct (true_literal context) as [l|] eqn:El.
  - exists []. simpl. rewrite app_nil_r. destruct (Hvalid l El) as [Hl Hone].
    repeat split; try done; try lia. by left.
  - pose proof (NewIntVar_domains (Domain.Value 1) context Hinit) as Hd.
    pose proof (NewIntVar_index (Domain.Value 1) context) as Hi.
    pose proof (NewIntVar_initialized (Domain.Value 1) context Hinit) as Hinit'.
    pose proof (NewIntVar_variables_size (Domain.Value 1) context) as Hn.
    assert (Hc : constraints (NewIntVar (Domain.Value 1) context).2 = constraints context)
      by reflexivity.
    assert (He : encoding (NewIntVar (Domain.Value 1) context).2 = encoding context)
      by reflexivity.
    assert (Hq : equalities (NewIntVar (Domain.Value 1) context).2 = equalities context)
      by reflexivity.
    assert (Hu : is_unsat (NewIntVar (Domain.Value 1) context).2 = is_unsat context)
      by reflexivity.
    assert (Hp : reified_precedences_cache (NewIntVar (Domain.Value 1) context).2
                 = reified_precedences_cache context) by reflexivity.
    rewrite DomainFacts.ReadDomainFromProto_FillDomainInProto in Hd
      by apply DomainFacts.valid_Value.
    destruct (NewIntVar (Domain.Value 1) context) as [l c'] eqn:E. cbn [fst snd] in *.
    exists [Domain.Value 1]. split; [by right|]. split; [exact Hd|].
    split; [exact Hn|]. split; [exact Hinit'|]. split; [exact Hc|]. split; [exact He|].
    split; [exact Hq|]. split; [exact Hu|]. split; [exact Hp|].
    change (variables_size (with_true_literal (Some l) c')) with (variables_size c').
    split; [pose proof (Nat2Z.is_nonneg (length (variables context)));
            unfold variables_size in *; lia|].
    intros x Hx. assert (Hlen : Z.of_nat (length (domains context)) = l).
    { unfold initialized in Hinit. unfold variables_size in Hi. lia. }
    unfold domain_of_var in Hx.
    change (domains (with_true_literal (Some l) c')) with (domains c') in Hx.
    rewrite Hd in Hx.
    destruct (Z.leb_spec 0 l); [|done].
    rewrite lookup_app_r in Hx by lia.
    replace (Z.to_nat l - length (domains context))%nat with 0%nat in Hx by lia.
    simpl in Hx. rewrite orb_false_r in Hx. unfold Domain.in_interval in Hx. simpl in Hx.
    apply andb_true_iff in Hx as [H1 H2]. apply Z.leb_le in H1, H2. lia.
Qed.

(** ** The cache of precedences *)

Lemma precedence_growth_refl (context : PresolveContext) :
  initialized context -> precedence_growth context context [].
Proof.
  intros Hinit. unfold precedence_growth. simpl. rewrite !app_nil_r.
  repeat split; try done. lia.
Qed.

Lemma precedence_growth_prefix (c1 c2 : PresolveContext) (created : list PrecedenceKey) :
  precedence_growth c1 c2 created -> domains_prefix c1 c2.
Proof. intros (Hd & _). by eexists. Qed.

Lemma precedence_growth_set_name (c1 c2 : PresolveContext) (created : list PrecedenceKey)
    (var : Z) (name : string) :
  precedence_growth c1 c2 created -> precedence_growth c1 (set_name var name c2) created.
Proof.
  unfold set_name. destruct (0 <=? var); [|done].
  intros (Hd & Hn & Hi & Hc & He & Hq & Hu & Hp & Hk).
  unfold precedence_growth. repeat split; try done.
  - rewrite <- Hn. unfold variables_size, variables. simpl. by rewrite length_alter.
  - unfold initialized, variables in *. simpl. by rewrite length_alter.
Qed.

Lemma cache_set_name (var : Z) (name : string) (context : PresolveContext) :
  reified_precedences_cache (set_name var name context)
  = reified_precedences_cache context.
Proof. unfold set_name. by destruct (0 <=? var). Qed.

Lemma GetOrCreateReifiedPrecedenceLiteral_growth (c1 c2 : PresolveContext)
    (created : list PrecedenceKey) (time_i time_j : LinearExpressionProto.t)
    (active_i active_j : Z) :
  precedence_growth c1 c2 created ->
  key_below (variables_size c1) (time_i, time_j, active_i, active_j) ->
  let r := GetOrCreateReifiedPrecedenceLiteral time_i time_j active_i active_j c2 in
  (exists created', precedence_growth c1 r.2 created')
  /\ (forall e, e ∈ reified_precedences_cache c2 -> e ∈ reified_precedences_cache r.2)
  /\ ((time_i, time_j, active_i, active_j), r.1) ∈ reified_precedences_cache r.2.
Proof.
  intros Hgrowth Hkey. unfold GetOrCreateReifiedPrecedenceLiteral, lookup_precedence.
  destruct (list_find _ (reified_precedences_cache c2)) as [[idx e]|] eqn:Ef.
  - simpl. apply list_find_Some in Ef as (Hl & He & _). split; [by eexists|]. split; [done|].
    destruct e as [k lit]. simpl in He. subst k. simpl.
    by apply list_elem_of_lookup_2 in Hl.
  - destruct Hgrowth as (Hd & Hn & Hi & Hc & He & Hq & Hu & Hp & Hk).
    unfold NewBoolVar.
    pose proof (NewIntVar_domains (Domain.Range 0 1) c2 Hi) as Hd'.
    pose proof (NewIntVar_index (Domain.Range 0 1) c2) as Hidx.
    pose proof (NewIntVar_initialized (Domain.Range 0 1) c2 Hi) as Hi'.
    pose proof (NewIntVar_variables_size (Domain.Range 0 1) c2) as Hn'.
    assert (Hc' : constraints (NewIntVar (Domain.Range 0 1) c2).2 = constraints c2)
      by reflexivity.
    assert (He' : encoding (NewIntVar (Domain.Range 0 1) c2).2 = encoding c2)
      by reflexivity.
    assert (Hq' : equalities (NewIntVar (Domain.Range 0 1) c2).2 = equalities c2)
      by reflexivity.
    assert (Hu' : is_unsat (NewIntVar (Domain.Range 0 1) c2).2 = is_unsat c2)
      by reflexivity.
    assert (Hp' : reified_precedences_cache (NewIntVar (Domain.Range 0 1) c2).2
                  = reified_precedences_cache c2) by reflexivity.
    change (ReadDomainFromProto (FillDomainInProto (Domain.Range 0 1)))
      with bool_domain in Hd'.
    cbn [fmap option_fmap option_map].
    destruct (NewIntVar (Domain.Range 0 1) c2) as [lit c'] eqn:E. cbn [fst snd] in *.
    split; [|split].
    + exists (created ++ [(time_i, time_j, active_i, active_j)]).
      unfold precedence_growth.
      change (domains (with_reified_precedences_cache
                (reified_precedences_cache c' ++ [(time_i, time_j, active_i, active_j, lit)]) c'))
        with (domains c').
      change (variables_size (with_reified_precedences_cache
                (reified_precedences_cache c' ++ [(time_i, time_j, active_i, active_j, lit)]) c'))
        with (variables_size c').
      change (reified_precedences_cache (with_reified_precedences_cache
                (reified_precedences_cache c' ++ [(time_i, time_j, active_i, active_j, lit)]) c'))
        with (reified_precedences_cache c' ++ [(time_i, time_j, active_i, active_j, lit)]).
      rewrite length_app. simpl.
      split; [rewrite Hd', Hd; by rewrite replicate_add, app_assoc|].
      split; [lia|]. split; [exact Hi'|]. split; [by rewrite <- Hc|].
      split; [by rewrite <- He|]. split; [by rewrite <- Hq|]. split; [by rewrite <- Hu|].
      split.
      * rewrite Hp', Hp, imap_app. simpl. rewrite <- app_assoc. do 2 f_equal.
        f_equal. f_equal. rewrite Hidx. lia.
      * apply Forall_app. split; [done|]. by apply Forall_singleton.
    + intros e He0.
      change (e ∈ reified_precedences_cache c' ++ [(time_i, time_j, active_i, active_j, lit)]).
      apply elem_of_app. left. by rewrite Hp'.
    + change ((time_i, time_j, active_i, active_j, lit)
              ∈ reified_precedences_cache c' ++ [(time_i, time_j, active_i, active_j, lit)]).
      apply elem_of_app. right. left.
Qed.

(** ** The loops that create the precedence literals *)

Section ReservoirLoops.

Variable r : ReservoirConstraintProto.t.
Variable true_literal : Z.
Variable context1 : PresolveContext.

Hypothesis Hinit1 : initialized context1.
Hypothesis Hkeys : forall i j,
  (i < length (ReservoirConstraintProto.time_exprs r))%nat ->
  (j < length (ReservoirConstraintProto.time_exprs r))%nat ->
  key_below (variables_size context1) (precedence_key r true_literal i j).

Lemma active_literal_below (i : nat) :
  (i < length (ReservoirConstraintProto.time_exprs r))%nat ->
  PositiveRef (is_active_literal r true_literal i) < Z.of_nat (length (domains context1)).
Proof.
  intros Hi. pose proof (Hkeys i i Hi Hi) as Hk. unfold key_below in Hk.
  rewrite !Forall_app in Hk. destruct Hk as (_ & _ & Hk).
  apply Forall_inv in Hk. simpl in Hk.
  unfold initialized in Hinit1. unfold variables_size in Hk. lia.
Qed.

Lemma reservoir_link_step (i j : nat) (st : gmap (nat * nat) Z * PresolveContext) :
  (i < length (ReservoirConstraintProto.time_exprs r))%nat ->
  (j < length (ReservoirConstraintProto.time_exprs r))%nat ->
  reservoir_invariant r true_literal context1 st ->
  let st' := reservoir_link r true_literal i st j in
  reservoir_invariant r true_literal context1 st'
  /\ (forall p, is_Some (st.1 !! p) -> is_Some (st'.1 !! p))
  /\ (LiteralIsFalse context1 (is_active_literal r true_literal j) = false ->
      is_Some (st'.1 !! (i, j)) /\ is_Some (st'.1 !! (j, i))).
Proof.
  intros Hi Hj [(created & Hg) Hcached]. destruct st as [pc ctx]. cbn [fst snd] in *.
  unfold reservoir_link.
  rewrite (LiteralIsFalse_prefix context1 ctx _ (precedence_growth_prefix _ _ _ Hg)
             (active_literal_below j Hj)).
  destruct (LiteralIsFalse context1 (is_active_literal r true_literal j)) eqn:Efalse.
  { cbn [fst snd]. split; [split; [by eexists|done]|]. split; [done|]. intros; discriminate. }
  pose proof (GetOrCreateReifiedPrecedenceLiteral_growth context1 ctx created
                _ _ _ _ Hg (Hkeys i j Hi Hj)) as (Hex1 & Hmono1 & Hin1).
  unfold precedence_key in Hin1.
  destruct (GetOrCreateReifiedPrecedenceLiteral
              (expr_at (ReservoirConstraintProto.time_exprs r) i)
              (expr_at (ReservoirConstraintProto.time_exprs r) j)
              (is_active_literal r true_literal i)
              (is_active_literal r true_literal j) ctx) as [lit1 ctxa]. cbn [fst snd] in *.
  destruct Hex1 as [created1 Hg1].
  pose proof (precedence_growth_set_name context1 ctxa created1 lit1
                (pretty i +:+ " before " +:+ pretty j) Hg1) as Hg1'.
  pose proof (GetOrCreateReifiedPrecedenceLiteral_growth context1 _ created1
                _ _ _ _ Hg1' (Hkeys j i Hj Hi)) as (Hex2 & Hmono2 & Hin2).
  unfold precedence_key in Hin2.
  destruct (GetOrCreateReifiedPrecedenceLiteral
              (expr_at (ReservoirConstraintProto.time_exprs r) j)
              (expr_at (ReservoirConstraintProto.time_exprs r) i)
              (is_active_literal r true_literal j)
              (is_active_literal r true_literal i)
              (set_name lit1 (pretty i +:+ " before " +:+ pretty j) ctxa))
    as [lit2 ctxb]. cbn [fst snd] in *.
  destruct Hex2 as [created2 Hg2].
  assert (Hmono : forall e, e ∈ reified_precedences_cache ctx ->
            e ∈ reified_precedences_cache ctxb).
  { intros e He. apply Hmono2. rewrite cache_set_name. by apply Hmono1. }
  unfold reservoir_invariant, precedences_cached. cbn [fst snd]. split; [split|split].
  - exists created2. by apply precedence_growth_set_name.
  - intros a b lit Hlit. rewrite cache_set_name.
    apply lookup_insert_Some in Hlit as [[E <-]|[Hne Hlit]].
    + injection E as <- <-. exact Hin2.
    + apply lookup_insert_Some in Hlit as [[E <-]|[Hne' Hlit]].
      * injection E as <- <-. apply Hmono2. by rewrite cache_set_name.
      * apply Hmono. by apply Hcached.
  - intros p [lit Hp].
    destruct (decide ((j, i) = p)) as [<-|Hne1]; [by rewrite lookup_insert_eq|].
    rewrite lookup_insert_ne by done.
    destruct (decide ((i, j) = p)) as [<-|Hne2]; [by rewrite lookup_insert_eq|].
    rewrite lookup_insert_ne by done. by eexists.
  - intros _. split.
    + destruct (decide ((j, i) = (i, j))) as [E|Hne]; [rewrite E; by rewrite lookup_insert_eq|].
      rewrite lookup_insert_ne by done. by rewrite lookup_insert_eq.
    + by rewrite lookup_insert_eq.
Qed.

Lemma reservoir_link_loop (i : nat) (js : list nat)
    (st : gmap (nat * nat) Z * PresolveContext) :
  (i < length (ReservoirConstraintProto.time_exprs r))%nat ->
  Forall (fun j => (j < length (ReservoirConstraintProto.time_exprs r))%nat) js ->
  reservoir_invariant r true_literal context1 st ->
  let st' := foldl (reservoir_link r true_literal i) st js in
  reservoir_invariant r true_literal context1 st'
  /\ (forall p, is_Some (st.1 !! p) -> is_Some (st'.1 !! p))
  /\ (forall j, j ∈ js ->
        LiteralIsFalse context1 (is_active_literal r true_literal j) = false ->
        is_Some (st'.1 !! (i, j)) /\ is_Some (st'.1 !! (j, i))).
Proof.
  intros Hi. revert st. induction js as [|j js IH]; intros st Hjs Hinv; cbn [foldl].
  { split; [done|]. split; [done|]. intros j Hj. by apply elem_of_nil in Hj. }
  apply Forall_cons in Hjs as [Hj Hjs].
  destruct (reservoir_link_step i j st Hi Hj Hinv) as (Hinv1 & Hmono1 & Hcov1).
  destruct (IH _ Hjs Hinv1) as (Hinv2 & Hmono2 & Hcov2).
  split; [done|]. split; [by auto|].
  intros j' Hj' Hfalse. apply elem_of_cons in Hj' as [->|Hj'].
  - destruct (Hcov1 Hfalse). split; by apply Hmono2.
  - by apply Hcov2.
Qed.

Lemma reservoir_precedences_loop (l : list nat)
    (st : gmap (nat * nat) Z * PresolveContext) :
  Forall (fun i => (i < length (ReservoirConstraintProto.time_exprs r))%nat) l ->
  reservoir_invariant r true_literal context1 st ->
  let st' := foldl (reservoir_precedences r true_literal
                      (length (ReservoirConstraintProto.time_exprs r))) st l in
  reservoir_invariant r true_literal context1 st'
  /\ (forall p, is_Some (st.1 !! p) -> is_Some (st'.1 !! p))
  /\ (forall i j, i ∈ l -> (i < j < length (ReservoirConstraintProto.time_exprs r))%nat ->
        LiteralIsFalse context1 (is_active_literal r true_literal i) = false ->
        LiteralIsFalse context1 (is_active_literal r true_literal j) = false ->
        is_Some (st'.1 !! (i, j)) /\ is_Some (st'.1 !! (j, i))).
Proof.
  revert st. induction l as [|i l IH]; intros st Hl Hinv; cbn [foldl].
  { split; [done|]. split; [done|]. intros i j Hi. by apply elem_of_nil in Hi. }
  apply Forall_cons in Hl as [Hi Hl].
  assert (Hstep :
    let st1 := reservoir_precedences r true_literal
                 (length (ReservoirConstraintProto.time_exprs r)) st i in
    reservoir_invariant r true_literal context1 st1
    /\ (forall p, is_Some (st.1 !! p) -> is_Some (st1.1 !! p))
    /\ (forall j, (i < j < length (ReservoirConstraintProto.time_exprs r))%nat ->
          LiteralIsFalse context1 (is_active_literal r true_literal i) = false ->
          LiteralIsFalse context1 (is_active_literal r true_literal j) = false ->
          is_Some (st1.1 !! (i, j)) /\ is_Some (st1.1 !! (j, i)))).
  { unfold reservoir_precedences. destruct Hinv as [(created & Hg) Hcached].
    rewrite (LiteralIsFalse_prefix context1 st.2 _ (precedence_growth_prefix _ _ _ Hg)
               (active_literal_below i Hi)).
    destruct (LiteralIsFalse context1 (is_active_literal r true_literal i)) eqn:Efalse.
    { split; [split; [by eexists|done]|]. split; [done|]. intros; discriminate. }
    destruct (reservoir_link_loop i
                (seq (S i) (length (ReservoirConstraintProto.time_exprs r) - S i)) st Hi)
      as (Hinv1 & Hmono1 & Hcov1).
    { apply Forall_forall. intros j Hj. apply elem_of_seq in Hj. lia. }
    { split; [by eexists|done]. }
    split; [done|]. split; [done|]. intros j Hj _ Hfalse.
    apply Hcov1; [|done]. apply elem_of_seq. lia. }
  destruct Hstep as (Hinv1 & Hmono1 & Hcov1).
  destruct (IH _ Hl Hinv1) as (Hinv2 & Hmono2 & Hcov2).
  split; [done|]. split; [by auto|].
  intros i' j Hi' Hj Hfi Hfj. apply elem_of_cons in Hi' as [->|Hi'].
  - destruct (Hcov1 j Hj Hfi Hfj). split; by apply Hmono2.
  - by apply Hcov2.
Qed.

(** After the two loops, the precedence literal of every pair of events
    that can be active is in the cache. *)
Lemma reservoir_precedences_complete :
  let st := foldl (reservoir_precedences r true_literal
                     (length (ReservoirConstraintProto.time_exprs r)))
                  (∅, context1)
                  (seq 0 (length (ReservoirConstraintProto.time_exprs r) - 1)) in
  (exists created, precedence_growth context1 st.2 created)
  /\ precedences_cached r true_literal st.1 st.2
  /\ forall i j, (i < length (ReservoirConstraintProto.time_exprs r))%nat ->
       (j < length (ReservoirConstraintProto.time_exprs r))%nat -> i <> j ->
       LiteralIsFalse context1 (is_active_literal r true_literal i) = false ->
       LiteralIsFalse context1 (is_active_literal r true_literal j) = false ->
       is_Some (st.1 !! (j, i)).
Proof.
  destruct (reservoir_precedences_loop
              (seq 0 (length (ReservoirConstraintProto.time_exprs r) - 1)) (∅, context1))
    as ([Hg Hcached] & _ & Hcov).
  { apply Forall_forall. intros i Hi. apply elem_of_seq in Hi. lia. }
  { split; [exists []; by apply precedence_growth_refl|]. intros i j lit Hlit.
    cbn [fst] in Hlit. by rewrite lookup_empty in Hlit. }
  split; [done|]. split; [done|]. intros i j Hi Hj Hne Hfi Hfj.
  destruct (decide (i < j)%nat) as [Hlt|Hge].
  - apply (Hcov i j); [apply elem_of_seq; lia|lia|done|done].
  - apply (Hcov j i); [apply elem_of_seq; lia|lia|done|done].
Qed.

End ReservoirLoops.

(** ** The loop that adds the level constraints *)

Lemma LiteralIsFalse_same (c c' : PresolveContext) (lit : Z) :
  domains c = domains c' -> LiteralIsFalse c lit = LiteralIsFalse c' lit.
Proof. intros H. unfold LiteralIsFalse, domain_of_var. by rewrite H. Qed.

Lemma FixedValueExpr_same (c c' : PresolveContext) (e : LinearExpressionProto.t) :
  domains c = domains c' -> FixedValueExpr c e = FixedValueExpr c' e.
Proof.
  intros H. unfold FixedValueExpr, FixedValue, MinOf, domain_of_var. by rewrite H.
Qed.

Lemma reservoir_contribution_same (r : ReservoirConstraintProto.t) (true_literal : Z)
    (precedence_cache : gmap (nat * nat) Z) (c c' : PresolveContext) (i : nat)
    (l : list nat) (acc : list Z * list Z * Z) :
  domains c = domains c' ->
  foldl (reservoir_contribution r true_literal precedence_cache c i) acc l
  = foldl (reservoir_contribution r true_literal precedence_cache c' i) acc l.
Proof.
  intros H. revert acc. induction l as [|j l IH]; intros acc; cbn [foldl]; [done|].
  rewrite IH. f_equal. unfold reservoir_contribution. destruct acc as [[vars coeffs] offset].
  by rewrite (LiteralIsFalse_same c c' _ H), (FixedValueExpr_same c c' _ H).
Qed.

Lemma reservoir_level_step (r : ReservoirConstraintProto.t) (true_literal : Z)
    (precedence_cache : gmap (nat * nat) Z) (context0 context : PresolveContext) (i : nat) :
  domains context = domains context0 ->
  reservoir_level r true_literal precedence_cache
    (length (ReservoirConstraintProto.time_exprs r)) context i
  = if LiteralIsFalse context0 (is_active_literal r true_literal i) then context
    else add_constraints (level_constraint r true_literal precedence_cache context0 i)
           context.
Proof.
  intros H. unfold reservoir_level, level_constraint.
  rewrite (LiteralIsFalse_same context context0 _ H).
  destruct (LiteralIsFalse context0 (is_active_literal r true_literal i)); [done|].
  rewrite (reservoir_contribution_same r true_literal precedence_cache context context0 i
             _ _ H).
  destruct (foldl _ _ _) as [[vars coeffs] offset].
  by rewrite (FixedValueExpr_same context context0 _ H).
Qed.

Lemma reservoir_level_loop (r : ReservoirConstraintProto.t) (true_literal : Z)
    (precedence_cache : gmap (nat * nat) Z) (context0 : PresolveContext) (l : list nat)
    (context : PresolveContext) :
  domains context = domains context0 ->
  let context' :=
    foldl (reservoir_level r true_literal precedence_cache
             (length (ReservoirConstraintProto.time_exprs r))) context l in
  constraints context'
  = constraints context
    ++ flat_map (fun i =>
                   if LiteralIsFalse context0 (is_active_literal r true_literal i) then []
                   else [level_constraint r true_literal precedence_cache context0 i]) l
  /\ domains context' = domains context
  /\ variables context' = variables context
  /\ encoding context' = encoding context
  /\ equalities context' = equalities context
  /\ is_unsat context' = is_unsat context
  /\ reified_precedences_cache context' = reified_precedences_cache context.
Proof.
  revert context. induction l as [|i l IH]; intros context H; cbn [foldl flat_map].
  { by rewrite app_nil_r. }
  rewrite (reservoir_level_step r true_literal precedence_cache context0 context i H).
  destruct (LiteralIsFalse context0 (is_active_literal r true_literal i)).
  - by apply IH.
  - destruct (IH (add_constraints
                    (level_constraint r true_literal precedence_cache context0 i) context))
      as (Hc & Hd & Hv & He & Hq & Hu & Hp); [done|].
    rewrite Hc, Hd, Hv, He, Hq, Hu, Hp, constraints_add_constraints.
    rewrite <- app_assoc. done.
Qed.

(** ** The meaning of the level constraints *)

Lemma precedences_hold_spec (s : assignment) (cache : list (PrecedenceKey * Z)) :
  precedences_hold s cache = true
  <-> forall k lit, (k, lit) ∈ cache -> literal_value s lit = precedence_value s k.
Proof.
  unfold precedences_hold. rewrite forallb_forall. split.
  - intros H k lit Hin. apply Bool.eqb_prop. apply (H (k, lit)). by apply list_elem_of_In.
  - intros H [k lit] Hin. apply list_elem_of_In in Hin. simpl.
    rewrite (H k lit Hin). apply Bool.eqb_reflx.
Qed.

Lemma saturate_in_int64 (x : Z) : kint64min <= x <= kint64max -> saturate x = x.
Proof. unfold saturate. lia. Qed.

Section LevelMeaning.

Variable other_holds : assignment -> Constraint -> bool.
Variable r : ReservoirConstraintProto.t.
Variable true_literal : Z.
Variable precedence_cache : gmap (nat * nat) Z.
Variable context : PresolveContext.
Variable s : assignment.

Hypothesis Hcached : precedences_cached r true_literal precedence_cache context.
Hypothesis Hcomplete : forall i j,
  (i < length (ReservoirConstraintProto.time_exprs r))%nat ->
  (j < length (ReservoirConstraintProto.time_exprs r))%nat -> i <> j ->
  LiteralIsFalse context (is_active_literal r true_literal i) = false ->
  LiteralIsFalse context (is_active_literal r true_literal j) = false ->
  is_Some (precedence_cache !! (j, i)).
Hypothesis Hprec : precedences_hold s (reified_precedences_cache context) = true.
Hypothesis Hlits : forall k lit, (k, lit) ∈ reified_precedences_cache context ->
  0 <= lit /\ (s lit = 0 \/ s lit = 1).
Hypothesis Hactive : forall j, (j < length (ReservoirConstraintProto.time_exprs r))%nat ->
  literal_value s (is_active_literal r true_literal j) = event_active s r j.
Hypothesis Hfalse : forall j, (j < length (ReservoirConstraintProto.time_exprs r))%nat ->
  LiteralIsFalse context (is_active_literal r true_literal j) = true ->
  event_active s r j = false.
Hypothesis Hdemand : forall j, (j < length (ReservoirConstraintProto.time_exprs r))%nat ->
  FixedValueExpr context (expr_at (ReservoirConstraintProto.level_changes r) j)
  = event_change s r j.
Hypothesis Hfits : forall j, (j < length (ReservoirConstraintProto.time_exprs r))%nat ->
  kint64min <= ReservoirConstraintProto.min_level r - event_change s r j <= kint64max
  /\ kint64min <= ReservoirConstraintProto.max_level r - event_change s r j <= kint64max.

(** The terms of the level constraint of an active event [i]: the sum of
    the level changes of the other active events that are not later. *)
Lemma reservoir_contribution_sum (i : nat) (js : list nat) (acc : list Z * list Z * Z) :
  (i < length (ReservoirConstraintProto.time_exprs r))%nat ->
  event_active s r i = true ->
  Forall (fun j => (j < length (ReservoirConstraintProto.time_exprs r))%nat) js ->
  length acc.1.1 = length acc.1.2 ->
  let acc' := foldl (reservoir_contribution r true_literal precedence_cache context i)
                    acc js in
  length acc'.1.1 = length acc'.1.2
  /\ acc'.2 = acc.2
  /\ sum_terms s acc'.1.1 acc'.1.2
     = sum_terms s acc.1.1 acc.1.2
       + sum_over (fun j => if decide (i = j) then 0
                            else if event_active s r j
                                    && (event_time s r j <=? event_time s r i)
                                 then event_change s r j else 0) js.
Proof.
  intros Hi Hai. revert acc. induction js as [|j js IH]; intros acc Hjs Hlen; cbn [foldl].
  { unfold sum_over. simpl. split; [done|]. split; [done|lia]. }
  apply Forall_cons in Hjs as [Hj Hjs]. rewrite sum_over_cons.
  assert (Hnot : LiteralIsFalse context (is_active_literal r true_literal i) = false).
  { destruct (LiteralIsFalse context (is_active_literal r true_literal i)) eqn:E; [|done].
    rewrite (Hfalse i Hi E) in Hai. discriminate. }
  assert (Hstep :
    let acc1 := reservoir_contribution r true_literal precedence_cache context i acc j in
    length acc1.1.1 = length acc1.1.2
    /\ acc1.2 = acc.2
    /\ sum_terms s acc1.1.1 acc1.1.2
       = sum_terms s acc.1.1 acc.1.2
         + (if decide (i = j) then 0
            else if event_active s r j && (event_time s r j <=? event_time s r i)
                 then event_change s r j else 0)).
  { destruct acc as [[vars coeffs] offset]. cbn [fst snd] in *.
    unfold reservoir_contribution. destruct (decide (i = j)) as [->|Hne].
    { cbn [fst snd]. split; [done|]. split; [done|lia]. }
    destruct (LiteralIsFalse context (is_active_literal r true_literal j)) eqn:Efj.
    { cbn [fst snd]. rewrite (Hfalse j Hj Efj). simpl. split; [done|]. split; [done|lia]. }
    destruct (Hcomplete i j Hi Hj Hne Hnot Efj) as [lit Hlit]. rewrite Hlit. simpl.
    pose proof (Hcached j i lit Hlit) as Hin.
    destruct (Hlits _ _ Hin) as [Hpos Hbool].
    pose proof (proj1 (precedences_hold_spec _ _) Hprec _ _ Hin) as Hvalue.
    unfold precedence_value, precedence_key in Hvalue. cbn [fst snd] in Hvalue.
    rewrite (Hactive j Hj), (Hactive i Hi), Hai, andb_true_r in Hvalue.
    assert (Epos : RefIsPositive lit = true) by (unfold RefIsPositive; by apply Z.leb_le).
    rewrite Epos. cbn [fst snd]. rewrite !length_app, Hlen. split; [done|]. split; [done|].
    rewrite (sum_terms_app s vars [lit] coeffs _ Hlen). f_equal.
    unfold sum_terms. simpl. unfold ref_value. rewrite Epos, (Hdemand j Hj).
    unfold literal_value in Hvalue. rewrite Epos in Hvalue.
    fold (event_time s r j) (event_time s r i) in Hvalue.
    rewrite andb_comm, <- Hvalue.
    destruct Hbool as [-> | ->]; simpl; lia. }
  destruct Hstep as (Hlen1 & Hoff1 & Hsum1).
  destruct (IH _ Hjs Hlen1) as (Hlen2 & Hoff2 & Hsum2).
  split; [done|]. split; [congruence|]. rewrite Hsum2, Hsum1. lia.
Qed.

(** The level constraint of an event that can be active bounds the level
    at its time. *)
Lemma level_constraint_meaning (i : nat) :
  (i < length (ReservoirConstraintProto.time_exprs r))%nat ->
  holds other_holds s (level_constraint r true_literal precedence_cache context i) = true
  <-> (event_active s r i = true ->
       ReservoirConstraintProto.min_level r <= level_at s r (event_time s r i)
       <= ReservoirConstraintProto.max_level r).
Proof.
  intros Hi. unfold level_constraint.
  destruct (event_active s r i) eqn:Hai.
  - destruct (reservoir_contribution_sum i
                (seq 0 (length (ReservoirConstraintProto.time_exprs r))) ([], [], 0) Hi Hai)
      as (Hlen & Hoff & Hsum).
    { apply Forall_forall. intros j Hj. apply elem_of_seq in Hj. lia. }
    { done. }
    destruct (foldl _ _ _) as [[vars coeffs] offset]. cbn [fst snd] in *. subst offset.
    rewrite (Hdemand i Hi). destruct (Hfits i Hi) as [Hmin Hmax].
    unfold CapAdd, CapSub. rewrite !(saturate_in_int64 (_ - _)) by done.
    rewrite !Z.add_0_r, !saturate_in_int64 by done.
    rewrite holds_linear. cbn [forallb]. rewrite (Hactive i Hi), Hai. simpl.
    rewrite orb_false_r. unfold Domain.in_interval. simpl.
    rewrite Hsum. change (sum_terms s [] []) with 0.
    assert (Hlevel : level_at s r (event_time s r i)
              = event_change s r i
                + sum_over (fun j => if decide (i = j) then 0
                            else if event_active s r j
                                    && (event_time s r j <=? event_time s r i)
                                 then event_change s r j else 0)
                    (seq 0 (length (ReservoirConstraintProto.time_exprs r)))).
    { unfold level_at.
      rewrite (sum_over_split _ (seq 0 (length (ReservoirConstraintProto.time_exprs r))) i)
        by (try apply NoDup_seq; apply elem_of_seq; lia).
      rewrite Hai. simpl. by rewrite Z.leb_refl. }
    rewrite Hlevel, andb_true_iff, !Z.leb_le. split; intros H; [intros _|specialize (H eq_refl)];
      lia.
  - destruct (foldl _ _ _) as [[vars coeffs] offset].
    rewrite holds_linear. cbn [forallb]. rewrite (Hactive i Hi), Hai. simpl.
    split; [intros _ ?; discriminate|done].
Qed.

(** The level constraints hold when the reservoir does. *)
Lemma level_constraints_meaning :
  (forall ct,
      ct ∈ flat_map (fun i =>
                       if LiteralIsFalse context (is_active_literal r true_literal i) then []
                       else [level_constraint r true_literal precedence_cache context i])
                    (seq 0 (length (ReservoirConstraintProto.time_exprs r))) ->
      holds other_holds s ct = true)
  <-> reservoir_holds s r = true.
Proof.
  rewrite reservoir_holds_spec. split.
  - intros H i Hi Hai. apply (level_constraint_meaning i Hi); [|done]. apply H.
    apply list_elem_of_In, in_flat_map. exists i. split; [apply in_seq; lia|].
    destruct (LiteralIsFalse context (is_active_literal r true_literal i)) eqn:E.
    + rewrite (Hfalse i Hi E) in Hai. discriminate.
    + by left.
  - intros H ct Hct. apply list_elem_of_In, in_flat_map in Hct as (i & Hi & Hct).
    apply in_seq in Hi.
    destruct (LiteralIsFalse context (is_active_literal r true_literal i)); [done|].
    destruct Hct as [<-|[]]. apply level_constraint_meaning; [lia|]. apply H. lia.
Qed.

End LevelMeaning.

(** ** From the shape of the expansion to the solutions *)

Lemma precedence_value_agree (n : Z) (s s' : assignment) (k : PrecedenceKey) :
  agree n s s' -> key_below n k -> precedence_value s k = precedence_value s' k.
Proof.
  intros Hagree Hk. unfold key_below in Hk. rewrite !Forall_app in Hk.
  destruct Hk as (Hi & Hj & Ha). apply Forall_cons in Ha as [Hai Ha].
  apply Forall_inv in Ha. unfold precedence_value.
  rewrite (expr_value_agree n s s' k.1.1.1 Hagree Hi).
  rewrite (expr_value_agree n s s' k.1.1.2 Hagree Hj).
  by rewrite (literal_value_agree n s s' _ Hagree Hai),
             (literal_value_agree n s s' _ Hagree Ha).
Qed.

Lemma key_below_le (n m : Z) (k : PrecedenceKey) :
  n <= m -> key_below n k -> key_below m k.
Proof.
  intros Hle. unfold key_below. intros H. eapply Forall_impl; [exact H|].
  intros ref Href. simpl in Href. lia.
Qed.

Lemma precedence_solution_spec (other_holds : assignment -> Constraint -> bool)
    (s : assignment) (context : PresolveContext) :
  precedence_solution other_holds s context = true
  <-> solution other_holds s context = true
      /\ precedences_hold s (reified_precedences_cache context) = true.
Proof. unfold precedence_solution. by rewrite andb_true_iff. Qed.

Section ReservoirExpansion.

Variable other_holds : assignment -> Constraint -> bool.
Variable c : nat.
Variable context context' : PresolveContext.
Variable r : ReservoirConstraintProto.t.
Variable extra : list Domain.t.
Variable created : list PrecedenceKey.
Variable news : list ConstraintProto.t.

Hypothesis Hinput : expansion_input other_holds context c (plain (kReservoir r)).
Hypothesis Hmeaning : forall s, other_holds s (kReservoir r) = reservoir_holds s r.
Hypothesis Hcache : precedence_cache_valid context.
Hypothesis Hexpansion :
  reservoir_expansion other_holds context context' c r extra created news.

Lemma reservoir_expansion_length :
  Z.of_nat (length (domains context)) = variables_size context.
Proof.
  destruct Hinput as [(_ & Hinit & _) _]. unfold initialized in Hinit.
  unfold variables_size. by rewrite Hinit.
Qed.

(** The values of the variables of [extra] are 1 in a solution. *)
Lemma reservoir_expansion_extra (s : assignment) :
  domains_hold s (domains context') = true ->
  forall v, variables_size context <= v
            < variables_size context + Z.of_nat (length extra) -> s v = 1.
Proof.
  destruct Hexpansion as (Hextra & Hd & _). intros Hdom v Hv.
  destruct Hextra as [->| ->]; simpl in Hv; [lia|].
  assert (v = variables_size context) as -> by lia.
  pose proof (proj1 (domains_hold_spec _ _) Hdom (length (domains context))
                (Domain.Value 1)) as H.
  rewrite reservoir_expansion_length in H. rewrite Hd in H.
  rewrite lookup_app_r, Nat.sub_diag in H by lia. specialize (H eq_refl).
  rewrite DomainFacts.Contains_Value in H. apply Z.eqb_eq in H. lia.
Qed.

(** The values of the created literals in a solution. *)
Lemma reservoir_expansion_created (s : assignment) (j : nat) (k : PrecedenceKey) :
  domains_hold s (domains context') = true ->
  precedences_hold s (reified_precedences_cache context') = true ->
  created !! j = Some k ->
  s (variables_size context + Z.of_nat (length extra) + Z.of_nat j)
  = Z.b2z (precedence_value s k).
Proof.
  destruct Hexpansion as (Hextra & Hd & Hn & Hc & He & Hq & Hu & Hp & Hk & Hnews).
  intros Hdom Hprec Hj.
  set (lit := variables_size context + Z.of_nat (length extra) + Z.of_nat j).
  assert (Hin : (k, lit) ∈ reified_precedences_cache context').
  { rewrite Hp. apply elem_of_app. right. apply elem_of_lookup_imap. by exists j, k. }
  pose proof (proj1 (precedences_hold_spec _ _) Hprec _ _ Hin) as Hvalue.
  pose proof (proj1 (domains_hold_spec _ _) Hdom
                (length (domains context) + length extra + j)%nat bool_domain) as Hb.
  rewrite Hd, app_assoc in Hb. rewrite lookup_app_r in Hb by (rewrite length_app; lia).
  rewrite length_app in Hb.
  replace (length (domains context) + length extra + j
           - (length (domains context) + length extra))%nat with j in Hb by lia.
  rewrite lookup_replicate_2 in Hb by (apply lookup_lt_Some in Hj; lia).
  specialize (Hb eq_refl).
  replace (Z.of_nat (length (domains context) + length extra + j)) with lit in Hb
    by (unfold lit; rewrite <- reservoir_expansion_length; lia).
  apply Contains_bool_domain in Hb. rewrite Hb, <- Hvalue. unfold literal_value.
  assert (0 <= lit).
  { unfold lit, variables_size. lia. }
  unfold RefIsPositive. by destruct (Z.leb_spec 0 lit); [|lia].
Qed.

Lemma reservoir_expansion_projection (s : assignment) :
  precedence_solution other_holds s context' = true ->
  precedence_solution other_holds s context = true.
Proof.
  destruct Hexpansion as (Hextra & Hd & Hn & Hc & He & Hq & Hu & Hp & Hk & Hnews).
  destruct Hinput as [(Hct & Hinit & Hclosed & Hbelow & Hrefs) Hsorted].
  rewrite !precedence_solution_spec. intros [Hs Hprec].
  pose proof Hs as Hs0.
  apply solution_spec in Hs as (Hunsat & Hdom & Hcons & Henc & Heq).
  split.
  - apply solution_spec. split; [congruence|]. split; [|split; [|split]].
    + apply domains_hold_spec. intros i d Hi.
      apply (proj1 (domains_hold_spec _ _) Hdom i). rewrite Hd.
      by apply lookup_app_l_Some.
    + intros ct0 Hin. apply list_elem_of_lookup in Hin as [j Hj].
      destruct (decide (j = c)) as [->|Hne].
      * assert (ct0 = plain (kReservoir r)) as -> by congruence.
        unfold holds, plain. simpl. rewrite Hmeaning.
        apply (Hnews s Hdom Hprec). intros ct Hin. apply Hcons. rewrite Hc.
        apply elem_of_app. by right.
      * apply Hcons. rewrite Hc. apply elem_of_app. left.
        by apply (elem_of_list_insert_other _ c j).
    + by rewrite <- He.
    + by rewrite <- Hq.
  - apply precedences_hold_spec. intros k lit Hin.
    apply (proj1 (precedences_hold_spec _ _) Hprec). rewrite Hp.
    apply elem_of_app. by left.
Qed.

Lemma reservoir_expansion_extension (s : assignment) :
  precedence_solution other_holds s context = true ->
  exists s', agree (variables_size context) s s'
             /\ precedence_solution other_holds s' context' = true.
Proof.
  destruct Hexpansion as (Hextra & Hd & Hn & Hc & He & Hq & Hu & Hp & Hk & Hnews).
  destruct Hinput as [(Hct & Hinit & Hclosed & Hbelow & Hrefs) Hsorted].
  rewrite precedence_solution_spec. intros [Hs Hprec].
  pose proof Hs as Hs0.
  apply solution_spec in Hs as (Hunsat & Hdom & Hcons & Henc & Heq).
  pose proof reservoir_expansion_length as Hlen.
  set (n := variables_size context) in *.
  set (n1 := n + Z.of_nat (length extra)) in *.
  set (s1 := override s n (map (fun _ => 1) extra)).
  set (s' := override s1 n1 (map (fun k => Z.b2z (precedence_value s1 k)) created)).
  assert (Hagree1 : agree n s s1) by apply override_agree.
  assert (Hagree2 : agree n1 s1 s') by apply override_agree.
  assert (Hagree : agree n s s').
  { intros v Hv. rewrite (Hagree1 v Hv). apply Hagree2. lia. }
  destruct (cache_holds_agree _ s s' context Hagree Hbelow Henc Heq) as [Henc' Heq'].
  assert (Hdom' : domains_hold s' (domains context') = true).
  { apply domains_hold_spec. intros i d. rewrite Hd. intros Hi.
    apply lookup_app_Some in Hi as [Hi | [Hge Hi]].
    - rewrite <- Hagree
        by (apply lookup_lt_Some in Hi; lia).
      by apply (proj1 (domains_hold_spec _ _) Hdom i).
    - apply lookup_app_Some in Hi as [Hi | [Hge' Hi]].
      + assert (Hx : s' (Z.of_nat i) = 1).
        { pose proof (lookup_lt_Some _ _ _ Hi) as Hlt.
          rewrite <- Hagree2
            by (unfold n1; lia).
          replace (Z.of_nat i) with (n + Z.of_nat (i - length (domains context)))
            by lia.
          apply override_new. rewrite list_lookup_fmap.
          destruct (extra !! (i - length (domains context))%nat); [done|discriminate]. }
        rewrite Hx. destruct Hextra as [->| ->]; [by rewrite lookup_nil in Hi|].
        apply list_lookup_singleton_Some in Hi as [_ <-].
        by rewrite DomainFacts.Contains_Value.
      + apply lookup_replicate in Hi as [-> Hlt].
        replace (Z.of_nat i)
          with (n1 + Z.of_nat (i - length (domains context) - length extra))
          by (unfold n1; lia).
        destruct (lookup_lt_is_Some_2 created
                    (i - length (domains context) - length extra)) as [k Hk0]; [lia|].
        unfold s'. rewrite (override_new _ _ _ _ (Z.b2z (precedence_value s1 k)))
          by (by rewrite list_lookup_fmap, Hk0).
        apply Contains_bool_domain_b2z. }
  assert (Hprec' : precedences_hold s' (reified_precedences_cache context') = true).
  { apply precedences_hold_spec. intros k lit. rewrite Hp. intros Hin.
    apply elem_of_app in Hin as [Hin|Hin].
    - destruct (Hcache k lit Hin) as (Hlit & _ & Hkey).
      rewrite <- (precedence_value_agree n s s' k Hagree Hkey).
      rewrite <- (literal_value_agree n s s' lit Hagree)
        by (unfold PositiveRef, NegatedRef; unfold n; lia).
      by apply (proj1 (precedences_hold_spec _ _) Hprec).
    - apply elem_of_lookup_imap in Hin as (j & k0 & E & Hj). injection E as -> ->.
      rewrite Forall_forall in Hk.
      rewrite <- (precedence_value_agree n1 s1 s' k0 Hagree2)
        by (apply Hk; by apply list_elem_of_lookup_2 in Hj).
      unfold literal_value.
      assert (0 <= n1 + Z.of_nat j) by (unfold n1, n, variables_size; lia).
      unfold RefIsPositive. destruct (Z.leb_spec 0 (n1 + Z.of_nat j)); [|lia].
      unfold s'. rewrite (override_new _ _ _ _ (Z.b2z (precedence_value s1 k0)))
        by (by rewrite list_lookup_fmap, Hj).
      by destruct (precedence_value s1 k0). }
  exists s'. split; [done|]. apply precedence_solution_spec. split; [|done].
  apply solution_spec. split; [congruence|]. split; [done|]. split; [|split].
  - assert (Hres : reservoir_holds s' r = true).
    { rewrite <- Hmeaning.
      assert (Hin : plain (kReservoir r) ∈ constraints context)
        by (by apply list_elem_of_lookup_2 in Hct).
      pose proof (Hcons _ Hin) as Hholds. rewrite (Hclosed s s' Hagree _ Hin) in Hholds.
      exact Hholds. }
    intros ct0. rewrite Hc. intros Hin. apply elem_of_app in Hin as [Hin | Hin].
    + apply elem_of_list_insert_inv in Hin as [-> | Hin]; [done|].
      rewrite <- (Hclosed s s' Hagree ct0 Hin). by apply Hcons.
    + by apply (Hnews s' Hdom' Hprec').
  - by rewrite He.
  - by rewrite Hq.
Qed.

Lemma reservoir_expansion_determined :
  determines_precedence_variables other_holds context context'.
Proof.
  intros s1 s2 Hs1 Hs2 Hagree.
  apply precedence_solution_spec in Hs1 as [Hs1 Hp1].
  apply precedence_solution_spec in Hs2 as [Hs2 Hp2].
  apply solution_spec in Hs1 as (_ & Hdom1 & _).
  apply solution_spec in Hs2 as (_ & Hdom2 & _).
  assert (Hagree1 : agree (variables_size context + Z.of_nat (length extra)) s1 s2).
  { intros v Hv. destruct (Z_lt_ge_dec v (variables_size context)) as [Hlt|Hge].
    - apply Hagree. lia.
    - rewrite (reservoir_expansion_extra s1 Hdom1 v) by lia.
      by rewrite (reservoir_expansion_extra s2 Hdom2 v) by lia. }
  destruct Hexpansion as (Hextra & Hd & Hn & Hc & He & Hq & Hu & Hp & Hk & Hnews).
  intros v Hv.
  destruct (Z_lt_ge_dec v (variables_size context + Z.of_nat (length extra)))
    as [Hlt|Hge]; [apply Hagree1; lia|].
  rewrite Hn in Hv.
  destruct (lookup_lt_is_Some_2 created
              (Z.to_nat (v - (variables_size context + Z.of_nat (length extra)))))
    as [k Hj]; [lia|].
  replace v with (variables_size context + Z.of_nat (length extra)
                  + Z.of_nat (Z.to_nat (v - (variables_size context
                                             + Z.of_nat (length extra))))) by lia.
  rewrite (reservoir_expansion_created s1 _ k Hdom1 Hp1 Hj).
  rewrite (reservoir_expansion_created s2 _ k Hdom2 Hp2 Hj).
  f_equal. apply (precedence_value_agree _ s1 s2 k Hagree1).
  rewrite Forall_forall in Hk. apply Hk. by apply list_elem_of_lookup_2 in Hj.
Qed.

Lemma reservoir_expansion_solutions :
  preserves_precedence_solutions other_holds context context'
  /\ determines_precedence_variables other_holds context context'.
Proof.
  split; [split|].
  - apply reservoir_expansion_projection.
  - apply reservoir_expansion_extension.
  - apply reservoir_expansion_determined.
Qed.

End ReservoirExpansion.

(** ** The expansion of a reservoir *)

Lemma reservoir_refs_below (n : Z) (r : ReservoirConstraintProto.t) :
  refs_below n (plain (kReservoir r)) = true ->
  Forall (fun ref => PositiveRef ref < n)
         (flat_map expr_refs (ReservoirConstraintProto.time_exprs r))
  /\ Forall (fun ref => PositiveRef ref < n)
            (flat_map expr_refs (ReservoirConstraintProto.level_changes r))
  /\ Forall (fun ref => PositiveRef ref < n) (ReservoirConstraintProto.active_literals r).
Proof.
  unfold refs_below, UsedVariables. simpl. rewrite forallb_forall. intros H.
  assert (Hall : forall ref,
            ref ∈ flat_map expr_refs (ReservoirConstraintProto.time_exprs r)
                  ++ flat_map expr_refs (ReservoirConstraintProto.level_changes r)
                  ++ ReservoirConstraintProto.active_literals r ->
            PositiveRef ref < n).
  { intros ref Href. apply Z.ltb_lt, H, in_map. by apply list_elem_of_In. }
  repeat split; apply Forall_forall; intros ref Href; apply Hall;
    rewrite !elem_of_app; auto.
Qed.

Lemma expr_at_elem (l : list LinearExpressionProto.t) (i : nat) :
  (i < length l)%nat -> expr_at l i ∈ l.
Proof.
  intros Hi. unfold expr_at. destruct (lookup_lt_is_Some_2 l i Hi) as [x Hx].
  rewrite Hx. simpl. by apply list_elem_of_lookup_2 in Hx.
Qed.

Lemma filter_length_zero {A : Type} (P : A -> Prop) `{forall x, Decision (P x)}
    (l : list A) :
  length (filter P l) = 0%nat -> Forall (fun x => ~ P x) l.
Proof.
  induction l as [|x l IH]; [constructor|]. rewrite filter_cons.
  destruct (decide (P x)); [discriminate|]. intros Hl. constructor; auto.
Qed.

Lemma sum_terms_map (s : assignment) (f g : nat -> Z) (l : list nat) :
  sum_terms s (map f l) (map g l) = sum_over (fun i => g i * ref_value s (f i)) l.
Proof.
  unfold sum_terms, sum_over. induction l as [|i l IH]; simpl; [done|]. by rewrite IH.
Qed.

Lemma sorted_domains_app (ds ds' : list Domain.t) :
  forallb sorted_intervals ds = true -> forallb sorted_intervals ds' = true ->
  forallb sorted_intervals (ds ++ ds') = true.
Proof.
  rewrite !forallb_forall. intros H H' d Hd. apply in_app_or in Hd as [Hd|Hd]; auto.
Qed.

Lemma domains_hold_app (s : assignment) (ds ds' : list Domain.t) :
  domains_hold s (ds ++ ds') = true -> domains_hold s ds = true.
Proof.
  rewrite !domains_hold_spec. intros H i d Hi. apply H. by apply lookup_app_l_Some.
Qed.

Section ReservoirSolutions.

Variable other_holds : assignment -> Constraint -> bool.
Variable c : nat.
Variable context : PresolveContext.
Variable r : ReservoirConstraintProto.t.

Hypothesis Hinput : expansion_input other_holds context c (plain (kReservoir r)).
Hypothesis Hmeaning : forall s, other_holds s (kReservoir r) = reservoir_holds s r.
Hypothesis Hvalid : valid_reservoir context r.
Hypothesis Htrue : true_literal_valid context.
Hypothesis Hcache : precedence_cache_valid context.
Hypothesis Hpositive :
  mixed_signs context r = false ->
  Forall (fun lit => RefIsPositive lit = true) (ReservoirConstraintProto.active_literals r).

Lemma ExpandReservoir_unfold :
  ExpandReservoir c context
  = let r1 := GetTrueLiteral context in
    UpdateRuleStats "reservoir: expanded"
      (Clear c
         (if mixed_signs r1.2 r then
            let st := foldl (reservoir_precedences r r1.1
                               (length (ReservoirConstraintProto.time_exprs r)))
                            (∅, r1.2)
                            (seq 0 (length (ReservoirConstraintProto.time_exprs r) - 1)) in
            foldl (reservoir_level r r1.1 st.1
                     (length (ReservoirConstraintProto.time_exprs r)))
                  st.2 (seq 0 (length (ReservoirConstraintProto.time_exprs r)))
          else
            add_constraints
              (plain (kLinear (LinearConstraintProto.mk
                 (map (is_active_literal r r1.1)
                      (seq 0 (length (ReservoirConstraintProto.time_exprs r))))
                 (map (fun i => FixedValueExpr r1.2
                         (expr_at (ReservoirConstraintProto.level_changes r) i))
                      (seq 0 (length (ReservoirConstraintProto.time_exprs r))))
                 [ReservoirConstraintProto.min_level r;
                  ReservoirConstraintProto.max_level r])))
              r1.2)).
Proof.
  destruct Hinput as [(Hct & _) _]. destruct Hvalid as (_ & _ & Hzero & _).
  assert (Hres : reservoir_of (constraint_at c context) = r).
  { unfold constraint_at. by rewrite Hct. }
  unfold ExpandReservoir. rewrite Hres. cbv zeta.
  destruct (Z.ltb_spec (ReservoirConstraintProto.max_level r)
                       (ReservoirConstraintProto.min_level r)); [lia|].
  destruct (GetTrueLiteral context) as [true_literal context1]. cbn [fst snd].
  unfold mixed_signs. cbv zeta.
  destruct ((0 <? _)%nat && (0 <? _)%nat); [|done].
  by destruct (foldl _ _ _).
Qed.

Lemma reservoir_context_length :
  Z.of_nat (length (domains context)) = variables_size context.
Proof.
  destruct Hinput as [(_ & Hinit & _) _]. unfold initialized in Hinit.
  unfold variables_size. by rewrite Hinit.
Qed.

Section AfterTrueLiteral.

Variable true_literal : Z.
Variable context1 : PresolveContext.
Variable extra : list Domain.t.

Hypothesis Hextra : extra = [] \/ extra = [Domain.Value 1].
Hypothesis Hd1 : domains context1 = domains context ++ extra.
Hypothesis Hn1 :
  variables_size context1 = variables_size context + Z.of_nat (length extra).
Hypothesis Hinit1 : initialized context1.
Hypothesis Hc1 : constraints context1 = constraints context.
Hypothesis He1 : encoding context1 = encoding context.
Hypothesis Hq1 : equalities context1 = equalities context.
Hypothesis Hu1 : is_unsat context1 = is_unsat context.
Hypothesis Hp1 : reified_precedences_cache context1 = reified_precedences_cache context.
Hypothesis Htl : 0 <= true_literal < variables_size context1.
Hypothesis Hone :
  forall x, Domain.Contains (domain_of_var context1 true_literal) x = true -> x = 1.

Lemma reservoir_context1_length :
  Z.of_nat (length (domains context1)) = variables_size context1.
Proof. unfold initialized in Hinit1. unfold variables_size. by rewrite Hinit1. Qed.

Lemma reservoir_context1_prefix : domains_prefix context context1.
Proof. by exists extra. Qed.

Lemma reservoir_context1_sorted : forallb sorted_intervals (domains context1) = true.
Proof.
  destruct Hinput as [_ Hsorted]. rewrite Hd1. apply sorted_domains_app; [done|].
  by destruct Hextra as [->| ->].
Qed.

Lemma reservoir_active_below (j : nat) :
  (j < length (ReservoirConstraintProto.time_exprs r))%nat ->
  PositiveRef (is_active_literal r true_literal j) < variables_size context1.
Proof.
  intros Hj. destruct Hinput as [(_ & _ & _ & _ & Hrefs) _].
  apply reservoir_refs_below in Hrefs as (_ & _ & Hactive).
  destruct Hvalid as (_ & Hlen & _). unfold is_active_literal.
  destruct (ReservoirConstraintProto.active_literals r) as [|l lits] eqn:E.
  - unfold PositiveRef, NegatedRef. lia.
  - destruct Hlen as [Hlen|Hlen]; [discriminate|].
    rewrite Forall_forall in Hactive.
    assert (Hlt : (j < length (l :: lits))%nat) by lia.
    pose proof (Hactive (ref_at (l :: lits) j) (ref_at_elem _ _ Hlt)). lia.
Qed.

Lemma reservoir_keys_below (i j : nat) :
  (i < length (ReservoirConstraintProto.time_exprs r))%nat ->
  (j < length (ReservoirConstraintProto.time_exprs r))%nat ->
  key_below (variables_size context1) (precedence_key r true_literal i j).
Proof.
  intros Hi Hj. destruct Hinput as [(_ & _ & _ & _ & Hrefs) _].
  apply reservoir_refs_below in Hrefs as (Htime & _ & _).
  unfold key_below, precedence_key. cbn [fst snd]. rewrite !Forall_app.
  split; [|split].
  - eapply Forall_impl; [apply (expr_at_refs _ _ i Htime)|]. intros ref Href.
    simpl in Href. lia.
  - eapply Forall_impl; [apply (expr_at_refs _ _ j Htime)|]. intros ref Href.
    simpl in Href. lia.
  - constructor; [by apply reservoir_active_below|].
    constructor; [by apply reservoir_active_below|constructor].
Qed.

Lemma reservoir_demand_same (j : nat) :
  FixedValueExpr context1 (expr_at (ReservoirConstraintProto.level_changes r) j)
  = FixedValueExpr context (expr_at (ReservoirConstraintProto.level_changes r) j).
Proof.
  destruct Hinput as [(_ & _ & _ & _ & Hrefs) _].
  apply reservoir_refs_below in Hrefs as (_ & Hlevel & _).
  apply FixedValueExpr_prefix; [apply reservoir_context1_prefix|].
  rewrite reservoir_context_length. apply (expr_at_refs _ _ j Hlevel).
Qed.

Lemma reservoir_mixed_same : mixed_signs context1 r = mixed_signs context r.
Proof.
  destruct Hinput as [(_ & _ & _ & _ & Hrefs) _].
  apply reservoir_refs_below in Hrefs as (_ & Hlevel & _).
  apply Forall_flat_map in Hlevel. rewrite Forall_forall in Hlevel.
  unfold mixed_signs.
  replace (map (FixedValueExpr context1) (ReservoirConstraintProto.level_changes r))
    with (map (FixedValueExpr context) (ReservoirConstraintProto.level_changes r)); [done|].
  apply map_ext_in. intros e He. symmetry.
  apply FixedValueExpr_prefix; [apply reservoir_context1_prefix|].
  rewrite reservoir_context_length. apply Hlevel. by apply list_elem_of_In.
Qed.

Lemma reservoir_active_boolean (j : nat) :
  (j < length (ReservoirConstraintProto.time_exprs r))%nat ->
  boolean_literal context1 (is_active_literal r true_literal j).
Proof.
  intros Hj. pose proof (reservoir_active_below j Hj) as Hbelow.
  destruct Hinput as [(_ & _ & _ & _ & Hrefs) _].
  apply reservoir_refs_below in Hrefs as (_ & _ & Hactive).
  destruct Hvalid as (_ & Hlen & _ & _ & Hbool & _). unfold is_active_literal in *.
  destruct (ReservoirConstraintProto.active_literals r) as [|l lits] eqn:E.
  - intros x Hx. right. apply Hone.
    replace (PositiveRef true_literal) with true_literal in Hx
      by (unfold PositiveRef, NegatedRef; lia). done.
  - destruct Hlen as [Hlen|Hlen]; [discriminate|].
    rewrite Forall_forall in Hbool, Hactive.
    assert (Hlt : (j < length (l :: lits))%nat) by lia.
    pose proof (ref_at_elem (l :: lits) j Hlt) as Hin.
    intros x Hx. apply (Hbool _ Hin).
    rewrite (domain_of_var_prefix context context1 _ reservoir_context1_prefix) in Hx;
      [done|].
    split; [apply PositiveRef_nonnegative|].
    rewrite reservoir_context_length. by apply Hactive.
Qed.

Section Values.

Variable s : assignment.
Hypothesis Hdom1 : domains_hold s (domains context1) = true.

Lemma reservoir_true_literal_value : s true_literal = 1.
Proof.
  apply Hone. apply domain_of_var_holds; [done|]. rewrite reservoir_context1_length. lia.
Qed.

Lemma reservoir_active_value (j : nat) :
  literal_value s (is_active_literal r true_literal j) = event_active s r j.
Proof.
  unfold is_active_literal, event_active.
  destruct (ReservoirConstraintProto.active_literals r); [|done].
  unfold literal_value, RefIsPositive. destruct (Z.leb_spec 0 true_literal); [|lia].
  by rewrite reservoir_true_literal_value.
Qed.

Lemma reservoir_false_value (j : nat) :
  (j < length (ReservoirConstraintProto.time_exprs r))%nat ->
  LiteralIsFalse context1 (is_active_literal r true_literal j) = true ->
  event_active s r j = false.
Proof.
  intros Hj Hfalse. rewrite <- reservoir_active_value.
  apply (LiteralIsFalse_value context1); try done.
  - apply reservoir_context1_sorted.
  - rewrite reservoir_context1_length. by apply reservoir_active_below.
  - by apply reservoir_active_boolean.
Qed.

Lemma reservoir_demand_value (j : nat) :
  (j < length (ReservoirConstraintProto.time_exprs r))%nat ->
  FixedValueExpr context1 (expr_at (ReservoirConstraintProto.level_changes r) j)
  = event_change s r j.
Proof.
  intros Hj. rewrite reservoir_demand_same. unfold event_change. symmetry.
  destruct Hinput as [(_ & _ & _ & _ & Hrefs) Hsorted].
  apply reservoir_refs_below in Hrefs as (_ & Hlevel & _).
  destruct Hvalid as (Hlen & _ & _ & Hfixed & _).
  apply fixed_expr_value; [done| | |].
  - rewrite Hd1 in Hdom1. by apply domains_hold_app in Hdom1.
  - rewrite reservoir_context_length. apply (expr_at_refs _ _ j Hlevel).
  - rewrite Forall_forall in Hfixed. apply Hfixed. apply expr_at_elem. lia.
Qed.

Lemma reservoir_fits_value (j : nat) :
  (j < length (ReservoirConstraintProto.time_exprs r))%nat ->
  kint64min <= ReservoirConstraintProto.min_level r - event_change s r j <= kint64max
  /\ kint64min <= ReservoirConstraintProto.max_level r - event_change s r j <= kint64max.
Proof.
  intros Hj. rewrite <- (reservoir_demand_value j Hj), reservoir_demand_same.
  destruct Hvalid as (Hlen & _ & _ & _ & _ & Hfits).
  rewrite Forall_forall in Hfits. apply Hfits. apply expr_at_elem. lia.
Qed.

End Values.

(** The mixed case: the precedence literals and the level constraints. *)
Lemma reservoir_mixed_expansion :
  let st := foldl (reservoir_precedences r true_literal
                     (length (ReservoirConstraintProto.time_exprs r)))
                  (∅, context1)
                  (seq 0 (length (ReservoirConstraintProto.time_exprs r) - 1)) in
  let context' :=
    UpdateRuleStats "reservoir: expanded"
      (Clear c (foldl (reservoir_level r true_literal st.1
                         (length (ReservoirConstraintProto.time_exprs r)))
                      st.2 (seq 0 (length (ReservoirConstraintProto.time_exprs r))))) in
  exists created news,
    reservoir_expansion other_holds context context' c r extra created news.
Proof.
  destruct (reservoir_precedences_complete r true_literal context1 Hinit1
              reservoir_keys_below) as ([created Hg] & Hcached & Hcov).
  intros st. fold st in Hg, Hcached, Hcov.
  destruct (reservoir_level_loop r true_literal st.1 st.2
              (seq 0 (length (ReservoirConstraintProto.time_exprs r))) st.2 eq_refl)
    as (HcB & HdB & HvB & HeB & HqB & HuB & HpB).
  intros context'.
  pose proof (precedence_growth_prefix _ _ _ Hg) as Hprefix.
  destruct Hg as (Hd & Hn & Hi & Hc & He & Hq & Hu & Hp & Hk).
  destruct Hinput as [(Hct & Hinit & Hclosed & Hbelow & Hrefs) Hsorted].
  exists created. eexists. unfold reservoir_expansion.
  split; [exact Hextra|]. split; [|split; [|split; [|split; [|split; [|split; [|split;
    [|split]]]]]]].
  - unfold context'. rewrite domains_UpdateRuleStats, domains_Clear, HdB, Hd, Hd1.
    by rewrite app_assoc.
  - unfold context'. rewrite variables_size_UpdateRuleStats, variables_size_Clear.
    unfold variables_size at 1. rewrite HvB. fold (variables_size st.2). lia.
  - unfold context'. rewrite constraints_UpdateRuleStats, constraints_Clear, HcB, Hc, Hc1.
    rewrite insert_app_l by (by apply lookup_lt_Some in Hct). reflexivity.
  - change (encoding context') with (encoding (foldl (reservoir_level r true_literal st.1
      (length (ReservoirConstraintProto.time_exprs r))) st.2
      (seq 0 (length (ReservoirConstraintProto.time_exprs r))))). congruence.
  - change (equalities context') with (equalities (foldl (reservoir_level r true_literal st.1
      (length (ReservoirConstraintProto.time_exprs r))) st.2
      (seq 0 (length (ReservoirConstraintProto.time_exprs r))))). congruence.
  - change (is_unsat context') with (is_unsat (foldl (reservoir_level r true_literal st.1
      (length (ReservoirConstraintProto.time_exprs r))) st.2
      (seq 0 (length (ReservoirConstraintProto.time_exprs r))))). congruence.
  - change (reified_precedences_cache context')
      with (reified_precedences_cache (foldl (reservoir_level r true_literal st.1
        (length (ReservoirConstraintProto.time_exprs r))) st.2
        (seq 0 (length (ReservoirConstraintProto.time_exprs r))))).
    by rewrite HpB, Hp, Hp1, Hn1.
  - by rewrite <- Hn1.
  - intros s Hdom Hprec.
    change (reified_precedences_cache context')
      with (reified_precedences_cache (foldl (reservoir_level r true_literal st.1
        (length (ReservoirConstraintProto.time_exprs r))) st.2
        (seq 0 (length (ReservoirConstraintProto.time_exprs r))))) in Hprec.
    rewrite HpB in Hprec.
    unfold context' in Hdom. rewrite domains_UpdateRuleStats, domains_Clear, HdB in Hdom.
    assert (Hdom1 : domains_hold s (domains context1) = true).
    { rewrite Hd in Hdom. by apply domains_hold_app in Hdom. }
    assert (Hdom0 : domains_hold s (domains context) = true).
    { rewrite Hd1 in Hdom1. by apply domains_hold_app in Hdom1. }
    apply (level_constraints_meaning other_holds r true_literal st.1 st.2 s).
    + exact Hcached.
    + intros i j Hi0 Hj Hne Hfi Hfj.
      rewrite (LiteralIsFalse_prefix context1 st.2 _ Hprefix) in Hfi
        by (rewrite reservoir_context1_length; by apply reservoir_active_below).
      rewrite (LiteralIsFalse_prefix context1 st.2 _ Hprefix) in Hfj
        by (rewrite reservoir_context1_length; by apply reservoir_active_below).
      by apply Hcov.
    + exact Hprec.
    + intros k lit Hin. rewrite Hp in Hin. apply elem_of_app in Hin as [Hin|Hin].
      * rewrite Hp1 in Hin. destruct (Hcache k lit Hin) as (Hlit & Hbool & _).
        split; [lia|].
        pose proof (boolean_literal_value context s lit Hdom0) as Hv.
        replace (PositiveRef lit) with lit in Hv by (unfold PositiveRef, NegatedRef; lia).
        apply Hv; [rewrite reservoir_context_length; lia|done].
      * apply elem_of_lookup_imap in Hin as (j & k0 & E & Hj). injection E as -> ->.
        split; [unfold variables_size; lia|].
        pose proof (proj1 (domains_hold_spec _ _) Hdom
                      (length (domains context1) + j)%nat bool_domain) as Hb.
        rewrite Hd in Hb. rewrite lookup_app_r in Hb by lia.
        replace (length (domains context1) + j - length (domains context1))%nat
          with j in Hb by lia.
        rewrite lookup_replicate_2 in Hb by (apply lookup_lt_Some in Hj; lia).
        specialize (Hb eq_refl).
        replace (Z.of_nat (length (domains context1) + j))
          with (variables_size context1 + Z.of_nat j) in Hb
          by (rewrite <- reservoir_context1_length; lia).
        apply Contains_bool_domain in Hb. rewrite Hb.
        destruct (_ =? 1); simpl; auto.
    + intros j Hj. by apply reservoir_active_value.
    + intros j Hj Hfalse.
      rewrite (LiteralIsFalse_prefix context1 st.2 _ Hprefix) in Hfalse
        by (rewrite reservoir_context1_length; by apply reservoir_active_below).
      by apply reservoir_false_value.
    + intros j Hj. rewrite <- (reservoir_demand_value s Hdom1 j Hj).
      apply FixedValueExpr_prefix; [done|].
      rewrite reservoir_context1_length.
      apply reservoir_refs_below in Hrefs as (_ & Hlevel & _).
      eapply Forall_impl; [apply (expr_at_refs _ _ j Hlevel)|].
      intros ref Href. simpl in Href. lia.
    + intros j Hj. by apply reservoir_fits_value.
Qed.

(** The literal of an event in the sum of the same-sign case. *)
Lemma reservoir_active_term (s : assignment) (j : nat) :
  domains_hold s (domains context1) = true ->
  mixed_signs context1 r = false ->
  (j < length (ReservoirConstraintProto.time_exprs r))%nat ->
  ref_value s (is_active_literal r true_literal j) = Z.b2z (event_active s r j).
Proof.
  intros Hdom1 Hmixed Hj. rewrite <- (reservoir_active_value s Hdom1 j).
  assert (Epos : RefIsPositive (is_active_literal r true_literal j) = true).
  { rewrite reservoir_mixed_same in Hmixed. specialize (Hpositive Hmixed).
    destruct Hvalid as (_ & Hlen & _). unfold is_active_literal.
    destruct (ReservoirConstraintProto.active_literals r) as [|l lits] eqn:E.
    - unfold RefIsPositive. apply Z.leb_le. lia.
    - destruct Hlen as [Hlen|Hlen]; [discriminate|].
      rewrite Forall_forall in Hpositive. apply Hpositive.
      apply ref_at_elem. lia. }
  pose proof (boolean_literal_value context1 s _ Hdom1
                ltac:(rewrite reservoir_context1_length; by apply reservoir_active_below)
                (reservoir_active_boolean j Hj)) as Hv.
  rewrite (PositiveRef_positive _ Epos) in Hv.
  unfold ref_value, literal_value. rewrite Epos. by destruct Hv as [-> | ->].
Qed.

(** The same-sign case: one linear constraint on the active literals. *)
Lemma reservoir_same_sign_expansion :
  mixed_signs context1 r = false ->
  let sum :=
    plain (kLinear (LinearConstraintProto.mk
      (map (is_active_literal r true_literal)
           (seq 0 (length (ReservoirConstraintProto.time_exprs r))))
      (map (fun i => FixedValueExpr context1
              (expr_at (ReservoirConstraintProto.level_changes r) i))
           (seq 0 (length (ReservoirConstraintProto.time_exprs r))))
      [ReservoirConstraintProto.min_level r; ReservoirConstraintProto.max_level r])) in
  reservoir_expansion other_holds context
    (UpdateRuleStats "reservoir: expanded" (Clear c (add_constraints sum context1)))
    c r extra [] [sum].
Proof.
  intros Hmixed sum.
  destruct Hinput as [(Hct & Hinit & Hclosed & Hbelow & Hrefs) Hsorted].
  unfold reservoir_expansion. split; [exact Hextra|].
  split; [|split; [|split; [|split; [|split; [|split; [|split; [|split]]]]]]].
  - rewrite domains_UpdateRuleStats, domains_Clear, domains_add_constraints, Hd1.
    simpl. by rewrite app_nil_r.
  - rewrite variables_size_UpdateRuleStats, variables_size_Clear,
      variables_size_add_constraints. simpl. lia.
  - rewrite constraints_UpdateRuleStats, constraints_Clear, constraints_add_constraints, Hc1.
    by rewrite insert_app_l by (by apply lookup_lt_Some in Hct).
  - exact He1.
  - exact Hq1.
  - exact Hu1.
  - simpl. rewrite app_nil_r. exact Hp1.
  - constructor.
  - intros s Hdom _.
    rewrite domains_UpdateRuleStats, domains_Clear, domains_add_constraints in Hdom.
    destruct Hvalid as (Hlen & _ & Hzero & _).
    assert (Hvalue :
      sum_terms s
        (map (is_active_literal r true_literal)
             (seq 0 (length (ReservoirConstraintProto.time_exprs r))))
        (map (fun i => FixedValueExpr context1
                (expr_at (ReservoirConstraintProto.level_changes r) i))
             (seq 0 (length (ReservoirConstraintProto.time_exprs r))))
      = total_change s r).
    { rewrite sum_terms_map. unfold total_change. apply sum_over_ext. intros j Hj.
      apply elem_of_seq in Hj.
      rewrite (reservoir_demand_value s Hdom j) by lia.
      rewrite (reservoir_active_term s j Hdom Hmixed) by lia.
      destruct (event_active s r j); simpl; lia. }
    assert (Hsign :
      (forall j, (j < length (ReservoirConstraintProto.time_exprs r))%nat ->
                 0 <= event_change s r j)
      \/ (forall j, (j < length (ReservoirConstraintProto.time_exprs r))%nat ->
                    event_change s r j <= 0)).
    { assert (Hin : forall j, (j < length (ReservoirConstraintProto.time_exprs r))%nat ->
                event_change s r j
                ∈ map (FixedValueExpr context1)
                    (ReservoirConstraintProto.level_changes r)).
      { intros j Hj. rewrite <- (reservoir_demand_value s Hdom j Hj).
        apply list_elem_of_fmap_2, expr_at_elem. lia. }
      unfold mixed_signs in Hmixed. cbv zeta in Hmixed.
      apply andb_false_iff in Hmixed as [Hnone|Hnone]; apply Nat.ltb_ge in Hnone.
      - right. intros j Hj.
        assert (Hnil : length (filter (fun d => 0 < d)
                  (map (FixedValueExpr context1)
                     (ReservoirConstraintProto.level_changes r))) = 0%nat) by lia.
        apply filter_length_zero in Hnil. rewrite Forall_forall in Hnil.
        specialize (Hnil _ (Hin j Hj)). simpl in Hnil. lia.
      - left. intros j Hj.
        assert (Hnil : length (filter (fun d => d < 0)
                  (map (FixedValueExpr context1)
                     (ReservoirConstraintProto.level_changes r))) = 0%nat) by lia.
        apply filter_length_zero in Hnil. rewrite Forall_forall in Hnil.
        specialize (Hnil _ (Hin j Hj)). simpl in Hnil. lia. }
    rewrite (reservoir_same_sign s r Hzero Hsign), <- Hvalue. split.
    + intros H. specialize (H sum ltac:(left)). unfold sum, plain in H.
      rewrite holds_linear in H. simpl in H. rewrite orb_false_r in H.
      unfold Domain.in_interval in H. simpl in H.
      apply andb_true_iff in H as [H1 H2]. apply Z.leb_le in H1, H2. lia.
    + intros H ct Hct0. apply list_elem_of_singleton in Hct0 as ->. unfold sum, plain.
      rewrite holds_linear. simpl. rewrite orb_false_r. unfold Domain.in_interval. simpl.
      apply andb_true_iff. split; apply Z.leb_le; lia.
Qed.

End AfterTrueLiteral.

Lemma ExpandReservoir_expansion :
  exists extra created news,
    reservoir_expansion other_holds context (ExpandReservoir c context) c r
      extra created news.
Proof.
  rewrite ExpandReservoir_unfold. cbv zeta.
  destruct Hinput as [(Hct & Hinit & Hclosed & Hbelow & Hrefs) Hsorted].
  destruct (GetTrueLiteral_step context Hinit Hsorted Htrue)
    as (extra & Hextra & Hd & Hn & Hi & Hc & He & Hq & Hu & Hp & Htl & Hone).
  destruct (GetTrueLiteral context) as [true_literal context1]. cbn [fst snd] in *.
  exists extra. destruct (mixed_signs context1 r) eqn:Emixed.
  - by apply (reservoir_mixed_expansion true_literal context1 extra).
  - exists [].  eexists.
    by apply (reservoir_same_sign_expansion true_literal context1 extra).
Qed.

(** The expansion of a reservoir keeps the solutions. *)
Lemma reservoir_solutions :
  preserves_precedence_solutions other_holds context (ExpandReservoir c context)
  /\ determines_precedence_variables other_holds context (ExpandReservoir c context).
Proof.
  destruct ExpandReservoir_expansion as (extra & created & news & Hexpansion).
  by apply (reservoir_expansion_solutions other_holds c context _ r extra created news).

Qed.

End ReservoirSolutions.

(** ** Examples *)

Lemma reservoir_holds_agree (n : Z) (s s' : assignment) (r : ReservoirConstraintProto.t) :
  agree n s s' -> 0 < n ->
  refs_below n (plain (kReservoir r)) = true ->
  reservoir_holds s r = reservoir_holds s' r.
Proof.
  intros Hagree Hn Hrefs. apply reservoir_refs_below in Hrefs as (Htime & Hlevel & Hactive).
  assert (Ha : forall j, event_active s r j = event_active s' r j).
  { intros j. unfold event_active.
    destruct (ReservoirConstraintProto.active_literals r) as [|l lits]; [done|].
    apply (literal_value_agree n s s' _ Hagree). unfold ref_at.
    destruct ((l :: lits) !! j) as [x|] eqn:E; simpl.
    - rewrite Forall_forall in Hactive. apply Hactive. by apply list_elem_of_lookup_2 in E.
    - unfold PositiveRef, NegatedRef. lia. }
  assert (Ht : forall j, event_time s r j = event_time s' r j).
  { intros j. apply (expr_value_agree n s s' _ Hagree), (expr_at_refs _ _ j Htime). }
  assert (Hc : forall j, event_change s r j = event_change s' r j).
  { intros j. apply (expr_value_agree n s s' _ Hagree), (expr_at_refs _ _ j Hlevel). }
  assert (Hl : forall t, level_at s r t = level_at s' r t).
  { intros t. unfold level_at. apply sum_over_ext. intros j _. by rewrite Ha, Ht, Hc. }
  unfold reservoir_holds.
  induction (seq 0 (length (ReservoirConstraintProto.time_exprs r))) as [|i l IH]; [done|].
  cbn [forallb]. by rewrite IH, Ha, Ht, Hl.
Qed.

Lemma reservoir_semantics_closed (context : PresolveContext) :
  0 < variables_size context ->
  forallb (refs_below (variables_size context)) (constraints context) = true ->
  Forall (fun ct => ConstraintProto.enforcement_literal ct = []) (constraints context) ->
  closed_model reservoir_semantics context.
Proof.
  intros Hn Hrefs Hplain. apply closed_model_refs; [done|].
  intros s s' ct Hct Hagree. rewrite forallb_forall in Hrefs.
  rewrite Forall_forall in Hplain.
  pose proof (Hrefs ct ltac:(by apply list_elem_of_In)) as Href.
  pose proof (Hplain ct Hct) as Henf.
  destruct ct as [enf k]. simpl in *. subst enf.
  destruct k; try done. by apply (reservoir_holds_agree (variables_size context)).
Qed.

Section ReservoirExpansionTheorem.

Variable other_holds : assignment -> Constraint -> bool.

(** X21.  [ExpandReservoir] keeps the solutions in which the literals of
    the cache of precedences mean what they say.  For a reservoir without
    enforcement literal that allows the level 0, with as many level changes
    as times and as many active literals or none, fixed level changes,
    Boolean active literals (not negated when the level changes have the
    same sign) and bounds that stay 64-bit integers less a level change:
    every solution after the expansion is a solution before it, every
    solution before it extends to the new variables (the true literal and
    the precedence literals) into a solution after it, and the new
    variables are determined by the variables of the model.  The reservoir
    means that the level just after each active event, which counts every
    active event that is not later, is within the bounds. *)
Theorem ExpandReservoir_solutions (c : nat) (context : PresolveContext)
    (r : ReservoirConstraintProto.t) :
  expansion_input other_holds context c (plain (kReservoir r)) ->
  (forall s, other_holds s (kReservoir r) = reservoir_holds s r) ->
  valid_reservoir context r ->
  true_literal_valid context ->
  precedence_cache_valid context ->
  (mixed_signs context r = false ->
   Forall (fun lit => RefIsPositive lit = true)
          (ReservoirConstraintProto.active_literals r)) ->
  preserves_precedence_solutions other_holds context (ExpandReservoir c context)
  /\ determines_precedence_variables other_holds context (ExpandReservoir c context).
Proof. apply reservoir_solutions. Qed.

End ReservoirExpansionTheorem.

Lemma fill_and_drain_input :
  expansion_input reservoir_semantics fill_and_drain_context 0
    (plain (kReservoir fill_and_drain)).
Proof.
  split; [|reflexivity]. split; [reflexivity|]. split; [reflexivity|].
  split; [|split; reflexivity].
  apply reservoir_semantics_closed; [reflexivity|reflexivity|].
  repeat constructor.
Qed.

Lemma fill_and_drain_valid : valid_reservoir fill_and_drain_context fill_and_drain.
Proof.
  split; [reflexivity|]. split; [by left|]. split; [simpl; lia|].
  split; [repeat constructor|]. split; [constructor|].
  repeat constructor; vm_compute; congruence.
Qed.

Lemma ExpandReservoir_solutions_witness :
  preserves_precedence_solutions reservoir_semantics fill_and_drain_context
    (ExpandReservoir 0 fill_and_drain_context)
  /\ determines_precedence_variables reservoir_semantics fill_and_drain_context
       (ExpandReservoir 0 fill_and_drain_context).
Proof.
  apply (ExpandReservoir_solutions reservoir_semantics 0%nat fill_and_drain_context
           fill_and_drain).
  - apply fill_and_drain_input.
  - reflexivity.
  - apply fill_and_drain_valid.
  - intros l Hl. discriminate.
  - intros k lit Hin. by apply elem_of_nil in Hin.
  - intros _. constructor.
Defined.

(** With an active literal that is the negation of a variable and level
    changes of the same sign, [ExpandReservoir] loses a solution: the
    literal is a term of the linear constraint, where it counts as the
    opposite of its variable. *)
Lemma ExpandReservoir_negated_active_literal :
  precedence_solution reservoir_semantics event_not_active negated_event_context = true
  /\ forall s', agree (variables_size negated_event_context) event_not_active s' ->
       precedence_solution reservoir_semantics s'
         (ExpandReservoir 0 negated_event_context) = false.
Proof.
  split; [reflexivity|]. intros s' Hagree.
  assert (Hs : s' 0 = 1).
  { rewrite <- Hagree; [reflexivity|]. vm_compute. split; congruence. }
  unfold precedence_solution, solution.
  assert (Hc : forallb (holds reservoir_semantics s')
                 (constraints (ExpandReservoir 0 negated_event_context)) = false).
  { change (constraints (ExpandReservoir 0 negated_event_context))
      with [ConstraintProto.cleared;
            plain (kLinear (LinearConstraintProto.mk [NegatedRef 0] [1] [0; 1]))].
    cbn [forallb]. unfold plain. rewrite holds_linear.
    cbn [LinearConstraintProto.vars LinearConstraintProto.coeffs LinearConstraintProto.domain
         forallb implb pair_up existsb].
    unfold sum_terms. cbn [zip_with foldr]. unfold ref_value.
    change (RefIsPositive (NegatedRef 0)) with false.
    change (PositiveRef (NegatedRef 0)) with 0. cbn iota. rewrite Hs. reflexivity. }
  rewrite Hc. by rewrite !andb_false_r.
Qed.
(** * The solutions of a model and of its expansion, family by family *)

Section ExpansionSolutions.

Variable other_holds : assignment -> Constraint -> bool.


End ExpansionSolutions.


